(* ===== verification/_CoqProject ===== *)
-Q . S2P
Prelude.v
Order.v
Decimal.v
Queue.v
Tasks.v
TypeSystem.v
Lexer.v
Ast.v
Parser.v
Integrity.v
JsonNumber.v
Json.v
Mir.v
MirProof.v
Capability.v
TypeContracts.v
Effects.v
Typestate.v
Affine.v
Modules.v
MirGraph.v
TypedHir.v
Lowering.v
LoweringProof.v
LoweringSafe.v
Value.v
NativeRuntime.v
NativeAdmission.v
NativeProof.v
NativeSafety.v
NativeLowered.v
NativeData.v
RuntimeValues.v
RuntimeHost.v
Collections.v
Interpreter.v
Confinement.v
InterpreterAuthority.v
InterpreterFrame.v
InterpreterFuel.v
Semantic.v
SemanticScope.v
SemanticRules.v
SemanticTypes.v
SemanticAmbient.v
SemanticAuthority.v
SemanticFuel.v
