(* ===== verification/Prelude.v ===== *)
(** * The Koschei compiler core, verified

This library models the core of the Koschei language implementation under
src/koschei/ and proves what its passes promise each other: the scanner, the
parser and the program integrity pass of the front end; the structural types
and the contracts on them; the semantic checker with its capability rules; the effect,
ownership and typestate checks and the module pipeline that runs them; the lowering of checked functions to the sealed
intermediate representation (MIR), with its validator; the executor that runs
sealed MIR directly; the tree interpreter with its capabilities; and the runtime
data types (decimals, queues, task scopes, JSON) whose behaviour is the
language's contract.

** How the parts fit

Source text is scanned ([Lexer.tokenize]) and parsed ([Parser.parse]) to the
tree of [Ast]; [Integrity.check_program_integrity] rejects duplicate
declarations and functions that can run off their end.  [Modules.load_graph]
does this for a project, and [Modules.check_graph] runs the checks over its
modules in dependency order: the structural checker, which is a parameter, gives
every expression a type of [TypeSystem]; the semantic checker ([Semantic.check])
works on the texts of types, with the structural types as evidence for the items of
loops, and decides names, mutability, literals and the static capability rules; [Typestate], [Affine] and [Effects] use
these types with the contracts of [TypeContracts].  The lowering
([Lowering.lower_function_blocks_v1]) turns every function into a control-flow
graph of [Mir], reading the checker's report of [TypedHir]; the pipeline takes it
as a parameter.  [MirGraph.assert_sealed]
re-validates every function with [Mir.validate_blocks] and compares the
fingerprint; [NativeAdmission.inspect_native_mir_support] decides whether the
direct executor can run the graph, and [NativeAdmission.run_mir_native] runs it
with the machine of [NativeRuntime], whose operators are those of [Value].
Capability methods are classified by the tables of [Capability].
The other way to run a program is the tree interpreter
([Interpreter.execute_main]): it evaluates the tree of [Ast] itself, with mutable
structs in a heap, closes every call with the contracts of [TypeContracts] and
reaches files, network and environment through capability values only.

** Files

- [Prelude]: Python text as code points, the error type [outcome] with its
  folds, fuel, and the lemmas on lists that several files share.
- [Decimal]: src/koschei/financial_decimal.py (module [Py]) and the Go runtime
  text in financial_decimal_v1.py (module [Go]).
- [Queue]: bounded_queue.py.   [Tasks]: structured_tasks.py and the task calls of
  structured_task_safety_v1.py.
- [TypeSystem]: type_system.py.
- [Lexer]: lexer.py and the token printer of _formatter_v09.py.
- [Ast]: ast_nodes.py, generic_nodes.py, native_sigils_v1.py.
- [Parser]: _parser_v09.py with the methods of parser.py and
  ergonomics_syntax.py that replace its own.
- [Integrity]: integrity.py.
- [JsonNumber] and [Json]: data_json_v1.py, the numbers and the codec.
- [Mir]: the data of mir_ir.py and mir_extension_instructions_v4.py, the registry
  of mir_instruction_registry_v4.py, [validate_blocks] and the variant proofs of
  mir_variant_proof_v1.py.   [MirProof]: the theorems about them.
- [Capability]: capability_effect_contract_v1.py.
- [TypeContracts]: type_contracts.py with bounded_queue_contract_gate.py.
- [Effects]: effect_contracts_v1.py.   [Typestate]: typestate_resources_v1.py.
- [Affine]: affine_resources_v1.py with typestate_affine_alignment.py; its second
  half is an execution model of ownership.
- [Order]: the dependency order of an import graph, which modules.py and mir.py
  share.   [Modules]: modules.py.
- [MirGraph]: the graph, its order and its seal in mir.py; mir_scope_safety.py.
- [TypedHir]: the data classes of the report in typed_hir.py and the projection of
  block types in _typed_expr.py.
- [Lowering]: the lowerer of mir_ir.py as mir_canonical_lowering_v1.py runs it,
  with the methods of mir_or_return_normalization_v1.py,
  mir_match_lowering_v1.py and mir_variant_constructor_lowering_v1.py, the match
  plans of mir_match_plan_v1.py and the hooks of ergonomics_*.py.
- [LoweringProof]: weakest preconditions for the lowerer's monad and one lemma per
  method.   [LoweringSafe]: the recursion over the tree, what the blocks of a
  function satisfy, and an abstract description of free names.
- [Value]: the values and operators of mir_native_runtime.py, with
  integer_division_mir_v1.py, direct_mir_type_integrity_v1.py and
  mir_variant_runtime_v1.py; module [Canonical] has the binary operation of
  mir_executor_v1.py.
- [NativeRuntime]: the class [_MirExecutor] of mir_native_runtime.py with its
  call contract.   [NativeAdmission]: the support inspection and
  [run_mir_native], with mir_native_module_shadow_guard_v1.py and
  mir_native_variant_construct_v1.py.
- [NativeProof], [NativeSafety], [NativeData]: the theorems about the executor.
  [NativeLowered]: lowering and execution together.
- [RuntimeValues]: the values of interpreter.py, text conversion, comparison,
  [_contains_capability], and the runtime types and matchers of interpreter.py and
  runtime_alignment.py.   [RuntimeHost]: the state monad of the interpreter,
  [_Environment], the shared checks, the classes of the capabilities with their
  scope checks, and the host.   [Collections]: [_invoke_member], the methods of
  String, List and Map, with those that ergonomics_*.py install.
- [Interpreter]: the class [Interpreter] with the methods that
  runtime_alignment.py and ergonomics_runtime.py install over its own; its
  mutually recursive methods are one function [step] over the type [task].
- [Confinement], [InterpreterAuthority], [InterpreterFrame], [InterpreterFuel]: the
  theorems about it, each with a logic for the monad: what may be asked of the host
  ([safe]), what is left as it was ([keeps]), what fuel changes ([approximates]).
- [Semantic]: [SemanticChecker] of semantic.py with the methods that the modules
  ergonomics_*.py, financial_decimal_operator_gate.py, data_public_abi_v1.py and
  data_language_v1.py put over its own.   [SemanticScope]: induction over the tree and
  what a check keeps.   [SemanticRules]: the rules of names, literals and loops as a
  separate function on the tree.   [SemanticTypes], [SemanticAmbient],
  [SemanticAuthority], [SemanticFuel]: the theorems about type texts, about programs
  without capabilities, about the contract of capabilities and the interpreter, and
  about fuel.

** What is shown

- Front end: scanning terminates, keeps positions, ignores comments and is
  inverted by the token printer; parsing terminates on every source and never
  reads past its tokens; the integrity pass decides an independent description
  of how control leaves a statement, and each of its errors names a real fault.
- Types: text and type are inverse, unions are canonical sets, instantiation
  closes a type and binding its variables undoes it.
- Contracts: assignability is an order, inference inverts instantiation, a type
  is sensitive exactly if a capability is somewhere inside it.
- Semantic checker: it terminates; an accepted program obeys the rules of scope,
  mutability, literals, matches and loops; whether a type carries a capability is
  decided exactly, and an accepted assignment neither hides nor invents one; a
  program whose types mention no capability derives none; the methods of a capability
  are those of its contract; an accepted match always finds its arm when the tree
  interpreter runs it.
- Program checks: the effect report is the least fixed point over local calls, and
  across modules the lowering receives exactly the effects of each function; no
  pure function of a checked program performs an effect; no execution of an
  accepted function uses a resource after it was moved; the states of a stateful
  resource change only through sealed transitions.
- Modules: loading a finite project ends with exactly the reachable modules and
  no import cycle, or with an error that names a real fault.
- MIR: the validator accepts exactly the functions that are single-assignment,
  closed, and extract a payload only where every path has tested the variant;
  the proof propagation reaches its fixed point; the seal and the dependency
  order are characterized, import cycles included.
- Lowering: it terminates, never trips over its own state, and its blocks come with
  a certificate: at each point the defined values, the bound names and the tested
  variants of every path.  From the certificate: the blocks are well formed and
  scope safe, the validator refuses them only for two reasons it names, and a run
  never misses a value or, unless it is free in the source, a name.
- Executor: every run terminates; a call restores its frame on every exit;
  larger budgets do not change a run that did not exhaust its own; in a sealed
  and admitted graph the errors that validation rules out are never raised
  ([NativeSafety], a simulation of the static variant facts by the run);
  64-bit arithmetic is exact or an Error value; the direct and the canonical
  executor agree on binary operations; map literals keep their entries.
- Capabilities: effect, permission and power domain of a method agree, and
  narrowing only attenuates.
- Tree interpreter: whatever program runs, the host is asked for nothing that the
  capabilities it started from do not permit, and without a [SystemCaps] parameter
  of [main] for nothing but to print; the path check of a disk capability and the
  search for capabilities inside a value are exact; a task restores the frame and
  changes no immutable binding; fuel only cuts a run off.
- Data: decimals and JSON numbers never round, decimal arithmetic agrees between
  the interpreter and the native runtime, the JSON encoding is canonical and
  inverted by the decoder, the limits hold.
- Runtime objects: the queue refines a bounded list, the task scope refines the
  list of its tasks, and joining runs each task that was not cancelled once.

** Conventions

A Python exception is [Raise] with a constructor for its message; a loop or a
recursion without a structural argument takes fuel, and running out of it is
[NoFuel], which is never an answer: for each such function a theorem shows that
the fuel it is given is enough, except for the tree interpreter, whose programs may
run forever: its fuel is an argument, and a theorem shows that more of it does not
change a run that ended.  Its second bound, [limit], is how deep text conversion and
comparison follow structs that hold one another, where Python ends in
[RecursionError].  The scanner and the parser get fuel from the
length of their input, the proof propagation from the number of facts that can
still be dropped ([Mir.proof_fuel]), the executor from its step budget
([NativeRuntime.execution_fuel]), since every block and every call consumes a
step; the propagation of effects from the number of effects that can still be
added ([Effects.effect_fuel]), and the module loader from the number of readable
paths.  Recursion on types that substitution builds takes the depth of Python's
stack and ends in [RecursionError] as the code does.  Python integers are [Z], and a 64-bit range is a test where the code has
one; floats are binary64 [spec_float]; a [dict] is the list of its items in
insertion order; objects that the code mutates while they are shared (builders
and iterators) live in a heap.

** Not modelled

The structural checker (typed_hir.py) is a function of the record [Modules.passes],
so that what is proved of the pipeline holds whatever it does; so is, in the pipeline,
the semantic checker, which [Semantic] models by itself.
The theorems about the lowering hold for every report the structural checker could fill.  The fingerprint (SHA-256 over canonical JSON), the
native sigil report and the printed form of floats are parameters of the
definitions that use them.  The builtins that adapters add to the executor
(data, decimal, queue and task calls) end in an error of their own, in the tree
interpreter as in the executor.  The operating system behind a capability (opening
components without following links, HTTP with its redirects, the environment),
[urlsplit], [str.lower], [realpath] and the printed form of floats are the record
[RuntimeHost.host], functions of what was asked before; so is the text of Python's
own [TypeError].  The tree interpreter's [RecursionError] handler, the capabilities
[persist] and [serve] and the diagnostics texts of the compiler's inference are
outside it.  The semantic checker ends in [OutsideChecker] at the builtins of other
modules, at the methods of [persist] and [serve] and at queue types; [urlsplit] and
the types of the typed report are its parameters, and the rewriting of generic
declarations before it (legacy_generics.py) is not modelled.
The Go code generator emits Go text, whose meaning would need a model of Go; the
command line, the editor server, the diagnostics catalogue and the native_*,
library_* and universe_* modules are data, text generation or glue around this core
and are left out. *)

From stdpp Require Export base tactics option list list_numbers strings sorting gmap.
From Stdlib Require Export ZArith Lia.
From Stdlib Require Ascii String.

#[global] Open Scope Z_scope.

(** * Python text

A Python [str] is a sequence of Unicode code points; the model keeps the code
points as integers. *)

Abbreviation ustring := (list Z).

(** The code points of an ASCII literal. *)
Definition u (s : string) : ustring :=
  (λ a, Z.of_N (Ascii.N_of_ascii a)) <$> String.list_ascii_of_string s.

(** UTF-8, of code points below 2^16. *)
Fixpoint utf8_decode (s : list Z) : ustring :=
  match s with
  | [] => []
  | a :: s1 =>
      if a <? 192 then a :: utf8_decode s1
      else
        match s1 with
        | [] => []
        | b :: s2 =>
            if a <? 224 then ((a - 192) * 64 + (b - 128)) :: utf8_decode s2
            else
              match s2 with
              | [] => []
              | c :: s3 => ((a - 224) * 4096 + (b - 128) * 64 + (c - 128)) :: utf8_decode s3
              end
        end
  end.

(** The code points of a literal with letters outside ASCII. *)
Definition w (s : string) : ustring := utf8_decode (u s).

(** The code point of a one-character literal, computed when it is parsed. *)
Notation "'ch' c" :=
  (ltac:(let v := eval vm_compute in (List.hd 0 (u c%string)) in exact v))
  (at level 1, c constr at level 0, only parsing).

Definition QUOTE : Z := 34.
Definition BACKSLASH : Z := 92.
Definition NEWLINE : Z := 10.
Definition NUL : Z := 0.

(** * Results of fallible code

[Raise] is a Python exception; [NoFuel] is the model running out of the fuel
that bounds a loop, which the termination theorems show never happens. *)

Inductive outcome (E A : Type) : Type :=
  | Done (a : A)
  | Raise (e : E)
  | NoFuel.
Arguments Done {E A} a.
Arguments Raise {E A} e.
Arguments NoFuel {E A}.

#[export] Instance outcome_eq_dec {E A} `{EqDecision E, EqDecision A} : EqDecision (outcome E A).
Proof. solve_decision. Defined.

#[export] Instance outcome_ret E : MRet (outcome E) := λ A a, Done a.
#[export] Instance outcome_bind E : MBind (outcome E) := λ A B f m,
  match m with
  | Done a => f a
  | Raise e => Raise e
  | NoFuel => NoFuel
  end.

Definition is_done {E A} (o : outcome E A) : bool :=
  match o with Done _ => true | _ => false end.

(** [tuple(dict.fromkeys(l))]: the first occurrence of every element, in order. *)
Fixpoint dict_fromkeys {A} `{EqDecision A} (l : list A) : list A :=
  match l with
  | [] => []
  | x :: l => x :: filter (λ y, y ≠ x) (dict_fromkeys l)
  end.

(** Run [f] over a list, left to right, stopping at the first failure. *)
Fixpoint outcome_map {E A B} (f : A → outcome E B) (l : list A) : outcome E (list B) :=
  match l with
  | [] => Done []
  | x :: l => y ← f x; ys ← outcome_map f l; Done (y :: ys)
  end.

(** Fold a fallible step over a list, stopping at the first failure. *)
Fixpoint outcome_fold {E A S} (f : S → A → outcome E S) (s : S) (l : list A) : outcome E S :=
  match l with
  | [] => Done s
  | x :: l => s ← f s x; outcome_fold f s l
  end.

(** How many elements satisfy [p]. *)
Fixpoint count_if {A} (p : A → bool) (l : list A) : Z :=
  match l with
  | [] => 0
  | x :: l => (if p x then 1 else 0) + count_if p l
  end.

(** Lookup in a table of pairs; the first entry counts. *)
Definition assoc {K A} `{EqDecision K} (k : K) (l : list (K * A)) : option A :=
  snd <$> List.find (λ kv, bool_decide (kv.1 = k)) l.

(** * Python lists used as arrays

Reading or writing outside the list raises [IndexError]; a negative index
counts from the end. *)

Definition py_index {A} (l : list A) (i : Z) : option nat :=
  let n := Z.of_nat (length l) in
  if (0 <=? i) && (i <? n) then Some (Z.to_nat i)
  else if (- n <=? i) && (i <? 0) then Some (Z.to_nat (n + i))
  else None.

Definition py_get {E A} (index_error : E) (l : list A) (i : Z) : outcome E A :=
  match py_index l i with
  | Some k => match l !! k with Some x => Done x | None => Raise index_error end
  | None => Raise index_error
  end.

Definition py_set {E A} (index_error : E) (l : list A) (i : Z) (x : A) : outcome E (list A) :=
  match py_index l i with
  | Some k => Done (<[k := x]> l)
  | None => Raise index_error
  end.

(** * Decimal text

[str_nat n] is Python's [str] of a non-negative integer, [dec_value] the value
of a run of ASCII digits, and [str_int] the text of any integer. *)

(** A character or an integer between two bounds. *)
Definition in_range (lo hi c : Z) : bool := (lo <=? c) && (c <=? hi).

Definition is_ascii_digit (c : Z) : bool := (48 <=? c) && (c <=? 57).

Definition dec_step (acc c : Z) : Z := 10 * acc + (c - 48).

Definition dec_value (s : ustring) : Z := foldl dec_step 0 s.

Fixpoint str_digits (fuel : nat) (n : Z) (acc : ustring) : ustring :=
  match fuel with
  | O => acc
  | S fuel =>
      let acc := (48 + n mod 10) :: acc in
      if n / 10 =? 0 then acc else str_digits fuel (n / 10) acc
  end.

Definition str_nat (n : Z) : ustring := str_digits (S (Z.to_nat (Z.log2 n))) n [].

Definition str_int (n : Z) : ustring :=
  if n <? 0 then ch "-" :: str_nat (- n) else str_nat n.

(** Text [s] is what [str] prints for some non-negative integer. *)
Definition canonical_digits (s : ustring) : Prop :=
  Forall (λ c, is_ascii_digit c = true) s ∧
  match s with
  | [] => False
  | [c] => True
  | c :: _ => c ≠ 48
  end.

(** The longest prefix of [s] whose characters satisfy [p], and the rest. *)
Fixpoint span (p : Z → bool) (s : ustring) : ustring * ustring :=
  match s with
  | [] => ([], [])
  | c :: s' => if p c then (c :: (span p s').1, (span p s').2) else ([], s)
  end.

(** [str.isspace] of one character, and [str.strip]. *)
Definition py_isspace (c : Z) : bool :=
  ((9 <=? c) && (c <=? 13)) || ((28 <=? c) && (c <=? 32)) ||
  bool_decide (c ∈ [133; 160; 5760; 8232; 8233; 8239; 8287; 12288]) ||
  ((8192 <=? c) && (c <=? 8202)).

Definition lstrip (s : ustring) : ustring := (span py_isspace s).2.
Definition strip (s : ustring) : ustring := rev (lstrip (rev (lstrip s))).

(** [s.startswith(prefix)]. *)
Fixpoint starts_with (prefix s : ustring) : bool :=
  match prefix, s with
  | [], _ => true
  | _ :: _, [] => false
  | x :: prefix, y :: s => (x =? y) && starts_with prefix s
  end.

(** [sep.join(parts)]. *)
Fixpoint join (sep : ustring) (parts : list ustring) : ustring :=
  match parts with
  | [] => []
  | [p] => p
  | p :: parts => p ++ sep ++ join sep parts
  end.

(** Python refuses to convert more than this many digits to an integer
([sys.int_info.default_max_str_digits]). *)
Definition INT_MAX_STR_DIGITS : Z := 4300.

(** [s.rjust(n, "0")]. *)
Definition rjust0 (n : nat) (s : ustring) : ustring := replicate (n - length s) 48 ++ s.

(** * Signed 64-bit integers *)

Definition INT64_MIN : Z := - 2 ^ 63.
Definition INT64_MAX : Z := 2 ^ 63 - 1.
Definition in_int64 (z : Z) : bool := (INT64_MIN <=? z) && (z <=? INT64_MAX).

(** Two's complement wrap-around of a Go [int64]. *)
Definition wrap64 (z : Z) : Z := (z + 2 ^ 63) mod 2 ^ 64 - 2 ^ 63.

(** * Ordering text by code point, as Python's [sorted] does *)

Fixpoint ustr_leb (a b : ustring) : bool :=
  match a, b with
  | [], _ => true
  | _ :: _, [] => false
  | x :: a, y :: b => (x <? y) || ((x =? y) && ustr_leb a b)
  end.

Definition ustr_le (a b : ustring) : Prop := ustr_leb a b = true.
#[export] Instance ustr_le_dec a b : Decision (ustr_le a b) := decide (ustr_leb a b = true).

Definition sorted_text (l : list ustring) : list ustring := merge_sort ustr_le l.

(** * Tactics *)

(** Split the boolean connectives and comparisons of the context and goal. *)
Ltac bool_to_prop :=
  repeat match goal with
  | H : _ && _ = true |- _ => apply andb_true_iff in H; destruct H
  | H : _ || _ = false |- _ => apply orb_false_iff in H; destruct H
  | H : negb _ = true |- _ => apply negb_true_iff in H
  | H : negb _ = false |- _ => apply negb_false_iff in H
  | H : (_ =? _) = true |- _ => apply Z.eqb_eq in H
  | H : (_ =? _) = false |- _ => apply Z.eqb_neq in H
  | H : (_ <? _) = true |- _ => apply Z.ltb_lt in H
  | H : (_ <? _) = false |- _ => apply Z.ltb_ge in H
  | H : (_ <=? _) = true |- _ => apply Z.leb_le in H
  | H : (_ <=? _) = false |- _ => apply Z.leb_gt in H
  | |- _ && _ = true => apply andb_true_iff; split
  | |- negb _ = true => apply negb_true_iff
  | |- (_ =? _) = true => apply Z.eqb_eq
  | |- (_ =? _) = false => apply Z.eqb_neq
  | |- (_ <? _) = true => apply Z.ltb_lt
  | |- (_ <? _) = false => apply Z.ltb_ge
  | |- (_ <=? _) = true => apply Z.leb_le
  | |- (_ <=? _) = false => apply Z.leb_gt
  end.

(** Case analysis on every comparison of integers in the goal. *)
Ltac case_Z :=
  repeat match goal with
  | |- context [?a =? ?b] => destruct (Z.eqb_spec a b)
  | |- context [?a <? ?b] => destruct (Z.ltb_spec a b)
  | |- context [?a <=? ?b] => destruct (Z.leb_spec a b)
  end.

(** Invert an equation [x ← m; k = Done r]. *)
Ltac outcome_inv H :=
  match type of H with
  | (?m ≫= ?k) = Done _ =>
      let E := fresh "E" in destruct m eqn:E; simpl in H; [|discriminate H..]
  end.

Create HintDb koschei discriminated.
Create Rewrite HintDb koschei_num.

(** * Lemmas on Python lists *)

Lemma py_get_lookup {E A} (e : E) (l : list A) i x :
  0 <= i → l !! Z.to_nat i = Some x → py_get e l i = Done x.
Proof.
  intros Hi Hx. pose proof (lookup_lt_Some _ _ _ Hx). unfold py_get, py_index.
  destruct (Z.leb_spec 0 i), (Z.ltb_spec i (Z.of_nat (length l))); try lia. simpl. by rewrite Hx.
Qed.

Lemma py_set_insert {E A} (e : E) (l : list A) i (x : A) :
  0 <= i < Z.of_nat (length l) → py_set e l i x = Done (<[Z.to_nat i := x]> l).
Proof.
  intros Hi. unfold py_set, py_index.
  destruct (Z.leb_spec 0 i), (Z.ltb_spec i (Z.of_nat (length l))); try lia. done.
Qed.

Lemma outcome_map_done {E A B} (f : A → outcome E B) (g : A → B) l :
  (∀ x, x ∈ l → f x = Done (g x)) → outcome_map f l = Done (g <$> l).
Proof.
  induction l as [|x l IH]; intros H; [done|]. simpl.
  rewrite H by left. simpl. rewrite IH; [done|]. intros y Hy. apply H. by right.
Qed.

Lemma outcome_map_no_fuel {E A B} (f : A → outcome E B) l :
  (∀ x, x ∈ l → f x ≠ NoFuel) → outcome_map f l ≠ NoFuel.
Proof.
  induction l as [|x l IH]; intros H; [done|]. simpl.
  pose proof (H x ltac:(left)). destruct (f x); simpl; [|done..].
  destruct (outcome_map f l) eqn:Hl; simpl; [done..|].
  exfalso. apply IH; [|done]. intros y Hy. apply H. by right.
Qed.

Lemma outcome_map_Forall {E A B} (f : A → outcome E B) (P : B → Prop) l l' :
  (∀ x y, x ∈ l → f x = Done y → P y) → outcome_map f l = Done l' → Forall P l'.
Proof.
  revert l'. induction l as [|x l IH]; intros l' H; simpl; [by intros [= <-]|].
  destruct (f x) as [y| |] eqn:Hy; simpl; [|done..].
  destruct (outcome_map f l) as [ys| |]; simpl; [|done..]. intros [= <-].
  constructor; [apply (H x); [left|done]|]. apply IH; [|done]. intros z w Hz. apply H. by right.
Qed.

(** An invariant of the steps, over the elements already folded, holds at the end. *)
Lemma outcome_fold_ind {E A S} (f : S → A → outcome E S) (P : list A → S → Prop) l s s' :
  P [] s →
  (∀ pre x post s1 s2, l = pre ++ x :: post → P pre s1 → f s1 x = Done s2 → P (pre ++ [x]) s2) →
  outcome_fold f s l = Done s' → P l s'.
Proof.
  intros H0 Hstep. assert (∀ post pre s, l = pre ++ post → P pre s →
    outcome_fold f s post = Done s' → P l s') as H.
  { induction post as [|x post IH]; intros pre s1 El Hs; cbn [outcome_fold].
    - intros [= <-]. rewrite app_nil_r in El. by subst.
    - destruct (f s1 x) as [s2| |] eqn:Ef; cbn; [|done..]. apply (IH (pre ++ [x])).
      + by rewrite <- app_assoc.
      + by apply (Hstep pre x post s1). }
  apply (H l []); done.
Qed.

Lemma outcome_fold_no_fuel {E A S} (f : S → A → outcome E S) l s :
  (∀ s x, x ∈ l → f s x ≠ NoFuel) → outcome_fold f s l ≠ NoFuel.
Proof.
  revert s. induction l as [|x l IH]; intros s H; cbn [outcome_fold]; [done|].
  pose proof (H s x ltac:(left)). destruct (f s x); cbn; [|done..]. apply IH. intros s' y Hy. apply H. by right.
Qed.

(** * Lemmas on folds, concatenations and counting *)

Lemma elem_of_dict_fromkeys {A} `{EqDecision A} (x : A) l : x ∈ dict_fromkeys l ↔ x ∈ l.
Proof.
  induction l as [|y l IH]; [done|]. cbn [dict_fromkeys]. rewrite !elem_of_cons, list_elem_of_filter, IH.
  destruct (decide (x = y)); tauto.
Qed.

Lemma elem_of_concat {A} (x : A) (ls : list (list A)) : x ∈ concat ls ↔ ∃ l, x ∈ l ∧ l ∈ ls.
Proof.
  rewrite list_elem_of_In, in_concat. split.
  - intros (l & H1 & H2). exists l. by rewrite !list_elem_of_In.
  - intros (l & H1 & H2). exists l. by rewrite <- !list_elem_of_In.
Qed.

Lemma elem_of_concat_fmap {A B} (f : A → list B) (y : B) (l : list A) :
  y ∈ concat (f <$> l) ↔ ∃ x, x ∈ l ∧ y ∈ f x.
Proof.
  rewrite elem_of_concat. split.
  - intros (? & Hy & (x & -> & Hx)%list_elem_of_fmap). by exists x.
  - intros (x & Hx & Hy). exists (f x). split; [done|]. by apply list_elem_of_fmap_2.
Qed.

Lemma outcome_fold_total {E A S} (f : S → A → outcome E S) l :
  (∀ s x, x ∈ l → ∃ s', f s x = Done s') → ∀ s, ∃ s', outcome_fold f s l = Done s'.
Proof.
  induction l as [|x l IH]; intros H s; [by exists s|]. cbn [outcome_fold].
  destruct (H s x ltac:(left)) as [s1 ->]. cbn. apply IH. intros s2 y Hy. apply H. by right.
Qed.

Lemma outcome_fold_each {E A S} (f : S → A → outcome E S) l s s' :
  outcome_fold f s l = Done s' → ∀ x, x ∈ l → ∃ s1 s2, f s1 x = Done s2.
Proof.
  revert s. induction l as [|y l IH]; intros s; cbn [outcome_fold]; [by intros _ x ?%elem_of_nil|].
  destruct (f s y) as [s1| |] eqn:E1; cbn; [|done..].
  intros H x [->|Hx]%elem_of_cons; [by exists s, s1|by apply (IH s1)].
Qed.

Lemma outcome_fold_app {E A S} (f : S → A → outcome E S) s l1 l2 :
  outcome_fold f s (l1 ++ l2) = s ← outcome_fold f s l1; outcome_fold f s l2.
Proof.
  revert s. induction l1 as [|x l1 IH]; intros s; [done|]. cbn [app outcome_fold].
  destruct (f s x); cbn; [apply IH|done..].
Qed.

Lemma outcome_fold_fmap {E A B S} (f : S → B → outcome E S) (g : A → B) s l :
  outcome_fold f s (g <$> l) = outcome_fold (λ s x, f s (g x)) s l.
Proof.
  revert s. induction l as [|x l IH]; intros s; [done|]. cbn [fmap list_fmap outcome_fold].
  destruct (f s (g x)); cbn; [apply IH|done..].
Qed.

Lemma NoDup_concat_unique {A B} (f : A → list B) (l : list A) x a b :
  NoDup (concat (f <$> l)) → a ∈ l → b ∈ l → x ∈ f a → x ∈ f b → a = b.
Proof.
  induction l as [|y l IH]; [by intros _ ?%elem_of_nil|]. cbn [fmap list_fmap concat].
  rewrite NoDup_app. intros (_ & Hd & Hnd) Ha Hb Hxa Hxb.
  assert (∀ c, c ∈ l → x ∈ f c → x ∈ concat (f <$> l)) as Hin.
  { intros c Hc Hx. apply elem_of_concat_fmap. by exists c. }
  apply elem_of_cons in Ha as [->|Ha], Hb as [->|Hb]; [done|exfalso..|by apply IH];
    apply (Hd x); eauto.
Qed.

Lemma omap_NoDup_unique {A B} (f : A → option B) (l : list A) x a b :
  NoDup (omap f l) → a ∈ l → b ∈ l → f a = Some x → f b = Some x → a = b.
Proof.
  induction l as [|y l IH]; [by intros _ ?%elem_of_nil|]. cbn [omap list_omap].
  intros Hnd Ha Hb Ea Eb.
  assert (∀ c, c ∈ l → f c = Some x → x ∈ omap f l) as Hin.
  { intros c Hc Ec. apply list_elem_of_omap. by exists c. }
  apply elem_of_cons in Ha as [->|Ha], Hb as [->|Hb]; [done|exfalso..|].
  - rewrite Ea in Hnd. apply NoDup_cons in Hnd as [Hn _]. eauto.
  - rewrite Eb in Hnd. apply NoDup_cons in Hnd as [Hn _]. eauto.
  - apply IH; try done. destruct (f y); [by apply NoDup_cons in Hnd as [_ ?]|done].
Qed.

Lemma size_list_to_set_le `{Countable A} (l : list A) : (size (list_to_set l : gset A) <= length l)%nat.
Proof.
  induction l as [|x l IH]; [done|]. cbn [list_to_set length].
  rewrite size_union_alt, size_singleton.
  assert (size ((list_to_set l : gset A) ∖ {[x]}) <= size (list_to_set l : gset A))%nat
    by (apply subseteq_size; set_solver). lia.
Qed.

(** A fold whose steps succeed, keep an invariant and are related by a preorder. *)
Lemma outcome_fold_run {E A S} (f : S → A → outcome E S) (I : S → Prop) (R : S → S → Prop) l s :
  (∀ s, R s s) → (∀ s1 s2 s3, R s1 s2 → R s2 s3 → R s1 s3) →
  (∀ s x, x ∈ l → I s → ∃ s', f s x = Done s' ∧ I s' ∧ R s s') →
  I s → ∃ s', outcome_fold f s l = Done s' ∧ I s' ∧ R s s'.
Proof.
  intros Hr Ht. revert s. induction l as [|x l IH]; intros s Hf Hs; [by exists s|]. cbn [outcome_fold].
  destruct (Hf s x ltac:(left) Hs) as (s1 & -> & H1 & HR1). cbn.
  destruct (IH s1) as (s2 & -> & H2 & HR2); [intros; apply Hf; [by right|done]|done|].
  exists s2. split; [done|]. split; [done|]. by eapply Ht.
Qed.

(** If such a fold ends where it began, every step is the identity there. *)
Lemma outcome_fold_stable {E A S} (f : S → A → outcome E S) (I : S → Prop) (R : S → S → Prop) l s :
  (∀ s, R s s) → (∀ s1 s2 s3, R s1 s2 → R s2 s3 → R s1 s3) → (∀ s1 s2, R s1 s2 → R s2 s1 → s1 = s2) →
  (∀ s x, x ∈ l → I s → ∃ s', f s x = Done s' ∧ I s' ∧ R s s') →
  I s → outcome_fold f s l = Done s → ∀ x, x ∈ l → f s x = Done s.
Proof.
  intros Hr Ht Ha. induction l as [|y l IH]; intros Hf Hs; cbn [outcome_fold]; [by intros _ x ?%elem_of_nil|].
  destruct (Hf s y ltac:(left) Hs) as (s1 & E1 & H1 & HR1). rewrite E1. cbn. intros Hfold.
  assert (∀ s x, x ∈ l → I s → ∃ s', f s x = Done s' ∧ I s' ∧ R s s') as Hf' by (intros; apply Hf; [by right|done]).
  destruct (outcome_fold_run f I R l s1 Hr Ht Hf' H1) as (s2 & E2 & _ & HR2).
  rewrite E2 in Hfold. injection Hfold as ->.
  pose proof (Ha s s1 HR1 HR2) as <-.
  intros x [->|Hx]%elem_of_cons; [done|]. by apply IH.
Qed.

Lemma sum_list_with_lt {A} (f g : A → nat) (l : list A) :
  (∀ x, x ∈ l → f x <= g x)%nat → (∃ x, x ∈ l ∧ f x < g x)%nat →
  (sum_list_with f l < sum_list_with g l)%nat.
Proof.
  induction l as [|x l IH]; intros Hle (y & Hy & Hlt); [by apply elem_of_nil in Hy|].
  cbn [sum_list_with]. pose proof (Hle x ltac:(left)).
  assert (sum_list_with f l <= sum_list_with g l)%nat as Hl.
  { assert (∀ x, x ∈ l → f x <= g x)%nat as Hle' by (intros z Hz; apply Hle; by right).
    clear -Hle'. induction l as [|z l IH]; [done|]. cbn [sum_list_with].
    pose proof (Hle' z ltac:(left)). assert (∀ x, x ∈ l → f x <= g x)%nat as H' by (intros w Hw; apply Hle'; by right).
    specialize (IH H'). lia. }
  apply elem_of_cons in Hy as [->|Hy]; [lia|].
  assert (sum_list_with f l < sum_list_with g l)%nat; [|lia]. apply IH; [|by exists y].
  intros z Hz. apply Hle. by right.
Qed.

Lemma outcome_fold_unit_iff {X A} (f : () → A → outcome X ()) (l : list A) :
  outcome_fold f () l = Done () ↔ ∀ x, x ∈ l → f () x = Done ().
Proof.
  induction l as [|x l IH]; cbn [outcome_fold]; [split; [by intros _ x ?%elem_of_nil|done]|].
  destruct (f () x) as [[]| |] eqn:E; cbn [mbind outcome_bind].
  - rewrite IH. split; [|intros H y Hy; apply H; by right].
    intros H y [->|Hy]%elem_of_cons; [done|by apply H].
  - split; [done|]. intros H. rewrite (H x) in E by left. done.
  - split; [done|]. intros H. rewrite (H x) in E by left. done.
Qed.

Lemma list_to_set_NoDup (l : list Z) : size (list_to_set l : gset Z) = length l ↔ NoDup l.
Proof.
  split; [|intros H; by apply size_list_to_set]. induction l as [|x l IH]; [constructor|].
  cbn [list_to_set length]. pose proof (size_list_to_set_le l). destruct (decide (x ∈ l)) as [Hx|Hx].
  - replace ({[x]} ∪ list_to_set l : gset Z) with (list_to_set l : gset Z) by set_solver. lia.
  - rewrite size_union, size_singleton by set_solver. intros E. constructor; [done|]. apply IH. lia.
Qed.

Lemma count_if_app {A} (p : A → bool) l1 l2 :
  count_if p (l1 ++ l2) = count_if p l1 + count_if p l2.
Proof. induction l1 as [|x l1 IH]; simpl; [done|]. rewrite IH. lia. Qed.

Lemma count_if_length {A} (p : A → bool) l : 0 <= count_if p l <= Z.of_nat (length l).
Proof. induction l as [|x l IH]; cbn [count_if length]; [lia|]. destruct (p x); lia. Qed.

Lemma count_if_negb {A} (p : A → bool) l :
  count_if (λ x, negb (p x)) l = Z.of_nat (length l) - count_if p l.
Proof.
  induction l as [|x l IH]; cbn [count_if length]; [done|]. rewrite IH. destruct (p x); simpl; lia.
Qed.

Lemma count_if_all {A} (p : A → bool) l :
  Forall (λ x, p x = true) l → count_if p l = Z.of_nat (length l).
Proof.
  induction 1 as [|x l Hx _ IH]; cbn [count_if length]; [done|]. rewrite Hx, IH. lia.
Qed.

Lemma assoc_Some {K A} `{EqDecision K} (k : K) (l : list (K * A)) a :
  assoc k l = Some a → (k, a) ∈ l.
Proof.
  unfold assoc. destruct (List.find _ l) as [[k' a']|] eqn:E; [|done]. intros [= <-].
  apply find_some in E as [Hin Hk]. apply bool_decide_eq_true in Hk. cbn in Hk. subst.
  by apply list_elem_of_In.
Qed.

Lemma assoc_None {K A} `{EqDecision K} (k : K) (l : list (K * A)) : assoc k l = None → k ∉ l.*1.
Proof.
  unfold assoc. intros H ([k' a] & -> & Hin%list_elem_of_In)%list_elem_of_fmap.
  destruct (List.find _ l) as [kv|] eqn:E; [done|]. apply (find_none _ _ E) in Hin. cbn in Hin.
  by apply bool_decide_eq_false in Hin.
Qed.

Lemma assoc_elem {A} (l : list (ustring * A)) k a :
  NoDup l.*1 → (k, a) ∈ l → assoc k l = Some a.
Proof.
  unfold assoc. induction l as [|[k' a'] l IH]; intros Hnd Hin; [by apply elem_of_nil in Hin|].
  cbn [fmap list_fmap fst] in Hnd. apply NoDup_cons in Hnd as [Hk' Hnd]. cbn [List.find fst].
  apply elem_of_cons in Hin as [[= -> ->]|Hin]; [by rewrite bool_decide_eq_true_2|].
  rewrite bool_decide_eq_false_2; [by apply IH|]. intros ->. apply Hk'.
  by apply (list_elem_of_fmap_2 fst) in Hin.
Qed.


(** * Lemmas on decimal text *)

Lemma is_ascii_digit_spec c : is_ascii_digit c = true ↔ 48 <= c <= 57.
Proof. unfold is_ascii_digit. rewrite andb_true_iff, !Z.leb_le. lia. Qed.

Lemma str_digits_acc fuel n acc :
  str_digits fuel n acc = str_digits fuel n [] ++ acc.
Proof.
  revert n acc. induction fuel as [|fuel IH]; intros n acc; simpl; [done|].
  destruct (n / 10 =? 0); [done|].
  rewrite IH, (IH _ [_]), <- app_assoc. done.
Qed.

Lemma str_digits_fuel fuel1 fuel2 n :
  0 <= n < 2 ^ Z.of_nat fuel1 → 0 <= n < 2 ^ Z.of_nat fuel2 →
  (0 < fuel1)%nat → (0 < fuel2)%nat →
  str_digits fuel1 n [] = str_digits fuel2 n [].
Proof.
  revert fuel2 n. induction fuel1 as [|f1 IH]; intros [|f2] n H1 H2 P1 P2; try lia.
  simpl. destruct (Z.eqb_spec (n / 10) 0) as [|Hn]; [done|].
  rewrite (str_digits_acc f1), (str_digits_acc f2). f_equal.
  rewrite Nat2Z.inj_succ, Z.pow_succ_r in H1, H2 by lia.
  apply IH; try (split; [apply Z.div_pos; lia|apply Z.div_lt_upper_bound; lia]).
  - destruct f1; [|lia]. simpl in H1. assert (n / 10 = 0) by (apply Z.div_small; lia). lia.
  - destruct f2; [|lia]. simpl in H2. assert (n / 10 = 0) by (apply Z.div_small; lia). lia.
Qed.

Lemma str_nat_fuel n : 0 <= n → 0 <= n < 2 ^ Z.of_nat (S (Z.to_nat (Z.log2 n))).
Proof.
  intros Hn. split; [done|].
  rewrite Nat2Z.inj_succ, Z2Nat.id by apply Z.log2_nonneg.
  destruct (Z.eqb_spec n 0) as [->|]; [simpl; lia|]. apply Z.log2_spec; lia.
Qed.

(** The digits of [n] are those of [n / 10] followed by the last one. *)
Lemma str_nat_step n :
  0 <= n →
  str_nat n = if n <? 10 then [48 + n] else str_nat (n / 10) ++ [48 + n mod 10].
Proof.
  intros Hn. unfold str_nat at 1. cbn [str_digits].
  destruct (Z.ltb_spec n 10) as [Hlt|Hge].
  - rewrite Z.div_small, Z.mod_small by lia. done.
  - assert (1 <= n / 10) by (apply Z.div_le_lower_bound; lia).
    destruct (Z.eqb_spec (n / 10) 0); [lia|].
    rewrite str_digits_acc. f_equal. unfold str_nat.
    pose proof (str_nat_fuel n Hn) as [_ HB].
    rewrite Nat2Z.inj_succ, Z.pow_succ_r in HB by lia.
    assert (n / 10 < 2 ^ Z.of_nat (Z.to_nat (Z.log2 n)))
      by (apply Z.div_lt_upper_bound; lia).
    apply str_digits_fuel; [lia|apply str_nat_fuel; lia| |lia].
    destruct (Z.to_nat (Z.log2 n)); [simpl in *; lia|lia].
Qed.

(** Induction on the decimal digits of a non-negative integer. *)
Lemma digits_ind (P : Z → Prop) :
  (∀ n, 0 <= n < 10 → P n) →
  (∀ n, 10 <= n → P (n / 10) → P n) →
  ∀ n, 0 <= n → P n.
Proof.
  intros Hs Hl n Hn.
  refine (Zlt_0_ind P _ n Hn). clear n Hn.
  intros m IH Hm. destruct (Z.lt_ge_cases m 10); [auto with lia|].
  apply Hl; [lia|]. apply IH.
  split; [apply Z.div_pos; lia|apply Z.div_lt; lia].
Qed.

Lemma foldl_dec_app acc s1 s2 :
  foldl dec_step acc (s1 ++ s2) = foldl dec_step (foldl dec_step acc s1) s2.
Proof. apply foldl_app. Qed.

Lemma dec_value_snoc s c : dec_value (s ++ [c]) = 10 * dec_value s + (c - 48).
Proof. unfold dec_value. by rewrite foldl_app. Qed.

Lemma foldl_dec_acc acc s :
  foldl dec_step acc s = acc * 10 ^ Z.of_nat (length s) + dec_value s.
Proof.
  induction s as [|c s IH] using rev_ind; [simpl; unfold dec_value; simpl; lia|].
  rewrite foldl_app, dec_value_snoc, length_app. simpl. rewrite IH.
  unfold dec_step. rewrite Nat.add_1_r, Nat2Z.inj_succ, Z.pow_succ_r by lia. lia.
Qed.

Lemma dec_value_app s1 s2 :
  dec_value (s1 ++ s2) = dec_value s1 * 10 ^ Z.of_nat (length s2) + dec_value s2.
Proof. unfold dec_value at 1. by rewrite foldl_app, foldl_dec_acc. Qed.

Lemma dec_value_cons c s :
  dec_value (c :: s) = (c - 48) * 10 ^ Z.of_nat (length s) + dec_value s.
Proof.
  unfold dec_value at 1. cbn [foldl]. rewrite foldl_dec_acc. unfold dec_step. lia.
Qed.

Lemma dec_value_bounds s :
  Forall (λ c, is_ascii_digit c = true) s →
  0 <= dec_value s < 10 ^ Z.of_nat (length s).
Proof.
  induction 1 as [|c s Hc Hs IH]; [unfold dec_value; simpl; lia|].
  apply is_ascii_digit_spec in Hc. rewrite dec_value_cons. cbn [length].
  rewrite Nat2Z.inj_succ, Z.pow_succ_r by lia. nia.
Qed.

Lemma dec_value_zeros n : dec_value (replicate n 48) = 0.
Proof. induction n as [|n IH]; [done|]. cbn [replicate]. rewrite dec_value_cons, IH. lia. Qed.

Lemma dec_value_str_nat n : 0 <= n → dec_value (str_nat n) = n.
Proof.
  intros Hn. revert n Hn. apply digits_ind; intros n H.
  - rewrite str_nat_step by lia. destruct (Z.ltb_spec n 10); [|lia].
    unfold dec_value; simpl; unfold dec_step. lia.
  - intros IH. rewrite str_nat_step by lia. destruct (Z.ltb_spec n 10); [lia|].
    rewrite dec_value_snoc, IH. pose proof (Z.div_mod n 10). lia.
Qed.

Lemma str_nat_canonical n : 0 <= n → canonical_digits (str_nat n).
Proof.
  intros Hn. revert n Hn. apply digits_ind; intros n H.
  - rewrite str_nat_step by lia. destruct (Z.ltb_spec n 10); [|lia].
    split; [|done]. constructor; [|constructor]. apply is_ascii_digit_spec. lia.
  - intros [IH1 IH2]. rewrite str_nat_step by lia. destruct (Z.ltb_spec n 10); [lia|].
    split.
    + apply Forall_app. split; [done|]. constructor; [|constructor].
      apply is_ascii_digit_spec. pose proof (Z.mod_pos_bound n 10). lia.
    + destruct (str_nat (n / 10)) as [|c [|c' l]] eqn:E; simpl in *; [done| |done].
      assert (1 <= n / 10) by (apply Z.div_le_lower_bound; lia).
      pose proof (dec_value_str_nat (n / 10) ltac:(lia)) as Hv.
      rewrite E in Hv. unfold dec_value in Hv; simpl in Hv; unfold dec_step in Hv. lia.
Qed.

Lemma str_nat_nonnil n : 0 <= n → str_nat n ≠ [].
Proof. intros Hn E. destruct (str_nat_canonical n Hn) as [_ H]. by rewrite E in H. Qed.

Lemma str_nat_length n k : 0 <= n < 10 ^ k → 1 <= k → Z.of_nat (length (str_nat n)) <= k.
Proof.
  intros [H0 H]. revert k H. revert n H0. apply (digits_ind (λ n, ∀ k, _ → _ → _)).
  - intros n Hn k _ Hk. rewrite str_nat_step by lia. destruct (Z.ltb_spec n 10); simpl; lia.
  - intros n Hn IH k Hk Hk1. rewrite str_nat_step by lia. destruct (Z.ltb_spec n 10); [lia|].
    assert (k ≠ 1) by (intros ->; lia).
    replace k with (Z.succ (k - 1)) in Hk by lia. rewrite Z.pow_succ_r in Hk by lia.
    rewrite length_app. simpl.
    pose proof (IH (k - 1) ltac:(apply Z.div_lt_upper_bound; lia) ltac:(lia)). lia.
Qed.

Lemma canonical_snoc s c :
  s ≠ [] → canonical_digits (s ++ [c]) → canonical_digits s ∧ is_ascii_digit c = true.
Proof.
  intros Hs [Hd Hl]. apply Forall_app in Hd as [Hd Hc].
  split; [|by inversion Hc]. split; [done|].
  destruct s as [|x [|y s]]; simpl in *; done.
Qed.

(** A canonical run of digits is the text of its own value. *)
Lemma str_nat_dec_value s : canonical_digits s → str_nat (dec_value s) = s.
Proof.
  induction s as [|c s IH] using rev_ind; intros Hc; [by destruct Hc|].
  destruct (decide (s = [])) as [->|Hs].
  - destruct Hc as [Hd _]. inversion Hd as [|? ? Hc _]; subst.
    apply is_ascii_digit_spec in Hc. unfold dec_value; simpl; unfold dec_step.
    rewrite str_nat_step by lia. destruct (Z.ltb_spec (10 * 0 + (c - 48)) 10); [|lia].
    f_equal. lia.
  - apply canonical_snoc in Hc as Hc'; [|done]. destruct Hc' as [Hcs Hcd].
    apply is_ascii_digit_spec in Hcd.
    pose proof (dec_value_bounds s (proj1 Hcs)) as [Hb _].
    assert (1 <= dec_value s) as Hpos.
    { destruct s as [|x s]; [done|]. destruct Hcs as [Hd Hl].
      inversion Hd as [|? ? Hx Hd']; subst. apply is_ascii_digit_spec in Hx.
      destruct Hc as [_ Hc]. rewrite dec_value_cons.
      pose proof (dec_value_bounds s Hd').
      assert (x ≠ 48) by (destruct s; simpl in *; auto).
      assert (0 < 10 ^ Z.of_nat (length s)) by (apply Z.pow_pos_nonneg; lia). nia. }
    rewrite dec_value_snoc, str_nat_step by lia.
    destruct (Z.ltb_spec (10 * dec_value s + (c - 48)) 10); [lia|].
    assert ((10 * dec_value s + (c - 48)) / 10 = dec_value s) as ->.
    { rewrite Z.mul_comm, Z.div_add_l, (Z.div_small (c - 48)) by lia. lia. }
    rewrite IH by done. f_equal. f_equal.
    replace (10 * dec_value s + (c - 48)) with ((c - 48) + dec_value s * 10) by lia.
    rewrite Z_mod_plus_full, Z.mod_small by lia. lia.
Qed.

Lemma str_int_neg n : n < 0 → str_int n = ch "-" :: str_nat (- n).
Proof. intros H. unfold str_int. destruct (Z.ltb_spec n 0); [done|lia]. Qed.

Lemma str_int_nonneg n : 0 <= n → str_int n = str_nat n.
Proof. intros H. unfold str_int. destruct (Z.ltb_spec n 0); [lia|done]. Qed.

(** * Lemmas on [span] *)

Lemma span_app p s : (span p s).1 ++ (span p s).2 = s.
Proof. induction s as [|c s IH]; simpl; [done|]. destruct (p c); simpl; [by rewrite IH|done]. Qed.

Lemma span_fst_Forall p s : Forall (λ c, p c = true) (span p s).1.
Proof. induction s as [|c s IH]; simpl; [done|]. destruct (p c) eqn:E; simpl; auto. Qed.

Lemma span_snd p s : match (span p s).2 with [] => True | c :: _ => p c = false end.
Proof. induction s as [|c s IH]; simpl; [done|]. destruct (p c) eqn:E; simpl; auto. Qed.

(** [span] stops exactly at the end of the prefix that satisfies [p]. *)
Lemma span_stop p s rest :
  Forall (λ c, p c = true) s →
  match rest with [] => True | c :: _ => p c = false end →
  span p (s ++ rest) = (s, rest).
Proof.
  intros Hs Hr. induction Hs as [|c s Hc Hs IH]; simpl.
  - destruct rest as [|c rest]; simpl; [done|]. by rewrite Hr.
  - by rewrite Hc, IH.
Qed.

Lemma span_all p s : Forall (λ c, p c = true) s → span p s = (s, []).
Proof. intros H. rewrite <- (app_nil_r s) at 1. by apply span_stop. Qed.

(** * Lemmas on [strip] *)

Lemma lstrip_id s : match s with [] => True | c :: _ => py_isspace c = false end → lstrip s = s.
Proof. destruct s as [|c s]; [done|]. unfold lstrip. simpl. by intros ->. Qed.

(** A text whose first and last characters are not white space is stripped. *)
Definition stripped (s : ustring) : Prop :=
  match s with [] => False | c :: _ => py_isspace c = false end ∧
  match last s with Some c => py_isspace c = false | None => False end.

Lemma strip_id s : stripped s → strip s = s.
Proof.
  intros [H1 H2]. unfold strip. rewrite (lstrip_id s) by by destruct s.
  rewrite (lstrip_id (rev s)), rev_involutive; [done|].
  destruct s as [|c s _] using rev_ind; [done|]. rewrite last_snoc in H2.
  by rewrite rev_app_distr.
Qed.

Lemma strip_pad c s : py_isspace c = true → strip (c :: s) = strip s.
Proof. intros Hc. unfold strip, lstrip at 2 4. simpl. by rewrite Hc. Qed.

Lemma strip_decompose s :
  ∃ w1 w2, s = w1 ++ strip s ++ w2 ∧
    Forall (λ c, py_isspace c = true) w1 ∧ Forall (λ c, py_isspace c = true) w2.
Proof.
  exists (span py_isspace s).1, (rev (span py_isspace (rev (lstrip s))).1). split_and!.
  - unfold strip, lstrip at 1. rewrite <- rev_app_distr, span_app, rev_involutive.
    symmetry. apply span_app.
  - apply span_fst_Forall.
  - apply Forall_rev, span_fst_Forall.
Qed.

Lemma strip_stripped s : strip s = [] ∨ stripped (strip s).
Proof.
  unfold strip, lstrip at 1 3. pose proof (span_snd py_isspace (rev (lstrip s))) as H1.
  pose proof (span_app py_isspace (rev (lstrip s))) as Happ.
  destruct (span py_isspace (rev (lstrip s))) as [w t]. cbn [fst snd] in *.
  destruct t as [|c t]; [by left|right]. split.
  - pose proof (span_snd py_isspace s) as H2. fold (lstrip s) in H2.
    apply (f_equal (@rev Z)) in Happ. rewrite rev_app_distr, rev_involutive in Happ.
    rewrite <- Happ in H2. destruct (rev (c :: t)) eqn:E; [|done].
    apply (f_equal (@length Z)) in E. by rewrite length_rev in E.
  - cbn [rev]. by rewrite last_snoc.
Qed.

Lemma stripped_nonnil s : stripped s → s ≠ [].
Proof. intros [H _] ->. done. Qed.

Lemma lstrip_length s : (length (lstrip s) <= length s)%nat.
Proof.
  unfold lstrip. rewrite <- (span_app py_isspace s) at 2. rewrite length_app. lia.
Qed.

Lemma strip_length s : (length (strip s) <= length s)%nat.
Proof.
  unfold strip. rewrite length_rev.
  pose proof (lstrip_length (rev (lstrip s))). pose proof (lstrip_length s).
  rewrite length_rev in *. lia.
Qed.

Lemma length_removelast {A} (l : list A) : length (removelast l) = (length l - 1)%nat.
Proof. destruct l as [|x l _] using rev_ind; [done|]. rewrite removelast_last, length_app. simpl. lia. Qed.

Lemma starts_with_app prefix s : starts_with prefix (prefix ++ s) = true.
Proof. induction prefix as [|c prefix IH]; simpl; [done|]. by rewrite Z.eqb_refl, IH. Qed.

(** * Lemmas on 64-bit integers *)

Lemma in_int64_spec z : in_int64 z = true ↔ INT64_MIN <= z <= INT64_MAX.
Proof. unfold in_int64. rewrite andb_true_iff, !Z.leb_le. lia. Qed.

Lemma wrap64_id z : in_int64 z = true → wrap64 z = z.
Proof.
  rewrite in_int64_spec. unfold wrap64, INT64_MIN, INT64_MAX. intros H.
  rewrite Z.mod_small by lia. lia.
Qed.

Lemma wrap64_range z : in_int64 (wrap64 z) = true.
Proof.
  apply in_int64_spec. unfold wrap64, INT64_MIN, INT64_MAX.
  pose proof (Z.mod_pos_bound (z + 2 ^ 63) (2 ^ 64)). lia.
Qed.

(** * Lemmas on the order of text *)

Lemma ustr_leb_refl a : ustr_leb a a = true.
Proof. induction a as [|x a IH]; simpl; [done|]. rewrite Z.eqb_refl, IH. apply orb_true_r. Qed.

#[export] Instance ustr_le_trans : Transitive ustr_le.
Proof.
  intros a. induction a as [|x a IH]; intros [|y b] [|z c]; unfold ustr_le; simpl; try done.
  rewrite !orb_true_iff, !andb_true_iff, !Z.ltb_lt, !Z.eqb_eq.
  intros [?|[-> ?]] [?|[-> ?]]; try (left; lia). right. split; [done|].
  by apply (IH b).
Qed.

#[export] Instance ustr_le_total : Total ustr_le.
Proof.
  intros a. induction a as [|x a IH]; intros [|y b]; unfold ustr_le; simpl; auto.
  rewrite !orb_true_iff, !andb_true_iff, !Z.ltb_lt, !Z.eqb_eq.
  destruct (IH b) as [H|H]; unfold ustr_le in H;
  destruct (Z.lt_total x y) as [?|[->|?]]; auto.
Qed.

#[export] Instance ustr_le_anti : AntiSymm (=) ustr_le.
Proof.
  intros a. induction a as [|x a IH]; intros [|y b]; unfold ustr_le; simpl; try done.
  rewrite !orb_true_iff, !andb_true_iff, !Z.ltb_lt, !Z.eqb_eq.
  intros [?|[-> H1]] [?|[? H2]]; try lia. f_equal. by apply IH.
Qed.

Lemma sorted_text_perm l : sorted_text l ≡ₚ l.
Proof. apply merge_sort_Permutation. Qed.

Lemma sorted_text_sorted l : StronglySorted ustr_le (sorted_text l).
Proof. apply (StronglySorted_merge_sort ustr_le). Qed.

Lemma strongly_sorted_unique (l1 l2 : list ustring) :
  StronglySorted ustr_le l1 → StronglySorted ustr_le l2 → l1 ≡ₚ l2 → l1 = l2.
Proof. apply (StronglySorted_unique ustr_le). Qed.

(** Sorting is insensitive to the order of its argument. *)
Lemma sorted_text_proper l1 l2 : l1 ≡ₚ l2 → sorted_text l1 = sorted_text l2.
Proof.
  intros H. apply strongly_sorted_unique; try apply sorted_text_sorted.
  by rewrite !sorted_text_perm.
Qed.

#[export] Instance sorted_text_Proper : Proper (Permutation ==> eq) sorted_text.
Proof. intros l1 l2 H. by apply sorted_text_proper. Qed.

Lemma sorted_text_id l : StronglySorted ustr_le l → sorted_text l = l.
Proof.
  intros H. apply strongly_sorted_unique; [apply sorted_text_sorted|done|apply sorted_text_perm].
Qed.

#[export] Hint Resolve str_nat_canonical dec_value_str_nat str_nat_nonnil
  sorted_text_perm sorted_text_sorted wrap64_range ustr_leb_refl : koschei.
#[export] Hint Rewrite dec_value_snoc dec_value_zeros foldl_dec_app : koschei_num.

(** Where an element of a concatenation is. *)
Lemma app_cons_split {A} (n1 n2 l1 l2 : list A) x :
  n1 ++ n2 = l1 ++ x :: l2 → (∃ r, n1 = l1 ++ x :: r) ∨ (∃ r, l1 = n1 ++ r ∧ n2 = r ++ x :: l2).
Proof.
  revert l1. induction n1 as [|y n1 IH]; intros l1 E; [right; by exists l1|].
  destruct l1 as [|z l1]; cbn in E; [injection E as -> E; left; by exists n1|].
  injection E as -> E. destruct (IH l1 E) as [[r ->]|(r & -> & ->)]; [left; by exists r|right; by exists r].
Qed.
