(* ===== verification/Order.v ===== *)
(** Dependency order of an import graph, as [in_dependency_order] computes it in
[src/koschei/mir.py] and in [src/koschei/modules.py]: a depth-first search from
the root that lists a module after the modules it imports.

The graph is any table of modules; the two graphs of the compiler instantiate
it.  The search takes fuel, and every nested visit marks another key of the
table. *)

From S2P Require Import Prelude.

Section order.
(** A module and the keys it imports, the table by key, and the [KeyError]. *)
Context {M Err : Type} (imports_of : M → list ustring).
Context (modules : list (ustring * M)) (key_error : ustring → Err).

(** The visited keys and the modules already ordered. *)
Abbreviation visit_state := (gset ustring * list (ustring * M))%type.

Fixpoint visit (fuel : nat) (st : visit_state) (k : ustring) : outcome Err visit_state :=
  match fuel with
  | O => NoFuel
  | S fuel =>
      if decide (k ∈ st.1) then Done st
      else
        match assoc k modules with
        | None => Raise (key_error k)
        | Some module =>
            st ← outcome_fold (visit fuel) ({[k]} ∪ st.1, st.2) (imports_of module);
            Done (st.1, st.2 ++ [(k, module)])
        end
  end.

(** Every nested visit marks another key of the graph. *)
Definition dependency_order (root : ustring) : outcome Err (list (ustring * M)) :=
  st ← visit (S (S (length modules))) (∅, []) root;
  Done st.2.

(** * Correctness *)

(** Module [k2] can be reached from [k1] through imports. *)
Inductive import_reach (k1 : ustring) : ustring → Prop :=
  | reach_refl : import_reach k1 k1
  | reach_step k2 k3 m :
      import_reach k1 k2 → assoc k2 modules = Some m → k3 ∈ imports_of m → import_reach k1 k3.

Lemma import_reach_trans k1 k2 k3 : import_reach k1 k2 → import_reach k2 k3 → import_reach k1 k3.
Proof. intros H. induction 1 as [|j1 j2 m _ IH Hm Hin]; [done|]. by apply (reach_step k1 j1 j2 m). Qed.

Lemma import_reach_head k1 k2 k3 m :
  assoc k1 modules = Some m → k2 ∈ imports_of m → import_reach k2 k3 → import_reach k1 k3.
Proof. intros Hm Hin. apply import_reach_trans. apply (reach_step k1 k1 k2 m); [constructor|done..]. Qed.

(** What a visit of the modules [ks] adds: [new], every module of it reached
from [ks] and a module of the graph that was not visited, its imports earlier
in [new], visited before, or part of an import cycle through it. *)
Record visits (ks : list ustring) (st st' : visit_state) (new : list (ustring * M)) : Prop := {
  visits_order : st'.2 = st.2 ++ new;
  visits_visited : st'.1 = list_to_set new.*1 ∪ st.1;
  visits_all : ∀ k, k ∈ ks → k ∈ st'.1;
  visits_nodup : NoDup new.*1;
  visits_new : ∀ m, m ∈ new → (m.1 ∉ st.1) ∧ assoc m.1 modules = Some m.2 ∧
    ∃ k, k ∈ ks ∧ import_reach k m.1;
  visits_imports : ∀ l1 m l2 j, new = l1 ++ m :: l2 → j ∈ imports_of m.2 →
    j ∈ l1.*1 ∨ j ∈ st.1 ∨ import_reach j m.1;
  visits_closed : ∀ m j, m ∈ new → j ∈ imports_of m.2 → j ∈ st'.1;
}.

Lemma visits_nil st : visits [] st st [].
Proof.
  split; [by rewrite app_nil_r|set_solver|by intros k ?%elem_of_nil|constructor|by intros m ?%elem_of_nil| |
    by intros m j ?%elem_of_nil].
  intros [|] ? ? ? ?; done.
Qed.

Lemma visits_skip k ks st st' new : k ∈ st.1 → visits ks st st' new → visits (k :: ks) st st' new.
Proof.
  intros Hk [H1 H2 H3 H4 H5 H6 H7]. split; try done.
  - intros k' [->|?]%elem_of_cons; [|by apply H3]. rewrite H2. set_solver.
  - intros m Hm. destruct (H5 m Hm) as (? & ? & k' & ? & ?). split; [done|]. split; [done|].
    exists k'. split; [by right|done].
Qed.

Lemma visits_app k ks st1 st2 st3 n1 n2 :
  visits [k] st1 st2 n1 → visits ks st2 st3 n2 → visits (k :: ks) st1 st3 (n1 ++ n2).
Proof.
  intros [A1 A2 A3 A4 A5 A6 A7] [B1 B2 B3 B4 B5 B6 B7]. split.
  - by rewrite B1, A1, app_assoc.
  - rewrite B2, A2, fmap_app, list_to_set_app_L. set_solver.
  - intros k' [->|?]%elem_of_cons; [|by apply B3]. rewrite B2. specialize (A3 k ltac:(left)). set_solver.
  - rewrite fmap_app. apply NoDup_app. split; [done|]. split; [|done].
    intros j H1 (m & -> & Hm)%list_elem_of_fmap. destruct (B5 m Hm) as [Hn _]. apply Hn. rewrite A2. set_solver.
  - intros m [Hm|Hm]%elem_of_app.
    + destruct (A5 m Hm) as (? & ? & k' & ->%list_elem_of_singleton & ?). split; [done|]. split; [done|].
      exists k. split; [left|done].
    + destruct (B5 m Hm) as (Hn & ? & k' & ? & ?). split; [rewrite A2 in Hn; set_solver|]. split; [done|].
      exists k'. split; [by right|done].
  - intros l1 m l2 j E Hj. apply app_cons_split in E as [[r ->]|(r & -> & ->)].
    + by apply (A6 l1 m r).
    + rewrite fmap_app, elem_of_app.
      destruct (B6 r m l2 j eq_refl Hj) as [?|[Hv|?]]; [tauto| |tauto].
      rewrite A2 in Hv. set_solver.
  - intros m j [Hm|Hm]%elem_of_app Hj; [rewrite B2; specialize (A7 m j Hm Hj); set_solver|by apply (B7 m)].
Qed.

Lemma visits_one k m st st' new :
  k ∉ st.1 → assoc k modules = Some m →
  visits (imports_of m) ({[k]} ∪ st.1, st.2) st' new →
  visits [k] st (st'.1, st'.2 ++ [(k, m)]) (new ++ [(k, m)]).
Proof.
  intros Hk Hm [H1 H2 H3 H4 H5 H6 H7]. cbn [fst snd] in *. split; cbn [fst snd].
  - by rewrite H1, app_assoc.
  - rewrite H2, fmap_app, list_to_set_app_L. cbn [fmap list_fmap list_to_set fst]. set_solver.
  - intros k' ->%list_elem_of_singleton. rewrite H2. set_solver.
  - rewrite fmap_app. apply NoDup_app. split; [done|]. split; [|apply NoDup_singleton].
    intros j (m' & -> & Hin)%list_elem_of_fmap Hj%list_elem_of_singleton. destruct (H5 m' Hin) as [Hn _].
    rewrite Hj in Hn. cbn [fst] in Hn. set_solver.
  - intros m' [Hin| ->%list_elem_of_singleton]%elem_of_app.
    + destruct (H5 m' Hin) as (Hn & Ha & k' & Hk' & Hr). split; [set_solver|]. split; [done|].
      exists k. split; [left|]. by eapply import_reach_head.
    + split; [done|]. split; [done|]. exists k. split; [left|constructor].
  - intros l1 m' l2 j E Hj. apply app_cons_split in E as [[r ->]|(r & -> & E)].
    + destruct (H6 l1 m' r j eq_refl Hj) as [?|[[ ->%elem_of_singleton|?]%elem_of_union|?]]; [by left| |by right; left|by right; right].
      right. right. destruct (H5 m' ltac:(set_solver)) as (_ & _ & k' & Hk' & Hr). by eapply import_reach_head.
    + destruct r as [|? r]; [|by destruct r]. injection E as <- _. rewrite app_nil_r. cbn [fst snd] in *.
      specialize (H3 j Hj). rewrite H2 in H3.
      apply elem_of_union in H3 as [?%elem_of_list_to_set|[->%elem_of_singleton|?]%elem_of_union]; [by left| |by right; left].
      right. right. constructor.
  - intros m' j [Hin| ->%list_elem_of_singleton]%elem_of_app Hj; [by apply (H7 m')|by apply H3].
Qed.

Lemma visit_fold_visits fuel :
  (∀ k st st', visit fuel st k = Done st' → ∃ new, visits [k] st st' new) →
  ∀ ks st st', outcome_fold (visit fuel) st ks = Done st' → ∃ new, visits ks st st' new.
Proof.
  intros IH. induction ks as [|k ks IHks]; intros st st'; cbn [outcome_fold].
  - intros [= <-]. exists []. apply visits_nil.
  - destruct (visit fuel st k) as [st1| |] eqn:E; cbn [mbind outcome_bind]; [|done..].
    apply IH in E as [n1 H1]. intros [n2 H2]%IHks. exists (n1 ++ n2). by apply (visits_app k ks st st1).
Qed.

Lemma visit_visits fuel : ∀ k st st', visit fuel st k = Done st' → ∃ new, visits [k] st st' new.
Proof.
  induction fuel as [|fuel IH]; intros k st st'; cbn [visit]; [done|].
  case_decide as Hk; [intros [= <-]; exists []; by apply visits_skip; [|apply visits_nil]|].
  destruct (assoc k modules) as [m|] eqn:Em; cbn [mbind outcome_bind]; [|done].
  destruct (outcome_fold (visit fuel) _ _) as [st1| |] eqn:Ef; cbn [mbind outcome_bind]; [|done..].
  intros [= <-]. apply (visit_fold_visits fuel IH) in Ef as [new Hnew]. exists (new ++ [(k, m)]). by apply visits_one.
Qed.

(** The keys of the graph that were not visited. *)
Definition unvisited (st : visit_state) : gset ustring := list_to_set modules.*1 ∖ st.1.

Lemma visit_fuel fuel : ∀ k st, (size (unvisited st) < fuel)%nat → visit fuel st k ≠ NoFuel.
Proof.
  induction fuel as [|fuel IH]; intros k st Hf; cbn [visit]; [lia|].
  case_decide as Hk; [done|].
  destruct (assoc k modules) as [m|] eqn:Em; cbn [mbind outcome_bind]; [|done].
  assert (k ∈ modules.*1) as Hin.
  { apply list_elem_of_fmap. exists (k, m). split; [done|by apply assoc_Some]. }
  assert (∀ ks st1, (size (unvisited st1) < fuel)%nat → outcome_fold (visit fuel) st1 ks ≠ NoFuel) as Hfold.
  { induction ks as [|k' ks IHks]; intros st1 H1; cbn [outcome_fold]; [done|].
    pose proof (IH k' st1 H1). destruct (visit fuel st1 k') as [st2| |] eqn:E; cbn [mbind outcome_bind]; [|done..].
    apply visit_visits in E as [new [_ Hv _ _ _ _ _]]. apply IHks.
    assert (size (unvisited st2) <= size (unvisited st1))%nat; [|lia].
    apply subseteq_size. unfold unvisited. rewrite Hv. set_solver. }
  specialize (Hfold (imports_of m) ({[k]} ∪ st.1, st.2)).
  destruct (outcome_fold _ _ _); cbn [mbind outcome_bind]; [done..|]. exfalso. apply Hfold; [|done].
  assert (size (unvisited ({[k]} ∪ st.1, st.2)) < size (unvisited st))%nat; [|lia].
  apply subset_size. unfold unvisited. cbn [fst]. split; [set_solver|]. intros Hsub.
  specialize (Hsub k). set_solver.
Qed.

Lemma visit_raise fuel : ∀ k st e, visit fuel st k = Raise e →
  ∃ j, e = key_error j ∧ import_reach k j ∧ assoc j modules = None.
Proof.
  induction fuel as [|fuel IH]; intros k st e; cbn [visit]; [done|].
  case_decide; [done|]. destruct (assoc k modules) as [m|] eqn:Em; cbn [mbind outcome_bind].
  - destruct (outcome_fold _ _ _) as [st1|e'|] eqn:Ef; cbn [mbind outcome_bind]; [done| |done].
    intros [= <-]. assert (∀ ks st, outcome_fold (visit fuel) st ks = Raise e' →
      ∃ k' j, k' ∈ ks ∧ e' = key_error j ∧ import_reach k' j ∧ assoc j modules = None) as Hfold.
    { clear -IH. induction ks as [|k' ks IHks]; intros st; cbn [outcome_fold]; [done|].
      destruct (visit fuel st k') as [st1|e1|] eqn:E; cbn [mbind outcome_bind]; [| |done].
      - intros (k2 & j & ? & ?)%IHks. exists k2, j. split; [by right|done].
      - intros [= <-]. apply IH in E as (j & ?). exists k', j. split; [left|done]. }
    apply Hfold in Ef as (k' & j & Hk' & ? & ? & ?). exists j. split; [done|]. split; [|done].
    by eapply import_reach_head.
  - intros [= <-]. exists k. split; [done|]. split; [constructor|done].
Qed.

Lemma visits_root root new st' : visits [root] (∅, []) st' new →
  ∀ k, k ∈ new.*1 ↔ import_reach root k.
Proof.
  intros [H1 H2 H3 H4 H5 H6 H7] k. cbn [fst snd] in *. split.
  - intros (m & -> & Hm)%list_elem_of_fmap. by destruct (H5 m Hm) as (_ & _ & k' & ->%list_elem_of_singleton & ?).
  - assert (∀ j, j ∈ st'.1 → j ∈ new.*1) as Hv by (intros j; rewrite H2; set_solver).
    induction 1 as [|k2 k3 m _ IH Hm Hin]; [apply Hv, H3; left|].
    apply list_elem_of_fmap in IH as (m' & -> & Hm'). destruct (H5 m' Hm') as (_ & Ha & _).
    rewrite Hm in Ha. injection Ha as ->. apply Hv. by apply (H7 m').
Qed.


(** What [dependency_order] returns. *)
Definition order_ok (root : ustring) (r : outcome Err (list (ustring * M))) : Prop :=
  match r with
  | Done l =>
      NoDup l.*1 ∧ (∀ k, k ∈ l.*1 ↔ import_reach root k) ∧
      (∀ m, m ∈ l → assoc m.1 modules = Some m.2) ∧
      (∀ l1 m l2 j, l = l1 ++ m :: l2 → j ∈ imports_of m.2 → j ∈ l1.*1 ∨ import_reach j m.1)
  | Raise e => ∃ k, e = key_error k ∧ import_reach root k ∧ assoc k modules = None
  | NoFuel => False
  end.

Lemma dependency_order_ok root : order_ok root (dependency_order root).
Proof.
  unfold dependency_order, order_ok.
  assert (size (unvisited (∅, [])) < S (S (length modules)))%nat as Hf.
  { unfold unvisited. pose proof (size_list_to_set_le modules.*1) as Hs. rewrite length_fmap in Hs.
    assert (size ((list_to_set modules.*1 : gset ustring) ∖ ∅) <= size (list_to_set modules.*1 : gset ustring))%nat
      by (apply subseteq_size; set_solver). cbn [fst]. lia. }
  pose proof (visit_fuel _ root (∅, []) Hf).
  destruct (visit _ (∅, []) root) as [st| e |] eqn:E; cbn [mbind outcome_bind]; [| |done].
  - apply visit_visits in E as [new Hnew]. pose proof (visits_root root new st Hnew).
    destruct Hnew as [Ho _ _ Hnd Hn Hi _]. cbn [fst snd] in *. rewrite Ho. cbn [app]. split; [done|]. split; [done|].
    split; [intros m Hm; by apply Hn|]. intros l1 m l2 j El Hj.
    destruct (Hi l1 m l2 j El Hj) as [?|[?%elem_of_empty|?]]; [by left|done|by right].
  - by apply visit_raise in E.
Qed.
End order.
