(* ===== verification/Decimal.v ===== *)
(** Fixed-scale decimals: [src/koschei/financial_decimal.py] and the Go runtime
text of [src/koschei/financial_decimal_v1.py].

Module [Py] is the interpreter's arithmetic, module [Go] the native runtime's.
A Koschei runtime value is a [kval]; both modules start with the dynamic type
tests the code makes.  The theorems show that text and value are inverse to
each other, that no operation rounds or wraps, and that the two runtimes
agree on every input within Python's digit limit. *)

From S2P Require Import Prelude.

(** * Values *)

Record DecimalValue := mk_decimal { atoms : Z; scale : Z }.

Definition MAX_SCALE : Z := 18.

(** What the checks of [DecimalValue.__post_init__] accept. *)
Definition valid_decimal (v : DecimalValue) : bool :=
  in_int64 (atoms v) && (0 <=? scale v) && (scale v <=? MAX_SCALE).

(** A runtime value, as far as these operations can tell them apart. *)
Inductive kval :=
  | KString (s : ustring)
  | KInt (n : Z)
  | KBool (b : bool)
  | KDecimal (v : DecimalValue)
  | KOther.

(** The failures; [decimal_error_code] gives the stable code of the message. *)
Inductive decimal_error :=
  | ExpectsString
  | ScaleMustBeInt
  | ScaleRange
  | InvalidText
  | ImplicitRounding
  | AtomsOverflow
  | AdditionOverflow
  | SubtractionOverflow
  | ScalesDiffer
  | ExpectsDecimal
  | IntDigitLimit
  | AtomsExceedInt64
  | DecimalScaleRange.

(** [None]: a Python [ValueError] whose text carries no Koschei code. *)
Definition decimal_error_code (e : decimal_error) : option Z :=
  match e with
  | ExpectsString | ScaleMustBeInt | ScaleRange | InvalidText
  | ImplicitRounding | ExpectsDecimal => Some 3801
  | ScalesDiffer => Some 3802
  | AtomsOverflow | AdditionOverflow | SubtractionOverflow => Some 3803
  | IntDigitLimit | AtomsExceedInt64 | DecimalScaleRange => None
  end.

#[export] Instance DecimalValue_eq_dec : EqDecision DecimalValue.
Proof. solve_decision. Defined.
#[export] Instance decimal_error_eq_dec : EqDecision decimal_error.
Proof. solve_decision. Defined.

Module Py.

(** [DecimalValue(atoms, scale)]: the dataclass runs [__post_init__]. *)
Definition new_decimal (a s : Z) : outcome decimal_error DecimalValue :=
  if negb (in_int64 a) then Raise AtomsExceedInt64
  else if negb ((0 <=? s) && (s <=? MAX_SCALE)) then Raise DecimalScaleRange
  else Done (mk_decimal a s).

Definition _require_scale (v : kval) : outcome decimal_error Z :=
  match v with
  | KInt n =>
      if negb ((0 <=? n) && (n <=? MAX_SCALE)) then Raise ScaleRange else Done n
  | _ => Raise ScaleMustBeInt
  end.

Definition _require_decimal (v : kval) : outcome decimal_error DecimalValue :=
  match v with
  | KDecimal d => Done d
  | _ => Raise ExpectsDecimal
  end.

Definition _same_scale (l r : kval) : outcome decimal_error (DecimalValue * DecimalValue) :=
  a ← _require_decimal l;
  b ← _require_decimal r;
  if negb (scale a =? scale b) then Raise ScalesDiffer else Done (a, b).

(** [0|[1-9][0-9]*] at the start of the text, whole. *)
Definition canonical_whole (w : ustring) : bool :=
  match w with
  | [] => false
  | [c] => true
  | c :: _ => negb (c =? 48)
  end.

Definition starts_minus (raw : ustring) : bool :=
  match raw with c :: _ => c =? ch "-" | [] => false end.

(** [_DECIMAL_RE.fullmatch(raw)]. *)
Definition decimal_re (raw : ustring) : bool :=
  let unsigned := if starts_minus raw then tail raw else raw in
  let '(whole, rest) := span is_ascii_digit unsigned in
  canonical_whole whole &&
  match rest with
  | [] => true
  | c :: fraction =>
      (c =? ch ".") && bool_decide (fraction ≠ []) && forallb is_ascii_digit fraction
  end.

(** [text.split(sep, 1)] with a present separator, else the whole text and [""]. *)
Definition split_point (unsigned : ustring) : ustring * ustring :=
  match span (λ c, negb (c =? ch ".")) unsigned with
  | (whole, _ :: fraction) => (whole, fraction)
  | (whole, []) => (whole, [])
  end.

(** [int(digits)] for ASCII digits. *)
Definition int_of_digits (digits : ustring) : outcome decimal_error Z :=
  if INT_MAX_STR_DIGITS <? Z.of_nat (length digits) then Raise IntDigitLimit
  else Done (dec_value digits).

Definition parse_decimal (raw scale_value : kval) : outcome decimal_error DecimalValue :=
  match raw with
  | KString raw =>
      scale ← _require_scale scale_value;
      if negb (decimal_re raw) then Raise InvalidText else
      let negative := starts_minus raw in
      let unsigned := if negative then tail raw else raw in
      let '(whole, fraction) := split_point unsigned in
      if scale <? Z.of_nat (length fraction) then Raise ImplicitRounding else
      let digits :=
        whole ++ fraction ++ replicate (Z.to_nat scale - length fraction) 48 in
      magnitude ← int_of_digits digits;
      let atoms := if negative then - magnitude else magnitude in
      if negb (in_int64 atoms) then Raise AtomsOverflow
      else new_decimal atoms scale
  | _ => Raise ExpectsString
  end.

Definition decimal_text (value : kval) : outcome decimal_error ustring :=
  value ← _require_decimal value;
  let negative := atoms value <? 0 in
  let digits := str_int (atoms value) in
  let digits := if negative then tail digits else digits in
  let rendered :=
    if scale value =? 0 then digits
    else
      let digits := rjust0 (S (Z.to_nat (scale value))) digits in
      let cut := (length digits - Z.to_nat (scale value))%nat in
      take cut digits ++ ch "." :: drop cut digits in
  if negative && negb (atoms value =? 0) then Done (ch "-" :: rendered)
  else Done rendered.

Definition add_decimal (l r : kval) : outcome decimal_error DecimalValue :=
  '(a, b) ← _same_scale l r;
  let result := atoms a + atoms b in
  if negb (in_int64 result) then Raise AdditionOverflow
  else new_decimal result (scale a).

Definition sub_decimal (l r : kval) : outcome decimal_error DecimalValue :=
  '(a, b) ← _same_scale l r;
  let result := atoms a - atoms b in
  if negb (in_int64 result) then Raise SubtractionOverflow
  else new_decimal result (scale a).

Definition compare_decimal (l r : kval) : outcome decimal_error Z :=
  '(a, b) ← _same_scale l r;
  Done (Z.b2z (atoms b <? atoms a) - Z.b2z (atoms a <? atoms b)).

End Py.

(** * The Go runtime *)

Module Go.

(** [unicode.IsSpace], which [strings.TrimSpace] uses. *)
Definition is_space (c : Z) : bool :=
  ((9 <=? c) && (c <=? 13)) || (c =? 32) || (c =? 133) || (c =? 160) ||
  (c =? 5760) || ((8192 <=? c) && (c <=? 8202)) || (c =? 8232) || (c =? 8233) ||
  (c =? 8239) || (c =? 8287) || (c =? 12288).

Definition trim_space (s : ustring) : ustring :=
  reverse (span is_space (reverse (span is_space s).2)).2.

Definition ksDecimalDigits (text : ustring) : bool :=
  if bool_decide (text = []) then false else forallb is_ascii_digit text.

(** [strconv.ParseInt(digits, 10, 64)] on an optionally signed run of digits. *)
Definition parse_int (digits : ustring) : option Z :=
  let '(negative, digits) :=
    match digits with c :: t => if c =? ch "-" then (true, t) else (false, digits) | [] => (false, []) end in
  if bool_decide (digits = []) || negb (forallb is_ascii_digit digits) then None else
  let n := if negative : bool then - dec_value digits else dec_value digits in
  if in_int64 n then Some n else None.

Definition ksDecimalParse (raw scale_value : kval) : outcome Z DecimalValue :=
  match raw with
  | KString text =>
    match scale_value with
    | KInt scale =>
      if (scale <? 0) || (18 <? scale) then Raise 3801 else
      if bool_decide (text = []) || negb (bool_decide (trim_space text = text))
         || match text with c :: _ => c =? ch "+" | [] => false end
      then Raise 3801 else
      let negative := match text with c :: _ => c =? ch "-" | [] => false end in
      let unsigned := if negative then tail text else text in
      if bool_decide (unsigned = []) ||
         (1 <? length (filter (λ c, c = ch ".") unsigned))%nat then Raise 3801 else
      '(whole, fraction) ←
        match span (λ c, negb (c =? ch ".")) unsigned with
        | (whole, _ :: fraction) =>
            if bool_decide (fraction = []) then Raise 3801 else Done (whole, fraction)
        | (whole, []) => Done (whole, [])
        end;
      if negb (ksDecimalDigits whole) ||
         (bool_decide (fraction ≠ []) && negb (ksDecimalDigits fraction))
      then Raise 3801 else
      if (1 <? length whole)%nat && match whole with c :: _ => c =? 48 | [] => false end
      then Raise 3801 else
      if scale <? Z.of_nat (length fraction) then Raise 3801 else
      let digits := whole ++ fraction ++ replicate (Z.to_nat scale - length fraction) 48 in
      let digits := if negative then ch "-" :: digits else digits in
      match parse_int digits with
      | Some atoms => Done (mk_decimal atoms scale)
      | None => Raise 3803
      end
    | _ => Raise 3801
    end
  | _ => Raise 3801
  end.

(** [strconv.FormatInt(value.Atoms, 10)] prints as [str] does. *)
Definition ksDecimalFormat (value : DecimalValue) : ustring :=
  let digits := str_int (atoms value) in
  let negative := match digits with c :: _ => c =? ch "-" | [] => false end in
  let digits := if negative then tail digits else digits in
  let digits :=
    if 0 <? scale value then
      let needed := S (Z.to_nat (scale value)) in
      let digits :=
        if (length digits <? needed)%nat
        then replicate (needed - length digits) 48 ++ digits else digits in
      let cut := (length digits - Z.to_nat (scale value))%nat in
      take cut digits ++ ch "." :: drop cut digits
    else digits in
  if negative && negb (atoms value =? 0) then ch "-" :: digits else digits.

Definition ksDecimalPair (l r : kval) : outcome Z (DecimalValue * DecimalValue) :=
  match l, r with
  | KDecimal a, KDecimal b =>
      if negb (scale a =? scale b) then Raise 3802 else Done (a, b)
  | _, _ => Raise 3801
  end.

Definition ksDecimalAdd (l r : kval) : outcome Z DecimalValue :=
  '(a, b) ← ksDecimalPair l r;
  if ((0 <? atoms b) && (wrap64 (INT64_MAX - atoms b) <? atoms a)) ||
     ((atoms b <? 0) && (atoms a <? wrap64 (INT64_MIN - atoms b)))
  then Raise 3803
  else Done (mk_decimal (wrap64 (atoms a + atoms b)) (scale a)).

Definition ksDecimalSub (l r : kval) : outcome Z DecimalValue :=
  '(a, b) ← ksDecimalPair l r;
  if ((0 <? atoms b) && (atoms a <? wrap64 (INT64_MIN + atoms b))) ||
     ((atoms b <? 0) && (wrap64 (INT64_MAX + atoms b) <? atoms a))
  then Raise 3803
  else Done (mk_decimal (wrap64 (atoms a - atoms b)) (scale a)).

Definition ksDecimalCmp (l r : kval) : outcome Z Z :=
  '(a, b) ← ksDecimalPair l r;
  if atoms a <? atoms b then Done (-1)
  else if atoms b <? atoms a then Done 1
  else Done 0.

Definition ksDecimalText (value : kval) : outcome Z ustring :=
  match value with
  | KDecimal item => Done (ksDecimalFormat item)
  | _ => Raise 3801
  end.

End Go.

(** The outcome a Koschei program sees: the value, or the failure's code. *)
Definition visible {A} (o : outcome decimal_error A) : outcome (option Z) A :=
  match o with
  | Done a => Done a
  | Raise e => Raise (decimal_error_code e)
  | NoFuel => NoFuel
  end.

Definition visible_go {A} (o : outcome Z A) : outcome (option Z) A :=
  match o with
  | Done a => Done a
  | Raise c => Raise (Some c)
  | NoFuel => NoFuel
  end.

(** * The shape of decimal text *)

Definition all_digits (s : ustring) : Prop := Forall (λ c, is_ascii_digit c = true) s.

(** A sign, a whole part and an optional fraction after a point. *)
Definition decimal_shape (negative : bool) (whole fraction : ustring) : ustring :=
  (if negative then [ch "-"] else []) ++ whole ++
  (if decide (fraction = []) then [] else ch "." :: fraction).

Definition shape_ok (whole fraction : ustring) : Prop :=
  all_digits whole ∧ all_digits fraction ∧ Py.canonical_whole whole = true.

Definition signed (negative : bool) (n : Z) : Z := if negative then - n else n.

Lemma forallb_digits s : forallb is_ascii_digit s = true ↔ all_digits s.
Proof. unfold all_digits. rewrite forallb_forall, Forall_forall. setoid_rewrite list_elem_of_In. done. Qed.

Lemma digits_not_point s : all_digits s → Forall (λ c, negb (c =? ch ".") = true) s.
Proof.
  intros Hs. eapply Forall_impl; [exact Hs|]. intros c Hc. apply is_ascii_digit_spec in Hc.
  destruct (Z.eqb_spec c 46); [lia|done].
Qed.

(** How both parsers split an unsigned decimal at its point. *)
Lemma span_unsigned w f :
  shape_ok w f →
  span (λ c, negb (c =? ch ".")) (w ++ if decide (f = []) then [] else ch "." :: f)
  = (w, if decide (f = []) then [] else ch "." :: f).
Proof.
  intros (Hw & _ & _). apply span_stop; [by apply digits_not_point|].
  case_decide; simpl; auto.
Qed.

Lemma span_digits_unsigned w f :
  shape_ok w f →
  span is_ascii_digit (w ++ if decide (f = []) then [] else ch "." :: f)
  = (w, if decide (f = []) then [] else ch "." :: f).
Proof. intros (Hw & _ & _). apply span_stop; [done|]. case_decide; simpl; auto. Qed.

Lemma shape_sign negative w f :
  shape_ok w f →
  Py.starts_minus (decimal_shape negative w f) = negative ∧
  (if negative then tail (decimal_shape negative w f) else decimal_shape negative w f)
  = w ++ if decide (f = []) then [] else ch "." :: f.
Proof.
  intros (Hw & Hf & Hc). unfold decimal_shape. destruct negative; [done|]. split; [|done].
  destruct w as [|x w]; [done|]. simpl. inversion Hw as [|? ? Hx _]; subst.
  apply is_ascii_digit_spec in Hx. apply Z.eqb_neq. lia.
Qed.

(** The text of a shape, and only that, matches the regular expression. *)
Lemma decimal_re_shape negative w f :
  shape_ok w f → Py.decimal_re (decimal_shape negative w f) = true.
Proof.
  intros Hok. destruct (shape_sign negative w f Hok) as [Hs Ht].
  unfold Py.decimal_re. rewrite Hs, Ht.
  rewrite span_digits_unsigned by done. destruct Hok as (Hw & Hf & Hc). rewrite Hc.
  case_decide; [done|]. simpl. rewrite bool_decide_true by done.
  by apply forallb_digits.
Qed.

Lemma decimal_re_inv raw :
  Py.decimal_re raw = true →
  ∃ negative w f, raw = decimal_shape negative w f ∧ shape_ok w f.
Proof.
  unfold Py.decimal_re. intros H.
  set (s := if Py.starts_minus raw then tail raw else raw) in H.
  exists (Py.starts_minus raw).
  assert (raw = (if Py.starts_minus raw then [ch "-"] else []) ++ s) as Hraw.
  { unfold s, Py.starts_minus. destruct raw as [|c t]; [done|].
    destruct (Z.eqb_spec c 45) as [->|]; done. }
  pose proof (span_app is_ascii_digit s) as Happ.
  pose proof (span_fst_Forall is_ascii_digit s) as Hd.
  destruct (span is_ascii_digit s) as [w r]. simpl in Happ, Hd. bool_to_prop.
  destruct r as [|c f].
  - exists w, []. split; [|split; [exact Hd|split; [constructor|done]]].
    rewrite Hraw at 1. rewrite <- Happ. unfold decimal_shape. by rewrite decide_True.
  - bool_to_prop. subst c.
    match goal with H : bool_decide _ = true |- _ => apply bool_decide_eq_true in H end.
    exists w, f. split; [|split; [exact Hd|split; [by apply forallb_digits|done]]].
    rewrite Hraw at 1. rewrite <- Happ. unfold decimal_shape. by rewrite decide_False.
Qed.

Lemma split_point_shape w f :
  shape_ok w f →
  Py.split_point (w ++ if decide (f = []) then [] else ch "." :: f) = (w, f).
Proof.
  intros Hok. unfold Py.split_point. rewrite span_unsigned by done.
  case_decide; subst; done.
Qed.

Definition padded (w f : ustring) (sc : Z) : ustring :=
  w ++ f ++ replicate (Z.to_nat sc - length f) 48.

Definition scale_ok (sc : Z) : bool := (0 <=? sc) && (sc <=? MAX_SCALE).

(** The interpreter's parser on text of the right shape. *)
Lemma py_parse_shape negative w f sc :
  shape_ok w f → scale_ok sc = true →
  Py.parse_decimal (KString (decimal_shape negative w f)) (KInt sc) =
  if sc <? Z.of_nat (length f) then Raise ImplicitRounding
  else if INT_MAX_STR_DIGITS <? Z.of_nat (length (padded w f sc)) then Raise IntDigitLimit
  else let a := signed negative (dec_value (padded w f sc)) in
       if in_int64 a then Done (mk_decimal a sc) else Raise AtomsOverflow.
Proof.
  intros Hok Hsc. destruct (shape_sign negative w f Hok) as [Hs Ht].
  unfold Py.parse_decimal, Py._require_scale.
  unfold scale_ok in Hsc. rewrite Hsc. cbn -[Z.leb].
  rewrite decimal_re_shape by done. cbn -[Z.leb].
  rewrite Hs, Ht, split_point_shape by done. fold (padded w f sc).
  destruct (sc <? _); [done|]. unfold Py.int_of_digits.
  destruct (INT_MAX_STR_DIGITS <? _); [done|]. cbn -[Z.leb padded].
  fold (signed negative (dec_value (padded w f sc))).
  destruct (in_int64 _) eqn:Hi; [|done]. cbn -[Z.leb padded signed].
  unfold Py.new_decimal. rewrite Hi. cbn -[Z.leb padded signed]. by rewrite Hsc.
Qed.

Lemma py_parse_no_shape raw sc :
  Py.decimal_re raw = false → scale_ok sc = true →
  Py.parse_decimal (KString raw) (KInt sc) = Raise InvalidText.
Proof.
  intros Hre Hsc. unfold Py.parse_decimal, Py._require_scale.
  unfold scale_ok in Hsc. rewrite Hsc. simpl. by rewrite Hre.
Qed.

(** * The native parser on text of the right shape *)

Lemma filter_point_none s :
  Forall (λ c, negb (c =? ch ".") = true) s → filter (λ c, c = ch ".") s = [].
Proof.
  induction 1 as [|c s Hc Hs IH]; [done|]. rewrite filter_cons, IH.
  case_decide; subst; done.
Qed.

Lemma one_point w f :
  shape_ok w f →
  (1 <? length (filter (λ c, c = ch ".") (w ++ if decide (f = []) then [] else ch "." :: f)))%nat = false.
Proof.
  intros (Hw & Hf & _). rewrite filter_app, filter_point_none by by apply digits_not_point.
  case_decide; [done|]. rewrite filter_cons, decide_True by done.
  rewrite filter_point_none by by apply digits_not_point. done.
Qed.

Lemma digit_not_space c : is_ascii_digit c = true ∨ c = ch "." ∨ c = ch "-" → Go.is_space c = false.
Proof.
  intros H. assert (45 <= c <= 57) as Hc.
  { destruct H as [H| [->| ->]]; [apply is_ascii_digit_spec in H|..]; lia. }
  unfold Go.is_space. case_Z; simpl; try done; lia.
Qed.

Lemma trim_no_space s :
  Forall (λ c, Go.is_space c = false) s → Go.trim_space s = s.
Proof.
  intros H. assert (∀ t, Forall (λ c, Go.is_space c = false) t → (span Go.is_space t).2 = t) as Hid.
  { intros [|c t] Ht; [done|]. inversion Ht as [|? ? Hc _]; subst. simpl. by rewrite Hc. }
  unfold Go.trim_space. rewrite (Hid s) by done. rewrite Hid by by apply Forall_reverse.
  apply reverse_involutive.
Qed.

Lemma shape_no_space negative w f :
  shape_ok w f → Forall (λ c, Go.is_space c = false) (decimal_shape negative w f).
Proof.
  intros (Hw & Hf & _). unfold decimal_shape.
  assert (∀ s, all_digits s → Forall (λ c, Go.is_space c = false) s) as Hds.
  { intros s Hs. eapply Forall_impl; [exact Hs|]. intros c Hc. apply digit_not_space; auto. }
  apply Forall_app; split; [destruct negative; auto|].
  apply Forall_app; split; [auto|]. case_decide; auto.
Qed.

Lemma padded_digits w f sc : all_digits w → all_digits f → all_digits (padded w f sc).
Proof.
  intros Hw Hf. unfold padded. repeat (apply Forall_app; split; auto). by apply Forall_replicate.
Qed.

Lemma padded_nonnil w f sc : w ≠ [] → padded w f sc ≠ [].
Proof. unfold padded. by destruct w. Qed.

Lemma parse_int_signed negative s :
  all_digits s → s ≠ [] →
  Go.parse_int (if negative : bool then ch "-" :: s else s) =
  if in_int64 (signed negative (dec_value s)) then Some (signed negative (dec_value s)) else None.
Proof.
  intros Hs Hne. unfold Go.parse_int. destruct negative; simpl.
  - rewrite bool_decide_false by done. by rewrite (proj2 (forallb_digits s) Hs).
  - destruct s as [|c s]; [done|]. inversion Hs as [|? ? Hc _]; subst.
    apply is_ascii_digit_spec in Hc. destruct (Z.eqb_spec c 45); [lia|].
    rewrite bool_decide_false by done. by rewrite (proj2 (forallb_digits _) Hs).
Qed.

Lemma whole_digits_ok w : all_digits w → Py.canonical_whole w = true → Go.ksDecimalDigits w = true.
Proof.
  intros Hw Hc. unfold Go.ksDecimalDigits. rewrite bool_decide_false by by destruct w.
  by apply forallb_digits.
Qed.

Lemma leading_zero_ok w :
  Py.canonical_whole w = true →
  (1 <? length w)%nat && match w with c :: _ => c =? 48 | [] => false end = false.
Proof. destruct w as [|c [|c' w]]; simpl; [done..|]. apply negb_true_iff. Qed.

Lemma go_parse_shape negative w f sc :
  shape_ok w f → scale_ok sc = true →
  Go.ksDecimalParse (KString (decimal_shape negative w f)) (KInt sc) =
  if sc <? Z.of_nat (length f) then Raise 3801
  else let a := signed negative (dec_value (padded w f sc)) in
       if in_int64 a then Done (mk_decimal a sc) else Raise 3803.
Proof.
  intros Hok Hsc. destruct (shape_sign negative w f Hok) as [Hs Ht].
  assert (Hsp := shape_no_space negative w f Hok).
  pose proof Hok as (Hw & Hf & Hc).
  set (t := decimal_shape negative w f) in *.
  assert (t ≠ []) as Hne. { intros E. rewrite E in Ht. destruct negative, w; done. }
  assert (match t with c :: _ => c =? ch "+" | [] => false end = false) as Hplus.
  { subst t. unfold decimal_shape. destruct negative; [done|].
    destruct w as [|c w]; [done|]. inversion Hw as [|? ? Hcd _]; subst.
    apply is_ascii_digit_spec in Hcd. simpl. apply Z.eqb_neq. lia. }
  unfold Go.ksDecimalParse. unfold scale_ok, MAX_SCALE in Hsc.
  assert ((sc <? 0) || (18 <? sc) = false) as ->.
  { bool_to_prop. apply orb_false_iff; split; bool_to_prop; lia. }
  rewrite bool_decide_false by done. rewrite trim_no_space by done.
  rewrite bool_decide_true by done. rewrite Hplus. cbn [negb orb].
  fold (Py.starts_minus t). rewrite Hs, Ht.
  rewrite bool_decide_false by by destruct w. rewrite one_point by done. cbn [orb].
  rewrite span_unsigned by done.
  assert (Go.ksDecimalDigits w = true) as Hwd by by apply whole_digits_ok.
  destruct (decide (f = [])) as [->|Hf0]; cbn -[Go.ksDecimalDigits Z.leb Z.ltb Nat.ltb Go.parse_int].
  - rewrite Hwd, leading_zero_ok by done. cbn -[Z.ltb Go.parse_int].
    destruct (sc <? _); [done|].
    change (w ++ replicate (Z.to_nat sc - 0) 48) with (padded w [] sc).
    rewrite parse_int_signed by (apply padded_digits || apply padded_nonnil; first [done|by destruct w]).
    by destruct (in_int64 _).
  - rewrite bool_decide_false by done. cbn -[Go.ksDecimalDigits Z.leb Z.ltb Nat.ltb Go.parse_int].
    rewrite Hwd, leading_zero_ok by done.
    unfold Go.ksDecimalDigits. rewrite (proj2 (forallb_digits f)) by done.
    rewrite (bool_decide_true (f ≠ [])), (bool_decide_false (f = [])) by done.
    cbn -[Z.ltb Go.parse_int].
    destruct (sc <? _); [done|]. fold (padded w f sc).
    rewrite parse_int_signed by (apply padded_digits || apply padded_nonnil; first [done|by destruct w]).
    by destruct (in_int64 _).
Qed.

Lemma point_split_shape s w f :
  span (λ c, negb (c =? ch ".")) s = (w, ch "." :: f) → s = w ++ ch "." :: f.
Proof. intros H. pose proof (span_app (λ c, negb (c =? ch ".")) s) as Happ. by rewrite H in Happ. Qed.

Lemma go_digits_inv w : Go.ksDecimalDigits w = true → w ≠ [] ∧ all_digits w.
Proof.
  unfold Go.ksDecimalDigits. case_bool_decide; [done|]. intros H1. split; [done|].
  by apply forallb_digits.
Qed.

Lemma leading_zero_inv w :
  w ≠ [] → (1 <? length w)%nat && match w with c :: _ => c =? 48 | [] => false end = false →
  Py.canonical_whole w = true.
Proof. destruct w as [|c [|c' w]]; simpl; [done..|]. intros _ ->. done. Qed.

Lemma go_unsigned_inv s w f :
  match span (λ c, negb (c =? ch ".")) s with
  | (whole, _ :: fraction) =>
      if bool_decide (fraction = []) then Raise 3801 else Done (whole, fraction)
  | (whole, []) => Done (whole, [])
  end = (Done (w, f) : outcome Z (ustring * ustring)) →
  s = w ++ if decide (f = []) then [] else ch "." :: f.
Proof.
  pose proof (span_app (λ c, negb (c =? ch ".")) s) as Happ.
  pose proof (span_snd (λ c, negb (c =? ch ".")) s) as Hsnd.
  destruct (span _ s) as [w' [|c f']]; simpl in *.
  - intros [= -> <-]. by rewrite decide_True.
  - case_bool_decide; [done|]. intros [= -> ->]. rewrite decide_False by done.
    apply negb_false_iff, Z.eqb_eq in Hsnd. by subst.
Qed.

(** The native parser refuses, with KS3801, whatever the expression refuses. *)
Lemma go_parse_no_shape raw sc :
  Py.decimal_re raw = false → scale_ok sc = true →
  Go.ksDecimalParse (KString raw) (KInt sc) = Raise 3801.
Proof.
  intros Hre _. unfold Go.ksDecimalParse.
  destruct (_ || _); [done|]. destruct (_ || _); [done|].
  fold (Py.starts_minus raw).
  set (s := if Py.starts_minus raw then tail raw else raw).
  destruct (_ || _); [done|].
  destruct (match span _ s with (_, _) => _ end) as [[w f]|e|] eqn:Hsp.
  2-3: destruct (span _ s) as [w' [|c f']]; try done; by case_bool_decide; simplify_eq.
  apply go_unsigned_inv in Hsp. cbn -[Go.ksDecimalDigits Nat.ltb Z.ltb Go.parse_int].
  destruct (Go.ksDecimalDigits w) eqn:Hw; [|done]. cbn [negb orb].
  destruct (bool_decide (f ≠ []) && negb (Go.ksDecimalDigits f)) eqn:Hf; [done|].
  destruct ((1 <? length w)%nat && _) eqn:Hz; [done|].
  exfalso. apply go_digits_inv in Hw as [Hw0 Hw].
  assert (shape_ok w f) as Hok.
  { split; [done|]. split; [|by apply leading_zero_inv].
    apply andb_false_iff in Hf as [Hf|Hf].
    - apply bool_decide_eq_false, dec_stable in Hf. subst. constructor.
    - apply negb_false_iff, go_digits_inv in Hf as [_ Hf]. done. }
  pose proof (decimal_re_shape (Py.starts_minus raw) w f Hok) as Hre'.
  assert (raw = decimal_shape (Py.starts_minus raw) w f) as Hraw.
  { unfold decimal_shape. rewrite <- Hsp. subst s. unfold Py.starts_minus.
    destruct raw as [|c t]; [done|]. destruct (Z.eqb_spec c 45) as [->|]; done. }
  rewrite <- Hraw in Hre'. congruence.
Qed.

Lemma decimal_shape_length negative w f :
  (length w + length f ≤ length (decimal_shape negative w f))%nat.
Proof. unfold decimal_shape. rewrite !length_app. case_decide; subst; simpl; lia. Qed.

Lemma padded_length w f sc :
  Z.of_nat (length f) <= sc → Z.of_nat (length (padded w f sc)) = Z.of_nat (length w) + sc.
Proof. intros H. unfold padded. rewrite !length_app, length_replicate. lia. Qed.

(** ** The text of a valid decimal *)

Definition pad_scale (sc : Z) (digits : ustring) : ustring :=
  if sc =? 0 then digits else rjust0 (S (Z.to_nat sc)) digits.

Definition text_whole (v : DecimalValue) : ustring :=
  let d := pad_scale (scale v) (str_nat (Z.abs (atoms v))) in
  take (length d - Z.to_nat (scale v)) d.

Definition text_fraction (v : DecimalValue) : ustring :=
  let d := pad_scale (scale v) (str_nat (Z.abs (atoms v))) in
  drop (length d - Z.to_nat (scale v)) d.

Lemma valid_decimal_spec v :
  valid_decimal v = true ↔ in_int64 (atoms v) = true ∧ 0 <= scale v <= 18.
Proof. unfold valid_decimal, MAX_SCALE. rewrite !andb_true_iff, !Z.leb_le. tauto. Qed.

Lemma pad_scale_digits sc n : 0 <= n → all_digits (pad_scale sc (str_nat n)).
Proof.
  intros Hn. pose proof (proj1 (str_nat_canonical n Hn)) as Hd. unfold pad_scale, rjust0.
  destruct (sc =? 0); [done|]. apply Forall_app. split; [by apply Forall_replicate|done].
Qed.

Lemma pad_scale_value sc n : 0 <= n → dec_value (pad_scale sc (str_nat n)) = n.
Proof.
  intros Hn. unfold pad_scale, rjust0. destruct (sc =? 0); [by apply dec_value_str_nat|].
  rewrite dec_value_app, dec_value_zeros, dec_value_str_nat by done. lia.
Qed.

Lemma pad_scale_length sc n :
  0 <= sc → 0 <= n → (Z.to_nat sc < length (pad_scale sc (str_nat n)))%nat.
Proof.
  intros Hs Hn. pose proof (str_nat_nonnil n Hn). unfold pad_scale, rjust0.
  destruct (Z.eqb_spec sc 0) as [->|]; [destruct (str_nat n); simpl; [done|lia]|].
  rewrite length_app, length_replicate. lia.
Qed.

Lemma text_value v :
  dec_value (text_whole v ++ text_fraction v) = Z.abs (atoms v).
Proof. unfold text_whole, text_fraction. rewrite take_drop. apply pad_scale_value. lia. Qed.

Lemma text_fraction_length v :
  0 <= scale v → length (text_fraction v) = Z.to_nat (scale v).
Proof.
  intros H. unfold text_fraction. rewrite length_drop.
  pose proof (pad_scale_length (scale v) (Z.abs (atoms v)) H). lia.
Qed.

Lemma canonical_take n s :
  canonical_digits s → (0 < n ≤ length s)%nat → Py.canonical_whole (take n s) = true.
Proof.
  intros [_ Hc] Hn. destruct n as [|n]; [lia|]. destruct s as [|c [|c' s]]; simpl in *; [lia|by destruct n|].
  destruct n; simpl; [done|]. by apply negb_true_iff, Z.eqb_neq.
Qed.

Lemma text_shape_ok v : 0 <= scale v → shape_ok (text_whole v) (text_fraction v).
Proof.
  intros Hs. assert (0 <= Z.abs (atoms v)) as Ha by lia.
  pose proof (pad_scale_digits (scale v) _ Ha) as Hd.
  rewrite <- (take_drop (length (pad_scale (scale v) (str_nat (Z.abs (atoms v)))) - Z.to_nat (scale v))) in Hd.
  apply Forall_app in Hd as [Hd1 Hd2]. split; [exact Hd1|]. split; [exact Hd2|]. clear Hd1 Hd2.
  pose proof (pad_scale_length (scale v) _ Hs Ha) as Hl. unfold text_whole.
  pose proof (str_nat_canonical _ Ha) as Hc. revert Hl. unfold pad_scale.
  destruct (Z.eqb_spec (scale v) 0) as [E|E]; intros Hl; [apply canonical_take; [done|lia]|].
  unfold rjust0 in *. rewrite length_app, length_replicate in *.
  set (D := str_nat (Z.abs (atoms v))) in *.
  destruct (decide (length D ≤ Z.to_nat (scale v))%nat) as [Hle|Hgt].
  - replace (S (Z.to_nat (scale v)) - length D + length D - Z.to_nat (scale v))%nat with 1%nat by lia.
    destruct (S (Z.to_nat (scale v)) - length D)%nat eqn:E1; [lia|]. done.
  - replace (S (Z.to_nat (scale v)) - length D)%nat with 0%nat by lia. simpl.
    apply canonical_take; [done|lia].
Qed.

Definition text_of (v : DecimalValue) : ustring :=
  decimal_shape (atoms v <? 0) (text_whole v) (text_fraction v).

Lemma text_rendered v :
  0 <= scale v →
  (let digits := str_nat (Z.abs (atoms v)) in
   if scale v =? 0 then digits
   else let d := rjust0 (S (Z.to_nat (scale v))) digits in
        let cut := (length d - Z.to_nat (scale v))%nat in
        take cut d ++ ch "." :: drop cut d)
  = text_whole v ++ if decide (text_fraction v = []) then [] else ch "." :: text_fraction v.
Proof.
  intros Hs. pose proof (text_fraction_length v Hs) as Hl.
  assert (0 <= Z.abs (atoms v)) as Ha by lia.
  unfold text_whole, text_fraction, pad_scale in *.
  destruct (Z.eqb_spec (scale v) 0) as [E|E]; simpl in *.
  - rewrite E in *. simpl in *. rewrite Nat.sub_0_r in *.
    rewrite decide_True by by apply nil_length_inv. by rewrite app_nil_r, firstn_all.
  - rewrite decide_False; [done|]. intros E0. rewrite E0 in Hl. simpl in Hl. lia.
Qed.

Lemma py_text_of v :
  valid_decimal v = true → Py.decimal_text (KDecimal v) = Done (text_of v).
Proof.
  intros (_ & Hs)%valid_decimal_spec. unfold Py.decimal_text, text_of, decimal_shape.
  rewrite <- text_rendered by lia. cbn -[str_int str_nat rjust0 Z.ltb Z.eqb].
  destruct (Z.ltb_spec (atoms v) 0).
  - rewrite str_int_neg, Z.abs_neq by lia. cbn -[str_nat rjust0 Z.ltb Z.eqb].
    destruct (Z.eqb_spec (atoms v) 0); [lia|]. by destruct (scale v =? 0).
  - rewrite str_int_nonneg, Z.abs_eq by lia. cbn -[str_nat rjust0 Z.ltb Z.eqb].
    by destruct (scale v =? 0).
Qed.

Lemma go_text_of v : valid_decimal v = true → Go.ksDecimalFormat v = text_of v.
Proof.
  intros (_ & Hs)%valid_decimal_spec. unfold Go.ksDecimalFormat, text_of, decimal_shape.
  rewrite <- text_rendered by lia.
  assert (∀ d : ustring,
    (if 0 <? scale v
     then let needed := S (Z.to_nat (scale v)) in
          let digits := if (length d <? needed)%nat then replicate (needed - length d) 48 ++ d else d in
          let cut := (length digits - Z.to_nat (scale v))%nat in
          take cut digits ++ ch "." :: drop cut digits
     else d) =
    (if scale v =? 0 then d
     else let d := rjust0 (S (Z.to_nat (scale v))) d in
          let cut := (length d - Z.to_nat (scale v))%nat in
          take cut d ++ ch "." :: drop cut d)) as Hpad.
  { intros d. destruct (Z.ltb_spec 0 (scale v)), (Z.eqb_spec (scale v) 0); try lia; [|done].
    cbv zeta. unfold rjust0. destruct (Nat.ltb_spec (length d) (S (Z.to_nat (scale v)))); [done|].
    replace (S (Z.to_nat (scale v)) - length d)%nat with 0%nat by lia. done. }
  cbv zeta. destruct (Z.ltb_spec (atoms v) 0).
  - rewrite str_int_neg, Z.abs_neq by lia. cbn [tail]. rewrite Z.eqb_refl. rewrite Hpad.
    destruct (Z.eqb_spec (atoms v) 0); [lia|]. done.
  - rewrite str_int_nonneg, Z.abs_eq by lia.
    assert (match str_nat (atoms v) with c :: _ => c =? ch "-" | [] => false end = false) as ->.
    { destruct (str_nat_canonical (atoms v) ltac:(lia)) as [Hd _].
      destruct (str_nat (atoms v)) as [|c t]; [done|]. inversion Hd as [|? ? Hc _]; subst.
      apply is_ascii_digit_spec in Hc. apply Z.eqb_neq. lia. }
    cbn [andb]. by rewrite Hpad.
Qed.

(** The native overflow tests are exact. *)
Lemma go_add_guard a b :
  in_int64 a = true → in_int64 b = true →
  ((0 <? b) && (wrap64 (INT64_MAX - b) <? a)) || ((b <? 0) && (a <? wrap64 (INT64_MIN - b)))
  = negb (in_int64 (a + b)).
Proof.
  intros Ha%in_int64_spec Hb%in_int64_spec. unfold INT64_MAX, INT64_MIN in *.
  destruct (Z.ltb_spec 0 b), (Z.ltb_spec b 0); try lia; cbn [andb orb];
    rewrite ?wrap64_id by (apply in_int64_spec; unfold INT64_MIN, INT64_MAX; lia);
    unfold in_int64, INT64_MAX, INT64_MIN; case_Z; simpl; try done; lia.
Qed.

Lemma go_sub_guard a b :
  in_int64 a = true → in_int64 b = true →
  ((0 <? b) && (a <? wrap64 (INT64_MIN + b))) || ((b <? 0) && (wrap64 (INT64_MAX + b) <? a))
  = negb (in_int64 (a - b)).
Proof.
  intros Ha%in_int64_spec Hb%in_int64_spec. unfold INT64_MAX, INT64_MIN in *.
  destruct (Z.ltb_spec 0 b), (Z.ltb_spec b 0); try lia; cbn [andb orb];
    rewrite ?wrap64_id by (apply in_int64_spec; unfold INT64_MIN, INT64_MAX; lia);
    unfold in_int64, INT64_MAX, INT64_MIN; case_Z; simpl; try done; lia.
Qed.

Lemma parse_shape_value w f sc :
  Z.of_nat (length f) <= sc →
  dec_value (padded w f sc) = dec_value (w ++ f) * 10 ^ (sc - Z.of_nat (length f)).
Proof.
  intros H. unfold padded. rewrite app_assoc, dec_value_app, dec_value_zeros, length_replicate.
  rewrite Nat2Z.inj_sub, Z2Nat.id by lia. lia.
Qed.

Lemma text_whole_short v : in_int64 (atoms v) = true → (length (text_whole v) ≤ 40)%nat.
Proof.
  intros H%in_int64_spec. unfold INT64_MIN, INT64_MAX in H.
  unfold text_whole, pad_scale, rjust0. rewrite length_take.
  pose proof (str_nat_length (Z.abs (atoms v)) 20 ltac:(lia) ltac:(lia)).
  destruct (scale v =? 0); rewrite ?length_app, ?length_replicate; lia.
Qed.

(** Runtime values whose decimals and integers are in range. *)
Definition kval_ok (v : kval) : bool :=
  match v with
  | KDecimal d => valid_decimal d
  | KInt n => in_int64 n
  | _ => true
  end.

(** The digits the parser hands to [int] are within Python's limit. *)
Definition within_digit_limit (raw sc : kval) : bool :=
  match raw, sc with
  | KString s, KInt n => Z.of_nat (length s) + Z.max 0 n <=? INT_MAX_STR_DIGITS
  | _, _ => true
  end.

Lemma same_scale_agree l r :
  visible (Py._same_scale l r) = visible_go (Go.ksDecimalPair l r).
Proof.
  destruct l as [| | |l|], r as [| | |r|]; try done.
  unfold Py._same_scale. cbn -[Z.eqb]. by destruct (scale l =? scale r).
Qed.

Lemma same_scale_inv l r a b :
  kval_ok l = true → kval_ok r = true → Py._same_scale l r = Done (a, b) →
  l = KDecimal a ∧ r = KDecimal b ∧ scale a = scale b ∧
  valid_decimal a = true ∧ valid_decimal b = true.
Proof.
  intros Hl Hr. destruct l as [| | |l|], r as [| | |r|]; try done.
  unfold Py._same_scale. cbn -[Z.eqb]. destruct (Z.eqb_spec (scale l) (scale r)); [|done].
  by intros [= -> ->].
Qed.

Lemma new_decimal_valid a s :
  in_int64 a = true → 0 <= s <= 18 → Py.new_decimal a s = Done (mk_decimal a s).
Proof.
  intros Ha Hs. unfold Py.new_decimal, MAX_SCALE. rewrite Ha.
  rewrite (proj2 (Z.leb_le 0 s)), (proj2 (Z.leb_le s 18)) by lia. done.
Qed.

(** A binary operation agrees with its native form once it does on two
decimals of one scale. *)
Lemma pair_agree {A} (f : DecimalValue * DecimalValue → outcome decimal_error A) g l r :
  kval_ok l = true → kval_ok r = true →
  (∀ a b, scale a = scale b → valid_decimal a = true → valid_decimal b = true →
    visible (f (a, b)) = visible_go (g (a, b))) →
  visible (Py._same_scale l r ≫= f) = visible_go (Go.ksDecimalPair l r ≫= g).
Proof.
  intros Hl Hr Hfg. pose proof (same_scale_agree l r) as Hag.
  destruct (Py._same_scale l r) as [[a b]|e|] eqn:E; cbn in Hag |- *.
  - apply same_scale_inv in E as (_ & _ & Hs & Ha & Hb); [|done..].
    destruct (Go.ksDecimalPair l r) as [[a' b']|e'|]; cbn in Hag |- *; simplify_eq.
    by apply Hfg.
  - destruct (Go.ksDecimalPair l r) as [[a' b']|e'|]; cbn in Hag |- *; congruence.
  - destruct (Go.ksDecimalPair l r) as [[a' b']|e'|]; cbn in Hag |- *; congruence.
Qed.

Lemma add_agree l r :
  kval_ok l = true → kval_ok r = true →
  visible (Py.add_decimal l r) = visible_go (Go.ksDecimalAdd l r).
Proof.
  intros Hl Hr. apply pair_agree; [done..|]. intros a b Hs Ha Hb. cbv zeta beta iota.
  apply valid_decimal_spec in Ha as [Ha Hsc], Hb as [Hb _].
  rewrite go_add_guard by done. destruct (in_int64 (atoms a + atoms b)) eqn:Hi; [|done].
  cbn [negb]. by rewrite new_decimal_valid, wrap64_id.
Qed.

Lemma sub_agree l r :
  kval_ok l = true → kval_ok r = true →
  visible (Py.sub_decimal l r) = visible_go (Go.ksDecimalSub l r).
Proof.
  intros Hl Hr. apply pair_agree; [done..|]. intros a b Hs Ha Hb. cbv zeta beta iota.
  apply valid_decimal_spec in Ha as [Ha Hsc], Hb as [Hb _].
  rewrite go_sub_guard by done. destruct (in_int64 (atoms a - atoms b)) eqn:Hi; [|done].
  cbn [negb]. by rewrite new_decimal_valid, wrap64_id.
Qed.

Lemma cmp_agree l r :
  kval_ok l = true → kval_ok r = true →
  visible (Py.compare_decimal l r) = visible_go (Go.ksDecimalCmp l r).
Proof.
  intros Hl Hr. apply pair_agree; [done..|]. intros a b _ _ _. cbv zeta beta iota.
  case_Z; cbn; try done; lia.
Qed.

Lemma text_agree l :
  kval_ok l = true → visible (Py.decimal_text l) = visible_go (Go.ksDecimalText l).
Proof.
  destruct l as [| | |v|]; try done. intros Hv. rewrite py_text_of by done. cbn.
  by rewrite go_text_of.
Qed.

Lemma parse_agree raw sc :
  within_digit_limit raw sc = true →
  visible (Py.parse_decimal raw sc) = visible_go (Go.ksDecimalParse raw sc).
Proof.
  intros Hlim. destruct raw as [raw| | | |]; try done. destruct sc as [|sc| | |]; try done.
  destruct (scale_ok sc) eqn:Hsc.
  - cbn -[Z.leb] in Hlim. apply Z.leb_le in Hlim. unfold INT_MAX_STR_DIGITS in Hlim.
    destruct (Py.decimal_re raw) eqn:Hre.
    + apply decimal_re_inv in Hre as (neg & w & f & -> & Hok).
      rewrite py_parse_shape, go_parse_shape by done.
      destruct (Z.ltb_spec sc (Z.of_nat (length f))); [done|].
      pose proof (decimal_shape_length neg w f). rewrite padded_length by lia.
      destruct (Z.ltb_spec INT_MAX_STR_DIGITS (Z.of_nat (length w) + sc)) as [Hl|];
        [unfold INT_MAX_STR_DIGITS in Hl; lia|].
      cbv zeta. by destruct (in_int64 _).
    + by rewrite py_parse_no_shape, go_parse_no_shape.
  - unfold Py.parse_decimal, Go.ksDecimalParse, Py._require_scale.
    unfold scale_ok, MAX_SCALE in *. rewrite Hsc. cbn.
    assert ((sc <? 0) || (18 <? sc) = true) as ->; [|done].
    apply andb_false_iff in Hsc as [H|H]; bool_to_prop; apply orb_true_iff;
      [left|right]; apply Z.ltb_lt; lia.
Qed.

(** * Properties *)



(** Printing a valid decimal succeeds, and parsing the text back at the same
scale gives the decimal again. *)
Theorem decimal_text_roundtrip (v : DecimalValue) :
  valid_decimal v = true →
  ∃ t, Py.decimal_text (KDecimal v) = Done t ∧
       Py.parse_decimal (KString t) (KInt (scale v)) = Done v.
Proof.
  intros Hv. exists (text_of v). split; [by apply py_text_of|].
  apply valid_decimal_spec in Hv as [Hi Hs].
  pose proof (text_fraction_length v ltac:(lia)) as Hl.
  unfold text_of. rewrite py_parse_shape.
  2: by apply text_shape_ok; lia.
  2: unfold scale_ok, MAX_SCALE; bool_to_prop; lia.
  destruct (Z.ltb_spec (scale v) (Z.of_nat (length (text_fraction v)))); [lia|].
  rewrite parse_shape_value, text_value by lia.
  rewrite Hl, Z2Nat.id, Z.sub_diag, Z.mul_1_r by lia.
  assert (signed (atoms v <? 0) (Z.abs (atoms v)) = atoms v) as ->.
  { unfold signed. destruct (Z.ltb_spec (atoms v) 0); lia. }
  cbv zeta. rewrite Hi. rewrite padded_length by lia.
  destruct (Z.ltb_spec INT_MAX_STR_DIGITS (Z.of_nat (length (text_whole v)) + scale v)) as [Hlt|];
    [|by destruct v].
  pose proof (text_whole_short v Hi). unfold INT_MAX_STR_DIGITS in *. lia.
Qed.

Lemma decimal_text_roundtrip_witness :
  ∃ t, Py.decimal_text (KDecimal (mk_decimal (-5) 3)) = Done t ∧
       Py.parse_decimal (KString t) (KInt 3) = Done (mk_decimal (-5) 3).
Proof. apply (decimal_text_roundtrip (mk_decimal (-5) 3)). vm_compute. reflexivity. Defined.

(** parsing never rounds.  The parser succeeds exactly on canonical text
whose fraction fits the declared scale and whose atoms fit a signed 64-bit
integer, and the result's atoms are the digits of the text, scaled up by the
missing powers of ten, with the sign of the text. *)
Theorem parse_decimal_exact (raw : ustring) (sc : Z) (v : DecimalValue) :
  within_digit_limit (KString raw) (KInt sc) = true →
  Py.parse_decimal (KString raw) (KInt sc) = Done v ↔
  ∃ negative w f,
    raw = decimal_shape negative w f ∧ shape_ok w f ∧
    scale_ok sc = true ∧ Z.of_nat (length f) <= sc ∧ scale v = sc ∧
    atoms v = signed negative (dec_value (w ++ f) * 10 ^ (sc - Z.of_nat (length f))) ∧
    in_int64 (atoms v) = true.
Proof.
  intros Hlim. cbn -[Z.leb] in Hlim. apply Z.leb_le in Hlim. unfold INT_MAX_STR_DIGITS in Hlim.
  assert (∀ neg w f, shape_ok w f → scale_ok sc = true → raw = decimal_shape neg w f →
    Z.of_nat (length f) <= sc →
    Py.parse_decimal (KString raw) (KInt sc) =
    let a := signed neg (dec_value (w ++ f) * 10 ^ (sc - Z.of_nat (length f))) in
    if in_int64 a then Done (mk_decimal a sc) else Raise AtomsOverflow) as Hparse.
  { intros neg w f Hok Hsc Hraw Hf. pose proof (decimal_shape_length neg w f).
    subst raw. rewrite py_parse_shape, <- parse_shape_value, padded_length by done.
    destruct (Z.ltb_spec sc (Z.of_nat (length f))); [lia|].
    destruct (Z.ltb_spec INT_MAX_STR_DIGITS (Z.of_nat (length w) + sc)) as [Hl|];
      [unfold INT_MAX_STR_DIGITS in Hl; lia|done]. }
  split.
  - intros H. destruct (scale_ok sc) eqn:Hsc.
    2: { unfold Py.parse_decimal, Py._require_scale in H.
         unfold scale_ok in Hsc. by rewrite Hsc in H. }
    destruct (Py.decimal_re raw) eqn:Hre; [|by rewrite py_parse_no_shape in H].
    apply decimal_re_inv in Hre as (neg & w & f & Hraw & Hok). exists neg, w, f.
    destruct (Z.lt_ge_cases sc (Z.of_nat (length f))) as [Hlt|Hge].
    { subst raw. rewrite py_parse_shape in H by done.
      by destruct (Z.ltb_spec sc (Z.of_nat (length f))); [|lia]. }
    rewrite (Hparse neg w f) in H by done. cbv zeta in H.
    destruct (in_int64 _) eqn:Hi in H; [|done]. injection H as <-. simpl. auto 10.
  - intros (neg & w & f & Hraw & Hok & Hsc & Hf & Hs & Ha & Hi).
    rewrite (Hparse neg w f) by done. cbv zeta. rewrite <- Ha, Hi. by destruct v; simpl in *; subst.
Qed.

Lemma parse_decimal_exact_witness :
  Py.parse_decimal (KString (u "-0.5")) (KInt 3) = Done (mk_decimal (-500) 3).
Proof.
  apply (parse_decimal_exact (u "-0.5") 3 (mk_decimal (-500) 3)); [vm_compute; reflexivity|].
  exists true, (u "0"), (u "5"). repeat split; vm_compute; try reflexivity; try discriminate;
    repeat constructor.
Defined.

(** Arithmetic is exact or refused: on two in-range decimals of one scale,
addition and subtraction give the exact result at that scale when it fits a
signed 64-bit integer and KS3803 when it does not, comparison gives the sign of
the difference, and two scales are never mixed. *)
Theorem decimal_arith_exact (a b : DecimalValue) :
  valid_decimal a = true → valid_decimal b = true →
  if decide (scale a = scale b) then
    Py.add_decimal (KDecimal a) (KDecimal b) =
      (if in_int64 (atoms a + atoms b)
       then Done (mk_decimal (atoms a + atoms b) (scale a)) else Raise AdditionOverflow) ∧
    Py.sub_decimal (KDecimal a) (KDecimal b) =
      (if in_int64 (atoms a - atoms b)
       then Done (mk_decimal (atoms a - atoms b) (scale a)) else Raise SubtractionOverflow) ∧
    Py.compare_decimal (KDecimal a) (KDecimal b) = Done (Z.sgn (atoms a - atoms b))
  else
    Py.add_decimal (KDecimal a) (KDecimal b) = Raise ScalesDiffer ∧
    Py.sub_decimal (KDecimal a) (KDecimal b) = Raise ScalesDiffer ∧
    Py.compare_decimal (KDecimal a) (KDecimal b) = Raise ScalesDiffer.
Proof.
  intros (Ha & Hsa)%valid_decimal_spec (Hb & Hsb)%valid_decimal_spec.
  unfold Py.add_decimal, Py.sub_decimal, Py.compare_decimal, Py._same_scale. cbn -[Z.eqb Z.ltb in_int64 Py.new_decimal].
  case_decide as Hs.
  - rewrite (proj2 (Z.eqb_eq _ _) Hs). cbn -[Z.eqb Z.ltb in_int64 Py.new_decimal]. split; [|split].
    + destruct (in_int64 (atoms a + atoms b)) eqn:Hi; [|done]. cbn [negb]. by rewrite new_decimal_valid.
    + destruct (in_int64 (atoms a - atoms b)) eqn:Hi; [|done]. cbn [negb]. by rewrite new_decimal_valid.
    + f_equal. case_Z; simpl; lia.
  - by rewrite (proj2 (Z.eqb_neq _ _) Hs).
Qed.

Lemma decimal_arith_exact_witness :
  Py.add_decimal (KDecimal (mk_decimal 150 2)) (KDecimal (mk_decimal 275 2)) = Done (mk_decimal 425 2).
Proof.
  pose proof (decimal_arith_exact (mk_decimal 150 2) (mk_decimal 275 2)) as H.
  destruct (H eq_refl eq_refl) as [Hadd _]. exact Hadd.
Defined.
