(* ===== verification/Queue.v ===== *)
(** Fixed-capacity FIFO queues: [src/koschei/bounded_queue.py].

[BoundedQueueValue] is the ring buffer of the source, one definition per
method.  Every method runs under the queue's own lock, so a run of several
threads is a sequence of whole operations in the order the lock was taken:
[run] executes such a sequence.  [Fifo] is the abstract contract, a bounded
first-in first-out list, and the ring buffer refines it. *)

From S2P Require Import Prelude.

Definition MIN_QUEUE_CAPACITY : Z := 1.
Definition MAX_QUEUE_CAPACITY : Z := 65536.

Inductive queue_error :=
  | CapacityMustBeInt
  | CapacityOutOfRange
  | QueueIndexError.

(** What the constructor is given: an [int] proper, or anything else. *)
Inductive capacity_arg :=
  | CapacityInt (n : Z)
  | CapacityOther.

Record BoundedQueueValue {A T : Type} := mk_queue {
  capacity : Z;
  item_type : T;
  _buffer : list (option A);
  _head : Z;
  _tail : Z;
  _count : Z;
}.
Arguments BoundedQueueValue A T : clear implicits.

Section ring.
Context {A T : Type}.
Implicit Types (q : BoundedQueueValue A T) (v : A).

Definition new_queue (c : capacity_arg) (t : T) : outcome queue_error (BoundedQueueValue A T) :=
  match c with
  | CapacityInt n =>
      if negb ((MIN_QUEUE_CAPACITY <=? n) && (n <=? MAX_QUEUE_CAPACITY))
      then Raise CapacityOutOfRange
      else Done (mk_queue _ _ n t (replicate (Z.to_nat n) None) 0 0 0)
  | CapacityOther => Raise CapacityMustBeInt
  end.

Definition queue_length q : Z := _count q.
Definition is_full q : bool := _count q =? capacity q.
Definition is_empty q : bool := _count q =? 0.

Definition try_send q v : outcome queue_error (bool * BoundedQueueValue A T) :=
  if _count q =? capacity q then Done (false, q)
  else
    buffer ← py_set QueueIndexError (_buffer q) (_tail q) (Some v);
    Done (true, mk_queue _ _ (capacity q) (item_type q) buffer (_head q)
                  ((_tail q + 1) mod capacity q) (_count q + 1)).

(** The pair the source returns: a flag and a slot, which is [None] when empty. *)
Definition try_recv q : outcome queue_error ((bool * option A) * BoundedQueueValue A T) :=
  if _count q =? 0 then Done ((false, None), q)
  else
    value ← py_get QueueIndexError (_buffer q) (_head q);
    buffer ← py_set QueueIndexError (_buffer q) (_head q) None;
    Done ((true, value), mk_queue _ _ (capacity q) (item_type q) buffer
                  ((_head q + 1) mod capacity q) (_tail q) (_count q - 1)).

Definition snapshot_items q : outcome queue_error (list (option A)) :=
  outcome_map (λ offset, py_get QueueIndexError (_buffer q) ((_head q + offset) mod capacity q))
    (Z.of_nat <$> seq 0 (Z.to_nat (_count q))).

(** [__str__]. *)
Definition queue_str q : ustring :=
  u "BoundedQueue(len=" ++ str_int (_count q) ++ u ", capacity=" ++ str_int (capacity q) ++ u ")".

(** * Runs of operations *)

Inductive queue_op :=
  | Send (v : A)
  | Recv
  | Snapshot
  | Length.

Inductive queue_response :=
  | Accepted (b : bool)
  | Received (b : bool) (slot : option A)
  | Items (l : list (option A))
  | Len (n : Z).

Definition step q (op : queue_op) : outcome queue_error (queue_response * BoundedQueueValue A T) :=
  match op with
  | Send v => r ← try_send q v; Done (Accepted r.1, r.2)
  | Recv => r ← try_recv q; Done (Received r.1.1 r.1.2, r.2)
  | Snapshot => items ← snapshot_items q; Done (Items items, q)
  | Length => Done (Len (queue_length q), q)
  end.

Fixpoint run q (ops : list queue_op)
    : outcome queue_error (list queue_response * BoundedQueueValue A T) :=
  match ops with
  | [] => Done ([], q)
  | op :: ops =>
      r ← step q op;
      rs ← run r.2 ops;
      Done (r.1 :: rs.1, rs.2)
  end.

(** * The contract: a first-in first-out list of bounded length *)

Definition fifo_step (cap : Z) (l : list A) (op : queue_op) : queue_response * list A :=
  match op with
  | Send v =>
      if Z.of_nat (length l) =? cap then (Accepted false, l) else (Accepted true, l ++ [v])
  | Recv => match l with [] => (Received false None, []) | x :: l => (Received true (Some x), l) end
  | Snapshot => (Items (Some <$> l), l)
  | Length => (Len (Z.of_nat (length l)), l)
  end.

Fixpoint fifo_run (cap : Z) (l : list A) (ops : list queue_op) : list queue_response * list A :=
  match ops with
  | [] => ([], l)
  | op :: ops =>
      let r := fifo_step cap l op in
      let rs := fifo_run cap r.2 ops in
      (r.1 :: rs.1, rs.2)
  end.

(** The values of the sends that were accepted, and the values received. *)
Fixpoint accepted (ops : list queue_op) (rs : list queue_response) : list A :=
  match ops, rs with
  | Send v :: ops, Accepted true :: rs => v :: accepted ops rs
  | _ :: ops, _ :: rs => accepted ops rs
  | _, _ => []
  end.

Definition received (rs : list queue_response) : list A :=
  omap (λ r, match r with Received true slot => slot | _ => None end) rs.

(** * The refinement relation

Slot [head + i] holds the [i]-th element; the slots past the last one are
empty, so a dequeued value is not kept alive. *)

Record represents q (l : list A) : Prop := {
  rep_capacity : MIN_QUEUE_CAPACITY <= capacity q <= MAX_QUEUE_CAPACITY;
  rep_buffer : Z.of_nat (length (_buffer q)) = capacity q;
  rep_head : 0 <= _head q < capacity q;
  rep_tail : _tail q = (_head q + _count q) mod capacity q;
  rep_count : _count q = Z.of_nat (length l);
  rep_bound : _count q <= capacity q;
  rep_slots i : 0 <= i < capacity q →
    _buffer q !! Z.to_nat ((_head q + i) mod capacity q) = Some (l !! Z.to_nat i);
}.

Lemma mod_offset_inj h c i j :
  0 <= i < c → 0 <= j < c → (h + i) mod c = (h + j) mod c → i = j.
Proof.
  intros Hi Hj H. pose proof (Z.div_mod (h + i) c). pose proof (Z.div_mod (h + j) c).
  assert (c * ((h + i) / c - (h + j) / c) = i - j) as Hk by lia. revert Hk.
  generalize ((h + i) / c - (h + j) / c). intros k Hk.
  destruct (Z.lt_trichotomy k 0) as [?|[->|?]]; [nia|lia|nia].
Qed.

Lemma ring_index_ne h c i j :
  0 <= i < c → 0 <= j < c → i ≠ j → Z.to_nat ((h + i) mod c) ≠ Z.to_nat ((h + j) mod c).
Proof.
  intros Hi Hj Hne H. apply Hne, (mod_offset_inj h c); [done..|].
  pose proof (Z.mod_pos_bound (h + i) c). pose proof (Z.mod_pos_bound (h + j) c). lia.
Qed.

Lemma new_queue_represents c t q : new_queue c t = Done q → represents q [].
Proof.
  destruct c as [n|]; [|done]. unfold new_queue.
  destruct (_ && _) eqn:Hn; [|done]. intros [= <-]. bool_to_prop.
  unfold MIN_QUEUE_CAPACITY, MAX_QUEUE_CAPACITY in *.
  split; simpl; unfold MIN_QUEUE_CAPACITY, MAX_QUEUE_CAPACITY; try lia.
  - rewrite length_replicate. lia.
  - by rewrite Z.mod_0_l by lia.
  - intros i Hi. rewrite lookup_replicate_2; [done|].
    pose proof (Z.mod_pos_bound (0 + i) n). lia.
Qed.

Lemma try_send_represents q l v :
  represents q l →
  ∃ q', try_send q v = Done (negb (Z.of_nat (length l) =? capacity q), q') ∧
        represents q' (if Z.of_nat (length l) =? capacity q then l else l ++ [v]) ∧
        capacity q' = capacity q.
Proof.
  intros [Hc Hb Hh Ht Hn Hle Hs]. unfold try_send. rewrite Hn.
  unfold MIN_QUEUE_CAPACITY, MAX_QUEUE_CAPACITY in Hc.
  destruct (Z.eqb_spec (Z.of_nat (length l)) (capacity q)) as [Hf|Hf]; [by exists q|].
  pose proof (Z.mod_pos_bound (_head q + _count q) (capacity q)).
  rewrite py_set_insert by lia. cbn. eexists. split; [done|]. split; [|done].
  split; cbn [capacity _buffer _head _tail _count]; unfold MIN_QUEUE_CAPACITY, MAX_QUEUE_CAPACITY;
    try lia.
  - rewrite length_insert. lia.
  - rewrite Ht, Hn, Zplus_mod_idemp_l. f_equal. lia.
  - rewrite length_app. simpl. lia.
  - intros i Hi. rewrite Ht. destruct (decide (i = _count q)) as [->|Hne].
    + rewrite list_lookup_insert_eq by lia. rewrite Hn, Nat2Z.id.
      rewrite lookup_app_r by lia. by rewrite Nat.sub_diag.
    + rewrite list_lookup_insert_ne by (apply ring_index_ne; lia). rewrite Hs by done.
      destruct (Z.lt_ge_cases i (_count q)); [by rewrite lookup_app_l by lia|].
      rewrite !lookup_ge_None_2; [done|rewrite length_app; simpl; lia|lia].
Qed.

Lemma try_recv_represents q l :
  represents q l →
  ∃ q', try_recv q = Done (match l with [] => (false, None) | x :: _ => (true, Some x) end, q') ∧
        represents q' (tail l) ∧ capacity q' = capacity q.
Proof.
  intros [Hc Hb Hh Ht Hn Hle Hs]. unfold try_recv. rewrite Hn.
  unfold MIN_QUEUE_CAPACITY, MAX_QUEUE_CAPACITY in Hc.
  destruct l as [|x l]; [by exists q|]. cbn [length] in *.
  destruct (Z.eqb_spec (Z.of_nat (S (length l))) 0); [lia|].
  pose proof (Hs 0 ltac:(lia)) as H0. rewrite Z.add_0_r, Z.mod_small in H0 by lia.
  rewrite (py_get_lookup _ _ _ (Some x)) by (done || lia). cbn.
  rewrite py_set_insert by lia. cbn. eexists. split; [done|]. split; [|done].
  split; cbn [capacity _buffer _head _tail _count]; unfold MIN_QUEUE_CAPACITY, MAX_QUEUE_CAPACITY;
    try lia.
  - rewrite length_insert. lia.
  - apply Z.mod_pos_bound. lia.
  - rewrite Ht, Hn, Zplus_mod_idemp_l. f_equal. lia.
  - intros i Hi. rewrite Zplus_mod_idemp_l.
    destruct (decide (i + 1 = capacity q)) as [E|Hne].
    + replace (_head q + 1 + i) with (_head q + 1 * capacity q) by lia.
      rewrite Z_mod_plus_full, Z.mod_small, list_lookup_insert_eq by lia.
      rewrite lookup_ge_None_2 by lia. done.
    + replace (_head q + 1 + i) with (_head q + (i + 1)) by lia.
      rewrite list_lookup_insert_ne.
      * rewrite Hs by lia. replace (Z.to_nat (i + 1)) with (S (Z.to_nat i)) by lia. done.
      * pose proof (ring_index_ne (_head q) (capacity q) 0 (i + 1)) as Hix.
        rewrite Z.add_0_r, (Z.mod_small (_head q)) in Hix by lia. apply Hix; lia.
Qed.

Lemma snapshot_represents q l : represents q l → snapshot_items q = Done (Some <$> l).
Proof.
  intros [Hc Hb Hh Ht Hn Hle Hs]. unfold MIN_QUEUE_CAPACITY, MAX_QUEUE_CAPACITY in Hc.
  unfold snapshot_items.
  rewrite (outcome_map_done _ (λ offset, l !! Z.to_nat offset)).
  - f_equal. apply list_eq. intros i. rewrite Hn, Nat2Z.id.
    rewrite !list_lookup_fmap. destruct (decide (i < length l)%nat) as [Hi|Hi].
    + rewrite lookup_seq_lt by done. simpl. rewrite Nat2Z.id.
      destruct (lookup_lt_is_Some_2 l i Hi) as [x Hx]. by rewrite Hx.
    + rewrite lookup_seq_ge, lookup_ge_None_2 by lia. done.
  - intros offset (k & -> & Hk)%list_elem_of_fmap. apply elem_of_seq in Hk.
    apply py_get_lookup; [apply Z.mod_pos_bound; lia|]. rewrite Hs by lia. done.
Qed.

Lemma queue_step_represents q l op :
  represents q l →
  ∃ q', step q op = Done ((fifo_step (capacity q) l op).1, q') ∧
        represents q' (fifo_step (capacity q) l op).2 ∧ capacity q' = capacity q.
Proof.
  intros Hr. destruct op as [v| | |]; simpl.
  - destruct (try_send_represents q l v Hr) as (q' & -> & Hq' & Hcap). exists q'. cbn.
    destruct (_ =? _); done.
  - destruct (try_recv_represents q l Hr) as (q' & -> & Hq' & Hcap). exists q'. cbn. destruct l; done.
  - rewrite (snapshot_represents q l) by done. by exists q.
  - exists q. unfold queue_length. by rewrite (rep_count _ _ Hr).
Qed.

Lemma queue_run_represents ops q l :
  represents q l →
  ∃ q', run q ops = Done ((fifo_run (capacity q) l ops).1, q') ∧
        represents q' (fifo_run (capacity q) l ops).2.
Proof.
  revert q l. induction ops as [|op ops IH]; intros q l Hr; simpl; [by exists q|].
  destruct (queue_step_represents q l op Hr) as (q' & -> & Hq' & Hcap). cbn.
  destruct (IH _ _ Hq') as (q'' & Hrun & Hq''). rewrite Hcap in Hrun, Hq''. rewrite Hrun. by exists q''.
Qed.

Lemma fifo_conserves cap ops l :
  l ++ accepted ops (fifo_run cap l ops).1 =
  received (fifo_run cap l ops).1 ++ (fifo_run cap l ops).2.
Proof.
  revert l. induction ops as [|op ops IH]; intros l; simpl; [by rewrite app_nil_r|].
  destruct op as [v| | |]; simpl.
  - destruct (_ =? _); simpl; [apply IH|]. rewrite <- IH, <- app_assoc. done.
  - destruct l as [|x l]; simpl; [exact (IH [])|]. by rewrite IH.
  - apply IH.
  - apply IH.
Qed.

Lemma fifo_bounded cap ops l :
  0 <= cap → Z.of_nat (length l) <= cap → Z.of_nat (length (fifo_run cap l ops).2) <= cap.
Proof.
  intros Hc. revert l. induction ops as [|op ops IH]; intros l Hl; simpl; [done|]. apply IH.
  destruct op as [v| | |]; simpl; try done.
  - destruct (Z.eqb_spec (Z.of_nat (length l)) cap); simpl; rewrite ?length_app; simpl; lia.
  - destruct l; simpl in *; lia.
Qed.

End ring.
Arguments queue_op A : clear implicits.
Arguments queue_response A : clear implicits.

(** * Properties *)

(** C36: the ring buffer implements a bounded first-in first-out list.  A new queue
executes every sequence of operations, in whatever order threads take the
lock, without an index error and with exactly the responses of the list; the
responses include the snapshots and lengths.  In the end state the slots hold
the list in order and every other slot is empty. *)
Theorem queue_refines_fifo {A T : Type} (n : Z) (t : T) (q : BoundedQueueValue A T)
    (ops : list (queue_op A)) :
  new_queue (CapacityInt n) t = Done q →
  ∃ q', run q ops = Done ((fifo_run n [] ops).1, q') ∧ represents q' (fifo_run n [] ops).2.
Proof.
  intros Hq. assert (capacity q = n) as Hn.
  { unfold new_queue in Hq. destruct (negb _) in Hq; [done|]. by injection Hq as <-. }
  rewrite <- Hn. apply queue_run_represents, (new_queue_represents (CapacityInt n) t), Hq.
Qed.

Lemma queue_refines_fifo_witness :
  ∃ q', run (mk_queue _ _ 2 tt [None; None] 0 0 0) [Send 7; Send 8; Send 9; Recv; Snapshot]
        = Done ([Accepted true; Accepted true; Accepted false; Received true (Some 7);
                 Items [Some 8]], q') ∧ represents q' [8].
Proof.
  apply (queue_refines_fifo 2 tt _ [Send 7; Send 8; Send 9; Recv; Snapshot]). reflexivity.
Defined.

(** Backpressure loses and invents nothing.  After any sequence of operations
on a new queue the accepted values are, in order, the received values followed
by the values still queued, and never more than the capacity is queued. *)
Theorem queue_conserves {A T : Type} (n : Z) (t : T) (q q' : BoundedQueueValue A T)
    (ops : list (queue_op A)) (rs : list (queue_response A)) :
  new_queue (CapacityInt n) t = Done q →
  run q ops = Done (rs, q') →
  ∃ pending, snapshot_items q' = Done (Some <$> pending) ∧
    accepted ops rs = received rs ++ pending ∧
    Z.of_nat (length pending) = _count q' ∧ _count q' <= n.
Proof.
  intros Hq Hrun. assert (capacity q = n) as Hn.
  { unfold new_queue in Hq. destruct (negb _) in Hq; [done|]. by injection Hq as <-. }
  apply new_queue_represents in Hq.
  destruct (queue_run_represents ops q [] Hq) as (q'' & Hrun' & Hrep).
  rewrite Hrun in Hrun'. injection Hrun' as -> ->. exists (fifo_run (capacity q) [] ops).2.
  split; [by apply snapshot_represents|]. split; [by rewrite <- fifo_conserves|].
  rewrite (rep_count _ _ Hrep). split; [done|]. rewrite Hn.
  pose proof (rep_capacity _ _ Hq). unfold MIN_QUEUE_CAPACITY in *.
  apply fifo_bounded; simpl; lia.
Qed.

Lemma queue_conserves_witness :
  ∃ pending, snapshot_items (mk_queue Z unit 1 tt [Some 8] 0 0 1) = Done (Some <$> pending) ∧
    accepted [Send 7; Recv; Send 8] [Accepted true; Received true (Some 7); Accepted true]
    = received [Accepted true; Received true (Some 7); Accepted true] ++ pending ∧
    Z.of_nat (length pending) = 1 ∧ 1 <= 1.
Proof.
  apply (queue_conserves 1 tt (mk_queue Z unit 1 tt [None] 0 0 0) (mk_queue Z unit 1 tt [Some 8] 0 0 1)
    [Send 7; Recv; Send 8] [Accepted true; Received true (Some 7); Accepted true]); reflexivity.
Defined.
