(* ===== verification/Tasks.v ===== *)
(** Structured task scopes: [src/koschei/structured_tasks.py] and the
interpreter's [task_*] calls of [src/koschei/structured_task_safety_v1.py].

[TaskScopeValue] is one fixed-size scope.  [task_join_all] runs the children;
what a child does is the Koschei program's own code, so it is an argument
[call_worker] of the model that reads and changes a world of its own.  [step]
is one [task_*] call as a program sees it: a [StructuredTaskError] becomes an
error value. *)

From S2P Require Import Prelude.

Definition MIN_TASK_CAPACITY : Z := 1.
Definition MAX_TASK_CAPACITY : Z := 4096.

Inductive task_state :=
  | TASK_PENDING
  | TASK_RUNNING
  | TASK_DONE
  | TASK_FAILED
  | TASK_CANCELLED.

#[export] Instance task_state_eq_dec : EqDecision task_state.
Proof. solve_decision. Defined.

(** The messages of [StructuredTaskError], by what they say. *)
Inductive task_error :=
  | ScopeCapacityMustBeInt
  | ScopeCapacityRange
  | ScopeClosed
  | ScopeExhausted
  | TaskIdOutside
  | SlotUnexpectedlyEmpty
  | CancelledCannotComplete
  | TaskIndexError.

(** The code in each message; an [IndexError] has none. *)
Definition task_error_code (e : task_error) : option Z :=
  match e with
  | ScopeCapacityMustBeInt | ScopeCapacityRange => Some 3911
  | ScopeExhausted => Some 3912
  | ScopeClosed => Some 3913
  | SlotUnexpectedlyEmpty | CancelledCannotComplete => Some 3915
  | TaskIdOutside => Some 3916
  | TaskIndexError => None
  end.

(** An argument that must be an [int] proper. *)
Inductive int_arg :=
  | IntArg (n : Z)
  | NotInt.

Record TaskRecord {W V : Type} := mk_record {
  worker : W;
  argument : V;
  state : task_state;
  failure : option ustring;
}.
Arguments TaskRecord W V : clear implicits.

(** What [task_join_all] returns: [KsUnit] or the first [KsError]. *)
Inductive join_value :=
  | JoinUnit
  | JoinError (message : ustring).

Record TaskScopeValue {W V : Type} := mk_scope {
  capacity : Z;
  _slots : list (option (TaskRecord W V));
  _count : Z;
  _terminal : Z;
  closed : bool;
  join_result : option join_value;
}.
Arguments TaskScopeValue W V : clear implicits.

(** How a call of a worker ends: a value, a [KsError] value, or a
[KoscheiRuntimeError]. *)
Inductive worker_result :=
  | WorkerValue
  | WorkerKsError (message : ustring)
  | WorkerRuntimeError (code message : ustring).

Definition is_terminal (s : task_state) : bool :=
  match s with TASK_DONE | TASK_FAILED | TASK_CANCELLED => true | _ => false end.

Section scope.
Context {W V World : Type}.
Context (call_worker : W → V → World → worker_result * World).
Implicit Types (s : TaskScopeValue W V) (r : TaskRecord W V) (σ : World).

Definition set_state r st : TaskRecord W V := mk_record _ _ (worker r) (argument r) st (failure r).

Definition set_slots s slots : TaskScopeValue W V :=
  mk_scope _ _ (capacity s) slots (_count s) (_terminal s) (closed s) (join_result s).

Definition add_terminal s n : TaskScopeValue W V :=
  mk_scope _ _ (capacity s) (_slots s) (_count s) (_terminal s + n) (closed s) (join_result s).

Definition new_scope (c : int_arg) : outcome task_error (TaskScopeValue W V) :=
  match c with
  | IntArg n =>
      if negb ((MIN_TASK_CAPACITY <=? n) && (n <=? MAX_TASK_CAPACITY))
      then Raise ScopeCapacityRange
      else Done (mk_scope _ _ n (replicate (Z.to_nat n) None) 0 0 false None)
  | NotInt => Raise ScopeCapacityMustBeInt
  end.

Definition pending s : Z := _count s - _terminal s.

Definition spawn s (w : W) (v : V) : outcome task_error (Z * TaskScopeValue W V) :=
  if closed s then Raise ScopeClosed
  else if capacity s <=? _count s then Raise ScopeExhausted
  else
    let task_id := _count s in
    slots ← py_set TaskIndexError (_slots s) task_id (Some (mk_record _ _ w v TASK_PENDING None));
    Done (task_id, mk_scope _ _ (capacity s) slots (_count s + 1) (_terminal s) (closed s) (join_result s)).

Definition record s (task_id : int_arg) : outcome task_error (TaskRecord W V) :=
  match task_id with
  | IntArg n =>
      if (n <? 0) || (_count s <=? n) then Raise TaskIdOutside
      else
        slot ← py_get TaskIndexError (_slots s) n;
        match slot with None => Raise SlotUnexpectedlyEmpty | Some r => Done r end
  | NotInt => Raise TaskIdOutside
  end.

(** Assigning to a field of the record object that slot [n] holds. *)
Definition update_record s (n : Z) r : outcome task_error (TaskScopeValue W V) :=
  slots ← py_set TaskIndexError (_slots s) n (Some r); Done (set_slots s slots).

Definition cancel s (task_id : int_arg) : outcome task_error (bool * TaskScopeValue W V) :=
  if closed s then Raise ScopeClosed
  else
    r ← record s task_id;
    if decide (state r = TASK_CANCELLED) then Done (false, s)
    else if decide (state r ≠ TASK_PENDING) then Done (false, s)
    else
      match task_id with
      | IntArg n =>
          s ← update_record s n (set_state r TASK_CANCELLED);
          Done (true, add_terminal s 1)
      | NotInt => Raise TaskIdOutside
      end.

Fixpoint cancel_loop s (ids : list Z) (cancelled : Z) : outcome task_error (Z * TaskScopeValue W V) :=
  match ids with
  | [] => Done (cancelled, s)
  | task_id :: ids =>
      r ← record s (IntArg task_id);
      if decide (state r = TASK_PENDING) then
        s ← update_record s task_id (set_state r TASK_CANCELLED);
        cancel_loop (add_terminal s 1) ids (cancelled + 1)
      else cancel_loop s ids cancelled
  end.

Definition ids s : list Z := Z.of_nat <$> seq 0 (Z.to_nat (_count s)).

Definition cancel_all s : outcome task_error (Z * TaskScopeValue W V) :=
  if closed s then Raise ScopeClosed else cancel_loop s (ids s) 0.

Definition records s : outcome task_error (list (TaskRecord W V)) :=
  outcome_map (λ i, record s (IntArg i)) (ids s).

(** [mark_terminal(record, failure)] on the record of slot [n]. *)
Definition mark_terminal s (n : Z) (fail : option ustring) : outcome task_error (TaskScopeValue W V) :=
  r ← record s (IntArg n);
  if decide (state r = TASK_CANCELLED) then Raise CancelledCannotComplete
  else
    s ← update_record s n
          (mk_record _ _ (worker r) (argument r)
            (match fail with Some _ => TASK_FAILED | None => TASK_DONE end) fail);
    Done (add_terminal s 1).

Definition worker_failure (res : worker_result) : option ustring :=
  match res with
  | WorkerValue => None
  | WorkerKsError m => Some m
  | WorkerRuntimeError code m => Some (code ++ u ": " ++ m)
  end.

(** The [for record in scope.records()] loop of [task_join_all]. *)
Fixpoint join_loop s (todo : list Z) (first_failure : option ustring) σ
    : outcome task_error (option ustring * TaskScopeValue W V * World) :=
  match todo with
  | [] => Done (first_failure, s, σ)
  | n :: todo =>
      r ← record s (IntArg n);
      if decide (state r = TASK_CANCELLED) then join_loop s todo first_failure σ
      else
        s ← update_record s n (set_state r TASK_RUNNING);
        let '(res, σ) := call_worker (worker r) (argument r) σ in
        let fail := worker_failure res in
        s ← mark_terminal s n fail;
        let first_failure :=
          match first_failure, fail with None, Some m => Some m | _, _ => first_failure end in
        join_loop s todo first_failure σ
  end.

Definition task_join_all s σ : outcome task_error (join_value * TaskScopeValue W V * World) :=
  match join_result s with
  | Some v => Done (v, s, σ)
  | None =>
      let s := mk_scope _ _ (capacity s) (_slots s) (_count s) (_terminal s) true None in
      _ ← records s;
      '(first_failure, s, σ) ← join_loop s (ids s) None σ;
      let v := match first_failure with Some m => JoinError m | None => JoinUnit end in
      Done (v, mk_scope _ _ (capacity s) (_slots s) (_count s) (_terminal s) (closed s) (Some v), σ)
  end.

Definition count s : Z := _count s.

(** [__str__]. *)
Definition scope_str s : ustring :=
  u "TaskScope(tasks=" ++ str_int (_count s) ++ u ", pending=" ++ str_int (pending s) ++
  u ", capacity=" ++ str_int (capacity s) ++ u ", closed=" ++
  (if closed s then u "true" else u "false") ++ u ")".

(** * The calls of a program *)

Inductive task_op :=
  | OpSpawn (w : W) (v : V)
  | OpCancel (task_id : int_arg)
  | OpCancelAll
  | OpJoinAll
  | OpPending.

Inductive task_response :=
  | RInt (n : Z)
  | RBool (b : bool)
  | RJoin (v : join_value)
  | RError (e : task_error).

Definition step s σ (op : task_op) : task_response * TaskScopeValue W V * World :=
  match op with
  | OpSpawn w v =>
      match spawn s w v with
      | Done (n, s) => (RInt n, s, σ) | Raise e => (RError e, s, σ) | NoFuel => (RBool false, s, σ)
      end
  | OpCancel id =>
      match cancel s id with
      | Done (b, s) => (RBool b, s, σ) | Raise e => (RError e, s, σ) | NoFuel => (RBool false, s, σ)
      end
  | OpCancelAll =>
      match cancel_all s with
      | Done (n, s) => (RInt n, s, σ) | Raise e => (RError e, s, σ) | NoFuel => (RBool false, s, σ)
      end
  | OpJoinAll =>
      match task_join_all s σ with
      | Done (v, s, σ) => (RJoin v, s, σ) | Raise e => (RError e, s, σ) | NoFuel => (RBool false, s, σ)
      end
  | OpPending => (RInt (pending s), s, σ)
  end.

Fixpoint run s σ (ops : list task_op) : list task_response * TaskScopeValue W V * World :=
  match ops with
  | [] => ([], s, σ)
  | op :: ops =>
      let '(r, s, σ) := step s σ op in
      let '(rs, s, σ) := run s σ ops in
      (r :: rs, s, σ)
  end.

End scope.
Arguments task_op W V : clear implicits.

(** * The contract: a list of tasks and, once joined, the result *)

Section contract.
Context {W V World : Type}.
Context (call_worker : W → V → World → worker_result * World).
Implicit Types (s : TaskScopeValue W V) (r : TaskRecord W V) (l : list (TaskRecord W V)).

Record scope_spec := mk_spec {
  tasks : list (TaskRecord W V);
  result : option join_value;
}.

Definition is_pending r : bool := bool_decide (state r = TASK_PENDING).

Definition cancel_record r : TaskRecord W V :=
  if is_pending r then set_state r TASK_CANCELLED else r.

Definition first_of (a b : option ustring) : option ustring :=
  match a with Some m => Some m | None => b end.

Definition joined (a : scope_spec) : bool := if result a is Some _ then true else false.

(** Run, in spawn order, every task that was not cancelled. *)
Fixpoint join_spec l (σ : World) : option ustring * list (TaskRecord W V) * World :=
  match l with
  | [] => (None, [], σ)
  | r :: l =>
      if decide (state r = TASK_CANCELLED) then
        let '(f, l, σ) := join_spec l σ in (f, r :: l, σ)
      else
        let '(res, σ) := call_worker (worker r) (argument r) σ in
        let fail := worker_failure res in
        let '(f, l, σ) := join_spec l σ in
        (first_of fail f,
         mk_record _ _ (worker r) (argument r)
           (match fail with Some _ => TASK_FAILED | None => TASK_DONE end) fail :: l, σ)
  end.

Definition step_spec (cap : Z) (a : scope_spec) σ (op : task_op W V)
    : task_response * scope_spec * World :=
  match op with
  | OpSpawn w v =>
      if result a is Some _ then (RError ScopeClosed, a, σ)
      else if cap <=? Z.of_nat (length (tasks a)) then (RError ScopeExhausted, a, σ)
      else (RInt (Z.of_nat (length (tasks a))),
            mk_spec (tasks a ++ [mk_record _ _ w v TASK_PENDING None]) None, σ)
  | OpCancel id =>
      if result a is Some _ then (RError ScopeClosed, a, σ)
      else
        match id with
        | IntArg n =>
            match (if 0 <=? n then tasks a !! Z.to_nat n else None) with
            | Some r => (RBool (is_pending r),
                         mk_spec (<[Z.to_nat n := cancel_record r]> (tasks a)) None, σ)
            | None => (RError TaskIdOutside, a, σ)
            end
        | NotInt => (RError TaskIdOutside, a, σ)
        end
  | OpCancelAll =>
      if result a is Some _ then (RError ScopeClosed, a, σ)
      else (RInt (count_if is_pending (tasks a)),
            mk_spec (cancel_record <$> tasks a) None, σ)
  | OpJoinAll =>
      match result a with
      | Some v => (RJoin v, a, σ)
      | None =>
          let '(f, l, σ) := join_spec (tasks a) σ in
          let v := match f with Some m => JoinError m | None => JoinUnit end in
          (RJoin v, mk_spec l (Some v), σ)
      end
  | OpPending => (RInt (count_if (λ r, negb (is_terminal (state r))) (tasks a)), a, σ)
  end.

Fixpoint run_spec (cap : Z) (a : scope_spec) σ (ops : list (task_op W V))
    : list task_response * scope_spec * World :=
  match ops with
  | [] => ([], a, σ)
  | op :: ops =>
      let '(r, a, σ) := step_spec cap a σ op in
      let '(rs, a, σ) := run_spec cap a σ ops in
      (r :: rs, a, σ)
  end.

(** The scope that stores the tasks [l]: slot [i] holds task [i] and the rest of
the fixed storage is empty. *)
Definition of_list (cap : Z) l (terminal : Z) (c : bool) (j : option join_value) : TaskScopeValue W V :=
  mk_scope _ _ cap ((Some <$> l) ++ replicate (Z.to_nat cap - length l) None)
    (Z.of_nat (length l)) terminal c j.

Definition terminals l : Z := count_if (λ r, is_terminal (state r)) l.

(** Before the join every task is pending or cancelled, after it every task is
terminal. *)
Definition task_ok (joined : bool) r : Prop :=
  if joined then is_terminal (state r) = true
  else state r = TASK_PENDING ∨ state r = TASK_CANCELLED.

Record represents (cap : Z) s (a : scope_spec) : Prop := {
  rep_storage : s = of_list cap (tasks a) (terminals (tasks a))
                      (joined a) (result a);
  rep_bound : Z.of_nat (length (tasks a)) <= cap;
  rep_tasks : Forall (task_ok (joined a)) (tasks a);
}.

Lemma record_of_list cap l t c j n :
  record (of_list cap l t c j) (IntArg n) =
  match (if 0 <=? n then l !! Z.to_nat n else None) with
  | Some r => Done r
  | None => Raise TaskIdOutside
  end.
Proof.
  unfold record. cbn [_count _slots of_list].
  destruct (Z.leb_spec 0 n) as [H0|H0]; [|by destruct (Z.ltb_spec n 0); [|lia]].
  destruct (Z.ltb_spec n 0); [lia|]. simpl.
  destruct (Z.leb_spec (Z.of_nat (length l)) n) as [Hn|Hn].
  - by rewrite lookup_ge_None_2 by lia.
  - destruct (lookup_lt_is_Some_2 l (Z.to_nat n)) as [r Hr]; [lia|]. rewrite Hr.
    rewrite (py_get_lookup _ _ _ (Some r)); [done|done|].
    rewrite lookup_app_l by (rewrite length_fmap; lia). by rewrite list_lookup_fmap, Hr.
Qed.

Lemma record_middle cap l1 r l2 t c j :
  record (of_list cap (l1 ++ r :: l2) t c j) (IntArg (Z.of_nat (length l1))) = Done r.
Proof.
  rewrite record_of_list. destruct (Z.leb_spec 0 (Z.of_nat (length l1))); [|lia].
  by rewrite Nat2Z.id, list_lookup_middle.
Qed.

Lemma update_of_list cap l t c j n r :
  0 <= n < Z.of_nat (length l) →
  update_record (of_list cap l t c j) n r = Done (of_list cap (<[Z.to_nat n := r]> l) t c j).
Proof.
  intros Hn. unfold update_record, of_list, set_slots. cbn [_slots capacity _count _terminal closed join_result].
  rewrite py_set_insert by (rewrite length_app, length_fmap; lia). cbn.
  rewrite insert_app_l by (rewrite length_fmap; lia).
  by rewrite list_fmap_insert, length_insert.
Qed.

Lemma update_middle cap l1 r r' l2 t c j :
  update_record (of_list cap (l1 ++ r :: l2) t c j) (Z.of_nat (length l1)) r' =
  Done (of_list cap (l1 ++ r' :: l2) t c j).
Proof.
  rewrite update_of_list by (rewrite length_app; simpl; lia).
  rewrite Nat2Z.id. by rewrite insert_app_r_alt, Nat.sub_diag by done.
Qed.

Lemma add_terminal_of_list cap l t c j n :
  add_terminal (of_list cap l t c j) n = of_list cap l (t + n) c j.
Proof. done. Qed.

Lemma ids_of_list cap l t c j : ids (of_list cap l t c j) = Z.of_nat <$> seq 0 (length l).
Proof. unfold ids. cbn [_count of_list]. by rewrite Nat2Z.id. Qed.

Lemma snoc_middle {A} (l1 : list A) (x : A) (l2 : list A) : l1 ++ x :: l2 = (l1 ++ [x]) ++ l2.
Proof. by rewrite <- app_assoc. Qed.

Lemma cancel_loop_of_list cap l1 l2 t c j k :
  cancel_loop (of_list cap (l1 ++ l2) t c j) (Z.of_nat <$> seq (length l1) (length l2)) k =
  Done (k + count_if is_pending l2,
        of_list cap (l1 ++ (cancel_record <$> l2))
          (t + count_if is_pending l2) c j).
Proof.
  revert l1 t k. induction l2 as [|r l2 IH]; intros l1 t k.
  { simpl. by rewrite !Z.add_0_r. }
  cbn [length seq fmap list_fmap cancel_loop count_if]. rewrite record_middle. cbn -[count_if].
  assert (S (length l1) = length (l1 ++ [r])) as Hlen by (rewrite length_app; simpl; lia).
  rewrite (snoc_middle l1 (cancel_record r)), Hlen.
  destruct (decide (state r = TASK_PENDING)) as [Hp|Hp].
  - assert (is_pending r = true) as Hb by by apply bool_decide_eq_true.
    rewrite update_middle. cbn -[count_if]. rewrite add_terminal_of_list.
    unfold cancel_record at 1. rewrite Hb, (snoc_middle l1).
    replace (length (l1 ++ [r])) with (length (l1 ++ [set_state r TASK_CANCELLED]))
      by (by rewrite !length_app).
    rewrite IH. f_equal. f_equal; [lia|]. f_equal. lia.
  - assert (is_pending r = false) as Hb by by apply bool_decide_eq_false.
    unfold cancel_record at 1. rewrite Hb, (snoc_middle l1), IH. done.
Qed.

Definition runnable r : bool := negb (bool_decide (state r = TASK_CANCELLED)).

Definition finished r (fail : option ustring) : TaskRecord W V :=
  mk_record _ _ (worker r) (argument r)
    (match fail with Some _ => TASK_FAILED | None => TASK_DONE end) fail.

Lemma mark_terminal_middle cap l1 r l2 t c j fail :
  state r ≠ TASK_CANCELLED →
  mark_terminal (of_list cap (l1 ++ r :: l2) t c j) (Z.of_nat (length l1)) fail =
  Done (of_list cap (l1 ++ finished r fail :: l2) (t + 1) c j).
Proof.
  intros Hr. unfold mark_terminal. rewrite record_middle. cbn [mbind outcome_bind].
  destruct (decide (state r = TASK_CANCELLED)); [done|]. by rewrite update_middle.
Qed.

Lemma join_loop_of_list cap l1 l2 t c j f σ :
  join_loop call_worker (of_list cap (l1 ++ l2) t c j)
    (Z.of_nat <$> seq (length l1) (length l2)) f σ =
  let '(f', l', σ') := join_spec l2 σ in
  Done (first_of f f', of_list cap (l1 ++ l') (t + count_if runnable l2) c j, σ').
Proof.
  revert l1 t f σ. induction l2 as [|r l2 IH]; intros l1 t f σ.
  { simpl. by rewrite Z.add_0_r; destruct f. }
  cbn [length seq fmap list_fmap join_loop count_if join_spec]. rewrite record_middle.
  cbn [mbind outcome_bind]. unfold runnable at 1.
  assert (∀ r', S (length l1) = length (l1 ++ [r'])) as Hlen
    by (intros; rewrite length_app; simpl; lia).
  destruct (decide (state r = TASK_CANCELLED)) as [Hp|Hp].
  - rewrite bool_decide_true by done. rewrite (snoc_middle l1), (Hlen r), IH.
    destruct (join_spec l2 σ) as [[f' l'] σ']. by rewrite <- snoc_middle.
  - rewrite bool_decide_false by done. rewrite update_middle. cbn [mbind outcome_bind].
    destruct (call_worker (worker r) (argument r) σ) as [res σ1].
    rewrite mark_terminal_middle by done. cbn [mbind outcome_bind].
    rewrite (snoc_middle l1), (Hlen (finished (set_state r TASK_RUNNING) (worker_failure res))), IH.
    destruct (join_spec l2 σ1) as [[f' l'] σ']. rewrite <- snoc_middle, <- Z.add_assoc.
    by destruct f, (worker_failure res).
Qed.

Lemma records_of_list cap l1 l2 t c j :
  outcome_map (λ i, record (of_list cap (l1 ++ l2) t c j) (IntArg i))
    (Z.of_nat <$> seq (length l1) (length l2)) = Done l2.
Proof.
  revert l1. induction l2 as [|r l2 IH]; intros l1; [done|].
  cbn [length seq fmap list_fmap outcome_map]. rewrite record_middle. cbn [mbind outcome_bind].
  replace (S (length l1)) with (length (l1 ++ [r])) by (rewrite length_app; simpl; lia).
  by rewrite (snoc_middle l1), IH.
Qed.

Lemma join_spec_length l σ : length (join_spec l σ).1.2 = length l.
Proof.
  revert σ. induction l as [|r l IH]; intros σ; simpl; [done|].
  case_decide.
  - specialize (IH σ). destruct (join_spec l σ) as [[??]?]. simpl in *. lia.
  - destruct (call_worker _ _ _) as [res σ1]. specialize (IH σ1).
    destruct (join_spec l σ1) as [[??]?]. simpl in *. lia.
Qed.

Lemma join_spec_terminal l σ : Forall (task_ok true) (join_spec l σ).1.2.
Proof.
  revert σ. induction l as [|r l IH]; intros σ; simpl; [done|].
  case_decide as Hr.
  - specialize (IH σ). destruct (join_spec l σ) as [[??]?]. constructor; [|done].
    simpl. by rewrite Hr.
  - destruct (call_worker _ _ _) as [res σ1]. specialize (IH σ1).
    destruct (join_spec l σ1) as [[??]?]. constructor; [|done].
    simpl. by destruct (worker_failure res).
Qed.

Lemma open_terminals l :
  Forall (task_ok false) l → terminals l = Z.of_nat (length l) - count_if is_pending l.
Proof.
  unfold terminals. induction 1 as [|r l [Hr|Hr] _ IH]; [done|..];
    cbn [count_if length]; rewrite IH; unfold is_pending at 2; rewrite Hr; simpl; lia.
Qed.

Lemma open_runnable l : Forall (task_ok false) l → count_if runnable l = count_if is_pending l.
Proof.
  induction 1 as [|r l [Hr|Hr] _ IH]; [done|..];
    cbn [count_if]; rewrite IH; f_equal; unfold is_pending, runnable; by rewrite Hr.
Qed.

Lemma cancel_terminals l : terminals (cancel_record <$> l) = terminals l + count_if is_pending l.
Proof.
  unfold terminals. induction l as [|r l IH]; [done|].
  change (cancel_record <$> r :: l) with (cancel_record r :: (cancel_record <$> l)).
  cbn [count_if]. rewrite IH. unfold cancel_record, is_pending at 1 3.
  destruct (state r) eqn:Hr; simpl; rewrite ?Hr; simpl; lia.
Qed.

Lemma cancel_terminals_at l i r :
  l !! i = Some r →
  terminals (<[i := cancel_record r]> l) = terminals l + (if is_pending r then 1 else 0).
Proof.
  intros Hi. unfold terminals. apply list_elem_of_split_length in Hi as (l1 & l2 & -> & ->).
  rewrite insert_app_r_alt, Nat.sub_diag by done. cbn [insert list_insert].
  rewrite !count_if_app. cbn [count_if]. unfold cancel_record, is_pending.
  destruct (state r) eqn:Hr; simpl; rewrite ?Hr; simpl; lia.
Qed.

Lemma joined_terminals l : Forall (task_ok true) l → terminals l = Z.of_nat (length l).
Proof. intros H. by apply count_if_all. Qed.

Lemma cancel_record_ok r : task_ok false r → task_ok false (cancel_record r).
Proof.
  intros Hr. unfold cancel_record. destruct (is_pending r); [|done]. by right.
Qed.

Lemma represents_pending cap s a :
  represents cap s a → pending s = count_if (λ r, negb (is_terminal (state r))) (tasks a).
Proof. intros [-> _ _]. rewrite count_if_negb. done. Qed.

Lemma new_scope_represents n s : new_scope (IntArg n) = Done s → represents n s (mk_spec [] None).
Proof.
  unfold new_scope. destruct (_ && _) eqn:Hn; [|done]. intros [= <-]. bool_to_prop.
  unfold MIN_TASK_CAPACITY in *. split; [|simpl; lia|constructor].
  unfold of_list. simpl. by rewrite Nat.sub_0_r.
Qed.

Lemma spawn_of_list cap l t w v :
  Z.of_nat (length l) <= cap →
  spawn (of_list cap l t false None) w v =
  if cap <=? Z.of_nat (length l) then Raise ScopeExhausted
  else Done (Z.of_nat (length l), of_list cap (l ++ [mk_record _ _ w v TASK_PENDING None]) t false None).
Proof.
  intros Hb. unfold spawn. cbn [closed capacity _count _slots of_list].
  destruct (Z.leb_spec cap (Z.of_nat (length l))); [done|].
  rewrite py_set_insert by (rewrite length_app, length_fmap, length_replicate; lia).
  cbn. unfold of_list. rewrite Nat2Z.id, insert_app_r_alt by (rewrite length_fmap; lia).
  rewrite length_fmap, Nat.sub_diag, fmap_app, length_app, <- app_assoc. cbn [length].
  replace (Z.to_nat cap - length l)%nat with (S (Z.to_nat cap - (length l + 1)))%nat by lia.
  cbn. do 3 f_equal. lia.
Qed.

Lemma task_step_represents cap s a σ op :
  represents cap s a →
  let '(r, s', σ') := step call_worker s σ op in
  let '(r', a', σ'') := step_spec cap a σ op in
  r = r' ∧ σ' = σ'' ∧ represents cap s' a'.
Proof.
  intros Hr. pose proof Hr as [-> Hb Ht].
  destruct a as [l [x|]]; cbn [joined tasks result] in *; destruct op as [w v|[n|]| | |];
    cbn [step step_spec tasks result]; try by rewrite (represents_pending _ _ _ Hr).
  all: try by split_and!.
  - rewrite spawn_of_list by done. case_Z; [by split_and!|]. split_and!; [done..|].
    split; cbn [tasks result joined].
    + f_equal. unfold terminals. rewrite count_if_app. simpl. lia.
    + rewrite length_app. simpl. lia.
    + apply Forall_app. split; [done|]. constructor; [by left|constructor].
  - unfold cancel. cbn [closed of_list]. rewrite record_of_list.
    destruct (if 0 <=? n then _ else _) as [r|] eqn:Hn; cbn [mbind outcome_bind]; [|by split_and!].
    destruct (Z.leb_spec 0 n); [|done]. pose proof (lookup_lt_Some _ _ _ Hn).
    pose proof (Forall_lookup_1 _ _ _ _ Ht Hn) as Hok.
    assert (is_pending r = bool_decide (state r = TASK_PENDING)) as Hp by done.
    pose proof (cancel_terminals_at l _ r Hn) as Hterm.
    destruct (decide (state r = TASK_CANCELLED)) as [Hs|Hs];
      [|destruct (decide (state r ≠ TASK_PENDING)) as [Hs'|Hs']].
    1, 2: rewrite bool_decide_false in Hp by congruence; unfold cancel_record;
      rewrite Hp, list_insert_id by done; by split_and!.
    rewrite bool_decide_true in Hp by (by apply dec_stable).
    rewrite update_of_list by lia. cbn [mbind outcome_bind].
    split_and!; [by rewrite Hp|done|]. split; cbn [tasks result joined].
    + rewrite add_terminal_of_list, Hterm, Hp. unfold cancel_record. by rewrite Hp.
    + rewrite length_insert. done.
    + apply Forall_insert; [done|]. by apply cancel_record_ok.
  - unfold cancel_all. cbn [closed of_list].
    change (mk_scope _ _ _ _ _ _ _ _) with (of_list cap l (terminals l) false None).
    rewrite ids_of_list.
    pose proof (cancel_loop_of_list cap [] l (terminals l) false None 0) as Hl.
    cbn [app length] in Hl. rewrite Hl.
    split_and!; [done..|]. split; cbn [tasks result joined].
    + by rewrite cancel_terminals.
    + by rewrite length_fmap.
    + apply Forall_fmap. eapply Forall_impl; [done|]. apply cancel_record_ok.
  - unfold task_join_all. cbn [join_result closed capacity _slots _count _terminal of_list].
    change (mk_scope _ _ _ _ _ _ true _) with (of_list cap l (terminals l) true None).
    unfold records. rewrite ids_of_list.
    pose proof (records_of_list cap [] l (terminals l) true None) as Hl.
    pose proof (join_loop_of_list cap [] l (terminals l) true None None σ) as Hj.
    cbn [app length first_of] in Hl, Hj. rewrite Hl. cbn [mbind outcome_bind]. rewrite Hj.
    pose proof (join_spec_length l σ) as Hlen. pose proof (join_spec_terminal l σ) as Hterm.
    destruct (join_spec l σ) as [[f l'] σ']. cbn in Hlen, Hterm.
    split_and!; [done..|]. split; cbn [tasks result joined]; [|by rewrite Hlen|done].
    rewrite (joined_terminals l') by done. unfold of_list. cbn. f_equal.
    rewrite open_terminals, open_runnable by done. lia.
Qed.

Lemma task_run_represents cap s a σ ops :
  represents cap s a →
  let '(rs, s', σ') := run call_worker s σ ops in
  let '(rs', a', σ'') := run_spec cap a σ ops in
  rs = rs' ∧ σ' = σ'' ∧ represents cap s' a'.
Proof.
  revert s a σ. induction ops as [|op ops IH]; intros s a σ Hr; cbn [run run_spec]; [done|].
  pose proof (task_step_represents cap s a σ op Hr) as Hs.
  destruct (step call_worker s σ op) as [[r s1] σ1], (step_spec cap a σ op) as [[r' a1] σ1'].
  destruct Hs as (-> & -> & Hr1). specialize (IH _ _ σ1' Hr1).
  destruct (run call_worker s1 σ1' ops) as [[rs s2] σ2], (run_spec cap a1 σ1' ops) as [[rs' a2] σ2'].
  by destruct IH as (-> & -> & IH).
Qed.

(** A response that would mean the bookkeeping of the scope is broken. *)
Definition internal_error (x : task_response) : bool :=
  match x with
  | RError TaskIndexError | RError SlotUnexpectedlyEmpty | RError CancelledCannotComplete => true
  | _ => false
  end.

Lemma step_spec_errors cap a σ op resp a' σ' :
  step_spec cap a σ op = (resp, a', σ') → internal_error resp = false.
Proof.
  destruct a as [l [x|]], op as [w v|[n|]| | |]; cbn [step_spec tasks result];
    repeat case_match; by intros [= <- <- <-].
Qed.

Lemma run_spec_errors cap a σ ops rs a' σ' :
  run_spec cap a σ ops = (rs, a', σ') →
  Forall (λ x, internal_error x = false) rs.
Proof.
  revert a σ rs. induction ops as [|op ops IH]; intros a σ rs; cbn [run_spec].
  { intros [= <- <- <-]. constructor. }
  destruct (step_spec cap a σ op) as [[r a1] σ1] eqn:Hs.
  destruct (run_spec cap a1 σ1 ops) as [[rs1 a2] σ2] eqn:Hr. intros [= <- <- <-].
  constructor; [by eapply step_spec_errors|by eapply IH].
Qed.

(** Call the workers of a list of records one after the other. *)
Fixpoint call_all l (σ : World) : list worker_result * World :=
  match l with
  | [] => ([], σ)
  | r :: l =>
      let '(res, σ) := call_worker (worker r) (argument r) σ in
      let '(results, σ) := call_all l σ in
      (res :: results, σ)
  end.

Definition first_failure (results : list worker_result) : join_value :=
  match omap worker_failure results with m :: _ => JoinError m | [] => JoinUnit end.

Lemma join_spec_calls l σ :
  (match (join_spec l σ).1.1 with Some m => JoinError m | None => JoinUnit end,
   (join_spec l σ).2) =
  (first_failure (call_all (List.filter runnable l) σ).1, (call_all (List.filter runnable l) σ).2).
Proof.
  revert σ. induction l as [|r l IH]; intros σ; [done|]. cbn [join_spec List.filter].
  destruct (decide (state r = TASK_CANCELLED)) as [Hr|Hr].
  - assert (runnable r = false) as -> by (unfold runnable; by rewrite bool_decide_true).
    specialize (IH σ).
    by destruct (join_spec l σ) as [[??]?].
  - assert (runnable r = true) as -> by (unfold runnable; by rewrite bool_decide_false).
    cbn [call_all].
    destruct (call_worker (worker r) (argument r) σ) as [res σ1]. specialize (IH σ1).
    destruct (join_spec l σ1) as [[f l'] σ2], (call_all (List.filter runnable l) σ1) as [rs σ3].
    unfold first_failure in *. cbn in *. injection IH as IH ->. f_equal.
    by destruct (worker_failure res).
Qed.

End contract.
Arguments scope_spec W V : clear implicits.

(** * Properties *)

(** C35: a task scope implements the list of its tasks.  A new scope executes every
sequence of [task_*] calls with exactly the responses and worker effects of the
list, so spawning past the capacity, cancelling, counting, and every call after
the join behave as the contract says, and no call ends in an index error, in an
unexpectedly empty slot or in a task that completes twice. *)
Theorem scope_refines_list {W V World : Type} (call_worker : W → V → World → worker_result * World)
    (n : Z) (s s' : TaskScopeValue W V) (σ σ' : World) (ops : list (task_op W V))
    (rs : list task_response) :
  new_scope (IntArg n) = Done s →
  run call_worker s σ ops = (rs, s', σ') →
  ∃ a, run_spec call_worker n (mk_spec [] None) σ ops = (rs, a, σ') ∧ represents n s' a ∧
    Forall (λ x, internal_error x = false) rs.
Proof.
  intros Hs Hrun.
  pose proof (task_run_represents call_worker n s _ σ ops (new_scope_represents n s Hs)) as H.
  rewrite Hrun in H.
  destruct (run_spec call_worker n (mk_spec [] None) σ ops) as [[rs' a] σ''] eqn:Ha.
  destruct H as (-> & -> & H). exists a. split_and!; [done..|].
  eapply run_spec_errors, Ha.
Qed.

(** A worker for the witnesses: it logs its argument and fails on odd ones. *)
Definition log_worker (w : unit) (v : Z) (log : list Z) : worker_result * list Z :=
  (if Z.odd v then WorkerRuntimeError (u "KS1") (str_int v) else WorkerValue, log ++ [v]).

Lemma scope_refines_list_witness :
  ∃ a, run_spec log_worker 2 (mk_spec [] None) []
         [OpSpawn tt 4; OpSpawn tt 5; OpSpawn tt 6; OpCancel (IntArg 0); OpJoinAll; OpCancelAll]
       = ([RInt 0; RInt 1; RError ScopeExhausted; RBool true;
           RJoin (JoinError (u "KS1: 5")); RError ScopeClosed], a, [5]) ∧
    represents 2 (of_list 2 [mk_record _ _ tt 4 TASK_CANCELLED None;
                             mk_record _ _ tt 5 TASK_FAILED (Some (u "KS1: 5"))] 2 true
                    (Some (JoinError (u "KS1: 5")))) a ∧
    Forall (λ x, internal_error x = false)
      [RInt 0; RInt 1; RError ScopeExhausted; RBool true;
       RJoin (JoinError (u "KS1: 5")); RError ScopeClosed].
Proof.
  eapply (scope_refines_list log_worker 2 (of_list 2 [] 0 false None)); reflexivity.
Defined.

(** [task_join_all] of a scope that any sequence of calls produced, and that was
not joined yet, runs every task that was not cancelled exactly once, in the
order the tasks were spawned, and returns the failure of the first one that
failed.  Afterwards no task is pending, the scope is closed, and joining again
returns the same value and runs nothing. *)
Theorem join_all_exact {W V World : Type} (call_worker : W → V → World → worker_result * World)
    (n : Z) (s s1 : TaskScopeValue W V) (σ σ1 : World) (ops : list (task_op W V))
    (resps : list task_response) (rs : list (TaskRecord W V)) :
  new_scope (IntArg n) = Done s →
  run call_worker s σ ops = (resps, s1, σ1) →
  join_result s1 = None →
  records s1 = Done rs →
  let calls := call_all call_worker (List.filter runnable rs) σ1 in
  ∃ s2, task_join_all call_worker s1 σ1 = Done (first_failure calls.1, s2, calls.2) ∧
    pending s2 = 0 ∧ closed s2 = true ∧
    ∀ σ', task_join_all call_worker s2 σ' = Done (first_failure calls.1, s2, σ').
Proof.
  intros Hs Hrun Hj Hrs calls.
  pose proof (task_run_represents call_worker n s _ σ ops (new_scope_represents n s Hs)) as H.
  rewrite Hrun in H. destruct (run_spec _ _ _ _ _) as [[rs' a] σ'']. destruct H as (_ & _ & Hr).
  pose proof (task_step_represents call_worker n s1 a σ1 OpJoinAll Hr) as Hstep.
  pose proof Hr as [-> Hb Ht]. cbn [join_result of_list] in Hj.
  destruct a as [l [x|]]; [done|]. cbn [tasks result joined step step_spec] in *.
  unfold records in Hrs. rewrite ids_of_list in Hrs.
  pose proof (records_of_list n [] l (terminals l) false None) as Hl.
  cbn [app length] in Hl. rewrite Hl in Hrs. injection Hrs as <-.
  pose proof (join_spec_calls call_worker l σ1) as Hc. fold calls in Hc.
  destruct (join_spec call_worker l σ1) as [[f l'] σ2]. cbn [fst snd] in Hc.
  injection Hc as Hv Hσ.
  destruct (task_join_all _ _ _) as [[[v s2] σ3]| |]; [|by destruct Hstep..].
  destruct Hstep as ([= ->] & -> & Hr2). rewrite Hv, Hσ. exists s2. split; [done|].
  pose proof (represents_pending _ _ _ Hr2) as Hp. destruct Hr2 as [-> _ Ht2].
  cbn [tasks result joined] in *. split_and!; [|done|by rewrite Hv].
  rewrite Hp, count_if_negb, (count_if_all _ l') by done. lia.
Qed.

Lemma join_all_exact_witness :
  ∃ s2, task_join_all log_worker
          (of_list 3 [mk_record _ _ tt 4 TASK_PENDING None; mk_record _ _ tt 5 TASK_PENDING None]
             0 false None) [] = Done (JoinError (u "KS1: 5"), s2, [4; 5]) ∧
    pending s2 = 0 ∧ closed s2 = true ∧
    ∀ σ', task_join_all log_worker s2 σ' = Done (JoinError (u "KS1: 5"), s2, σ').
Proof.
  refine (join_all_exact log_worker 3 (of_list 3 [] 0 false None) _ [] [] [OpSpawn tt 4; OpSpawn tt 5]
    [RInt 0; RInt 1] [mk_record _ _ tt 4 TASK_PENDING None; mk_record _ _ tt 5 TASK_PENDING None]
    _ _ _ _); reflexivity.
Defined.
