(* ===== verification/TypeSystem.v ===== *)
(** Structural types: [src/koschei/type_system.py].

[TypeNode] has the five node classes of the source.  [parse_type_text] recurses
on parts of its text, so it takes fuel; [type_of_text] gives it enough and
[type_text_total] shows that it is. *)

From S2P Require Import Prelude.

Inductive TypeNode :=
  | UnknownType
  | NamedType (name : ustring)
  | TypeVariable (name : ustring)
  | GenericType (name : ustring) (arguments : list TypeNode)
  | UnionType (options : list TypeNode).

(** The [ValueError]s of this file. *)
Inductive type_error :=
  | UnbalancedExpression
  | InvalidGeneric
  | GenericWithoutName
  | GenericWithoutArguments.

Definition VOID : TypeNode := NamedType (u "Void").
Definition ERROR : TypeNode := NamedType (u "Error").

(** * Rendering and canonical unions *)

Fixpoint render_type (t : TypeNode) : ustring :=
  match t with
  | UnknownType => u "_"
  | NamedType name | TypeVariable name => name
  | GenericType name arguments =>
      name ++ u "<" ++ join (u ", ") (render_type <$> arguments) ++ u ">"
  | UnionType options => join (u " or ") (render_type <$> options)
  end.

Definition alternatives (t : TypeNode) : list TypeNode :=
  match t with UnionType options => options | _ => [t] end.

(** The first loop of [union_type]. *)
Fixpoint flatten_types (types : list TypeNode) : list TypeNode :=
  match types with
  | [] => []
  | UnknownType :: types => flatten_types types
  | UnionType options :: types => options ++ flatten_types types
  | t :: types => t :: flatten_types types
  end.

(** The dictionary [unique] as its items in insertion order. *)
Definition dict_get (key : ustring) (unique : list (ustring * TypeNode)) : option TypeNode :=
  snd <$> List.find (λ kv, bool_decide (kv.1 = key)) unique.

Definition setdefault (unique : list (ustring * TypeNode)) (t : TypeNode)
    : list (ustring * TypeNode) :=
  match dict_get (render_type t) unique with
  | Some _ => unique
  | None => unique ++ [(render_type t, t)]
  end.

Definition union_type (types : list TypeNode) : TypeNode :=
  let unique := foldl setdefault [] (flatten_types types) in
  let ordered := omap (λ key, dict_get key unique) (sorted_text (unique.*1)) in
  match ordered with
  | [] => UnknownType
  | [t] => t
  | _ => UnionType ordered
  end.

Definition is_named (t : TypeNode) (name : ustring) : bool :=
  match t with NamedType n => bool_decide (n = name) | _ => false end.

(** * Type variables *)

Fixpoint bind_type_variables (names : gset ustring) (t : TypeNode) : TypeNode :=
  match t with
  | NamedType name => if bool_decide (name ∈ names) then TypeVariable name else t
  | GenericType name arguments => GenericType name (bind_type_variables names <$> arguments)
  | UnionType options => union_type (bind_type_variables names <$> options)
  | _ => t
  end.

Fixpoint substitute_type (mapping : gmap ustring TypeNode) (t : TypeNode) : TypeNode :=
  match t with
  | TypeVariable name => default t (mapping !! name)
  | GenericType name arguments => GenericType name (substitute_type mapping <$> arguments)
  | UnionType options => union_type (substitute_type mapping <$> options)
  | _ => t
  end.

Fixpoint unresolved_type_variables (t : TypeNode) : gset ustring :=
  match t with
  | TypeVariable name => {[name]}
  | GenericType _ arguments => ⋃ (unresolved_type_variables <$> arguments)
  | UnionType options => ⋃ (unresolved_type_variables <$> options)
  | _ => ∅
  end.

Definition success_type (t : TypeNode) : TypeNode :=
  match t with
  | GenericType name [a] => if bool_decide (name = u "Option") then a else t
  | GenericType name [a; _] => if bool_decide (name = u "Result") then a else t
  | UnionType options => union_type (List.filter (λ item, negb (is_named item (u "Error"))) options)
  | _ => t
  end.

Fixpoint contains_named (names : gset ustring) (t : TypeNode) : bool :=
  match t with
  | NamedType name => bool_decide (name ∈ names)
  | GenericType name arguments =>
      bool_decide (name ∈ names) || existsb (contains_named names) arguments
  | UnionType options => existsb (contains_named names) options
  | _ => false
  end.

(** * Parsing *)

Definition add_part (parts : list ustring) (text : ustring) : list ustring :=
  let part := strip text in
  match part with [] => parts | _ => parts ++ [part] end.

(** The loop of [split_top_level] at [rest = text[index:]], with
[cur = text[start:index]]. *)
Fixpoint split_loop (fuel : nat) (separator rest cur : ustring) (depth : Z) (parts : list ustring)
    : outcome type_error (list ustring) :=
  match fuel with
  | O => NoFuel
  | S fuel =>
      match rest with
      | [] => if negb (depth =? 0) then Raise UnbalancedExpression else Done (add_part parts cur)
      | char :: rest' =>
          if char =? ch "<" then
            split_loop fuel separator rest' (cur ++ [char]) (depth + 1) parts
          else if char =? ch ">" then
            if depth - 1 <? 0 then Raise UnbalancedExpression
            else split_loop fuel separator rest' (cur ++ [char]) (depth - 1) parts
          else if (depth =? 0) && starts_with separator rest then
            split_loop fuel separator (drop (length separator) rest) [] depth (add_part parts cur)
          else split_loop fuel separator rest' (cur ++ [char]) depth parts
      end
  end.

Definition split_top_level (text separator : ustring) : outcome type_error (list ustring) :=
  split_loop (S (length text)) separator text [] 0 [].

Fixpoint parse_type_text (fuel : nat) (text : ustring) : outcome type_error TypeNode :=
  match fuel with
  | O => NoFuel
  | S fuel =>
      let text := strip text in
      if bool_decide (text = []) || bool_decide (text = u "_") then Done UnknownType
      else
        union_parts ← split_top_level text (u " or ");
        if (1 <? length union_parts)%nat then
          options ← outcome_map (parse_type_text fuel) union_parts; Done (union_type options)
        else if negb (existsb (Z.eqb (ch "<")) text) then Done (NamedType text)
        else if negb (bool_decide (last text = Some (ch ">"))) then Raise InvalidGeneric
        else
          let '(name, remainder) := span (λ c, negb (c =? ch "<")) text in
          let name := strip name in
          if bool_decide (name = []) then Raise GenericWithoutName
          else
            let inner := removelast (tail remainder) in
            parts ← split_top_level inner (u ",");
            arguments ← outcome_map (parse_type_text fuel) parts;
            match arguments with
            | [] => Raise GenericWithoutArguments
            | _ => Done (GenericType name arguments)
            end
  end.

Definition type_of_text (text : ustring) : outcome type_error TypeNode :=
  parse_type_text (S (length text)) text.

Definition parse_type_ref (type_ref : option (list ustring)) : outcome type_error TypeNode :=
  match type_ref with
  | None => Done VOID
  | Some names => types ← outcome_map type_of_text names; Done (union_type types)
  end.

(** * Induction on types *)

Lemma TypeNode_nested_ind (P : TypeNode → Prop) :
  P UnknownType → (∀ n, P (NamedType n)) → (∀ n, P (TypeVariable n)) →
  (∀ n args, Forall P args → P (GenericType n args)) →
  (∀ options, Forall P options → P (UnionType options)) →
  ∀ t, P t.
Proof.
  intros H1 H2 H3 H4 H5. refine (fix go t := _). destruct t as [|n|n|n args|options];
    [exact H1|apply H2|apply H3|..].
  - apply H4. induction args; constructor; auto.
  - apply H5. induction options; constructor; auto.
Qed.

(** * Canonical unions *)

(** The first of a list of types that renders as [key]. *)
Definition first_with (key : ustring) (l : list TypeNode) : option TypeNode :=
  List.find (λ t, bool_decide (render_type t = key)) l.

Lemma first_with_cons key t l :
  first_with key (t :: l) = if decide (render_type t = key) then Some t else first_with key l.
Proof. unfold first_with. cbn [List.find]. case_bool_decide; by case_decide. Qed.

Lemma first_with_app key l1 l2 :
  first_with key (l1 ++ l2) =
  match first_with key l1 with Some t => Some t | None => first_with key l2 end.
Proof.
  induction l1 as [|t l1 IH]; [done|]. cbn. case_bool_decide; [done|]. apply IH.
Qed.

Lemma first_with_Some key l t : first_with key l = Some t → t ∈ l ∧ render_type t = key.
Proof.
  intros H. apply find_some in H as [H1 H2]. split; [by apply list_elem_of_In|].
  by apply bool_decide_eq_true in H2.
Qed.

Lemma first_with_None key l : first_with key l = None ↔ key ∉ render_type <$> l.
Proof.
  split.
  - intros H (t & -> & Ht)%list_elem_of_fmap.
    apply list_elem_of_In in Ht. pose proof (find_none _ _ H _ Ht) as Hf.
    by apply bool_decide_eq_false in Hf.
  - intros H. destruct (first_with key l) as [t|] eqn:E; [|done].
    apply first_with_Some in E as [Ht <-]. destruct H. by apply list_elem_of_fmap_2.
Qed.

Lemma dict_get_app key d1 d2 :
  dict_get key (d1 ++ d2) =
  match dict_get key d1 with Some t => Some t | None => dict_get key d2 end.
Proof.
  unfold dict_get. induction d1 as [|[k t] d1 IH]; [done|]. cbn. case_bool_decide; [done|]. apply IH.
Qed.

Lemma dict_get_None key d : dict_get key d = None ↔ key ∉ d.*1.
Proof.
  unfold dict_get. induction d as [|[k t] d IH]; cbn.
  - split; [set_solver|done].
  - case_bool_decide as Hk; cbn; [set_solver|]. unfold fmap in *. rewrite IH. set_solver.
Qed.

Lemma dict_get_unique key d l :
  dict_get key (foldl setdefault d l) =
  match dict_get key d with Some t => Some t | None => first_with key l end.
Proof.
  revert d. induction l as [|t l IH]; intros d; cbn [foldl]; [by destruct (dict_get key d)|].
  rewrite IH, first_with_cons. unfold setdefault.
  destruct (dict_get (render_type t) d) eqn:E.
  - destruct (dict_get key d) eqn:E'; [done|]. case_decide; [congruence|done].
  - rewrite dict_get_app. destruct (dict_get key d); [done|].
    unfold dict_get. cbn. case_bool_decide; by case_decide.
Qed.

Lemma unique_NoDup d l : NoDup d.*1 → NoDup (foldl setdefault d l).*1.
Proof.
  revert d. induction l as [|t l IH]; intros d H; cbn; [done|]. apply IH. unfold setdefault.
  destruct (dict_get _ d) eqn:E; [done|]. apply dict_get_None in E.
  rewrite fmap_app. cbn. apply NoDup_app. split; [done|]. split; [set_solver|].
  apply NoDup_singleton.
Qed.

(** The keys of [union_type], sorted, and the types they stand for. *)
Definition union_keys (l : list TypeNode) : list ustring :=
  sorted_text ((foldl setdefault [] l).*1).

Definition union_options (l : list TypeNode) : list TypeNode :=
  omap (λ key, first_with key l) (union_keys l).

Lemma union_keys_elem l key : key ∈ union_keys l ↔ key ∈ render_type <$> l.
Proof.
  unfold union_keys. rewrite sorted_text_perm.
  pose proof (dict_get_unique key [] l) as H. cbn in H.
  destruct (first_with key l) eqn:E.
  - apply first_with_Some in E as [Ht <-]. split; intros _; [by apply list_elem_of_fmap_2|].
    apply dec_stable. intros Hn%dict_get_None. congruence.
  - apply first_with_None in E. apply dict_get_None in H. tauto.
Qed.

Lemma union_keys_NoDup l : NoDup (union_keys l).
Proof. unfold union_keys. rewrite sorted_text_perm. apply unique_NoDup. constructor. Qed.

Lemma union_keys_sorted l : StronglySorted ustr_le (union_keys l).
Proof. apply sorted_text_sorted. Qed.

Lemma render_omap l (keys : list ustring) :
  (∀ key, key ∈ keys → key ∈ render_type <$> l) →
  render_type <$> omap (λ key, first_with key l) keys = keys.
Proof.
  induction keys as [|key keys IH]; intros H; [done|]. cbn.
  destruct (first_with key l) as [t|] eqn:E.
  - apply first_with_Some in E as [_ Ht]. cbn. rewrite Ht. f_equal. apply IH.
    intros k Hk. apply H. by right.
  - apply first_with_None in E. destruct E. apply H. left.
Qed.

Lemma union_options_render l : render_type <$> union_options l = union_keys l.
Proof. apply render_omap. intros key. apply union_keys_elem. Qed.

Lemma union_type_options types :
  union_type types =
  match union_options (flatten_types types) with
  | [] => UnknownType
  | [t] => t
  | options => UnionType options
  end.
Proof.
  unfold union_type. fold (union_keys (flatten_types types)).
  assert (∀ keys : list ustring, omap (λ key, dict_get key (foldl setdefault [] (flatten_types types))) keys =
                  omap (λ key, first_with key (flatten_types types)) keys) as ->.
  { intros keys. apply list_omap_ext, Forall_Forall2_diag, Forall_forall. intros key _.
    by rewrite dict_get_unique. }
  unfold union_options. by destruct (omap _ _) as [|? [|??]].
Qed.

Lemma union_options_elem l t : t ∈ union_options l → t ∈ l.
Proof.
  intros (key & _ & Ht)%list_elem_of_omap. by apply first_with_Some in Ht as [Ht _].
Qed.

Lemma first_with_union key l : first_with key (union_options l) = first_with key l.
Proof.
  destruct (first_with key (union_options l)) as [t|] eqn:E.
  - apply first_with_Some in E as [Ht <-].
    apply list_elem_of_omap in Ht as (key' & _ & Ht).
    pose proof (first_with_Some _ _ _ Ht) as [_ <-]. done.
  - symmetry. apply first_with_None. apply first_with_None in E.
    by rewrite union_options_render, union_keys_elem in E.
Qed.

(** Canonical unions depend only on the first type under each rendered key. *)
Lemma union_options_ext l1 l2 :
  (∀ key, first_with key l1 = first_with key l2) → union_options l1 = union_options l2.
Proof.
  intros H. unfold union_options.
  assert (union_keys l1 = union_keys l2) as ->.
  { apply strongly_sorted_unique; try apply union_keys_sorted.
    apply NoDup_Permutation; try apply union_keys_NoDup. intros key.
    rewrite !union_keys_elem. destruct (decide (key ∈ render_type <$> l1)) as [H1|H1],
      (decide (key ∈ render_type <$> l2)) as [H2|H2]; try tauto.
    - apply first_with_None in H2. rewrite <- H in H2. by apply first_with_None in H2.
    - apply first_with_None in H1. rewrite H in H1. by apply first_with_None in H1. }
  apply list_omap_ext, Forall_Forall2_diag, Forall_forall. intros key _. apply H.
Qed.

Definition simple_type (t : TypeNode) : bool :=
  match t with UnknownType | UnionType _ => false | _ => true end.

Lemma flatten_app l1 l2 : flatten_types (l1 ++ l2) = flatten_types l1 ++ flatten_types l2.
Proof. induction l1 as [|[] l1 IH]; simpl; rewrite ?IH, <- ?app_assoc; done. Qed.

Lemma flatten_simple l : Forall (λ t, simple_type t = true) l → flatten_types l = l.
Proof. induction 1 as [|[] l Ht _ IH]; simpl in *; by rewrite ?IH. Qed.

(** Well-formed results of this file: every union has at least two simple
options, in strictly increasing order of their text. *)
Inductive canonical : TypeNode → Prop :=
  | canonical_unknown : canonical UnknownType
  | canonical_named n : canonical (NamedType n)
  | canonical_variable n : canonical (TypeVariable n)
  | canonical_generic n args : Forall canonical args → canonical (GenericType n args)
  | canonical_union options :
      (2 <= length options)%nat →
      StronglySorted ustr_le (render_type <$> options) →
      NoDup (render_type <$> options) →
      Forall (λ t, simple_type t = true) options →
      Forall canonical options →
      canonical (UnionType options).

Lemma flatten_canonical types :
  Forall canonical types →
  Forall (λ t, simple_type t = true) (flatten_types types) ∧ Forall canonical (flatten_types types).
Proof.
  induction 1 as [|t types Ht _ [IH1 IH2]]; [by split|].
  destruct Ht; simpl; split; auto using canonical_named, canonical_variable, canonical_generic;
    apply Forall_app; auto.
Qed.

Lemma union_type_canonical types : Forall canonical types → canonical (union_type types).
Proof.
  intros H. apply flatten_canonical in H as [H1 H2]. rewrite union_type_options.
  pose proof (union_options_render (flatten_types types)) as Hr.
  assert (Forall (λ t, simple_type t = true) (union_options (flatten_types types)) ∧
          Forall canonical (union_options (flatten_types types))) as [H1' H2'].
  { rewrite !Forall_forall in *. split; intros t Ht%union_options_elem; auto. }
  destruct (union_options _) as [|t [|t' l]] eqn:E; [constructor|by inversion H2'|].
  constructor; [simpl; lia|rewrite Hr; apply union_keys_sorted|rewrite Hr; apply union_keys_NoDup|done..].
Qed.

(** A canonical union is its own union. *)
Lemma union_options_id l :
  StronglySorted ustr_le (render_type <$> l) → NoDup (render_type <$> l) → union_options l = l.
Proof.
  intros Hs Hn. unfold union_options.
  assert (union_keys l = render_type <$> l) as ->.
  { apply strongly_sorted_unique; [apply union_keys_sorted|done|].
    apply NoDup_Permutation; [apply union_keys_NoDup|done|]. apply union_keys_elem. }
  clear Hs. induction l as [|t l IH]; [done|]. cbn [fmap list_fmap omap list_omap].
  rewrite first_with_cons. case_decide; [|done]. f_equal.
  inversion Hn as [|? ? Ht Hn']; subst. rewrite <- (IH Hn') at 2.
  apply list_omap_ext, Forall_Forall2_diag, Forall_forall. intros key Hkey.
  rewrite first_with_cons. case_decide; [|done]. by subst.
Qed.

Lemma union_type_id options :
  canonical (UnionType options) → union_type options = UnionType options.
Proof.
  inversion 1 as [| | | |? Hlen Hs Hn Hsimple _]; subst.
  rewrite union_type_options, flatten_simple, union_options_id by done.
  by destruct options as [|? [|??]]; simpl in Hlen; [lia..|].
Qed.

(** * Splitting rendered text *)

(** The bracket depth after reading [s] from depth [d], when no bracket closes
below zero and no [head] occurs at depth zero. *)
Fixpoint scan (head d : Z) (s : ustring) : option Z :=
  match s with
  | [] => Some d
  | c :: s =>
      if c =? ch "<" then scan head (d + 1) s
      else if c =? ch ">" then if d - 1 <? 0 then None else scan head (d - 1) s
      else if (d =? 0) && (c =? head) then None
      else scan head d s
  end.

Lemma scan_app head d s1 s2 : scan head d (s1 ++ s2) = scan head d s1 ≫= λ d', scan head d' s2.
Proof.
  revert d. induction s1 as [|c s1 IH]; intros d; [done|]. cbn [app scan].
  repeat case_match; done || apply IH.
Qed.

Lemma split_scan head sep f s rest cur d d' parts :
  scan head d s = Some d' →
  split_loop (length s + f) (head :: sep) (s ++ rest) cur d parts =
  split_loop f (head :: sep) rest (cur ++ s) d' parts.
Proof.
  revert cur d. induction s as [|c s IH]; intros cur d; cbn [scan app length Nat.add split_loop].
  { intros [= ->]. by rewrite app_nil_r. }
  cbn [starts_with]. destruct (c =? _); [|destruct (c =? _)].
  - intros H. rewrite (IH _ (d + 1)) by done. by rewrite <- app_assoc.
  - destruct (d - 1 <? 0); [done|]. intros H. rewrite (IH _ (d - 1)) by done. by rewrite <- app_assoc.
  - rewrite (Z.eqb_sym head c). destruct (_ && (c =? head)) eqn:E; [done|].
    intros H. destruct (d =? 0), (c =? head); simpl in E |- *; try done;
      rewrite IH by done; by rewrite <- app_assoc.
Qed.

Lemma split_loop_end fuel sep cur parts :
  split_loop (S fuel) sep [] cur 0 parts = Done (add_part parts cur).
Proof. done. Qed.

(** Joining chunks with the separator and splitting gives the chunks back. *)
Lemma split_join head sep chunks cur parts f :
  head ≠ ch "<" → head ≠ ch ">" → chunks ≠ [] →
  Forall (λ s, scan head 0 s = Some 0) chunks →
  (length (join (head :: sep) chunks) < f)%nat →
  split_loop f (head :: sep) (join (head :: sep) chunks) cur 0 parts =
  Done (foldl add_part parts (match chunks with [] => [] | s :: l => (cur ++ s) :: l end)).
Proof.
  intros Hh1 Hh2 Hne Hs. revert cur parts f Hne.
  induction Hs as [|s chunks Hs Hl IH]; intros cur parts f Hne Hf; [done|].
  destruct chunks as [|s' chunks].
  - cbn [join] in *. replace f with (length s + S (f - length s - 1))%nat by lia.
    pose proof (split_scan head sep (S (f - length s - 1)) s [] cur 0 0 parts Hs) as E.
    rewrite app_nil_r in E. by rewrite E.
  - change (join (head :: sep) (s :: s' :: chunks))
      with (s ++ (head :: sep) ++ join (head :: sep) (s' :: chunks)) in *.
    rewrite !length_app in Hf. cbn [length] in Hf.
    replace f with (length s + S (f - length s - 1))%nat by lia.
    rewrite (split_scan head sep _ s _ _ 0 0) by done.
    cbn [app split_loop].
    destruct (Z.eqb_spec head (ch "<")); [done|]. destruct (Z.eqb_spec head (ch ">")); [done|].
    rewrite app_comm_cons, starts_with_app, drop_app_length. cbn [Z.eqb andb].
    rewrite IH by (done || lia). done.
Qed.

Lemma split_top_level_join head sep chunks :
  head ≠ ch "<" → head ≠ ch ">" → chunks ≠ [] →
  Forall (λ s, scan head 0 s = Some 0) chunks →
  Forall (λ s, strip s ≠ []) chunks →
  split_top_level (join (head :: sep) chunks) (head :: sep) = Done (strip <$> chunks).
Proof.
  intros Hh1 Hh2 Hne Hs Hstrip. unfold split_top_level.
  rewrite split_join by (done || lia). f_equal.
  assert (∀ parts, foldl add_part parts chunks = parts ++ (strip <$> chunks)) as H.
  { clear Hne Hs. induction Hstrip as [|s chunks H _ IH]; intros parts; cbn [foldl fmap list_fmap].
    - by rewrite app_nil_r.
    - rewrite IH. unfold add_part. destruct (strip s); [done|]. by rewrite <- app_assoc. }
  change (strip <$> chunks) with ([] ++ (strip <$> chunks)). rewrite <- H. by destruct chunks.
Qed.

(** * Well-formed closed types *)

Definition name_char (c : Z) : bool :=
  negb (py_isspace c) && negb (c =? ch "<") && negb (c =? ch ">") && negb (c =? ch ",").

Definition type_name (n : ustring) : Prop := n ≠ [] ∧ Forall (λ c, name_char c = true) n.

(** The types a program can write: no type variable, names without brackets,
commas or white space, generics with arguments, canonical unions. *)
Inductive well_formed : TypeNode → Prop :=
  | wf_unknown : well_formed UnknownType
  | wf_named n : type_name n → n ≠ u "_" → well_formed (NamedType n)
  | wf_generic n args :
      type_name n → args ≠ [] → Forall well_formed args → well_formed (GenericType n args)
  | wf_union options :
      (2 <= length options)%nat →
      StronglySorted ustr_le (render_type <$> options) →
      NoDup (render_type <$> options) →
      Forall (λ t, simple_type t = true) options →
      Forall well_formed options →
      well_formed (UnionType options).

Lemma well_formed_canonical t : well_formed t → canonical t.
Proof.
  induction t using TypeNode_nested_ind; inversion 1; subst; constructor; try done;
    rewrite Forall_forall in *; auto.
Qed.

Lemma name_char_neq c : name_char c = true →
  py_isspace c = false ∧ c ≠ ch "<" ∧ c ≠ ch ">" ∧ c ≠ ch ",".
Proof. unfold name_char. intros H. bool_to_prop. auto. Qed.

Lemma scan_name head d n :
  (head = ch "," ∨ py_isspace head = true) → type_name n → scan head d n = Some d.
Proof.
  intros Hh [_ Hn]. induction Hn as [|c n Hc _ IH]; [done|]. cbn [scan].
  apply name_char_neq in Hc as (H1 & H2 & H3 & H4).
  destruct (Z.eqb_spec c (ch "<")); [done|]. destruct (Z.eqb_spec c (ch ">")); [done|].
  destruct (Z.eqb_spec c head) as [->|]; [|by rewrite andb_false_r].
  destruct Hh; congruence.
Qed.

Lemma type_name_stripped n : type_name n → stripped n.
Proof.
  intros [Hn Hc]. split.
  - destruct n as [|c n]; [done|]. inversion Hc; subst. by apply name_char_neq.
  - destruct n as [|c n _] using rev_ind; [done|]. rewrite last_snoc.
    apply Forall_app in Hc as [_ Hc]. inversion Hc; subst. by apply name_char_neq.
Qed.

Lemma stripped_app s1 s2 s3 : stripped s1 → stripped s3 → stripped (s1 ++ s2 ++ s3).
Proof.
  intros [H1 _] [_ H2]. split; [by destruct s1|].
  rewrite app_assoc, last_app. by destruct (last s3).
Qed.

Lemma join_stripped sep (parts : list ustring) :
  parts ≠ [] → Forall stripped parts → stripped (join sep parts).
Proof.
  intros Hne H. induction H as [|p parts Hp Hl IH]; [done|].
  destruct parts as [|p' parts]; [done|].
  change (stripped (p ++ sep ++ join sep (p' :: parts))). apply stripped_app; auto.
Qed.

Lemma render_stripped t : well_formed t → stripped (render_type t).
Proof.
  induction t as [|n|n|n args IH|options IH] using TypeNode_nested_ind; inversion 1; subst.
  - done.
  - by apply type_name_stripped.
  - cbn [render_type]. rewrite (app_assoc (u "<")).
    apply stripped_app; [by apply type_name_stripped|done].
  - cbn [render_type]. apply join_stripped.
    + by destruct options; simpl in *; [lia|].
    + apply Forall_fmap. rewrite Forall_forall in *. intros x Hx. apply IH; auto.
Qed.

Lemma scan_join head d sep (parts : list ustring) :
  scan head d sep = Some d → Forall (λ p, scan head d p = Some d) parts →
  scan head d (join sep parts) = Some d.
Proof.
  intros Hsep H. induction H as [|p parts Hp Hl IH]; [done|].
  destruct parts as [|p' parts]; [done|].
  change (scan head d (p ++ sep ++ join sep (p' :: parts)) = Some d).
  rewrite scan_app, Hp. cbn [mbind option_bind]. rewrite scan_app, Hsep. exact IH.
Qed.

(** Rendered types are balanced, and commas never occur at the top level; nor do
spaces, except between the options of a union. *)
Lemma scan_render t head d :
  well_formed t → 0 <= d →
  (head = ch "," ∨ (head = 32 ∧ (d > 0 ∨ simple_type t = true ∨ t = UnknownType))) →
  scan head d (render_type t) = Some d.
Proof.
  intros Hwf. revert head d.
  induction t as [|n|n|n args IH|options IH] using TypeNode_nested_ind; intros head d Hd Hh;
    inversion Hwf; subst; cbn [render_type].
  - unfold u. cbn. destruct Hh as [->|[-> _]]; by rewrite andb_false_r.
  - apply scan_name; [|done]. destruct Hh as [->|[-> _]]; auto.
  - rewrite scan_app, scan_name by (done || destruct Hh as [->|[-> _]]; auto).
    change (u "<" ++ ?l) with (ch "<" :: l). cbn [mbind option_bind scan].
    rewrite Z.eqb_refl, scan_app, scan_join.
    + cbn. destruct (Z.ltb_spec (d + 1 - 1) 0); [lia|]. f_equal. lia.
    + cbn. destruct (Z.eqb_spec (d + 1) 0); [lia|]. done.
    + apply Forall_fmap. rewrite Forall_forall in *. intros x Hx.
      apply IH; [done|auto|lia|]. destruct Hh as [->|[-> _]]; [auto|right; split; [done|left; lia]].
  - apply scan_join.
    + cbn. destruct Hh as [->|[-> [Hg|[?|?]]]]; [by rewrite !andb_false_r| |done|done].
      destruct (Z.eqb_spec d 0); [lia|]. done.
    + apply Forall_fmap. rewrite Forall_forall in *. intros x Hx.
      apply IH; [done|auto|done|]. destruct Hh as [->|[-> _]]; [by left|].
      right. split; [done|]. right. left. auto.
Qed.

(** * Parsing rendered types *)

Lemma join_length_in sep (parts : list ustring) p : p ∈ parts → (length p <= length (join sep parts))%nat.
Proof.
  induction parts as [|q parts IH]; intros Hp; [by apply not_elem_of_nil in Hp|].
  destruct parts as [|q' parts].
  - apply list_elem_of_singleton in Hp as ->. done.
  - change (length p <= length (q ++ sep ++ join sep (q' :: parts)))%nat. rewrite !length_app.
    apply elem_of_cons in Hp as [->|Hp]; [lia|]. apply IH in Hp. lia.
Qed.

Lemma outcome_map_fmap {E A B} (f : B → outcome E A) (g : A → B) l :
  (∀ x, x ∈ l → f (g x) = Done x) → outcome_map f (g <$> l) = Done l.
Proof.
  induction l as [|x l IH]; intros H; [done|]. cbn. rewrite H by left. cbn.
  rewrite IH; [done|]. intros y Hy. apply H. by right.
Qed.

Lemma simple_split t :
  well_formed t → simple_type t = true →
  split_top_level (render_type t) (u " or ") = Done [render_type t].
Proof.
  intros Hwf Ht. pose proof (render_stripped t Hwf) as Hs.
  pose proof (split_top_level_join 32 (u "or ") [render_type t]) as H.
  cbn [join fmap list_fmap] in H. rewrite (strip_id _ Hs) in H. apply H; try done.
  - constructor; [|constructor]. apply scan_render; [done|lia|]. right. auto.
  - constructor; [|constructor]. rewrite (strip_id _ Hs). by apply stripped_nonnil.
Qed.

Lemma union_split options :
  well_formed (UnionType options) →
  split_top_level (render_type (UnionType options)) (u " or ") = Done (render_type <$> options).
Proof.
  inversion 1 as [| | |? Hlen _ _ Hsimple Hwf]; subst. cbn [render_type].
  pose proof (split_top_level_join 32 (u "or ") (render_type <$> options)) as H'.
  change (32 :: u "or ") with (u " or ") in H'. rewrite H'; [| |done|..].
  - f_equal. rewrite <- list_fmap_compose. apply list_fmap_ext. intros i t Ht. cbn.
    apply strip_id, render_stripped. by eapply Forall_lookup_1 in Hwf.
  - done.
  - by destruct options; simpl in *; [lia|].
  - apply Forall_fmap. rewrite Forall_forall in *. intros t Ht. cbn.
    apply scan_render; [auto|lia|]. right. split; [done|]. right. left. auto.
  - apply Forall_fmap. rewrite Forall_forall in *. intros t Ht. cbn.
    pose proof (render_stripped t (Hwf _ Ht)). rewrite strip_id by done. by apply stripped_nonnil.
Qed.

(** [", ".join] is [","] between padded chunks. *)
Lemma join_padded (p : ustring) (parts : list ustring) :
  join (u ", ") (p :: parts) = join (u ",") (p :: (cons 32 <$> parts)).
Proof.
  revert p. induction parts as [|q parts IH]; intros p; [done|].
  change (p ++ u ", " ++ join (u ", ") (q :: parts) =
          p ++ u "," ++ join (u ",") ((32 :: q) :: (cons 32 <$> parts))).
  rewrite IH. cbn. by destruct parts.
Qed.

Lemma arguments_split args :
  args ≠ [] → Forall well_formed args →
  split_top_level (join (u ", ") (render_type <$> args)) (u ",") = Done (render_type <$> args).
Proof.
  intros Hne Hwf. destruct args as [|t args]; [done|]. cbn [fmap list_fmap].
  rewrite join_padded. apply Forall_cons in Hwf as [Ht Hwf].
  pose proof (render_stripped t Ht) as Hst.
  assert (∀ x, x ∈ args → strip (32 :: render_type x) = render_type x) as Hpad.
  { intros x Hx. rewrite strip_pad by done. apply strip_id, render_stripped.
    rewrite Forall_forall in Hwf. auto. }
  rewrite Forall_forall in Hwf.
  rewrite (split_top_level_join (ch ",") []); try done.
  - cbn [fmap list_fmap]. rewrite strip_id by done. do 2 f_equal.
    rewrite <- !list_fmap_compose. apply list_fmap_ext. intros i x Hx. cbn.
    apply Hpad. by eapply list_elem_of_lookup_2.
  - constructor; [apply scan_render; auto; lia|]. rewrite <- list_fmap_compose.
    apply Forall_fmap, Forall_forall. intros x Hx. cbn. apply scan_render; auto; lia.
  - constructor; [rewrite strip_id by done; by apply stripped_nonnil|].
    rewrite <- list_fmap_compose. apply Forall_fmap, Forall_forall. intros x Hx. cbn.
    rewrite Hpad by done. apply stripped_nonnil, render_stripped. auto.
Qed.

Lemma join_length_in_strict sep (parts : list ustring) p :
  p ∈ parts → (2 <= length parts)%nat → sep ≠ [] → (length p < length (join sep parts))%nat.
Proof.
  intros Hp Hlen Hsep. destruct parts as [|q [|q' parts]]; simpl in Hlen; [lia..|].
  change (length p < length (q ++ sep ++ join sep (q' :: parts)))%nat. rewrite !length_app.
  assert (0 < length sep)%nat by (destruct sep; [done|simpl; lia]).
  apply elem_of_cons in Hp as [->|Hp]; [lia|]. apply (join_length_in sep) in Hp. lia.
Qed.

Lemma name_no_bracket n : type_name n → existsb (Z.eqb (ch "<")) n = false.
Proof.
  intros [_ H]. induction H as [|c n Hc _ IH]; [done|]. cbn [existsb]. rewrite IH, orb_false_r.
  apply name_char_neq in Hc as (_ & Hc & _). by apply Z.eqb_neq.
Qed.

Lemma name_span n rest :
  type_name n → span (λ c, negb (c =? ch "<")) (n ++ ch "<" :: rest) = (n, ch "<" :: rest).
Proof.
  intros [_ H]. apply span_stop; [|done]. eapply Forall_impl; [done|]. intros c Hc.
  apply name_char_neq in Hc as (_ & Hc & _). bool_to_prop. done.
Qed.

Lemma parse_generic n args fuel :
  well_formed (GenericType n args) →
  (∀ t, t ∈ args → parse_type_text fuel (render_type t) = Done t) →
  parse_type_text (S fuel) (render_type (GenericType n args)) = Done (GenericType n args).
Proof.
  intros Hwf IH. inversion Hwf as [| |? ? Hn Hne Hargs|]; subst.
  pose proof (render_stripped _ Hwf) as Hs. pose proof (simple_split _ Hwf eq_refl) as Hsplit.
  cbn [parse_type_text]. rewrite strip_id by done. rewrite Hsplit.
  set (body := join (u ", ") (render_type <$> args)).
  assert (render_type (GenericType n args) = n ++ ch "<" :: body ++ [ch ">"]) as -> by done.
  rewrite bool_decide_false by (by destruct n).
  rewrite bool_decide_false.
  2:{ intros E. destruct n as [|c [|c' n]]; simpl in E; [by destruct Hn|..]; by destruct body. }
  cbn [orb mbind outcome_bind length Nat.ltb Nat.leb].
  rewrite existsb_app, orb_comm. cbn [existsb]. rewrite Z.eqb_refl. cbn [orb negb].
  rewrite app_comm_cons, app_assoc, last_snoc, bool_decide_true by done. cbn [negb].
  rewrite <- app_assoc, <- app_comm_cons, name_span by done.
  rewrite strip_id by by apply type_name_stripped. rewrite bool_decide_false by by destruct Hn.
  cbn [tail]. rewrite removelast_last. unfold body. rewrite arguments_split by done.
  cbn [mbind outcome_bind]. rewrite outcome_map_fmap by done. by destruct args.
Qed.

Lemma parse_render t :
  well_formed t → ∀ fuel, (length (render_type t) < fuel)%nat →
  parse_type_text fuel (render_type t) = Done t.
Proof.
  induction t as [|n|n|n args IH|options IH] using TypeNode_nested_ind;
    intros Hwf [|fuel] Hf; try lia; pose proof (render_stripped _ Hwf) as Hs.
  - done.
  - inversion Hwf as [|? Hn Hu| |]; subst. pose proof (simple_split _ Hwf eq_refl) as Hsplit.
    cbn [render_type parse_type_text] in *. rewrite strip_id, Hsplit by done.
    rewrite bool_decide_false by by apply stripped_nonnil. rewrite bool_decide_false by done.
    cbn. by rewrite name_no_bracket.
  - inversion Hwf.
  - apply parse_generic; [done|]. intros t Ht. inversion Hwf as [| |? ? Hn Hne Hargs|]; subst.
    rewrite Forall_forall in *. apply IH; [done|auto|].
    cbn [render_type] in Hf. rewrite !length_app in Hf.
    pose proof (join_length_in (u ", ") (render_type <$> args) (render_type t)
      (list_elem_of_fmap_2 _ _ _ Ht)).
    change (length (u "<")) with 1%nat in Hf. lia.
  - inversion Hwf as [| | |? Hlen Hsort Hnd Hsimple Hopts]; subst.
    cbn [parse_type_text]. rewrite strip_id, union_split by done.
    pose proof (stripped_nonnil _ Hs). rewrite bool_decide_false by done.
    rewrite bool_decide_false.
    2:{ destruct options as [|t1 [|t2 l]]; simpl in Hlen; [lia..|]. intros E.
        apply (f_equal length) in E. cbn in E.
        rewrite !length_app in E. cbn in E. lia. }
    cbn [orb mbind outcome_bind]. rewrite length_fmap.
    destruct (Nat.ltb_spec 1 (length options)); [|lia].
    rewrite outcome_map_fmap; cbn [mbind outcome_bind].
    + rewrite union_type_id; [done|]. by apply well_formed_canonical.
    + intros t Ht. rewrite Forall_forall in *. apply IH; [done|auto|].
      cbn [render_type] in Hf.
      pose proof (join_length_in_strict (u " or ") (render_type <$> options) (render_type t)
        (list_elem_of_fmap_2 _ _ _ Ht) ltac:(by rewrite length_fmap) ltac:(done)). lia.
Qed.

(** Well-formed types are determined by their text. *)
Lemma render_inj t1 t2 :
  well_formed t1 → well_formed t2 → render_type t1 = render_type t2 → t1 = t2.
Proof.
  intros H1 H2 E. pose proof (parse_render t1 H1 (S (length (render_type t1))) ltac:(lia)) as P1.
  rewrite E, (parse_render t2 H2) in P1 by lia. by injection P1.
Qed.

(** * Termination of the parser *)

Fixpoint total_length (parts : list ustring) : nat :=
  match parts with [] => 0 | p :: parts => length p + total_length parts end%nat.

Lemma total_length_app l1 l2 : total_length (l1 ++ l2) = (total_length l1 + total_length l2)%nat.
Proof. induction l1; simpl in *; lia. Qed.

Lemma total_length_in p parts : p ∈ parts → (length p <= total_length parts)%nat.
Proof.
  intros (l1 & l2 & ->)%list_elem_of_split. rewrite total_length_app. simpl. lia.
Qed.

Lemma add_part_bound (sep : ustring) parts cur :
  (total_length (add_part parts cur) + length sep * length (add_part parts cur) <=
   total_length parts + length sep * length parts + length cur + length sep)%nat.
Proof.
  unfold add_part. pose proof (strip_length cur). destruct (strip cur) as [|c s]; [lia|].
  rewrite total_length_app, length_app.
  assert (total_length [c :: s] = length (c :: s))%nat as -> by (simpl; lia).
  cbn [length] in *. lia.
Qed.

Lemma starts_with_length prefix s :
  starts_with prefix s = true → (length prefix <= length s)%nat.
Proof.
  revert s. induction prefix as [|c prefix IH]; intros [|c' s] H; simpl in *; try lia; try done.
  bool_to_prop. apply IH in H0. lia.
Qed.

(** Each separator that is read pays for one part. *)
Lemma split_loop_bound fuel sep rest cur depth parts parts' :
  split_loop fuel sep rest cur depth parts = Done parts' →
  (total_length parts' + length sep * length parts' <=
   total_length parts + length sep * length parts + length cur + length rest + length sep)%nat.
Proof.
  revert rest cur depth parts. induction fuel as [|fuel IH]; intros rest cur depth parts; [done|].
  cbn [split_loop]. destruct rest as [|c rest].
  - destruct (negb _); [done|]. intros [= <-]. pose proof (add_part_bound sep parts cur). cbn. lia.
  - destruct (c =? ch "<"); [|destruct (c =? ch ">"); [destruct (_ <? 0); [done|]|
      destruct (_ && _) eqn:E]].
    3: { intros H%IH. bool_to_prop. apply starts_with_length in H1.
         pose proof (add_part_bound sep parts cur). rewrite length_drop in H. cbn [length] in *. lia. }
    all: intros H%IH; rewrite length_app in H; cbn [length] in *; lia.
Qed.

Lemma split_loop_fuel fuel sep rest cur depth parts :
  (length rest < fuel)%nat → sep ≠ [] → split_loop fuel sep rest cur depth parts ≠ NoFuel.
Proof.
  intros Hf Hsep. revert rest cur depth parts Hf.
  induction fuel as [|fuel IH]; intros rest cur depth parts Hf; [lia|].
  cbn [split_loop]. destruct rest as [|c rest]; [by destruct (negb _)|]. cbn [length] in Hf.
  assert (0 < length sep)%nat by (destruct sep; [done|simpl; lia]).
  repeat case_match; try done; apply IH; rewrite ?length_drop; cbn [length]; lia.
Qed.

Lemma split_part_length text sep parts p :
  split_top_level text sep = Done parts → sep ≠ [] → (2 <= length parts)%nat → p ∈ parts →
  (length p < length text)%nat.
Proof.
  intros H%split_loop_bound Hsep Hlen Hp. apply total_length_in in Hp.
  assert (0 < length sep)%nat by (destruct sep; [done|simpl; lia]).
  change (total_length []) with 0%nat in H. change (length (@nil ustring)) with 0%nat in H.
  change (length (@nil Z)) with 0%nat in H. nia.
Qed.

Lemma split_part_length_le text sep parts p :
  split_top_level text sep = Done parts → p ∈ parts → (length p <= length text)%nat.
Proof.
  intros H%split_loop_bound Hp. pose proof (total_length_in _ _ Hp).
  assert (0 < length parts)%nat by (destruct parts; [by apply not_elem_of_nil in Hp|simpl; lia]).
  change (total_length []) with 0%nat in H. change (length (@nil ustring)) with 0%nat in H.
  change (length (@nil Z)) with 0%nat in H. nia.
Qed.

Lemma parse_type_text_fuel fuel text :
  (length text < fuel)%nat → parse_type_text fuel text ≠ NoFuel.
Proof.
  revert text. induction fuel as [|fuel IH]; intros text Hf; [lia|]. cbn [parse_type_text].
  pose proof (strip_length text). destruct (bool_decide (strip text = [])) eqn:Hne; [done|].
  apply bool_decide_eq_false in Hne.
  assert (0 < length (strip text))%nat by (destruct (strip text); [done|simpl; lia]).
  cbn [orb]. destruct (bool_decide (strip text = _)); [done|].
  destruct (split_top_level (strip text) (u " or ")) as [ps| |] eqn:Hs; cbn [mbind outcome_bind];
    [|done|by apply split_loop_fuel in Hs; [|lia|done]].
  destruct (Nat.ltb_spec 1 (length ps)).
  { destruct (outcome_map _ _) eqn:Hm; cbn; [done..|]. eapply outcome_map_no_fuel in Hm; [done|].
    intros p Hp. apply IH. eapply split_part_length in Hs; [|done|lia|done]. lia. }
  destruct (negb (existsb _ _)); [done|]. destruct (negb (bool_decide (last _ = _))); [done|].
  destruct (span _ _) as [name rest] eqn:Hspan.
  pose proof (span_app (λ c, negb (c =? ch "<")) (strip text)) as Happ.
  rewrite Hspan in Happ. cbn [fst snd] in Happ.
  destruct (bool_decide _) eqn:Hn; [done|].
  assert (length (removelast (tail rest)) < fuel)%nat as Hinner.
  { pose proof (f_equal length Happ) as Hl. rewrite length_app in Hl.
    rewrite length_removelast. destruct rest; cbn [tail length] in *; lia. }
  destruct (split_top_level _ (u ",")) as [ps'| |] eqn:Hs'; cbn [mbind outcome_bind];
    [|done|by apply split_loop_fuel in Hs'; [|lia|done]].
  destruct (outcome_map _ _) as [args| |] eqn:Hm; cbn; [by destruct args|done|].
  eapply outcome_map_no_fuel in Hm; [done|]. intros p Hp. apply IH.
  eapply split_part_length_le in Hs'; [|done]. lia.
Qed.

Lemma parse_type_text_canonical fuel text t :
  parse_type_text fuel text = Done t → canonical t.
Proof.
  revert text t. induction fuel as [|fuel IH]; intros text t; [done|]. cbn [parse_type_text].
  destruct (_ || _); [intros [= <-]; constructor|].
  destruct (split_top_level _ _) as [ps| |]; cbn [mbind outcome_bind]; [|done..].
  destruct (1 <? length ps)%nat.
  { destruct (outcome_map _ _) as [ts| |] eqn:Hm; cbn; [|done..]. intros [= <-].
    apply union_type_canonical. eapply outcome_map_Forall; [|done]. intros x y _. apply IH. }
  destruct (negb (existsb _ _)); [intros [= <-]; constructor|].
  destruct (negb _); [done|]. destruct (span _ _) as [name rest].
  destruct (bool_decide _); [done|].
  destruct (split_top_level _ (u ",")) as [ps'| |]; cbn [mbind outcome_bind]; [|done..].
  destruct (outcome_map _ _) as [args| |] eqn:Hm; cbn; [|done..].
  eapply (outcome_map_Forall _ canonical) in Hm; [|intros x y _; apply IH].
  destruct args; [done|]. intros [= <-]. by constructor.
Qed.

(** * Variables *)

Lemma flatten_well_formed types t :
  Forall well_formed types → t ∈ flatten_types types → well_formed t.
Proof.
  intros W. induction W as [|t0 types Ht0 _ IH]; [by intros ?%not_elem_of_nil|].
  pose proof Ht0 as Ht0'. destruct Ht0 as [| | |options]; cbn [flatten_types];
    rewrite ?elem_of_cons, ?elem_of_app; [auto|by intros [->|?]; auto..|].
  intros [Hin|?]; [|auto]. match goal with H : Forall well_formed options |- _ => rewrite Forall_forall in H; auto end.
Qed.

(** The options of a union of written types are all its flat members. *)
Lemma union_options_all l t :
  (∀ t', t' ∈ l → well_formed t') → t ∈ l → t ∈ union_options l.
Proof.
  intros W Ht. apply list_elem_of_omap. exists (render_type t).
  split; [apply union_keys_elem; by apply list_elem_of_fmap_2|].
  destruct (first_with (render_type t) l) as [t'|] eqn:E.
  - apply first_with_Some in E as [Ht' Hr]. f_equal. apply render_inj; auto.
  - apply first_with_None in E. destruct E. by apply list_elem_of_fmap_2.
Qed.

Lemma union_type_unresolved types x :
  x ∈ unresolved_type_variables (union_type types) →
  ∃ t, t ∈ types ∧ x ∈ unresolved_type_variables t.
Proof.
  intros H. assert (∃ t, t ∈ flatten_types types ∧ x ∈ unresolved_type_variables t) as (t & Ht & Hx).
  { rewrite union_type_options in H. pose proof (union_options_elem (flatten_types types)) as He.
    destruct (union_options _) as [|t [|t' l]]; [by apply not_elem_of_empty in H| |].
    - exists t. split; [apply He; left|done].
    - cbn [unresolved_type_variables] in H. apply elem_of_union_list in H as (X & HX & Hx).
      apply list_elem_of_fmap in HX as (t0 & -> & Ht0). exists t0. auto. }
  clear H. induction types as [|t0 types IH]; [by apply not_elem_of_nil in Ht|].
  assert (t ∈ flatten_types types ∨ t = t0 ∨ ∃ l, t0 = UnionType l ∧ t ∈ l) as [Ht'|[->|(l & -> & Hl)]].
  { destruct t0; cbn in Ht; rewrite ?elem_of_app in Ht; set_solver. }
  - destruct (IH Ht') as (t1 & ? & ?). exists t1. split; [by right|done].
  - exists t0. split; [left|done].
  - exists (UnionType l). split; [left|]. cbn. apply elem_of_union_list.
    exists (unresolved_type_variables t). split; [by apply list_elem_of_fmap_2|done].
Qed.

Lemma substitute_unresolved_in mapping t x :
  x ∈ unresolved_type_variables (substitute_type mapping t) →
  ∃ n, n ∈ unresolved_type_variables t ∧
    match mapping !! n with None => x = n | Some t' => x ∈ unresolved_type_variables t' end.
Proof.
  revert x. induction t as [|n|n|n args IH|options IH] using TypeNode_nested_ind;
    intros x Hx; cbn [substitute_type unresolved_type_variables] in *; try set_solver.
  - exists n. split; [set_solver|]. destruct (mapping !! n); cbn in Hx; set_solver.
  - apply elem_of_union_list in Hx as (X & HX & Hx).
    apply list_elem_of_fmap in HX as (t0 & -> & Ht0).
    apply list_elem_of_fmap in Ht0 as (t1 & -> & Ht1). rewrite Forall_forall in IH.
    destruct (IH _ Ht1 x Hx) as (n' & Hn & Hm). exists n'. split; [|done].
    apply elem_of_union_list. eexists. split; [by apply list_elem_of_fmap_2|done].
  - apply union_type_unresolved in Hx as (t0 & Ht0 & Hx).
    apply list_elem_of_fmap in Ht0 as (t1 & -> & Ht1). rewrite Forall_forall in IH.
    destruct (IH _ Ht1 x Hx) as (n' & Hn & Hm). exists n'. split; [|done].
    apply elem_of_union_list. eexists. split; [by apply list_elem_of_fmap_2|done].
Qed.

Lemma union_type_closed types :
  (∀ t, t ∈ types → unresolved_type_variables t = ∅) → unresolved_type_variables (union_type types) = ∅.
Proof.
  intros H. apply set_eq. intros x. split; [|by intros ?%not_elem_of_empty].
  intros (t & Ht & Hx)%union_type_unresolved. by rewrite H in Hx.
Qed.

Lemma parse_type_text_closed fuel text t :
  parse_type_text fuel text = Done t → unresolved_type_variables t = ∅.
Proof.
  revert text t. induction fuel as [|fuel IH]; intros text t; [done|]. cbn [parse_type_text].
  destruct (_ || _); [by intros [= <-]|].
  destruct (split_top_level _ _) as [ps| |]; cbn [mbind outcome_bind]; [|done..].
  destruct (1 <? length ps)%nat.
  { destruct (outcome_map _ _) as [ts| |] eqn:Hm; cbn; [|done..]. intros [= <-].
    apply union_type_closed. apply Forall_forall. eapply outcome_map_Forall; [|done]. intros x y _. apply IH. }
  destruct (negb (existsb _ _)); [by intros [= <-]|].
  destruct (negb _); [done|]. destruct (span _ _) as [name rest].
  destruct (bool_decide _); [done|].
  destruct (split_top_level _ (u ",")) as [ps'| |]; cbn [mbind outcome_bind]; [|done..].
  destruct (outcome_map _ _) as [args| |] eqn:Hm; cbn; [|done..].
  eapply (outcome_map_Forall _ (λ t, unresolved_type_variables t = ∅)) in Hm; [|intros x y _; apply IH].
  destruct args; [done|]. intros [= <-]. cbn [unresolved_type_variables]. apply set_eq. intros x.
  split; [|by intros ?%not_elem_of_empty]. intros (X & HX & Hx)%elem_of_union_list.
  apply list_elem_of_fmap in HX as (t' & -> & Ht'). rewrite Forall_forall in Hm. by rewrite Hm in Hx.
Qed.

Lemma bind_unresolved names t x :
  x ∈ unresolved_type_variables (bind_type_variables names t) →
  x ∈ names ∨ x ∈ unresolved_type_variables t.
Proof.
  revert x. induction t as [|n|n|n args IH|options IH] using TypeNode_nested_ind; intros x Hx;
    cbn [bind_type_variables unresolved_type_variables] in *; try (rewrite Forall_forall in IH); try set_solver.
  - case_bool_decide; [cbn in Hx; set_solver|by right].
  - apply elem_of_union_list in Hx as (X & HX & Hx). apply list_elem_of_fmap in HX as (t0 & -> & Ht0).
    apply list_elem_of_fmap in Ht0 as (t1 & -> & Ht1). destruct (IH _ Ht1 x Hx); [by left|right].
    apply elem_of_union_list. eexists. split; [by apply list_elem_of_fmap_2|done].
  - apply union_type_unresolved in Hx as (t0 & Ht0 & Hx).
    apply list_elem_of_fmap in Ht0 as (t1 & -> & Ht1). destruct (IH _ Ht1 x Hx); [by left|right].
    apply elem_of_union_list. eexists. split; [by apply list_elem_of_fmap_2|done].
Qed.

Lemma fmap_ext_in {A B} (f g : A → B) (l : list A) : (∀ x, x ∈ l → f x = g x) → f <$> l = g <$> l.
Proof. intros H. apply list_fmap_ext. intros i x Hx. apply H. by eapply list_elem_of_lookup_2. Qed.

Lemma fmap_id_in {A} (f : A → A) (l : list A) : (∀ x, x ∈ l → f x = x) → f <$> l = l.
Proof. intros H. rewrite <- (list_fmap_id l) at 2. by apply fmap_ext_in. Qed.

(** Binding keeps the text of every type, so it keeps the order of unions. *)
Lemma bind_simple names t : simple_type t = true → simple_type (bind_type_variables names t) = true.
Proof. destruct t; cbn; try done. by case_bool_decide. Qed.

Lemma bind_render names t :
  canonical t → render_type (bind_type_variables names t) = render_type t ∧
    (simple_type t = false → t ≠ UnknownType → 
     bind_type_variables names t = UnionType (bind_type_variables names <$> alternatives t)).
Proof.
  induction t as [|n|n|n args IH|options IH] using TypeNode_nested_ind; intros Hc;
    cbn [bind_type_variables simple_type]; try done.
  - by case_bool_decide.
  - split; [|done]. inversion Hc; subst. rewrite Forall_forall in *.
    assert (render_type <$> (bind_type_variables names <$> args) = render_type <$> args) as Hr.
    { rewrite <- list_fmap_compose. apply fmap_ext_in. intros t Ht. cbn. by apply IH; auto. }
    cbn [render_type]. by rewrite Hr.
  - inversion Hc as [| | | |? Hlen Hs Hn Hsimple Hcan]; subst. rewrite Forall_forall in *.
    assert (render_type <$> (bind_type_variables names <$> options) = render_type <$> options) as Hr.
    { rewrite <- list_fmap_compose. apply fmap_ext_in. intros t Ht. cbn. by apply IH; auto. }
    rewrite union_type_options, flatten_simple, union_options_id; rewrite ?Hr; try done.
    + cbn [render_type alternatives]. destruct options as [|? [|??]]; simpl in Hlen; [lia..|].
      cbn [fmap list_fmap] in *. split; [|done]. cbn [render_type]. by rewrite <- Hr.
    + apply Forall_fmap, Forall_forall. intros t Ht. apply bind_simple. auto.
Qed.

Lemma unresolved_union_nil (X : list (gset ustring)) : ⋃ X = ∅ → ∀ Y, Y ∈ X → Y = ∅.
Proof.
  intros H Y HY. apply set_eq. intros x. split; [|by intros ?%not_elem_of_empty].
  intros Hx. rewrite <- H. apply elem_of_union_list. eauto.
Qed.

Lemma substitute_ext m1 m2 t :
  (∀ x, x ∈ unresolved_type_variables t → m1 !! x = m2 !! x) → substitute_type m1 t = substitute_type m2 t.
Proof.
  induction t as [|n|n|n args IH|options IH] using TypeNode_nested_ind; intros H;
    cbn [substitute_type unresolved_type_variables] in *; try done; try (rewrite Forall_forall in IH).
  - by rewrite H by set_solver.
  - f_equal. apply fmap_ext_in. intros t Ht. apply IH; [done|]. intros x Hx. apply H.
    apply elem_of_union_list. eexists. split; [by apply list_elem_of_fmap_2|done].
  - f_equal. apply fmap_ext_in. intros t Ht. apply IH; [done|]. intros x Hx. apply H.
    apply elem_of_union_list. eexists. split; [by apply list_elem_of_fmap_2|done].
Qed.

Lemma substitute_closed_id mapping t :
  canonical t → unresolved_type_variables t = ∅ → substitute_type mapping t = t.
Proof.
  induction t as [|n|n|n args IH|options IH] using TypeNode_nested_ind; intros Hc Hu;
    cbn [substitute_type unresolved_type_variables] in *; try done;
    inversion Hc; subst; rewrite Forall_forall in *.
  - f_equal. apply fmap_id_in. intros t Ht. apply IH; auto.
    eapply unresolved_union_nil; [done|]. by apply list_elem_of_fmap_2.
  - rewrite fmap_id_in; [by apply union_type_id|]. intros t Ht. apply IH; auto.
    eapply unresolved_union_nil; [done|]. by apply list_elem_of_fmap_2.
Qed.

Lemma bind_substitute_inverse names mapping t :
  canonical t → unresolved_type_variables t = ∅ →
  (∀ n, n ∈ names → mapping !! n = Some (NamedType n)) →
  substitute_type mapping (bind_type_variables names t) = t.
Proof.
  intros Hc Hu Hm. pose proof (bind_render names t Hc) as [_ Hb]. revert Hc Hu Hb.
  induction t as [|n|n|n args IH|options IH] using TypeNode_nested_ind; intros Hc Hu Hb;
    cbn [bind_type_variables substitute_type unresolved_type_variables] in *; try done.
  - case_bool_decide; cbn; [by rewrite Hm|done].
  - inversion Hc; subst. rewrite Forall_forall in *. f_equal.
    rewrite <- list_fmap_compose. apply fmap_id_in. intros t Ht. cbn.
    apply IH; [done|auto| |by apply bind_render; auto].
    eapply unresolved_union_nil; [done|]. by apply list_elem_of_fmap_2.
  - rewrite Hb by done. cbn [substitute_type alternatives]. inversion Hc; subst.
    rewrite Forall_forall in *. rewrite <- list_fmap_compose.
    rewrite fmap_id_in; [by apply union_type_id|]. intros t Ht. cbn.
    apply IH; [done|auto| |by apply bind_render; auto].
    eapply unresolved_union_nil; [done|]. by apply list_elem_of_fmap_2.
Qed.

Lemma StronglySorted_filter (p : TypeNode → bool) (l : list TypeNode) :
  StronglySorted ustr_le (render_type <$> l) →
  StronglySorted ustr_le (render_type <$> List.filter p l).
Proof.
  induction l as [|t l IH]; [done|]. cbn [fmap list_fmap List.filter].
  intros Hs. apply StronglySorted_inv in Hs as [Hs Ht]. destruct (p t); [|by apply IH].
  cbn [fmap list_fmap]. constructor; [by apply IH|].
  rewrite Forall_forall in *. intros x (y & -> & Hy)%list_elem_of_fmap. apply Ht.
  apply list_elem_of_In, filter_In in Hy as [Hy _].
  apply list_elem_of_fmap_2. by apply list_elem_of_In.
Qed.

Lemma NoDup_fmap_filter (p : TypeNode → bool) (l : list TypeNode) :
  NoDup (render_type <$> l) → NoDup (render_type <$> List.filter p l).
Proof.
  induction l as [|t l IH]; [done|]. cbn [fmap list_fmap List.filter].
  intros Hn. inversion Hn as [|?? Ht Hn']; subst. destruct (p t); [|by apply IH].
  cbn [fmap list_fmap]. constructor; [|by apply IH].
  intros (y & E & Hy)%list_elem_of_fmap. apply Ht. rewrite E.
  apply list_elem_of_In, filter_In in Hy as [Hy _].
  apply list_elem_of_fmap_2. by apply list_elem_of_In.
Qed.

Lemma alternatives_union_type options :
  StronglySorted ustr_le (render_type <$> options) → NoDup (render_type <$> options) →
  Forall (λ t, simple_type t = true) options → options ≠ [] →
  alternatives (union_type options) = options.
Proof.
  intros Hs Hn Hsimple Hne. rewrite union_type_options, flatten_simple, union_options_id by done.
  destruct options as [|t [|t' l]]; [done| |done]. inversion Hsimple; subst. by destruct t.
Qed.

(** * Properties *)

(** rendering and parsing are inverse.  [parse_type_text] applied to the text of
a type that a program can write gives that type back, nested generics and
canonical unions included. *)
Theorem type_text_roundtrip (t : TypeNode) :
  well_formed t → type_of_text (render_type t) = Done t.
Proof. intros H. apply parse_render; [done|lia]. Qed.

Lemma type_text_roundtrip_witness :
  type_of_text (u "Result<List<Int, _>, Error> or Void") =
  Done (UnionType [GenericType (u "Result") [GenericType (u "List") [NamedType (u "Int"); UnknownType];
                                             NamedType (u "Error")]; NamedType (u "Void")]).
Proof.
  apply (type_text_roundtrip (UnionType [GenericType (u "Result")
    [GenericType (u "List") [NamedType (u "Int"); UnknownType]; NamedType (u "Error")];
     NamedType (u "Void")])).
  repeat first [constructor | discriminate | reflexivity | lia]; apply (bool_decide_unpack _); reflexivity.
Defined.

(** [parse_type_text] terminates on every text (the fuel [length text + 1] is
never exhausted), and a type it returns is canonical: each union in it has at
least two options, none of them a union or unknown, sorted by their text
without duplicates. *)
Theorem type_text_total (text : ustring) :
  type_of_text text ≠ NoFuel ∧ ∀ t, type_of_text text = Done t → canonical t.
Proof.
  split; [apply parse_type_text_fuel; lia|]. intros t. apply parse_type_text_canonical.
Qed.

(** [union_type] is a canonical associative union.  Its result is canonical, a
nested union is the flat one, unknown members are dropped, and for types a program can write
neither the order nor repetition of the members matters. *)
Theorem union_type_laws (types1 types2 : list TypeNode) :
  Forall canonical types1 → Forall canonical types2 →
  canonical (union_type types1) ∧
  union_type (union_type types1 :: types2) = union_type (types1 ++ types2) ∧
  union_type (UnknownType :: types1) = union_type types1 ∧
  (Forall well_formed types1 → Forall well_formed types2 →
   (∀ t, t ∈ flatten_types types1 ↔ t ∈ flatten_types types2) →
   union_type types1 = union_type types2).
Proof.
  intros H1 H2. split_and!; [by apply union_type_canonical| |done|].
  - rewrite (union_type_options (_ :: _)), (union_type_options (_ ++ _)), flatten_app.
    enough (union_options (flatten_types (union_type types1 :: types2)) =
            union_options (flatten_types types1 ++ flatten_types types2)) as -> by done.
    apply union_options_ext. intros key. rewrite first_with_app, <- (first_with_union key (flatten_types types1)).
    apply flatten_canonical in H1 as [Hs _]. rewrite union_type_options.
    assert (Forall (λ t, simple_type t = true) (union_options (flatten_types types1))) as Hs'.
    { rewrite !Forall_forall in *. intros t Ht%union_options_elem. auto. }
    destruct (union_options (flatten_types types1)) as [|t [|t' l]]; [done| |].
    + inversion Hs' as [|?? Ht]; subst. destruct t; try done; by rewrite <- first_with_app.
    + cbn [flatten_types]. by rewrite first_with_app.
  - intros W1 W2 He. rewrite !union_type_options.
    enough (union_options (flatten_types types1) = union_options (flatten_types types2)) as -> by done.
    apply union_options_ext. intros key.
    destruct (first_with key (flatten_types types1)) as [t1|] eqn:E1,
      (first_with key (flatten_types types2)) as [t2|] eqn:E2; [|exfalso..|done].
    + apply first_with_Some in E1 as [I1 R1], E2 as [I2 R2]. f_equal.
      apply render_inj; [eauto using flatten_well_formed..|congruence].
    + apply first_with_Some in E1 as [I1 <-]. apply first_with_None in E2. apply E2.
      apply list_elem_of_fmap_2. by apply He.
    + apply first_with_Some in E2 as [I2 <-]. apply first_with_None in E1. apply E1.
      apply list_elem_of_fmap_2. by apply He.
Qed.

Lemma union_type_laws_witness :
  union_type [NamedType (u "B"); UnknownType; NamedType (u "A"); NamedType (u "B")] =
  union_type [NamedType (u "A"); NamedType (u "B")].
Proof.
  refine (proj2 (proj2 (proj2 (union_type_laws
    [NamedType (u "B"); UnknownType; NamedType (u "A"); NamedType (u "B")]
    [NamedType (u "A"); NamedType (u "B")] _ _))) _ _ _).
  1, 2: repeat constructor.
  1, 2: repeat first [constructor | discriminate | reflexivity].
  intros t. cbn. rewrite !elem_of_cons. tauto.
Defined.

(** Instantiating generics resolves every variable it has a type for.  A
variable left in [substitute_type mapping t] is either one of [t]'s own that
the mapping does not bind or one of a type the mapping gives; so a mapping of
all the variables of [t] to closed types gives a closed type, and a closed type
is not changed. *)
Theorem substitute_type_resolves (mapping : gmap ustring TypeNode) (t : TypeNode) :
  canonical t →
  (∀ x, x ∈ unresolved_type_variables (substitute_type mapping t) →
    ∃ n, n ∈ unresolved_type_variables t ∧
      match mapping !! n with
      | None => x = n
      | Some t' => x ∈ unresolved_type_variables t'
      end) ∧
  ((∀ n, n ∈ unresolved_type_variables t →
      ∃ t', mapping !! n = Some t' ∧ unresolved_type_variables t' = ∅) →
   unresolved_type_variables (substitute_type mapping t) = ∅) ∧
  (unresolved_type_variables t = ∅ → substitute_type mapping t = t).
Proof.
  intros Hc. split_and!; [apply substitute_unresolved_in| |by apply substitute_closed_id].
  intros Hm. apply set_eq. intros x. split; [|by intros ?%not_elem_of_empty].
  intros (n & Hn & Hx)%substitute_unresolved_in. destruct (Hm n Hn) as (t' & Et & Hu).
  rewrite Et, Hu in Hx. done.
Qed.

Lemma substitute_type_resolves_witness :
  unresolved_type_variables (substitute_type {[u "T" := NamedType (u "Int")]}
    (UnionType [GenericType (u "List") [TypeVariable (u "T")]; NamedType (u "Void")])) = ∅.
Proof.
  refine (proj1 (proj2 (substitute_type_resolves {[u "T" := NamedType (u "Int")]}
    (UnionType [GenericType (u "List") [TypeVariable (u "T")]; NamedType (u "Void")]) _)) _).
  - repeat first [constructor | reflexivity]; apply (bool_decide_unpack _); reflexivity.
  - intros n Hn. exists (NamedType (u "Int")). split; [|reflexivity].
    assert (n = u "T") as -> by (cbn in Hn; set_solver). reflexivity.
Defined.

(** Binding the declared generic names of a signature changes no text, only the
named leaves that are declared names, and instantiating each name by itself
undoes it. *)
Theorem bind_type_variables_inverse (names : gset ustring) (mapping : gmap ustring TypeNode)
    (t : TypeNode) :
  canonical t → unresolved_type_variables t = ∅ →
  (∀ n, n ∈ names → mapping !! n = Some (NamedType n)) →
  render_type (bind_type_variables names t) = render_type t ∧
  substitute_type mapping (bind_type_variables names t) = t.
Proof.
  intros Hc Hu Hm. split; [by apply bind_render|by apply bind_substitute_inverse].
Qed.

Lemma bind_type_variables_inverse_witness :
  render_type (bind_type_variables {[u "T"]} (GenericType (u "List") [NamedType (u "T")])) = u "List<T>" ∧
  substitute_type {[u "T" := NamedType (u "T")]}
    (bind_type_variables {[u "T"]} (GenericType (u "List") [NamedType (u "T")])) =
  GenericType (u "List") [NamedType (u "T")].
Proof.
  apply (bind_type_variables_inverse {[u "T"]} {[u "T" := NamedType (u "T")]}
    (GenericType (u "List") [NamedType (u "T")])).
  - repeat constructor.
  - reflexivity.
  - intros n ->%elem_of_singleton. reflexivity.
Defined.

(** Narrowing with [or] removes exactly the error.  The alternatives of the
success type of a canonical union are its options other than [Error], in the
same order, and at least one is left. *)
Theorem success_type_union (options : list TypeNode) :
  canonical (UnionType options) →
  alternatives (success_type (UnionType options)) =
    List.filter (λ item, negb (is_named item (u "Error"))) options ∧
  List.filter (λ item, negb (is_named item (u "Error"))) options ≠ [] ∧
  canonical (success_type (UnionType options)).
Proof.
  inversion 1 as [| | | |? Hlen Hs Hn Hsimple Hcan]; subst.
  assert (List.filter (λ item, negb (is_named item (u "Error"))) options ≠ []) as Hne.
  { destruct options as [|t1 [|t2 l]]; simpl in Hlen; [lia..|]. intros E.
    assert (∀ t, negb (is_named t (u "Error")) = false → t = ERROR) as He.
    { intros t Ht. destruct t; try done. cbn in Ht. apply negb_false_iff, bool_decide_eq_true in Ht.
      by subst. }
    cbn [List.filter] in E. destruct (negb (is_named t1 _)) eqn:E1; [done|].
    destruct (negb (is_named t2 _)) eqn:E2; [done|]. apply He in E1 as ->, E2 as ->.
    inversion Hn as [|?? Hni]; subst. apply Hni. left. }
  assert (Forall (λ t, simple_type t = true ∧ canonical t)
            (List.filter (λ item, negb (is_named item (u "Error"))) options)) as Hf.
  { apply Forall_forall. intros t Ht. apply list_elem_of_In, filter_In in Ht as [Ht _].
    apply list_elem_of_In in Ht. rewrite Forall_forall in *. auto. }
  apply Forall_and in Hf as [Hf1 Hf2]. cbn [success_type]. split_and!; [|done|].
  - apply alternatives_union_type; [by apply StronglySorted_filter|by apply NoDup_fmap_filter|done..].
  - by apply union_type_canonical.
Qed.

Lemma success_type_union_witness :
  alternatives (success_type (UnionType [NamedType (u "Error"); NamedType (u "Int")])) =
    [NamedType (u "Int")] ∧ [NamedType (u "Int")] ≠ [] ∧
  canonical (success_type (UnionType [NamedType (u "Error"); NamedType (u "Int")])).
Proof.
  apply (success_type_union [NamedType (u "Error"); NamedType (u "Int")]).
  repeat first [constructor | reflexivity]; apply (bool_decide_unpack _); reflexivity.
Defined.
