(* ===== verification/Lexer.v ===== *)
(** The lexical scanner: [src/koschei/lexer.py], with the error method that
[src/koschei/ergonomics_syntax.py] installs, and the token printer of
[src/koschei/_formatter_v09.py].

A [cursor] is the scanner's position: the source that is left and the line and
column of its first character.  The character classes of Python's [str] beyond
ASCII are the interface [Unicode]; everything ASCII is defined here.  A float
literal is kept as its two runs of decimal digits. *)

From S2P Require Import Prelude.

(** * Character classes *)

(** [str.isdigit], [str.isalpha], [str.isalnum] and [str.isupper] on one
character from U+0080 on, and the value [int] gives a decimal digit. *)
Class Unicode := {
  u_isdigit : Z → bool;
  u_isalpha : Z → bool;
  u_isalnum : Z → bool;
  u_isupper : Z → bool;
  u_decimal : Z → option Z;
}.

Section classes.
Context `{Unicode}.

Definition isdigit (c : Z) : bool := if c <? 128 then is_ascii_digit c else u_isdigit c.
Definition isupper (c : Z) : bool := if c <? 128 then in_range 65 90 c else u_isupper c.
Definition isalpha (c : Z) : bool :=
  if c <? 128 then in_range 65 90 c || in_range 97 122 c else u_isalpha c.
Definition isalnum (c : Z) : bool :=
  if c <? 128 then is_ascii_digit c || in_range 65 90 c || in_range 97 122 c else u_isalnum c.
Definition decimal (c : Z) : option Z :=
  if c <? 128 then if is_ascii_digit c then Some (c - 48) else None else u_decimal c.

End classes.

(** * Tokens *)

Inductive TokenType :=
  | KA | VOR | SHI | THAL | NUR
  | PURE | STATEFUL | FN | LET | MUT | OR | RETURN | IF_ | ELSE | WHILE | FOR | IN
  | BREAK | CONTINUE | STRUCT | ENUM | MATCH | IMPORT | TRUE | FALSE
  | TYPE | IDENTIFIER | STRING | STRING_INTERP | NUMBER | COMMENT
  | LEFT_PAREN | RIGHT_PAREN | LEFT_BRACE | RIGHT_BRACE | COMMA | COLON | DOT | EQUAL
  | PLUS | MINUS | STAR | SLASH | PERCENT | SEMICOLON | BANG | LEFT_BRACKET | RIGHT_BRACKET
  | ARROW | FAT_ARROW | EQUAL_EQUAL | BANG_EQUAL | LESS | LESS_EQUAL | GREATER
  | GREATER_EQUAL | AMP_AMP | PIPE_PIPE
  | EOF.

#[export] Instance TokenType_eq_dec : EqDecision TokenType.
Proof. solve_decision. Defined.

(** A segment of an interpolated string: text, or the source of an expression. *)
Inductive segment :=
  | TextSegment (text : ustring)
  | ExprSegment (source : ustring).

(** [Token.value]. *)
Inductive token_value :=
  | VNone
  | VText (s : ustring)
  | VInt (n : Z)
  | VFloat (whole fraction : ustring)
  | VSegments (segments : list segment).

Record Token := mk_token {
  type : TokenType;
  value : token_value;
  line : Z;
  column : Z;
}.

(** * Errors *)

Inductive lexical_problem :=
  | UnexpectedAmpersand
  | UnexpectedPipe
  | InvalidCharacter (c : Z)
  | UnfinishedEscape
  | InvalidEscape (c : Z)
  | EmptyInterpolation
  | LoneClosingBrace
  | UnterminatedString
  | InterpolationStringNewline
  | InterpolationNewline
  | UnterminatedInterpolation.

(** [LexerError] carries code KS1001 and the start of the token; [int] and
[float] raise a [ValueError] of their own. *)
Inductive lexer_error :=
  | LexerError (problem : lexical_problem) (line column : Z)
  | LiteralValueError.

(** * Tables *)

Definition KEYWORDS : list (ustring * TokenType) :=
  [(u "ka", KA); (u "vor", VOR); (u "shi", SHI); (u "thal", THAL); (u "nur", NUR);
   (u "pure", PURE); (u "stateful", STATEFUL); (u "fn", FN); (u "let", LET); (u "mut", MUT);
   (u "or", OR); (u "return", RETURN); (u "if", IF_); (u "else", ELSE); (u "while", WHILE);
   (u "for", FOR); (u "in", IN); (u "break", BREAK); (u "continue", CONTINUE);
   (u "struct", STRUCT); (u "enum", ENUM); (u "match", MATCH); (u "import", IMPORT);
   (u "true", TRUE); (u "false", FALSE)].

Definition BUILTIN_TYPES : list ustring :=
  [u "SystemCaps"; u "NetRoot"; u "DiskRoot"; u "EnvRoot"; u "ProcessRoot"; u "NetCaps";
   u "DiskCaps"; u "DiskReadCaps"; u "EnvCaps"; u "ProcessCaps"; u "List"; u "Map"; u "String";
   u "Int"; u "Float"; u "Bool"; u "Void"; u "Error"; u "Result"; u "Option"].

Definition SINGLE_CHAR_TOKENS : list (Z * TokenType) :=
  [(ch "(", LEFT_PAREN); (ch ")", RIGHT_PAREN); (ch "{", LEFT_BRACE); (ch "}", RIGHT_BRACE);
   (ch ",", COMMA); (ch ":", COLON); (ch ".", DOT); (ch "+", PLUS); (ch "*", STAR);
   (ch "%", PERCENT); (ch ";", SEMICOLON); (ch "[", LEFT_BRACKET); (ch "]", RIGHT_BRACKET)].

Definition ESCAPES : list (Z * Z) :=
  [(ch "n", 10); (ch "r", 13); (ch "t", 9); (34, 34); (BACKSLASH, BACKSLASH);
   (ch "{", ch "{"); (ch "}", ch "}")].

(** * The scanner *)

Record cursor := mk_cursor {
  rest : ustring;
  at_line : Z;
  at_column : Z;
}.

(** [_advance]: the position behind character [c], [rest] being what follows. *)
Definition advance (c : Z) (rest : ustring) (line column : Z) : cursor :=
  if c =? NEWLINE then mk_cursor rest (line + 1) 1 else mk_cursor rest line (column + 1).

(** [while p(self._peek()): self._advance()], for a [p] that is false of the
end marker. *)
Fixpoint advance_while (p : Z → bool) (rest : ustring) (line column : Z) : ustring * cursor :=
  match rest with
  | [] => ([], mk_cursor [] line column)
  | c :: rest' =>
      if p c then
        let cur := advance c rest' line column in
        let '(text, cur) := advance_while p rest' (at_line cur) (at_column cur) in
        (c :: text, cur)
      else ([], mk_cursor rest line column)
  end.

Definition skip_while (p : Z → bool) (cur : cursor) : ustring * cursor :=
  advance_while p (rest cur) (at_line cur) (at_column cur).

(** [_match]. *)
Definition match_char (expected : Z) (cur : cursor) : option cursor :=
  match rest cur with
  | c :: rest => if c =? expected then Some (advance c rest (at_line cur) (at_column cur)) else None
  | [] => None
  end.

Section scanner.
Context `{Unicode}.

(** [int(text)] and [float(text)] of text that [isdigit] accepted. *)
Definition decimal_digits (text : ustring) : option (list Z) := mapM decimal text.

Definition digits_value (digits : list Z) : Z := foldl (λ acc d, 10 * acc + d) 0 digits.

Definition int_literal (text : ustring) : outcome lexer_error token_value :=
  match decimal_digits text with
  | Some digits =>
      if INT_MAX_STR_DIGITS <? Z.of_nat (length digits) then Raise LiteralValueError
      else Done (VInt (digits_value digits))
  | None => Raise LiteralValueError
  end.

Definition float_literal (whole fraction : ustring) : outcome lexer_error token_value :=
  match decimal_digits whole, decimal_digits fraction with
  | Some w, Some f => Done (VFloat (Z.add 48 <$> w) (Z.add 48 <$> f))
  | _, _ => Raise LiteralValueError
  end.

Definition is_identifier_char (c : Z) : bool := isalnum c || (c =? ch "_").
Definition is_comment_char (c : Z) : bool := negb (c =? NEWLINE) && negb (c =? NUL).

Definition identifier_type (text : ustring) : TokenType :=
  match assoc text KEYWORDS with
  | Some token_type => token_type
  | None =>
      if bool_decide (text ∈ BUILTIN_TYPES)
         || match text with c :: _ => isupper c | [] => false end
      then TYPE else IDENTIFIER
  end.

(** [_number], behind its first digit. *)
Definition number (first : Z) (cur : cursor) : outcome lexer_error (token_value * cursor) :=
  let '(digits, cur) := skip_while isdigit cur in
  let whole := first :: digits in
  match rest cur with
  | dot :: (next :: _) as rest' =>
      if (dot =? ch ".") && isdigit next then
        let cur := advance dot (tail (rest cur)) (at_line cur) (at_column cur) in
        let '(fraction, cur) := skip_while isdigit cur in
        v ← float_literal whole fraction; Done (v, cur)
      else v ← int_literal whole; Done (v, cur)
  | _ => v ← int_literal whole; Done (v, cur)
  end.

(** [_interpolation_expression]; [sl] and [sc] are where the token starts. *)
Fixpoint interpolation (rest : ustring) (line column : Z) (sl sc depth : Z)
    (in_string escaped : bool) (expression : ustring) : outcome lexer_error (ustring * cursor) :=
  match rest with
  | [] => Raise (LexerError UnterminatedInterpolation sl sc)
  | char :: rest =>
      let cur := advance char rest line column in
      let line := at_line cur in
      let column := at_column cur in
      if in_string then
        let expression := expression ++ [char] in
        if escaped then interpolation rest line column sl sc depth true false expression
        else if char =? BACKSLASH then interpolation rest line column sl sc depth true true expression
        else if char =? QUOTE then interpolation rest line column sl sc depth false false expression
        else if char =? NEWLINE then Raise (LexerError InterpolationStringNewline sl sc)
        else interpolation rest line column sl sc depth true false expression
      else if char =? QUOTE then
        interpolation rest line column sl sc depth true escaped (expression ++ [char])
      else if char =? ch "{" then
        interpolation rest line column sl sc (depth + 1) false escaped (expression ++ [char])
      else if char =? ch "}" then
        if depth - 1 =? 0 then Done (strip expression, cur)
        else interpolation rest line column sl sc (depth - 1) false escaped (expression ++ [char])
      else if char =? NEWLINE then Raise (LexerError InterpolationNewline sl sc)
      else interpolation rest line column sl sc depth false escaped (expression ++ [char])
  end.

Definition flush_text (segments : list segment) (text : ustring) : list segment :=
  match text with [] => segments | _ => segments ++ [TextSegment text] end.

Definition is_expr (s : segment) : bool := match s with ExprSegment _ => true | _ => false end.

Definition string_token (segments : list segment) : TokenType * token_value :=
  if existsb is_expr segments then (STRING_INTERP, VSegments segments)
  else (STRING, VText (match segments with TextSegment t :: _ => t | _ => [] end)).

(** The loop of [_string]. *)
Fixpoint string_loop (fuel : nat) (sl sc : Z) (cur : cursor) (segments : list segment)
    (text : ustring) : outcome lexer_error (TokenType * token_value * cursor) :=
  match fuel with
  | O => NoFuel
  | S fuel =>
      match rest cur with
      | [] => Raise (LexerError UnterminatedString sl sc)
      | char :: rest =>
          let cur := advance char rest (at_line cur) (at_column cur) in
          if char =? QUOTE then Done (string_token (flush_text segments text), cur)
          else if char =? BACKSLASH then
            match rest with
            | [] => Raise (LexerError UnfinishedEscape sl sc)
            | escaped :: rest =>
                let cur := advance escaped rest (at_line cur) (at_column cur) in
                match assoc escaped ESCAPES with
                | None => Raise (LexerError (InvalidEscape escaped) sl sc)
                | Some c => string_loop fuel sl sc cur segments (text ++ [c])
                end
            end
          else if char =? ch "{" then
            '(expr_source, cur) ←
              interpolation rest (at_line cur) (at_column cur) sl sc 1 false false [];
            match expr_source with
            | [] => Raise (LexerError EmptyInterpolation sl sc)
            | _ => string_loop fuel sl sc cur (flush_text segments text ++ [ExprSegment expr_source]) []
            end
          else if char =? ch "}" then Raise (LexerError LoneClosingBrace sl sc)
          else string_loop fuel sl sc cur segments (text ++ [char])
      end
  end.

Definition _string (sl sc : Z) (cur : cursor) : outcome lexer_error (TokenType * token_value * cursor) :=
  string_loop (S (length (rest cur))) sl sc cur [] [].

(** The operators that a second character can extend. *)
Definition with_suffix (expected : Z) (two one : TokenType * ustring) (cur : cursor)
    : (TokenType * token_value) * cursor :=
  match match_char expected cur with
  | Some cur => (two.1, VText two.2, cur)
  | None => (one.1, VText one.2, cur)
  end.

(** [_scan_token] behind [char], the first character of the token: the token it
adds, if any, without its position. *)
Definition scan_token (keep_comments : bool) (sl sc : Z) (char : Z) (cur : cursor)
    : outcome lexer_error (option (TokenType * token_value) * cursor) :=
  let add r := Done (Some r.1, r.2) in
  if bool_decide (char ∈ [32; 13; 9; 10]) then Done (None, cur)
  else if char =? ch "/" then
    match match_char (ch "/") cur with
    | Some cur =>
        let '(body, cur) := skip_while is_comment_char cur in
        Done (if keep_comments then Some (COMMENT, VText (u "//" ++ body)) else None, cur)
    | None => add ((SLASH, VText (u "/")), cur)
    end
  else if char =? QUOTE then r ← _string sl sc cur; add r
  else if isdigit char then '(v, cur) ← number char cur; add ((NUMBER, v), cur)
  else if isalpha char || (char =? ch "_") then
    let '(text, cur) := skip_while is_identifier_char cur in
    add ((identifier_type (char :: text), VText (char :: text)), cur)
  else if char =? ch "-" then
    add (with_suffix (ch ">") (ARROW, u "->") (MINUS, u "-") cur)
  else if char =? ch "=" then
    match match_char (ch ">") cur with
    | Some cur => add ((FAT_ARROW, VText (u "=>")), cur)
    | None => add (with_suffix (ch "=") (EQUAL_EQUAL, u "==") (EQUAL, u "=") cur)
    end
  else if char =? ch "!" then
    add (with_suffix (ch "=") (BANG_EQUAL, u "!=") (BANG, u "!") cur)
  else if char =? ch "&" then
    match match_char (ch "&") cur with
    | Some cur => add ((AMP_AMP, VText (u "&&")), cur)
    | None => Raise (LexerError UnexpectedAmpersand sl sc)
    end
  else if char =? ch "|" then
    match match_char (ch "|") cur with
    | Some cur => add ((PIPE_PIPE, VText (u "||")), cur)
    | None => Raise (LexerError UnexpectedPipe sl sc)
    end
  else if char =? ch "<" then
    add (with_suffix (ch "=") (LESS_EQUAL, u "<=") (LESS, u "<") cur)
  else if char =? ch ">" then
    add (with_suffix (ch "=") (GREATER_EQUAL, u ">=") (GREATER, u ">") cur)
  else
    match assoc char SINGLE_CHAR_TOKENS with
    | Some token_type => add ((token_type, VText [char]), cur)
    | None => Raise (LexerError (InvalidCharacter char) sl sc)
    end.

Fixpoint tokenize_loop (fuel : nat) (keep_comments : bool) (cur : cursor)
    : outcome lexer_error (list Token) :=
  match fuel with
  | O => NoFuel
  | S fuel =>
      let sl := at_line cur in
      let sc := at_column cur in
      match rest cur with
      | [] => Done [mk_token EOF VNone sl sc]
      | char :: rest =>
          '(token, cur) ← scan_token keep_comments sl sc char (advance char rest sl sc);
          tokens ← tokenize_loop fuel keep_comments cur;
          Done (match token with
                | Some (ty, v) => mk_token ty v sl sc :: tokens
                | None => tokens
                end)
      end
  end.

Definition tokenize (keep_comments : bool) (source : ustring) : outcome lexer_error (list Token) :=
  tokenize_loop (S (length source)) keep_comments (mk_cursor source 1 1).

End scanner.

(** * Printing tokens: [_render_token] *)

(** Python's [repr] of the float that a literal denotes. *)
Class FloatRepr := repr_float : ustring → ustring → ustring.

Definition FORMAT_ESCAPES : list (Z * ustring) :=
  [(BACKSLASH, [BACKSLASH; BACKSLASH]); (QUOTE, [BACKSLASH; QUOTE]); (10, [BACKSLASH; ch "n"]);
   (13, [BACKSLASH; ch "r"]); (9, [BACKSLASH; ch "t"])].

Definition escape_char (c : Z) : ustring :=
  match assoc c FORMAT_ESCAPES with
  | Some s => s
  | None => if bool_decide (c ∈ u "{}") then [BACKSLASH; c] else [c]
  end.

Definition _escape (value : ustring) : ustring := concat (escape_char <$> value).

Definition render_segment (s : segment) : ustring :=
  match s with
  | TextSegment text => _escape text
  | ExprSegment source => ch "{" :: source ++ [ch "}"]
  end.

Definition _render_interpolation (segments : list segment) : ustring :=
  concat (render_segment <$> segments).

Definition _normalize_comment (text : ustring) : ustring :=
  match strip (drop 2 text) with [] => u "//" | body => u "// " ++ body end.

(** [str(token.value)]. *)
Definition value_text `{FloatRepr} (v : token_value) : ustring :=
  match v with
  | VNone => u "None"
  | VText s => s
  | VInt n => str_int n
  | VFloat w f => repr_float w f
  | VSegments _ => []
  end.

Definition _render_token `{FloatRepr} (ty : TokenType) (v : token_value) : ustring :=
  match ty, v with
  | STRING, VText s => QUOTE :: _escape s ++ [QUOTE]
  | STRING_INTERP, VSegments segments => QUOTE :: _render_interpolation segments ++ [QUOTE]
  | COMMENT, VText s => _normalize_comment s
  | _, _ => value_text v
  end.

(** * How the scanner moves *)

Definition move1 (p : Z * Z) (c : Z) : Z * Z := if c =? NEWLINE then (p.1 + 1, 1) else (p.1, p.2 + 1).

Definition position (cur : cursor) : Z * Z := (at_line cur, at_column cur).

(** Reading [text] leads from cursor [cur] to [cur']. *)
Definition reads (cur : cursor) (text : ustring) (cur' : cursor) : Prop :=
  rest cur = text ++ rest cur' ∧ position cur' = foldl move1 (position cur) text.

Lemma reads_nil cur : reads cur [] cur.
Proof. done. Qed.

Lemma reads_app cur1 cur2 cur3 t1 t2 :
  reads cur1 t1 cur2 → reads cur2 t2 cur3 → reads cur1 (t1 ++ t2) cur3.
Proof.
  intros [H1 P1] [H2 P2]. split; [by rewrite H1, H2, app_assoc|]. by rewrite foldl_app, <- P1.
Qed.

Lemma reads_advance c r l k : reads (mk_cursor (c :: r) l k) [c] (advance c r l k).
Proof. unfold advance, reads, position. cbn. unfold move1. by destruct (c =? NEWLINE). Qed.

Lemma reads_step c r cur :
  rest cur = c :: r → reads cur [c] (advance c r (at_line cur) (at_column cur)).
Proof. destruct cur as [s l k]. cbn. intros ->. apply reads_advance. Qed.

Lemma reads_cons c r cur t cur' :
  rest cur = c :: r → reads (advance c r (at_line cur) (at_column cur)) t cur' →
  reads cur (c :: t) cur'.
Proof. intros Hc H. apply (reads_app _ _ _ [c] t (reads_step _ _ _ Hc) H). Qed.

Lemma rest_advance c r l k : rest (advance c r l k) = r.
Proof. unfold advance. by destruct (c =? NEWLINE). Qed.

Lemma advance_eta c r l k :
  advance c r l k = mk_cursor r (at_line (advance c r l k)) (at_column (advance c r l k)).
Proof. unfold advance. by destruct (c =? NEWLINE). Qed.

Lemma skip_while_reads p cur : reads cur (skip_while p cur).1 (skip_while p cur).2.
Proof.
  destruct cur as [s l k]. unfold skip_while. cbn [rest at_line at_column].
  revert l k. induction s as [|c s IH]; intros l k; cbn [advance_while]; [apply reads_nil|].
  destruct (p c); [|apply reads_nil].
  specialize (IH (at_line (advance c s l k)) (at_column (advance c s l k))).
  destruct (advance_while p s _ _) as [t cur']. cbn [fst snd] in *.
  apply (reads_cons c s (mk_cursor (c :: s) l k)); [done|]. cbn [at_line at_column].
  destruct (advance c s l k) eqn:E. pose proof (rest_advance c s l k) as Hr. rewrite E in Hr.
  cbn in *. by subst.
Qed.

Lemma skip_while_span p cur :
  (skip_while p cur).1 = (span p (rest cur)).1 ∧ rest (skip_while p cur).2 = (span p (rest cur)).2.
Proof.
  destruct cur as [s l k]. unfold skip_while. cbn [rest at_line at_column].
  revert l k. induction s as [|c s IH]; intros l k; cbn [advance_while span]; [done|].
  destruct (p c); [|done].
  specialize (IH (at_line (advance c s l k)) (at_column (advance c s l k))).
  destruct (advance_while p s _ _) as [t cur']. cbn [fst snd] in *. by destruct IH as [-> ->].
Qed.

Lemma match_char_reads c cur cur' : match_char c cur = Some cur' → reads cur [c] cur'.
Proof.
  unfold match_char. destruct (rest cur) as [|c' r] eqn:E; [done|].
  destruct (Z.eqb_spec c' c) as [->|]; [|done]. intros [= <-]. by apply reads_step.
Qed.

Section scanner_moves.
Context `{Unicode}.

Lemma number_reads c cur v cur' :
  number c cur = Done (v, cur') → ∃ text, reads cur text cur'.
Proof.
  unfold number. pose proof (skip_while_reads isdigit cur) as Hr.
  destruct (skip_while isdigit cur) as [digits cur1]. cbn [fst snd] in Hr.
  assert (∀ o, (v0 ← o; Done (v0, cur1)) = (Done (v, cur') : outcome lexer_error _) →
    ∃ text, reads cur text cur') as Hint.
  { intros [v0| |]; cbn; [|done..]. intros [= <- <-]. eauto. }
  destruct (rest cur1) as [|dot [|next r]] eqn:Hrest; [apply Hint..|].
  destruct (_ && _); [|apply Hint]. cbn [tail].
  set (cur2 := advance dot (next :: r) (at_line cur1) (at_column cur1)).
  pose proof (skip_while_reads isdigit cur2) as Hf.
  destruct (skip_while isdigit cur2) as [fraction cur3]. cbn [fst snd] in Hf.
  destruct (float_literal _ _) as [v0| |]; cbn; [|done..]. intros [= <- <-].
  exists (digits ++ dot :: fraction). eapply reads_app; [done|]. by apply (reads_cons dot (next :: r)).
Qed.

Lemma interpolation_reads r l k sl sc depth i e acc expr cur' :
  interpolation r l k sl sc depth i e acc = Done (expr, cur') →
  ∃ text, reads (mk_cursor r l k) text cur'.
Proof.
  revert l k depth i e acc. induction r as [|c r IH]; intros l k depth i e acc; [done|].
  cbn [interpolation].
  assert (∀ d i' e' acc', interpolation r (at_line (advance c r l k)) (at_column (advance c r l k))
            sl sc d i' e' acc' = Done (expr, cur') →
          ∃ text, reads (mk_cursor (c :: r) l k) text cur') as Hrec.
  { intros d i' e' acc' (text & Ht)%IH. exists (c :: text). apply (reads_cons c r); [done|].
    cbn [at_line at_column]. pose proof (rest_advance c r l k) as Hr.
    destruct (advance c r l k). cbn in *. by subst. }
  repeat case_match; try done; try apply Hrec.
  intros [= <- <-]. exists [c]. apply reads_advance.
Qed.

Lemma string_loop_reads fuel sl sc cur segments text r cur' :
  string_loop fuel sl sc cur segments text = Done (r, cur') → ∃ t, reads cur t cur'.
Proof.
  revert cur segments text. induction fuel as [|fuel IH]; intros cur segments text; [done|].
  cbn [string_loop]. destruct (rest cur) as [|c s] eqn:Hrest; [done|].
  destruct (c =? QUOTE); [intros [= <- <-]; eexists; by apply reads_step|].
  destruct (c =? BACKSLASH).
  { destruct s as [|e s]; [done|]. destruct (assoc e ESCAPES); [|done].
    intros (t & Ht)%IH. exists (c :: e :: t). apply (reads_cons c (e :: s)); [done|].
    apply (reads_cons e s); [by rewrite rest_advance|done]. }
  destruct (c =? ch "{").
  { destruct (interpolation _ _ _ _ _ _ _ _ _) as [[expr cur1]| |] eqn:Hi; cbn; [|done..].
    apply interpolation_reads in Hi as (ti & Hi). destruct expr as [|x expr]; [done|].
    intros (t & Ht)%IH. exists (c :: ti ++ t). apply (reads_cons c s); [done|].
    eapply reads_app; [|exact Ht]. pose proof (rest_advance c s (at_line cur) (at_column cur)) as Hr.
    destruct (advance c s (at_line cur) (at_column cur)). cbn in *. by subst. }
  destruct (c =? ch "}"); [done|]. intros (t & Ht)%IH. exists (c :: t). by apply (reads_cons c s).
Qed.

Lemma with_suffix_reads c two one cur : ∃ t, reads cur t (with_suffix c two one cur).2.
Proof.
  unfold with_suffix. destruct (match_char c cur) eqn:E; cbn; [|eauto using reads_nil].
  eauto using match_char_reads.
Qed.

Lemma scan_token_reads keep sl sc c cur r cur' :
  scan_token keep sl sc c cur = Done (r, cur') → ∃ t, reads cur t cur'.
Proof.
  assert (∀ r' : (TokenType * token_value) * cursor, (∃ t, reads cur t r'.2) →
    (Done (Some r'.1, r'.2) : outcome lexer_error _) = Done (r, cur') → ∃ t, reads cur t cur') as Hadd.
  { intros [x y] Hr [= <- <-]. done. }
  assert (∀ c1 cur1, match_char c1 cur = Some cur1 → ∃ t, reads cur t cur1) as Hm
    by eauto using match_char_reads.
  unfold scan_token.
  destruct (bool_decide _); [intros [= <- <-]; eauto using reads_nil|].
  destruct (c =? ch "/").
  { destruct (match_char _ cur) as [cur1|] eqn:E; [|apply Hadd; eauto using reads_nil].
    pose proof (skip_while_reads is_comment_char cur1) as Hr.
    destruct (skip_while _ cur1) as [body cur2]. intros [= <- <-].
    eexists. eapply reads_app; [by eapply match_char_reads|done]. }
  destruct (c =? QUOTE).
  { unfold _string. destruct (string_loop _ _ _ _ _ _) as [[x cur1]| |] eqn:E; cbn; [|done..].
    intros [= <- <-]. by eapply string_loop_reads. }
  destruct (isdigit c).
  { destruct (number c cur) as [[v cur1]| |] eqn:E; cbn; [|done..].
    intros [= <- <-]. by eapply number_reads. }
  destruct (_ || _).
  { pose proof (skip_while_reads is_identifier_char cur) as Hr.
    destruct (skip_while _ cur) as [text cur1]. intros [= <- <-]. eauto. }
  repeat case_match; try done; apply Hadd; eauto using reads_nil, with_suffix_reads.
Qed.

End scanner_moves.

(** * The scanner terminates *)

Lemma reads_length cur t cur' :
  reads cur t cur' → (length (rest cur') + length t = length (rest cur))%nat.
Proof. intros [-> _]. rewrite length_app. lia. Qed.

Lemma interpolation_no_fuel r l k sl sc depth i e acc :
  interpolation r l k sl sc depth i e acc ≠ NoFuel.
Proof.
  revert l k depth i e acc. induction r as [|c r IH]; intros l k depth i e acc; cbn [interpolation];
    [done|]. repeat case_match; done || apply IH.
Qed.

Section scanner_fuel.
Context `{Unicode}.

Lemma string_loop_fuel fuel sl sc cur segments text :
  (length (rest cur) < fuel)%nat → string_loop fuel sl sc cur segments text ≠ NoFuel.
Proof.
  revert cur segments text. induction fuel as [|fuel IH]; intros cur segments text Hf; [lia|].
  cbn [string_loop]. destruct (rest cur) as [|c s] eqn:Hrest; [done|]. cbn [length] in Hf.
  destruct (c =? QUOTE); [done|]. destruct (c =? BACKSLASH).
  { destruct s as [|e s]; [done|]. destruct (assoc e ESCAPES); [|done].
    apply IH. rewrite rest_advance. cbn in Hf. lia. }
  destruct (c =? ch "{").
  { destruct (interpolation _ _ _ _ _ _ _ _ _) as [[expr cur1]| |] eqn:Hi; cbn [mbind outcome_bind];
      [|done|by apply interpolation_no_fuel in Hi].
    apply interpolation_reads in Hi as (t & Ht%reads_length). cbn [rest] in Ht.
    destruct expr; [done|]. apply IH. lia. }
  destruct (c =? ch "}"); [done|]. apply IH. rewrite rest_advance. lia.
Qed.

Lemma scan_token_no_fuel keep sl sc c cur : scan_token keep sl sc c cur ≠ NoFuel.
Proof.
  unfold scan_token. destruct (bool_decide _); [done|].
  destruct (c =? ch "/"); [repeat case_match; done|].
  destruct (c =? QUOTE).
  { unfold _string. destruct (string_loop _ _ _ _ _ _) eqn:E; [done..|].
    by apply string_loop_fuel in E; [|lia]. }
  destruct (isdigit c).
  { unfold number. destruct (skip_while isdigit cur) as [digits cur1].
    unfold float_literal, int_literal. by repeat case_match. }
  repeat case_match; done.
Qed.

Lemma tokenize_loop_fuel fuel keep cur :
  (length (rest cur) < fuel)%nat → tokenize_loop fuel keep cur ≠ NoFuel.
Proof.
  revert cur. induction fuel as [|fuel IH]; intros cur Hf; [lia|]. cbn [tokenize_loop].
  destruct (rest cur) as [|c r]; [done|]. cbn [length] in Hf.
  destruct (scan_token _ _ _ _ _) as [[tok cur1]| |] eqn:Hs; cbn [mbind outcome_bind];
    [|done|by apply scan_token_no_fuel in Hs].
  apply scan_token_reads in Hs as (t & Ht%reads_length). rewrite rest_advance in Ht.
  destruct (tokenize_loop fuel keep cur1) eqn:E; [done..|]. by apply IH in E; [|lia].
Qed.

End scanner_fuel.

(** * Interpolated expressions *)

(** The states of [_interpolation_expression] over text that does not end it. *)
Fixpoint interp_scan (depth : Z) (in_string escaped : bool) (s : ustring) : option (Z * bool * bool) :=
  match s with
  | [] => Some (depth, in_string, escaped)
  | c :: s =>
      if in_string then
        if escaped then interp_scan depth true false s
        else if c =? BACKSLASH then interp_scan depth true true s
        else if c =? QUOTE then interp_scan depth false false s
        else if c =? NEWLINE then None
        else interp_scan depth true false s
      else if c =? QUOTE then interp_scan depth true escaped s
      else if c =? ch "{" then interp_scan (depth + 1) false escaped s
      else if c =? ch "}" then
        if depth - 1 =? 0 then None else interp_scan (depth - 1) false escaped s
      else if c =? NEWLINE then None
      else interp_scan depth false escaped s
  end.

Lemma interp_scan_app depth i e s1 s2 :
  interp_scan depth i e (s1 ++ s2) =
  '(depth, i, e) ← interp_scan depth i e s1; interp_scan depth i e s2.
Proof.
  revert depth i e. induction s1 as [|c s1 IH]; intros depth i e; [done|].
  cbn [app interp_scan]. repeat case_match; done || apply IH.
Qed.

(** White space changes no state outside strings and ends none inside. *)
Lemma interp_scan_space depth i e w depth' e' :
  Forall (λ c, py_isspace c = true) w →
  interp_scan depth i e w = Some (depth', false, e') → depth = depth' ∧ i = false ∧ e = e'.
Proof.
  intros Hw. revert depth i e. induction Hw as [|c w Hc _ IH]; intros depth i e; cbn [interp_scan].
  { by intros [= -> -> ->]. }
  assert (c ≠ QUOTE ∧ c ≠ BACKSLASH ∧ c ≠ ch "{" ∧ c ≠ ch "}") as (H1 & H2 & H3 & H4)
    by (split_and!; intros ->; discriminate Hc).
  apply Z.eqb_neq in H1, H2, H3, H4. rewrite H1, H2, H3, H4.
  destruct i, e; repeat case_match; try done; intros Hs; by apply IH in Hs as (? & ? & ?).
Qed.

(** What an interpolation may contain: trimmed text that closes its own braces
and strings. *)
Definition expr_ok (s : ustring) : Prop :=
  stripped s ∧ ∃ e, interp_scan 1 false false s = Some (1, false, e).

Lemma interp_scan_strip s e :
  interp_scan 1 false false s = Some (1, false, e) → strip s ≠ [] → expr_ok (strip s).
Proof.
  intros Hs Hne. split; [by destruct (strip_stripped s)|].
  destruct (strip_decompose s) as (w1 & w2 & E & H1 & H2). rewrite E, interp_scan_app in Hs.
  assert (interp_scan 1 false false w1 = Some (1, false, false)) as Hw1.
  { clear E Hne. revert Hs. generalize (strip s ++ w2). intros rest.
    destruct (interp_scan 1 false false w1) as [[[d i] e']|] eqn:Hw; [|done]. intros _.
    revert Hw. clear H2. generalize false at 2 4. intros e0. revert e0.
    induction H1 as [|c w1 Hc _ IH]; intros e0; cbn [interp_scan]; [by intros [= <- <- <-]|].
    assert (c ≠ QUOTE ∧ c ≠ ch "{" ∧ c ≠ ch "}") as (N1 & N3 & N4)
      by (split_and!; intros ->; discriminate Hc).
    apply Z.eqb_neq in N1, N3, N4. rewrite N1, N3, N4. destruct (c =? NEWLINE); [done|]. apply IH. }
  rewrite Hw1 in Hs. cbn in Hs. rewrite interp_scan_app in Hs.
  destruct (interp_scan 1 false false (strip s)) as [[[d i] e']|]; [|done]. cbn in Hs.
  apply interp_scan_space in Hs as (-> & -> & ->); [|done]. eauto.
Qed.

Lemma interpolation_inv r l k sl sc depth i e acc expr cur' :
  interpolation r l k sl sc depth i e acc = Done (expr, cur') →
  ∃ s e', r = s ++ ch "}" :: rest cur' ∧ interp_scan depth i e s = Some (1, false, e') ∧
    expr = strip (acc ++ s).
Proof.
  revert l k depth i e acc. induction r as [|c r IH]; intros l k depth i e acc; [done|].
  cbn [interpolation]. intros Hi.
  assert (∀ l1 k1 d i1 e1 (Hn : ∀ s, interp_scan depth i e (c :: s) = interp_scan d i1 e1 s),
    interpolation r l1 k1 sl sc d i1 e1 (acc ++ [c]) = Done (expr, cur') →
    ∃ s e', c :: r = s ++ ch "}" :: rest cur' ∧ interp_scan depth i e s = Some (1, false, e') ∧
      expr = strip (acc ++ s)) as Hrec.
  { intros l1 k1 d i1 e1 Hn (s & e' & -> & Hs & ->)%IH. exists (c :: s), e'.
    rewrite Hn. by rewrite <- app_assoc. }
  destruct i; [destruct e|].
  - by apply Hrec in Hi.
  - destruct (Z.eqb_spec c BACKSLASH) as [->|Hb]; [by apply Hrec in Hi|].
    destruct (Z.eqb_spec c QUOTE) as [->|Hq]; [by apply Hrec in Hi|].
    destruct (c =? NEWLINE) eqn:Hn; [done|]. apply Hrec in Hi; [done|]. intros s. cbn [interp_scan].
    apply Z.eqb_neq in Hb, Hq. by rewrite Hb, Hq, Hn.
  - destruct (Z.eqb_spec c QUOTE) as [->|Hq]; [by apply Hrec in Hi|].
    destruct (Z.eqb_spec c (ch "{")) as [->|Ho]; [by apply Hrec in Hi|].
    destruct (Z.eqb_spec c (ch "}")) as [->|Hc].
    { destruct (depth - 1 =? 0) eqn:Hd.
      - injection Hi as <- <-. exists [], e. rewrite rest_advance, app_nil_r.
        apply Z.eqb_eq in Hd. replace depth with 1 by lia. done.
      - apply Hrec in Hi; [done|]. intros s. cbn [interp_scan]. cbn. by rewrite Hd. }
    destruct (c =? NEWLINE) eqn:Hn; [done|]. apply Hrec in Hi; [done|]. intros s. cbn [interp_scan].
    apply Z.eqb_neq in Hq, Ho, Hc. by rewrite Hq, Ho, Hc, Hn.
Qed.

Lemma interpolation_run s e' r l k sl sc depth i e acc :
  interp_scan depth i e s = Some (1, false, e') →
  ∃ cur', interpolation (s ++ ch "}" :: r) l k sl sc depth i e acc = Done (strip (acc ++ s), cur') ∧
    rest cur' = r.
Proof.
  revert l k depth i e acc. induction s as [|c s IH]; intros l k depth i e acc Hs;
    cbn [app interpolation].
  - injection Hs as -> -> ->. cbn. rewrite app_nil_r. by eexists.
  - cbn [interp_scan] in Hs.
    assert (acc ++ c :: s = (acc ++ [c]) ++ s) as -> by by rewrite <- app_assoc.
    destruct i; [destruct e|]; repeat case_match; try done; by apply IH.
Qed.

(** Closed membership in a table. *)
Ltac in_table := apply (bool_decide_unpack _); vm_compute; exact I.

(** * Well-formed tokens *)

(** The texts of operators and punctuation. *)
Definition SYMBOLS : list (TokenType * ustring) :=
  [(SLASH, u "/"); (ARROW, u "->"); (MINUS, u "-"); (FAT_ARROW, u "=>"); (EQUAL_EQUAL, u "==");
   (EQUAL, u "="); (BANG_EQUAL, u "!="); (BANG, u "!"); (AMP_AMP, u "&&"); (PIPE_PIPE, u "||");
   (LESS_EQUAL, u "<="); (LESS, u "<"); (GREATER_EQUAL, u ">="); (GREATER, u ">")] ++
  ((λ ct, (ct.2, [ct.1])) <$> SINGLE_CHAR_TOKENS).

(** Segments of an interpolated string: no empty and no adjacent texts. *)
Fixpoint segments_ok (after_text : bool) (segments : list segment) : Prop :=
  match segments with
  | [] => True
  | TextSegment t :: segments => after_text = false ∧ t ≠ [] ∧ segments_ok true segments
  | ExprSegment e :: segments => expr_ok e ∧ segments_ok false segments
  end.

(** A list of segments that ends in an expression, or is empty. *)
Definition closed_segments (segments : list segment) : Prop :=
  segments_ok false segments ∧
  match last segments with Some s => is_expr s = true | None => True end.

Definition word_type (ty : TokenType) : bool :=
  match ty with TYPE | IDENTIFIER => true | _ => bool_decide (ty ∈ KEYWORDS.*2) end.

Section token_ok.
Context `{Unicode}.

Definition identifier_text (text : ustring) : Prop :=
  match text with
  | [] => False
  | c :: text => (isalpha c || (c =? ch "_")) = true ∧ isdigit c = false ∧
                 Forall (λ c, is_identifier_char c = true) text
  end.

(** What the scanner can produce: the value fits the token type. *)
Inductive token_ok : TokenType → token_value → Prop :=
  | ok_word text : identifier_text text → token_ok (identifier_type text) (VText text)
  | ok_string s : token_ok STRING (VText s)
  | ok_interp segments :
      segments_ok false segments → existsb is_expr segments = true →
      token_ok STRING_INTERP (VSegments segments)
  | ok_int n :
      0 <= n → Z.of_nat (length (str_nat n)) <= INT_MAX_STR_DIGITS → token_ok NUMBER (VInt n)
  | ok_float w f : w ≠ [] → f ≠ [] → token_ok NUMBER (VFloat w f)
  | ok_comment s : token_ok COMMENT (VText (u "//" ++ s))
  | ok_symbol ty s : (ty, s) ∈ SYMBOLS → token_ok ty (VText s).

End token_ok.

(** The documented range of decimal digits. *)
Class UnicodeDecimals `{Unicode} : Prop :=
  u_decimal_range c d : u_decimal c = Some d → 0 <= d <= 9.

Lemma segments_ok_app b s1 s2 :
  segments_ok b s1 → (s1 = [] → b = false) → 
  match last s1 with Some s => is_expr s = true | None => True end →
  segments_ok false s2 → segments_ok b (s1 ++ s2).
Proof.
  revert b. induction s1 as [|x s1 IH]; intros b H1 Hb Hl H2; cbn [app segments_ok] in *.
  { by rewrite Hb. }
  destruct x as [t|e].
  - destruct H1 as (-> & Ht & H1). split_and!; [done|done|]. destruct s1 as [|y s1]; [done|].
    apply IH; auto. done.
  - destruct H1 as [He H1]. split; [done|]. apply IH; [done|done| |done].
    by destruct s1.
Qed.

Lemma flush_text_ok segments text :
  closed_segments segments → segments_ok false (flush_text segments text).
Proof.
  intros [H1 H2]. destruct text as [|c text]; [done|]. cbn [flush_text].
  apply segments_ok_app; [done|done|done|]. cbn. done.
Qed.

Lemma flush_expr_ok segments text e :
  closed_segments segments → expr_ok e →
  closed_segments (flush_text segments text ++ [ExprSegment e]).
Proof.
  intros [H1 H2] He. split; [|by rewrite last_snoc].
  destruct text as [|c text]; cbn [flush_text].
  - by apply segments_ok_app.
  - rewrite <- app_assoc. by apply segments_ok_app.
Qed.

Lemma identifier_type_word `{Unicode} text : word_type (identifier_type text) = true.
Proof.
  unfold identifier_type. destruct (assoc text KEYWORDS) as [ty|] eqn:E; [|by destruct (_ || _)].
  apply assoc_Some, (list_elem_of_fmap_2 snd) in E. cbn [snd] in E.
  unfold word_type. rewrite bool_decide_true by done. by destruct ty.
Qed.

Lemma symbol_types ty s : (ty, s) ∈ SYMBOLS → ty ≠ EOF ∧ ty ≠ COMMENT.
Proof.
  intros H. assert (Forall (λ ts : TokenType * ustring, ts.1 ≠ EOF ∧ ts.1 ≠ COMMENT) SYMBOLS) as HF
    by (repeat constructor; done).
  rewrite Forall_forall in HF. by apply HF in H.
Qed.

Lemma token_ok_not_eof `{Unicode} ty v : token_ok ty v → ty ≠ EOF.
Proof.
  destruct 1; try done; [|by eapply symbol_types].
  pose proof (identifier_type_word text) as Hw. intros E. by rewrite E in Hw.
Qed.

Section scan_ok.
Context `{HU : Unicode} `{!UnicodeDecimals}.

Lemma decimal_range c d : decimal c = Some d → 0 <= d <= 9.
Proof.
  unfold decimal. destruct (c <? 128); [|apply u_decimal_range].
  destruct (is_ascii_digit c) eqn:Hc; [|done]. apply is_ascii_digit_spec in Hc.
  intros [= <-]. lia.
Qed.

Lemma decimal_digits_range text digits :
  decimal_digits text = Some digits → Forall (λ d, 0 <= d <= 9) digits.
Proof.
  intros E%mapM_Some_1. induction E; constructor; [by eapply decimal_range|done].
Qed.

Lemma digits_value_bound digits acc :
  Forall (λ d, 0 <= d <= 9) digits → 0 <= acc →
  0 <= foldl (λ acc d, 10 * acc + d) acc digits < (acc + 1) * 10 ^ Z.of_nat (length digits).
Proof.
  intros Hd. revert acc. induction Hd as [|d digits Hr _ IH]; intros acc Ha; cbn [foldl length].
  { simpl. lia. }
  specialize (IH (10 * acc + d) ltac:(lia)). rewrite Nat2Z.inj_succ, Z.pow_succ_r by lia. nia.
Qed.

Lemma int_literal_ok text v :
  text ≠ [] → int_literal text = Done v → token_ok NUMBER v.
Proof.
  intros Hne. unfold int_literal, decimal_digits. destruct (mapM decimal text) as [digits|] eqn:E; [|done].
  destruct (Z.ltb_spec INT_MAX_STR_DIGITS (Z.of_nat (length digits))); [done|]. intros [= <-].
  pose proof (decimal_digits_range text digits E) as Hd.
  pose proof (digits_value_bound digits 0 Hd ltac:(lia)) as Hb. fold (digits_value digits) in Hb.
  apply length_mapM in E. assert (length text ≠ 0%nat) by (by destruct text).
  constructor; [lia|]. etrans; [apply (str_nat_length _ (Z.of_nat (length digits))); lia|done].
Qed.

Lemma float_literal_ok whole fraction v :
  whole ≠ [] → fraction ≠ [] → float_literal whole fraction = Done v → token_ok NUMBER v.
Proof.
  intros Hw Hf. unfold float_literal, decimal_digits.
  destruct (mapM decimal whole) as [w|] eqn:E1; [|done].
  destruct (mapM decimal fraction) as [f|] eqn:E2; [|done]. intros [= <-].
  apply length_mapM in E1, E2. constructor.
  - by destruct w; destruct whole.
  - by destruct f; destruct fraction.
Qed.

Lemma number_ok c cur v cur' : number c cur = Done (v, cur') → token_ok NUMBER v.
Proof.
  unfold number. destruct (skip_while isdigit cur) as [digits cur1].
  assert (∀ o, (o = int_literal (c :: digits)) →
    (v0 ← o; Done (v0, cur1)) = (Done (v, cur') : outcome lexer_error _) → token_ok NUMBER v) as Hint.
  { intros [v0| |] Ho; cbn; [|done..]. intros [= <- <-]. symmetry in Ho.
    by apply int_literal_ok in Ho. }
  destruct (rest cur1) as [|dot [|next r]]; [by apply Hint..|].
  destruct (_ && _) eqn:Hdot; [|by apply Hint]. cbn [tail].
  destruct (skip_while isdigit (advance _ _ _ _)) as [fraction cur3] eqn:Hs.
  pose proof (skip_while_span isdigit (advance dot (next :: r) (at_line cur1) (at_column cur1))) as [Hf _].
  rewrite Hs, rest_advance in Hf. cbn [fst span] in Hf.
  apply andb_true_iff in Hdot as [_ Hnext]. rewrite Hnext in Hf. cbn [fst] in Hf.
  destruct (float_literal _ _) as [v0| |] eqn:E; cbn; [|done..]. intros [= <- <-].
  apply float_literal_ok in E; [done|done|by rewrite Hf].
Qed.

Lemma string_loop_ok fuel sl sc cur segments text ty v cur' :
  closed_segments segments →
  string_loop fuel sl sc cur segments text = Done ((ty, v), cur') → token_ok ty v.
Proof.
  revert cur segments text. induction fuel as [|fuel IH]; intros cur segments text Hseg; [done|].
  cbn [string_loop]. destruct (rest cur) as [|c s]; [done|].
  destruct (c =? QUOTE).
  { unfold string_token. destruct (existsb _ _) eqn:He; intros [= <- <- <-]; [|constructor].
    constructor; [by apply flush_text_ok|done]. }
  destruct (c =? BACKSLASH); [repeat case_match; try done; by apply IH|].
  destruct (c =? ch "{").
  { destruct (interpolation _ _ _ _ _ _ _ _ _) as [[expr cur1]| |] eqn:Hi; cbn [mbind outcome_bind];
      [|done..].
    apply interpolation_inv in Hi as (raw & e' & _ & Hscan & ->). cbn [app] in *.
    destruct (strip raw) as [|x expr] eqn:Hstrip; [done|]. apply IH. rewrite <- Hstrip.
    apply flush_expr_ok; [done|]. eapply interp_scan_strip; [done|]. by rewrite Hstrip. }
  destruct (c =? ch "}"); [done|]. by apply IH.
Qed.

Lemma with_suffix_ok c two one cur :
  two ∈ SYMBOLS → one ∈ SYMBOLS →
  token_ok (with_suffix c two one cur).1.1 (with_suffix c two one cur).1.2.
Proof.
  intros H2 H1. unfold with_suffix. destruct two, one, (match_char c cur); by apply ok_symbol.
Qed.

Lemma scan_token_ok keep sl sc c cur ty v cur' :
  scan_token keep sl sc c cur = Done (Some (ty, v), cur') → token_ok ty v.
Proof.
  assert (∀ r' : (TokenType * token_value) * cursor, token_ok r'.1.1 r'.1.2 →
    (Done (Some r'.1, r'.2) : outcome lexer_error _) = Done (Some (ty, v), cur') → token_ok ty v) as Hadd.
  { intros [[x y] z] Hr [= <- <- <-]. done. }
  assert (∀ x y z, (x, y) ∈ SYMBOLS →
    (Done (Some (x, VText y), z) : outcome lexer_error _) = Done (Some (ty, v), cur') → token_ok ty v) as Hsym.
  { intros x y z Hin [= <- <- <-]. by apply ok_symbol. }
  unfold scan_token. destruct (bool_decide _); [done|].
  destruct (c =? ch "/").
  { destruct (match_char _ cur); [|apply Hsym; left].
    destruct (skip_while _ _). destruct keep; [|done]. intros [= <- <- <-]. apply ok_comment. }
  destruct (c =? QUOTE).
  { unfold _string. destruct (string_loop _ _ _ _ _ _) as [[[x y] cur1]| |] eqn:E; cbn; [|done..].
    intros [= <- <- <-]. by apply string_loop_ok in E. }
  destruct (isdigit c) eqn:Hdigit.
  { destruct (number c cur) as [[x cur1]| |] eqn:E; cbn; [|done..].
    intros [= <- <- <-]. by eapply number_ok. }
  destruct (_ || _) eqn:Hword.
  { pose proof (skip_while_span is_identifier_char cur) as [Ht _].
    destruct (skip_while _ cur) as [text cur1]. intros [= <- <- <-]. cbn [fst] in Ht. subst text.
    apply ok_word. split_and!; [done|done|]. apply span_fst_Forall. }
  clear Hdigit Hword. repeat (destruct (c =? _); [first
    [ apply Hadd, with_suffix_ok; in_table
    | destruct (match_char _ cur);
        [cbn [fst snd]; apply Hsym; in_table
        |first [done | apply Hadd, with_suffix_ok; in_table]] ]|]).
  destruct (assoc c SINGLE_CHAR_TOKENS) eqn:E; [|done]. apply Hsym.
  apply assoc_Some in E. apply elem_of_app. right. by apply (list_elem_of_fmap_2 (λ ct, (ct.2, [ct.1]))) in E.
Qed.

Lemma scan_token_comment sl sc c cur ty v cur' :
  scan_token false sl sc c cur = Done (Some (ty, v), cur') → ty ≠ COMMENT.
Proof.
  assert (∀ x y z, x ≠ COMMENT →
    (Done (Some (x, y), z) : outcome lexer_error _) = Done (Some (ty, v), cur') → ty ≠ COMMENT) as Hadd.
  { intros x y z Hx [= <- <- <-]. done. }
  unfold scan_token. destruct (bool_decide _); [done|].
  destruct (c =? ch "/"); [destruct (match_char _ cur); [by destruct (skip_while _ _)|by apply Hadd]|].
  destruct (c =? QUOTE).
  { unfold _string. generalize (S (length (rest cur))). intros fuel.
    enough (∀ cur segments text, match string_loop fuel sl sc cur segments text with
              Done r => r.1.1 ≠ COMMENT | _ => True end) as Hs.
    { specialize (Hs cur [] []). destruct (string_loop _ _ _ _ _ _) as [[[x y] z]| |]; cbn; [|done..].
      by apply Hadd. }
    clear. induction fuel as [|fuel IH]; intros cur segments text; [done|]. cbn [string_loop].
    destruct (rest cur) as [|c s]; [done|].
    destruct (c =? QUOTE); [unfold string_token; by destruct (existsb _ _)|].
    destruct (c =? BACKSLASH); [destruct s; [done|]; destruct (assoc _ ESCAPES); [apply IH|done]|].
    destruct (c =? ch "{"); [|destruct (c =? ch "}"); [done|apply IH]].
    destruct (interpolation _ _ _ _ _ _ _ _ _) as [[[|] ?]| |]; try done. apply IH. }
  destruct (isdigit c); [destruct (number c cur) as [[x cur1]| |]; cbn; [by apply Hadd|done..]|].
  destruct (isalpha c || _).
  { destruct (skip_while _ cur) as [text cur1]. apply Hadd.
    pose proof (identifier_type_word (c :: text)) as Hw. intros E. by rewrite E in Hw. }
  unfold with_suffix.
  repeat (destruct (c =? _); [repeat destruct (match_char _ cur); done || by apply Hadd|]).
  destruct (assoc c SINGLE_CHAR_TOKENS) as [x|] eqn:E; [|done]. apply Hadd.
  apply assoc_Some in E. apply (symbol_types x [c]), elem_of_app. right.
  by apply (list_elem_of_fmap_2 (λ ct, (ct.2, [ct.1]))) in E.
Qed.

End scan_ok.

(** * Printed tokens scan back *)

(** What may follow a printed token: the end of the text or a space. *)
Definition separator (r : ustring) : Prop := r = [] ∨ ∃ r', r = 32 :: r'.

Lemma skip_while_stop p s r l k :
  Forall (λ c, p c = true) s → match r with [] => True | c :: _ => p c = false end →
  ∃ cur', skip_while p (mk_cursor (s ++ r) l k) = (s, cur') ∧ rest cur' = r.
Proof.
  intros Hs Hr. pose proof (skip_while_span p (mk_cursor (s ++ r) l k)) as [H1 H2].
  cbn [rest] in H1, H2. rewrite span_stop in H1, H2 by done.
  destruct (skip_while p _) as [t cur']. cbn in *. subst. eauto.
Qed.

Lemma escape_char_cases c :
  (escape_char c = [c] ∧ c ≠ QUOTE ∧ c ≠ BACKSLASH ∧ c ≠ ch "{" ∧ c ≠ ch "}") ∨
  ∃ e, escape_char c = [BACKSLASH; e] ∧ assoc e ESCAPES = Some c.
Proof.
  destruct (decide (c ∈ [BACKSLASH; QUOTE; 10; 13; 9; ch "{"; ch "}"])) as [Hin|Hin].
  - right. repeat (apply elem_of_cons in Hin as [->|Hin]; [eexists; split; reflexivity|]).
    by apply not_elem_of_nil in Hin.
  - left. assert (c ≠ BACKSLASH ∧ c ≠ QUOTE ∧ c ≠ 10 ∧ c ≠ 13 ∧ c ≠ 9 ∧ c ≠ ch "{" ∧ c ≠ ch "}")
      as (? & ? & ? & ? & ? & ? & ?) by set_solver.
    split_and!; try done. unfold escape_char, assoc, FORMAT_ESCAPES. cbn [List.find fst].
    rewrite !bool_decide_false by done. cbn [fmap option_fmap option_map].
    rewrite bool_decide_false; [done|]. intros Hu. vm_compute in Hu. set_solver.
Qed.

Lemma escape_length s : (length s <= length (_escape s))%nat.
Proof.
  unfold _escape. induction s as [|c s IH]; [done|]. cbn [fmap list_fmap concat length].
  rewrite length_app. destruct (escape_char_cases c) as [[-> _]|(e & -> & _)]; cbn [length]; lia.
Qed.

Lemma string_loop_text s sl sc cur R segments text fuel :
  rest cur = _escape s ++ R →
  ∃ cur', rest cur' = R ∧
    string_loop (length s + fuel) sl sc cur segments text =
    string_loop fuel sl sc cur' segments (text ++ s).
Proof.
  revert cur text. induction s as [|c s IH]; intros cur text Hr.
  { exists cur. by rewrite app_nil_r. }
  unfold _escape in *. cbn [fmap list_fmap concat] in Hr. rewrite <- app_assoc in Hr.
  cbn [length Nat.add string_loop]. rewrite (cons_middle c text s), app_assoc.
  destruct (escape_char_cases c) as [(E & H1 & H2 & H3 & H4)|(e & E & He)]; rewrite E in Hr;
    cbn [app] in Hr; rewrite Hr.
  - apply Z.eqb_neq in H1, H2, H3, H4. rewrite H1, H2, H3, H4. apply IH. apply rest_advance.
  - change (BACKSLASH =? QUOTE) with false. rewrite Z.eqb_refl, He. apply IH. apply rest_advance.
Qed.

Lemma string_loop_segments segs b acc text sl sc cur R fuel :
  segments_ok b segs → (if b then text ≠ [] else text = []) →
  rest cur = _render_interpolation segs ++ QUOTE :: R →
  (length (rest cur) < fuel)%nat →
  ∃ cur', string_loop fuel sl sc cur acc text = Done (string_token (flush_text acc text ++ segs), cur') ∧
    rest cur' = R.
Proof.
  unfold _render_interpolation.
  revert b acc text cur fuel. induction segs as [|seg segs IH]; intros b acc text cur fuel Hok Htext Hr Hf.
  - cbn in Hr. destruct fuel as [|fuel]; [lia|]. cbn [string_loop]. rewrite Hr, Z.eqb_refl, app_nil_r.
    eexists. split; [done|apply rest_advance].
  - cbn [fmap list_fmap concat] in Hr. rewrite <- app_assoc in Hr. destruct seg as [t|e]; cbn [segments_ok] in Hok.
    + destruct Hok as (-> & Ht & Hok). subst text. cbn [render_segment] in Hr.
      pose proof (escape_length t) as Hlen. rewrite Hr, length_app in Hf.
      destruct (string_loop_text t sl sc cur _ acc [] (fuel - length t) Hr) as (cur1 & Hr1 & E).
      replace (length t + (fuel - length t))%nat with fuel in E by lia. rewrite E. cbn [app flush_text].
      destruct (IH true acc t cur1 (fuel - length t)%nat) as (cur' & -> & Hr'); [done..|rewrite Hr1; lia|].
      exists cur'. split; [|done]. destruct t; [done|]. cbn [flush_text]. by rewrite <- app_assoc.
    + destruct Hok as [[Hstrip [e' He]] Hok]. cbn [render_segment] in Hr. cbn [app] in Hr.
      destruct fuel as [|fuel]; [lia|]. cbn [string_loop]. rewrite Hr.
      change (ch "{" =? QUOTE) with false. change (ch "{" =? BACKSLASH) with false. rewrite Z.eqb_refl.
      rewrite <- app_assoc. cbn [app].
      destruct (interpolation_run e e' (concat (render_segment <$> segs) ++ QUOTE :: R)
        (at_line (advance (ch "{") (e ++ ch "}" :: concat (render_segment <$> segs) ++ QUOTE :: R) (at_line cur) (at_column cur)))
        (at_column (advance (ch "{") (e ++ ch "}" :: concat (render_segment <$> segs) ++ QUOTE :: R) (at_line cur) (at_column cur)))
        sl sc 1 false false [] He) as (cur1 & -> & Hr1).
      cbn [mbind outcome_bind app]. rewrite strip_id by done.
      destruct e as [|x e]; [by destruct Hstrip|].
      destruct (IH false (flush_text acc text ++ [ExprSegment (x :: e)]) [] cur1 fuel) as (cur' & -> & Hr');
        [done..| |].
      { rewrite Hr1. rewrite Hr in Hf. cbn [length] in Hf. rewrite !length_app in Hf. cbn [length] in Hf.
        rewrite length_app. cbn [length]. lia. }
      exists cur'. split; [|done]. cbn [flush_text]. by rewrite <- app_assoc.
Qed.

Section relex.
Context `{Unicode} `{FloatRepr}.

(** Comments are dropped, and the text of a float is [repr]'s own. *)
Definition reprints (ty : TokenType) (v : token_value) : Prop :=
  ty ≠ COMMENT ∧ match v with VFloat _ _ => False | _ => True end.

Definition scans_back (ty : TokenType) (v : token_value) : Prop :=
  ∃ c body, _render_token ty v = c :: body ∧
    ∀ r l k sl sc, separator r → ∃ cur',
      scan_token false sl sc c (mk_cursor (body ++ r) l k) = Done (Some (ty, v), cur') ∧ rest cur' = r.

Lemma word_start c :
  (isalpha c || (c =? ch "_")) = true → (c ∉ [32; 13; 9; 10]) ∧ c ≠ ch "/" ∧ c ≠ QUOTE.
Proof.
  unfold isalpha, in_range. intros Hc.
  split_and!.
  - intros Hin. repeat (apply elem_of_cons in Hin as [->|Hin]; [by discriminate Hc|]).
    by apply not_elem_of_nil in Hin.
  - intros ->. by discriminate Hc.
  - intros ->. by discriminate Hc.
Qed.

Lemma word_scans_back text : identifier_text text → scans_back (identifier_type text) (VText text).
Proof.
  destruct text as [|c t]; [done|]. intros (Hc & Hd & Ht). exists c, t. split.
  { pose proof (identifier_type_word (c :: t)) as Hw.
    destruct (identifier_type (c :: t)) eqn:E; try done; discriminate Hw. }
  intros r l k sl sc Hr.
  destruct (word_start c Hc) as (H1 & H2 & H3). unfold scan_token.
  rewrite bool_decide_false by done. apply Z.eqb_neq in H2, H3. rewrite H2, H3, Hd, Hc.
  destruct (skip_while_stop is_identifier_char t r l k Ht) as (cur' & -> & Hr').
  { by destruct Hr as [->|(r' & ->)]. }
  exists cur'. split; [|done]. done.
Qed.

Lemma symbol_scans_back ty s : (ty, s) ∈ SYMBOLS → scans_back ty (VText s).
Proof.
  intros Hin. unfold SYMBOLS in Hin. cbn in Hin.
  repeat (apply elem_of_cons in Hin as [Heq|Hin];
    [injection Heq as -> ->; eexists _, _; split; [reflexivity|];
     intros r l k sl sc [->|(r' & ->)]; eexists; split; reflexivity|]).
  by apply not_elem_of_nil in Hin.
Qed.

Lemma digit_isdigit c : is_ascii_digit c = true → isdigit c = true ∧ decimal c = Some (c - 48).
Proof.
  intros Hc. pose proof (proj1 (is_ascii_digit_spec c) Hc). unfold isdigit, decimal.
  destruct (Z.ltb_spec c 128); [|lia]. by rewrite Hc.
Qed.

Lemma decimal_digits_ascii s :
  Forall (λ c, is_ascii_digit c = true) s → decimal_digits s = Some ((λ c, c - 48) <$> s).
Proof.
  unfold decimal_digits. induction 1 as [|c s Hc _ IH]; [done|]. cbn.
  destruct (digit_isdigit c Hc) as [_ ->]. cbn. by rewrite IH.
Qed.

Lemma digits_value_ascii s : digits_value ((λ c, c - 48) <$> s) = dec_value s.
Proof.
  unfold digits_value, dec_value. generalize 0. induction s as [|c s IH]; intros acc; [done|].
  cbn [fmap list_fmap foldl]. apply IH.
Qed.

Lemma int_scans_back n :
  0 <= n → Z.of_nat (length (str_nat n)) <= INT_MAX_STR_DIGITS → scans_back NUMBER (VInt n).
Proof.
  intros Hn Hlen. pose proof (str_nat_canonical n Hn) as [Hd _].
  pose proof (dec_value_str_nat n Hn) as Hv. pose proof (str_nat_nonnil n Hn) as Hne.
  unfold scans_back. cbn [_render_token value_text]. rewrite str_int_nonneg by done.
  assert (int_literal (str_nat n) = Done (VInt n)) as Hlit.
  { unfold int_literal. rewrite decimal_digits_ascii by done. rewrite length_fmap, digits_value_ascii, Hv.
    by destruct (Z.ltb_spec INT_MAX_STR_DIGITS (Z.of_nat (length (str_nat n)))); [lia|]. }
  destruct (str_nat n) as [|c t]; [done|]. exists c, t. split; [done|].
  intros r l k sl sc Hr. inversion Hd as [|? ? Hc Ht]; subst.
  pose proof (proj1 (is_ascii_digit_spec c) Hc). unfold scan_token.
  rewrite bool_decide_false by (intros Hin; set_solver by lia).
  destruct (Z.eqb_spec c (ch "/")); [lia|]. destruct (Z.eqb_spec c QUOTE); [unfold QUOTE in *; lia|].
  destruct (digit_isdigit c Hc) as [-> _]. unfold number.
  destruct (skip_while_stop isdigit t r l k) as (cur' & -> & Hr').
  { eapply Forall_impl; [done|]. intros x Hx. by apply digit_isdigit. }
  { by destruct Hr as [->|(r' & ->)]. }
  rewrite Hr', Hlit. exists cur'. split; [|done].
  by destruct Hr as [->|(r' & ->)]; [|destruct r'].
Qed.

Lemma token_scans_back ty v : token_ok ty v → reprints ty v → scans_back ty v.
Proof.
  intros Hok [Hc Hf]. destruct Hok as [text Ht|s|segs Hs He|n Hn Hl|w f|s|ty s Hin];
    [by apply word_scans_back| | |by apply int_scans_back|done|done|by apply symbol_scans_back].
  - exists QUOTE, (_escape s ++ [QUOTE]). split; [done|]. intros r l k sl sc _.
    rewrite <- app_assoc. cbn [app]. unfold scan_token.
    rewrite bool_decide_false by (by vm_compute; set_solver). cbn [Z.eqb Pos.eqb QUOTE].
    destruct (string_loop_segments (match s with [] => [] | _ => [TextSegment s] end) false [] [] sl sc
      (mk_cursor (_escape s ++ QUOTE :: r) l k) r (S (length (_escape s ++ QUOTE :: r)))) as (cur' & E & Hr').
    + by destruct s.
    + done.
    + destruct s; cbn; by rewrite ?app_nil_r.
    + cbn [rest]. lia.
    + unfold _string. cbn [rest]. rewrite E. exists cur'. split; [|done]. by destruct s.
  - exists QUOTE, (_render_interpolation segs ++ [QUOTE]). split; [done|]. intros r l k sl sc _.
    rewrite <- app_assoc. cbn [app]. unfold scan_token.
    rewrite bool_decide_false by (by vm_compute; set_solver).
    destruct (string_loop_segments segs false [] [] sl sc
      (mk_cursor (_render_interpolation segs ++ QUOTE :: r) l k) r
      (S (length (_render_interpolation segs ++ QUOTE :: r)))) as (cur' & E & Hr'); [done..|cbn [rest]; lia|].
    unfold _string. cbn [rest]. rewrite E. exists cur'. split; [|done].
    unfold string_token. cbn [flush_text app]. by rewrite He.
Qed.

End relex.

(** * Whole token lists *)

Definition token_pair (t : Token) : TokenType * token_value := (type t, value t).

(** The printed tokens of a list, one space apart, its end marker left out. *)
Definition print_tokens `{FloatRepr} (tokens : list Token) : ustring :=
  join (u " ") ((λ t, _render_token (type t) (value t)) <$> removelast tokens).

Definition position_at (source : ustring) (offset : nat) : Z * Z :=
  foldl move1 (1, 1) (take offset source).

Definition is_comment (t : Token) : bool := bool_decide (type t = COMMENT).

Section whole.
Context `{HU : Unicode}.

Lemma tokenize_loop_last fuel keep cur tokens :
  tokenize_loop fuel keep cur = Done tokens →
  ∃ body l k, tokens = body ++ [mk_token EOF VNone l k].
Proof.
  revert cur tokens. induction fuel as [|fuel IH]; intros cur tokens; [done|]. cbn [tokenize_loop].
  destruct (rest cur) as [|c r]; [intros [= <-]; by exists [], (at_line cur), (at_column cur)|].
  destruct (scan_token _ _ _ _ _) as [[tok cur1]| |]; cbn [mbind outcome_bind]; [|done..].
  destruct (tokenize_loop fuel keep cur1) as [toks| |] eqn:E; cbn [mbind outcome_bind]; [|done..].
  apply IH in E as (body & l & k & ->). intros [= <-]. destruct tok as [[ty v]|].
  - by eexists (_ :: body), l, k.
  - by exists body, l, k.
Qed.

Lemma tokenize_loop_positions `{!UnicodeDecimals} fuel keep cur pre tokens :
  tokenize_loop fuel keep cur = Done tokens →
  position cur = foldl move1 (1, 1) pre →
  ∃ body offsets,
    tokens = body ++ [mk_token EOF VNone (position_at (pre ++ rest cur) (length (pre ++ rest cur))).1
                        (position_at (pre ++ rest cur) (length (pre ++ rest cur))).2] ∧
    Forall (λ t, token_ok (type t) (value t)) body ∧
    Forall2 (λ t o, (line t, column t) = position_at (pre ++ rest cur) o) body offsets ∧
    StronglySorted lt offsets ∧
    Forall (λ o, length pre <= o < length (pre ++ rest cur))%nat offsets.
Proof.
  revert cur pre tokens. induction fuel as [|fuel IH]; intros cur pre tokens; [done|].
  cbn [tokenize_loop]. intros Ht Hpos. destruct (rest cur) as [|c r] eqn:Hrest.
  { injection Ht as <-. exists [], []. rewrite app_nil_r. unfold position_at.
    rewrite take_ge, <- Hpos by done. split_and!; try done. constructor. }
  destruct (scan_token _ _ _ _ _) as [[tok cur1]| |] eqn:Hs; cbn [mbind outcome_bind] in Ht; [|done..].
  destruct (tokenize_loop fuel keep cur1) as [toks| |] eqn:Hl; cbn [mbind outcome_bind] in Ht; [|done..].
  pose proof Hs as (t & Hread)%scan_token_reads.
  assert (reads cur (c :: t) cur1) as [Hr1 Hp1] by by apply (reads_cons c r).
  rewrite Hrest in Hr1. rewrite Hpos, <- foldl_app in Hp1.
  destruct (IH cur1 (pre ++ c :: t) toks Hl Hp1) as (body & offsets & -> & Hok & H2 & Hsorted & Hrange).
  rewrite <- app_assoc, <- Hr1 in *.
  assert (Forall (λ o, length pre < o)%nat offsets) as Hlt.
  { eapply Forall_impl; [exact Hrange|]. cbn. intros o Ho. rewrite length_app in Ho. cbn in Ho. lia. }
  assert (Forall (λ o, length pre <= o < length (pre ++ c :: r))%nat offsets) as Hrange'.
  { eapply Forall_impl; [exact Hrange|]. cbn. intros o Ho. rewrite length_app in Ho. lia. }
  destruct tok as [[ty v]|]; injection Ht as <-; [|by exists body, offsets].
  exists (mk_token ty v (at_line cur) (at_column cur) :: body), (length pre :: offsets).
  split_and!; [done|constructor; [by eapply scan_token_ok|done]|constructor; [|done]|by constructor|].
  - cbn [line column]. unfold position_at. by rewrite take_app_length, <- Hpos.
  - constructor; [|done]. rewrite length_app. cbn. lia.
Qed.

(** Keeping comments changes nothing but the comment tokens. *)
Lemma scan_token_keep sl sc c cur :
  scan_token false sl sc c cur =
  match scan_token true sl sc c cur with
  | Done (Some (ty, v), cur') => Done (if bool_decide (ty = COMMENT) then None else Some (ty, v), cur')
  | o => o
  end.
Proof.
  destruct (Z.eqb_spec c (ch "/")) as [->|Hc].
  - unfold scan_token. rewrite Z.eqb_refl. destruct (bool_decide _); [done|].
    destruct (match_char _ cur); [by destruct (skip_while _ _)|done].
  - assert (scan_token true sl sc c cur = scan_token false sl sc c cur) as ->.
    { unfold scan_token. apply Z.eqb_neq in Hc. by rewrite Hc. }
    destruct (scan_token false sl sc c cur) as [[[[ty v]|] cur']| |] eqn:E; try done.
    apply scan_token_comment in E. by rewrite bool_decide_false.
Qed.

Lemma tokenize_loop_comments fuel cur :
  tokenize_loop fuel false cur =
  (tokens ← tokenize_loop fuel true cur; Done (List.filter (λ t, negb (is_comment t)) tokens)).
Proof.
  revert cur. induction fuel as [|fuel IH]; intros cur; [done|]. cbn [tokenize_loop].
  destruct (rest cur) as [|c r]; [done|]. rewrite scan_token_keep.
  destruct (scan_token true _ _ _ _) as [[[[ty v]|] cur1]| |]; cbn [mbind outcome_bind]; [| |done..].
  - rewrite IH.
    destruct (tokenize_loop fuel true cur1) as [toks| |]; cbn [mbind outcome_bind]; [|done..].
    cbn [List.filter].
    change (is_comment (mk_token ty v (at_line cur) (at_column cur))) with (bool_decide (ty = COMMENT)).
    by destruct (bool_decide (ty = COMMENT)).
  - rewrite IH. by destruct (tokenize_loop fuel true cur1).
Qed.

Context `{FloatRepr}.

Lemma tokenize_loop_printed body l0 k0 cur fuel :
  Forall (λ t, token_ok (type t) (value t) ∧ reprints (type t) (value t)) body →
  rest cur = print_tokens (body ++ [mk_token EOF VNone l0 k0]) →
  (length (rest cur) < fuel)%nat →
  ∃ tokens, tokenize_loop fuel false cur = Done tokens ∧
    token_pair <$> tokens = (token_pair <$> body) ++ [(EOF, VNone)].
Proof.
  unfold print_tokens. rewrite removelast_last. intros Hb. revert cur fuel.
  induction Hb as [|t body [Hok Hre] Hb IH]; intros cur fuel Hr Hf.
  { destruct fuel as [|fuel]; [lia|]. cbn [tokenize_loop]. rewrite Hr. by eexists. }
  destruct (token_scans_back _ _ Hok Hre) as (c & text & Hrender & Hscan).
  destruct fuel as [|fuel]; [lia|]. cbn [tokenize_loop].
  set (rest' := match body with
                | [] => []
                | _ => 32 :: join (u " ") ((λ t, _render_token (type t) (value t)) <$> body) end).
  assert (rest cur = c :: text ++ rest') as Hr'.
  { rewrite Hr. cbn [fmap list_fmap]. destruct body as [|t' body]; cbn [join fmap list_fmap];
      rewrite Hrender; unfold rest'; [by rewrite app_nil_r|done]. }
  rewrite Hr'. rewrite Hr' in Hf. cbn [length] in Hf. rewrite length_app in Hf.
  rewrite advance_eta. destruct (Hscan rest' (at_line (advance c (text ++ rest') (at_line cur) (at_column cur)))
    (at_column (advance c (text ++ rest') (at_line cur) (at_column cur))) (at_line cur) (at_column cur))
    as (cur1 & -> & Hr1); [unfold rest'; destruct body; [by left|right; eauto]|].
  cbn [mbind outcome_bind].
  enough (∃ tokens, tokenize_loop fuel false cur1 = Done tokens ∧
            token_pair <$> tokens = (token_pair <$> body) ++ [(EOF, VNone)]) as (toks & -> & Htoks).
  { cbn [mbind outcome_bind]. eexists. split; [done|]. cbn [fmap list_fmap app]. by rewrite Htoks. }
  unfold rest' in *. clear rest'. destruct body as [|t' body]; [apply IH; [done|rewrite Hr1; cbn; lia]|].
  destruct fuel as [|fuel]; [cbn in Hf; lia|]. cbn [tokenize_loop]. rewrite Hr1.
  change (scan_token false ?sl ?sc 32 ?k) with
    (Done (None, k) : outcome lexer_error (option (TokenType * token_value) * cursor)).
  cbn [mbind outcome_bind]. 
  destruct (IH (advance 32 (join (u " ") ((λ t, _render_token (type t) (value t)) <$> t' :: body))
    (at_line cur1) (at_column cur1)) fuel) as (toks & -> & Htoks);
    [by rewrite rest_advance|rewrite rest_advance; cbn [length] in Hf; lia|].
  by eexists.
Qed.

End whole.

(** * How much text a token stands for *)

Definition segment_weight (s : segment) : nat :=
  match s with TextSegment _ => 1 | ExprSegment e => length e + 2 end.

Fixpoint segments_weight (segments : list segment) : nat :=
  match segments with [] => 0 | s :: segments => segment_weight s + segments_weight segments end.

Definition value_weight (v : token_value) : nat :=
  match v with VSegments segments => segments_weight segments | _ => 0 end.

Definition token_weight (t : Token) : nat := S (value_weight (value t)).

Fixpoint weight (ts : list Token) : nat :=
  match ts with [] => 0 | t :: ts => token_weight t + weight ts end.

Lemma segments_weight_app s1 s2 :
  segments_weight (s1 ++ s2) = (segments_weight s1 + segments_weight s2)%nat.
Proof. induction s1; simpl; lia. Qed.

Lemma flush_text_weight segments text :
  (segments_weight (flush_text segments text) <= segments_weight segments + length text)%nat.
Proof.
  destruct text; cbn [flush_text length]; [lia|]. rewrite segments_weight_app. simpl. lia.
Qed.

Lemma string_loop_weight fuel sl sc cur segments text ty v cur' :
  string_loop fuel sl sc cur segments text = Done ((ty, v), cur') →
  (value_weight v + length (rest cur') + 1 <=
   segments_weight segments + length text + length (rest cur))%nat.
Proof.
  revert cur segments text. induction fuel as [|fuel IH]; intros cur segments text; [done|].
  cbn [string_loop]. destruct (rest cur) as [|c s]; [done|].
  destruct (c =? QUOTE).
  { unfold string_token. pose proof (flush_text_weight segments text).
    destruct (existsb _ _); intros [= <- <- <-]; rewrite rest_advance; cbn [value_weight length]; lia. }
  destruct (c =? BACKSLASH).
  { destruct s as [|e s]; [done|]. destruct (assoc e ESCAPES); [|done].
    intros H%IH. rewrite rest_advance, length_app in H. cbn [length] in *. lia. }
  destruct (c =? ch "{").
  { destruct (interpolation _ _ _ _ _ _ _ _ _) as [[expr cur1]| |] eqn:Hi; cbn [mbind outcome_bind];
      [|done..].
    apply interpolation_inv in Hi as (raw & e' & -> & _ & ->). cbn [app].
    pose proof (strip_length raw) as Hs. destruct (strip raw) as [|x expr]; [done|].
    intros H%IH. pose proof (flush_text_weight segments text).
    rewrite segments_weight_app in H. cbn [segments_weight segment_weight] in H.
    cbn [length] in *. rewrite length_app. cbn [length]. lia. }
  destruct (c =? ch "}"); [done|]. intros H%IH. rewrite rest_advance, length_app in H.
  cbn [length] in *. lia.
Qed.

Lemma with_suffix_value c two one cur :
  value_weight (with_suffix c two one cur).1.2 = 0%nat.
Proof. unfold with_suffix. by destruct (match_char c cur). Qed.

Lemma scan_token_weight `{Unicode} keep sl sc c cur ty v cur' :
  scan_token keep sl sc c cur = Done (Some (ty, v), cur') →
  (value_weight v + length (rest cur') <= length (rest cur))%nat.
Proof.
  intros Hs. pose proof (scan_token_reads _ _ _ _ _ _ _ Hs) as (t & Ht%reads_length).
  enough (value_weight v = 0%nat ∨ value_weight v + length (rest cur') <= length (rest cur))%nat by lia.
  assert (∀ r' : (TokenType * token_value) * cursor, value_weight r'.1.2 = 0%nat →
    (Done (Some r'.1, r'.2) : outcome lexer_error _) = Done (Some (ty, v), cur') →
    value_weight v = 0%nat) as Hadd.
  { intros [[x y] z] Hr [= <- <- <-]. done. }
  revert Hs. unfold scan_token.
  destruct (bool_decide _); [done|].
  destruct (c =? ch "/").
  { left. revert Hs. destruct (match_char _ cur); [destruct (skip_while _ _)|by apply Hadd].
    destruct keep; [|done]. by intros [= <- <- <-]. }
  destruct (c =? QUOTE).
  { unfold _string. destruct (string_loop _ _ _ _ _ _) as [[[x y] cur1]| |] eqn:E; cbn; [|done..].
    intros [= <- <- <-]. apply string_loop_weight in E. cbn in E. right. lia. }
  left. revert Hs. destruct (isdigit c).
  { unfold number. destruct (skip_while _ _) as [digits cur1].
    repeat (case_match; try done); unfold float_literal, int_literal;
      repeat (case_match; try done); cbn; by intros [= <- <- <-]. }
  destruct (isalpha c || _); [destruct (skip_while _ _); by apply Hadd|].
  repeat (destruct (c =? _); [repeat destruct (match_char _ cur);
    try done; by apply Hadd; rewrite ?with_suffix_value|]).
  destruct (assoc _ _); [by apply Hadd|done].
Qed.

(** A list of tokens as the scanner makes it: [EOF] is last. *)
Definition terminated (ts : list Token) : Prop := ∃ t, last ts = Some t ∧ type t = EOF.

Lemma tokenize_loop_weight `{Unicode} fuel keep cur ts :
  tokenize_loop fuel keep cur = Done ts → (weight ts <= length (rest cur) + 1)%nat.
Proof.
  revert cur ts. induction fuel as [|fuel IH]; intros cur ts; [done|]. cbn [tokenize_loop].
  destruct (rest cur) as [|c r] eqn:Hr; [by intros [= <-]|].
  destruct (scan_token _ _ _ _ _) as [[tok cur1]| |] eqn:Hs; cbn [mbind outcome_bind]; [|done..].
  destruct (tokenize_loop fuel keep cur1) as [toks| |] eqn:E; cbn [mbind outcome_bind]; [|done..].
  apply IH in E. destruct tok as [[ty v]|]; intros [= <-].
  - apply scan_token_weight in Hs. rewrite rest_advance in Hs.
    cbn [weight length]. unfold token_weight. cbn [value]. lia.
  - apply scan_token_reads in Hs as (t & Ht%reads_length). rewrite rest_advance in Ht.
    cbn [length]. lia.
Qed.

Lemma tokenize_weight `{Unicode} keep source ts :
  tokenize keep source = Done ts → (weight ts <= length source + 1)%nat ∧ terminated ts.
Proof.
  intros Ht. split; [by apply tokenize_loop_weight in Ht|].
  apply tokenize_loop_last in Ht as (body & l & k & ->). eexists. by rewrite last_snoc.
Qed.

(** * A concrete alphabet for the witnesses: nothing but ASCII *)

Definition ascii_only : Unicode :=
  {| u_isdigit _ := false; u_isalpha _ := false; u_isalnum _ := false; u_isupper _ := false;
     u_decimal _ := None |}.

Lemma ascii_only_decimals : UnicodeDecimals (H := ascii_only).
Proof. intros c d Hc. discriminate Hc. Qed.

(** * Properties *)

(** [tokenize] terminates on every source (its fuel, one more than the length,
is never exhausted), and what it returns is well formed: an [EOF] token at the
position behind the source ends the list and occurs nowhere else, every other
token has a value of its type's shape, no identifier or type is a reserved word,
and the recorded line and column of each token are those of a source offset,
strictly later for each token. *)
Theorem tokenize_total `{Unicode} `{!UnicodeDecimals} (keep_comments : bool) (source : ustring) :
  tokenize keep_comments source ≠ NoFuel ∧
  ∀ tokens, tokenize keep_comments source = Done tokens →
  ∃ body offsets,
    tokens = body ++ [mk_token EOF VNone (position_at source (length source)).1
                        (position_at source (length source)).2] ∧
    Forall (λ t, token_ok (type t) (value t) ∧ type t ≠ EOF) body ∧
    Forall2 (λ t o, (line t, column t) = position_at source o) body offsets ∧
    StronglySorted lt offsets ∧ Forall (λ o, o < length source)%nat offsets.
Proof.
  split; [apply tokenize_loop_fuel; cbn; lia|]. intros tokens Ht.
  destruct (tokenize_loop_positions _ _ _ [] _ Ht) as (body & offsets & Htoks & Hok & H2 & Hs & Hr);
    [done|].
  exists body, offsets. split_and!; [done| |done|done|].
  - eapply Forall_impl; [exact Hok|]. cbn. eauto using token_ok_not_eof.
  - eapply Forall_impl; [exact Hr|]. cbn. lia.
Qed.

Lemma tokenize_total_witness :
  ∃ body offsets,
    [mk_token KA (VText (u "ka")) 2 1; mk_token EOF VNone 2 3] =
      body ++ [mk_token EOF VNone (position_at (10 :: u "ka") 3).1 (position_at (10 :: u "ka") 3).2] ∧
    Forall2 (λ t o, (line t, column t) = position_at (10 :: u "ka") o) body offsets.
Proof.
  destruct (proj2 (@tokenize_total ascii_only ascii_only_decimals false (10 :: u "ka"))
    [mk_token KA (VText (u "ka")) 2 1; mk_token EOF VNone 2 3]) as (body & offsets & H1 & _ & H2 & _).
  - vm_compute. reflexivity.
  - exists body, offsets. split; [exact H1|exact H2].
Defined.

(** Comments do not influence the scan.  [tokenize] without comments fails
exactly when [tokenize] with comments does, with the same error, and otherwise
returns the same tokens, positions included, less the comments. *)
Theorem tokenize_comments `{Unicode} (source : ustring) :
  tokenize false source =
  (tokens ← tokenize true source; Done (List.filter (λ t, negb (is_comment t)) tokens)).
Proof. apply tokenize_loop_comments. Qed.

(** C33: printing tokens with [_render_token] and scanning the text again gives the
same tokens.  For every source that scans, and in which no float literal occurs,
the printed token list scans to tokens of the same types and values: escapes,
interpolations, keywords, operators and integer literals all survive. *)
Theorem print_tokens_roundtrip `{Unicode} `{!UnicodeDecimals} `{FloatRepr} (source : ustring)
    (tokens : list Token) :
  tokenize false source = Done tokens →
  Forall (λ t, match value t with VFloat _ _ => False | _ => True end) tokens →
  ∃ tokens', tokenize false (print_tokens tokens) = Done tokens' ∧
    token_pair <$> tokens' = token_pair <$> tokens.
Proof.
  intros Ht Hf. pose proof (tokenize_loop_comments (S (length source)) (mk_cursor source 1 1)) as Hc.
  fold (tokenize false source) (tokenize true source) in Hc. rewrite Ht in Hc.
  destruct (tokenize_loop_positions _ _ _ [] _ Ht) as (body & offsets & -> & Hok & _); [done|].
  apply Forall_app in Hf as [Hf _].
  assert (Forall (λ t, token_ok (type t) (value t) ∧ reprints (type t) (value t)) body) as Hb.
  { destruct (tokenize true source) as [toks| |]; [|done..]. injection Hc as Hc.
    apply Forall_forall. intros t Hin. rewrite Forall_forall in Hok, Hf. split; [auto|].
    split; [|by apply Hf]. assert (t ∈ List.filter (λ t, negb (is_comment t)) toks) as Hin'
      by (rewrite <- Hc; apply elem_of_app; by left).
    apply list_elem_of_In, filter_In in Hin' as [_ Hn].
    unfold is_comment in Hn. by case_bool_decide. }
  destruct (tokenize_loop_printed body _ _ (mk_cursor (print_tokens (body ++ [mk_token EOF VNone
    (position_at source (length source)).1 (position_at source (length source)).2])) 1 1)
    (S (length (print_tokens (body ++ [mk_token EOF VNone
    (position_at source (length source)).1 (position_at source (length source)).2])))) Hb eq_refl)
    as (tokens' & Hrun & Hpairs); [cbn; lia|].
  exists tokens'. split; [exact Hrun|]. by rewrite Hpairs, fmap_app.
Qed.

Lemma print_tokens_roundtrip_witness :
  ∃ tokens', @tokenize ascii_only false (u "let x = 7 ;") = Done tokens' ∧
    token_pair <$> tokens' = [(LET, VText (u "let")); (IDENTIFIER, VText (u "x"));
      (EQUAL, VText (u "=")); (NUMBER, VInt 7); (SEMICOLON, VText (u ";")); (EOF, VNone)].
Proof.
  apply (@print_tokens_roundtrip ascii_only ascii_only_decimals (λ w f, w) (u "let x=007; // c")
    [mk_token LET (VText (u "let")) 1 1; mk_token IDENTIFIER (VText (u "x")) 1 5;
     mk_token EQUAL (VText (u "=")) 1 6; mk_token NUMBER (VInt 7) 1 7;
     mk_token SEMICOLON (VText (u ";")) 1 10; mk_token EOF VNone 1 16]).
  - vm_compute. reflexivity.
  - repeat constructor.
Defined.
