(* ===== verification/Ast.v ===== *)
(** The syntax tree: [src/koschei/ast_nodes.py], its generic extensions
[src/koschei/generic_nodes.py] and the native sigils
[src/koschei/native_sigils_v1.py].

One constructor per node class, with the fields in the order of the class.  The
value of a [Literal] is a token's value or a Python [bool]. *)

From S2P Require Import Prelude Lexer.

Record SourceLocation := mk_location {
  loc_line : Z;
  loc_column : Z;
}.

Record TypeRef := mk_type_ref {
  names : list ustring;
  type_location : SourceLocation;
}.

(** [TypeRef.__str__]. *)
Definition type_ref_str (t : TypeRef) : ustring := join (u " or ") (names t).

(** [Parameter] of the source. *)
Record FunctionParameter := mk_parameter {
  parameter_name : ustring;
  parameter_type : TypeRef;
  parameter_location : SourceLocation;
}.

Record ImportDeclaration := mk_import {
  import_name : ustring;
  import_location : SourceLocation;
}.

Record StructField := mk_struct_field {
  field_name : ustring;
  field_type : TypeRef;
  field_location : SourceLocation;
}.

Record EnumVariant := mk_variant {
  variant_name : ustring;
  payload_type : option TypeRef;
  variant_location : SourceLocation;
}.

Inductive literal :=
  | LitValue (v : token_value)
  | LitBool (b : bool).

Inductive Expression :=
  | Identifier (name : ustring) (location : SourceLocation)
  | Literal (value : literal) (location : SourceLocation)
  | InterpolatedString (parts : list Expression) (location : SourceLocation)
  | StructLiteral (type_name : ustring) (fields : list (ustring * Expression))
      (location : SourceLocation)
  | ListLiteral (items : list Expression) (location : SourceLocation)
  | MapLiteral (entries : list (Expression * Expression)) (location : SourceLocation)
  | MemberExpression (object : Expression) (member : ustring) (location : SourceLocation)
  | CallExpression (callee : Expression) (arguments : list Expression) (location : SourceLocation)
  | AssignmentExpression (target value : Expression) (location : SourceLocation)
  | BinaryExpression (left_operand : Expression) (operator : ustring) (right_operand : Expression)
      (location : SourceLocation)
  | UnaryExpression (operator : ustring) (operand : Expression) (location : SourceLocation)
  | OrReturnExpression (value : Expression) (error : option Expression) (location : SourceLocation)
  | OrElseExpression (value fallback : Expression) (location : SourceLocation)
  | OrBlockExpression (value : Expression) (handler : Block) (location : SourceLocation)
  | MatchExpression (value : Expression) (arms : list MatchArm) (location : SourceLocation)
with MatchArm :=
  | mk_arm (variant : ustring) (binding : option ustring) (body : arm_body)
      (location : SourceLocation)
with arm_body :=
  | ArmExpression (e : Expression)
  | ArmBlock (b : Block)
with Statement :=
  | LetStatement (name : ustring) (is_mutable : bool) (value : Expression)
      (location : SourceLocation) (annotation : option TypeRef)
  | ReturnStatement (value : option Expression) (location : SourceLocation)
  | ExpressionStatement (expression : Expression) (location : SourceLocation)
  | IfStatement (condition : Expression) (then_block : Block) (else_branch : option else_branch)
      (location : SourceLocation)
  | WhileStatement (condition : Expression) (body : Block) (location : SourceLocation)
  | ForStatement (variable : ustring) (iterable : Expression) (body : Block)
      (location : SourceLocation)
  | BreakStatement (location : SourceLocation)
  | ContinueStatement (location : SourceLocation)
with else_branch :=
  | ElseBlock (b : Block)
  | ElseIf (s : Statement)
with Block :=
  | mk_block (statements : list Statement).

Definition statements (b : Block) : list Statement := let 'mk_block l := b in l.

Definition location_of (e : Expression) : SourceLocation :=
  match e with
  | Identifier _ l | Literal _ l | InterpolatedString _ l | StructLiteral _ _ l | ListLiteral _ l
  | MapLiteral _ l | MemberExpression _ _ l | CallExpression _ _ l | AssignmentExpression _ _ l
  | BinaryExpression _ _ _ l | UnaryExpression _ _ l | OrReturnExpression _ _ l
  | OrElseExpression _ _ l | OrBlockExpression _ _ l | MatchExpression _ _ l => l
  end.

Record FunctionDeclaration := mk_function {
  function_name : ustring;
  parameters : list FunctionParameter;
  return_type : option TypeRef;
  body : Block;
  function_location : SourceLocation;
  is_pure : bool;
  function_type_parameters : list ustring;
  is_transition : bool;
}.

Record StructDeclaration := mk_struct {
  struct_name : ustring;
  struct_fields : list StructField;
  struct_location : SourceLocation;
  struct_type_parameters : list ustring;
  is_stateful : bool;
  initial_state : option ustring;
}.

Record EnumDeclaration := mk_enum {
  enum_name : ustring;
  variants : list EnumVariant;
  enum_location : SourceLocation;
  enum_type_parameters : list ustring;
}.

(** A sigil is one of the five native roots. *)
Definition CANONICAL_SIGILS : list ustring := [u "ka"; u "vor"; u "shi"; u "thal"; u "nur"].

Record SigilDeclaration := mk_sigil {
  sigil : ustring;
  subject : ustring;
  sigil_location : SourceLocation;
}.

(** [SigilDeclaration.__post_init__]: the checks of the constructor. *)
Definition sigil_valid (s : SigilDeclaration) : bool :=
  bool_decide (sigil s ∈ CANONICAL_SIGILS) && negb (bool_decide (subject s = [])).

Record NativeProgram := mk_program {
  declarations : list FunctionDeclaration;
  structs : list StructDeclaration;
  imports : list ImportDeclaration;
  enums : list EnumDeclaration;
  sigils : list SigilDeclaration;
}.

(** * Equality of nodes

The classes are frozen dataclasses: [==] compares the fields. *)

#[export] Instance literal_eq_dec : EqDecision literal.
Proof. unfold EqDecision, Decision. intros. repeat decide equality. Defined.
#[export] Instance location_eq_dec : EqDecision SourceLocation.
Proof. solve_decision. Defined.
#[export] Instance type_ref_eq_dec : EqDecision TypeRef.
Proof. solve_decision. Defined.

Fixpoint expression_eq_dec (x y : Expression) {struct x} : {x = y} + {x ≠ y}
with arm_eq_dec (x y : MatchArm) {struct x} : {x = y} + {x ≠ y}
with arm_body_eq_dec (x y : arm_body) {struct x} : {x = y} + {x ≠ y}
with statement_eq_dec (x y : Statement) {struct x} : {x = y} + {x ≠ y}
with else_eq_dec (x y : else_branch) {struct x} : {x = y} + {x ≠ y}
with block_eq_dec (x y : Block) {struct x} : {x = y} + {x ≠ y}.
Proof.
  all: decide equality; try (match goal with |- {?a = ?b} + {_} => exact (decide (a = b)) end).
  all: try match goal with |- {_ = _ :> option _} + {_} => decide equality end.
  all: apply List.list_eq_dec; try assumption; intros [??] [??]; decide equality; apply List.list_eq_dec, Z.eq_dec.
Defined.

#[export] Instance MatchArm_eq_dec : EqDecision MatchArm := arm_eq_dec.
