(* ===== verification/Parser.v ===== *)
(** The recursive-descent parser: [src/koschei/_parser_v09.py] with the methods
that [src/koschei/parser.py] overrides and the ones that
[src/koschei/ergonomics_syntax.py] installs.

The state is the list of tokens from [self.current] on; [_previous] is the token
just read.  The functions call each other without a structural argument, so they
take fuel, one unit per call.  Expressions inside interpolated strings are
parsed by the parser of [_parser_v09.py] itself ([legacy]), whose [or return]
does not look at lines. *)

From S2P Require Import Prelude Lexer Ast.

(** * Errors *)

(** The messages of [ParserError], by what they ask for. *)
Inductive syntax_problem :=
  | ExpectedImport | ModuleName
  | ExpectedStruct | StructName | StructOpen | StructClose | FieldName | FieldColon
  | ExpectedEnum | EnumName | EnumOpen | EnumClose | VariantName | VariantPayloadClose
  | ExpectedFn | FunctionName | FunctionOpen | ParametersClose | ParameterName | ParameterColon
  | TypeName | GenericTypeClose | TypeParameterName | TypeParametersClose
  | StartsExpected | InitialStateExpected | SigilSubject
  | BlockOpen | BlockClose
  | LetName | LetEqual | LoopVariable | LoopIn
  | AssignmentTarget
  | CallClose | MemberName | ExpressionExpected | ParenClose | ListClose
  | MapColon | MapClose | StructLiteralOpen | StructLiteralClose
  | MatchOpen | MatchVariant | MatchBinding | MatchBindingClose | MatchArrow | MatchClose
  | SingleExpression.

(** The code that [_parser_error] finds for the message, by the words in it. *)
Definition problem_code (p : syntax_problem) : Z :=
  match p with
  | VariantName | VariantPayloadClose | MatchOpen | MatchVariant | MatchBinding
  | MatchBindingClose | MatchArrow | MatchClose => 1005
  | TypeName | GenericTypeClose | TypeParameterName | TypeParametersClose
  | StartsExpected | InitialStateExpected | LetEqual => 1004
  | ModuleName | StructName | StructOpen | FieldName | FieldColon | EnumName | EnumOpen
  | FunctionName | FunctionOpen | ParameterName | ParameterColon | LetName
  | LoopVariable | LoopIn | MemberName | SigilSubject => 1003
  | _ => 1002
  end.

Inductive parse_error :=
  | ParserError (problem : syntax_problem) (line column : Z)
  | InterpolationError (source : ustring) (line column : Z) (cause : parse_error)
  | SourceError (e : lexer_error)
  | TokenIndexError.

Abbreviation parsed A := (outcome parse_error (A * list Token)).

(** A [SyntaxError] is rewrapped by [_interpolated_string]; other exceptions are not. *)
Definition is_syntax_error (e : parse_error) : bool :=
  match e with
  | ParserError _ _ _ | InterpolationError _ _ _ _ => true
  | SourceError (LexerError _ _ _) => true
  | SourceError LiteralValueError | TokenIndexError => false
  end.

(** * Reading tokens *)

Definition location (t : Token) : SourceLocation := mk_location (line t) (column t).

Definition _peek (ts : list Token) : outcome parse_error Token :=
  match ts with t :: _ => Done t | [] => Raise TokenIndexError end.

Definition _check (ty : TokenType) (ts : list Token) : bool :=
  match ts with t :: _ => bool_decide (type t = ty) | [] => false end.

Definition _check_in (types : list TokenType) (ts : list Token) : bool :=
  match ts with t :: _ => bool_decide (type t ∈ types) | [] => false end.

Definition _is_at_end (ts : list Token) : bool := _check EOF ts.

(** [_error] at the current token. *)
Definition error_here {A} (p : syntax_problem) (ts : list Token) : outcome parse_error A :=
  t ← _peek ts; Raise (ParserError p (line t) (column t)).

(** [_match]: the token it passed, if it did. *)
Definition _match (types : list TokenType) (ts : list Token) : option (Token * list Token) :=
  match ts with
  | t :: ts => if bool_decide (type t ∈ types) then Some (t, ts) else None
  | [] => None
  end.

Definition _consume (ty : TokenType) (p : syntax_problem) (ts : list Token) : parsed Token :=
  match ts with
  | t :: ts' => if bool_decide (type t = ty) then Done (t, ts') else error_here p ts
  | [] => error_here p ts
  end.

(** An optional token, such as the [;] behind a statement. *)
Definition skip (types : list TokenType) (ts : list Token) : list Token :=
  match _match types ts with Some (_, ts) => ts | None => ts end.

(** [token.value] of a name. *)
Definition text_of (t : Token) : ustring := match value t with VText s => s | _ => [] end.

(** [_OR_RETURN_STOP], with the two types that [install_syntax_v010] adds. *)
Definition _OR_RETURN_STOP : list TokenType :=
  [RIGHT_BRACE; SEMICOLON; LET; RETURN; IF_; WHILE; FOR; FN; ENUM; EOF; BREAK; CONTINUE].

(** * Types *)

(** [_type_atom] and the loop over its arguments. *)
Fixpoint _type_atom (fuel : nat) (ts : list Token) : parsed ustring :=
  match fuel with
  | O => NoFuel
  | S fuel =>
      '(token, ts) ← _consume TYPE TypeName ts;
      match _match [LESS] ts with
      | None => Done (text_of token, ts)
      | Some (_, ts) =>
          '(arguments, ts) ← type_arguments fuel ts;
          '(_, ts) ← _consume GREATER GenericTypeClose ts;
          Done (text_of token ++ u "<" ++ join (u ", ") arguments ++ u ">", ts)
      end
  end
with type_arguments (fuel : nat) (ts : list Token) : parsed (list ustring) :=
  match fuel with
  | O => NoFuel
  | S fuel =>
      '(argument, ts) ← _type_atom fuel ts;
      match _match [COMMA] ts with
      | None => Done ([argument], ts)
      | Some (_, ts) => '(arguments, ts) ← type_arguments fuel ts; Done (argument :: arguments, ts)
      end
  end.

(** [while self._match(TokenType.OR): names.append(self._type_atom())]. *)
Fixpoint type_alternatives (fuel : nat) (ts : list Token) : parsed (list ustring) :=
  match fuel with
  | O => NoFuel
  | S fuel =>
      match _match [OR] ts with
      | None => Done ([], ts)
      | Some (_, ts) =>
          '(name, ts) ← _type_atom fuel ts;
          '(names, ts) ← type_alternatives fuel ts;
          Done (name :: names, ts)
      end
  end.

Definition _type_ref (fuel : nat) (ts : list Token) : parsed TypeRef :=
  first ← _peek ts;
  '(name, ts) ← _type_atom fuel ts;
  '(names, ts) ← type_alternatives fuel ts;
  Done (mk_type_ref (name :: names) (location first), ts).

(** * Expressions and statements *)

(** The operators of the left-associative levels, from [_logical_or] (level 0) to
[_factor] (level 5). *)
Definition operators (level : nat) : list TokenType :=
  match level with
  | 0 => [PIPE_PIPE]
  | 1 => [AMP_AMP]
  | 2 => [EQUAL_EQUAL; BANG_EQUAL]
  | 3 => [LESS; LESS_EQUAL; GREATER; GREATER_EQUAL]
  | 4 => [PLUS; MINUS]
  | _ => [STAR; SLASH; PERCENT]
  end%nat.

Definition is_target (e : Expression) : bool :=
  match e with Identifier _ _ | MemberExpression _ _ _ => true | _ => false end.

Section parser.
Context `{Unicode}.

Fixpoint _assignment (fuel : nat) (legacy : bool) (ts : list Token) {struct fuel} : parsed Expression :=
  match fuel with
  | O => NoFuel
  | S fuel =>
      '(expression, ts) ← _or_handler fuel legacy ts;
      match _match [EQUAL] ts with
      | None => Done (expression, ts)
      | Some (equals, ts) =>
          '(value, ts) ← _assignment fuel legacy ts;
          if is_target expression
          then Done (AssignmentExpression expression value (location equals), ts)
          else Raise (ParserError AssignmentTarget (line equals) (column equals))
      end
  end

with _or_handler (fuel : nat) (legacy : bool) (ts : list Token) {struct fuel} : parsed Expression :=
  match fuel with
  | O => NoFuel
  | S fuel =>
      '(expression, ts) ← binary fuel legacy 0 ts;
      or_loop fuel legacy expression ts
  end

(** The [while self._match(TokenType.OR)] loop of [_or_handler]. *)
with or_loop (fuel : nat) (legacy : bool) (expression : Expression) (ts : list Token) {struct fuel}
    : parsed Expression :=
  match fuel with
  | O => NoFuel
  | S fuel =>
      match _match [OR] ts with
      | None => Done (expression, ts)
      | Some (or_token, ts) =>
          match _match [RETURN] ts with
          | Some (return_token, ts) =>
              next_token ← _peek ts;
              if negb (bool_decide (type next_token ∈ _OR_RETURN_STOP))
                 && (legacy || (line next_token =? line return_token))
              then
                '(error, ts) ← binary fuel legacy 0 ts;
                or_loop fuel legacy (OrReturnExpression expression (Some error) (location or_token)) ts
              else or_loop fuel legacy (OrReturnExpression expression None (location or_token)) ts
          | None =>
              if _check LEFT_BRACE ts then
                '(handler, ts) ← _block fuel legacy ts;
                or_loop fuel legacy (OrBlockExpression expression handler (location or_token)) ts
              else
                '(fallback, ts) ← binary fuel legacy 0 ts;
                or_loop fuel legacy (OrElseExpression expression fallback (location or_token)) ts
          end
      end
  end

(** [_logical_or], [_logical_and], [_equality], [_comparison], [_term] and
[_factor], which differ in their operators and in what they call. *)
with binary (fuel : nat) (legacy : bool) (level : nat) (ts : list Token) {struct fuel}
    : parsed Expression :=
  match fuel with
  | O => NoFuel
  | S fuel =>
      '(expression, ts) ← (if (level =? 5)%nat then _unary fuel legacy ts
                           else binary fuel legacy (S level) ts);
      binary_loop fuel legacy level expression ts
  end

with binary_loop (fuel : nat) (legacy : bool) (level : nat) (expression : Expression)
    (ts : list Token) {struct fuel} : parsed Expression :=
  match fuel with
  | O => NoFuel
  | S fuel =>
      match _match (operators level) ts with
      | None => Done (expression, ts)
      | Some (operator, ts) =>
          '(operand, ts) ← (if (level =? 5)%nat then _unary fuel legacy ts
                          else binary fuel legacy (S level) ts);
          binary_loop fuel legacy level
            (BinaryExpression expression (text_of operator) operand (location operator)) ts
      end
  end

with _unary (fuel : nat) (legacy : bool) (ts : list Token) {struct fuel} : parsed Expression :=
  match fuel with
  | O => NoFuel
  | S fuel =>
      match _match [BANG; MINUS] ts with
      | Some (operator, ts) =>
          '(operand, ts) ← _unary fuel legacy ts;
          Done (UnaryExpression (text_of operator) operand (location operator), ts)
      | None => _call fuel legacy ts
      end
  end

with _call (fuel : nat) (legacy : bool) (ts : list Token) {struct fuel} : parsed Expression :=
  match fuel with
  | O => NoFuel
  | S fuel =>
      '(expression, ts) ← _primary fuel legacy ts;
      call_loop fuel legacy expression ts
  end

(** The loop of [_call], [_finish_call] included. *)
with call_loop (fuel : nat) (legacy : bool) (expression : Expression) (ts : list Token)
    {struct fuel} : parsed Expression :=
  match fuel with
  | O => NoFuel
  | S fuel =>
      match _match [LEFT_PAREN] ts with
      | Some (left_paren, ts) =>
          '(arguments, ts) ← (if _check RIGHT_PAREN ts then Done ([], ts)
                              else expressions fuel legacy RIGHT_PAREN ts);
          '(_, ts) ← _consume RIGHT_PAREN CallClose ts;
          call_loop fuel legacy (CallExpression expression arguments (location left_paren)) ts
      | None =>
          match _match [DOT] ts with
          | Some (_, ts) =>
              '(member, ts) ← _consume IDENTIFIER MemberName ts;
              call_loop fuel legacy (MemberExpression expression (text_of member) (location member)) ts
          | None => Done (expression, ts)
          end
      end
  end

(** The comma-separated expressions of a call or a list literal, up to [close]. *)
with expressions (fuel : nat) (legacy : bool) (close : TokenType) (ts : list Token) {struct fuel}
    : parsed (list Expression) :=
  match fuel with
  | O => NoFuel
  | S fuel =>
      '(item, ts) ← _assignment fuel legacy ts;
      match _match [COMMA] ts with
      | None => Done ([item], ts)
      | Some (_, ts) =>
          if _check close ts then Done ([item], ts)
          else '(items, ts) ← expressions fuel legacy close ts; Done (item :: items, ts)
      end
  end

with _primary (fuel : nat) (legacy : bool) (ts : list Token) {struct fuel} : parsed Expression :=
  match fuel with
  | O => NoFuel
  | S fuel =>
      match ts with
      | [] => Raise TokenIndexError
      | token :: ts' =>
          match type token with
          | MATCH => _match_expression fuel legacy token ts'
          | STRING | NUMBER => Done (Literal (LitValue (value token)) (location token), ts')
          | TRUE => Done (Literal (LitBool true) (location token), ts')
          | FALSE => Done (Literal (LitBool false) (location token), ts')
          | STRING_INTERP =>
              parts ← interpolated_parts fuel (location token)
                        (match value token with VSegments segments => segments | _ => [] end);
              Done (InterpolatedString parts (location token), ts')
          | LEFT_BRACKET =>
              '(items, ts) ← (if _check RIGHT_BRACKET ts' then Done ([], ts')
                              else expressions fuel legacy RIGHT_BRACKET ts');
              '(_, ts) ← _consume RIGHT_BRACKET ListClose ts;
              Done (ListLiteral items (location token), ts)
          | LEFT_BRACE =>
              '(entries, ts) ← (if _check RIGHT_BRACE ts' then Done ([], ts')
                                else map_entries fuel legacy ts');
              '(_, ts) ← _consume RIGHT_BRACE MapClose ts;
              Done (MapLiteral entries (location token), ts)
          | IDENTIFIER => Done (Identifier (text_of token) (location token), ts')
          | TYPE =>
              if _check LEFT_BRACE ts' then _struct_literal fuel legacy token ts'
              else Done (Identifier (text_of token) (location token), ts')
          | LEFT_PAREN =>
              '(expression, ts) ← _assignment fuel legacy ts';
              '(_, ts) ← _consume RIGHT_PAREN ParenClose ts;
              Done (expression, ts)
          | _ => error_here ExpressionExpected ts
          end
      end
  end

(** The loop of [_interpolated_string] with [parse_expression] of the text. *)
with interpolated_parts (fuel : nat) (loc : SourceLocation) (segments : list segment) {struct fuel}
    : outcome parse_error (list Expression) :=
  match fuel with
  | O => NoFuel
  | S fuel =>
      match segments with
      | [] => Done []
      | TextSegment text :: segments =>
          parts ← interpolated_parts fuel loc segments;
          Done (Literal (LitValue (VText text)) loc :: parts)
      | ExprSegment content :: segments =>
          let parsed_content :=
            match tokenize false content with
            | Done ts =>
                '(expression, ts) ← _assignment fuel true ts;
                if _is_at_end ts then Done expression else error_here SingleExpression ts
            | Raise e => Raise (SourceError e)
            | NoFuel => NoFuel
            end in
          match parsed_content with
          | Done expression =>
              parts ← interpolated_parts fuel loc segments; Done (expression :: parts)
          | Raise e =>
              if is_syntax_error e
              then Raise (InterpolationError content (loc_line loc) (loc_column loc) e) else Raise e
          | NoFuel => NoFuel
          end
      end
  end

with map_entries (fuel : nat) (legacy : bool) (ts : list Token) {struct fuel}
    : parsed (list (Expression * Expression)) :=
  match fuel with
  | O => NoFuel
  | S fuel =>
      '(key, ts) ← _assignment fuel legacy ts;
      '(_, ts) ← _consume COLON MapColon ts;
      '(value, ts) ← _assignment fuel legacy ts;
      match _match [COMMA] ts with
      | None => Done ([(key, value)], ts)
      | Some (_, ts) =>
          if _check RIGHT_BRACE ts then Done ([(key, value)], ts)
          else '(entries, ts) ← map_entries fuel legacy ts; Done ((key, value) :: entries, ts)
      end
  end

with _struct_literal (fuel : nat) (legacy : bool) (type_token : Token) (ts : list Token) {struct fuel}
    : parsed Expression :=
  match fuel with
  | O => NoFuel
  | S fuel =>
      '(_, ts) ← _consume LEFT_BRACE StructLiteralOpen ts;
      '(fields, ts) ← struct_fields_literal fuel legacy ts;
      '(_, ts) ← _consume RIGHT_BRACE StructLiteralClose ts;
      Done (StructLiteral (text_of type_token) fields (location type_token), ts)
  end

with struct_fields_literal (fuel : nat) (legacy : bool) (ts : list Token) {struct fuel}
    : parsed (list (ustring * Expression)) :=
  match fuel with
  | O => NoFuel
  | S fuel =>
      if _check RIGHT_BRACE ts || _is_at_end ts then Done ([], ts)
      else
        '(name, ts) ← _consume IDENTIFIER FieldName ts;
        '(_, ts) ← _consume COLON FieldColon ts;
        '(e, ts) ← _assignment fuel legacy ts;
        match _match [COMMA] ts with
        | None => Done ([(text_of name, e)], ts)
        | Some (_, ts) =>
            '(fields, ts) ← struct_fields_literal fuel legacy ts;
            Done ((text_of name, e) :: fields, ts)
        end
  end

with _match_expression (fuel : nat) (legacy : bool) (token : Token) (ts : list Token) {struct fuel}
    : parsed Expression :=
  match fuel with
  | O => NoFuel
  | S fuel =>
      '(value, ts) ← (match ts with
                      | t :: t' :: ts' =>
                          if bool_decide (type t = TYPE) && bool_decide (type t' = LEFT_BRACE)
                          then Done (Identifier (text_of t) (location t), t' :: ts')
                          else _assignment fuel legacy ts
                      | _ => _assignment fuel legacy ts
                      end);
      '(_, ts) ← _consume LEFT_BRACE MatchOpen ts;
      '(arms, ts) ← match_arms fuel legacy ts;
      '(_, ts) ← _consume RIGHT_BRACE MatchClose ts;
      Done (MatchExpression value arms (location token), ts)
  end

with match_arms (fuel : nat) (legacy : bool) (ts : list Token) {struct fuel}
    : parsed (list MatchArm) :=
  match fuel with
  | O => NoFuel
  | S fuel =>
      if _check RIGHT_BRACE ts || _is_at_end ts then Done ([], ts)
      else
        '(variant, ts) ← _consume TYPE MatchVariant ts;
        '(binding, ts) ← (match _match [LEFT_PAREN] ts with
                          | Some (_, ts) =>
                              '(name, ts) ← _consume IDENTIFIER MatchBinding ts;
                              '(_, ts) ← _consume RIGHT_PAREN MatchBindingClose ts;
                              Done (Some (text_of name), ts)
                          | None => Done (None, ts)
                          end);
        '(_, ts) ← _consume FAT_ARROW MatchArrow ts;
        '(body, ts) ← (if _check LEFT_BRACE ts
                       then '(b, ts) ← _block fuel legacy ts; Done (ArmBlock b, ts)
                       else '(e, ts) ← _assignment fuel legacy ts; Done (ArmExpression e, ts));
        let arm := mk_arm (text_of variant) binding body (location variant) in
        match _match [COMMA] ts with
        | Some (_, ts) => '(arms, ts) ← match_arms fuel legacy ts; Done (arm :: arms, ts)
        | None =>
            match body with
            | ArmBlock _ => '(arms, ts) ← match_arms fuel legacy ts; Done (arm :: arms, ts)
            | ArmExpression _ => Done ([arm], ts)
            end
        end
  end

with _block (fuel : nat) (legacy : bool) (ts : list Token) {struct fuel} : parsed Block :=
  match fuel with
  | O => NoFuel
  | S fuel =>
      '(_, ts) ← _consume LEFT_BRACE BlockOpen ts;
      '(statements, ts) ← block_statements fuel legacy ts;
      '(_, ts) ← _consume RIGHT_BRACE BlockClose ts;
      Done (mk_block statements, ts)
  end

with block_statements (fuel : nat) (legacy : bool) (ts : list Token) {struct fuel}
    : parsed (list Statement) :=
  match fuel with
  | O => NoFuel
  | S fuel =>
      if _check RIGHT_BRACE ts || _is_at_end ts then Done ([], ts)
      else
        '(s, ts) ← _statement fuel legacy ts;
        '(statements, ts) ← block_statements fuel legacy ts;
        Done (s :: statements, ts)
  end

with _statement (fuel : nat) (legacy : bool) (ts : list Token) {struct fuel} : parsed Statement :=
  match fuel with
  | O => NoFuel
  | S fuel =>
      match ts with
      | [] => Raise TokenIndexError
      | token :: ts' =>
          match type token with
          | BREAK => Done (BreakStatement (location token), skip [SEMICOLON] ts')
          | CONTINUE => Done (ContinueStatement (location token), skip [SEMICOLON] ts')
          | LET => _let_statement fuel legacy token ts'
          | RETURN => _return_statement fuel legacy token ts'
          | IF_ => _if_statement fuel legacy token ts'
          | WHILE =>
              '(condition, ts) ← _assignment fuel legacy ts';
              '(body, ts) ← _block fuel legacy ts;
              Done (WhileStatement condition body (location token), ts)
          | FOR =>
              '(variable, ts) ← _consume IDENTIFIER LoopVariable ts';
              '(_, ts) ← _consume IN LoopIn ts;
              '(iterable, ts) ← _assignment fuel legacy ts;
              '(body, ts) ← _block fuel legacy ts;
              Done (ForStatement (text_of variable) iterable body (location token), ts)
          | _ =>
              '(expression, ts) ← _assignment fuel legacy ts;
              Done (ExpressionStatement expression (location_of expression), skip [SEMICOLON] ts)
          end
      end
  end

with _let_statement (fuel : nat) (legacy : bool) (token : Token) (ts : list Token) {struct fuel}
    : parsed Statement :=
  match fuel with
  | O => NoFuel
  | S fuel =>
      let mutable := _check MUT ts in
      '(name, ts) ← _consume IDENTIFIER LetName (skip [MUT] ts);
      '(annotation, ts) ← (match _match [COLON] ts with
                           | Some (_, ts) => '(t, ts) ← _type_ref fuel ts; Done (Some t, ts)
                           | None => Done (None, ts)
                           end);
      '(_, ts) ← _consume EQUAL LetEqual ts;
      '(value, ts) ← _assignment fuel legacy ts;
      Done (LetStatement (text_of name) mutable value (location token) annotation, skip [SEMICOLON] ts)
  end

with _return_statement (fuel : nat) (legacy : bool) (token : Token) (ts : list Token) {struct fuel}
    : parsed Statement :=
  match fuel with
  | O => NoFuel
  | S fuel =>
      next_token ← _peek ts;
      '(value, ts) ← (if bool_decide (type next_token ∈ _OR_RETURN_STOP) then Done (None, ts)
                      else '(e, ts) ← _assignment fuel legacy ts; Done (Some e, ts));
      Done (ReturnStatement value (location token), skip [SEMICOLON] ts)
  end

with _if_statement (fuel : nat) (legacy : bool) (token : Token) (ts : list Token) {struct fuel}
    : parsed Statement :=
  match fuel with
  | O => NoFuel
  | S fuel =>
      '(condition, ts) ← _assignment fuel legacy ts;
      '(then_block, ts) ← _block fuel legacy ts;
      match _match [ELSE] ts with
      | None => Done (IfStatement condition then_block None (location token), ts)
      | Some (_, ts) =>
          match _match [IF_] ts with
          | Some (if_token, ts) =>
              '(s, ts) ← _if_statement fuel legacy if_token ts;
              Done (IfStatement condition then_block (Some (ElseIf s)) (location token), ts)
          | None =>
              '(b, ts) ← _block fuel legacy ts;
              Done (IfStatement condition then_block (Some (ElseBlock b)) (location token), ts)
          end
      end
  end.

(** * Declarations *)

Definition _import_declaration (ts : list Token) : parsed ImportDeclaration :=
  '(import_token, ts) ← _consume IMPORT ExpectedImport ts;
  '(name, ts) ← _consume IDENTIFIER ModuleName ts;
  Done (mk_import (text_of name) (location import_token), ts).

(** [_match_contextual]. *)
Definition _match_contextual (v : ustring) (ts : list Token) : option (Token * list Token) :=
  match ts with
  | t :: ts' =>
      if bool_decide (type t = IDENTIFIER) && bool_decide (text_of t = v)
      then Some (t, ts') else None
  | [] => None
  end.

Definition _consume_contextual (v : ustring) (p : syntax_problem) (ts : list Token) : parsed Token :=
  match _match_contextual v ts with
  | Some r => Done r
  | None => error_here p ts
  end.

Definition _SIGIL_TOKENS : list (TokenType * ustring) :=
  [(KA, u "ka"); (VOR, u "vor"); (SHI, u "shi"); (THAL, u "thal"); (NUR, u "nur")].

Definition _check_sigil (ts : list Token) : bool := _check_in (_SIGIL_TOKENS.*1) ts.

Definition _sigil_declaration (ts : list Token) : parsed SigilDeclaration :=
  match ts with
  | [] => Raise TokenIndexError
  | token :: ts =>
      subject ← _peek ts;
      if bool_decide (type subject ∈ [IDENTIFIER; TYPE]) then
        Done (mk_sigil (default [] (assoc (type token) _SIGIL_TOKENS)) (text_of subject)
                (location token), skip [SEMICOLON] (tail ts))
      else error_here SigilSubject ts
  end.

(** The loop of [_type_parameters]. *)
Fixpoint type_parameter_names (fuel : nat) (ts : list Token) : parsed (list ustring) :=
  match fuel with
  | O => NoFuel
  | S fuel =>
      '(parameter, ts) ← _consume TYPE TypeParameterName ts;
      match _match [COMMA] ts with
      | None => Done ([text_of parameter], ts)
      | Some (_, ts) =>
          '(names, ts) ← type_parameter_names fuel ts; Done (text_of parameter :: names, ts)
      end
  end.

Definition _type_parameters (fuel : nat) (ts : list Token) : parsed (list ustring) :=
  match _match [LESS] ts with
  | None => Done ([], ts)
  | Some (_, ts) =>
      '(names, ts) ← type_parameter_names fuel ts;
      '(_, ts) ← _consume GREATER TypeParametersClose ts;
      Done (names, ts)
  end.

(** The field loop of [_struct_declaration]. *)
Fixpoint struct_field_list (fuel : nat) (ts : list Token) : parsed (list StructField) :=
  match fuel with
  | O => NoFuel
  | S fuel =>
      if _check RIGHT_BRACE ts || _is_at_end ts then Done ([], ts)
      else
        '(name, ts) ← _consume IDENTIFIER FieldName ts;
        '(_, ts) ← _consume COLON FieldColon ts;
        '(type_ref, ts) ← _type_ref fuel ts;
        let f := mk_struct_field (text_of name) type_ref (location name) in
        match _match [COMMA] ts with
        | Some (_, ts) => '(fields, ts) ← struct_field_list fuel ts; Done (f :: fields, ts)
        | None =>
            if _check RIGHT_BRACE ts then Done ([f], ts)
            else if _check IDENTIFIER ts then
              '(fields, ts) ← struct_field_list fuel ts; Done (f :: fields, ts)
            else Done ([f], ts)
        end
  end.

Definition _struct_declaration (fuel : nat) (ts : list Token) : parsed StructDeclaration :=
  let stateful := _match [STATEFUL] ts in
  let ts := skip [STATEFUL] ts in
  '(struct_token, ts) ← _consume STRUCT ExpectedStruct ts;
  '(name, ts) ← _consume TYPE StructName ts;
  '(type_parameters, ts) ← _type_parameters fuel ts;
  '(initial, ts) ← (match stateful with
                    | Some _ =>
                        '(_, ts) ← _consume_contextual (u "starts") StartsExpected ts;
                        '(marker, ts) ← _consume TYPE InitialStateExpected ts;
                        Done (Some (text_of marker), ts)
                    | None => Done (None, ts)
                    end);
  '(_, ts) ← _consume LEFT_BRACE StructOpen ts;
  '(fields, ts) ← struct_field_list fuel ts;
  '(_, ts) ← _consume RIGHT_BRACE StructClose ts;
  Done (mk_struct (text_of name) fields
          (location (match stateful with Some (t, _) => t | None => struct_token end))
          type_parameters (match stateful with Some _ => true | None => false end) initial, ts).

(** The variant loop of [_enum_declaration]. *)
Fixpoint enum_variants (fuel : nat) (ts : list Token) : parsed (list EnumVariant) :=
  match fuel with
  | O => NoFuel
  | S fuel =>
      if _check RIGHT_BRACE ts || _is_at_end ts then Done ([], ts)
      else
        '(variant, ts) ← _consume TYPE VariantName ts;
        '(payload, ts) ← (match _match [LEFT_PAREN] ts with
                          | Some (_, ts) =>
                              '(t, ts) ← _type_ref fuel ts;
                              '(_, ts) ← _consume RIGHT_PAREN VariantPayloadClose ts;
                              Done (Some t, ts)
                          | None => Done (None, ts)
                          end);
        let v := mk_variant (text_of variant) payload (location variant) in
        match _match [COMMA] ts with
        | None => Done ([v], ts)
        | Some (_, ts) =>
            if _check RIGHT_BRACE ts then Done ([v], ts)
            else '(variants, ts) ← enum_variants fuel ts; Done (v :: variants, ts)
        end
  end.

Definition _enum_declaration (fuel : nat) (ts : list Token) : parsed EnumDeclaration :=
  '(enum_token, ts) ← _consume ENUM ExpectedEnum ts;
  '(name, ts) ← _consume TYPE EnumName ts;
  '(type_parameters, ts) ← _type_parameters fuel ts;
  '(_, ts) ← _consume LEFT_BRACE EnumOpen ts;
  '(variants, ts) ← enum_variants fuel ts;
  '(_, ts) ← _consume RIGHT_BRACE EnumClose ts;
  Done (mk_enum (text_of name) variants (location enum_token) type_parameters, ts).

Definition _parameter (fuel : nat) (ts : list Token) : parsed FunctionParameter :=
  '(name, ts) ← _consume IDENTIFIER ParameterName ts;
  '(_, ts) ← _consume COLON ParameterColon ts;
  '(type_ref, ts) ← _type_ref fuel ts;
  Done (mk_parameter (text_of name) type_ref (location name), ts).

(** The parameter loop of [_function_declaration]. *)
Fixpoint parameter_list (fuel : nat) (ts : list Token) : parsed (list FunctionParameter) :=
  match fuel with
  | O => NoFuel
  | S fuel =>
      '(p, ts) ← _parameter fuel ts;
      match _match [COMMA] ts with
      | None => Done ([p], ts)
      | Some (_, ts) =>
          if _check RIGHT_PAREN ts then Done ([p], ts)
          else '(ps, ts) ← parameter_list fuel ts; Done (p :: ps, ts)
      end
  end.

Definition _function_declaration (fuel : nat) (ts : list Token) : parsed FunctionDeclaration :=
  let pure := _match [PURE] ts in
  let ts := skip [PURE] ts in
  let transition := _match_contextual (u "transition") ts in
  let ts := match transition with Some (_, ts) => ts | None => ts end in
  '(fn_token, ts) ← _consume FN ExpectedFn ts;
  '(name, ts) ← _consume IDENTIFIER FunctionName ts;
  '(type_parameters, ts) ← _type_parameters fuel ts;
  '(_, ts) ← _consume LEFT_PAREN FunctionOpen ts;
  '(params, ts) ← (if _check RIGHT_PAREN ts then Done ([], ts) else parameter_list fuel ts);
  '(_, ts) ← _consume RIGHT_PAREN ParametersClose ts;
  '(return_ref, ts) ← (match _match [ARROW] ts with
                       | Some (_, ts) => '(t, ts) ← _type_ref fuel ts; Done (Some t, ts)
                       | None => Done (None, ts)
                       end);
  '(block, ts) ← _block fuel false ts;
  Done (mk_function (text_of name) params return_ref block
          (location (match pure, transition with
                     | Some (t, _), _ => t | None, Some (t, _) => t | None, None => fn_token end))
          (match pure with Some _ => true | None => false end) type_parameters
          (match transition with Some _ => true | None => false end), ts).

(** The loop of [parse]; the lists of declarations grow at their ends. *)
Fixpoint parse_loop (fuel : nat) (p : NativeProgram) (ts : list Token)
    : outcome parse_error NativeProgram :=
  match fuel with
  | O => NoFuel
  | S fuel =>
      if _is_at_end ts then Done p
      else if _check_sigil ts then
        '(d, ts) ← _sigil_declaration ts;
        parse_loop fuel (mk_program (declarations p) (structs p) (imports p) (enums p) (sigils p ++ [d])) ts
      else if _check IMPORT ts then
        '(d, ts) ← _import_declaration ts;
        parse_loop fuel (mk_program (declarations p) (structs p) (imports p ++ [d]) (enums p) (sigils p)) ts
      else if _check STATEFUL ts || _check STRUCT ts then
        '(d, ts) ← _struct_declaration fuel ts;
        parse_loop fuel (mk_program (declarations p) (structs p ++ [d]) (imports p) (enums p) (sigils p)) ts
      else if _check ENUM ts then
        '(d, ts) ← _enum_declaration fuel ts;
        parse_loop fuel (mk_program (declarations p) (structs p) (imports p) (enums p ++ [d]) (sigils p)) ts
      else
        '(d, ts) ← _function_declaration fuel ts;
        parse_loop fuel (mk_program (declarations p ++ [d]) (structs p) (imports p) (enums p) (sigils p)) ts
  end.

Definition empty_program : NativeProgram := mk_program [] [] [] [] [].

(** Fuel for a source of [n] characters. *)
Definition parse_fuel (n : nat) : nat := (32 * (n + 2))%nat.

Definition parse (source : ustring) : outcome parse_error NativeProgram :=
  match tokenize false source with
  | Done ts => parse_loop (parse_fuel (length source)) empty_program ts
  | Raise e => Raise (SourceError e)
  | NoFuel => NoFuel
  end.

(** [parse_expression] of [parser.py]. *)
Definition parse_expression (source : ustring) : outcome parse_error Expression :=
  match tokenize false source with
  | Done ts =>
      '(expression, ts) ← _assignment (parse_fuel (length source)) false ts;
      if _is_at_end ts then Done expression else error_here SingleExpression ts
  | Raise e => Raise (SourceError e)
  | NoFuel => NoFuel
  end.

End parser.

(** * Termination

A parsing function is [good k] on a token list when it returns with at least
[k] units of weight consumed, or raises something else than an [IndexError]. *)

Definition good {A} (k : nat) (ts : list Token) (o : parsed A) : Prop :=
  match o with
  | Done (_, ts') => (weight ts' + k <= weight ts)%nat ∧ terminated ts'
  | Raise e => e ≠ TokenIndexError
  | NoFuel => False
  end.

Lemma good_bind {A B} ts0 k0 ts k (m : parsed A) (f : A * list Token → parsed B) :
  good k ts m →
  (∀ a ts', (weight ts' + k <= weight ts)%nat → terminated ts' → good k0 ts0 (f (a, ts'))) →
  good k0 ts0 (m ≫= f).
Proof. destruct m as [[a ts']|e|]; cbn; [|done..]. intros [H1 H2] Hf. auto. Qed.

Lemma good_weaken {A} ts k ts' k' (o : parsed A) :
  good k' ts' o → (weight ts' + k <= weight ts + k')%nat → good k ts o.
Proof. destruct o as [[a ts2]|e|]; cbn; [|done..]. intros [H1 H2] H. split; [lia|done]. Qed.

Lemma good_done {A} ts k ts' (a : A) :
  (weight ts' + k <= weight ts)%nat → terminated ts' → good k ts (Done (a, ts')).
Proof. done. Qed.

Lemma terminated_cons t ts : terminated (t :: ts) → type t ≠ EOF → terminated ts.
Proof.
  intros (t' & Hl & Ht) Hne. destruct ts as [|t2 ts]; [by injection Hl as ->|]. by exists t'.
Qed.

Lemma terminated_peek ts : terminated ts → ∃ t ts', ts = t :: ts'.
Proof. intros (t & Hl & _). destruct ts; [done|]. eauto. Qed.

Lemma error_here_good {A} k ts p : terminated ts → good (A := A) k ts (error_here p ts).
Proof. intros (t & ts' & ->)%terminated_peek. done. Qed.

Lemma consume_good ty p ts : terminated ts → ty ≠ EOF → good 1 ts (_consume ty p ts).
Proof.
  intros Ht Hne. destruct (terminated_peek _ Ht) as (t & ts' & ->). unfold _consume.
  case_bool_decide as Hty; [|by apply error_here_good].
  split; [cbn; unfold token_weight; lia|]. eapply terminated_cons; [done|congruence].
Qed.

Lemma match_good types ts t ts' :
  terminated ts → EOF ∉ types → _match types ts = Some (t, ts') →
  (weight ts' + 1 <= weight ts)%nat ∧ terminated ts'.
Proof.
  intros Ht Hne. destruct (terminated_peek _ Ht) as (t0 & ts0 & ->). unfold _match.
  case_bool_decide as Hty; [|done]. intros [= <- <-].
  split; [cbn; unfold token_weight; lia|]. eapply terminated_cons; [done|]. intros E. by rewrite E in Hty.
Qed.

Lemma skip_good types ts :
  terminated ts → EOF ∉ types → (weight (skip types ts) <= weight ts)%nat ∧ terminated (skip types ts).
Proof.
  intros Ht Hne. unfold skip. destruct (_match types ts) as [[t ts']|] eqn:E; [|done].
  apply match_good in E as [? ?]; [|done..]. split; [lia|done].
Qed.

Ltac no_eof := first [done | by vm_compute; set_solver | apply (bool_decide_unpack _); vm_compute; exact I].

Lemma bind_assoc {E A B C} (m : outcome E A) (f : A → outcome E B) (g : B → outcome E C) :
  (m ≫= f) ≫= g = m ≫= λ x, f x ≫= g.
Proof. by destruct m. Qed.

(** One step of a proof that a parsing function is good; [call] solves the goals
about the functions it calls. *)
Ltac parse_step call :=
  match goal with
  | |- good _ _ (Done _ ≫= _) => cbn [mbind outcome_bind]
  | |- good _ _ ((_ ≫= _) ≫= _) => rewrite bind_assoc
  | |- good _ _ ((let '(_, _) := ?p in _) ≫= _) => destruct p
  | |- context [skip ?tys ?ts] =>
      let H1 := fresh in let H2 := fresh in
      destruct (skip_good tys ts) as [H1 H2]; [assumption|no_eof|];
      generalize dependent (skip tys ts); intros
  | |- good _ _ (Done _) => apply good_done; [lia|assumption]
  | |- good _ _ (error_here _ _) => apply error_here_good; assumption
  | |- good _ _ (Raise _) => done
  | |- good _ _ (_peek ?ts ≫= _) =>
      let t := fresh "t" in let ts' := fresh "ts" in let E := fresh "E" in
      destruct (terminated_peek ts) as (t & ts' & E); [assumption|]; rewrite E;
      cbn [_peek mbind outcome_bind]; rewrite <- E
  | |- good _ _ (_consume _ _ _ ≫= _) =>
      eapply good_bind; [apply consume_good; [assumption|done]|intros ? ? ? ?; cbn beta iota]
  | |- context [match _match ?tys ?ts with _ => _ end] =>
      let E := fresh "E" in
      destruct (_match tys ts) as [[? ?]|] eqn:E; [apply match_good in E as [? ?]; [|assumption|no_eof]|]
  | |- good _ _ (if ?b then _ else _) => destruct b eqn:?
  | |- good _ _ ((if ?b then _ else _) ≫= _) => destruct b eqn:?
  | |- good _ _ (match ?x with _ => _ end) => destruct x eqn:?
  | |- good _ _ (_ ≫= _) => eapply good_bind; [solve [call]|intros ? ? ? ?; cbn beta iota]
  | |- good _ _ _ => eapply good_weaken; [solve [call]|lia]
  end.

Lemma type_atom_good fuel :
  (∀ ts, terminated ts → (32 * weight ts + 1 <= fuel)%nat → good 1 ts (_type_atom fuel ts)) ∧
  (∀ ts, terminated ts → (32 * weight ts + 2 <= fuel)%nat → good 1 ts (type_arguments fuel ts)).
Proof.
  induction fuel as [|fuel [IH1 IH2]]; split; intros ts Ht Hf; try lia; cbn [_type_atom type_arguments];
    repeat parse_step ltac:(first [apply IH1|apply IH2]; [assumption|lia]).
Qed.

Lemma type_alternatives_good fuel ts :
  terminated ts → (32 * weight ts + 1 <= fuel)%nat → good 0 ts (type_alternatives fuel ts).
Proof.
  revert ts. induction fuel as [|fuel IH]; intros ts Ht Hf; [lia|]. cbn [type_alternatives].
  destruct (type_atom_good fuel) as [Ha _].
  repeat parse_step ltac:(first [apply Ha|apply IH]; [assumption|lia]).
Qed.

Lemma type_ref_good fuel ts :
  terminated ts → (32 * weight ts + 1 <= fuel)%nat → good 1 ts (_type_ref fuel ts).
Proof.
  intros Ht Hf. unfold _type_ref. destruct (type_atom_good fuel) as [Ha _].
  repeat parse_step ltac:(first [apply Ha|apply type_alternatives_good]; [assumption|lia]).
Qed.

Section parser_fuel.
Context `{Unicode}.

Definition good_parts (o : outcome parse_error (list Expression)) : Prop :=
  match o with Done _ => True | Raise e => e ≠ TokenIndexError | NoFuel => False end.

(** With 32 units of fuel for each unit of weight, and a few more for the calls
that read nothing, every function of the mutual recursion is good. *)
Record all_good (fuel : nat) : Prop := {
  good_assignment legacy ts : terminated ts → (32 * weight ts + 12 <= fuel)%nat →
    good 1 ts (_assignment fuel legacy ts);
  good_or_handler legacy ts : terminated ts → (32 * weight ts + 11 <= fuel)%nat →
    good 1 ts (_or_handler fuel legacy ts);
  good_or_loop legacy e ts : terminated ts → (32 * weight ts + 1 <= fuel)%nat →
    good 0 ts (or_loop fuel legacy e ts);
  good_binary legacy level ts : (level <= 5)%nat → terminated ts →
    (32 * weight ts + (10 - level) <= fuel)%nat → good 1 ts (binary fuel legacy level ts);
  good_binary_loop legacy level e ts : (level <= 5)%nat → terminated ts →
    (32 * weight ts + 1 <= fuel)%nat → good 0 ts (binary_loop fuel legacy level e ts);
  good_unary legacy ts : terminated ts → (32 * weight ts + 4 <= fuel)%nat →
    good 1 ts (_unary fuel legacy ts);
  good_call legacy ts : terminated ts → (32 * weight ts + 3 <= fuel)%nat →
    good 1 ts (_call fuel legacy ts);
  good_call_loop legacy e ts : terminated ts → (32 * weight ts + 1 <= fuel)%nat →
    good 0 ts (call_loop fuel legacy e ts);
  good_expressions legacy close ts : terminated ts → (32 * weight ts + 13 <= fuel)%nat →
    good 1 ts (expressions fuel legacy close ts);
  good_primary legacy ts : terminated ts → (32 * weight ts + 2 <= fuel)%nat →
    good 1 ts (_primary fuel legacy ts);
  good_interpolated loc segments : (32 * segments_weight segments + 1 <= fuel)%nat →
    good_parts (interpolated_parts fuel loc segments);
  good_map_entries legacy ts : terminated ts → (32 * weight ts + 13 <= fuel)%nat →
    good 1 ts (map_entries fuel legacy ts);
  good_struct_literal legacy t ts : terminated ts → (32 * weight ts + 1 <= fuel)%nat →
    good 0 ts (_struct_literal fuel legacy t ts);
  good_struct_fields legacy ts : terminated ts → (32 * weight ts + 1 <= fuel)%nat →
    good 0 ts (struct_fields_literal fuel legacy ts);
  good_match_expression legacy t ts : terminated ts → (32 * weight ts + 13 <= fuel)%nat →
    good 0 ts (_match_expression fuel legacy t ts);
  good_match_arms legacy ts : terminated ts → (32 * weight ts + 1 <= fuel)%nat →
    good 0 ts (match_arms fuel legacy ts);
  good_block legacy ts : terminated ts → (32 * weight ts + 1 <= fuel)%nat →
    good 1 ts (_block fuel legacy ts);
  good_block_statements legacy ts : terminated ts → (32 * weight ts + 14 <= fuel)%nat →
    good 0 ts (block_statements fuel legacy ts);
  good_statement legacy ts : terminated ts → (32 * weight ts + 13 <= fuel)%nat →
    good 1 ts (_statement fuel legacy ts);
  good_let legacy t ts : terminated ts → (32 * weight ts + 1 <= fuel)%nat →
    good 0 ts (_let_statement fuel legacy t ts);
  good_return legacy t ts : terminated ts → (32 * weight ts + 13 <= fuel)%nat →
    good 0 ts (_return_statement fuel legacy t ts);
  good_if legacy t ts : terminated ts → (32 * weight ts + 13 <= fuel)%nat →
    good 0 ts (_if_statement fuel legacy t ts);
}.

Ltac parse_call IH :=
  first
    [ apply (good_assignment _ IH); [assumption|lia]
    | apply (good_or_handler _ IH); [assumption|lia]
    | apply (good_or_loop _ IH); [assumption|lia]
    | apply (good_binary _ IH); [lia|assumption|lia]
    | apply (good_binary_loop _ IH); [lia|assumption|lia]
    | apply (good_unary _ IH); [assumption|lia]
    | apply (good_call _ IH); [assumption|lia]
    | apply (good_call_loop _ IH); [assumption|lia]
    | apply (good_expressions _ IH); [assumption|lia]
    | apply (good_primary _ IH); [assumption|lia]
    | apply (good_map_entries _ IH); [assumption|lia]
    | apply (good_struct_literal _ IH); [assumption|lia]
    | apply (good_struct_fields _ IH); [assumption|lia]
    | apply (good_match_expression _ IH); [assumption|lia]
    | apply (good_match_arms _ IH); [assumption|lia]
    | apply (good_block _ IH); [assumption|lia]
    | apply (good_block_statements _ IH); [assumption|lia]
    | apply (good_statement _ IH); [assumption|lia]
    | apply (good_let _ IH); [assumption|lia]
    | apply (good_return _ IH); [assumption|lia]
    | apply (good_if _ IH); [assumption|lia]
    | apply type_ref_good; [assumption|lia] ].

Lemma operators_no_eof level : EOF ∉ operators level.
Proof. destruct level as [|[|[|[|[|level]]]]]; cbn; set_solver. Qed.

(** The interesting case: the text of an interpolation is scanned and parsed. *)
Lemma interpolated_step fuel loc segments :
  all_good fuel → (32 * segments_weight segments + 1 <= S fuel)%nat →
  good_parts (interpolated_parts (S fuel) loc segments).
Proof.
  intros IH Hf. cbn [interpolated_parts]. destruct segments as [|[text|content] segments]; [done|..];
    cbn [segments_weight segment_weight] in Hf.
  - pose proof (good_interpolated _ IH loc segments ltac:(lia)) as Hg.
    by destruct (interpolated_parts fuel loc segments).
  - pose proof (good_interpolated _ IH loc segments ltac:(lia)) as Hg.
    assert (∀ e, e ≠ TokenIndexError → good_parts (if is_syntax_error e
      then Raise (InterpolationError content (loc_line loc) (loc_column loc) e) else Raise e)) as Herr.
    { intros e He. by destruct (is_syntax_error e). }
    destruct (tokenize false content) as [ts|e|] eqn:Ht; [|by apply Herr|].
    + apply tokenize_weight in Ht as [Hw Hterm].
      pose proof (good_assignment _ IH true ts Hterm ltac:(lia)) as Ha.
      destruct (_assignment fuel true ts) as [[e ts']|e|]; cbn in Ha |- *; [|by apply Herr|done].
      destruct Ha as [_ Hterm']. destruct (_is_at_end ts').
      * by destruct (interpolated_parts fuel loc segments).
      * destruct (terminated_peek _ Hterm') as (t & ts2 & ->). cbn. done.
    + exfalso. revert Ht. apply tokenize_loop_fuel. cbn. lia.
Qed.

Lemma weight_cons t ts : weight (t :: ts) = (S (value_weight (value t)) + weight ts)%nat.
Proof. done. Qed.

Lemma primary_step fuel legacy ts :
  all_good fuel → terminated ts → (32 * weight ts + 2 <= S fuel)%nat →
  good 1 ts (_primary (S fuel) legacy ts).
Proof.
  intros IH Ht Hf. destruct (terminated_peek _ Ht) as (token & ts' & ->). cbn [_primary].
  assert (type token ≠ EOF → terminated ts') as Ht' by by apply terminated_cons.
  pose proof (weight_cons token ts') as Hw.
  destruct (type token) eqn:Hty; try (by apply error_here_good); specialize (Ht' ltac:(done)).
  all: try (repeat parse_step ltac:(parse_call IH)).
  pose proof (good_interpolated _ IH (location token)
    (match value token with VSegments segments => segments | _ => [] end)) as Hg.
  assert (segments_weight (match value token with VSegments segments => segments | _ => [] end)
          <= value_weight (value token))%nat as Hs by (destruct (value token); cbn; lia).
  specialize (Hg ltac:(lia)).
  destruct (interpolated_parts fuel _ _) as [parts|e|]; cbn in Hg |- *; [|done..].
  split; [|done]. unfold token_weight. lia.
Qed.

Lemma match_expression_step fuel legacy t ts :
  all_good fuel → terminated ts → (32 * weight ts + 13 <= S fuel)%nat →
  good 0 ts (_match_expression (S fuel) legacy t ts).
Proof.
  intros IH Ht Hf. cbn [_match_expression].
  assert (good 1 ts (match ts with
                      | t :: t' :: ts' =>
                          if bool_decide (type t = TYPE) && bool_decide (type t' = LEFT_BRACE)
                          then Done (Identifier (text_of t) (location t), t' :: ts')
                          else _assignment fuel legacy ts
                      | _ => _assignment fuel legacy ts
                      end)) as Hm.
  { destruct ts as [|t1 [|t2 ts']]; [parse_call IH..|].
    destruct (_ && _) eqn:Hb; [|parse_call IH]. apply andb_true_iff in Hb as [Hb _].
    apply bool_decide_eq_true in Hb. pose proof (weight_cons t1 (t2 :: ts')).
    apply good_done; [lia|]. eapply terminated_cons; [done|congruence]. }
  eapply good_bind; [exact Hm|intros ? ? ? ?; cbn beta iota].
  repeat parse_step ltac:(parse_call IH).
Qed.

Lemma statement_step fuel legacy ts :
  all_good fuel → terminated ts → (32 * weight ts + 13 <= S fuel)%nat →
  good 1 ts (_statement (S fuel) legacy ts).
Proof.
  intros IH Ht Hf. destruct (terminated_peek _ Ht) as (token & ts' & ->). cbn [_statement].
  assert (type token ≠ EOF → terminated ts') as Ht' by by apply terminated_cons.
  pose proof (weight_cons token ts') as Hw.
  destruct (type token) eqn:Hty; try specialize (Ht' ltac:(done));
    repeat parse_step ltac:(parse_call IH).
Qed.

Lemma parser_good fuel : all_good fuel.
Proof.
  induction fuel as [|fuel IH]; split; intros; try lia.
  - cbn [_assignment]. repeat parse_step ltac:(parse_call IH).
  - cbn [_or_handler]. repeat parse_step ltac:(parse_call IH).
  - cbn [or_loop]. repeat parse_step ltac:(parse_call IH).
  - cbn [binary]. destruct (Nat.eqb_spec level 5); repeat parse_step ltac:(parse_call IH).
  - cbn [binary_loop]. pose proof (operators_no_eof level).
    destruct (Nat.eqb_spec level 5); repeat parse_step ltac:(parse_call IH).
  - cbn [_unary]. repeat parse_step ltac:(parse_call IH).
  - cbn [_call]. repeat parse_step ltac:(parse_call IH).
  - cbn [call_loop]. repeat parse_step ltac:(parse_call IH).
  - cbn [expressions]. repeat parse_step ltac:(parse_call IH).
  - by apply primary_step.
  - by apply interpolated_step.
  - cbn [map_entries]. repeat parse_step ltac:(parse_call IH).
  - cbn [_struct_literal]. repeat parse_step ltac:(parse_call IH).
  - cbn [struct_fields_literal]. repeat parse_step ltac:(parse_call IH).
  - by apply match_expression_step.
  - cbn [match_arms]. repeat parse_step ltac:(parse_call IH).
  - cbn [_block]. repeat parse_step ltac:(parse_call IH).
  - cbn [block_statements]. repeat parse_step ltac:(parse_call IH).
  - by apply statement_step.
  - cbn [_let_statement]. repeat parse_step ltac:(parse_call IH).
  - cbn [_return_statement]. repeat parse_step ltac:(parse_call IH).
  - cbn [_if_statement]. repeat parse_step ltac:(parse_call IH).
Qed.

End parser_fuel.

Section declarations_fuel.
Context `{Unicode}.

Lemma contextual_good v ts t ts' :
  terminated ts → _match_contextual v ts = Some (t, ts') →
  (weight ts' + 1 <= weight ts)%nat ∧ terminated ts'.
Proof.
  intros Ht. destruct (terminated_peek _ Ht) as (t0 & ts0 & ->). unfold _match_contextual.
  destruct (_ && _) eqn:Hb; [|done]. apply andb_true_iff in Hb as [Hb _].
  apply bool_decide_eq_true in Hb. intros [= <- <-].
  split; [cbn; unfold token_weight; lia|]. eapply terminated_cons; [done|congruence].
Qed.

Lemma consume_contextual_good v p ts : terminated ts → good 1 ts (_consume_contextual v p ts).
Proof.
  intros Ht. unfold _consume_contextual. destruct (_match_contextual v ts) as [[t ts']|] eqn:E.
  - by apply contextual_good in E.
  - by apply error_here_good.
Qed.

Lemma import_good ts : terminated ts → good 1 ts (_import_declaration ts).
Proof. intros Ht. unfold _import_declaration. repeat parse_step fail. Qed.

Lemma sigil_good ts : terminated ts → _check_sigil ts = true → good 1 ts (_sigil_declaration ts).
Proof.
  intros Ht Hc. destruct (terminated_peek _ Ht) as (t & ts' & ->). unfold _check_sigil, _check_in in Hc.
  apply bool_decide_eq_true in Hc.
  assert (type t ≠ EOF) as Hne by (intros E; rewrite E in Hc; vm_compute in Hc; set_solver).
  pose proof (terminated_cons _ _ Ht Hne) as Ht'. pose proof (weight_cons t ts') as Hw.
  cbn [_sigil_declaration]. destruct (terminated_peek _ Ht') as (t2 & ts2 & ->).
  cbn [_peek mbind outcome_bind]. case_bool_decide as Hs; [|by cbn].
  assert (type t2 ≠ EOF) as Hne2 by (intros E; rewrite E in Hs; set_solver).
  pose proof (terminated_cons _ _ Ht' Hne2). pose proof (weight_cons t2 ts2). cbn [tail].
  repeat parse_step fail.
Qed.

Lemma type_parameter_names_good fuel ts :
  terminated ts → (32 * weight ts + 1 <= fuel)%nat → good 1 ts (type_parameter_names fuel ts).
Proof.
  revert ts. induction fuel as [|fuel IH]; intros ts Ht Hf; [lia|]. cbn [type_parameter_names].
  repeat parse_step ltac:(apply IH; [assumption|lia]).
Qed.

Lemma type_parameters_good fuel ts :
  terminated ts → (32 * weight ts + 1 <= fuel)%nat → good 0 ts (_type_parameters fuel ts).
Proof.
  intros Ht Hf. unfold _type_parameters.
  repeat parse_step ltac:(apply type_parameter_names_good; [assumption|lia]).
Qed.

Lemma struct_field_list_good fuel ts :
  terminated ts → (32 * weight ts + 1 <= fuel)%nat → good 0 ts (struct_field_list fuel ts).
Proof.
  revert ts. induction fuel as [|fuel IH]; intros ts Ht Hf; [lia|]. cbn [struct_field_list].
  repeat parse_step ltac:(first [apply IH|apply type_ref_good]; [assumption|lia]).
Qed.

Lemma enum_variants_good fuel ts :
  terminated ts → (32 * weight ts + 1 <= fuel)%nat → good 0 ts (enum_variants fuel ts).
Proof.
  revert ts. induction fuel as [|fuel IH]; intros ts Ht Hf; [lia|]. cbn [enum_variants].
  repeat parse_step ltac:(first [apply IH|apply type_ref_good]; [assumption|lia]).
Qed.

Lemma struct_good fuel ts :
  terminated ts → (32 * weight ts + 1 <= fuel)%nat → good 1 ts (_struct_declaration fuel ts).
Proof.
  intros Ht Hf. unfold _struct_declaration.
  destruct (skip_good [STATEFUL] ts Ht ltac:(no_eof)) as [H1 H2].
  generalize dependent (skip [STATEFUL] ts). intros ts1 H1 H2.
  destruct (_match [STATEFUL] ts) as [[t ts2]|];
  repeat first
    [ match goal with |- good _ _ (_consume_contextual _ _ _ ≫= _) =>
        eapply good_bind; [apply consume_contextual_good; assumption|intros ? ? ? ?; cbn beta iota] end
    | parse_step ltac:(first [apply type_parameters_good|apply struct_field_list_good]; [assumption|lia]) ].
Qed.

Lemma enum_good fuel ts :
  terminated ts → (32 * weight ts + 1 <= fuel)%nat → good 1 ts (_enum_declaration fuel ts).
Proof.
  intros Ht Hf. unfold _enum_declaration.
  repeat parse_step ltac:(first [apply type_parameters_good|apply enum_variants_good]; [assumption|lia]).
Qed.

Lemma parameter_good fuel ts :
  terminated ts → (32 * weight ts + 1 <= fuel)%nat → good 1 ts (_parameter fuel ts).
Proof.
  intros Ht Hf. unfold _parameter. repeat parse_step ltac:(apply type_ref_good; [assumption|lia]).
Qed.

Lemma parameter_list_good fuel ts :
  terminated ts → (32 * weight ts + 2 <= fuel)%nat → good 1 ts (parameter_list fuel ts).
Proof.
  revert ts. induction fuel as [|fuel IH]; intros ts Ht Hf; [lia|]. cbn [parameter_list].
  repeat parse_step ltac:(first [apply IH|apply parameter_good]; [assumption|lia]).
Qed.

Lemma function_good fuel ts :
  terminated ts → (32 * weight ts + 1 <= fuel)%nat → good 1 ts (_function_declaration fuel ts).
Proof.
  intros Ht Hf. unfold _function_declaration.
  destruct (skip_good [PURE] ts Ht ltac:(no_eof)) as [H1 H2].
  generalize dependent (skip [PURE] ts). intros ts1 H1 H2.
  destruct (_match_contextual _ ts1) as [[t ts2]|] eqn:E;
    [apply contextual_good in E as [? ?]; [|assumption]|];
    repeat parse_step ltac:(first [apply type_parameters_good|apply parameter_list_good
      |apply type_ref_good|apply (good_block _ (parser_good fuel))]; [assumption|lia]).
Qed.

Lemma parse_loop_good fuel p ts :
  terminated ts → (32 * weight ts + 2 <= fuel)%nat →
  parse_loop fuel p ts ≠ NoFuel ∧ parse_loop fuel p ts ≠ Raise TokenIndexError.
Proof.
  revert p ts. induction fuel as [|fuel IH]; intros p ts Ht Hf; [lia|]. cbn [parse_loop].
  assert (∀ A (m : parsed A) (f : A → NativeProgram), good 1 ts m →
    (m ≫= λ '(d, ts), parse_loop fuel (f d) ts) ≠ NoFuel ∧
    (m ≫= λ '(d, ts), parse_loop fuel (f d) ts) ≠ Raise TokenIndexError) as Hm.
  { intros A [[d ts']|e|] f; cbn; [|intros He; split; congruence|done].
    intros [H1 H2]. apply IH; [done|lia]. }
  destruct (_is_at_end ts); [done|].
  destruct (_check_sigil ts) eqn:Hs; [by apply Hm, sigil_good|].
  destruct (_check IMPORT ts); [by apply Hm, import_good|].
  destruct (_ || _); [apply Hm, struct_good; [done|lia]|].
  destruct (_check ENUM ts); [apply Hm, enum_good; [done|lia]|].
  apply Hm, function_good; [done|lia].
Qed.

End declarations_fuel.

(** * Properties *)

Lemma parse_no_fuel `{Unicode} (source : ustring) : parse source ≠ NoFuel ∧ parse source ≠ Raise TokenIndexError.
Proof.
  assert (tokenize false source ≠ NoFuel) as Hn by (apply tokenize_loop_fuel; cbn; lia).
  unfold parse, parse_fuel. destruct (tokenize false source) as [ts|e|] eqn:Ht; [|done..].
  apply tokenize_weight in Ht as [Hw Hterm].
  apply (parse_loop_good (32 * (length source + 2)) empty_program ts Hterm). lia.
Qed.

(** C31: [parse] terminates on every source.  The recursion of the parser, the
expressions inside interpolated strings included, needs at most 32 calls for
each character and a constant more, so the fuel [parse_fuel] gives is never
exhausted, and the parser never reads past the end of its tokens.  The same
holds for [parse_expression]. *)
Theorem parse_total `{Unicode} (source : ustring) :
  parse source ≠ NoFuel ∧ parse source ≠ Raise TokenIndexError ∧
  parse_expression source ≠ NoFuel ∧ parse_expression source ≠ Raise TokenIndexError.
Proof.
  destruct (parse_no_fuel source) as [H1 H2]. split; [exact H1|]. split; [exact H2|]. clear H1 H2.
  assert (tokenize false source ≠ NoFuel) as Hn by (apply tokenize_loop_fuel; cbn; lia).
  unfold parse_expression, parse_fuel.
  destruct (tokenize false source) as [ts|e|] eqn:Ht; [|done..].
  apply tokenize_weight in Ht as [Hw Hterm].
  pose proof (good_assignment _ (parser_good (32 * (length source + 2))) false ts Hterm) as Ha.
  specialize (Ha ltac:(lia)).
  destruct (_assignment _ _ ts) as [[e ts']|e|]; cbn in Ha |- *; [|split; congruence|done].
  destruct Ha as [_ Hterm']. destruct (_is_at_end ts'); [done|].
  destruct (terminated_peek _ Hterm') as (t & ts2 & ->). done.
Qed.
