(* ===== verification/Integrity.v ===== *)
(** Declaration uniqueness and return control flow: [src/koschei/integrity.py].

[check_program_integrity] is the pass.  [exec_statement] is an independent
description of how control can leave a statement, with every condition and the
number of iterations of every loop left open; [accepted] states with it what the
pass is for, and the pass decides it. *)

From S2P Require Import Prelude Lexer Ast.

Inductive declaration_kind := KindFunction | KindStruct | KindEnum.

(** [SemanticError]s of this pass. *)
Inductive integrity_error :=
  | DuplicateDeclaration (kind : declaration_kind) (name : ustring) (l : SourceLocation)
  | StructAndEnum (name : ustring) (l : SourceLocation)
  | MissingReturn (name : ustring) (l : SourceLocation)
  | VoidReturnsValue (name : ustring) (l : SourceLocation)
  | UnreachableStatement (l : SourceLocation).

Definition integrity_code (e : integrity_error) : Z :=
  match e with
  | DuplicateDeclaration _ _ _ => 1102
  | StructAndEnum _ _ => 1701
  | MissingReturn _ _ => 1303
  | VoidReturnsValue _ _ => 1304
  | UnreachableStatement _ => 1305
  end.

Abbreviation result A := (outcome integrity_error A).

(** * Declarations *)

(** One round of the first loop of [_validate_top_level]. *)
Fixpoint check_unique (kind : declaration_kind) (seen : gset ustring)
    (ds : list (ustring * SourceLocation)) : result () :=
  match ds with
  | [] => Done ()
  | (name, l) :: ds =>
      if bool_decide (name ∈ seen) then Raise (DuplicateDeclaration kind name l)
      else check_unique kind (seen ∪ {[name]}) ds
  end.

Fixpoint check_disjoint (struct_names : gset ustring) (ds : list (ustring * SourceLocation))
    : result () :=
  match ds with
  | [] => Done ()
  | (name, l) :: ds =>
      if bool_decide (name ∈ struct_names) then Raise (StructAndEnum name l)
      else check_disjoint struct_names ds
  end.

Definition function_names (p : NativeProgram) : list (ustring * SourceLocation) :=
  (λ d, (function_name d, function_location d)) <$> declarations p.
Definition struct_names (p : NativeProgram) : list (ustring * SourceLocation) :=
  (λ d, (struct_name d, struct_location d)) <$> structs p.
Definition enum_names (p : NativeProgram) : list (ustring * SourceLocation) :=
  (λ d, (enum_name d, enum_location d)) <$> enums p.

Definition _validate_top_level (p : NativeProgram) : result () :=
  _ ← check_unique KindFunction ∅ (function_names p);
  _ ← check_unique KindStruct ∅ (struct_names p);
  _ ← check_unique KindEnum ∅ (enum_names p);
  check_disjoint (list_to_set ((struct_names p).*1)) (enum_names p).

(** * Control flow *)

Definition statement_location (s : Statement) : SourceLocation :=
  match s with
  | LetStatement _ _ _ l _ | ReturnStatement _ l | ExpressionStatement _ l | IfStatement _ _ _ l
  | WhileStatement _ _ l | ForStatement _ _ _ l | BreakStatement l | ContinueStatement l => l
  end.

(** The loop of [_check_block], with the checker of one statement. *)
Fixpoint check_statements (check : Statement → result bool) (terminated : bool)
    (l : list Statement) : result bool :=
  match l with
  | [] => Done terminated
  | s :: l =>
      if terminated then Raise (UnreachableStatement (statement_location s))
      else t ← check s; check_statements check t l
  end.

(** [function.return_type is None and function.name != "main"]. *)
Definition returns_nothing (f : FunctionDeclaration) : bool :=
  match return_type f with None => negb (bool_decide (function_name f = u "main")) | Some _ => false end.

Fixpoint _check_statement (f : FunctionDeclaration) (s : Statement) : result bool :=
  match s with
  | ReturnStatement value l =>
      if returns_nothing f && match value with Some _ => true | None => false end
      then Raise (VoidReturnsValue (function_name f) l)
      else Done true
  | IfStatement _ then_block else_branch _ =>
      then_returns ← (let 'mk_block l := then_block in check_statements (_check_statement f) false l);
      else_returns ← match else_branch with
                     | Some (ElseBlock (mk_block l)) => check_statements (_check_statement f) false l
                     | Some (ElseIf s) => _check_statement f s
                     | None => Done false
                     end;
      Done (match else_branch with Some _ => true | None => false end && then_returns && else_returns)
  | WhileStatement _ (mk_block l) _ | ForStatement _ _ (mk_block l) _ =>
      _ ← check_statements (_check_statement f) false l; Done false
  | _ => Done false
  end.

Definition _check_block (f : FunctionDeclaration) (b : Block) : result bool :=
  check_statements (_check_statement f) false (statements b).

Fixpoint check_functions (fs : list FunctionDeclaration) : result () :=
  match fs with
  | [] => Done ()
  | f :: fs =>
      always_returns ← _check_block f (body f);
      if match return_type f with Some _ => true | None => false end && negb always_returns
      then Raise (MissingReturn (function_name f) (function_location f))
      else check_functions fs
  end.

Definition check_program_integrity (p : NativeProgram) : result () :=
  _ ← _validate_top_level p; check_functions (declarations p).

(** * How control leaves a statement *)

Inductive signal := Completes | Returns | Breaks | Continues.

#[export] Instance signal_eq_dec : EqDecision signal.
Proof. solve_decision. Defined.

(** An expression of any statement may return early ([or return]); conditions and
iteration counts are open. *)
Inductive exec_statement : Statement → signal → Prop :=
  | exec_let n m v l a : exec_statement (LetStatement n m v l a) Completes
  | exec_let_early n m v l a : exec_statement (LetStatement n m v l a) Returns
  | exec_return v l : exec_statement (ReturnStatement v l) Returns
  | exec_expression e l : exec_statement (ExpressionStatement e l) Completes
  | exec_expression_early e l : exec_statement (ExpressionStatement e l) Returns
  | exec_break l : exec_statement (BreakStatement l) Breaks
  | exec_continue l : exec_statement (ContinueStatement l) Continues
  | exec_if_early c b e l : exec_statement (IfStatement c b e l) Returns
  | exec_then c b e l s : exec_list b s → exec_statement (IfStatement c (mk_block b) e l) s
  | exec_else c b b' l s :
      exec_list b' s → exec_statement (IfStatement c b (Some (ElseBlock (mk_block b'))) l) s
  | exec_else_if c b s' l s :
      exec_statement s' s → exec_statement (IfStatement c b (Some (ElseIf s')) l) s
  | exec_no_else c b l : exec_statement (IfStatement c b None l) Completes
  | exec_while c b l s : exec_loop b s → exec_statement (WhileStatement c (mk_block b) l) s
  | exec_for x e b l s : exec_loop b s → exec_statement (ForStatement x e (mk_block b) l) s
with exec_list : list Statement → signal → Prop :=
  | exec_nil : exec_list [] Completes
  | exec_next s l sig : exec_statement s Completes → exec_list l sig → exec_list (s :: l) sig
  | exec_leave s l sig : exec_statement s sig → sig ≠ Completes → exec_list (s :: l) sig
with exec_loop : list Statement → signal → Prop :=
  | loop_done b : exec_loop b Completes
  | loop_early b : exec_loop b Returns
  | loop_again b sig s : exec_list b sig → sig = Completes ∨ sig = Continues → exec_loop b s → exec_loop b s
  | loop_break b : exec_list b Breaks → exec_loop b Completes
  | loop_return b : exec_list b Returns → exec_loop b Returns.

(** * What the pass looks at *)

(** The statement lists directly inside a statement. *)
Definition sub_lists (s : Statement) : list (list Statement) :=
  match s with
  | IfStatement _ (mk_block b) e _ =>
      b :: match e with
           | Some (ElseBlock (mk_block b')) => [b']
           | Some (ElseIf s') => [[s']]
           | None => []
           end
  | WhileStatement _ (mk_block b) _ | ForStatement _ _ (mk_block b) _ => [b]
  | _ => []
  end.

(** [l] is [outer] or a statement list somewhere inside it. *)
Inductive inside (l : list Statement) : list Statement → Prop :=
  | inside_here : inside l l
  | inside_sub outer s l1 : s ∈ outer → l1 ∈ sub_lists s → inside l l1 → inside l outer.

(** Some way out of [s] is not a return. *)
Definition may_go_on (s : Statement) : Prop := ∃ sig, sig ≠ Returns ∧ exec_statement s sig.

Definition locally_clean (f : FunctionDeclaration) (l : list Statement) : Prop :=
  (∀ pre s s' post, l = pre ++ s :: s' :: post → may_go_on s) ∧
  (returns_nothing f = true → ∀ v loc, ReturnStatement (Some v) loc ∉ l).

(** Nothing follows a statement that always returns, and no value is returned
from a function that returns nothing. *)
Definition clean (f : FunctionDeclaration) (l : list Statement) : Prop :=
  ∀ l', inside l' l → locally_clean f l'.

(** An error about [l] points at a real fault of [l]. *)
Definition justified (f : FunctionDeclaration) (l : list Statement) (e : integrity_error) : Prop :=
  match e with
  | UnreachableStatement loc =>
      ∃ l' pre s s' post, inside l' l ∧ l' = pre ++ s :: s' :: post ∧ loc = statement_location s' ∧
        ¬ exec_statement s Completes
  | VoidReturnsValue n loc =>
      n = function_name f ∧ returns_nothing f = true ∧
      ∃ l' v, inside l' l ∧ ReturnStatement (Some v) loc ∈ l'
  | _ => False
  end.

Definition statement_correct (f : FunctionDeclaration) (s : Statement) : Prop :=
  match _check_statement f s with
  | Done b => clean f [s] ∧ if b then ¬ exec_statement s Completes else may_go_on s
  | Raise e => justified f [s] e
  | NoFuel => False
  end.

(** * Correctness of the flow check *)

Lemma statement_ind' (P : Statement → Prop) :
  (∀ s, Forall (Forall P) (sub_lists s) → P s) → ∀ s, P s.
Proof.
  intros H. refine (fix go s := H s _).
  assert (∀ l : list Statement, (fix all l := match l with [] => True | s :: l => P s ∧ all l end) l →
    Forall P l) as Hall.
  { induction l as [|s' l IH]; [constructor|]. intros [? ?]. constructor; auto. }
  destruct s as [| | |c [b] e l|c [b] l|x c [b] l| |]; cbn [sub_lists]; try constructor.
  - apply Hall. clear -go. induction b; split; auto.
  - destruct e as [[[b']|s']|]; [constructor; [|constructor]|constructor; [|constructor]|constructor].
    + apply Hall. clear -go. induction b'; split; auto.
    + constructor; [apply go|constructor].
  - apply Hall. clear -go. induction b; split; auto.
  - constructor.
  - apply Hall. clear -go. induction b; split; auto.
  - constructor.
Qed.

Lemma inside_cons l' s l : inside l' l → l' ≠ l → inside l' (s :: l).
Proof. destruct 1 as [|outer s' l1 Hs Hl H]; [done|]. intros _. eapply inside_sub; [by right|done..]. Qed.

Lemma clean_unfold f l :
  clean f l ↔ locally_clean f l ∧ ∀ s l1, s ∈ l → l1 ∈ sub_lists s → clean f l1.
Proof.
  split.
  - intros H. split; [apply H; constructor|]. intros s l1 Hs Hl l' Hi. apply H. by eapply inside_sub.
  - intros [H1 H2] l' Hi. destruct Hi as [|outer s l1 Hs Hl Hi]; [done|]. by eapply H2.
Qed.

Lemma justified_mono f l l' e :
  (∀ l0, inside l0 l → ∃ l1, inside l1 l' ∧ (l1 = l0 ∨ ∃ pre, l1 = pre ++ l0)) →
  justified f l e → justified f l' e.
Proof.
  intros H. destruct e as [| | |n eloc|eloc]; try done; cbn [justified].
  - intros (-> & Hv & l0 & v & Hi & Hin). split_and!; [done..|].
    destruct (H _ Hi) as (l1 & Hi' & [->|(pre & ->)]); [by exists l0, v|].
    exists (pre ++ l0), v. split; [done|]. apply elem_of_app. by right.
  - intros (l0 & pre & s & s' & post & Hi & -> & -> & Hs).
    destruct (H _ Hi) as (l1 & Hi' & [->|(pre' & ->)]).
    + by exists (pre ++ s :: s' :: post), pre, s, s', post.
    + exists (pre' ++ pre ++ s :: s' :: post), (pre' ++ pre), s, s', post. by rewrite <- app_assoc.
Qed.

Lemma justified_sub f l1 s e : l1 ∈ sub_lists s → justified f l1 e → justified f [s] e.
Proof.
  intros Hl. apply justified_mono. intros l0 Hi. exists l0. split; [|by left].
  eapply inside_sub; [by left|done..].
Qed.

Lemma justified_cons f s l e : justified f l e → justified f (s :: l) e.
Proof.
  apply justified_mono. intros l0 Hi. destruct Hi as [|outer s' l1 Hs Hl Hi].
  - exists (s :: l0). split; [constructor|right; by exists [s]].
  - exists l0. split; [|by left]. eapply inside_sub; [by right|done..].
Qed.

Lemma justified_head f s l e : justified f [s] e → justified f (s :: l) e.
Proof.
  destruct e as [| | |n eloc|eloc]; try done; cbn [justified].
  - intros (-> & Hv & l0 & v & Hi & Hin). split_and!; [done..|].
    inversion Hi as [E|outer s' l1 Hs Hl Hi' E]; subst.
    + exists (s :: l), v. split; [constructor|]. apply list_elem_of_singleton in Hin as <-. by left.
    + apply list_elem_of_singleton in Hs as ->. exists l0, v. split; [|done].
      eapply inside_sub; [by left|done..].
  - intros (l0 & pre & s1 & s2 & post & Hi & -> & -> & Hs1).
    inversion Hi as [E|outer s' l1 Hs Hl Hi' E].
    + exfalso. by destruct pre as [|? [|??]].
    + subst. apply list_elem_of_singleton in Hs as ->.
      eexists _, pre, s1, s2, post. split_and!; [|done..].
      eapply inside_sub; [by left|done..].
Qed.

Lemma clean_nil f : clean f [].
Proof.
  apply clean_unfold. split; [split|].
  - by intros [|? pre].
  - intros _ v loc Hin. by apply not_elem_of_nil in Hin.
  - intros s l1 Hin. by apply not_elem_of_nil in Hin.
Qed.

Lemma clean_cons f s l :
  clean f [s] → clean f l → (l ≠ [] → may_go_on s) → clean f (s :: l).
Proof.
  rewrite !clean_unfold. intros [[_ H1] H2] [[H3 H4] H5] Hgo. split; [split|].
  - intros pre s1 s2 post E. destruct pre as [|x pre]; injection E as -> E.
    + apply Hgo. by intros ->.
    + by eapply H3.
  - intros Hv v loc [E|Hin]%elem_of_cons; [|by eapply H4].
    eapply H1; [done|]. apply list_elem_of_singleton. exact E.
  - intros s' l1 [->|Hin]%elem_of_cons Hl; [|by eapply H5]. eapply H2; [by left|done].
Qed.

Lemma list_correct f l :
  Forall (statement_correct f) l →
  match check_statements (_check_statement f) false l with
  | Done b => clean f l ∧
      if b then ¬ exec_list l Completes else ∃ sig, sig ≠ Returns ∧ exec_list l sig
  | Raise e => justified f l e
  | NoFuel => False
  end.
Proof.
  induction 1 as [|s l Hs _ IH]; cbn [check_statements].
  { split; [apply clean_nil|]. exists Completes. split; [done|constructor]. }
  unfold statement_correct in Hs.
  destruct (_check_statement f s) as [[]|e|]; cbn [mbind outcome_bind];
    [| |by apply justified_head|done].
  - destruct Hs as [Hc Hs]. destruct l as [|s' l]; cbn [check_statements].
    + split; [done|]. intros He. inversion He; subst; auto.
    + exists (s :: s' :: l), [], s, s', l. split_and!; [constructor|done..].
  - destruct Hs as [Hc Hs].
    destruct (check_statements _ false l) as [b|e|]; [|by apply justified_cons|done].
    destruct IH as [Hcl Hb]. split; [by apply clean_cons|]. destruct b.
    + intros He. inversion He; subst; auto.
    + destruct Hs as (sig & Hsig & Hs). destruct (decide (sig = Completes)) as [->|Hne].
      * destruct Hb as (sig' & Hsig' & Hl). exists sig'. split; [done|]. by apply exec_next.
      * exists sig. split; [done|]. by apply exec_leave.
Qed.

Lemma clean_singleton f s :
  (returns_nothing f = true → ∀ v loc, s ≠ ReturnStatement (Some v) loc) →
  Forall (clean f) (sub_lists s) → clean f [s].
Proof.
  intros Hr Hs. apply clean_unfold. split; [split|].
  - by intros [|? [|??]].
  - intros Hv v loc E%list_elem_of_singleton. by apply (Hr Hv v loc).
  - intros s' l1 ->%list_elem_of_singleton Hl. rewrite Forall_forall in Hs. auto.
Qed.

Lemma leaf_correct f s b :
  sub_lists s = [] → _check_statement f s = Done b →
  (returns_nothing f = true → ∀ v loc, s ≠ ReturnStatement (Some v) loc) →
  (if b then ¬ exec_statement s Completes else may_go_on s) → statement_correct f s.
Proof.
  intros Hl Hc Hr Hb. unfold statement_correct. rewrite Hc. split; [|done].
  apply clean_singleton; [done|]. rewrite Hl. constructor.
Qed.

Lemma loop_correct f s l :
  sub_lists s = [l] → exec_statement s Completes → Forall (statement_correct f) l →
  _check_statement f s =
    (_ ← check_statements (_check_statement f) false l; Done false) →
  (∀ v loc, s ≠ ReturnStatement (Some v) loc) → statement_correct f s.
Proof.
  intros Hl Hs Hf E Hr. unfold statement_correct. rewrite E. pose proof (list_correct f l Hf) as Hc.
  destruct (check_statements _ false l) as [b|e|]; cbn [mbind outcome_bind]; [| |done].
  - split; [|by exists Completes]. apply clean_singleton; [auto|]. rewrite Hl.
    constructor; [apply Hc|constructor].
  - eapply justified_sub; [|done]. rewrite Hl. left.
Qed.

Lemma if_correct f c b e l :
  Forall (Forall (statement_correct f)) (sub_lists (IfStatement c (mk_block b) e l)) →
  statement_correct f (IfStatement c (mk_block b) e l).
Proof.
  intros Hsub. pose proof Hsub as [Hb He]%Forall_cons. unfold statement_correct.
  pose proof (list_correct f b Hb) as Hcb. cbn [_check_statement].
  destruct (check_statements _ false b) as [tb|err|]; cbn [mbind outcome_bind];
    [|eapply justified_sub; [by left|done]|done].
  destruct Hcb as [Hclean Htb].
  assert (tb = false → may_go_on (IfStatement c (mk_block b) e l)) as Hthen.
  { intros ->. destruct Htb as (sig & Hsig & Hx). exists sig. split; [done|by constructor]. }
  assert (∀ l0, clean f l0 → sub_lists (IfStatement c (mk_block b) e l) = [b; l0] →
    clean f [IfStatement c (mk_block b) e l]) as Hif.
  { intros l0 Hl0 E. apply clean_singleton; [done|]. rewrite E.
    constructor; [done|]. constructor; [done|constructor]. }
  destruct e as [[[b']|s']|]; cbn [sub_lists] in He.
  - apply Forall_cons in He as [He _]. pose proof (list_correct f b' He) as Hce.
    destruct (check_statements _ false b') as [eb|err|]; cbn [mbind outcome_bind];
      [|eapply justified_sub; [by right; left|done]|done].
    destruct Hce as [Hclean' Heb]. split; [by apply (Hif b')|]. destruct tb; [|by apply Hthen].
    destruct eb; cbn.
    + intros Hx. inversion Hx; subst; auto.
    + destruct Heb as (sig & Hsig & Hx). exists sig. split; [done|by apply exec_else].
  - apply Forall_cons in He as [[Hs _]%Forall_cons _]. unfold statement_correct in Hs.
    destruct (_check_statement f s') as [eb|err|]; cbn [mbind outcome_bind];
      [|eapply justified_sub; [by right; left|done]|done].
    destruct Hs as [Hclean' Heb]. split; [by apply (Hif [s'])|]. destruct tb; [|by apply Hthen].
    destruct eb; cbn.
    + intros Hx. inversion Hx; subst; auto.
    + destruct Heb as (sig & Hsig & Hx). exists sig. split; [done|by apply exec_else_if].
  - cbn [mbind outcome_bind andb]. split; [|exists Completes; split; [done|apply exec_no_else]].
    apply clean_singleton; [done|]. constructor; [done|constructor].
Qed.

Lemma statement_all_correct f s : statement_correct f s.
Proof.
  induction s as [s IH] using statement_ind'.
  destruct s as [n m v l a|v l|e l|c [b] e l|c [b] l|x e [b] l|l|l].
  - apply (leaf_correct _ _ false); [done..|]. exists Completes. split; [done|constructor].
  - unfold statement_correct. cbn [_check_statement].
    destruct (returns_nothing f) eqn:Hr; destruct v as [v|]; cbn.
    2-4: split; [apply clean_singleton; [by rewrite ?Hr|constructor]|by inversion 1].
    split_and!; [done..|]. exists [ReturnStatement (Some v) l], v. split; [constructor|by left].
  - apply (leaf_correct _ _ false); [done..|]. exists Completes. split; [done|constructor].
  - by apply if_correct.
  - apply Forall_cons in IH as [IH _]. apply (loop_correct _ _ b); [done| |done..].
    constructor. apply loop_done.
  - apply Forall_cons in IH as [IH _]. apply (loop_correct _ _ b); [done| |done..].
    constructor. apply loop_done.
  - apply (leaf_correct _ _ false); [done..|]. exists Breaks. split; [done|constructor].
  - apply (leaf_correct _ _ false); [done..|]. exists Continues. split; [done|constructor].
Qed.

Lemma block_correct f :
  match _check_block f (body f) with
  | Done b => clean f (statements (body f)) ∧
      if b then ¬ exec_list (statements (body f)) Completes
      else ∃ sig, sig ≠ Returns ∧ exec_list (statements (body f)) sig
  | Raise e => justified f (statements (body f)) e
  | NoFuel => False
  end.
Proof. apply list_correct, Forall_forall. intros s _. apply statement_all_correct. Qed.

(** * Declarations *)

Lemma check_unique_spec kind seen ds :
  match check_unique kind seen ds with
  | Done _ => NoDup ds.*1 ∧ ∀ n, n ∈ ds.*1 → n ∉ seen
  | Raise e => ∃ pre n l post, ds = pre ++ (n, l) :: post ∧ e = DuplicateDeclaration kind n l ∧
      (n ∈ seen ∨ n ∈ pre.*1)
  | NoFuel => False
  end.
Proof.
  revert seen. induction ds as [|[n l] ds IH]; intros seen; cbn [check_unique].
  { split; [constructor|set_solver]. }
  case_bool_decide as Hn; [by exists [], n, l, ds; auto|].
  specialize (IH (seen ∪ {[n]})). destruct (check_unique kind _ ds) as [|e|]; [| |done].
  - destruct IH as [Hd Hs]. cbn. split.
    + constructor; [|done]. intros Hin. by apply (Hs n Hin), elem_of_union_r, elem_of_singleton.
    + intros x [->|Hx]%elem_of_cons; [done|]. intros Hseen. apply (Hs x Hx). set_solver.
  - destruct IH as (pre & n' & l' & post & -> & -> & Hin). exists ((n, l) :: pre), n', l', post.
    split_and!; [done..|]. cbn. set_solver.
Qed.

Lemma check_disjoint_spec names ds :
  match check_disjoint names ds with
  | Done _ => ∀ n, n ∈ ds.*1 → n ∉ names
  | Raise e => ∃ n l, (n, l) ∈ ds ∧ e = StructAndEnum n l ∧ n ∈ names
  | NoFuel => False
  end.
Proof.
  induction ds as [|[n l] ds IH]; cbn [check_disjoint]; [set_solver|].
  case_bool_decide as Hn; [exists n, l; set_solver|].
  destruct (check_disjoint names ds) as [|e|]; [| |done].
  - cbn. intros x [->|Hx]%elem_of_cons; auto.
  - destruct IH as (n' & l' & Hin & -> & Hx). exists n', l'. set_solver.
Qed.

Lemma check_functions_spec fs :
  match check_functions fs with
  | Done _ => ∀ f, f ∈ fs → clean f (statements (body f)) ∧
      (is_Some (return_type f) → ¬ exec_list (statements (body f)) Completes)
  | Raise (MissingReturn n loc) => ∃ f, f ∈ fs ∧ n = function_name f ∧ loc = function_location f ∧
      is_Some (return_type f) ∧ ∃ sig, sig ≠ Returns ∧ exec_list (statements (body f)) sig
  | Raise e => ∃ f, f ∈ fs ∧ justified f (statements (body f)) e
  | NoFuel => False
  end.
Proof.
  induction fs as [|f fs IH]; cbn [check_functions]; [set_solver|].
  pose proof (block_correct f) as Hf.
  destruct (_check_block f (body f)) as [b|e|]; cbn [mbind outcome_bind]; [| |done].
  - destruct Hf as [Hclean Hb]. destruct (return_type f) as [t|] eqn:Hret, b; cbn [andb negb].
    2: { exists f. split_and!; [by left|done..|rewrite Hret; eauto|done]. }
    all: destruct (check_functions fs) as [|e|]; [|destruct e; naive_solver set_solver|done];
      intros f' [->|Hin]%elem_of_cons; [split; [done|rewrite Hret; try done; by intros [? ?]]|by apply IH].
  - assert (∃ f0, f0 ∈ f :: fs ∧ justified f0 (statements (body f0)) e) as Hj
      by (exists f; split; [by left|done]).
    by destruct e.
Qed.

Definition names_of (kind : declaration_kind) (p : NativeProgram) : list (ustring * SourceLocation) :=
  match kind with
  | KindFunction => function_names p
  | KindStruct => struct_names p
  | KindEnum => enum_names p
  end.

(** The fault of the program that an error of the pass stands for. *)
Definition real_fault (p : NativeProgram) (e : integrity_error) : Prop :=
  match e with
  | DuplicateDeclaration kind n l =>
      ∃ pre post, names_of kind p = pre ++ (n, l) :: post ∧ n ∈ pre.*1
  | StructAndEnum n l => (n, l) ∈ enum_names p ∧ n ∈ (struct_names p).*1
  | MissingReturn n l =>
      ∃ f, f ∈ declarations p ∧ n = function_name f ∧ l = function_location f ∧
        is_Some (return_type f) ∧ ∃ sig, sig ≠ Returns ∧ exec_list (statements (body f)) sig
  | VoidReturnsValue _ _ | UnreachableStatement _ =>
      ∃ f, f ∈ declarations p ∧ justified f (statements (body f)) e
  end.

Lemma validate_spec p :
  match _validate_top_level p with
  | Done _ => NoDup (function_names p).*1 ∧ NoDup (struct_names p).*1 ∧ NoDup (enum_names p).*1 ∧
      ∀ n, n ∈ (enum_names p).*1 → n ∉ (struct_names p).*1
  | Raise e => real_fault p e
  | NoFuel => False
  end.
Proof.
  unfold _validate_top_level.
  assert (∀ kind ds (k : () → result ()) (Q : Prop) (R : integrity_error → Prop),
    (∀ e, (∃ pre n l post, ds = pre ++ (n, l) :: post ∧ e = DuplicateDeclaration kind n l ∧
            (n ∈ (∅ : gset ustring) ∨ n ∈ pre.*1)) → R e) →
    (NoDup ds.*1 → match k () with Done _ => Q | Raise e => R e | NoFuel => False end) →
    match (x ← check_unique kind ∅ ds; k x) with Done _ => Q | Raise e => R e | NoFuel => False end)
    as Hstep.
  { intros kind ds k Q R HR Hk. pose proof (check_unique_spec kind ∅ ds) as Hu.
    destruct (check_unique kind ∅ ds) as [[]|e|]; cbn; [apply Hk, Hu|auto|done]. }
  assert (∀ kind e, (∃ pre n l post, names_of kind p = pre ++ (n, l) :: post ∧
    e = DuplicateDeclaration kind n l ∧ (n ∈ (∅ : gset ustring) ∨ n ∈ pre.*1)) → real_fault p e) as Hdup.
  { intros kind e (pre & n & l & post & E & -> & [Hn|Hn]); [by apply not_elem_of_empty in Hn|].
    by exists pre, post. }
  apply Hstep; [apply (Hdup KindFunction)|intros H1].
  apply Hstep; [apply (Hdup KindStruct)|intros H2].
  apply Hstep; [apply (Hdup KindEnum)|intros H3].
  pose proof (check_disjoint_spec (list_to_set ((struct_names p).*1)) (enum_names p)) as Hd.
  destruct (check_disjoint _ _) as [[]|e|]; [| |done].
  - split_and!; [done..|]. intros n Hn Hs. apply (Hd n Hn). by apply elem_of_list_to_set.
  - destruct Hd as (n & l & Hin & -> & Hs). split; [done|]. by apply elem_of_list_to_set in Hs.
Qed.

(** * Properties *)


(** what the integrity pass rejects is at fault.  Each error names a real
fault: KS1102 a name that an earlier declaration of the kind has, KS1701 a name
that is both a struct and an enum, KS1303 a function with a return type whose
body has an execution that does not end in a return, KS1304 a returned value in
a function that returns nothing, KS1305 a statement behind one that cannot be
completed; and the pass always gives an answer. *)
Theorem integrity_rejects (p : NativeProgram) :
  check_program_integrity p ≠ NoFuel ∧
  ∀ e, check_program_integrity p = Raise e → real_fault p e.
Proof.
  unfold check_program_integrity. pose proof (validate_spec p) as Hv.
  destruct (_validate_top_level p) as [[]|e|]; cbn [mbind outcome_bind];
    [|by split; [|intros ? [= <-]]|done].
  pose proof (check_functions_spec (declarations p)) as Hf.
  destruct (check_functions (declarations p)) as [[]|e|]; [done| |done].
  split; [done|]. intros e' [= <-]. destruct e; try done; by destruct Hf as (? & _ & []).
Qed.

(** A function of one [if] for the witnesses. *)
Definition sample_function (else_part : option else_branch) : FunctionDeclaration :=
  let l := mk_location 1 1 in
  mk_function (u "sign") [] (Some (mk_type_ref [u "Int"] l))
    (mk_block [IfStatement (Identifier (u "c") l) (mk_block [ReturnStatement (Some (Identifier (u "c") l)) l])
                 else_part l]) l false [] false.

Definition sample_program (else_part : option else_branch) : NativeProgram :=
  mk_program [sample_function else_part] [] [] [] [].


Lemma integrity_rejects_witness :
  real_fault (sample_program None) (MissingReturn (u "sign") (mk_location 1 1)).
Proof. apply (proj2 (integrity_rejects (sample_program None))). reflexivity. Defined.
