(* ===== verification/JsonNumber.v ===== *)
(** Exact JSON numbers: [canonical_number] of [src/koschei/data_json_v1.py].

The scanners of the parts of a number are shared by [canonical_number] and the
number method of the JSON parser, which write the same code twice.  A failing
scanner returns the text that was left, because the parser reports its offset.
The value of a number is the rational [number_value]; the theorems show that
the canonical text keeps it and is the only canonical text that has it. *)

From S2P Require Import Prelude.
From Stdlib Require Import QArith Qpower.

#[local] Open Scope Z_scope.

(** The messages of the [ValueError]s. *)
Inductive number_error :=
  | NumberEmpty
  | MissingDigits
  | LeadingZero
  | InvalidInteger
  | EmptyFraction
  | EmptyExponent
  | ExponentLimit
  | TrailingCharacters
  | NotCanonical.

#[export] Instance number_error_eq_dec : EqDecision number_error.
Proof. solve_decision. Defined.

(** A scanner returns what it read and the text behind it. *)
Abbreviation scanned A := (outcome (number_error * ustring) (A * ustring)).

(** * Scanning the parts of a number *)

Definition sign_part (s : ustring) : bool * ustring :=
  match s with
  | c :: rest => if c =? ch "-" then (true, rest) else (false, s)
  | [] => (false, s)
  end.

Definition integer_part (s : ustring) : scanned ustring :=
  match s with
  | [] => Raise (MissingDigits, s)
  | c :: rest =>
      if c =? ch "0" then
        match rest with
        | d :: _ => if is_ascii_digit d then Raise (LeadingZero, rest) else Done ([c], rest)
        | [] => Done ([c], rest)
        end
      else if (ch "1" <=? c) && (c <=? ch "9") then Done (span is_ascii_digit s)
      else Raise (InvalidInteger, s)
  end.

Definition fraction_part (s : ustring) : scanned ustring :=
  match s with
  | c :: rest =>
      if c =? ch "." then
        let '(fraction, rest') := span is_ascii_digit rest in
        if bool_decide (fraction = []) then Raise (EmptyFraction, rest)
        else Done (fraction, rest')
      else Done ([], s)
  | [] => Done ([], s)
  end.

(** The optional sign of an exponent. *)
Definition exponent_sign (s : ustring) : bool * ustring :=
  match s with
  | c :: rest =>
      if bool_decide (c ∈ u "+-") then (c =? ch "-", rest) else (false, s)
  | [] => (false, s)
  end.

Definition exponent_part (s : ustring) : scanned (option (bool * ustring)) :=
  match s with
  | c :: rest =>
      if bool_decide (c ∈ u "eE") then
        let '(exp_negative, rest) := exponent_sign rest in
        let '(digits, rest') := span is_ascii_digit rest in
        if bool_decide (digits = []) then Raise (EmptyExponent, rest)
        else Done (Some (exp_negative, digits), rest')
      else Done (None, s)
  | [] => Done (None, s)
  end.

(** * The canonical text *)

Definition lstrip0 (s : ustring) : ustring := (span (Z.eqb (ch "0")) s).2.
Definition rstrip0 (s : ustring) : ustring := rev (lstrip0 (rev s)).

Definition MAX_EXPONENT : Z := 1000000.

Definition exponent_value (e : option (bool * ustring)) : outcome number_error Z :=
  match e with
  | None => Done 0
  | Some (exp_negative, digits) =>
      let exp_digits := match lstrip0 digits with [] => u "0" | stripped => stripped end in
      if 9 <? Z.of_nat (length exp_digits) then Raise ExponentLimit
      else
        let exponent := dec_value exp_digits in
        if MAX_EXPONENT <? exponent then Raise ExponentLimit
        else Done (if exp_negative then - exponent else exponent)
  end.

Definition zeros (n : Z) : ustring := replicate (Z.to_nat n) (ch "0").

(** The text for [digits * 10 ^ scale]: the second half of [canonical_number]. *)
Definition render_number (negative : bool) (digits : ustring) (scale : Z) : ustring :=
  let size := Z.of_nat (length digits) in
  let scientific_exponent := scale + size - 1 in
  let sign := if negative then u "-" else [] in
  if (21 <=? scientific_exponent) || (scientific_exponent <=? -7) then
    let coefficient := take 1 digits in
    let coefficient := if 1 <? size then coefficient ++ u "." ++ drop 1 digits else coefficient in
    sign ++ coefficient ++ u "e" ++ str_int scientific_exponent
  else
    let decimal_position := size + scale in
    let body :=
      if decimal_position <=? 0 then u "0." ++ zeros (- decimal_position) ++ digits
      else if size <=? decimal_position then digits ++ zeros (decimal_position - size)
      else take (Z.to_nat decimal_position) digits ++ u "." ++ drop (Z.to_nat decimal_position) digits in
    sign ++ body.

(** Strip the zeros around the digits, and print. *)
Definition normalize_number (negative : bool) (integer fraction : ustring) (exponent : Z) : ustring :=
  let digits := lstrip0 (integer ++ fraction) in
  if bool_decide (digits = []) then u "0"
  else
    let scale := exponent - Z.of_nat (length fraction) in
    let trailing := (length digits - length (rstrip0 digits))%nat in
    render_number negative (take (length digits - trailing) digits) (scale + Z.of_nat trailing).

(** A scanner's failure without its position. *)
Definition scan {A} (o : scanned A) : outcome number_error (A * ustring) :=
  match o with
  | Done a => Done a
  | Raise (e, _) => Raise e
  | NoFuel => NoFuel
  end.

Definition canonical_number (text : ustring) : outcome number_error ustring :=
  if bool_decide (text = []) then Raise NumberEmpty
  else
    let '(negative, rest) := sign_part text in
    '(integer, rest) ← scan (integer_part rest);
    '(fraction, rest) ← scan (fraction_part rest);
    '(exp, rest) ← scan (exponent_part rest);
    exponent ← exponent_value exp;
    if bool_decide (rest = []) then Done (normalize_number negative integer fraction exponent)
    else Raise TrailingCharacters.

(** [Number(text)]: the dataclass runs [__post_init__]. *)
Definition new_number (text : ustring) : outcome number_error ustring :=
  canonical ← canonical_number text;
  if bool_decide (canonical = text) then Done text else Raise NotCanonical.

(** * The grammar and the value of a number *)

Definition all_digits (s : ustring) : Prop := Forall (λ c, is_ascii_digit c = true) s.

(** [s] does not start with a character of [p]. *)
Definition not_next (p : Z → bool) (s : ustring) : Prop :=
  match s with c :: _ => p c = false | [] => True end.

Definition fraction_text (f : ustring) : ustring :=
  match f with [] => [] | _ => ch "." :: f end.

Inductive exponent_text : option (bool * ustring) → ustring → Prop :=
  | no_exponent : exponent_text None []
  | some_exponent (l : Z) (s : ustring) (negative : bool) (digits : ustring) :
      l ∈ u "eE" → s ∈ ((if negative then [u "-"] else [[]; u "+"]) : list ustring) →
      digits ≠ [] → all_digits digits →
      exponent_text (Some (negative, digits)) (l :: s ++ digits).

Definition sign_text (negative : bool) : ustring := if negative then u "-" else [].

(** [text] is a JSON number with these parts. *)
Definition number_shape (text : ustring) (negative : bool) (i f : ustring)
    (e : option (bool * ustring)) : Prop :=
  ∃ x, text = sign_text negative ++ i ++ fraction_text f ++ x ∧
       canonical_digits i ∧ all_digits f ∧ exponent_text e x.

Definition signed (negative : bool) (n : Z) : Z := if negative then - n else n.

Definition exponent_int (e : option (bool * ustring)) : Z :=
  match e with Some (negative, digits) => signed negative (dec_value digits) | None => 0 end.

(** [m * 10 ^ e]. *)
Definition scaled (m e : Z) : Q := (inject_Z m * inject_Z 10 ^ e)%Q.

(** The JSON number [text] has the value [q]. *)
Definition number_value (text : ustring) (q : Q) : Prop :=
  ∃ negative i f e, number_shape text negative i f e ∧
    (q == scaled (signed negative (dec_value (i ++ f))) (exponent_int e - Z.of_nat (length f)))%Q.

(** * The scanners follow the grammar *)

Lemma not_digit_next (s rest : ustring) :
  all_digits s → not_next is_ascii_digit rest → span is_ascii_digit (s ++ rest) = (s, rest).
Proof. intros Hs Hr. apply span_stop; [done|]. by destruct rest. Qed.

Lemma span_digits_inv (s d rest : ustring) :
  span is_ascii_digit s = (d, rest) →
  s = d ++ rest ∧ all_digits d ∧ not_next is_ascii_digit rest.
Proof.
  intros E. pose proof (span_app is_ascii_digit s) as Happ.
  pose proof (span_fst_Forall is_ascii_digit s) as Hd.
  pose proof (span_snd is_ascii_digit s) as Hr. rewrite E in *. cbn [fst snd] in *.
  split; [done|]. split; [done|]. by destruct rest.
Qed.

Lemma canonical_digits_head c s :
  canonical_digits (c :: s) → (c = 48 ∧ s = []) ∨ 49 <= c <= 57.
Proof.
  intros [Hall H]. inversion Hall as [|? ? Hc _]; subst. apply is_ascii_digit_spec in Hc.
  destruct (decide (c = 48)) as [->|]; [|lia]. left. by destruct s.
Qed.

Lemma integer_part_run (i rest : ustring) :
  canonical_digits i → not_next is_ascii_digit rest → integer_part (i ++ rest) = Done (i, rest).
Proof.
  intros Hi Hr. destruct i as [|c i]; [by destruct Hi|].
  destruct (canonical_digits_head c i Hi) as [[-> ->]|Hc]; unfold integer_part; cbn [app].
  - replace (48 =? ch "0") with true by done. destruct rest as [|d rest]; [done|].
    cbn in Hr. by rewrite Hr.
  - destruct (Z.eqb_spec c (ch "0")); [lia|].
    replace ((ch "1" <=? c) && (c <=? ch "9")) with true
      by (symmetry; apply andb_true_iff; split; apply Z.leb_le; lia).
    f_equal. apply (not_digit_next (c :: i)); [apply Hi|done].
Qed.

Lemma integer_part_inv (s i rest : ustring) :
  integer_part s = Done (i, rest) →
  s = i ++ rest ∧ canonical_digits i ∧ not_next is_ascii_digit rest.
Proof.
  unfold integer_part. destruct s as [|c s]; [done|].
  destruct (Z.eqb_spec c (ch "0")) as [->|Hc].
  - destruct s as [|d s].
    + intros [= <- <-]. split; [done|]. split; [by repeat constructor|done].
    + destruct (is_ascii_digit d) eqn:Hd; intros [= <- <-].
      split; [done|]. split; [by repeat constructor|done].
  - destruct (_ && _) eqn:H19; [|done]. bool_to_prop. intros [= E].
    assert (is_ascii_digit c = true) as Hd by (apply is_ascii_digit_spec; lia).
    cbn [span] in E. rewrite Hd in E. injection E as <- <-.
    destruct (span is_ascii_digit s) as [d rest'] eqn:E. cbn [fst snd].
    apply span_digits_inv in E as (-> & Hall & Hr). split; [done|]. split; [|done].
    split; [by constructor|]. destruct d; [done|]. intros ->. lia.
Qed.

Lemma fraction_part_run (f rest : ustring) :
  all_digits f → not_next is_ascii_digit rest → not_next (Z.eqb (ch ".")) rest →
  fraction_part (fraction_text f ++ rest) = Done (f, rest).
Proof.
  intros Hf Hr Hp. destruct f as [|c f].
  - cbn [fraction_text app]. unfold fraction_part. destruct rest as [|d rest]; [done|].
    unfold not_next in Hp. rewrite Z.eqb_sym in Hp. by rewrite Hp.
  - cbn [fraction_text app fraction_part]. rewrite Z.eqb_refl.
    pose proof (not_digit_next (c :: f) rest Hf Hr) as E. cbn [app] in E. rewrite E.
    by rewrite bool_decide_eq_false_2.
Qed.

Lemma fraction_part_inv (s f rest : ustring) :
  not_next is_ascii_digit s →
  fraction_part s = Done (f, rest) →
  s = fraction_text f ++ rest ∧ all_digits f ∧ not_next is_ascii_digit rest.
Proof.
  unfold fraction_part. intros Hs. destruct s as [|c s].
  { intros [= <- <-]. split; [done|]. split; [constructor|done]. }
  destruct (Z.eqb_spec c (ch ".")) as [->|].
  - destruct (span is_ascii_digit s) as [d rest'] eqn:E.
    apply span_digits_inv in E as (-> & Hall & Hr).
    case_bool_decide; [done|]. intros [= <- <-]. by destruct d.
  - intros [= <- <-]. split; [done|]. split; [constructor|done].
Qed.

Lemma exponent_sign_run (negative : bool) (s digits rest : ustring) :
  s ∈ ((if negative then [u "-"] else [[]; u "+"]) : list ustring) → digits ≠ [] → all_digits digits →
  exponent_sign (s ++ digits ++ rest) = (negative, digits ++ rest).
Proof.
  intros Hs Hne Hd. destruct digits as [|c d]; [done|].
  inversion Hd as [|? ? Hc _]; subst. apply is_ascii_digit_spec in Hc.
  assert (bool_decide (c ∈ u "+-") = false) as Hsign
    by (apply bool_decide_eq_false; cbn; rewrite !elem_of_cons; intros [?|[?|[]%elem_of_nil]]; lia).
  destruct negative; repeat (apply elem_of_cons in Hs as [->|Hs]; [|]); try by apply elem_of_nil in Hs.
  all: try done. cbn [app exponent_sign]. by rewrite Hsign.
Qed.

Lemma exponent_part_run e (x rest : ustring) :
  exponent_text e x → not_next is_ascii_digit rest →
  not_next (λ c, bool_decide (c ∈ u "eE")) rest →
  exponent_part (x ++ rest) = Done (e, rest).
Proof.
  intros Hx Hr He. destruct Hx as [|l s negative digits Hl Hs Hne Hd].
  - cbn [app]. unfold exponent_part. destruct rest as [|c rest]; [done|]. cbn in He |- *. by rewrite He.
  - cbn [app exponent_part]. rewrite bool_decide_eq_true_2 by done. rewrite <- (app_assoc s).
    rewrite (exponent_sign_run negative), not_digit_next by done.
    by rewrite bool_decide_eq_false_2.
Qed.

Lemma exponent_part_inv (s : ustring) e (rest : ustring) :
  not_next is_ascii_digit s →
  exponent_part s = Done (e, rest) →
  ∃ x, s = x ++ rest ∧ exponent_text e x ∧ not_next is_ascii_digit rest.
Proof.
  unfold exponent_part. intros Hnext. destruct s as [|c s].
  { intros [= <- <-]. exists []. split; [done|]. split; [constructor|done]. }
  case_bool_decide as Hc.
  2: { intros [= <- <-]. exists []. split; [done|]. split; [constructor|done]. }
  destruct (exponent_sign s) as [negative s'] eqn:Es.
  destruct (span is_ascii_digit s') as [d rest'] eqn:E.
  apply span_digits_inv in E as (-> & Hall & Hr).
  case_bool_decide as Hne; [done|]. intros [= <- <-].
  unfold exponent_sign in Es. destruct s as [|c' s]; [injection Es as <- E; by destruct d|].
  case_bool_decide as Hs; injection Es as <- Es; rewrite Es.
  - exists (c :: [c'] ++ d). split; [done|]. split; [|done].
    constructor; [done| |done..]. cbn in Hs. rewrite !elem_of_cons in Hs.
    destruct Hs as [->|[->|[]%elem_of_nil]]; [right; left|left].
  - exists (c :: [] ++ d). split; [done|]. split; [|done]. constructor; [done|left|done..].
Qed.

(** * Scaled integers *)

Lemma ten_neq_zero : ~ (inject_Z 10 == 0)%Q.
Proof. done. Qed.

Lemma ten_power_neq_zero e : ~ (inject_Z 10 ^ e == 0)%Q.
Proof. apply Qpower_not_0, ten_neq_zero. Qed.

Lemma scaled_shift m e k : 0 <= k → (scaled (m * 10 ^ k) e == scaled m (e + k))%Q.
Proof.
  intros Hk. unfold scaled. rewrite Qpower_plus by apply ten_neq_zero.
  rewrite inject_Z_mult, Zpower_Qpower by done. ring.
Qed.

Lemma scaled_cancel m1 m2 e : (scaled m1 e == scaled m2 e)%Q → m1 = m2.
Proof.
  unfold scaled. intros H. apply Qmult_inj_r in H; [|apply ten_power_neq_zero].
  by apply inject_Z_injective.
Qed.

Lemma scaled_zero e : (scaled 0 e == 0)%Q.
Proof. unfold scaled. apply Qmult_0_l. Qed.

Lemma scaled_inj m1 m2 e1 e2 :
  e1 <= e2 → (scaled m1 e1 == scaled m2 e2)%Q → m1 = m2 * 10 ^ (e2 - e1).
Proof.
  intros He H. apply (scaled_cancel _ _ e1). rewrite scaled_shift by lia.
  replace (e1 + (e2 - e1)) with e2 by lia. done.
Qed.

(** * Stripping zeros *)

Definition significant (d : ustring) : Prop := canonical_digits d ∧ last d ≠ Some 48.

Lemma lstrip0_split s :
  ∃ k, s = replicate k 48 ++ lstrip0 s ∧ not_next (Z.eqb 48) (lstrip0 s).
Proof.
  unfold lstrip0. pose proof (span_app (Z.eqb 48) s) as Happ.
  pose proof (span_fst_Forall (Z.eqb 48) s) as Hz. pose proof (span_snd (Z.eqb 48) s) as Hn.
  change (ch "0") with 48.
  exists (length (span (Z.eqb 48) s).1). split.
  - rewrite <- Happ at 1. f_equal. revert Hz. generalize (span (Z.eqb 48) s).1.
    induction 1 as [|c l Hc _ IH]; [done|]. cbn [length replicate].
    apply Z.eqb_eq in Hc. by rewrite <- IH, <- Hc.
  - by destruct (span (Z.eqb 48) s).2.
Qed.

Lemma lstrip0_run k d : not_next (Z.eqb 48) d → lstrip0 (replicate k 48 ++ d) = d.
Proof.
  intros Hd. unfold lstrip0. change (ch "0") with 48. rewrite span_stop; [done| |by destruct d].
  apply Forall_replicate. done.
Qed.

Lemma not_next_last d : last d ≠ Some 48 → not_next (Z.eqb 48) (rev d).
Proof.
  destruct d as [|c d _] using rev_ind; [done|]. rewrite last_snoc, rev_app_distr. cbn [rev app not_next].
  intros H. apply Z.eqb_neq. congruence.
Qed.

Lemma rev_replicate_id {A} k (x : A) : rev (replicate k x) = replicate k x.
Proof.
  induction k as [|k IH]; [done|]. cbn [replicate rev]. rewrite IH. clear IH.
  induction k as [|k IH]; [done|]. cbn [replicate app]. by rewrite IH.
Qed.

Lemma rstrip0_run k d : last d ≠ Some 48 → rstrip0 (d ++ replicate k 48) = d.
Proof.
  intros Hd. unfold rstrip0. rewrite rev_app_distr, rev_replicate_id, lstrip0_run.
  - apply rev_involutive.
  - by apply not_next_last.
Qed.

Lemma rstrip0_split s : ∃ k, s = rstrip0 s ++ replicate k 48 ∧ last (rstrip0 s) ≠ Some 48.
Proof.
  unfold rstrip0. destruct (lstrip0_split (rev s)) as (k & Hk & Hn). exists k. split.
  - apply (f_equal (@rev Z)) in Hk. rewrite rev_involutive, rev_app_distr, rev_replicate_id in Hk. done.
  - destruct (lstrip0 (rev s)) as [|c l]; [done|]. cbn [rev]. rewrite last_snoc.
    intros [= ->]. done.
Qed.

Lemma dec_value_lead k s : dec_value (replicate k 48 ++ s) = dec_value s.
Proof. rewrite dec_value_app, dec_value_zeros. lia. Qed.

Lemma dec_value_trail k s : dec_value (s ++ replicate k 48) = dec_value s * 10 ^ Z.of_nat k.
Proof. rewrite dec_value_app, dec_value_zeros, length_replicate. lia. Qed.

Lemma canonical_lower c s :
  canonical_digits (c :: s) → c ≠ 48 → 10 ^ Z.of_nat (length s) <= dec_value (c :: s).
Proof.
  intros Hc Hne. destruct (canonical_digits_head c s Hc) as [[-> _]|H]; [done|].
  destruct Hc as [Hall _]. inversion Hall as [|? ? _ Hs]; subst.
  pose proof (dec_value_bounds s Hs). rewrite dec_value_cons. nia.
Qed.

Lemma significant_head d : significant d → not_next (Z.eqb 48) d.
Proof.
  intros [Hc Hl]. destruct d as [|c d]; [done|]. cbn [not_next]. apply Z.eqb_neq. intros <-.
  destruct (canonical_digits_head 48 d Hc) as [[_ ->]|?]; [done|lia].
Qed.

Lemma significant_pos d : significant d → 0 < dec_value d.
Proof.
  intros H. pose proof (significant_head d H) as Hn. destruct H as [Hc Hl].
  destruct d as [|c d]; [by destruct Hc|]. cbn [not_next] in Hn. apply Z.eqb_neq in Hn.
  pose proof (canonical_lower c d Hc ltac:(done)).
  pose proof (Z.pow_pos_nonneg 10 (Z.of_nat (length d))). lia.
Qed.

Lemma significant_mod d : significant d → dec_value d mod 10 ≠ 0.
Proof.
  intros [[Hall Hc] Hl]. destruct d as [|c d _] using rev_ind; [done|].
  clear Hc. rewrite last_snoc in Hl. apply Forall_app in Hall as [_ Hd]. inversion Hd as [|? ? Hc' _]; subst.
  apply is_ascii_digit_spec in Hc'. rewrite dec_value_snoc.
  replace (10 * dec_value d + (c - 48)) with ((c - 48) + dec_value d * 10) by lia.
  rewrite Z_mod_plus_full, Z.mod_small by lia. intros E. apply Hl. f_equal. lia.
Qed.

(** A value has one significant form. *)
Lemma significant_unique n1 n2 d1 d2 s1 s2 :
  significant d1 → significant d2 →
  (scaled (signed n1 (dec_value d1)) s1 == scaled (signed n2 (dec_value d2)) s2)%Q →
  n1 = n2 ∧ d1 = d2 ∧ s1 = s2.
Proof.
  assert (∀ n1 n2 d1 d2 s1 s2, significant d1 → significant d2 → s1 <= s2 →
    (scaled (signed n1 (dec_value d1)) s1 == scaled (signed n2 (dec_value d2)) s2)%Q →
    n1 = n2 ∧ d1 = d2 ∧ s1 = s2) as Hle.
  { clear. intros n1 n2 d1 d2 s1 s2 H1 H2 Hs H. apply scaled_inj in H; [|done].
    pose proof (significant_pos _ H1). pose proof (significant_pos _ H2).
    pose proof (Z.pow_pos_nonneg 10 (s2 - s1) ltac:(lia) ltac:(lia)).
    assert (n1 = n2 ∧ dec_value d1 = dec_value d2 * 10 ^ (s2 - s1)) as [-> E]
      by (destruct n1, n2; cbn [signed] in H; nia).
    assert (s1 = s2) as <-.
    { destruct (decide (s1 = s2)) as [|Hne]; [done|]. exfalso. apply (significant_mod d1 H1).
      rewrite E. replace (s2 - s1) with (Z.succ (s2 - s1 - 1)) by lia.
      rewrite Z.pow_succ_r by lia.
      replace (dec_value d2 * (10 * 10 ^ (s2 - s1 - 1))) with ((dec_value d2 * 10 ^ (s2 - s1 - 1)) * 10) by lia.
      apply Z_mod_mult. }
    split; [done|]. split; [|done]. rewrite Z.sub_diag, Z.mul_1_r in E.
    rewrite <- (str_nat_dec_value d1 (proj1 H1)), <- (str_nat_dec_value d2 (proj1 H2)).
    by rewrite E. }
  intros H1 H2 H. destruct (Z.le_ge_cases s1 s2) as [Hs|Hs]; [by apply Hle|].
  destruct (Hle n2 n1 d2 d1 s2 s1) as (-> & -> & ->); done.
Qed.

(** * Normalization *)

Lemma normalize_digits negative i f E a d b :
  i ++ f = replicate a 48 ++ d ++ replicate b 48 → significant d →
  normalize_number negative i f E =
  render_number negative d (E - Z.of_nat (length f) + Z.of_nat b).
Proof.
  intros Hif Hd. pose proof (significant_head d Hd) as Hn. pose proof (significant_pos d Hd) as Hp.
  unfold normalize_number. rewrite Hif.
  assert (d ≠ []) as Hne by (intros ->; cbn in Hp; lia).
  rewrite lstrip0_run by (by destruct d). rewrite rstrip0_run by apply Hd.
  rewrite bool_decide_eq_false_2 by (by destruct d). rewrite length_app, length_replicate.
  replace (length d + b - (length d + b - length d))%nat with (length d) by lia.
  rewrite take_app_length. f_equal. lia.
Qed.

Lemma normalize_spec negative (i f : ustring) E :
  all_digits (i ++ f) →
  dec_value (i ++ f) = 0 ∧ normalize_number negative i f E = u "0" ∨
  ∃ d s, significant d ∧ normalize_number negative i f E = render_number negative d s ∧
    ∀ n, (scaled (signed n (dec_value (i ++ f))) (E - Z.of_nat (length f)) ==
          scaled (signed n (dec_value d)) s)%Q.
Proof.
  intros Hall. destruct (lstrip0_split (i ++ f)) as (a & Ha & Hna).
  destruct (rstrip0_split (lstrip0 (i ++ f))) as (b & Hb & Hnb).
  set (d := rstrip0 (lstrip0 (i ++ f))) in *.
  destruct (decide (lstrip0 (i ++ f) = [])) as [E0|Hne].
  - left. split.
    + rewrite Ha, E0. rewrite app_nil_r. apply dec_value_zeros.
    + unfold normalize_number. by rewrite E0.
  - right. rewrite Hb in Ha, Hna. rewrite Hb in Hne.
    assert (d ≠ []) as Hd.
    { intros Hd. rewrite Hd in Hna, Hne. cbn [app] in Hna, Hne. by destruct b. }
    assert (significant d) as Hsig.
    { split; [|done]. rewrite Ha in Hall.
      apply Forall_app in Hall as [_ Hall]. apply Forall_app in Hall as [Hall _]. split; [done|].
      destruct d as [|c d']; [done|]. cbn [app not_next] in Hna. apply Z.eqb_neq in Hna.
      by destruct d'. }
    exists d, (E - Z.of_nat (length f) + Z.of_nat b). split; [done|].
    split; [by apply (normalize_digits _ _ _ _ a)|]. intros n. rewrite Ha.
    rewrite dec_value_lead, dec_value_trail, <- scaled_shift by lia.
    replace (signed n (dec_value d * 10 ^ Z.of_nat b)) with (signed n (dec_value d) * 10 ^ Z.of_nat b)
      by (destruct n; cbn [signed]; lia). done.
Qed.

(** * Exponents *)

Definition exponent_digits (e : option (bool * ustring)) : Prop :=
  match e with Some (_, digits) => digits ≠ [] ∧ all_digits digits | None => True end.

Lemma exponent_text_digits e x : exponent_text e x → exponent_digits e.
Proof. by destruct 1. Qed.

Definition exponent_ok (e : option (bool * ustring)) : bool :=
  Z.abs (exponent_int e) <=? MAX_EXPONENT.

Lemma exponent_value_spec e :
  exponent_digits e →
  exponent_value e = if exponent_ok e then Done (exponent_int e) else Raise ExponentLimit.
Proof.
  destruct e as [[negative digits]|]; [|done]. intros [_ Hd]. unfold exponent_ok.
  cbn [exponent_value exponent_int].
  destruct (lstrip0_split digits) as (k & Hk & Hn).
  assert (dec_value digits = dec_value (lstrip0 digits)) as Hv by (rewrite Hk at 1; apply dec_value_lead).
  assert (all_digits (lstrip0 digits)) as Hs.
  { unfold all_digits in Hd. rewrite Hk in Hd. by apply Forall_app in Hd as [_ ?]. }
  rewrite Hv. destruct (lstrip0 digits) as [|c l] eqn:E.
  { change (dec_value []) with 0. by destruct negative. }
  cbn [not_next] in Hn. apply Z.eqb_neq in Hn.
  assert (canonical_digits (c :: l)) as Hc by (split; [done|]; by destruct l).
  pose proof (canonical_lower c l Hc ltac:(done)) as Hlow.
  pose proof (dec_value_bounds (c :: l) Hs) as Hb. unfold MAX_EXPONENT in *.
  replace (Z.abs (signed negative (dec_value (c :: l)))) with (dec_value (c :: l))
    by (destruct negative; unfold signed; lia).
  destruct (Z.ltb_spec 9 (Z.of_nat (length (c :: l)))) as [H9|H9].
  - cbn [length] in H9. pose proof (Z.pow_le_mono_r 10 9 (Z.of_nat (length l)) ltac:(lia) ltac:(lia)).
    destruct (Z.leb_spec (dec_value (c :: l)) 1000000); [lia|done].
  - unfold signed. destruct (Z.ltb_spec 1000000 (dec_value (c :: l))), (Z.leb_spec (dec_value (c :: l)) 1000000);
      first [lia|done].
Qed.

Lemma exponent_text_not_next e x : exponent_text e x → not_next is_ascii_digit x ∧ not_next (Z.eqb (ch ".")) x.
Proof.
  destruct 1 as [|l s negative digits Hl]; [done|]. cbn in Hl. rewrite !elem_of_cons in Hl.
  by destruct Hl as [->|[->|[]%elem_of_nil]].
Qed.

Lemma fraction_text_not_next f x :
  not_next is_ascii_digit x → not_next is_ascii_digit (fraction_text f ++ x).
Proof. by destruct f. Qed.

Lemma sign_part_run negative i x :
  canonical_digits i → sign_part (sign_text negative ++ i ++ x) = (negative, i ++ x).
Proof.
  intros [Hall Hi]. destruct negative; [done|]. destruct i as [|c i]; [done|].
  inversion Hall as [|? ? Hc _]; subst. apply is_ascii_digit_spec in Hc.
  cbn [sign_text app sign_part]. destruct (Z.eqb_spec c (ch "-")); [lia|done].
Qed.

(** * What [canonical_number] does on a number, and on anything else *)

Lemma canonical_number_run text negative i f e :
  number_shape text negative i f e →
  canonical_number text =
  if exponent_ok e then Done (normalize_number negative i f (exponent_int e)) else Raise ExponentLimit.
Proof.
  intros (x & -> & Hi & Hf & Hx). unfold canonical_number.
  rewrite bool_decide_eq_false_2
    by (intros E; apply app_nil in E as [_ E]; apply app_nil in E as [-> _]; by destruct Hi).
  rewrite sign_part_run by done.
  destruct (exponent_text_not_next e x Hx) as [Hx1 Hx2].
  rewrite integer_part_run by (done || by apply fraction_text_not_next).
  cbn [scan mbind outcome_bind]. rewrite fraction_part_run by done.
  cbn [scan mbind outcome_bind].
  pose proof (exponent_part_run e x [] Hx ltac:(done) ltac:(done)) as E. rewrite app_nil_r in E.
  rewrite E. cbn [scan mbind outcome_bind].
  rewrite exponent_value_spec by (by eapply exponent_text_digits).
  by destruct (exponent_ok e).
Qed.

Lemma canonical_number_inv text c :
  canonical_number text = Done c →
  ∃ negative i f e, number_shape text negative i f e ∧ exponent_ok e = true ∧
    c = normalize_number negative i f (exponent_int e).
Proof.
  unfold canonical_number. case_bool_decide as Hne; [done|].
  destruct (sign_part text) as [negative s] eqn:Es.
  destruct (integer_part s) as [[i s1]|[]|] eqn:Ei; cbn [scan mbind outcome_bind]; try done.
  destruct (fraction_part s1) as [[f s2]|[]|] eqn:Ef; cbn [scan mbind outcome_bind]; try done.
  destruct (exponent_part s2) as [[e s3]|[]|] eqn:Ee; cbn [scan mbind outcome_bind]; try done.
  apply integer_part_inv in Ei as (-> & Hi & Hn1).
  apply fraction_part_inv in Ef as (-> & Hf & Hn2); [|done].
  apply exponent_part_inv in Ee as (x & -> & Hx & Hn3); [|done].
  rewrite exponent_value_spec by (by eapply exponent_text_digits).
  destruct (exponent_ok e) eqn:Hok; cbn [mbind outcome_bind]; [|done].
  case_bool_decide as H3; [|done]. subst s3. intros [= <-]. rewrite app_nil_r in Es.
  exists negative, i, f, e. split; [|done]. exists x. split; [|done].
  unfold sign_part in Es. destruct text as [|c0 text]; [done|].
  destruct (Z.eqb_spec c0 (ch "-")) as [->|]; injection Es as <- Es; by rewrite Es.
Qed.

(** * The canonical text is a number with the same value *)

Lemma str_int_exponent z :
  ∃ digits, str_int z = (if z <? 0 then u "-" else []) ++ digits ∧ digits ≠ [] ∧ all_digits digits ∧
    signed (z <? 0) (dec_value digits) = z.
Proof.
  unfold str_int. destruct (Z.ltb_spec z 0) as [H|H].
  - exists (str_nat (- z)). split; [done|]. rewrite dec_value_str_nat by lia. cbn [signed].
    repeat split; [apply str_nat_nonnil; lia|apply str_nat_canonical; lia|lia].
  - exists (str_nat z). split; [done|]. rewrite dec_value_str_nat by lia. cbn [signed].
    repeat split; [apply str_nat_nonnil; lia|apply str_nat_canonical; lia].
Qed.

Lemma scientific_exponent_text z :
  ∃ e, exponent_text e (u "e" ++ str_int z) ∧ exponent_int e = z.
Proof.
  destruct (str_int_exponent z) as (digits & E & Hne & Hall & Hv).
  exists (Some (z <? 0, digits)). split; [|done]. rewrite E.
  apply (some_exponent (ch "e") (if z <? 0 then u "-" else [])); [left| |done..]. destruct (z <? 0); left.
Qed.

Lemma canonical_digits_take n d :
  canonical_digits d → (0 < n)%nat → canonical_digits (take n d).
Proof.
  intros [Hall H] Hn. split; [by apply Forall_take|]. destruct d as [|c d]; [done|].
  destruct n as [|n]; [lia|]. cbn [take]. by destruct d, n.
Qed.

Lemma canonical_digits_zeros d n :
  significant d → canonical_digits (d ++ zeros n).
Proof.
  intros Hd. pose proof (significant_head d Hd) as Hh. destruct Hd as [[Hall H] _]. split.
  - apply Forall_app. split; [done|]. by apply Forall_replicate.
  - destruct d as [|c d]; [done|]. cbn [app not_next] in *. apply Z.eqb_neq in Hh.
    by destruct (d ++ zeros n).
Qed.

(** [render_number] prints a number whose digits are [d] between zeros. *)
Lemma render_shape negative d s :
  significant d →
  ∃ i f e a b, number_shape (render_number negative d s) negative i f e ∧
    i ++ f = replicate a 48 ++ d ++ replicate b 48 ∧
    exponent_int e - Z.of_nat (length f) + Z.of_nat b = s.
Proof.
  intros Hd. pose proof Hd as [[Hall Hc] Hl]. unfold render_number.
  assert (0 < length d)%nat as Hlen by (destruct d; cbn; [done|lia]).
  set (size := Z.of_nat (length d)). fold (sign_text negative). destruct (_ || _).
  - destruct (scientific_exponent_text (s + size - 1)) as (e & He & Hz).
    exists (take 1 d), (drop 1 d), e, O, O. rewrite take_drop, Hz. cbn [replicate]. rewrite app_nil_r.
    split; [|split; [done|rewrite length_drop; lia]].
    exists (u "e" ++ str_int (s + size - 1)). split; [|split; [by apply canonical_digits_take; [|lia]|]].
    + f_equal. destruct (Z.ltb_spec 1 size) as [H1|H1].
      * rewrite <- !app_assoc. destruct d as [|c [|c' d]]; [done|unfold size in H1; cbn [length] in H1; lia|done].
      * destruct d as [|c [|c' d]]; [done..|unfold size in H1; cbn [length] in H1; lia].
    + split; [by apply Forall_drop|done].
  - destruct (Z.leb_spec (size + s) 0) as [H1|H1]; [|destruct (Z.leb_spec size (size + s)) as [H2|H2]].
    + exists (u "0"), (zeros (- (size + s)) ++ d), None, (S (Z.to_nat (- (size + s)))), O.
      split; [|split].
      * exists []. rewrite app_nil_r. split; [|split; [by split; [repeat constructor|]|split; [|constructor]]].
        -- f_equal. destruct d; [done|]. unfold zeros. by destruct (Z.to_nat _).
        -- apply Forall_app. split; [by apply Forall_replicate|done].
      * by rewrite app_nil_r.
      * cbn [exponent_int]. unfold zeros. rewrite length_app, length_replicate. lia.
    + exists (d ++ zeros (size + s - size)), [], None, O, (Z.to_nat (size + s - size)).
      split; [|split].
      * exists []. rewrite !app_nil_r. split; [done|].
        split; [by apply canonical_digits_zeros|split; constructor].
      * by rewrite app_nil_r.
      * cbn [exponent_int length]. lia.
    + exists (take (Z.to_nat (size + s)) d), (drop (Z.to_nat (size + s)) d), None, O, O.
      split; [|split].
      * exists []. rewrite app_nil_r. split; [|split; [apply canonical_digits_take; [done|lia]|]].
        -- f_equal. destruct (drop _ d) eqn:E; [|done].
           apply (f_equal length) in E. rewrite length_drop in E. cbn [length] in E. lia.
        -- split; [by apply Forall_drop|constructor].
      * cbn [replicate]. by rewrite take_drop, app_nil_r.
      * cbn [exponent_int]. rewrite length_drop. lia.
Qed.

Lemma render_value negative d s :
  significant d → number_value (render_number negative d s) (scaled (signed negative (dec_value d)) s).
Proof.
  intros Hd. destruct (render_shape negative d s Hd) as (i & f & e & a & b & Hshape & Hif & Hs).
  exists negative, i, f, e. split; [done|]. rewrite Hif, dec_value_lead, dec_value_trail, <- Hs.
  rewrite <- scaled_shift by lia. destruct negative; cbn [signed]; rewrite ?Z.mul_opp_l; done.
Qed.

Lemma zero_value : number_value (u "0") 0.
Proof.
  exists false, (u "0"), [], None. split; [|done]. exists [].
  repeat split; try constructor; done.
Qed.

Lemma signed_zero n z : signed n z = 0 ↔ z = 0.
Proof. destruct n; cbn [signed]; lia. Qed.

(** The canonical form of a number: zero, or significant digits scaled. *)
Lemma canonical_number_form text c q :
  canonical_number text = Done c → number_value text q →
  (c = u "0" ∧ (q == 0)%Q) ∨
  ∃ n d s, significant d ∧ c = render_number n d s ∧ (q == scaled (signed n (dec_value d)) s)%Q.
Proof.
  intros Hc (n & i & f & e & Hs & Hq). rewrite (canonical_number_run _ _ _ _ _ Hs) in Hc.
  destruct (exponent_ok e); [|done]. injection Hc as <-.
  assert (all_digits (i ++ f)) as Hall
    by (destruct Hs as (? & _ & [? _] & ? & _); apply Forall_app; done).
  destruct (normalize_spec n i f (exponent_int e) Hall) as [[Hz ->]|(d & s & Hd & -> & Hv)].
  - left. split; [done|]. rewrite Hq, Hz. replace (signed n 0) with 0 by (by destruct n). apply scaled_zero.
  - right. exists n, d, s. split; [done|]. split; [done|]. by rewrite Hq, Hv.
Qed.

Lemma number_shape_unique text n1 i1 f1 e1 n2 i2 f2 e2 :
  number_shape text n1 i1 f1 e1 → number_shape text n2 i2 f2 e2 →
  n1 = n2 ∧ i1 = i2 ∧ f1 = f2 ∧ e1 = e2.
Proof.
  intros (x1 & E1 & Hi1 & Hf1 & Hx1) (x2 & E2 & Hi2 & Hf2 & Hx2).
  destruct (exponent_text_not_next _ _ Hx1) as [Ha1 Hb1].
  destruct (exponent_text_not_next _ _ Hx2) as [Ha2 Hb2].
  pose proof (sign_part_run n1 i1 (fraction_text f1 ++ x1) Hi1) as S1.
  pose proof (sign_part_run n2 i2 (fraction_text f2 ++ x2) Hi2) as S2.
  rewrite <- E1 in S1. rewrite <- E2, S1 in S2. injection S2 as -> S2.
  pose proof (integer_part_run i1 _ Hi1 (fraction_text_not_next f1 x1 Ha1)) as I1.
  rewrite S2, integer_part_run in I1 by (done || by apply fraction_text_not_next).
  injection I1 as -> I1.
  pose proof (fraction_part_run f1 x1 Hf1 Ha1 Hb1) as F1.
  rewrite <- I1, fraction_part_run in F1 by done. injection F1 as -> ->.
  pose proof (exponent_part_run e1 x1 [] Hx1 I I) as X1.
  rewrite (exponent_part_run e2 x1 [] Hx2 I I) in X1. by injection X1 as ->.
Qed.

Lemma number_value_unique text q1 q2 : number_value text q1 → number_value text q2 → (q1 == q2)%Q.
Proof.
  intros (n1 & i1 & f1 & e1 & S1 & ->) (n2 & i2 & f2 & e2 & S2 & ->).
  by destruct (number_shape_unique _ _ _ _ _ _ _ _ _ S1 S2) as (-> & -> & -> & ->).
Qed.

Lemma number_value_eq text q1 q2 : (q1 == q2)%Q → number_value text q1 → number_value text q2.
Proof.
  intros E (n & i & f & e & S & H). exists n, i, f, e. split; [done|]. by rewrite <- E.
Qed.

Lemma shape_value text n i f e : number_shape text n i f e → ∃ q, number_value text q.
Proof. intros H. eexists. exists n, i, f, e. split; [exact H|reflexivity]. Qed.

Lemma canonical_number_keeps text c q :
  canonical_number text = Done c → number_value text q → number_value c q.
Proof.
  intros Hc Hq. destruct (canonical_number_form text c q Hc Hq) as [[-> E]|(n & d & s & Hd & -> & E)].
  - eapply number_value_eq; [symmetry; exact E|apply zero_value].
  - eapply number_value_eq; [symmetry; exact E|by apply render_value].
Qed.

Lemma canonical_number_value text c : canonical_number text = Done c → ∃ q, number_value text q.
Proof.
  intros H. destruct (canonical_number_inv text c H) as (n & i & f & e & S & _). by eapply shape_value.
Qed.

Lemma canonical_number_fixed text c :
  canonical_number text = Done c → canonical_number c = Done c ∨ canonical_number c = Raise ExponentLimit.
Proof.
  intros Hc. destruct (canonical_number_value text c Hc) as [q Hq].
  destruct (canonical_number_form text c q Hc Hq) as [[-> _]|(n & d & s & Hd & -> & _)]; [by left|].
  destruct (render_shape n d s Hd) as (i & f & e & a & b & S & Hif & Hs).
  rewrite (canonical_number_run _ _ _ _ _ S). destruct (exponent_ok e); [left|by right].
  by rewrite (normalize_digits n i f _ a d b Hif Hd), Hs.
Qed.

Lemma new_number_spec text c : new_number text = Done c ↔ c = text ∧ canonical_number text = Done text.
Proof.
  unfold new_number. destruct (canonical_number text) as [c'| |]; cbn [mbind outcome_bind].
  - case_bool_decide; subst; split; [by intros [= <-]|by intros [-> _]|done|by intros [-> [=]]].
  - split; [done|by intros [_ ?]].
  - split; [done|by intros [_ ?]].
Qed.

(** canonicalization of a JSON number is exact.  It succeeds exactly on the
texts of the JSON number grammar whose exponent is at most a million in
magnitude, and the canonical text is a JSON number of the same rational value,
whatever the length of the digits: nothing is rounded. *)
Theorem canonical_number_exact (text : ustring) :
  (is_done (canonical_number text) = true ↔
   ∃ negative i f e, number_shape text negative i f e ∧ Z.abs (exponent_int e) <= MAX_EXPONENT) ∧
  ∀ c, canonical_number text = Done c → ∃ q, number_value text q ∧ number_value c q.
Proof.
  split; [split|].
  - destruct (canonical_number text) as [c| |] eqn:E; [|done..]. intros _.
    destruct (canonical_number_inv text c E) as (n & i & f & e & S & He & _).
    exists n, i, f, e. split; [done|]. by apply Z.leb_le.
  - intros (n & i & f & e & S & He). rewrite (canonical_number_run _ _ _ _ _ S).
    unfold exponent_ok. by rewrite (proj2 (Z.leb_le _ _) He).
  - intros c Hc. destruct (canonical_number_value text c Hc) as [q Hq].
    exists q. split; [done|]. by eapply canonical_number_keeps.
Qed.

(** the canonical text of a number is unique.  Two numbers have the same
canonical text exactly when their values are equal, so equal decimal values
encode identically; and canonicalizing a canonical text again changes nothing
(or is refused, when the canonical exponent has crossed the limit). *)
Theorem canonical_number_unique (text1 text2 c1 c2 : ustring) (q1 q2 : Q) :
  canonical_number text1 = Done c1 → canonical_number text2 = Done c2 →
  number_value text1 q1 → number_value text2 q2 →
  (c1 = c2 ↔ (q1 == q2)%Q) ∧
  (canonical_number c1 = Done c1 ∨ canonical_number c1 = Raise ExponentLimit).
Proof.
  intros H1 H2 V1 V2. split; [split|by eapply canonical_number_fixed].
  - intros <-. exact (number_value_unique c1 q1 q2 (canonical_number_keeps _ _ _ H1 V1) (canonical_number_keeps _ _ _ H2 V2)).
  - intros E. destruct (canonical_number_form _ _ _ H1 V1) as [[-> E1]|(n1 & d1 & s1 & D1 & -> & E1)],
      (canonical_number_form _ _ _ H2 V2) as [[-> E2]|(n2 & d2 & s2 & D2 & -> & E2)]; [done|exfalso..|].
    + rewrite E, E2 in E1. rewrite <- (scaled_zero s2) in E1. apply scaled_cancel, signed_zero in E1.
      pose proof (significant_pos d2 D2). lia.
    + rewrite <- E, E1 in E2. rewrite <- (scaled_zero s1) in E2. apply scaled_cancel, signed_zero in E2.
      pose proof (significant_pos d1 D1). lia.
    + rewrite E1, E2 in E.
      by destruct (significant_unique n1 n2 d1 d2 s1 s2 D1 D2 E) as (-> & -> & ->).
Qed.

Lemma canonical_number_unique_witness :
  canonical_number (u "1.50e1") = canonical_number (u "0.15e2") ∧
  (u "15" = u "15" ↔ (scaled 150 (-1) == scaled 15 0)%Q).
Proof.
  split; [done|].
  refine (proj1 (canonical_number_unique (u "1.50e1") (u "0.15e2") (u "15") (u "15")
    (scaled 150 (-1)) (scaled 15 0) _ _ _ _)); [by vm_compute..| |].
  - exists false, (u "1"), (u "50"), (Some (false, u "1")). split; [|done].
    exists (u "e1"). split; [done|]. split; [by repeat constructor|]. split; [by repeat constructor|].
    apply (some_exponent (ch "e") [] false (u "1")); [left|left|done|by vm_compute; repeat constructor].
  - exists false, (u "0"), (u "15"), (Some (false, u "2")). split; [|done].
    exists (u "e2"). split; [done|]. split; [by repeat constructor|]. split; [by repeat constructor|].
    apply (some_exponent (ch "e") [] false (u "2")); [left|left|done|by vm_compute; repeat constructor].
Defined.
