(* ===== verification/Json.v ===== *)
(** The bounded JSON codec: [src/koschei/data_json_v1.py].

[decode] is the parser and [encode] the writer, with their limits on bytes,
nodes and depth.  The parser's state is the text that is left and the number of
nodes so far; the offset of an error is the number of UTF-8 bytes in front of
that text.  A Python [dict] is the list of its items in insertion order. *)

From S2P Require Import Prelude JsonNumber.

(** * Data *)

Record Limits := mk_limits {
  max_input_bytes : Z;
  max_output_bytes : Z;
  max_nodes : Z;
  max_depth : Z;
}.

(** What [Limits.validate] accepts. *)
Definition validate (l : Limits) : bool :=
  (1 <=? max_input_bytes l) && (1 <=? max_output_bytes l) && (1 <=? max_nodes l) && (1 <=? max_depth l).

Definition DEFAULT_LIMITS : Limits := mk_limits 1048576 1048576 100000 64.

(** [JOther] is a value of any other Python type. *)
Inductive JsonValue :=
  | JNull
  | JBool (b : bool)
  | JString (s : ustring)
  | JNumber (text : ustring)
  | JArray (items : list JsonValue)
  | JObject (members : list (ustring * JsonValue))
  | JOther.

Inductive json_problem :=
  | InputBytes | DepthLimit | NodeLimit | DuplicateKey | OutputBytes
  | SurrogateInput | TrailingData | UnexpectedEnd | UnexpectedCharacter
  | ArrayUnterminated | ArraySeparator
  | KeyExpected | ColonExpected | ObjectUnterminated | ObjectSeparator
  | StringUnterminated | EscapeUnterminated | InvalidEscape | ControlCharacter | SurrogateCharacter
  | ShortEscape | InvalidHex | LoneLowSurrogate | MissingLowSurrogate | InvalidLowSurrogate
  | NumberProblem (e : number_error)
  | NotEncodable | SurrogateString.

Definition problem_code (p : json_problem) : Z :=
  match p with
  | InputBytes => 3601
  | DepthLimit => 3602
  | NodeLimit => 3603
  | DuplicateKey => 3604
  | OutputBytes => 3607
  | NotEncodable | SurrogateString => 3608
  | _ => 3605
  end.

(** [InvalidLimits] is the [ValueError] of [validate]. *)
Inductive json_error :=
  | DataError (problem : json_problem) (offset : Z)
  | InvalidLimits.

(** * UTF-8 *)

Definition is_surrogate (c : Z) : bool := in_range 55296 57343 c.

Definition char_bytes (c : Z) : Z :=
  if c <? 128 then 1 else if c <? 2048 then 2 else if c <? 65536 then 3 else 4.

(** [len(s.encode("utf-8"))]. *)
Fixpoint utf8_size (s : ustring) : Z :=
  match s with [] => 0 | c :: s => char_bytes c + utf8_size s end.

(** The part of the text before its first surrogate, where encoding stops. *)
Fixpoint surrogate_index (s : ustring) : option Z :=
  match s with
  | [] => None
  | c :: s => if is_surrogate c then Some 0 else Z.succ <$> surrogate_index s
  end.

(** * The parser *)

Definition _HEX (c : Z) : option Z :=
  if in_range 48 57 c then Some (c - 48)
  else if in_range 97 102 c then Some (c - 87)
  else if in_range 65 70 c then Some (c - 55)
  else None.

(** [int(text, 16)] of four characters that passed the test. *)
Definition hex_value (digits : list Z) : Z := foldl (λ acc d, 16 * acc + d) 0 digits.

Definition hex4 (s : ustring) : option Z := hex_value <$> mapM _HEX (take 4 s).

(** The simple escapes of a string. *)
Definition SIMPLE_ESCAPES : list (Z * Z) :=
  [(QUOTE, QUOTE); (BACKSLASH, BACKSLASH); (ch "/", ch "/"); (ch "b", 8); (ch "f", 12);
   (ch "n", 10); (ch "r", 13); (ch "t", 9)].

Definition is_json_space (c : Z) : bool := bool_decide (c ∈ [32; 9; 13; 10]).

(** [_skip_space]. *)
Definition _skip_space (s : ustring) : ustring := (span is_json_space s).2.

Section decoder.
Context (limits : Limits) (total : Z).

(** The parser after some of the text: what is left, and [self.nodes]. *)
Abbreviation state := (ustring * Z)%type.

(** [self.error] at the text [rest] of a text of [total] bytes. *)
Definition error {A} (p : json_problem) (rest : ustring) : outcome json_error A :=
  Raise (DataError p (total - utf8_size rest)).

Definition _node (depth : Z) (st : state) : outcome json_error state :=
  if max_depth limits <? depth then error DepthLimit st.1
  else if max_nodes limits <? st.2 + 1 then error NodeLimit st.1
  else Done (st.1, st.2 + 1).

Definition _unicode_escape (rest : ustring) : outcome json_error (Z * ustring) :=
  if (length rest <? 4)%nat then error ShortEscape rest
  else
    match hex4 rest with
    | None => error InvalidHex rest
    | Some first =>
        let after := drop 4 rest in
        if in_range 56320 57343 first then error LoneLowSurrogate rest
        else if negb (in_range 55296 56319 first) then Done (first, after)
        else if (length after <? 6)%nat || negb (bool_decide (take 2 after = [BACKSLASH; ch "u"])) then
          error MissingLowSurrogate rest
        else
          let after := drop 2 after in
          match hex4 after with
          | None => error InvalidLowSurrogate after
          | Some second =>
              if negb (in_range 56320 57343 second) then error MissingLowSurrogate after
              else Done (65536 + Z.shiftl (first - 55296) 10 + (second - 56320), drop 4 after)
          end
    end.

(** The loop of [_string]; [acc] is the text of the chunks so far.  The fuel
bounds the characters read. *)
Fixpoint string_loop (fuel : nat) (acc rest : ustring) : outcome json_error (ustring * ustring) :=
  match fuel, rest with
  | O, _ => NoFuel
  | S _, [] => error StringUnterminated []
  | S fuel, c :: after =>
      if c =? QUOTE then Done (acc, after)
      else if c =? BACKSLASH then
        match after with
        | [] => error EscapeUnterminated []
        | escape :: after =>
            match assoc escape SIMPLE_ESCAPES with
            | Some simple => string_loop fuel (acc ++ [simple]) after
            | None =>
                if escape =? ch "u" then
                  '(point, after) ← _unicode_escape after;
                  string_loop fuel (acc ++ [point]) after
                else error InvalidEscape rest
            end
        end
      else if c <? 32 then error ControlCharacter rest
      else if is_surrogate c then error SurrogateCharacter rest
      else string_loop fuel (acc ++ [c]) after
  end.

(** [_string], at the character behind the opening quote. *)
Definition _string (rest : ustring) : outcome json_error (ustring * ustring) :=
  string_loop (S (length rest)) [] rest.

(** A failing scanner of a number's part, at its offset. *)
Definition positioned {A} (o : scanned A) : outcome json_error (A * ustring) :=
  match o with
  | Done a => Done a
  | Raise (e, rest) => error (NumberProblem e) rest
  | NoFuel => NoFuel
  end.

(** A [ValueError] of the number's class, at the start of the number. *)
Definition number_at {A} (start : ustring) (o : outcome number_error A) : outcome json_error A :=
  match o with
  | Done a => Done a
  | Raise e => error (NumberProblem e) start
  | NoFuel => NoFuel
  end.

Definition _number (start : ustring) : outcome json_error (ustring * ustring) :=
  let '(_, rest) := sign_part start in
  '(_, rest) ← positioned (integer_part rest);
  '(_, rest) ← positioned (fraction_part rest);
  '(_, rest) ← positioned (exponent_part rest);
  let raw := take (length start - length rest) start in
  canonical ← number_at start (canonical_number raw);
  text ← number_at start (new_number canonical);
  Done (text, rest).

(** [_value], [_array] and [_object] with their loops. *)
Fixpoint _value (fuel : nat) (depth : Z) (st : state) : outcome json_error (JsonValue * state) :=
  match fuel with
  | O => NoFuel
  | S fuel =>
      '(rest, nodes) ← _node depth st;
      match rest with
      | [] => error UnexpectedEnd rest
      | c :: after =>
          if c =? QUOTE then
            '(s, rest) ← _string after; Done (JString s, (rest, nodes))
          else if c =? ch "{" then
            match _skip_space after with
            | c' :: after' =>
                if c' =? ch "}" then Done (JObject [], (after', nodes))
                else '(ms, st) ← object_loop fuel depth [] (c' :: after', nodes); Done (JObject ms, st)
            | [] => '(ms, st) ← object_loop fuel depth [] ([], nodes); Done (JObject ms, st)
            end
          else if c =? ch "[" then
            match _skip_space after with
            | c' :: after' =>
                if c' =? ch "]" then Done (JArray [], (after', nodes))
                else '(items, st) ← array_loop fuel depth [] (c' :: after', nodes); Done (JArray items, st)
            | [] => '(items, st) ← array_loop fuel depth [] ([], nodes); Done (JArray items, st)
            end
          else if (c =? ch "t") && starts_with (u "true") rest then Done (JBool true, (drop 4 rest, nodes))
          else if (c =? ch "f") && starts_with (u "false") rest then Done (JBool false, (drop 5 rest, nodes))
          else if (c =? ch "n") && starts_with (u "null") rest then Done (JNull, (drop 4 rest, nodes))
          else if (c =? ch "-") || is_ascii_digit c then
            '(text, rest) ← _number rest; Done (JNumber text, (rest, nodes))
          else error UnexpectedCharacter rest
      end
  end
with array_loop (fuel : nat) (depth : Z) (items : list JsonValue) (st : state)
    : outcome json_error (list JsonValue * state) :=
  match fuel with
  | O => NoFuel
  | S fuel =>
      '(item, (rest, nodes)) ← _value fuel (depth + 1) st;
      match _skip_space rest with
      | [] => error ArrayUnterminated []
      | c :: after =>
          if c =? ch "]" then Done (items ++ [item], (after, nodes))
          else if c =? ch "," then array_loop fuel depth (items ++ [item]) (_skip_space after, nodes)
          else error ArraySeparator (c :: after)
      end
  end
with object_loop (fuel : nat) (depth : Z) (result : list (ustring * JsonValue)) (st : state)
    : outcome json_error (list (ustring * JsonValue) * state) :=
  match fuel with
  | O => NoFuel
  | S fuel =>
      match st.1 with
      | c :: after =>
          if c =? QUOTE then
            '(key, rest) ← _string after;
            if bool_decide (key ∈ result.*1) then error DuplicateKey st.1
            else
              match _skip_space rest with
              | c :: after =>
                  if c =? ch ":" then
                    '(item, (rest, nodes)) ← _value fuel (depth + 1) (_skip_space after, st.2);
                    let result := result ++ [(key, item)] in
                    match _skip_space rest with
                    | [] => error ObjectUnterminated []
                    | c :: after =>
                        if c =? ch "}" then Done (result, (after, nodes))
                        else if c =? ch "," then object_loop fuel depth result (_skip_space after, nodes)
                        else error ObjectSeparator (c :: after)
                    end
                  else error ColonExpected (c :: after)
              | [] => error ColonExpected []
              end
          else error KeyExpected st.1
      | [] => error KeyExpected st.1
      end
  end.

(** [_Parser.parse]. *)
Definition parse (fuel : nat) (text : ustring) : outcome json_error JsonValue :=
  '(v, (rest, _)) ← _value fuel 1 (_skip_space text, 0);
  match _skip_space rest with
  | [] => Done v
  | rest => error TrailingData rest
  end.

End decoder.

Definition decode (text : ustring) (limits : Limits) : outcome json_error JsonValue :=
  if negb (validate limits) then Raise InvalidLimits
  else
    match surrogate_index text with
    | Some i => Raise (DataError SurrogateInput i)
    | None =>
        if max_input_bytes limits <? utf8_size text then Raise (DataError InputBytes 0)
        else parse limits (utf8_size text) (2 * length text + 2) text
    end.

(** * The writer *)

(** [value[key]] for each key of [sorted(value)]. *)
Definition sorted_items {A} (members : list (ustring * A)) : list (ustring * A) :=
  omap (λ k, pair k <$> assoc k members) (sorted_text members.*1).

Record writer := mk_writer {
  parts : list ustring;
  size : Z;
  written_nodes : Z;
}.

Section encoder.
Context (limits : Limits).

Abbreviation written := (outcome json_error writer).

Definition add (text : ustring) (w : writer) : written :=
  let added := utf8_size text in
  if max_output_bytes limits <? size w + added then Raise (DataError OutputBytes (size w))
  else Done (mk_writer (parts w ++ [text]) (size w + added) (written_nodes w)).

Definition hex_digit (d : Z) : Z := if d <? 10 then 48 + d else 87 + d.

(** The replacement of a character, if it needs one. *)
Definition replacement (c : Z) : option ustring :=
  if c =? QUOTE then Some [BACKSLASH; QUOTE]
  else if c =? BACKSLASH then Some [BACKSLASH; BACKSLASH]
  else if c =? 8 then Some [BACKSLASH; ch "b"]
  else if c =? 12 then Some [BACKSLASH; ch "f"]
  else if c =? 10 then Some [BACKSLASH; ch "n"]
  else if c =? 13 then Some [BACKSLASH; ch "r"]
  else if c =? 9 then Some [BACKSLASH; ch "t"]
  else if c <? 32 then
    Some [BACKSLASH; ch "u"; ch "0"; ch "0"; hex_digit (c / 16); hex_digit (c mod 16)]
  else None.

(** The loop of [string]; [chunk] is [value[start:index]]. *)
Fixpoint write_chars (chunk value : ustring) (w : writer) : written :=
  match value with
  | [] => if bool_decide (chunk = []) then Done w else add chunk w
  | c :: value =>
      match replacement c with
      | None => write_chars (chunk ++ [c]) value w
      | Some r =>
          w ← (if bool_decide (chunk = []) then Done w else add chunk w);
          w ← add r w;
          write_chars [] value w
      end
  end.

Definition write_string (value : ustring) (w : writer) : written :=
  if surrogate_index value is Some _ then Raise (DataError SurrogateString (size w))
  else
    w ← add [QUOTE] w;
    w ← write_chars [] value w;
    add [QUOTE] w.

(** The items of an array or an object with a comma before each but the first. *)
Fixpoint write_items (first : bool) (items : list (writer → written)) (w : writer) : written :=
  match items with
  | [] => Done w
  | item :: items =>
      w ← (if first then Done w else add (u ",") w);
      w ← item w;
      write_items false items w
  end.

Definition enter (depth : Z) (w : writer) : written :=
  if max_depth limits <? depth then Raise (DataError DepthLimit (size w))
  else if max_nodes limits <? written_nodes w + 1 then Raise (DataError NodeLimit (size w))
  else Done (mk_writer (parts w) (size w) (written_nodes w + 1)).

Fixpoint write_value (value : JsonValue) (depth : Z) (w : writer) : written :=
  w ← enter depth w;
  match value with
  | JNull => add (u "null") w
  | JBool b => add (if b then u "true" else u "false") w
  | JString s => write_string s w
  | JNumber text => add text w
  | JArray items =>
      w ← add (u "[") w;
      w ← write_items true ((λ item, write_value item (depth + 1)) <$> items) w;
      add (u "]") w
  | JObject members =>
      let writes := (λ m : ustring * JsonValue, (m.1, write_value m.2 (depth + 1))) <$> members in
      w ← add (u "{") w;
      w ← write_items true
        ((λ kw : ustring * (writer → written), λ w,
            w ← write_string kw.1 w; w ← add (u ":") w; kw.2 w) <$> sorted_items writes) w;
      add (u "}") w
  | JOther => Raise (DataError NotEncodable (size w))
  end.

End encoder.

Definition encode (value : JsonValue) (limits : Limits) : outcome json_error ustring :=
  if negb (validate limits) then Raise InvalidLimits
  else w ← write_value limits value 1 (mk_writer [] 0 0); Done (concat (parts w)).

(** * What the writer writes *)

Definition escaped (c : Z) : ustring := match replacement c with Some r => r | None => [c] end.

Definition string_text (s : ustring) : ustring := QUOTE :: concat (escaped <$> s) ++ [QUOTE].

(** The canonical text of a value: no space, keys in order. *)
Fixpoint text_of (v : JsonValue) : ustring :=
  match v with
  | JNull => u "null"
  | JBool b => if b then u "true" else u "false"
  | JString s => string_text s
  | JNumber text => text
  | JArray items => u "[" ++ join (u ",") (text_of <$> items) ++ u "]"
  | JObject members =>
      u "{" ++
      join (u ",") ((λ kt : ustring * ustring, string_text kt.1 ++ u ":" ++ kt.2) <$>
        sorted_items ((λ m : ustring * JsonValue, (m.1, text_of m.2)) <$> members)) ++
      u "}"
  | JOther => []
  end.

Fixpoint node_count (v : JsonValue) : nat :=
  match v with
  | JArray items => S (sum_list_with node_count items)
  | JObject members => S (sum_list_with (λ m : ustring * JsonValue, node_count m.2) members)
  | _ => 1
  end.

Fixpoint height (v : JsonValue) : nat :=
  match v with
  | JArray items => S (max_list_with height items)
  | JObject members => S (max_list_with (λ m : ustring * JsonValue, height m.2) members)
  | _ => 1
  end.

Definition no_surrogate (s : ustring) : bool := forallb (λ c, negb (is_surrogate c)) s.

(** The values of the data/v1 types with text that UTF-8 can hold. *)
Fixpoint encodable (v : JsonValue) : bool :=
  match v with
  | JString s => no_surrogate s
  | JArray items => forallb encodable items
  | JObject members => forallb (λ m : ustring * JsonValue, no_surrogate m.1 && encodable m.2) members
  | JOther => false
  | _ => true
  end.

(** Every [JObject] is the item list of a [dict]. *)
Fixpoint distinct_keys (v : JsonValue) : bool :=
  match v with
  | JArray items => forallb distinct_keys items
  | JObject members =>
      bool_decide (NoDup members.*1) && forallb (λ m : ustring * JsonValue, distinct_keys m.2) members
  | _ => true
  end.

(** Induction over a value, through its lists. *)
Lemma JsonValue_nested_ind (P : JsonValue → Prop) :
  P JNull → (∀ b, P (JBool b)) → (∀ s, P (JString s)) → (∀ t, P (JNumber t)) →
  (∀ items, Forall P items → P (JArray items)) →
  (∀ members : list (ustring * JsonValue), Forall (λ m, P m.2) members → P (JObject members)) →
  P JOther → ∀ v, P v.
Proof.
  intros Hn Hb Hs Ht Ha Ho Hx. refine (fix go v := _).
  destruct v as [|b|s|t|items|members|]; [exact Hn|exact (Hb b)|exact (Hs s)|exact (Ht t)|
    apply Ha|apply Ho|exact Hx].
  - induction items as [|v items IH]; constructor; [exact (go v)|exact IH].
  - induction members as [|[k v] members IH]; constructor; [exact (go v)|exact IH].
Qed.

Lemma forallb_spec {A} (p : A → bool) l : forallb p l = true ↔ Forall (λ x, p x = true) l.
Proof. rewrite forallb_forall, List.Forall_forall. done. Qed.

Lemma assoc_fmap {A B} (g : A → B) (k : ustring) (l : list (ustring * A)) :
  assoc k ((λ m, (m.1, g m.2)) <$> l) = g <$> assoc k l.
Proof.
  unfold assoc. induction l as [|[k' a] l IH]; [done|]. cbn [fmap list_fmap List.find fst].
  by case_bool_decide.
Qed.

Lemma sorted_items_fmap {A B} (g : A → B) (l : list (ustring * A)) :
  sorted_items ((λ m, (m.1, g m.2)) <$> l) = (λ m, (m.1, g m.2)) <$> sorted_items l.
Proof.
  unfold sorted_items. rewrite <- list_fmap_compose.
  replace ((fst ∘ λ m : ustring * A, (m.1, g m.2)) <$> l) with (l.*1) by done.
  generalize (sorted_text l.*1). intros keys. induction keys as [|k keys IH]; [done|].
  cbn [omap list_omap]. rewrite assoc_fmap. destruct (assoc k l); cbn [fmap option_fmap option_map]; [|done].
  cbn [fmap list_fmap fst snd]. f_equal. apply IH.
Qed.

(** The sorted items are the items, in the order of their keys. *)
Lemma sorted_items_keys {A} (l : list (ustring * A)) : (sorted_items l).*1 = sorted_text l.*1.
Proof.
  unfold sorted_items.
  assert (∀ keys : list ustring, (∀ k, k ∈ keys → k ∈ l.*1) →
    (omap (λ k, pair k <$> assoc k l) keys).*1 = keys) as H.
  { induction keys as [|k keys IH]; intros Hk; [done|]. cbn [omap list_omap].
    destruct (assoc k l) as [a|] eqn:E; cbn [fmap option_fmap option_map].
    - cbn [fmap list_fmap fst]. f_equal. apply IH. intros k' Hk'. apply Hk. by right.
    - exfalso. assert (k ∈ l.*1) as Hin by (apply Hk; left). clear Hk IH. unfold assoc in E.
      destruct (List.find _ l) eqn:F; [done|]. clear E.
      apply list_elem_of_fmap in Hin as ([k' a] & -> & Hin).
      apply list_elem_of_In in Hin. pose proof (find_none _ _ F _ Hin) as Hne.
      by apply bool_decide_eq_false in Hne. }
  apply H. intros k. by rewrite sorted_text_perm.
Qed.

Lemma sorted_items_perm {A} (l : list (ustring * A)) : NoDup l.*1 → sorted_items l ≡ₚ l.
Proof.
  intros Hnd. apply NoDup_Permutation.
  - apply (NoDup_fmap_1 fst). rewrite sorted_items_keys, sorted_text_perm. done.
  - by apply (NoDup_fmap_1 fst).
  - intros [k a]. unfold sorted_items. rewrite list_elem_of_omap. split.
    + intros (k' & _ & E). destruct (assoc k' l) eqn:F; [|done]. injection E as -> ->. by apply assoc_Some.
    + intros Hin. exists k. split; [|by rewrite (assoc_elem l k a)].
      rewrite sorted_text_perm. by apply (list_elem_of_fmap_2 fst) in Hin.
Qed.

Lemma assoc_perm {A} (l1 l2 : list (ustring * A)) k :
  NoDup l1.*1 → l1 ≡ₚ l2 → assoc k l1 = assoc k l2.
Proof.
  intros Hnd Hp. destruct (assoc k l1) as [a|] eqn:E.
  - apply assoc_Some in E. symmetry. apply assoc_elem; [by rewrite <- Hp|by rewrite <- Hp].
  - destruct (assoc k l2) as [a|] eqn:E2; [|done]. apply assoc_Some in E2.
    rewrite <- Hp in E2. by rewrite (assoc_elem l1 k a) in E.
Qed.

(** The order of the items does not matter. *)
Lemma sorted_items_order {A} (l1 l2 : list (ustring * A)) :
  NoDup l1.*1 → l1 ≡ₚ l2 → sorted_items l1 = sorted_items l2.
Proof.
  intros Hnd Hp. unfold sorted_items. rewrite (sorted_text_proper l1.*1 l2.*1) by (by rewrite Hp).
  generalize (sorted_text l2.*1). intros keys. induction keys as [|k keys IH]; [done|].
  cbn [omap list_omap]. by rewrite (assoc_perm l1 l2 k), IH.
Qed.

Lemma char_bytes_pos c : 1 <= char_bytes c <= 4.
Proof. unfold char_bytes. case_Z; lia. Qed.

Lemma utf8_size_app s1 s2 : utf8_size (s1 ++ s2) = utf8_size s1 + utf8_size s2.
Proof. induction s1 as [|c s1 IH]; cbn [app utf8_size]; lia. Qed.

Lemma utf8_size_nonneg s : Z.of_nat (length s) <= utf8_size s.
Proof. induction s as [|c s IH]; cbn [length utf8_size]; [lia|]. pose proof (char_bytes_pos c). lia. Qed.

Lemma surrogate_index_none s : surrogate_index s = None ↔ no_surrogate s = true.
Proof.
  induction s as [|c s IH]; [done|]. cbn [surrogate_index no_surrogate forallb].
  destruct (is_surrogate c); [done|]. cbn [negb andb]. fold (no_surrogate s). rewrite <- IH.
  by destruct (surrogate_index s).
Qed.

(** * The writer meets its specification *)

Section writer_spec.
Context (limits : Limits).
Implicit Types (f g : writer → outcome json_error writer) (w : writer).

Definition fits w : Prop := size w <= max_output_bytes limits ∧ written_nodes w <= max_nodes limits.

(** [f] writes [text] and counts [n] nodes, and it succeeds exactly when [ok]
holds and the limits allow it. *)
Definition emits (ok : Prop) (text : ustring) (n : nat) f : Prop := ∀ w, fits w →
  match f w with
  | Done w' =>
      ok ∧ fits w' ∧ concat (parts w') = concat (parts w) ++ text ∧
      size w' = size w + utf8_size text ∧ written_nodes w' = written_nodes w + Z.of_nat n
  | Raise _ =>
      ¬ (ok ∧ size w + utf8_size text <= max_output_bytes limits ∧
         written_nodes w + Z.of_nat n <= max_nodes limits)
  | NoFuel => False
  end.

Lemma emits_ret : emits True [] 0 (λ w, Done w).
Proof. intros w H. rewrite app_nil_r. cbn [utf8_size]. repeat split; try apply H; lia. Qed.

Lemma emits_bind ok1 ok2 text1 text2 n1 n2 f g :
  emits ok1 text1 n1 f → emits ok2 text2 n2 g →
  emits (ok1 ∧ ok2) (text1 ++ text2) (n1 + n2) (λ w, w ← f w; g w).
Proof.
  intros Hf Hg w Hw. specialize (Hf w Hw). rewrite utf8_size_app, Nat2Z.inj_add.
  pose proof (utf8_size_nonneg text1). pose proof (utf8_size_nonneg text2).
  destruct (f w) as [w1|e|]; cbn [mbind outcome_bind]; [|intros (? & ? & ?); apply Hf; intuition lia|done].
  destruct Hf as (H1 & Hw1 & P1 & S1 & N1). specialize (Hg w1 Hw1).
  destruct (g w1) as [w2|e|]; [|intros (? & ? & ?); apply Hg; intuition lia|done].
  destruct Hg as (H2 & Hw2 & P2 & S2 & N2). rewrite P2, P1, app_assoc. intuition lia.
Qed.

Lemma emits_iff ok1 ok2 text n f : (ok1 ↔ ok2) → emits ok1 text n f → emits ok2 text n f.
Proof.
  intros E H w Hw. specialize (H w Hw). destruct (f w); [|by rewrite <- E|done].
  by rewrite <- E.
Qed.

Lemma emits_text ok text1 text2 n1 n2 f :
  text1 = text2 → n1 = n2 → emits ok text1 n1 f → emits ok text2 n2 f.
Proof. by intros -> ->. Qed.

Lemma emits_ext ok text n f g : (∀ w, f w = g w) → emits ok text n f → emits ok text n g.
Proof. intros E H w Hw. rewrite <- E. by apply H. Qed.

Lemma emits_add text : emits True text 0 (add limits text).
Proof.
  intros w Hw. unfold add. destruct (Z.ltb_spec (max_output_bytes limits) (size w + utf8_size text)); [lia|].
  unfold fits in *. cbn [parts size written_nodes]. rewrite concat_app. cbn [concat].
  rewrite app_nil_r. intuition lia.
Qed.

Lemma emits_enter depth : emits (depth <= max_depth limits) [] 1 (enter limits depth).
Proof.
  intros w Hw. unfold enter. destruct (Z.ltb_spec (max_depth limits) depth); [lia|].
  destruct (Z.ltb_spec (max_nodes limits) (written_nodes w + 1)); [cbn [utf8_size]; lia|].
  unfold fits in *. cbn [parts size written_nodes utf8_size]. rewrite app_nil_r. intuition lia.
Qed.

Lemma emits_chunk chunk :
  emits True chunk 0 (λ w, if bool_decide (chunk = []) then Done w else add limits chunk w).
Proof. case_bool_decide as E; [rewrite E; apply emits_ret|apply emits_add]. Qed.

Lemma emits_chars value : ∀ chunk,
  emits True (chunk ++ concat (escaped <$> value)) 0 (write_chars limits chunk value).
Proof.
  induction value as [|c value IH]; intros chunk.
  - cbn [fmap list_fmap concat]. rewrite app_nil_r. apply emits_chunk.
  - cbn [fmap list_fmap concat]. unfold escaped at 1. destruct (replacement c) as [r|] eqn:E.
    + eapply emits_ext; [intros w; cbn [write_chars]; rewrite E; reflexivity|].
      eapply emits_iff; [|apply (emits_bind True (True ∧ True) chunk _ 0 0); [apply emits_chunk|]].
      2: { apply (emits_bind True True r _ 0 0); [apply emits_add|apply (IH [])]. }
      tauto.
    + eapply emits_ext; [intros w; cbn [write_chars]; rewrite E; reflexivity|].
      rewrite app_assoc. apply IH.
Qed.

Lemma emits_string s : emits (no_surrogate s = true) (string_text s) 0 (write_string limits s).
Proof.
  unfold write_string. destruct (surrogate_index s) as [i|] eqn:E.
  - intros w _ [Hs _]. apply surrogate_index_none in Hs. by rewrite E in Hs.
  - apply surrogate_index_none in E.
    eapply emits_iff; [|apply (emits_bind True (True ∧ True) [QUOTE] _ 0 0); [apply emits_add|]].
    2: { apply (emits_bind True True _ [QUOTE] 0 0); [apply (emits_chars s [])|apply emits_add]. }
    tauto.
Qed.

(** An item of a list: what it writes, with the conditions and nodes. *)
Record item := mk_item {
  item_write : writer → outcome json_error writer;
  item_ok : Prop;
  item_text : ustring;
  item_nodes : nat;
}.

Definition emits_item (i : item) : Prop := emits (item_ok i) (item_text i) (item_nodes i) (item_write i).

Lemma join_cons (sep p : ustring) (ps : list ustring) :
  join sep (p :: ps) = p ++ concat ((λ p, sep ++ p) <$> ps).
Proof.
  revert p. induction ps as [|p' ps IH]; intros p; [by cbn; rewrite app_nil_r|].
  change (join sep (p :: p' :: ps)) with (p ++ sep ++ join sep (p' :: ps)).
  rewrite IH. cbn [fmap list_fmap concat]. by rewrite <- app_assoc.
Qed.

Lemma emits_items_rest (items : list item) :
  Forall emits_item items →
  emits (Forall item_ok items) (concat ((λ i, u "," ++ item_text i) <$> items))
    (sum_list_with item_nodes items) (write_items limits false (item_write <$> items)).
Proof.
  induction 1 as [|i items Hi _ IH]; cbn [fmap list_fmap concat sum_list_with].
  - eapply emits_iff; [|apply emits_ret]. by rewrite Forall_nil.
  - eapply emits_iff; [symmetry; apply Forall_cons|]. rewrite <- !app_assoc.
    eapply emits_iff; [|apply (emits_bind True (item_ok i ∧ Forall item_ok items) (u ",") _ 0); [apply emits_add|]].
    2: { apply emits_bind; [exact Hi|exact IH]. }
    tauto.
Qed.

Lemma emits_items (items : list item) :
  Forall emits_item items →
  emits (Forall item_ok items) (join (u ",") (item_text <$> items))
    (sum_list_with item_nodes items) (write_items limits true (item_write <$> items)).
Proof.
  intros H. destruct items as [|i items].
  - eapply emits_iff; [|apply emits_ret]. by rewrite Forall_nil.
  - inversion H as [|? ? Hi Hs]; subst. cbn [fmap list_fmap]. rewrite join_cons.
    rewrite <- list_fmap_compose. eapply emits_iff; [symmetry; apply Forall_cons|].
    cbn [sum_list_with].
    apply (emits_ext _ _ _ (λ w, w ← item_write i w; write_items limits false (item_write <$> items) w));
      [reflexivity|].
    apply emits_bind; [exact Hi|by apply emits_items_rest].
Qed.

End writer_spec.

Section write_value_spec.
Context (limits : Limits).

Definition value_ok (depth : Z) (v : JsonValue) : Prop :=
  encodable v = true ∧ depth + Z.of_nat (height v) <= max_depth limits + 1.

Definition member_ok (depth : Z) (m : ustring * JsonValue) : Prop :=
  no_surrogate m.1 = true ∧ True ∧ value_ok depth m.2.

Definition value_item (depth : Z) (v : JsonValue) : item :=
  mk_item (λ w, write_value limits v depth w) (value_ok depth v) (text_of v) (node_count v).

Definition member_item (depth : Z) (m : ustring * JsonValue) : item :=
  mk_item (λ w, w ← write_string limits m.1 w; w ← add limits (u ":") w; write_value limits m.2 depth w)
    (member_ok depth m) (string_text m.1 ++ u ":" ++ text_of m.2) (node_count m.2).

Lemma emits_member depth m :
  emits limits (value_ok depth m.2) (text_of m.2) (node_count m.2) (λ w, write_value limits m.2 depth w) →
  emits_item limits (member_item depth m).
Proof.
  intros H. unfold emits_item. cbn [member_item item_write item_ok item_text item_nodes].
  apply (emits_bind limits _ _ _ _ 0); [apply emits_string|].
  apply (emits_bind limits _ _ _ _ 0); [apply emits_add|exact H].
Qed.

Lemma max_list_le {A} (f : A → nat) l n :
  (max_list_with f l <= n)%nat ↔ Forall (λ x, (f x <= n)%nat) l.
Proof.
  induction l as [|x l IH]; [split; [constructor|cbn; lia]|].
  rewrite Forall_cons, <- IH. cbn [max_list_with foldr]. lia.
Qed.

Lemma emits_leaf ok text depth v f :
  node_count v = 1%nat → height v = 1%nat → text_of v = text → (ok ↔ encodable v = true) →
  emits limits ok text 0 f →
  (∀ w, write_value limits v depth w = w ← enter limits depth w; f w) →
  emits limits (value_ok depth v) (text_of v) (node_count v) (λ w, write_value limits v depth w).
Proof.
  intros Hn Hh <- Hok Hf Hw. eapply emits_ext; [intros w; symmetry; apply Hw|]. rewrite Hn.
  eapply emits_iff; [|apply (emits_bind limits (depth <= max_depth limits) ok [] _ 1 0)];
    [|apply emits_enter|exact Hf].
  unfold value_ok. rewrite Hh, <- Hok. intuition lia.
Qed.

(** The frame of an array or an object around its items. *)
Lemma emits_frame depth v (opening closing : ustring) (items : list item) :
  Forall (emits_item limits) items →
  text_of v = opening ++ join (u ",") (item_text <$> items) ++ closing →
  node_count v = S (sum_list_with item_nodes items) →
  (value_ok depth v ↔ depth <= max_depth limits ∧ Forall item_ok items) →
  (∀ w, write_value limits v depth w =
     w ← enter limits depth w; w ← add limits opening w;
     w ← write_items limits true (item_write <$> items) w; add limits closing w) →
  emits limits (value_ok depth v) (text_of v) (node_count v) (λ w, write_value limits v depth w).
Proof.
  intros Hitems -> -> Hok Hw. eapply emits_ext; [intros w; symmetry; apply Hw|].
  eapply (emits_iff limits (depth <= max_depth limits ∧ True ∧ Forall item_ok items ∧ True));
    [rewrite Hok; tauto|].
  eapply (emits_text limits _ ([] ++ opening ++ join (u ",") (item_text <$> items) ++ closing) _
    (1 + (0 + (sum_list_with item_nodes items + 0)))); [done|lia|].
  apply emits_bind; [apply emits_enter|]. apply emits_bind; [apply emits_add|].
  apply emits_bind; [by apply emits_items|apply emits_add].
Qed.

Lemma sum_list_with_fmap {A B} (f : B → nat) (g : A → B) l :
  sum_list_with f (g <$> l) = sum_list_with (λ x, f (g x)) l.
Proof. induction l as [|x l IH]; [done|]. cbn [fmap list_fmap sum_list_with]. by rewrite IH. Qed.

Lemma items_ok depth (heights : list nat) :
  depth + Z.of_nat (S (max_list_with id heights)) <= max_depth limits + 1 ↔
  depth <= max_depth limits ∧ Forall (λ h, depth + 1 + Z.of_nat h <= max_depth limits + 1) heights.
Proof.
  split.
  - intros H. split; [lia|].
    assert (max_list_with id heights <= Z.to_nat (max_depth limits - depth))%nat as Hm by lia.
    rewrite max_list_le in Hm. eapply Forall_impl; [exact Hm|]. unfold id. intros h Hh. lia.
  - intros [Hd H]. assert (max_list_with id heights <= Z.to_nat (max_depth limits - depth))%nat; [|lia].
    rewrite max_list_le. eapply Forall_impl; [exact H|]. unfold id. intros h Hh. lia.
Qed.

Lemma max_list_with_fmap {A} (f : A → nat) l : max_list_with f l = max_list_with id (f <$> l).
Proof. induction l as [|x l IH]; [done|]. cbn [fmap list_fmap max_list_with foldr]. by rewrite IH. Qed.

Lemma array_ok depth items :
  value_ok depth (JArray items) ↔ depth <= max_depth limits ∧ Forall (value_ok (depth + 1)) items.
Proof.
  unfold value_ok. cbn [encodable height]. rewrite max_list_with_fmap, items_ok, forallb_spec.
  rewrite Forall_fmap, Forall_and. unfold compose. tauto.
Qed.

Lemma object_ok depth members :
  value_ok depth (JObject members) ↔ depth <= max_depth limits ∧ Forall (member_ok (depth + 1)) members.
Proof.
  unfold value_ok, member_ok, value_ok. cbn [encodable height].
  rewrite max_list_with_fmap, items_ok, forallb_spec, Forall_fmap. unfold compose. cbn [height].
  split.
  - intros (H1 & Hd & H2). split; [done|]. apply Forall_and. split; [|apply Forall_and; split; [by apply Forall_true|]].
    + eapply Forall_impl; [exact H1|]. cbn. intros [k v] H. by bool_to_prop.
    + apply Forall_and. split; [|done]. eapply Forall_impl; [exact H1|]. cbn. intros [k v] H. by bool_to_prop.
  - intros (Hd & H). split; [|split; [done|]]; eapply Forall_impl; try exact H; cbn; intros [k v] (? & _ & ? & ?).
    + by bool_to_prop.
    + done.
Qed.

Lemma emits_value v : ∀ depth, distinct_keys v = true →
  emits limits (value_ok depth v) (text_of v) (node_count v) (λ w, write_value limits v depth w).
Proof.
  induction v as [|b|s|t|items IH|members IH|] using JsonValue_nested_ind; intros depth Hdk.
  - apply (emits_leaf True (u "null") _ _ (add limits (u "null"))); try done. apply emits_add.
  - apply (emits_leaf True (if b then u "true" else u "false") _ _ (add limits (if b then u "true" else u "false")));
      try done. apply emits_add.
  - apply (emits_leaf (no_surrogate s = true) (string_text s) _ _ (write_string limits s)); try done.
    apply emits_string.
  - apply (emits_leaf True t _ _ (add limits t)); try done. apply emits_add.
  - cbn [distinct_keys] in Hdk. rewrite forallb_spec in Hdk.
    apply (emits_frame _ _ (u "[") (u "]") (value_item (depth + 1) <$> items)).
    + apply Forall_fmap. eapply Forall_impl; [apply Forall_and; exact (conj IH Hdk)|].
      intros v [Hv ?]. by apply Hv.
    + cbn [text_of]. by rewrite <- list_fmap_compose.
    + cbn [node_count]. by rewrite sum_list_with_fmap.
    + rewrite array_ok, Forall_fmap. done.
    + intros w. cbn [write_value]. by rewrite <- list_fmap_compose.
  - cbn [distinct_keys] in Hdk. bool_to_prop. apply bool_decide_eq_true in H. rewrite forallb_spec in H0.
    pose proof (sorted_items_perm members H) as Hp.
    apply (emits_frame _ _ (u "{") (u "}") (member_item (depth + 1) <$> sorted_items members)).
    + apply Forall_fmap. rewrite Hp. eapply Forall_impl; [apply Forall_and; exact (conj IH H0)|].
      intros m [Hm ?]. apply emits_member. by apply Hm.
    + cbn [text_of]. rewrite (sorted_items_fmap text_of). by rewrite <- !list_fmap_compose.
    + cbn [node_count]. rewrite sum_list_with_fmap. f_equal. by rewrite Hp.
    + rewrite object_ok, Forall_fmap. unfold compose. cbn [item_ok member_item]. by rewrite Hp.
    + intros w. cbn [write_value].
      rewrite (sorted_items_fmap (λ v, write_value limits v (depth + 1))). by rewrite <- !list_fmap_compose.
  - intros w Hw. cbn [write_value]. destruct (enter limits depth w) as [w1|e|] eqn:E; cbn [mbind outcome_bind].
    + by intros ([? _] & _).
    + by intros ([? _] & _).
    + pose proof (emits_enter limits depth w Hw) as He. by rewrite E in He.
Qed.

End write_value_spec.

(** * Round trip *)

(** The value with the members of every object in the order of their keys. *)
Fixpoint sort_keys (v : JsonValue) : JsonValue :=
  match v with
  | JArray items => JArray (sort_keys <$> items)
  | JObject members =>
      JObject (sorted_items ((λ m : ustring * JsonValue, (m.1, sort_keys m.2)) <$> members))
  | _ => v
  end.

Definition is_char (c : Z) : bool := in_range 0 1114111 c && negb (is_surrogate c).

Definition is_text (s : ustring) : bool := forallb is_char s.

(** What [decode] may return: Unicode text, canonical numbers, distinct keys. *)
Fixpoint well_formed (v : JsonValue) : bool :=
  match v with
  | JString s => is_text s
  | JNumber text => bool_decide (canonical_number text = Done text)
  | JArray items => forallb well_formed items
  | JObject members =>
      bool_decide (NoDup members.*1) &&
      forallb (λ m : ustring * JsonValue, is_text m.1 && well_formed m.2) members
  | JOther => false
  | _ => true
  end.

Lemma is_text_no_surrogate s : is_text s = true → no_surrogate s = true.
Proof.
  unfold is_text, no_surrogate. rewrite !forallb_spec. intros H. eapply Forall_impl; [exact H|].
  intros c Hc. cbn beta in Hc. unfold is_char in Hc. by bool_to_prop.
Qed.

Lemma well_formed_encodable v : well_formed v = true → encodable v = true ∧ distinct_keys v = true.
Proof.
  induction v as [|b|s|t|items IH|members IH|] using JsonValue_nested_ind;
    cbn [well_formed encodable distinct_keys]; try done; intros H.
  - split; [|done]. by apply is_text_no_surrogate.
  - rewrite forallb_spec in *. rewrite !forallb_spec. apply Forall_and.
    eapply Forall_impl; [apply Forall_and; exact (conj IH H)|]. intros v [Hv ?]. by apply Hv.
  - bool_to_prop. rewrite forallb_spec in *. rewrite H. cbn [andb]. rewrite forallb_spec.
    apply Forall_and. eapply Forall_impl; [apply Forall_and; exact (conj IH H0)|].
    intros [k v] [Hv Hk]. cbn [fst snd] in *. bool_to_prop. rewrite is_text_no_surrogate by done.
    by apply Hv.
Qed.

(** What may stand behind a value inside an array, an object or the input. *)
Definition follows (rest : ustring) : Prop :=
  match rest with c :: _ => c ∈ u ",]}" | [] => True end.

Lemma follows_next rest :
  follows rest →
  not_next is_ascii_digit rest ∧ not_next (Z.eqb (ch ".")) rest ∧
  not_next (λ c, bool_decide (c ∈ u "eE")) rest ∧ _skip_space rest = rest.
Proof.
  destruct rest as [|c rest]; [done|]. cbn. rewrite !elem_of_cons.
  intros [->|[->|[->|[]%elem_of_nil]]]; done.
Qed.

(** The first character of a value's text. *)
Definition value_head (c : Z) : Prop := c ∈ u "ntf[{-" ∨ c = QUOTE ∨ is_ascii_digit c = true.

Lemma value_head_space c s : value_head c → _skip_space (c :: s) = c :: s.
Proof.
  intros H. unfold _skip_space. cbn [span]. replace (is_json_space c) with false; [done|].
  symmetry. apply bool_decide_eq_false. unfold value_head in H. rewrite is_ascii_digit_spec in H.
  cbn in H. rewrite !elem_of_cons, !elem_of_nil in *. unfold QUOTE in H. lia.
Qed.

Lemma value_head_close c : value_head c → c ≠ ch "]" ∧ c ≠ ch "}" ∧ c ≠ ch ",".
Proof.
  unfold value_head, QUOTE. rewrite is_ascii_digit_spec. cbn. rewrite !elem_of_cons, elem_of_nil. lia.
Qed.

Lemma canonical_text_head t :
  canonical_number t = Done t → ∃ c s, t = c :: s ∧ (c = ch "-" ∨ is_ascii_digit c = true).
Proof.
  intros H. destruct (canonical_number_inv t t H) as (n & i & f & e & (x & -> & [Hall Hi] & _) & _).
  destruct n; [by eexists _, _; split; [reflexivity|left]|]. destruct i as [|c i]; [done|].
  inversion Hall; subst. eexists _, _. split; [reflexivity|by right].
Qed.

Lemma text_of_head v : well_formed v = true → ∃ c s, text_of v = c :: s ∧ value_head c.
Proof.
  destruct v as [|b|s|t|items|members|]; cbn [well_formed text_of]; intros H; try done.
  - eexists _, _. split; [reflexivity|]. left. cbn. rewrite !elem_of_cons. tauto.
  - destruct b; eexists _, _; (split; [reflexivity|]); left; cbn; rewrite !elem_of_cons; tauto.
  - eexists _, _. split; [reflexivity|]. right. by left.
  - apply bool_decide_eq_true in H. destruct (canonical_text_head t H) as (c & s & -> & Hc).
    eexists _, _. split; [reflexivity|]. destruct Hc as [->|Hc]; [|by right; right].
    left. cbn. rewrite !elem_of_cons. tauto.
  - eexists _, _. split; [reflexivity|]. left. cbn. rewrite !elem_of_cons. tauto.
  - eexists _, _. split; [reflexivity|]. left. cbn. rewrite !elem_of_cons. tauto.
Qed.

(** ** Strings *)

(** A control character is read back from its hexadecimal escape. *)
Lemma control_escape c :
  0 <= c < 32 → ∀ rest, hex4 ([ch "0"; ch "0"; hex_digit (c / 16); hex_digit (c mod 16)] ++ rest) = Some c.
Proof.
  intros Hc. assert (Forall (λ c, ∀ rest : ustring,
    hex4 ([ch "0"; ch "0"; hex_digit (c / 16); hex_digit (c mod 16)] ++ rest) = Some c) (seqZ 0 32)) as H
    by (vm_compute seqZ; repeat constructor).
  rewrite Forall_forall in H. apply H. apply elem_of_seqZ. lia.
Qed.

Lemma replacement_cases c :
  match replacement c with
  | None => c ≠ QUOTE ∧ c ≠ BACKSLASH ∧ 32 <= c
  | Some r =>
      (∃ e, r = [BACKSLASH; e] ∧ assoc e SIMPLE_ESCAPES = Some c) ∨
      (c < 32 ∧ r = [BACKSLASH; ch "u"; ch "0"; ch "0"; hex_digit (c / 16); hex_digit (c mod 16)])
  end.
Proof.
  unfold replacement.
  destruct (Z.eqb_spec c QUOTE) as [->|]; [by left; eexists|].
  destruct (Z.eqb_spec c BACKSLASH) as [->|]; [by left; eexists|].
  destruct (Z.eqb_spec c 8) as [->|]; [by left; eexists|].
  destruct (Z.eqb_spec c 12) as [->|]; [by left; eexists|].
  destruct (Z.eqb_spec c 10) as [->|]; [by left; eexists|].
  destruct (Z.eqb_spec c 13) as [->|]; [by left; eexists|].
  destruct (Z.eqb_spec c 9) as [->|]; [by left; eexists|].
  destruct (Z.ltb_spec c 32); [by right|]. done.
Qed.

Lemma escaped_length c : (1 <= length (escaped c))%nat.
Proof.
  unfold escaped. pose proof (replacement_cases c) as H. destruct (replacement c); [|cbn; lia].
  destruct H as [(e & -> & _)|(_ & ->)]; cbn; lia.
Qed.

Lemma escaped_concat_length s : (length s <= length (concat (escaped <$> s)))%nat.
Proof.
  induction s as [|c s IH]; [done|]. cbn [fmap list_fmap concat length]. rewrite length_app.
  pose proof (escaped_length c). unfold fmap in *. lia.
Qed.

Section decoder_spec.
Context (limits : Limits) (total : Z).

Lemma string_loop_char fuel acc c rest :
  is_char c = true →
  string_loop total (S fuel) acc (escaped c ++ rest) = string_loop total fuel (acc ++ [c]) rest.
Proof.
  unfold is_char. intros [Hc Hs]%andb_true_iff. apply negb_true_iff in Hs.
  assert (0 <= c) by (unfold in_range in Hc; bool_to_prop; lia).
  unfold escaped. pose proof (replacement_cases c) as Hr. destruct (replacement c) as [r|].
  - destruct Hr as [(e & -> & He)|(Hlt & ->)].
    + cbn [app string_loop]. change (BACKSLASH =? QUOTE) with false. rewrite Z.eqb_refl. by rewrite He.
    + cbn [app string_loop]. change (BACKSLASH =? QUOTE) with false. rewrite Z.eqb_refl.
      change (assoc (ch "u") SIMPLE_ESCAPES) with (@None Z). cbv beta iota. rewrite Z.eqb_refl.
      unfold _unicode_escape.
      pose proof (control_escape c ltac:(lia) rest) as E. cbn [app] in E. rewrite E. cbn [length Nat.ltb Nat.leb].
      replace (in_range 56320 57343 c) with false by (symmetry; unfold in_range; apply andb_false_iff; left; bool_to_prop; lia).
      replace (in_range 55296 56319 c) with false by (symmetry; unfold in_range; apply andb_false_iff; left; bool_to_prop; lia).
      done.
  - destruct Hr as (? & ? & ?). cbn [app string_loop].
    destruct (Z.eqb_spec c QUOTE); [done|]. destruct (Z.eqb_spec c BACKSLASH); [done|].
    destruct (Z.ltb_spec c 32); [lia|]. by rewrite Hs.
Qed.

Lemma string_loop_copies s : ∀ fuel acc rest,
  is_text s = true → (length s < fuel)%nat →
  string_loop total fuel acc (concat (escaped <$> s) ++ QUOTE :: rest) = Done (acc ++ s, rest).
Proof.
  induction s as [|c s IH]; intros fuel acc rest Hs Hf.
  - destruct fuel; [cbn in Hf; lia|]. cbn [fmap list_fmap concat app string_loop].
    rewrite Z.eqb_refl. by rewrite app_nil_r.
  - cbn [is_text forallb] in Hs. bool_to_prop. destruct fuel as [|fuel]; [cbn in Hf; lia|].
    cbn [fmap list_fmap concat]. rewrite <- app_assoc, string_loop_char by done.
    cbn [length] in Hf. rewrite IH by (done || lia). by rewrite <- app_assoc.
Qed.

Lemma string_run s rest :
  is_text s = true → _string total (concat (escaped <$> s) ++ QUOTE :: rest) = Done (s, rest).
Proof.
  intros Hs. unfold _string. rewrite string_loop_copies; [done|done|].
  rewrite length_app. pose proof (escaped_concat_length s). unfold fmap in *. cbn [length]. lia.
Qed.

(** ** Numbers *)

Lemma number_run t rest :
  canonical_number t = Done t → follows rest → _number total (t ++ rest) = Done (t, rest).
Proof.
  intros Ht Hrest. destruct (follows_next rest Hrest) as (Hd & Hp & He & _).
  assert (new_number t = Done t) as Hnew by by apply new_number_spec.
  pose proof Ht as Ht'. apply canonical_number_inv in Ht' as (n & i & f & e & (x & Et & Hi & Hf & Hx) & _).
  destruct (exponent_text_not_next e x Hx) as [Hx1 Hx2].
  assert (not_next is_ascii_digit (x ++ rest) ∧ not_next (Z.eqb (ch ".")) (x ++ rest)) as [Hxr1 Hxr2]
    by (destruct x; [exact (conj Hd Hp)|exact (conj Hx1 Hx2)]).
  unfold _number. rewrite Et at 1. rewrite <- !app_assoc, sign_part_run by done.
  rewrite integer_part_run by (done || by apply fraction_text_not_next).
  cbn [positioned mbind outcome_bind]. rewrite fraction_part_run by done.
  cbn [positioned mbind outcome_bind]. rewrite (exponent_part_run e x rest) by done.
  cbn [positioned mbind outcome_bind]. rewrite length_app.
  replace (length t + length rest - length rest)%nat with (length t) by lia.
  rewrite take_app_length, Ht. cbn [number_at mbind outcome_bind]. by rewrite Hnew.
Qed.

(** ** Values *)

(** The parser reads the canonical text of [v] and what it leaves. *)
Definition runs (v : JsonValue) : Prop := ∀ fuel depth nodes rest,
  well_formed v = true →
  depth + Z.of_nat (height v) <= max_depth limits + 1 →
  nodes + Z.of_nat (node_count v) <= max_nodes limits →
  follows rest → (2 * length (text_of v) + 1 <= fuel)%nat →
  _value limits total fuel depth (text_of v ++ rest, nodes) =
  Done (sort_keys v, (rest, nodes + Z.of_nat (node_count v))).

Lemma node_step depth s nodes :
  depth <= max_depth limits → nodes + 1 <= max_nodes limits →
  _node limits total depth (s, nodes) = Done (s, nodes + 1).
Proof.
  intros Hd Hn. unfold _node. cbn [fst snd].
  destruct (Z.ltb_spec (max_depth limits) depth); [lia|].
  destruct (Z.ltb_spec (max_nodes limits) (nodes + 1)); [lia|done].
Qed.

(** The items of a list behind its first. *)
Definition more (texts : list ustring) : ustring := concat ((λ p, u "," ++ p) <$> texts).

Lemma more_cons (t : ustring) (ts : list ustring) : more (t :: ts) = ch "," :: t ++ more ts.
Proof. done. Qed.

Lemma more_follows texts close rest : close ∈ u "]}" → follows (more texts ++ close :: rest).
Proof.
  intros Hc. destruct texts; cbn; [|left]. cbn in Hc. rewrite !elem_of_cons in *. tauto.
Qed.

Lemma array_runs items : ∀ item, Forall runs (item :: items) → ∀ fuel depth acc nodes rest,
  Forall (λ v, well_formed v = true) (item :: items) →
  Forall (λ v, depth + 1 + Z.of_nat (height v) <= max_depth limits + 1) (item :: items) →
  nodes + Z.of_nat (sum_list_with node_count (item :: items)) <= max_nodes limits →
  follows rest →
  (2 * length (text_of item ++ more (text_of <$> items)) + 2 <= fuel)%nat →
  array_loop limits total fuel depth acc
    (text_of item ++ more (text_of <$> items) ++ ch "]" :: rest, nodes) =
  Done (acc ++ (sort_keys <$> item :: items),
        (rest, nodes + Z.of_nat (sum_list_with node_count (item :: items)))).
Proof.
  induction items as [|next items IH]; intros item Hruns fuel depth acc nodes rest Hwf Hh Hn Hrest Hfuel.
  all: inversion Hruns as [|? ? Hitem Hmore]; subst; inversion Hwf as [|? ? Hw Hwfs]; subst;
    inversion Hh as [|? ? Hhi Hhs]; subst; clear Hruns Hwf Hh; cbn [sum_list_with] in Hn |- *.
  all: destruct fuel as [|fuel]; [lia|]; rewrite length_app in Hfuel; cbn [array_loop].
  all: rewrite Hitem; try done; [|lia|by apply more_follows; cbn; rewrite !elem_of_cons; auto|lia];
    cbn [mbind outcome_bind].
  all: rewrite (proj2 (proj2 (proj2 (follows_next _ (more_follows _ (ch "]") rest
    ltac:(cbn; rewrite !elem_of_cons; auto)))))).
  - cbn [fmap list_fmap more concat app]. rewrite Z.eqb_refl. do 3 f_equal. lia.
  - cbn [fmap list_fmap] in Hfuel |- *. rewrite more_cons in Hfuel |- *.
    inversion Hwfs as [|? ? Hw' _]; subst. destruct (text_of_head next Hw') as (c & s & Ec & Hc).
    rewrite <- app_comm_cons, <- app_assoc. change (ch "," =? ch "]") with false.
    rewrite Z.eqb_refl. cbv iota.
    rewrite Ec, <- app_comm_cons, value_head_space, app_comm_cons, <- Ec by done.
    cbn [length] in Hfuel. rewrite (IH next Hmore); try done; [|cbn [sum_list_with]; lia|unfold fmap in *; lia].
    rewrite <- app_assoc. cbn [app fmap list_fmap]. do 3 f_equal. cbn [sum_list_with]. lia.
Qed.

Definition member_text (m : ustring * JsonValue) : ustring := string_text m.1 ++ u ":" ++ text_of m.2.

Lemma string_text_app s rest :
  string_text s ++ rest = QUOTE :: concat (escaped <$> s) ++ QUOTE :: rest.
Proof. unfold string_text. by rewrite <- app_comm_cons, <- app_assoc. Qed.

Lemma member_text_app k v rest :
  member_text (k, v) ++ rest = QUOTE :: concat (escaped <$> k) ++ QUOTE :: ch ":" :: text_of v ++ rest.
Proof. unfold member_text. rewrite <- app_assoc, string_text_app. cbn [fst snd app]. by rewrite <- app_assoc. Qed.

Lemma object_runs ms : ∀ m, Forall (λ m, runs m.2) (m :: ms) → ∀ fuel depth acc nodes rest,
  Forall (λ m, is_text m.1 = true ∧ well_formed m.2 = true) (m :: ms) →
  NoDup ((acc ++ m :: ms).*1) →
  Forall (λ m, depth + 1 + Z.of_nat (height m.2) <= max_depth limits + 1) (m :: ms) →
  nodes + Z.of_nat (sum_list_with (λ m, node_count m.2) (m :: ms)) <= max_nodes limits →
  follows rest →
  (2 * length (member_text m ++ more (member_text <$> ms)) + 2 <= fuel)%nat →
  object_loop limits total fuel depth acc
    (member_text m ++ more (member_text <$> ms) ++ ch "}" :: rest, nodes) =
  Done (acc ++ ((λ m, (m.1, sort_keys m.2)) <$> m :: ms),
        (rest, nodes + Z.of_nat (sum_list_with (λ m, node_count m.2) (m :: ms)))).
Proof.
  induction ms as [|next ms IH]; intros [k v] Hruns fuel depth acc nodes rest Hwf Hnd Hh Hn Hrest Hfuel.
  all: inversion Hruns as [|? ? Hv Hmore]; subst; inversion Hwf as [|? ? [Hk Hw] Hwfs]; subst;
    inversion Hh as [|? ? Hhi Hhs]; subst; clear Hruns Hwf Hh;
    cbn [sum_list_with fst snd] in *.
  all: assert (k ∉ acc.*1) as Hk'
    by (rewrite fmap_app, fmap_cons in Hnd; apply NoDup_app in Hnd as (_ & Hd & _);
        intros Hin; apply (Hd k Hin); left).
  all: destruct fuel as [|fuel]; [lia|]; rewrite length_app in Hfuel; cbn [object_loop fst snd].
  all: rewrite member_text_app, Z.eqb_refl, string_run by done; cbn [mbind outcome_bind].
  all: rewrite bool_decide_eq_false_2 by done; change (_skip_space (ch ":" :: ?s)) with (ch ":" :: s);
    cbv iota beta; rewrite Z.eqb_refl.
  all: unfold member_text in Hfuel; rewrite !length_app in Hfuel; cbn [fst snd] in Hfuel.
  all: destruct (text_of_head v Hw) as (cv & sv & Ev & Hcv);
    rewrite Ev, <- app_comm_cons, value_head_space, app_comm_cons, <- Ev by done.
  all: rewrite Hv; try done; [|lia|by apply more_follows; cbn; rewrite !elem_of_cons; auto|lia];
    cbn [mbind outcome_bind].
  all: rewrite (proj2 (proj2 (proj2 (follows_next _ (more_follows _ (ch "}") rest
    ltac:(cbn; rewrite !elem_of_cons; auto)))))).
  - cbn [fmap list_fmap more concat app]. rewrite Z.eqb_refl. do 3 f_equal. lia.
  - cbn [fmap list_fmap] in Hfuel |- *. rewrite more_cons in Hfuel |- *.
    rewrite <- app_comm_cons, <- app_assoc. change (ch "," =? ch "}") with false.
    rewrite Z.eqb_refl. cbv iota. destruct next as [k2 v2].
    rewrite member_text_app, value_head_space, <- member_text_app by (right; by left).
    cbn [length] in Hfuel. rewrite length_app in Hfuel. rewrite (IH (k2, v2) Hmore); try done.
    + rewrite <- app_assoc. cbn [app fmap list_fmap fst snd]. do 3 f_equal. cbn [sum_list_with fst snd]. lia.
    + replace ((acc ++ [(k, sort_keys v)]) ++ (k2, v2) :: ms) with (acc ++ [(k, sort_keys v)] ++ (k2, v2) :: ms)
        by by rewrite app_assoc.
      rewrite fmap_app in Hnd |- *. exact Hnd.
    + cbn [sum_list_with fst snd] in Hn |- *. lia.
    + rewrite length_app. unfold member_text in Hfuel |- *. unfold fmap in *. cbn [fst snd] in *. lia.
Qed.

Lemma value_step_string s fuel depth nodes rest :
  is_text s = true → depth <= max_depth limits → nodes + 1 <= max_nodes limits →
  _value limits total (S fuel) depth (string_text s ++ rest, nodes) = Done (JString s, (rest, nodes + 1)).
Proof.
  intros Hs Hd Hn. cbn [_value]. rewrite string_text_app, node_step by done. cbn [mbind outcome_bind].
  by rewrite Z.eqb_refl, string_run.
Qed.

Lemma value_step_number t fuel depth nodes rest :
  canonical_number t = Done t → follows rest → depth <= max_depth limits → nodes + 1 <= max_nodes limits →
  _value limits total (S fuel) depth (t ++ rest, nodes) = Done (JNumber t, (rest, nodes + 1)).
Proof.
  intros Ht Hrest Hd Hn. destruct (canonical_text_head t Ht) as (c & s & E & Hc).
  cbn [_value]. rewrite node_step by done. cbn [mbind outcome_bind]. rewrite E, <- app_comm_cons.
  assert ((c =? ch "-") || is_ascii_digit c = true) as Hnum
    by (apply orb_true_iff; destruct Hc as [->|]; auto).
  assert (c = ch "-" ∨ 48 <= c <= 57) as Hrange by (rewrite <- is_ascii_digit_spec; done).
  unfold QUOTE. destruct (Z.eqb_spec c 34); [lia|]. destruct (Z.eqb_spec c (ch "{")); [lia|].
  destruct (Z.eqb_spec c (ch "[")); [lia|]. destruct (Z.eqb_spec c (ch "t")); [lia|].
  destruct (Z.eqb_spec c (ch "f")); [lia|]. destruct (Z.eqb_spec c (ch "n")); [lia|].
  cbn [andb]. rewrite Hnum. rewrite app_comm_cons, <- E. by rewrite number_run.
Qed.

Lemma height_items {A} (f : A → nat) depth l :
  depth + Z.of_nat (S (max_list_with f l)) <= max_depth limits + 1 →
  depth <= max_depth limits ∧ Forall (λ x, depth + 1 + Z.of_nat (f x) <= max_depth limits + 1) l.
Proof. rewrite max_list_with_fmap, items_ok, Forall_fmap. done. Qed.

Lemma array_text item (items : list JsonValue) :
  text_of (JArray (item :: items)) = ch "[" :: text_of item ++ more (text_of <$> items) ++ [ch "]"].
Proof.
  cbn [text_of]. rewrite fmap_cons, join_cons. unfold more. cbn [app u]. by rewrite <- app_assoc.
Qed.

Lemma array_value_runs items : Forall runs items → runs (JArray items).
Proof.
  intros IH fuel depth nodes rest Hwf Hh Hn Hrest Hfuel. cbn [well_formed height node_count] in *.
  rewrite forallb_spec in Hwf. apply height_items in Hh as [Hd Hh].
  destruct fuel as [|fuel]; [lia|]. destruct items as [|item items].
  - cbn [_value]. rewrite node_step by (cbn in Hn; lia). reflexivity.
  - rewrite array_text in Hfuel |- *. cbn [_value]. rewrite node_step by (cbn [sum_list_with] in Hn; lia).
    cbn [mbind outcome_bind]. rewrite <- app_comm_cons, <- !app_assoc. change (ch "[" =? QUOTE) with false.
    change (ch "[" =? ch "{") with false. rewrite Z.eqb_refl. cbv iota. cbn [app].
    inversion Hwf as [|? ? Hw _]; subst. destruct (text_of_head item Hw) as (c & s & Ec & Hc).
    pose proof (value_head_close c Hc) as (Hc1 & _). apply Z.eqb_neq in Hc1.
    set (tail := more (text_of <$> items) ++ ch "]" :: rest).
    assert (text_of item ++ tail = c :: s ++ tail) as Etail by by rewrite Ec.
    rewrite Etail, value_head_space by done. cbv iota. rewrite Hc1, <- Etail.
    cbn [length] in Hfuel. rewrite !length_app in Hfuel. cbn [length] in Hfuel. unfold tail.
    rewrite (array_runs items item IH); try done; [|lia|rewrite length_app; lia].
    cbn [mbind outcome_bind app sort_keys]. do 3 f_equal. lia.
Qed.

Lemma object_text (ms : list (ustring * JsonValue)) :
  text_of (JObject ms) = ch "{" :: join (u ",") (member_text <$> sorted_items ms) ++ [ch "}"].
Proof.
  cbn [text_of]. rewrite (sorted_items_fmap text_of), <- list_fmap_compose. done.
Qed.

Lemma sort_keys_object (ms : list (ustring * JsonValue)) :
  sort_keys (JObject ms) = JObject ((λ m, (m.1, sort_keys m.2)) <$> sorted_items ms).
Proof. cbn [sort_keys]. by rewrite (sorted_items_fmap sort_keys). Qed.

Lemma object_value_runs (ms : list (ustring * JsonValue)) : Forall (λ m, runs m.2) ms → runs (JObject ms).
Proof.
  intros IH fuel depth nodes rest Hwf Hh Hn Hrest Hfuel. rewrite sort_keys_object.
  rewrite object_text in Hfuel |- *. cbn [well_formed height node_count] in *.
  apply andb_true_iff in Hwf as [Hnd Hwf]. apply bool_decide_eq_true in Hnd. rewrite forallb_spec in Hwf.
  apply height_items in Hh as [Hd Hh]. pose proof (sorted_items_perm ms Hnd) as Hp.
  assert (sum_list_with (λ m : ustring * JsonValue, node_count m.2) ms =
    sum_list_with (λ m, node_count m.2) (sorted_items ms)) as Hsum by (by rewrite Hp).
  rewrite Hsum in Hn |- *. clear Hsum.
  rewrite <- Hp in IH. rewrite <- Hp in Hh. rewrite <- Hp in Hwf. rewrite <- Hp in Hnd. clear Hp.
  revert IH Hh Hwf Hn Hnd Hfuel. generalize (sorted_items ms). clear ms. intros ms IH Hh Hwf Hn Hnd Hfuel.
  destruct fuel as [|fuel]; [lia|]. cbn [_value]. rewrite node_step by (cbn in Hn; lia).
  cbn [mbind outcome_bind]. destruct ms as [|[k v] ms].
  - reflexivity.
  - rewrite fmap_cons, join_cons in Hfuel |- *. fold (more (member_text <$> ms)) in Hfuel |- *.
    rewrite <- app_comm_cons, <- !app_assoc. change (ch "{" =? QUOTE) with false.
    rewrite Z.eqb_refl. cbv iota. cbn [app]. set (tail := more (member_text <$> ms) ++ ch "}" :: rest).
    rewrite member_text_app, value_head_space by (right; by left).
    change (QUOTE =? ch "}") with false. cbv iota. rewrite <- member_text_app. unfold tail.
    cbn [length] in Hfuel. rewrite !length_app in Hfuel. cbn [length] in Hfuel.
    rewrite (object_runs ms (k, v) IH); try done; [| |lia|rewrite length_app; unfold fmap in *; lia].
    + cbn [mbind outcome_bind app]. do 3 f_equal. lia.
    + eapply Forall_impl; [exact Hwf|]. intros m Hm. by apply andb_true_iff in Hm.
Qed.

Lemma value_runs v : runs v.
Proof.
  induction v as [|b|s|t|items IH|members IH|] using JsonValue_nested_ind.
  1-4: intros fuel depth nodes rest Hwf Hh Hn Hrest Hfuel; cbn [height node_count] in Hh, Hn;
    (destruct fuel as [|fuel]; [lia|]).
  - cbn [_value]. rewrite node_step by lia. reflexivity.
  - cbn [_value]. rewrite node_step by lia. by destruct b.
  - apply value_step_string; [done|lia..].
  - apply bool_decide_eq_true in Hwf. apply value_step_number; [done..|lia|lia].
  - by apply array_value_runs.
  - by apply object_value_runs.
  - by intros fuel depth nodes rest Hwf.
Qed.
End decoder_spec.

(** * What the parser returns, on every input *)

Section decoder_sound.
Context (limits : Limits) (text : ustring) (Htext : is_text text = true).

Let total : Z := utf8_size text.

(** A place the parser can be at. *)
Definition here (rest : ustring) : Prop := rest `suffix_of` text.

(** [o] returns a value with [P] or fails at an offset inside the text. *)
Definition ensures {A} (P : A → Prop) (o : outcome json_error A) : Prop :=
  match o with
  | Done a => P a
  | Raise (DataError _ offset) => 0 <= offset <= total
  | _ => False
  end.

Lemma ensures_bind {A B} (P : A → Prop) (Q : B → Prop) m (k : A → outcome json_error B) :
  ensures P m → (∀ a, P a → ensures Q (k a)) → ensures Q (m ≫= k).
Proof. destruct m as [a|[]|]; cbn; auto. Qed.

Lemma ensures_weaken {A} (P Q : A → Prop) m : ensures P m → (∀ a, P a → Q a) → ensures Q m.
Proof. destruct m as [a|[]|]; cbn; auto. Qed.

Lemma here_cons c rest : here (c :: rest) → here rest.
Proof. intros [k Hk]. exists (k ++ [c]). by rewrite <- app_assoc. Qed.

Lemma here_suffix pre rest : here (pre ++ rest) → here rest.
Proof. intros [k Hk]. exists (k ++ pre). by rewrite <- app_assoc. Qed.

Lemma here_drop n rest : here rest → here (drop n rest).
Proof. intros H. apply (here_suffix (take n rest)). by rewrite take_drop. Qed.

Lemma here_space rest : here rest → here (_skip_space rest).
Proof.
  intros H. apply (here_suffix (span is_json_space rest).1). unfold _skip_space. by rewrite span_app.
Qed.

Lemma skip_space_length rest : (length (_skip_space rest) <= length rest)%nat.
Proof. pose proof (f_equal length (span_app is_json_space rest)) as E. rewrite length_app in E. unfold _skip_space. lia. Qed.

Lemma here_text rest : here rest → is_text rest = true.
Proof.
  intros [k Hk]. pose proof Htext as Ht. rewrite Hk in Ht. unfold is_text in *. rewrite forallb_spec in *.
  by apply Forall_app in Ht as [_ ?].
Qed.

Lemma error_bound {A} (P : A → Prop) p rest : here rest → ensures P (error total p rest).
Proof.
  intros [k Hk]. cbn. unfold total. rewrite Hk, utf8_size_app.
  pose proof (utf8_size_nonneg k). pose proof (utf8_size_nonneg rest). lia.
Qed.

Lemma here_nil : here [].
Proof. exists text. by rewrite app_nil_r. Qed.

#[local] Hint Resolve here_drop here_space error_bound here_nil : koschei.

Lemma hex_digit_range c d : _HEX c = Some d → 0 <= d < 16.
Proof.
  unfold _HEX. intros H. repeat case_match; simplify_eq; unfold in_range in *; bool_to_prop; lia.
Qed.

Lemma hex4_range s v : hex4 s = Some v → 0 <= v < 65536.
Proof.
  unfold hex4. destruct (mapM _HEX (take 4 s)) as [ds|] eqn:E; [|done]. intros [= <-].
  apply mapM_Some_1 in E. assert (Forall (λ d, 0 <= d < 16) ds) as Hds.
  { induction E; constructor; [by eapply hex_digit_range|done]. }
  apply Forall2_length in E. rewrite length_take in E.
  destruct ds as [|d1 [|d2 [|d3 [|d4 [|d5 ds]]]]]; [..|cbn [length] in E; lia].
  all: repeat match goal with H : Forall _ (_ :: _) |- _ => apply Forall_cons in H as [? H] end.
  all: unfold hex_value; cbn [foldl]; lia.
Qed.

Lemma unicode_escape_good rest :
  here rest →
  ensures (λ '(c, rest'), is_char c = true ∧ here rest' ∧ (length rest' < length rest)%nat)
    (_unicode_escape total rest).
Proof.
  intros Hr. unfold _unicode_escape. destruct (Nat.ltb_spec (length rest) 4); [auto with koschei|].
  destruct (hex4 rest) as [first|] eqn:E1; [|auto with koschei]. apply hex4_range in E1.
  destruct (in_range 56320 57343 first) eqn:R1; [auto with koschei|].
  destruct (in_range 55296 56319 first) eqn:R2; cbn [negb].
  - destruct (_ || _); [auto with koschei|].
    destruct (hex4 (drop 2 (drop 4 rest))) as [second|] eqn:E2; [|auto with koschei].
    destruct (in_range 56320 57343 second) eqn:R3; cbn [negb]; [|auto with koschei].
    cbn [ensures]. rewrite Z.shiftl_mul_pow2 by lia. unfold is_char, is_surrogate, in_range in *. bool_to_prop.
    split; [|split; [auto with koschei|rewrite !length_drop; lia]].
    apply andb_true_iff. split; [bool_to_prop; lia|]. apply negb_true_iff, andb_false_iff. right. bool_to_prop. lia.
  - cbn [ensures]. split; [|split; [auto with koschei|rewrite length_drop; lia]].
    unfold is_char, is_surrogate, in_range in *. rewrite !andb_false_iff, !Z.leb_gt in *.
    apply andb_true_iff. split; [bool_to_prop; lia|]. apply negb_true_iff, andb_false_iff. rewrite !Z.leb_gt. lia.
Qed.

Lemma simple_escape_char e c : assoc e SIMPLE_ESCAPES = Some c → is_char c = true.
Proof.
  intros H. apply assoc_Some in H.
  assert (Forall (λ kv, is_char kv.2 = true) SIMPLE_ESCAPES) as Hall by (repeat constructor).
  rewrite Forall_forall in Hall. apply (Hall _ H).
Qed.

Lemma is_text_snoc s c : is_text s = true → is_char c = true → is_text (s ++ [c]) = true.
Proof. intros Hs Hc. unfold is_text. rewrite forallb_app. fold (is_text s). rewrite Hs. cbn. by rewrite Hc. Qed.

Lemma string_loop_good fuel : ∀ acc rest,
  here rest → is_text acc = true → (length rest < fuel)%nat →
  ensures (λ '(s, rest'), is_text s = true ∧ here rest' ∧ (length rest' < length rest)%nat)
    (string_loop total fuel acc rest).
Proof.
  induction fuel as [|fuel IH]; intros acc rest Hr Hacc Hf; [lia|]. cbn [string_loop].
  destruct rest as [|c after]; [auto with koschei|]. cbn [length] in Hf.
  pose proof (here_cons c after Hr) as Ha.
  assert (∀ acc' rest', here rest' → is_text acc' = true → (length rest' <= length after)%nat →
    ensures (λ '(s, r), is_text s = true ∧ here r ∧ (length r < length (c :: after))%nat)
      (string_loop total fuel acc' rest')) as Hstep.
  { intros acc' rest' H1 H2 H3. eapply ensures_weaken; [apply IH; [done..|lia]|].
    intros [s r] (? & ? & ?). cbn [length]. repeat split; [done..|lia]. }
  destruct (c =? QUOTE); [cbn; auto with lia|]. destruct (c =? BACKSLASH).
  - destruct after as [|e after']; [auto with koschei|]. pose proof (here_cons e after' Ha) as He.
    destruct (assoc e SIMPLE_ESCAPES) as [simple|] eqn:E.
    + apply Hstep; [done| |cbn; lia]. apply is_text_snoc; [done|by eapply simple_escape_char].
    + destruct (e =? ch "u"); [|by apply error_bound].
      eapply ensures_bind; [by apply unicode_escape_good|]. intros [point r] (Hp & Hr' & Hl).
      apply Hstep; [done|by apply is_text_snoc|cbn; lia].
  - destruct (c <? 32); [by apply error_bound|]. destruct (is_surrogate c); [by apply error_bound|].
    apply Hstep; [done| |done]. apply is_text_snoc; [done|].
    apply here_text in Hr. cbn in Hr. by apply andb_true_iff in Hr as [? _].
Qed.

Lemma string_good rest :
  here rest →
  ensures (λ '(s, rest'), is_text s = true ∧ here rest' ∧ (length rest' < length rest)%nat)
    (_string total rest).
Proof. intros H. apply string_loop_good; [done|done|lia]. Qed.

(** A scanner of a part of a number stays inside the text. *)
Definition scans {A} (rest : ustring) (o : scanned A) : Prop :=
  match o with
  | Done (_, rest') => rest' `suffix_of` rest
  | Raise (_, rest') => rest' `suffix_of` rest
  | NoFuel => False
  end.

Lemma span_suffix p s : (span p s).2 `suffix_of` s.
Proof. exists (span p s).1. by rewrite span_app. Qed.

Lemma integer_part_scans s : scans s (integer_part s).
Proof.
  unfold integer_part. destruct s as [|c s]; [by exists []|]. destruct (c =? ch "0").
  - destruct s as [|d s]; cbn; [by exists [c]|]. destruct (is_ascii_digit d); by exists [c].
  - destruct (_ && _); cbn [scans]; [|by exists []].
    destruct (span is_ascii_digit (c :: s)) as [d r] eqn:E. pose proof (span_suffix is_ascii_digit (c :: s)) as H.
    by rewrite E in H.
Qed.

Lemma fraction_part_scans s : scans s (fraction_part s).
Proof.
  unfold fraction_part. destruct s as [|c s]; [by exists []|]. destruct (c =? ch "."); [|by exists []].
  destruct (span is_ascii_digit s) as [d r] eqn:E. pose proof (span_suffix is_ascii_digit s) as H. rewrite E in H.
  case_bool_decide; cbn; [by exists [c]|by apply suffix_cons_r].
Qed.

Lemma exponent_sign_suffix s : (exponent_sign s).2 `suffix_of` s.
Proof. unfold exponent_sign. destruct s as [|c s]; [by exists []|]. case_bool_decide; [by exists [c]|by exists []]. Qed.

Lemma exponent_part_scans s : scans s (exponent_part s).
Proof.
  unfold exponent_part. destruct s as [|c s]; [by exists []|]. case_bool_decide; [|by exists []].
  pose proof (exponent_sign_suffix s) as Hs. destruct (exponent_sign s) as [n s'].
  destruct (span is_ascii_digit s') as [d r] eqn:E. pose proof (span_suffix is_ascii_digit s') as Hd. rewrite E in Hd.
  case_bool_decide; cbn in *; apply suffix_cons_r; [done|by etrans].
Qed.

Lemma positioned_good {A} rest (o : scanned A) :
  here rest → scans rest o →
  ensures (λ '(_, rest'), here rest' ∧ rest' `suffix_of` rest) (positioned total o).
Proof.
  intros Hr. destruct o as [[a r]|[e r]|]; cbn [scans positioned ensures]; intros Hs; [|apply error_bound|done].
  - split; [unfold here in *; by etrans|done].
  - unfold here in *. by etrans.
Qed.

Lemma number_at_good {A} (P : A → Prop) start (o : outcome number_error A) :
  here start → (∀ a, o = Done a → P a) → o ≠ NoFuel → ensures P (number_at total start o).
Proof. intros Hs HP Hn. destruct o; cbn [number_at]; [by apply HP|by apply error_bound|done]. Qed.

Lemma canonical_number_no_fuel t : canonical_number t ≠ NoFuel.
Proof.
  unfold canonical_number. case_bool_decide; [done|]. destruct (sign_part t) as [n s].
  pose proof (integer_part_scans s) as H1. destruct (integer_part s) as [[i s1]|[]|]; cbn [scan mbind outcome_bind]; try done.
  pose proof (fraction_part_scans s1) as H2. destruct (fraction_part s1) as [[f s2]|[]|]; cbn [scan mbind outcome_bind]; try done.
  pose proof (exponent_part_scans s2) as H3. destruct (exponent_part s2) as [[e s3]|[]|]; cbn [scan mbind outcome_bind]; try done.
  assert (exponent_value e ≠ NoFuel) as He by (destruct e as [[]|]; cbn; repeat case_match; done).
  destruct (exponent_value e); cbn [mbind outcome_bind]; [case_bool_decide|..]; done.
Qed.

Lemma sign_part_suffix s : (sign_part s).2 `suffix_of` s.
Proof. unfold sign_part. destruct s as [|c s]; [by exists []|]. destruct (c =? ch "-"); [by exists [c]|by exists []]. Qed.

Lemma suffix_length_le (s1 s2 : ustring) : s1 `suffix_of` s2 → (length s1 <= length s2)%nat.
Proof. intros [k ->]. rewrite length_app. lia. Qed.

Lemma number_good start :
  here start →
  ensures (λ '(t, rest'), canonical_number t = Done t ∧ here rest' ∧ (length rest' < length start)%nat)
    (_number total start).
Proof.
  intros Hs. unfold _number. pose proof (sign_part_suffix start) as Hsign.
  destruct (sign_part start) as [n s]. cbn [snd] in Hsign.
  assert (here s) as Hh by (unfold here in *; by etrans). apply suffix_length_le in Hsign.
  eapply (ensures_bind (λ '(_, r), here r ∧ (length r < length s)%nat)).
  { pose proof (integer_part_scans s) as Hi. pose proof (integer_part_inv s) as Hinv.
    destruct (integer_part s) as [[i r]|[e r]|]; cbn [positioned scans] in *;
      [|apply error_bound; unfold here in *; by etrans|done].
    cbn [ensures]. split; [unfold here in *; by etrans|]. destruct (Hinv i r eq_refl) as (-> & [_ Hc] & _).
    rewrite length_app. destruct i; [done|cbn [length]; lia]. }
  intros [i r] [Hr Hlen]. cbn beta iota.
  eapply ensures_bind; [apply (positioned_good r); [done|apply fraction_part_scans]|].
  intros [f r2] [Hr2 Hl2%suffix_length_le]. cbn beta iota.
  eapply ensures_bind; [apply (positioned_good r2); [done|apply exponent_part_scans]|].
  intros [e r3] [Hr3 Hl3%suffix_length_le]. cbn beta iota zeta.
  set (raw := take _ start).
  eapply (ensures_bind (λ _, True)); [apply number_at_good; [done|done|apply canonical_number_no_fuel]|].
  intros c _. eapply (ensures_bind (λ t, canonical_number t = Done t)).
  { apply number_at_good; [done| |].
    - intros a Ha. apply new_number_spec in Ha as [-> ?]. done.
    - unfold new_number. pose proof (canonical_number_no_fuel c). destruct (canonical_number c); cbn; [|done..].
      by case_bool_decide. }
  intros t Ht. cbn. split; [done|]. split; [done|lia].
Qed.

(** The bounds the parser keeps for a value at a depth. *)
Definition sound (depth : Z) (v : JsonValue) : Prop :=
  well_formed v = true ∧ depth + Z.of_nat (height v) <= max_depth limits + 1.

Definition value_sound (fuel : nat) : Prop := ∀ depth rest nodes,
  here rest → (2 * length rest + 1 <= fuel)%nat →
  ensures (λ '(v, (rest', nodes')),
      here rest' ∧ (length rest' < length rest)%nat ∧ sound depth v ∧
      nodes' = nodes + Z.of_nat (node_count v) ∧ nodes' <= max_nodes limits)
    (_value limits total fuel depth (rest, nodes)).

Definition array_sound (fuel : nat) : Prop := ∀ depth items rest nodes,
  here rest → (2 * length rest + 2 <= fuel)%nat → Forall (sound (depth + 1)) items →
  ensures (λ '(items', (rest', nodes')),
      here rest' ∧ (length rest' < length rest)%nat ∧ Forall (sound (depth + 1)) items' ∧
      nodes' + Z.of_nat (sum_list_with node_count items) = nodes + Z.of_nat (sum_list_with node_count items') ∧
      nodes' <= max_nodes limits)
    (array_loop limits total fuel depth items (rest, nodes)).

Definition members_sound (depth : Z) (ms : list (ustring * JsonValue)) : Prop :=
  NoDup ms.*1 ∧ Forall (λ m, is_text m.1 = true ∧ sound (depth + 1) m.2) ms.

Definition members_count (ms : list (ustring * JsonValue)) : nat :=
  sum_list_with (λ m : ustring * JsonValue, node_count m.2) ms.

Definition object_sound (fuel : nat) : Prop := ∀ depth ms rest nodes,
  here rest → (2 * length rest + 2 <= fuel)%nat → members_sound depth ms →
  ensures (λ '(ms', (rest', nodes')),
      here rest' ∧ (length rest' < length rest)%nat ∧ members_sound depth ms' ∧
      nodes' + Z.of_nat (members_count ms) = nodes + Z.of_nat (members_count ms') ∧
      nodes' <= max_nodes limits)
    (object_loop limits total fuel depth ms (rest, nodes)).

Lemma sum_list_with_snoc {A} (f : A → nat) l x :
  sum_list_with f (l ++ [x]) = (sum_list_with f l + f x)%nat.
Proof. rewrite sum_list_with_app. cbn [sum_list_with]. lia. Qed.

Lemma array_sound_step fuel : value_sound fuel → array_sound fuel → array_sound (S fuel).
Proof.
  intros Hv Ha depth items rest nodes Hr Hf Hi. cbn [array_loop].
  eapply ensures_bind; [apply Hv; [done|lia]|]. intros [item [r n]] (Hr' & Hl & Hs & Hn & Hm). cbn beta iota.
  pose proof (here_space r Hr') as Hsp. pose proof (skip_space_length r) as Hsl.
  assert (Forall (sound (depth + 1)) (items ++ [item])) as Hall by (apply Forall_app; auto).
  destruct (_skip_space r) as [|c after]; [apply error_bound, here_nil|]. cbn [length] in Hsl.
  pose proof (here_cons c after Hsp) as Hafter.
  destruct (c =? ch "]"); [|destruct (c =? ch ",")]; [|pose proof (skip_space_length after)|by apply error_bound].
  - cbn [ensures]. rewrite sum_list_with_snoc. repeat split; try done; lia.
  - eapply ensures_weaken; [apply Ha; [by apply here_space|lia|done]|].
    intros [items' [r' n']] (? & ? & ? & Hn' & ?). rewrite sum_list_with_snoc in Hn'. repeat split; try done; lia.
Qed.

Lemma object_sound_step fuel : value_sound fuel → object_sound fuel → object_sound (S fuel).
Proof.
  intros Hv Ho depth ms rest nodes Hr Hf [Hnd Hms]. cbn [object_loop fst snd].
  destruct rest as [|c0 after0]; [by apply error_bound|].
  destruct (c0 =? QUOTE); [|by apply error_bound].
  eapply ensures_bind; [apply string_good; by eapply here_cons|]. intros [key r] (Hk & Hrk & Hlk). cbn beta iota.
  case_bool_decide as Hin; [by apply error_bound|].
  pose proof (here_space r Hrk) as Hsp. pose proof (skip_space_length r) as Hsl.
  destruct (_skip_space r) as [|c1 after1]; [apply error_bound, here_nil|].
  pose proof (here_cons c1 after1 Hsp) as Ha1.
  destruct (c1 =? ch ":"); [|by apply error_bound]. pose proof (skip_space_length after1) as Hs1.
  cbn [length] in *. eapply ensures_bind; [apply Hv; [by apply here_space|lia]|].
  intros [item [r2 n2]] (Hr2 & Hl2 & Hs2 & Hn2 & Hm2). cbn beta iota zeta.
  pose proof (here_space r2 Hr2) as Hsp2. pose proof (skip_space_length r2) as Hsl2.
  assert (members_sound depth (ms ++ [(key, item)])) as Hall.
  { split; [|apply Forall_app; auto]. rewrite fmap_app. apply NoDup_app. split; [done|].
    split; [|apply NoDup_singleton]. intros k' Hk' ->%list_elem_of_singleton. done. }
  destruct (_skip_space r2) as [|c2 after2]; [apply error_bound, here_nil|]. cbn [length] in Hsl2.
  pose proof (here_cons c2 after2 Hsp2) as Ha2.
  destruct (c2 =? ch "}"); [|destruct (c2 =? ch ",")]; [|pose proof (skip_space_length after2)|by apply error_bound].
  - cbn [ensures]. unfold members_count. rewrite sum_list_with_snoc. cbn [snd].
    split; [done|]. split; [lia|]. split; [exact Hall|]. split; lia.
  - eapply ensures_weaken; [apply Ho; [by apply here_space|lia|done]|].
    intros [ms' [r' n']] (? & ? & Hms' & Hn' & ?). unfold members_count in *.
    rewrite sum_list_with_snoc in Hn'. cbn [snd] in Hn'.
    split; [done|]. split; [lia|]. split; [exact Hms'|]. split; lia.
Qed.

Lemma node_good depth rest nodes :
  here rest →
  ensures (λ '(r, n), r = rest ∧ n = nodes + 1 ∧ depth <= max_depth limits ∧ n <= max_nodes limits)
    (_node limits total depth (rest, nodes)).
Proof.
  intros H. unfold _node. cbn [fst snd].
  destruct (Z.ltb_spec (max_depth limits) depth); [by apply error_bound|].
  destruct (Z.ltb_spec (max_nodes limits) (nodes + 1)); [by apply error_bound|]. cbn [ensures]. repeat split; lia.
Qed.

Lemma sound_leaf depth v : height v = 1%nat → well_formed v = true → depth <= max_depth limits → sound depth v.
Proof. intros Hh Hw Hd. split; [done|]. rewrite Hh. lia. Qed.

Lemma sound_array depth items : depth <= max_depth limits → Forall (sound (depth + 1)) items → sound depth (JArray items).
Proof.
  unfold sound. rewrite Forall_and. intros Hd [Hw Hh]. cbn [well_formed height].
  rewrite forallb_spec, max_list_with_fmap, items_ok, Forall_fmap. done.
Qed.

Lemma sound_object depth ms : depth <= max_depth limits → members_sound depth ms → sound depth (JObject ms).
Proof.
  unfold sound, members_sound. intros Hd [Hnd Hms]. cbn [well_formed height].
  rewrite bool_decide_eq_true_2 by done. cbn [andb].
  rewrite forallb_spec, max_list_with_fmap, items_ok, Forall_fmap. split; [|split; [done|]].
  - eapply Forall_impl; [exact Hms|]. intros m (H1 & H2 & _). by rewrite H1, H2.
  - eapply Forall_impl; [exact Hms|]. intros m (_ & _ & H). exact H.
Qed.

(** What [_value] returns behind the character [c]. *)
Abbreviation value_post depth c after nodes := (λ '(v, (rest', nodes')),
  here rest' ∧ (length rest' < length (c :: after : ustring))%nat ∧ sound depth v ∧
  nodes' = nodes + Z.of_nat (node_count v) ∧ nodes' <= max_nodes limits).

Lemma leaf_good depth c after nodes k v :
  here (c :: after) → (0 < k)%nat → height v = 1%nat → node_count v = 1%nat → well_formed v = true →
  depth <= max_depth limits → nodes + 1 <= max_nodes limits →
  ensures (value_post depth c after nodes) (Done (v, (drop k (c :: after), nodes + 1))).
Proof.
  intros Hr Hk Hh Hc Hw Hd Hn. cbn [ensures]. split; [by apply here_drop|].
  split; [rewrite length_drop; cbn [length]; lia|]. split; [by apply sound_leaf|]. rewrite Hc. lia.
Qed.

Lemma array_value_good fuel depth c after r nodes :
  array_sound fuel → here r → (length r <= length after)%nat → (2 * length after + 2 <= fuel)%nat →
  depth <= max_depth limits →
  ensures (value_post depth c after nodes)
    ('(items, st) ← array_loop limits total fuel depth [] (r, nodes + 1); Done (JArray items, st)).
Proof.
  intros Ha Hr Hl Hf Hd. eapply ensures_bind; [apply Ha; [done|lia|constructor]|].
  intros [items [r2 n2]] (? & ? & ? & Hn2 & ?). cbn [ensures length]. split; [done|]. split; [lia|].
  split; [by apply sound_array|]. cbn [node_count sum_list_with] in *. lia.
Qed.

Lemma object_value_good fuel depth c after r nodes :
  object_sound fuel → here r → (length r <= length after)%nat → (2 * length after + 2 <= fuel)%nat →
  depth <= max_depth limits →
  ensures (value_post depth c after nodes)
    ('(ms, st) ← object_loop limits total fuel depth [] (r, nodes + 1); Done (JObject ms, st)).
Proof.
  intros Ho Hr Hl Hf Hd. eapply ensures_bind; [apply Ho; [done|lia|by split; constructor]|].
  intros [ms [r2 n2]] (? & ? & ? & Hn2 & ?). cbn [ensures length]. split; [done|]. split; [lia|].
  split; [by apply sound_object|]. unfold members_count in Hn2. cbn [node_count sum_list_with] in *. lia.
Qed.

Lemma value_sound_step fuel : array_sound fuel → object_sound fuel → value_sound (S fuel).
Proof.
  intros Ha Ho depth rest nodes Hr Hf. cbn [_value].
  eapply ensures_bind; [by apply node_good|]. intros [r n] (-> & -> & Hd & Hn). cbn beta iota.
  destruct rest as [|c after]; [by apply error_bound|]. pose proof (here_cons c after Hr) as Hafter.
  pose proof (here_space after Hafter) as Hsp. pose proof (skip_space_length after) as Hsl. cbn [length] in Hf.
  destruct (c =? QUOTE).
  { eapply ensures_bind; [by apply string_good|]. intros [s r] (Hs & Hr' & Hl). cbn [ensures length].
    split; [done|]. split; [lia|]. split; [by apply sound_leaf|]. cbn [node_count]. lia. }
  destruct (c =? ch "{").
  { destruct (_skip_space after) as [|c' after']; [apply object_value_good; done || cbn; lia|].
    destruct (c' =? ch "}"); [|apply object_value_good; done || lia].
    cbn [ensures length] in *. split; [by eapply here_cons|]. split; [lia|].
    split; [by apply sound_object; [|split; constructor]|]. cbn. lia. }
  destruct (c =? ch "[").
  { destruct (_skip_space after) as [|c' after']; [apply array_value_good; done || cbn; lia|].
    destruct (c' =? ch "]"); [|apply array_value_good; done || lia].
    cbn [ensures length] in *. split; [by eapply here_cons|]. split; [lia|].
    split; [by apply sound_array; [|constructor]|]. cbn. lia. }
  destruct (_ && _); [apply (leaf_good _ _ _ _ 4 (JBool true)); done || lia|].
  destruct (_ && _); [apply (leaf_good _ _ _ _ 5 (JBool false)); done || lia|].
  destruct (_ && _); [apply (leaf_good _ _ _ _ 4 JNull); done || lia|].
  destruct (_ || _); [|by apply error_bound].
  eapply ensures_bind; [by apply number_good|]. intros [t r] (Ht & Hr' & Hl). cbn [ensures].
  split; [done|]. split; [done|]. split; [apply sound_leaf; [done| |done]|cbn [node_count]; lia].
  cbn [well_formed]. by apply bool_decide_eq_true.
Qed.

Lemma parser_sound fuel : value_sound fuel ∧ array_sound fuel ∧ object_sound fuel.
Proof.
  induction fuel as [|fuel (Hv & Ha & Ho)].
  - repeat split; intros ? **; lia.
  - split; [by apply value_sound_step|]. split; [by apply array_sound_step|by apply object_sound_step].
Qed.

Lemma parse_sound fuel :
  (2 * length text + 1 <= fuel)%nat →
  ensures (λ v, well_formed v = true ∧ Z.of_nat (height v) <= max_depth limits ∧
    Z.of_nat (node_count v) <= max_nodes limits) (parse limits total fuel text).
Proof.
  intros Hf. unfold parse. assert (here text) as Ht by by exists [].
  pose proof (skip_space_length text). eapply ensures_bind; [apply parser_sound; [by apply here_space|lia]|].
  intros [v [r n]] (Hr & _ & [Hw Hh] & Hn & Hm). cbn beta iota.
  pose proof (here_space r Hr) as Hsp. destruct (_skip_space r); [|by apply error_bound]. cbn [ensures]. split; [done|lia].
Qed.

End decoder_sound.

(** * Equality of values, as Python's [==] on dictionaries *)

Inductive json_eq : JsonValue → JsonValue → Prop :=
  | json_eq_refl v : json_eq v v
  | json_eq_array items1 items2 : Forall2 json_eq items1 items2 → json_eq (JArray items1) (JArray items2)
  | json_eq_object ms1 ms1' ms2 ms2' :
      ms1 ≡ₚ ms1' → ms2 ≡ₚ ms2' →
      Forall2 (λ m1 m2 : ustring * JsonValue, m1.1 = m2.1 ∧ json_eq m1.2 m2.2) ms1' ms2' →
      json_eq (JObject ms1) (JObject ms2).

Lemma Forall2_fmap_eq {A B} (P : A → A → Prop) (f : A → B) l1 l2 :
  Forall2 P l1 l2 → (∀ x y, x ∈ l1 → P x y → f x = f y) → f <$> l1 = f <$> l2.
Proof.
  induction 1 as [|x y l1 l2 Hxy _ IH]; intros H; [done|]. cbn [fmap list_fmap].
  rewrite (H x y) by (left || done). f_equal. apply IH. intros x' y' Hx'. apply H. by right.
Qed.

Lemma fmap_eq_Forall2 {A B} (P : A → A → Prop) (f : A → B) l1 l2 :
  f <$> l1 = f <$> l2 → (∀ x y, x ∈ l1 → f x = f y → P x y) → Forall2 P l1 l2.
Proof.
  revert l2. induction l1 as [|x l1 IH]; intros [|y l2] E H; try done.
  cbn [fmap list_fmap] in E. injection E as Hxy E. constructor; [apply H; [left|done]|].
  apply IH; [done|]. intros x' y' Hx'. apply H. by right.
Qed.

Lemma keys_fmap {A B} (g : A → B) (ms : list (ustring * A)) : ((λ m, (m.1, g m.2)) <$> ms).*1 = ms.*1.
Proof. rewrite <- list_fmap_compose. done. Qed.

Lemma distinct_object ms :
  distinct_keys (JObject ms) = true ↔ NoDup ms.*1 ∧ Forall (λ m, distinct_keys m.2 = true) ms.
Proof. cbn [distinct_keys]. by rewrite andb_true_iff, bool_decide_eq_true, forallb_spec. Qed.

Lemma text_of_sort_keys v : distinct_keys v = true → text_of (sort_keys v) = text_of v.
Proof.
  induction v as [|b|s|t|items IH|ms IH|] using JsonValue_nested_ind; intros Hd; try done.
  - cbn [distinct_keys] in Hd. rewrite forallb_spec in Hd. cbn [sort_keys text_of].
    rewrite <- list_fmap_compose. do 3 f_equal. apply list_fmap_ext. intros i v Hi.
    rewrite Forall_forall in IH, Hd. apply IH; [|apply Hd]; by eapply list_elem_of_lookup_2.
  - apply distinct_object in Hd as [Hnd Hd]. cbn [sort_keys text_of]. do 4 f_equal.
    rewrite (sorted_items_fmap sort_keys), (sorted_items_fmap text_of), (sorted_items_fmap text_of).
    rewrite (sorted_items_order _ ((λ m, (m.1, sort_keys m.2)) <$> ms))
      by (rewrite ?keys_fmap, ?sorted_items_perm by done; done).
    rewrite (sorted_items_fmap sort_keys), <- list_fmap_compose. apply list_fmap_ext.
    intros i m Hi. cbn. f_equal. rewrite Forall_forall in IH, Hd.
    assert (m ∈ ms) as Hin by (rewrite <- (sorted_items_perm ms) by done; by eapply list_elem_of_lookup_2).
    by apply IH, Hd.
Qed.

Lemma Forall2_elem {A} (P : A → A → Prop) l1 l2 x y :
  Forall2 P l1 l2 → (x, y) ∈ zip l1 l2 → x ∈ l1 ∧ y ∈ l2 ∧ P x y.
Proof.
  induction 1 as [|x' y' l1 l2 H _ IH]; [by intros ?%elem_of_nil|]. cbn [zip zip_with].
  intros [[= -> ->]|Hin]%elem_of_cons; [split; [left|split; [left|done]]|].
  destruct (IH Hin) as (? & ? & ?). split; [by right|]. split; [by right|done].
Qed.

(** [f] agrees on related elements of two lists with property [Q]. *)
Lemma Forall2_fmap_iff {A B} (Q : A → Prop) (P : A → A → Prop) (f : A → B) l1 l2 :
  Forall Q l1 → Forall Q l2 →
  Forall (λ x, ∀ y, Q x → Q y → P x y ↔ f x = f y) l1 →
  Forall2 P l1 l2 ↔ f <$> l1 = f <$> l2.
Proof.
  intros H1. revert l2. induction H1 as [|x l1 Hx _ IH]; intros l2 H2 HP.
  - split; [by inversion 1|]. by destruct l2; [constructor|].
  - apply Forall_cons in HP as [Hfx HP]. split.
    + inversion 1 as [|? y ? l2' Hxy Hl]; subst. apply Forall_cons in H2 as [Hy H2].
      cbn [fmap list_fmap]. f_equal; [by apply Hfx|by apply IH].
    + destruct l2 as [|y l2]; [done|]. apply Forall_cons in H2 as [Hy H2].
      cbn [fmap list_fmap]. intros [= E El]. constructor; [by apply Hfx|by apply IH].
Qed.

Lemma json_eq_sort_keys v1 : ∀ v2, distinct_keys v1 = true → distinct_keys v2 = true →
  json_eq v1 v2 ↔ sort_keys v1 = sort_keys v2.
Proof.
  induction v1 as [|b|s|t|items IH|ms IH|] using JsonValue_nested_ind; intros v2 Hd1 Hd2.
  1-4,7: (split; [by inversion 1; subst|by destruct v2; intros [=]; subst; apply json_eq_refl]).
  - assert (∀ items2, distinct_keys (JArray items2) = true →
      Forall2 json_eq items items2 ↔ sort_keys <$> items = sort_keys <$> items2) as Hitems.
    { intros items2 Hd. cbn [distinct_keys] in Hd, Hd1. rewrite forallb_spec in Hd, Hd1.
      apply (Forall2_fmap_iff (λ v, distinct_keys v = true)); [done..|].
      eapply Forall_impl; [exact IH|]. intros x Hx y ? ?. by apply Hx. }
    split.
    + inversion 1 as [|? items2 H2|]; subst; [done|]. cbn [sort_keys]. f_equal. by apply Hitems.
    + destruct v2 as [| | | |items2| |]; try done. cbn [sort_keys]. intros [= E].
      apply json_eq_array. by apply Hitems.
  - set (F := λ m : ustring * JsonValue, (m.1, sort_keys m.2)).
    assert (∀ ms1 ms2, ms ≡ₚ ms1 → Forall (λ m : ustring * JsonValue, distinct_keys m.2 = true) ms2 →
      Forall2 (λ m1 m2 : ustring * JsonValue, m1.1 = m2.1 ∧ json_eq m1.2 m2.2) ms1 ms2 ↔ F <$> ms1 = F <$> ms2)
      as Hms.
    { intros ms1 ms2 Hp H2. apply distinct_object in Hd1 as [_ Hd1]. rewrite Hp in Hd1, IH.
      apply (Forall2_fmap_iff (λ m : ustring * JsonValue, distinct_keys m.2 = true)); [done..|].
      eapply Forall_impl; [exact IH|]. intros [k x] Hx [k' y] Hdx Hdy. specialize (Hx y Hdx Hdy).
      unfold F. cbn [fst snd] in *. split; [intros [-> Hj]; f_equal; by apply Hx|].
      intros [= -> E]. split; [done|by apply Hx]. }
    split.
    + inversion 1 as [|? |? ms1 ms2 ms2' Hp1 Hp2 H2]; subst; [done|].
      apply distinct_object in Hd2 as [Hnd2 Hd2]. rewrite Hp2 in Hd2. apply Hms in H2; [|done..].
      cbn [sort_keys]. f_equal. apply sorted_items_order.
      * rewrite keys_fmap. by apply distinct_object in Hd1 as [? _].
      * fold F. by rewrite Hp1, Hp2, H2.
    + destruct v2 as [| | | | |ms2|]; try done. cbn [sort_keys]. intros [= E].
      rewrite !(sorted_items_fmap sort_keys) in E.
      apply distinct_object in Hd2 as [Hnd2 Hd2]. pose proof Hd1 as [Hnd1 _]%distinct_object.
      apply (json_eq_object _ (sorted_items ms) _ (sorted_items ms2)); [by rewrite sorted_items_perm..|].
      apply Hms; [by rewrite sorted_items_perm|by rewrite sorted_items_perm|exact E].
Qed.

Lemma encode_spec (v : JsonValue) (limits : Limits) (t : ustring) :
  distinct_keys v = true →
  encode v limits = Done t ↔
  validate limits = true ∧ t = text_of v ∧ encodable v = true ∧
  utf8_size t <= max_output_bytes limits ∧ Z.of_nat (node_count v) <= max_nodes limits ∧
  Z.of_nat (height v) <= max_depth limits.
Proof.
  intros Hd. unfold encode. destruct (validate limits) eqn:Hv; cbn [negb]; [|by split; [|intros [? _]]].
  unfold validate in Hv. bool_to_prop.
  pose proof (emits_value limits v 1 Hd (mk_writer [] 0 0) ltac:(unfold fits; cbn; lia)) as H3.
  destruct (write_value limits v 1 (mk_writer [] 0 0)) as [w|e|]; cbn [mbind outcome_bind]; [|split; [done|]|done].
  - destruct H3 as ([? ?] & [? ?] & P & S & N). cbn in P, S, N. rewrite P. split.
    + intros [= <-]. intuition lia.
    + by intros (_ & -> & _).
  - intros (_ & -> & ? & ? & ? & ?). exfalso. apply H3. cbn [size written_nodes]. unfold value_ok.
    intuition lia.
Qed.

Lemma json_eq_sorted v : distinct_keys v = true → json_eq v (sort_keys v).
Proof.
  induction v as [|b|s|t|items IH|ms IH|] using JsonValue_nested_ind; intros Hd; try apply json_eq_refl.
  - cbn [sort_keys distinct_keys] in *. rewrite forallb_spec in Hd. apply json_eq_array.
    apply Forall2_fmap_r, Forall_Forall2_diag. eapply Forall_impl; [apply Forall_and; exact (conj IH Hd)|].
    intros v [Hv ?]. by apply Hv.
  - apply distinct_object in Hd as [Hnd Hd]. cbn [sort_keys]. rewrite (sorted_items_fmap sort_keys).
    pose proof (sorted_items_perm ms Hnd) as Hp. rewrite <- Hp in IH. rewrite <- Hp in Hd.
    eapply json_eq_object; [symmetry; exact Hp|reflexivity|].
    apply Forall2_fmap_r, Forall_Forall2_diag. eapply Forall_impl; [apply Forall_and; exact (conj IH Hd)|].
    intros [k v] [Hv ?]. split; [done|]. by apply Hv.
Qed.

(** ** The canonical text is Unicode text *)

Lemma is_text_app s1 s2 : is_text (s1 ++ s2) = is_text s1 && is_text s2.
Proof. apply forallb_app. Qed.

Lemma all_digits_text d : all_digits d → is_text d = true.
Proof.
  intros H. unfold is_text. rewrite forallb_spec. eapply Forall_impl; [exact H|]. intros c Hc. cbn beta in Hc.
  apply is_ascii_digit_spec in Hc. unfold is_char, is_surrogate, in_range.
  apply andb_true_iff. split; [bool_to_prop; lia|]. apply negb_true_iff, andb_false_iff. left. bool_to_prop. lia.
Qed.

Lemma number_is_text t : canonical_number t = Done t → is_text t = true.
Proof.
  intros H. apply canonical_number_inv in H as (n & i & f & e & (x & -> & [Hi _] & Hf & Hx) & _).
  rewrite !is_text_app, (all_digits_text i Hi).
  assert (is_text (fraction_text f) = true) as ->
    by (destruct f as [|d f]; [done|]; exact (all_digits_text (d :: f) Hf)).
  assert (is_text x = true) as ->; [|by destruct n].
  destruct Hx as [|l s negative digits Hl Hs _ Hd]; [done|].
  change (l :: s ++ digits) with ([l] ++ s ++ digits). rewrite !is_text_app, (all_digits_text digits Hd).
  cbn in Hl. rewrite !elem_of_cons, elem_of_nil in Hl.
  destruct negative; rewrite !elem_of_cons, elem_of_nil in Hs; by destruct Hl as [->|[->|[]]], Hs as [->|Hs];
    try (destruct Hs as [->|[]]).
Qed.

Lemma escaped_is_text c : is_char c = true → is_text (escaped c) = true.
Proof.
  intros Hc. assert (is_text [c] = true) as H1 by (cbn; by rewrite Hc).
  unfold escaped. destruct (replacement c) as [r|] eqn:E; [|done].
  destruct (decide (c < 32)) as [Hlt|Hge].
  - assert (0 <= c) by (unfold is_char, in_range in Hc; bool_to_prop; lia).
    assert (Forall (λ c, ∀ r, replacement c = Some r → is_text r = true) (seqZ 0 32)) as Hall
      by (vm_compute seqZ; repeat constructor; by intros ? [= <-]).
    rewrite Forall_forall in Hall. apply (Hall c); [apply elem_of_seqZ; lia|done].
  - unfold replacement in E. repeat case_match; simplify_eq; try done. bool_to_prop. lia.
Qed.

Lemma string_is_text s : is_text s = true → is_text (string_text s) = true.
Proof.
  intros Hs. unfold string_text. change (QUOTE :: ?x) with ([QUOTE] ++ x). rewrite !is_text_app.
  assert (is_text (concat (escaped <$> s)) = true) as ->; [|done].
  induction s as [|c s IH]; [done|]. cbn [fmap list_fmap concat]. cbn [is_text forallb] in Hs.
  apply andb_true_iff in Hs as [Hc Hs]. rewrite is_text_app, escaped_is_text by done. by apply IH.
Qed.

Lemma join_is_text (parts : list ustring) :
  Forall (λ p, is_text p = true) parts → is_text (join (u ",") parts) = true.
Proof.
  destruct 1 as [|p parts Hp Hps]; [done|]. rewrite join_cons, is_text_app, Hp.
  induction Hps as [|q parts Hq _ IH]; [done|]. cbn [fmap list_fmap concat].
  rewrite !is_text_app, Hq. exact IH.
Qed.

Lemma text_of_is_text v : well_formed v = true → is_text (text_of v) = true.
Proof.
  induction v as [|b|s|t|items IH|ms IH|] using JsonValue_nested_ind; intros Hw; try done.
  - by destruct b.
  - by apply string_is_text.
  - apply bool_decide_eq_true in Hw. by apply number_is_text.
  - cbn [well_formed text_of] in *. rewrite forallb_spec in Hw. rewrite !is_text_app, join_is_text; [done|].
    apply Forall_fmap. eapply Forall_impl; [apply Forall_and; exact (conj IH Hw)|]. intros v [Hv ?]. by apply Hv.
  - cbn [well_formed] in Hw. apply andb_true_iff in Hw as [Hnd Hw]. apply bool_decide_eq_true in Hnd.
    rewrite forallb_spec in Hw. rewrite object_text.
    change (ch "{" :: ?x) with (u "{" ++ x). rewrite !is_text_app, join_is_text; [done|].
    apply Forall_fmap. rewrite (sorted_items_perm ms Hnd).
    eapply Forall_impl; [apply Forall_and; exact (conj IH Hw)|]. intros [k v] [Hv Hk]. cbn [fst snd] in *.
    apply andb_true_iff in Hk as [Hk Hwv]. change (is_text (string_text k ++ u ":" ++ text_of v) = true).
    rewrite !is_text_app, string_is_text by done. by rewrite Hv.
Qed.

(** * The codec *)

(** decoding is total and its result respects the limits.  On every text the
parser returns a value or a [DataError] at an offset inside the text; a decoded
value has Unicode strings, canonical numbers and distinct keys, and the limits
on input bytes, nodes and depth hold of it. *)
Theorem decode_sound (text : ustring) (limits : Limits) :
  forallb (in_range 0 1114111) text = true →
  decode text limits ≠ NoFuel ∧
  (∀ v, decode text limits = Done v →
    well_formed v = true ∧ Z.of_nat (height v) <= max_depth limits ∧
    Z.of_nat (node_count v) <= max_nodes limits ∧ utf8_size text <= max_input_bytes limits) ∧
  (∀ p offset, decode text limits = Raise (DataError p offset) → 0 <= offset <= utf8_size text).
Proof.
  intros Ht. unfold decode. destruct (validate limits); cbn [negb]; [|done].
  destruct (surrogate_index text) as [i|] eqn:Es.
  - split; [done|]. split; [done|]. intros p offset [= <- <-]. clear Ht.
    revert i Es. induction text as [|c s IH]; intros i; cbn [surrogate_index utf8_size]; [done|].
    pose proof (char_bytes_pos c). pose proof (utf8_size_nonneg s).
    destruct (is_surrogate c); [by intros [= <-]; lia|].
    destruct (surrogate_index s); cbn; [|done]. intros [= <-]. specialize (IH _ eq_refl). lia.
  - destruct (Z.ltb_spec (max_input_bytes limits) (utf8_size text)) as [Hm|Hm].
    { split; [done|]. split; [done|]. intros p offset [= <- <-]. pose proof (utf8_size_nonneg text). lia. }
    assert (is_text text = true) as Htext.
    { apply surrogate_index_none in Es. unfold is_text, no_surrogate in *. rewrite forallb_spec in *.
      eapply Forall_impl; [apply Forall_and; exact (conj Ht Es)|]. intros c [H1 H2].
      unfold is_char. by rewrite H1, H2. }
    pose proof (parse_sound limits text Htext (2 * length text + 2) ltac:(lia)) as H.
    destruct (parse _ _ _ _) as [v|[p offset|]|]; cbn [ensures] in H; [| |done|done].
    + split; [done|]. split; [|done]. intros ? [= <-]. intuition lia.
    + split; [done|]. split; [done|]. by intros ? ? [= <- <-].
Qed.

Lemma decode_sound_witness :
  decode (u "{'a': 1}") DEFAULT_LIMITS ≠ NoFuel ∧ decode (u "[1.50, true]") DEFAULT_LIMITS ≠ NoFuel.
Proof.
  split.
  - refine (proj1 (decode_sound (u "{'a': 1}") DEFAULT_LIMITS _)). by vm_compute.
  - refine (proj1 (decode_sound (u "[1.50, true]") DEFAULT_LIMITS _)). by vm_compute.
Defined.

(** encoding is exact.  [encode] succeeds exactly when every string is UTF-8
encodable, every value is a data/v1 value and the limits on depth, nodes and
output bytes hold, and the text it returns is the canonical text of the value:
no space, keys in order, the number texts as they are. *)
Theorem encode_exact (v : JsonValue) (limits : Limits) (t : ustring) :
  distinct_keys v = true →
  encode v limits = Done t ↔
  validate limits = true ∧ t = text_of v ∧ encodable v = true ∧
  utf8_size t <= max_output_bytes limits ∧ Z.of_nat (node_count v) <= max_nodes limits ∧
  Z.of_nat (height v) <= max_depth limits.
Proof. apply encode_spec. Qed.

Definition sample_value : JsonValue :=
  JObject [(u "b", JArray [JNumber (u "1.5"); JNull]); (u "a", JString (u "x"))].

Lemma encode_exact_witness :
  distinct_keys sample_value = true ∧ encode sample_value DEFAULT_LIMITS = Done (text_of sample_value).
Proof.
  split; [done|]. apply (encode_exact sample_value DEFAULT_LIMITS (text_of sample_value)); [done|].
  vm_compute. repeat split; done.
Defined.

(** C28: decoding inverts encoding.  The text of a well-formed value decodes, under
limits it satisfies, to the same value with the members of every object in key
order; that value is equal to the encoded one. *)
Theorem decode_encode (v : JsonValue) (limits : Limits) (t : ustring) :
  well_formed v = true → encode v limits = Done t → utf8_size t <= max_input_bytes limits →
  decode t limits = Done (sort_keys v) ∧ json_eq v (sort_keys v).
Proof.
  intros Hw He Hsize. destruct (well_formed_encodable v Hw) as [_ Hd]. split; [|by apply json_eq_sorted].
  apply encode_spec in He as (Hv & -> & _ & _ & Hn & Hh); [|done].
  unfold decode. rewrite Hv. cbn [negb].
  rewrite (proj2 (surrogate_index_none _) (is_text_no_surrogate _ (text_of_is_text v Hw))).
  destruct (Z.ltb_spec (max_input_bytes limits) (utf8_size (text_of v))); [lia|]. unfold parse.
  destruct (text_of_head v Hw) as (c & s & E & Hc).
  assert (_skip_space (text_of v) = text_of v) as -> by (rewrite E; by apply value_head_space).
  pose proof (value_runs limits (utf8_size (text_of v)) v (2 * length (text_of v) + 2)%nat 1 0 []) as H1.
  rewrite app_nil_r in H1. rewrite H1; [done|done|lia|lia|done|lia].
Qed.

Lemma decode_encode_witness :
  decode (text_of sample_value) DEFAULT_LIMITS = Done (sort_keys sample_value).
Proof.
  apply (decode_encode sample_value DEFAULT_LIMITS (text_of sample_value)); vm_compute; done.
Defined.

(** The encoding is canonical.  Two well-formed values have the same text
exactly when they are equal, dictionaries being equal when they have equal
members in any order. *)
Theorem encode_canonical (v1 v2 : JsonValue) (limits1 limits2 : Limits) (t1 t2 : ustring) :
  well_formed v1 = true → well_formed v2 = true →
  encode v1 limits1 = Done t1 → encode v2 limits2 = Done t2 →
  t1 = t2 ↔ json_eq v1 v2.
Proof.
  intros Hw1 Hw2 He1 He2.
  destruct (well_formed_encodable v1 Hw1) as [_ Hd1], (well_formed_encodable v2 Hw2) as [_ Hd2].
  apply encode_spec in He1 as (_ & -> & _); [|done]. apply encode_spec in He2 as (_ & -> & _); [|done].
  rewrite json_eq_sort_keys by done. split.
  - intros E.
    set (limits := mk_limits 0 0 (Z.of_nat (node_count v1 + node_count v2)) (Z.of_nat (height v1 + height v2))).
    pose proof (value_runs limits 0 v1 (2 * length (text_of v1) + 1)%nat 1 0 [] Hw1) as R1.
    pose proof (value_runs limits 0 v2 (2 * length (text_of v1) + 1)%nat 1 0 [] Hw2) as R2.
    rewrite <- E in R2. cbn [max_depth max_nodes limits] in R1, R2.
    rewrite R1 in R2 by (done || lia). injection (R2 ltac:(lia) ltac:(lia) I ltac:(lia)). done.
  - intros E. by rewrite <- (text_of_sort_keys v1), <- (text_of_sort_keys v2), E.
Qed.

Lemma encode_canonical_witness :
  text_of sample_value = text_of (sort_keys sample_value) ↔ json_eq sample_value (sort_keys sample_value).
Proof.
  apply (encode_canonical sample_value (sort_keys sample_value) DEFAULT_LIMITS DEFAULT_LIMITS); vm_compute; done.
Defined.
