(* ===== verification/Mir.v ===== *)
(** The mid-level intermediate representation: the nodes of
[src/koschei/mir_ir.py] and [src/koschei/mir_extension_instructions_v4.py], the
registry of [src/koschei/mir_instruction_registry_v4.py], and the validator
[validate_blocks] with the variant proofs of
[src/koschei/mir_variant_proof_v1.py].

A value of an instruction is an SSA number, a block an integer.  The validator's
dataflow loop takes fuel; [MirProof] shows that [proof_fuel] rounds are enough and
what the validator accepts. *)

From S2P Require Import Prelude TypeSystem Lexer Ast.

(** * Instructions *)

Inductive MirInstruction :=
  | MirConst (target : Z) (value : literal) (type : TypeNode) (l : SourceLocation)
  | MirLoad (target : Z) (name : ustring) (type : TypeNode) (l : SourceLocation)
  | MirBind (name : ustring) (source : Z) (is_mutable : bool) (type : TypeNode) (l : SourceLocation)
  | MirStore (name : ustring) (source : Z) (type : TypeNode) (l : SourceLocation)
  | MirUnary (target : Z) (operator : ustring) (operand : Z) (type : TypeNode) (l : SourceLocation)
  | MirBinary (target : Z) (operator : ustring) (left right : Z) (type : TypeNode) (l : SourceLocation)
  | MirList (target : Z) (items : list Z) (type : TypeNode) (l : SourceLocation)
  | MirIterInit (target iterable : Z) (type : TypeNode) (l : SourceLocation)
  | MirIterHasNext (target iterator : Z) (type : TypeNode) (l : SourceLocation)
  | MirIterNext (target iterator : Z) (type : TypeNode) (l : SourceLocation)
  | MirMember (target object : Z) (member : ustring) (type : TypeNode) (l : SourceLocation)
  | MirCall (target callee : Z) (arguments : list Z) (type : TypeNode) (l : SourceLocation)
  | MirAstFallback (target : option Z) (node_kind : ustring) (type : TypeNode) (l : SourceLocation)
  | MirUnit (target : Z) (type : TypeNode) (l : SourceLocation)
  | MirFallibleIsSuccess (target source : Z) (type : TypeNode) (l : SourceLocation)
  | MirFalliblePayload (target source : Z) (type : TypeNode) (l : SourceLocation)
  | MirInterpolate (target : Z) (items : list Z) (type : TypeNode) (l : SourceLocation)
  | MirIsRuntimeError (target source : Z) (type : TypeNode) (l : SourceLocation)
  | MirVariantConstruct (target : Z) (variant : ustring) (source : option Z) (type : TypeNode) (l : SourceLocation)
  | MirVariantIs (target source : Z) (variant : ustring) (type : TypeNode) (l : SourceLocation)
  | MirVariantPayload (target source : Z) (variant : ustring) (type : TypeNode) (l : SourceLocation)
  | MirCapabilityCall (target object : Z) (arguments : list Z)
      (capability_type method canonical_effect power_domain : ustring) (type : TypeNode) (l : SourceLocation)
  | MirMapNew (target : Z) (type : TypeNode) (l : SourceLocation)
  | MirMapInsert (object key value : Z) (type : TypeNode) (l : SourceLocation)
  | MirMapFinish (target source : Z) (type : TypeNode) (l : SourceLocation)
  | MirMapGet (target object key : Z) (type : TypeNode) (l : SourceLocation)
  | MirMapSet (target object key value : Z) (type : TypeNode) (l : SourceLocation)
  | MirMapKeys (target object : Z) (type : TypeNode) (l : SourceLocation)
  | MirMapContains (target object key : Z) (type : TypeNode) (l : SourceLocation)
  | MirStructNew (target : Z) (type_name : ustring) (required_fields : list ustring)
      (type : TypeNode) (l : SourceLocation)
  | MirStructSet (object : Z) (field : ustring) (source : Z) (type : TypeNode) (l : SourceLocation)
  | MirStructFinish (target source : Z) (type : TypeNode) (l : SourceLocation)
  | MirStructFieldSet (target object : Z) (field : ustring) (source : Z) (type : TypeNode) (l : SourceLocation)
  (** An object of a class outside the registry, with the attributes the validator reads. *)
  | Unregistered (class_name : ustring) (target : option Z) (used : list Z) (l : SourceLocation).

Inductive MirTerminator :=
  | MirReturn (value : option Z)
  | MirJump (target : Z)
  | MirBranch (condition then_block else_block : Z)
  | MirUnreachable (reason : ustring).

Record MirBasicBlock := mk_mir_block {
  id : Z;
  instructions : list MirInstruction;
  terminator : MirTerminator;
}.

(** [getattr(instruction, "target", None)]. *)
Definition target_of (i : MirInstruction) : option Z :=
  match i with
  | MirConst t _ _ _ | MirLoad t _ _ _ | MirUnary t _ _ _ _ | MirBinary t _ _ _ _ _ | MirList t _ _ _
  | MirIterInit t _ _ _ | MirIterHasNext t _ _ _ | MirIterNext t _ _ _ | MirMember t _ _ _ _
  | MirCall t _ _ _ _ | MirUnit t _ _ | MirFallibleIsSuccess t _ _ _ | MirFalliblePayload t _ _ _
  | MirInterpolate t _ _ _ | MirIsRuntimeError t _ _ _ | MirVariantConstruct t _ _ _ _
  | MirVariantIs t _ _ _ _ | MirVariantPayload t _ _ _ _ | MirCapabilityCall t _ _ _ _ _ _ _ _
  | MirMapNew t _ _ | MirMapFinish t _ _ _ | MirMapGet t _ _ _ _ | MirMapSet t _ _ _ _ _
  | MirMapKeys t _ _ _ | MirMapContains t _ _ _ _ | MirStructNew t _ _ _ _ | MirStructFinish t _ _ _
  | MirStructFieldSet t _ _ _ _ _ => Some t
  | MirBind _ _ _ _ _ | MirStore _ _ _ _ | MirMapInsert _ _ _ _ _ | MirStructSet _ _ _ _ _ => None
  | MirAstFallback t _ _ _ | Unregistered _ t _ _ => t
  end.

(** The attributes [source], [operand], [left], [right], [object], [callee],
[iterable], [iterator], [arguments] and [items] that are integers. *)
Definition uses_of (i : MirInstruction) : list Z :=
  match i with
  | MirBind _ s _ _ _ | MirStore _ s _ _ | MirFallibleIsSuccess _ s _ _ | MirFalliblePayload _ s _ _
  | MirIsRuntimeError _ s _ _ | MirVariantIs _ s _ _ _ | MirVariantPayload _ s _ _ _
  | MirMapFinish _ s _ _ | MirStructFinish _ s _ _ => [s]
  | MirVariantConstruct _ _ s _ _ => match s with Some s => [s] | None => [] end
  | MirUnary _ _ operand _ _ => [operand]
  | MirBinary _ _ lhs rhs _ _ => [lhs; rhs]
  | MirIterInit _ iterable _ _ => [iterable]
  | MirIterHasNext _ iterator _ _ | MirIterNext _ iterator _ _ => [iterator]
  | MirMember _ object _ _ _ | MirMapGet _ object _ _ _ | MirMapSet _ object _ _ _ _
  | MirMapKeys _ object _ _ | MirMapContains _ object _ _ _ => [object]
  | MirCall _ callee arguments _ _ => callee :: arguments
  | MirCapabilityCall _ object arguments _ _ _ _ _ _ => object :: arguments
  | MirMapInsert object key value _ _ => [object; key; value]
  | MirStructSet object _ source _ _ | MirStructFieldSet _ object _ source _ _ => [source; object]
  | MirList _ items _ _ | MirInterpolate _ items _ _ => items
  | Unregistered _ _ used _ => used
  | MirConst _ _ _ _ | MirLoad _ _ _ _ | MirAstFallback _ _ _ _ | MirUnit _ _ _ | MirMapNew _ _ _
  | MirStructNew _ _ _ _ _ => []
  end.

(** [type(instruction).__name__]. *)
Definition class_name (i : MirInstruction) : ustring :=
  match i with
  | MirConst _ _ _ _ => u "MirConst" | MirLoad _ _ _ _ => u "MirLoad" | MirBind _ _ _ _ _ => u "MirBind"
  | MirStore _ _ _ _ => u "MirStore" | MirUnary _ _ _ _ _ => u "MirUnary"
  | MirBinary _ _ _ _ _ _ => u "MirBinary" | MirList _ _ _ _ => u "MirList"
  | MirIterInit _ _ _ _ => u "MirIterInit" | MirIterHasNext _ _ _ _ => u "MirIterHasNext"
  | MirIterNext _ _ _ _ => u "MirIterNext" | MirMember _ _ _ _ _ => u "MirMember"
  | MirCall _ _ _ _ _ => u "MirCall" | MirAstFallback _ _ _ _ => u "MirAstFallback"
  | MirUnit _ _ _ => u "MirUnit" | MirFallibleIsSuccess _ _ _ _ => u "MirFallibleIsSuccess"
  | MirFalliblePayload _ _ _ _ => u "MirFalliblePayload" | MirInterpolate _ _ _ _ => u "MirInterpolate"
  | MirIsRuntimeError _ _ _ _ => u "MirIsRuntimeError"
  | MirVariantConstruct _ _ _ _ _ => u "MirVariantConstruct" | MirVariantIs _ _ _ _ _ => u "MirVariantIs"
  | MirVariantPayload _ _ _ _ _ => u "MirVariantPayload"
  | MirCapabilityCall _ _ _ _ _ _ _ _ _ => u "MirCapabilityCall"
  | MirMapNew _ _ _ => u "MirMapNew" | MirMapInsert _ _ _ _ _ => u "MirMapInsert"
  | MirMapFinish _ _ _ _ => u "MirMapFinish" | MirMapGet _ _ _ _ _ => u "MirMapGet"
  | MirMapSet _ _ _ _ _ _ => u "MirMapSet" | MirMapKeys _ _ _ _ => u "MirMapKeys"
  | MirMapContains _ _ _ _ _ => u "MirMapContains" | MirStructNew _ _ _ _ _ => u "MirStructNew"
  | MirStructSet _ _ _ _ _ => u "MirStructSet" | MirStructFinish _ _ _ _ => u "MirStructFinish"
  | MirStructFieldSet _ _ _ _ _ _ => u "MirStructFieldSet"
  | Unregistered name _ _ _ => name
  end.

(** [instruction_kind] and [terminator_kind]. *)
Definition removeprefix (prefix s : ustring) : ustring :=
  if starts_with prefix s then drop (length prefix) s else s.

(** [str.lower] of ASCII text. *)
Definition ascii_lower (s : ustring) : ustring :=
  (λ c, if in_range 65 90 c then c + 32 else c) <$> s.

Definition instruction_kind (i : MirInstruction) : ustring :=
  ascii_lower (removeprefix (u "Mir") (class_name i)).

Definition terminator_kind (t : MirTerminator) : ustring :=
  match t with
  | MirReturn _ => u "return" | MirJump _ => u "jump"
  | MirBranch _ _ _ => u "branch" | MirUnreachable _ => u "unreachable"
  end.

(** * The registry *)

Definition MIR_V4_CORE_INSTRUCTION_TYPES : list ustring :=
  [u "MirConst"; u "MirLoad"; u "MirBind"; u "MirStore"; u "MirUnary"; u "MirBinary"; u "MirList";
   u "MirIterInit"; u "MirIterHasNext"; u "MirIterNext"; u "MirMember"; u "MirCall"; u "MirAstFallback"].

Definition MIR_V4_EXTENSION_INSTRUCTION_TYPES : list ustring :=
  [u "MirUnit"; u "MirFallibleIsSuccess"; u "MirFalliblePayload"; u "MirInterpolate";
   u "MirIsRuntimeError"; u "MirVariantConstruct"; u "MirVariantIs"; u "MirVariantPayload";
   u "MirCapabilityCall"; u "MirMapNew"; u "MirMapInsert"; u "MirMapFinish"; u "MirMapGet";
   u "MirMapSet"; u "MirMapKeys"; u "MirMapContains"; u "MirStructNew"; u "MirStructSet";
   u "MirStructFinish"; u "MirStructFieldSet"].

(** Membership is by class object, so a foreign class is outside the registry
whatever its name. *)
Definition is_mir_v4_instruction (i : MirInstruction) : bool :=
  match i with
  | Unregistered _ _ _ _ => false
  | _ => bool_decide (class_name i ∈ MIR_V4_CORE_INSTRUCTION_TYPES ++ MIR_V4_EXTENSION_INSTRUCTION_TYPES)
  end.

Definition is_mir_v4_extension_instruction (i : MirInstruction) : bool :=
  match i with
  | Unregistered _ _ _ _ => false
  | _ => bool_decide (class_name i ∈ MIR_V4_EXTENSION_INSTRUCTION_TYPES)
  end.

(** * The validator *)

(** The messages of the [ValueError]s. *)
Inductive mir_error :=
  | StartBlock
  | DuplicateIds
  | DefinedTwice (value : Z)
  | UnknownJump (target : Z)
  | UnknownBranch
  | UndefinedValues (missing : list Z)
  | ProofBlockZero
  | UnregisteredClass (name : ustring)
  | NonCanonicalIdentity
  | ProofUnknownBlock (target : Z)
  | PayloadUnproven (source : Z) (variant : ustring).

Abbreviation mir_result A := (outcome mir_error A).

(** ** Definitions, uses and targets *)

Definition collect (st : gset Z * gset Z) (i : MirInstruction) : mir_result (gset Z * gset Z) :=
  let '(definitions, uses) := st in
  definitions ←
    match target_of i with
    | None => Done definitions
    | Some target =>
        if decide (target ∈ definitions) then Raise (DefinedTwice target)
        else Done ({[target]} ∪ definitions)
    end;
  Done (definitions, uses ∪ list_to_set (uses_of i)).

Definition check_terminator (ids : gset Z) (st : gset Z * gset Z) (t : MirTerminator)
    : mir_result (gset Z * gset Z) :=
  let '(definitions, uses) := st in
  match t with
  | MirJump target =>
      if decide (target ∈ ids) then Done st else Raise (UnknownJump target)
  | MirBranch condition then_block else_block =>
      if decide (then_block ∈ ids ∧ else_block ∈ ids) then Done (definitions, uses ∪ {[condition]})
      else Raise UnknownBranch
  | MirReturn (Some value) => Done (definitions, uses ∪ {[value]})
  | MirReturn None | MirUnreachable _ => Done st
  end.

Definition collect_block (ids : gset Z) (st : gset Z * gset Z) (b : MirBasicBlock)
    : mir_result (gset Z * gset Z) :=
  st ← outcome_fold collect st (instructions b);
  check_terminator ids st (terminator b).

(** ** Variant proofs *)

(** A [VariantProofV1]: the SSA value and the variant identity it is known to have. *)
Abbreviation proof := (Z * ustring)%type.

(** [value.partition("::")], when the separator occurs. *)
Fixpoint partition_colons (s : ustring) : option (ustring * ustring) :=
  match s with
  | [] => None
  | c :: s' =>
      if starts_with (u "::") s then Some ([], drop 1 s')
      else '(before, after) ← partition_colons s'; Some (c :: before, after)
  end.

Definition _canonical_variant_identity (value : ustring) : bool :=
  match partition_colons value with
  | Some (owner, variant) =>
      bool_decide (owner ≠ []) && bool_decide (variant ≠ []) && bool_decide (partition_colons variant = None)
  | None => false
  end.

Definition _require_exact_registry_v4 (blocks : list MirBasicBlock) : mir_result () :=
  match List.find (λ i, negb (is_mir_v4_instruction i)) (concat (instructions <$> blocks)) with
  | Some i => Raise (UnregisteredClass (class_name i))
  | None => Done ()
  end.

(** The variant identity of an instruction that has one. *)
Definition variant_of (i : MirInstruction) : option ustring :=
  match i with
  | MirVariantConstruct _ v _ _ _ | MirVariantIs _ _ v _ _ | MirVariantPayload _ _ v _ _ => Some v
  | _ => None
  end.

(** The tests so far, by target: the block, the value and the variant. *)
Abbreviation tests_map := (gmap Z (Z * proof)).

Definition variant_test (b : Z) (tests : tests_map) (i : MirInstruction) : mir_result tests_map :=
  match variant_of i with
  | Some v =>
      if negb (_canonical_variant_identity v) then Raise NonCanonicalIdentity
      else
        Done (match i with
              | MirVariantIs target source variant _ _ => <[target := (b, (source, variant))]> tests
              | _ => tests
              end)
  | None => Done tests
  end.

Definition _variant_tests (blocks : list MirBasicBlock) : mir_result tests_map :=
  outcome_fold (λ tests b, outcome_fold (variant_test (id b)) tests (instructions b)) ∅ blocks.

(** The facts that leave a block along each edge. *)
Definition edge_facts (tests : tests_map) (b : MirBasicBlock) (facts : gset proof) : list (Z * gset proof) :=
  match terminator b with
  | MirBranch condition then_block else_block =>
      let positive :=
        match tests !! condition with
        | Some (tested, p) => if decide (tested = id b) then Some p else None
        | None => None
        end in
      match positive with
      | None => [(then_block, facts); (else_block, facts)]
      | Some p => [(then_block, {[p]} ∪ facts); (else_block, facts)]
      end
  | MirJump target => [(target, facts)]
  | MirReturn _ | MirUnreachable _ => []
  end.

(** [incoming]: [Some None] is a block that no edge has reached yet. *)
Abbreviation incoming_map := (gmap Z (option (gset proof))).

Definition merge_edge (st : incoming_map * bool) (edge : Z * gset proof) : mir_result (incoming_map * bool) :=
  let '(target, candidate) := edge in
  match st.1 !! target with
  | None => Raise (ProofUnknownBlock target)
  | Some current =>
      let merged := match current with None => candidate | Some facts => facts ∩ candidate end in
      if decide (Some merged = current) then Done st else Done (<[target := Some merged]> st.1, true)
  end.

Definition propagate_block (tests : tests_map) (st : incoming_map * bool) (b : MirBasicBlock)
    : mir_result (incoming_map * bool) :=
  match st.1 !! id b with
  | Some (Some facts) => outcome_fold merge_edge st (edge_facts tests b facts)
  | Some None | None => Done st
  end.

(** The [while changed] loop. *)
Fixpoint propagate (fuel : nat) (tests : tests_map) (blocks : list MirBasicBlock) (incoming : incoming_map)
    : mir_result incoming_map :=
  match fuel with
  | O => NoFuel
  | S fuel =>
      '(incoming, changed) ← outcome_fold (propagate_block tests) (incoming, false) blocks;
      if changed : bool then propagate fuel tests blocks incoming else Done incoming
  end.

Definition initial_incoming (blocks : list MirBasicBlock) : incoming_map :=
  <[0 := Some ∅]> (list_to_map ((λ b, (id b, None)) <$> blocks)).

(** Every round but the last shrinks the facts of a block. *)
Definition proof_fuel (tests : tests_map) (blocks : list MirBasicBlock) : nat :=
  length blocks * S (size tests) + 1.

Definition check_payload (facts : gset proof) (_ : ()) (i : MirInstruction) : mir_result () :=
  match i with
  | MirVariantPayload _ source variant _ _ =>
      if decide ((source, variant) ∈ facts) then Done () else Raise (PayloadUnproven source variant)
  | _ => Done ()
  end.

Definition check_payloads (incoming : incoming_map) (_ : ()) (b : MirBasicBlock) : mir_result () :=
  let facts := default ∅ (mjoin (incoming !! id b)) in
  outcome_fold (check_payload facts) () (instructions b).

Definition validate_variant_proofs_v1 (blocks : list MirBasicBlock) : mir_result () :=
  if bool_decide (blocks = []) then Raise ProofBlockZero
  else
    _ ← _require_exact_registry_v4 blocks;
    if negb (bool_decide (0 ∈ id <$> blocks)) then Raise ProofBlockZero
    else
      tests ← _variant_tests blocks;
      incoming ← propagate (proof_fuel tests blocks) tests blocks (initial_incoming blocks);
      outcome_fold (check_payloads incoming) () blocks.

Definition validate_blocks (blocks : list MirBasicBlock) : mir_result () :=
  match blocks with
  | [] => Raise StartBlock
  | b :: _ =>
      if negb (id b =? 0) then Raise StartBlock
      else
        let ids : gset Z := list_to_set (id <$> blocks) in
        if negb (bool_decide (size ids = length blocks)) then Raise DuplicateIds
        else
          '(definitions, uses) ← outcome_fold (collect_block ids) (∅, ∅) blocks;
          let missing := uses ∖ definitions in
          if decide (missing = ∅) then validate_variant_proofs_v1 blocks
          else Raise (UndefinedValues (merge_sort Z.le (elements missing)))
  end.
