(* ===== verification/MirProof.v ===== *)
(** What [validate_blocks] of Mir.v accepts: single assignment, defined uses,
known successors, registered instructions, canonical variant identities, and a
variant proof on every path to a payload extraction.  [reaches] gives the facts
of one path of the control-flow graph; the section [dataflow] shows that the
validator's loop stops and computes their intersection over all paths. *)

From S2P Require Import Prelude TypeSystem Lexer Ast Mir.

(** * What the validator accepts *)

(** ** Single assignment *)

Definition targets (b : MirBasicBlock) : list Z := omap target_of (instructions b).

Definition terminator_uses (t : MirTerminator) : list Z :=
  match t with
  | MirReturn (Some v) => [v]
  | MirBranch c _ _ => [c]
  | _ => []
  end.

Definition block_uses (b : MirBasicBlock) : list Z :=
  concat (uses_of <$> instructions b) ++ terminator_uses (terminator b).

Definition successors (t : MirTerminator) : list Z :=
  match t with MirJump t => [t] | MirBranch _ t e => [t; e] | _ => [] end.

Lemma union_swap (X Y Z : gset Z) : X ∪ (Y ∪ Z) = (Y ∪ X) ∪ Z.
Proof. by rewrite (assoc_L (∪)), (comm_L (∪) X). Qed.

Lemma collect_fold ins D U D' U' :
  outcome_fold collect (D, U) ins = Done (D', U') ↔
  NoDup (omap target_of ins) ∧ (∀ t, t ∈ omap target_of ins → t ∉ D) ∧
  D' = list_to_set (omap target_of ins) ∪ D ∧ U' = U ∪ list_to_set (concat (uses_of <$> ins)).
Proof.
  revert D U. induction ins as [|i ins IH]; intros D U; cbn [outcome_fold omap list_omap fmap list_fmap concat].
  - split.
    + intros [= <- <-]. split; [constructor|]. split; [by intros t ?%elem_of_nil|]. set_solver.
    + intros (_ & _ & -> & ->). f_equal. f_equal; set_solver.
  - destruct (target_of i) as [t|] eqn:E; cbn [collect]; rewrite E; cbn [mbind outcome_bind].
    + destruct (decide (t ∈ D)) as [Ht|Ht]; cbn [mbind outcome_bind].
      * split; [done|]. intros (_ & Hd & _). exfalso. apply (Hd t); [left|done].
      * rewrite IH, NoDup_cons, list_to_set_app_L. split.
        -- intros (Hnd & Hd & -> & ->). split; [split; [|done]|].
           { intros Hin. apply (Hd t Hin). set_solver. }
           split; [|set_solver]. intros t' [->|Ht']%elem_of_cons; [done|]. specialize (Hd t' Ht'). set_solver.
        -- intros ([Hn Hnd] & Hd & -> & ->). split; [done|].
           split; [|by rewrite list_to_set_cons, union_swap, (assoc_L (∪))].
           intros t' Ht' [->%elem_of_singleton|Hin]%elem_of_union; [done|]. apply (Hd t'); [by right|done].
    + by rewrite IH, list_to_set_app_L, (assoc_L (∪)).
Qed.

Lemma check_terminator_spec ids D U t D' U' :
  check_terminator ids (D, U) t = Done (D', U') ↔
  (∀ s, s ∈ successors t → s ∈ ids) ∧ D' = D ∧ U' = U ∪ list_to_set (terminator_uses t).
Proof.
  destruct t as [[v|]|target|c t e|r]; cbn [check_terminator successors terminator_uses].
  - split; [intros [= <- <-]; set_solver|intros (_ & -> & ->); do 2 f_equal; set_solver].
  - split; [intros [= <- <-]; set_solver|intros (_ & -> & ->); do 2 f_equal; set_solver].
  - case_decide.
    + split; [intros [= <- <-]; set_solver|intros (_ & -> & ->); do 2 f_equal; set_solver].
    + split; [done|]. intros [Hs _]. set_solver.
  - case_decide.
    + split; [intros [= <- <-]; set_solver|intros (_ & -> & ->); do 2 f_equal; set_solver].
    + split; [done|]. intros [Hs _]. set_solver.
  - split; [intros [= <- <-]; set_solver|intros (_ & -> & ->); do 2 f_equal; set_solver].
Qed.

Lemma collect_block_spec ids D U b D' U' :
  collect_block ids (D, U) b = Done (D', U') ↔
  NoDup (targets b) ∧ (∀ t, t ∈ targets b → t ∉ D) ∧ (∀ s, s ∈ successors (terminator b) → s ∈ ids) ∧
  D' = list_to_set (targets b) ∪ D ∧ U' = U ∪ list_to_set (block_uses b).
Proof.
  unfold collect_block, targets, block_uses. rewrite list_to_set_app_L. split.
  - destruct (outcome_fold collect (D, U) (instructions b)) as [[D1 U1]| |] eqn:E; cbn; [|done..].
    apply collect_fold in E as (Hnd & Hd & -> & ->). intros (Hs & -> & ->)%check_terminator_spec. set_solver.
  - intros (Hnd & Hd & Hs & -> & ->).
    assert (outcome_fold collect (D, U) (instructions b) =
      Done (list_to_set (omap target_of (instructions b)) ∪ D, U ∪ list_to_set (concat (uses_of <$> instructions b))))
      as -> by (by apply collect_fold).
    cbn. apply check_terminator_spec. set_solver.
Qed.

Lemma collect_blocks_spec ids bs : ∀ D U D' U',
  outcome_fold (collect_block ids) (D, U) bs = Done (D', U') ↔
  NoDup (concat (targets <$> bs)) ∧ (∀ t, t ∈ concat (targets <$> bs) → t ∉ D) ∧
  (∀ b s, b ∈ bs → s ∈ successors (terminator b) → s ∈ ids) ∧
  D' = list_to_set (concat (targets <$> bs)) ∪ D ∧ U' = U ∪ list_to_set (concat (block_uses <$> bs)).
Proof.
  induction bs as [|b bs IH]; intros D U D' U'; cbn [outcome_fold fmap list_fmap concat].
  - split.
    + intros [= <- <-]. split; [constructor|]. set_solver.
    + intros (_ & _ & _ & -> & ->). f_equal. f_equal; set_solver.
  - rewrite !list_to_set_app_L, NoDup_app. split.
    + destruct (collect_block ids (D, U) b) as [[D1 U1]| |] eqn:E; cbn; [|done..].
      apply collect_block_spec in E as (Hnd & Hd & Hs & -> & ->).
      intros (Hnds & Hds & Hss & -> & ->)%IH. split; [split; [done|split; [|done]]|].
      { intros t Ht Hts. apply (Hds t Hts). set_solver. }
      split; [|split; [|by rewrite union_swap, (assoc_L (∪))]].
      * intros t [Ht|Ht]%elem_of_app; [by apply Hd|]. specialize (Hds t Ht). set_solver.
      * intros b' s [->|Hb]%elem_of_cons; [apply Hs|by apply Hss].
    + intros ((Hnd & Hdis & Hnds) & Hd & Hs & -> & ->).
      assert (collect_block ids (D, U) b = Done (list_to_set (targets b) ∪ D, U ∪ list_to_set (block_uses b))) as ->.
      { apply collect_block_spec. split; [done|]. split; [|split; [|done]].
        - intros t Ht. apply Hd. apply elem_of_app. by left.
        - intros s Hin. apply (Hs b); [left|done]. }
      cbn. apply IH. split; [done|]. split; [|split; [|by rewrite union_swap, (assoc_L (∪))]].
      * intros t Ht [Hin%elem_of_list_to_set|Hin]%elem_of_union; [by apply (Hdis t)|].
        apply (Hd t); [apply elem_of_app; by right|done].
      * intros b' s Hb. apply Hs. by right.
Qed.

Lemma collect_block_no_fuel ids st b : collect_block ids st b ≠ NoFuel.
Proof.
  unfold collect_block.
  assert (outcome_fold collect st (instructions b) ≠ NoFuel) as H.
  { apply outcome_fold_no_fuel. intros [D U] i _. cbn [collect].
    destruct (target_of i); [by case_decide|done]. }
  destruct (outcome_fold collect st (instructions b)) as [[D U]| |]; cbn [mbind outcome_bind]; [|done..].
  destruct (terminator b) as [[v|]|t|c t e|r]; cbn [check_terminator]; try done; by case_decide.
Qed.

Lemma not_collected ids bs e :
  outcome_fold (collect_block ids) (∅, ∅) bs = Raise e →
  NoDup (concat (targets <$> bs)) → (∀ b s, b ∈ bs → s ∈ successors (terminator b) → s ∈ ids) → False.
Proof.
  intros E Hnd Hs.
  assert (outcome_fold (collect_block ids) (∅, ∅) bs =
    Done (list_to_set (concat (targets <$> bs)) ∪ ∅, ∅ ∪ list_to_set (concat (block_uses <$> bs)))) as E'.
  { apply collect_blocks_spec. split; [done|]. split; [|done]. intros t _. apply not_elem_of_empty. }
  by rewrite E in E'.
Qed.

(** ** Variant identities and tests *)

Lemma registry_spec blocks :
  _require_exact_registry_v4 blocks = Done () ↔
  ∀ b i, b ∈ blocks → i ∈ instructions b → is_mir_v4_instruction i = true.
Proof.
  unfold _require_exact_registry_v4. destruct (List.find _ _) as [i|] eqn:E.
  - apply find_some in E as [Hin Hi]. split; [done|]. intros H. exfalso.
    apply list_elem_of_In, elem_of_concat_fmap in Hin as (b & Hb & Hi').
    rewrite (H b i) in Hi; done.
  - split; [|done]. intros _ b i Hb Hi. apply negb_false_iff, (find_none _ _ E).
    apply list_elem_of_In, elem_of_concat_fmap. by exists b.
Qed.

(** Instruction [i] tests, in the block that has it, whether [source] is [variant]. *)
Definition tests_for (i : MirInstruction) (target : Z) (p : proof) : Prop :=
  ∃ t l, i = MirVariantIs target p.1 p.2 t l.

Definition identities_ok (b : MirBasicBlock) : Prop :=
  ∀ i v, i ∈ instructions b → variant_of i = Some v → _canonical_variant_identity v = true.

(** ** Instructions with their block *)

Definition numbered (bs : list MirBasicBlock) : list (MirBasicBlock * MirInstruction) :=
  concat ((λ b, pair b <$> instructions b) <$> bs).

Lemma elem_of_numbered bs b i : (b, i) ∈ numbered bs ↔ b ∈ bs ∧ i ∈ instructions b.
Proof.
  unfold numbered. rewrite elem_of_concat_fmap. split.
  - intros (b' & Hb & (i' & [= -> ->] & Hi)%list_elem_of_fmap). done.
  - intros [Hb Hi]. exists b. split; [done|]. by apply list_elem_of_fmap_2.
Qed.

Lemma outcome_fold_numbered {E S} (f : MirBasicBlock → S → MirInstruction → outcome E S) s bs :
  outcome_fold (λ s b, outcome_fold (f b) s (instructions b)) s bs =
  outcome_fold (λ s bi, f bi.1 s bi.2) s (numbered bs).
Proof.
  revert s. induction bs as [|b bs IH]; intros s; [done|]. unfold numbered. cbn [fmap list_fmap concat outcome_fold].
  rewrite outcome_fold_app, outcome_fold_fmap. cbn [fst snd].
  destruct (outcome_fold (f b) s (instructions b)); cbn; [apply IH|done..].
Qed.

Lemma variant_test_spec b tests i tests' :
  variant_test b tests i = Done tests' ↔
  (∀ v, variant_of i = Some v → _canonical_variant_identity v = true) ∧
  tests' = match i with MirVariantIs t s v _ _ => <[t := (b, (s, v))]> tests | _ => tests end.
Proof.
  unfold variant_test. destruct (variant_of i) as [v|] eqn:E.
  - destruct (_canonical_variant_identity v) eqn:Ev; cbn [negb].
    + split; [intros [= <-]; split; [by intros ? [= <-]|done]|by intros [_ ->]].
    + split; [done|]. intros [H _]. by rewrite (H v) in Ev.
  - split; [intros [= <-]; split; [done|]; by destruct i|]. intros [_ ->]. by destruct i.
Qed.

(** The tests are exactly the [MirVariantIs] instructions; a target that is
defined once has one test. *)
Definition tests_exact (blocks : list MirBasicBlock) (tests : tests_map) : Prop :=
  (∀ c bid p, tests !! c = Some (bid, p) →
    ∃ b i, b ∈ blocks ∧ i ∈ instructions b ∧ id b = bid ∧ tests_for i c p) ∧
  (∀ b i c p, b ∈ blocks → i ∈ instructions b → tests_for i c p → is_Some (tests !! c)).

Lemma variant_tests_spec blocks tests :
  _variant_tests blocks = Done tests →
  tests_exact blocks tests ∧ (∀ b, b ∈ blocks → identities_ok b).
Proof.
  unfold _variant_tests. rewrite (outcome_fold_numbered (λ b, variant_test (id b))). intros H. split.
  - assert ((∀ c bid p, tests !! c = Some (bid, p) →
        ∃ b i, (b, i) ∈ numbered blocks ∧ id b = bid ∧ tests_for i c p) ∧
      (∀ b i c p, (b, i) ∈ numbered blocks → tests_for i c p → is_Some (tests !! c))) as [H1 H2].
    { revert H. apply (outcome_fold_ind _ (λ pre tests,
        (∀ c bid p, tests !! c = Some (bid, p) → ∃ b i, (b, i) ∈ pre ∧ id b = bid ∧ tests_for i c p) ∧
        (∀ b i c p, (b, i) ∈ pre → tests_for i c p → is_Some (tests !! c)))).
      - split; [by intros c bid p; rewrite lookup_empty|by intros b i c p ?%elem_of_nil].
      - intros pre [b i] post t1 t2 _ [IH1 IH2] (_ & ->)%variant_test_spec. cbn [fst snd]. split.
        + intros c bid p Hc.
          assert ((tests_for i c p ∧ id b = bid) ∨ t1 !! c = Some (bid, p)) as [[Hf <-]|Hold].
          { destruct i; try (by right). apply lookup_insert_Some in Hc as [[-> [= <- <-]]|[_ Hc]]; [|by right].
            left. split; [by eexists _, _|done]. }
          * exists b, i. split; [apply elem_of_app; right; left|done].
          * destruct (IH1 c bid p Hold) as (b' & i' & Hin & ?). exists b', i'.
            split; [apply elem_of_app; by left|done].
        + intros b' i' c p [Hin|[= -> ->]%list_elem_of_singleton]%elem_of_app Hf.
          * destruct (IH2 b' i' c p Hin Hf) as [v Hv]. destruct i; try (by exists v).
            apply lookup_insert_is_Some. destruct (decide (target = c)); [by left|right]. split; [done|by exists v].
          * destruct Hf as (t & l & ->). rewrite lookup_insert_eq. by eexists. }
    split.
    + intros c bid p Hc. destruct (H1 c bid p Hc) as (b & i & [? ?]%elem_of_numbered & ?). by exists b, i.
    + intros b i c p Hb Hi. apply (H2 b i). by apply elem_of_numbered.
  - intros b Hb i v Hi Hv. destruct (outcome_fold_each _ _ _ _ H (b, i)) as (t1 & t2 & Ht).
    { by apply elem_of_numbered. }
    apply variant_test_spec in Ht as [Hok _]. by apply Hok.
Qed.

Lemma variant_tests_total blocks :
  (∀ b, b ∈ blocks → identities_ok b) → ∃ tests, _variant_tests blocks = Done tests.
Proof.
  intros H. unfold _variant_tests. rewrite (outcome_fold_numbered (λ b, variant_test (id b))).
  apply outcome_fold_total. intros tests [b i] [Hb Hi]%elem_of_numbered. eexists.
  apply variant_test_spec. split; [|done]. intros v. by apply (H b).
Qed.

(** ** Paths *)

(** The branch condition [c] of block [b] is the result of a test of [p] in [b]. *)
Definition tested (b : MirBasicBlock) (c : Z) (p : proof) : Prop :=
  ∃ i, i ∈ instructions b ∧ tests_for i c p.

(** Control can reach block [t] from block 0 along a path whose positive tests
are [facts]. *)
Inductive reaches (blocks : list MirBasicBlock) : Z → list proof → Prop :=
  | reaches_entry : reaches blocks 0 []
  | reaches_jump b facts t :
      reaches blocks (id b) facts → b ∈ blocks → terminator b = MirJump t → reaches blocks t facts
  | reaches_else b facts c t e :
      reaches blocks (id b) facts → b ∈ blocks → terminator b = MirBranch c t e → reaches blocks e facts
  | reaches_then b facts c t e :
      reaches blocks (id b) facts → b ∈ blocks → terminator b = MirBranch c t e →
      (∀ p, ¬ tested b c p) → reaches blocks t facts
  | reaches_proof b facts c t e p :
      reaches blocks (id b) facts → b ∈ blocks → terminator b = MirBranch c t e →
      tested b c p → reaches blocks t (p :: facts).

(** The facts [G] are those of every path to [t], and there is such a path. *)
Definition meets (blocks : list MirBasicBlock) (t : Z) (G : gset proof) : Prop :=
  (∃ F, reaches blocks t F) ∧ ∀ p, p ∉ G → ∃ F, reaches blocks t F ∧ p ∉ F.

Lemma tests_for_target i c p : tests_for i c p → target_of i = Some c.
Proof. by intros (t & l & ->). Qed.

Section dataflow.
Context (blocks : list MirBasicBlock) (tests : tests_map).
Context (Htests : tests_exact blocks tests) (Hssa : NoDup (concat (targets <$> blocks)))
  (Hids : NoDup (id <$> blocks)).

Lemma block_of_id b1 b2 : b1 ∈ blocks → b2 ∈ blocks → id b1 = id b2 → b1 = b2.
Proof.
  intros H1 H2 E. apply (NoDup_concat_unique (λ b, [id b]) blocks (id b1)); try done.
  - replace (concat ((λ b, [id b]) <$> blocks)) with (id <$> blocks); [done|].
    clear. induction blocks as [|b bs IH]; [done|]. cbn [fmap list_fmap concat]. by rewrite IH.
  - left.
  - rewrite E. left.
Qed.

Lemma target_block b1 b2 t : b1 ∈ blocks → b2 ∈ blocks → t ∈ targets b1 → t ∈ targets b2 → b1 = b2.
Proof. by apply NoDup_concat_unique. Qed.

Lemma block_targets_NoDup b : b ∈ blocks → NoDup (targets b).
Proof.
  intros Hb. apply list_elem_of_split in Hb as (l1 & l2 & E). rewrite E in Hssa.
  rewrite fmap_app, concat_app, fmap_cons in Hssa. apply NoDup_app in Hssa as (_ & _ & H).
  cbn [concat] in H. by apply NoDup_app in H as (? & _ & _).
Qed.

Lemma tests_lookup b c p : b ∈ blocks → tests !! c = Some (id b, p) ↔ tested b c p.
Proof.
  intros Hb. destruct Htests as [H1 H2]. split.
  - intros Hc. destruct (H1 c (id b) p Hc) as (b' & i & Hb' & Hi & E & Hf).
    rewrite (block_of_id b b') by done. by exists i.
  - intros (i & Hi & Hf). destruct (H2 b i c p Hb Hi Hf) as [[bid q] Hc]. rewrite Hc.
    destruct (H1 c bid q Hc) as (b' & i' & Hb' & Hi' & <- & Hf').
    assert (c ∈ targets b ∧ c ∈ targets b') as [Ht Ht'].
    { split; apply list_elem_of_omap; [exists i|exists i']; split; try done; by eapply tests_for_target. }
    assert (b = b') as <- by (by apply (target_block b b' c)).
    assert (i = i') as <-.
    { apply (omap_NoDup_unique target_of (instructions b) c); try done;
        [by apply block_targets_NoDup|by eapply tests_for_target..]. }
    destruct Hf as (? & ? & ->), Hf' as (? & ? & [= E1 E2 _ _]). destruct p, q. cbn in *. by subst.
Qed.

(** ** Progress *)

Definition universe : gset proof := list_to_set ((λ kv, kv.2.2) <$> map_to_list tests).

Lemma universe_size : (size universe <= size tests)%nat.
Proof.
  unfold universe. etrans; [apply size_list_to_set_le|]. by rewrite length_fmap, length_map_to_list.
Qed.

Lemma universe_elem c bid p : tests !! c = Some (bid, p) → p ∈ universe.
Proof.
  intros H. apply elem_of_list_to_set, list_elem_of_fmap. exists (c, (bid, p)). split; [done|].
  by apply elem_of_map_to_list.
Qed.

Definition weight (o : option (option (gset proof))) : nat :=
  match o with
  | None => 0
  | Some None => S (size universe)
  | Some (Some facts) => size facts
  end.

Definition measure (inc : incoming_map) : nat := sum_list_with (λ b, weight (inc !! id b)) blocks.

Record inc_ok (inc : incoming_map) : Prop := {
  inc_blocks : ∀ b, b ∈ blocks → is_Some (inc !! id b);
  inc_universe : ∀ t F, inc !! t = Some (Some F) → F ⊆ universe;
  inc_ids : ∀ t, is_Some (inc !! t) → t ∈ id <$> blocks;
  inc_entry : inc !! 0 = Some (Some ∅);
  inc_meets : ∀ t G, inc !! t = Some (Some G) → meets blocks t G;
}.

(** What the edges of a block carry. *)
Definition edge_ok (edge : Z * gset proof) : Prop :=
  edge.2 ⊆ universe ∧ meets blocks edge.1 edge.2.

Lemma merge_edge_step st edge st' :
  inc_ok st.1 → edge_ok edge → merge_edge st edge = Done st' →
  inc_ok st'.1 ∧ (st' = st ∨ (st'.2 = true ∧ (measure st'.1 < measure st.1)%nat)).
Proof.
  destruct edge as [t cand]. intros Hok [Hu Hm]. cbn [fst snd] in *. unfold merge_edge.
  destruct (st.1 !! t) as [current|] eqn:Et; [|done]. set (merged := match current with None => _ | Some _ => _ end).
  case_decide as Hc; [by intros [= <-]; split; [|left]|]. intros [= <-]. cbn [fst snd].
  assert (merged ⊆ universe ∧ meets blocks t merged ∧
    (weight (Some (Some merged)) < weight (Some current))%nat) as (Hmu & Hmm & Hw).
  { destruct current as [G|].
    - destruct (inc_meets _ Hok t G Et) as [Hr HG]. pose proof (inc_universe _ Hok t G Et).
      split; [set_solver|]. split.
      + split; [done|]. intros p Hp. destruct (decide (p ∈ G)) as [HpG|HpG]; [|by apply HG].
        apply Hm. set_solver.
      + cbn [weight]. apply subset_size. unfold merged in *. split; [set_solver|]. intros Hsub. apply Hc.
        f_equal. set_solver.
    - split; [done|]. split; [done|]. cbn [weight]. apply Nat.lt_succ_r. by apply subseteq_size. }
  split; [|right; split; [done|]].
  - split.
    + intros b Hb. apply lookup_insert_is_Some'. right. by apply (inc_blocks _ Hok).
    + intros t' F [[<- [= <-]]|[_ HF]]%lookup_insert_Some; [done|by apply (inc_universe _ Hok t')].
    + intros t' [<-|Ht']%lookup_insert_is_Some'; [apply (inc_ids _ Hok); by rewrite Et|by apply (inc_ids _ Hok)].
    + destruct (decide (t = 0)) as [->|]; [|rewrite lookup_insert_ne by done; apply Hok].
      rewrite (inc_entry _ Hok) in Et. injection Et as <-. rewrite lookup_insert_eq. do 2 f_equal.
      unfold merged. set_solver.
    + intros t' G [[<- [= <-]]|[_ HG]]%lookup_insert_Some; [done|by apply (inc_meets _ Hok)].
  - unfold measure. apply sum_list_with_lt.
    + intros b _. destruct (decide (t = id b)) as [<-|]; [|by rewrite lookup_insert_ne].
      rewrite lookup_insert_eq, Et. lia.
    + assert (t ∈ id <$> blocks) as (b & -> & Hb)%list_elem_of_fmap by (apply (inc_ids _ Hok); by rewrite Et).
      exists b. split; [done|]. by rewrite lookup_insert_eq, Et.
Qed.

Lemma edge_facts_spec b facts t cand :
  b ∈ blocks → (t, cand) ∈ edge_facts tests b facts →
  (∃ t', terminator b = MirJump t' ∧ t = t' ∧ cand = facts) ∨
  (∃ c t' e, terminator b = MirBranch c t' e ∧
    ((t = e ∧ cand = facts) ∨
     (t = t' ∧ (∀ p, ¬ tested b c p) ∧ cand = facts) ∨
     (t = t' ∧ ∃ p, tested b c p ∧ cand = {[p]} ∪ facts))).
Proof.
  intros Hb. unfold edge_facts. destruct (terminator b) as [v|t'|c t' e|r]; try by intros ?%elem_of_nil.
  - intros [= -> ->]%list_elem_of_singleton. left. by exists t'.
  - intros Hin. right. exists c, t', e. split; [done|].
    assert ((∃ p, tested b c p ∧ tests !! c = Some (id b, p)) ∨
      ((∀ p, ¬ tested b c p) ∧ ∀ p, tests !! c ≠ Some (id b, p))) as [(p & Hp & Hc)|[Hno Hc]].
    { destruct (tests !! c) as [[bid p]|] eqn:Ec.
      - destruct (decide (bid = id b)) as [->|Hne].
        + left. exists p. split; [|done]. by apply tests_lookup.
        + right. split; [|by intros q [= ]]. intros q Hq%tests_lookup; [|done]. rewrite Ec in Hq. by injection Hq.
      - right. split; [|done]. intros q Hq%tests_lookup; [|done]. by rewrite Ec in Hq. }
    + rewrite Hc in Hin. rewrite decide_True in Hin by done.
      apply elem_of_cons in Hin as [[= -> ->]|[= -> ->]%list_elem_of_singleton].
      * right. right. split; [done|]. by exists p.
      * by left.
    + assert ((t, cand) ∈ [(t', facts); (e, facts)]) as Hin'.
      { destruct (tests !! c) as [[bid p]|]; [|done]. case_decide as Hd; [|done]. subst. by destruct (Hc p). }
      apply elem_of_cons in Hin' as [[= -> ->]|[= -> ->]%list_elem_of_singleton]; [|by left].
      right. left. done.
Qed.

Lemma edge_facts_ok b facts edge :
  b ∈ blocks → facts ⊆ universe → meets blocks (id b) facts → edge ∈ edge_facts tests b facts → edge_ok edge.
Proof.
  intros Hb Hu [[F HF] Hm] Hin. destruct edge as [t cand]. unfold edge_ok. cbn [fst snd].
  destruct (edge_facts_spec b facts t cand Hb Hin) as
    [(t' & Et & -> & ->)|(c & t' & e & Et & [[-> ->]|[(-> & Hno & ->)|(-> & p & Hp & ->)]])].
  - split; [done|]. split; [exists F; by eapply reaches_jump|].
    intros p Hp. destruct (Hm p Hp) as (F' & HF' & ?). exists F'. split; [by eapply reaches_jump|done].
  - split; [done|]. split; [exists F; by eapply reaches_else|].
    intros p Hp. destruct (Hm p Hp) as (F' & HF' & ?). exists F'. split; [by eapply reaches_else|done].
  - split; [done|]. split; [exists F; by eapply reaches_then|].
    intros p Hp. destruct (Hm p Hp) as (F' & HF' & ?). exists F'. split; [by eapply reaches_then|done].
  - split; [|split; [exists (p :: F); by eapply reaches_proof|]].
    + apply tests_lookup in Hp; [|done]. pose proof (universe_elem c (id b) p Hp). set_solver.
    + intros q Hq. destruct (Hm q ltac:(set_solver)) as (F' & HF' & ?).
      exists (p :: F'). split; [by eapply reaches_proof|]. intros [->|?]%elem_of_cons; [set_solver|done].
Qed.

Definition step_dec (st st' : incoming_map * bool) : Prop :=
  st' = st ∨ (st'.2 = true ∧ (measure st'.1 < measure st.1)%nat).

Lemma step_dec_trans st1 st2 st3 : step_dec st1 st2 → step_dec st2 st3 → step_dec st1 st3.
Proof.
  intros Ha Hb. destruct Ha as [->|(Ha1 & Ha2)]; [done|]. destruct Hb as [->|(Hb1 & Hb2)]; [by right|].
  right. split; [done|lia].
Qed.

Context (Hsucc : ∀ b s, b ∈ blocks → s ∈ successors (terminator b) → s ∈ id <$> blocks).

Lemma edge_successor b facts edge : edge ∈ edge_facts tests b facts → edge.1 ∈ successors (terminator b).
Proof.
  unfold edge_facts. destruct (terminator b) as [v|t|c t e|r]; cbn [successors]; try by intros ?%elem_of_nil.
  - intros ->%list_elem_of_singleton. by left.
  - destruct (match tests !! c with Some (tested, p) => _ | None => _ end);
      intros [->| ->%list_elem_of_singleton]%elem_of_cons; cbn; set_solver.
Qed.

Lemma merge_edge_total st edge :
  inc_ok st.1 → edge_ok edge → edge.1 ∈ id <$> blocks →
  ∃ st', merge_edge st edge = Done st' ∧ inc_ok st'.1 ∧ step_dec st st'.
Proof.
  intros Hok He Ht. destruct (merge_edge st edge) as [st'|e|] eqn:E.
  - exists st'. split; [done|]. by apply (merge_edge_step st edge).
  - exfalso. destruct edge as [t cand]. cbn in Ht. apply list_elem_of_fmap in Ht as (b & -> & Hb).
    destruct (inc_blocks _ Hok b Hb) as [o Ho]. unfold merge_edge in E. rewrite Ho in E. by case_decide.
  - exfalso. destruct edge as [t cand]. unfold merge_edge in E.
    destruct (st.1 !! t); [by case_decide|done].
Qed.

Lemma propagate_block_total st b :
  inc_ok st.1 → b ∈ blocks →
  ∃ st', propagate_block tests st b = Done st' ∧ inc_ok st'.1 ∧ step_dec st st'.
Proof.
  intros Hok Hb. unfold propagate_block.
  destruct (st.1 !! id b) as [[facts|]|] eqn:E;
    [|exists st; split; [done|split; [done|by left]]..].
  apply (outcome_fold_run merge_edge (λ st, inc_ok st.1) step_dec); [by left|by apply step_dec_trans| |done].
  intros s edge Hin Hs. apply merge_edge_total; [done| |].
  - apply (edge_facts_ok b facts); try done; [by apply (inc_universe _ Hok (id b))|by apply (inc_meets _ Hok)].
  - apply (Hsucc b); [done|]. by eapply edge_successor.
Qed.

Definition round (st : incoming_map * bool) : mir_result (incoming_map * bool) :=
  outcome_fold (propagate_block tests) st blocks.

Lemma round_total st : inc_ok st.1 → ∃ st', round st = Done st' ∧ inc_ok st'.1 ∧ step_dec st st'.
Proof.
  intros Hok. apply (outcome_fold_run _ (λ st, inc_ok st.1) step_dec);
    [by left|by apply step_dec_trans| |done].
  intros s b Hb Hs. by apply propagate_block_total.
Qed.

(** The loop ends within the measure of its state, in a state that a round does not change. *)
Lemma propagate_done fuel inc :
  inc_ok inc → (measure inc < fuel)%nat →
  ∃ inc', propagate fuel tests blocks inc = Done inc' ∧ inc_ok inc' ∧ round (inc', false) = Done (inc', false).
Proof.
  revert inc. induction fuel as [|fuel IH]; intros inc Hok Hm; [lia|]. cbn [propagate].
  destruct (round_total (inc, false) Hok) as ([inc1 moved] & E & Hok1 & Hd). unfold round in E.
  rewrite E. cbn [mbind outcome_bind]. destruct Hd as [[= -> ->]|[Hmoved Hlt]].
  - exists inc. split; [done|]. split; [done|]. exact E.
  - cbn [fst snd] in *. subst moved. apply IH; [done|lia].
Qed.

(** ** The fixed point *)

Lemma step_dec_back st1 st2 : step_dec st1 st2 → step_dec st2 st1 → st1 = st2.
Proof. intros [->|[_ H1]] [H|[_ H2]]; try done. lia. Qed.

Section fixpoint.
Context (inc : incoming_map) (Hok : inc_ok inc) (Hround : round (inc, false) = Done (inc, false)).

Lemma fixed_block b : b ∈ blocks → propagate_block tests (inc, false) b = Done (inc, false).
Proof.
  apply (outcome_fold_stable _ (λ st, inc_ok st.1) step_dec); try done;
    [by left|by apply step_dec_trans|by apply step_dec_back|].
  intros s x Hx Hs. by apply propagate_block_total.
Qed.

Lemma fixed_edge b facts t cand :
  b ∈ blocks → inc !! id b = Some (Some facts) → (t, cand) ∈ edge_facts tests b facts →
  ∃ G, inc !! t = Some (Some G) ∧ G ⊆ cand.
Proof.
  intros Hb Hf Hin. pose proof (fixed_block b Hb) as H. unfold propagate_block in H. cbn [fst] in H.
  rewrite Hf in H.
  assert (merge_edge (inc, false) (t, cand) = Done (inc, false)) as E.
  { apply (outcome_fold_stable merge_edge (λ st, inc_ok st.1) step_dec (edge_facts tests b facts));
      try done; [by left|by apply step_dec_trans|by apply step_dec_back|].
    intros s edge Hedge Hs. apply merge_edge_total; [done| |].
    - apply (edge_facts_ok b facts); try done; [by apply (inc_universe _ Hok (id b))|by apply (inc_meets _ Hok)].
    - apply (Hsucc b); [done|]. by eapply edge_successor. }
  unfold merge_edge in E. cbn [fst] in E. destruct (inc !! t) as [current|]; [|done].
  case_decide as Hd; [|done]. rewrite <- Hd in *. eexists. split; [done|].
  clear Hd. destruct current; set_solver.
Qed.

Lemma edge_facts_complete b facts :
  b ∈ blocks →
  (∀ t, terminator b = MirJump t → (t, facts) ∈ edge_facts tests b facts) ∧
  (∀ c t e, terminator b = MirBranch c t e → (e, facts) ∈ edge_facts tests b facts ∧
    ((∀ p, ¬ tested b c p) → (t, facts) ∈ edge_facts tests b facts) ∧
    (∀ p, tested b c p → (t, {[p]} ∪ facts) ∈ edge_facts tests b facts)).
Proof.
  intros Hb. unfold edge_facts. split; [intros t ->; left|]. intros c t e ->.
  destruct (tests !! c) as [[bid p]|] eqn:Ec; [destruct (decide (bid = id b)) as [->|Hne]|].
  - assert (tested b c p) as Hp by (by apply tests_lookup). split; [right; left|]. split.
    + intros H. by destruct (H p).
    + intros q Hq%tests_lookup; [|done]. rewrite Ec in Hq. injection Hq as <-. left.
  - split; [right; left|]. split; [intros _; left|]. intros q Hq%tests_lookup; [|done].
    rewrite Ec in Hq. by injection Hq.
  - split; [right; left|]. split; [intros _; left|]. intros q Hq%tests_lookup; [|done]. by rewrite Ec in Hq.
Qed.

Lemma fixed_sound t F : reaches blocks t F → ∃ G, inc !! t = Some (Some G) ∧ ∀ p, p ∈ G → p ∈ F.
Proof.
  induction 1 as [|b F t _ (G & HG & Hsub) Hb Et|b F c t e _ (G & HG & Hsub) Hb Et
    |b F c t e _ (G & HG & Hsub) Hb Et Hno|b F c t e p _ (G & HG & Hsub) Hb Et Hp].
  - exists ∅. split; [apply Hok|]. set_solver.
  - destruct (fixed_edge b G t G Hb HG) as (G' & HG' & Hs); [by apply (edge_facts_complete b G Hb)|].
    exists G'. split; [done|]. set_solver.
  - destruct (fixed_edge b G e G Hb HG) as (G' & HG' & Hs);
      [by destruct (proj2 (edge_facts_complete b G Hb) c t e Et) as (? & ? & ?)|].
    exists G'. split; [done|]. set_solver.
  - destruct (fixed_edge b G t G Hb HG) as (G' & HG' & Hs);
      [by destruct (proj2 (edge_facts_complete b G Hb) c t e Et) as (? & Hn & ?); apply Hn|].
    exists G'. split; [done|]. set_solver.
  - destruct (fixed_edge b G t ({[p]} ∪ G) Hb HG) as (G' & HG' & Hs);
      [by destruct (proj2 (edge_facts_complete b G Hb) c t e Et) as (? & ? & Hn); apply Hn|].
    exists G'. split; [done|]. intros q Hq. apply elem_of_cons.
    apply Hs in Hq as [->%elem_of_singleton|Hq]%elem_of_union; [by left|right; by apply Hsub].
Qed.

(** The facts of a block are those that hold on every path to it. *)
Lemma fixed_exact t p :
  p ∈ default ∅ (mjoin (inc !! t)) ↔ (∃ F, reaches blocks t F) ∧ ∀ F, reaches blocks t F → p ∈ F.
Proof.
  split.
  - destruct (inc !! t) as [[G|]|] eqn:E; cbn [mjoin option_join default]; intros Hp;
      [|by apply elem_of_empty in Hp..].
    split; [by apply (inc_meets _ Hok t G)|]. intros F (G' & HG' & Hs)%fixed_sound.
    rewrite E in HG'. injection HG' as <-. by apply Hs.
  - intros [[F HF] Hall]. destruct (fixed_sound t F HF) as (G & HG & _). rewrite HG.
    cbn [mjoin option_join default]. destruct (decide (p ∈ G)) as [|Hn]; [done|exfalso].
    destruct (inc_meets _ Hok t G HG) as [_ Hm]. destruct (Hm p Hn) as (F' & HF' & Hp). by apply Hp, Hall.
Qed.
End fixpoint.
End dataflow.

(** ** The start of the loop *)

Lemma initial_lookup blocks t :
  0 ∈ id <$> blocks →
  initial_incoming blocks !! t =
    if decide (t = 0) then Some (Some ∅) else if decide (t ∈ id <$> blocks) then Some None else None.
Proof.
  intros H0. unfold initial_incoming. case_decide as Hd; [subst; by rewrite lookup_insert_eq|].
  rewrite lookup_insert_ne by done.
  assert (((λ b, (id b, @None (gset proof))) <$> blocks).*1 = id <$> blocks) as Hfst
    by (rewrite <- list_fmap_compose; done).
  case_decide as Hin.
  - destruct (list_to_map ((λ b, (id b, @None (gset proof))) <$> blocks) !! t) as [o|] eqn:E.
    + apply elem_of_list_to_map_2, list_elem_of_fmap in E as (b & [= _ ->] & _). done.
    + apply not_elem_of_list_to_map in E. by rewrite Hfst in E.
  - apply not_elem_of_list_to_map. by rewrite Hfst.
Qed.

Lemma initial_inc_ok blocks tests : 0 ∈ id <$> blocks → inc_ok blocks tests (initial_incoming blocks).
Proof.
  intros H0. split.
  - intros b Hb. rewrite initial_lookup by done. case_decide; [by eexists|].
    rewrite decide_True by (by apply list_elem_of_fmap_2). by eexists.
  - intros t F. rewrite initial_lookup by done. repeat case_decide; intros [= <-]. set_solver.
  - intros t. rewrite initial_lookup by done. case_decide as Hd; [by subst|]. case_decide; [done|]. by intros [? ?].
  - by rewrite initial_lookup.
  - intros t G. rewrite initial_lookup by done. case_decide as Hd; [|by case_decide]. intros [= <-]. subst.
    split; [exists []; constructor|]. intros p _. exists []. split; [constructor|]. by intros ?%elem_of_nil.
Qed.

Lemma weight_bound tests o : (∀ F, o = Some (Some F) → F ⊆ universe tests) → (weight tests o <= S (size tests))%nat.
Proof.
  intros H. pose proof (universe_size tests). destruct o as [[F|]|]; cbn [weight]; [|lia..].
  specialize (H F eq_refl). apply subseteq_size in H. lia.
Qed.

Lemma measure_bound blocks tests inc :
  inc_ok blocks tests inc → (measure blocks tests inc < proof_fuel tests blocks)%nat.
Proof.
  intros Hok. unfold measure, proof_fuel.
  assert (∀ l, (sum_list_with (λ b, weight tests (inc !! id b)) l <= length l * S (size tests))%nat) as H.
  { induction l as [|b l IH]; [done|]. cbn [sum_list_with length].
    pose proof (weight_bound tests (inc !! id b) ltac:(intros F HF; by apply (inc_universe _ _ _ Hok (id b)))). lia. }
  specialize (H blocks). lia.
Qed.

(** ** Payloads *)

(** Some path reaches block [b], and every path to it has tested [p]. *)
Definition proven (blocks : list MirBasicBlock) (b : MirBasicBlock) (p : proof) : Prop :=
  (∃ F, reaches blocks (id b) F) ∧ ∀ F, reaches blocks (id b) F → p ∈ F.

Lemma check_payloads_iff incoming blocks :
  outcome_fold (check_payloads incoming) () blocks = Done () ↔
  ∀ b i t s v ty l, b ∈ blocks → i ∈ instructions b → i = MirVariantPayload t s v ty l →
    (s, v) ∈ default ∅ (mjoin (incoming !! id b)).
Proof.
  rewrite outcome_fold_unit_iff. unfold check_payloads. split.
  - intros H b i t s v ty l Hb Hi ->. specialize (H b Hb). rewrite outcome_fold_unit_iff in H.
    specialize (H _ Hi). cbn [check_payload] in H. by case_decide.
  - intros H b Hb. apply outcome_fold_unit_iff. intros i Hi.
    destruct i; cbn [check_payload]; try done. rewrite decide_True; [done|]. by eapply H.
Qed.

(** ** The validator *)

(** The control-flow graph is well formed: what [validate_blocks] checks itself. *)
Record cfg_ok (blocks : list MirBasicBlock) : Prop := {
  cfg_start : ∃ b rest, blocks = b :: rest ∧ id b = 0;
  cfg_ids : NoDup (id <$> blocks);
  cfg_targets : NoDup (concat (targets <$> blocks));
  cfg_successors : ∀ b s, b ∈ blocks → s ∈ successors (terminator b) → s ∈ id <$> blocks;
  cfg_uses : ∀ b v, b ∈ blocks → v ∈ block_uses b → ∃ b', b' ∈ blocks ∧ v ∈ targets b';
}.

(** What the variant proofs add. *)
Record variants_ok (blocks : list MirBasicBlock) : Prop := {
  variants_registered : ∀ b i, b ∈ blocks → i ∈ instructions b → is_mir_v4_instruction i = true;
  variants_identities : ∀ b, b ∈ blocks → identities_ok b;
  variants_proven : ∀ b t s v ty l, b ∈ blocks → MirVariantPayload t s v ty l ∈ instructions b →
    proven blocks b (s, v);
}.

Lemma cfg_zero blocks : cfg_ok blocks → 0 ∈ id <$> blocks.
Proof. intros [(b & rest & -> & <-) _ _ _ _]. left. Qed.

Lemma variants_exact blocks :
  cfg_ok blocks →
  validate_variant_proofs_v1 blocks ≠ NoFuel ∧
  (validate_variant_proofs_v1 blocks = Done () ↔ variants_ok blocks).
Proof.
  intros Hcfg. pose proof (cfg_zero blocks Hcfg) as H0. unfold validate_variant_proofs_v1.
  rewrite bool_decide_eq_false_2 by (intros ->; by apply elem_of_nil in H0).
  destruct (_require_exact_registry_v4 blocks) as [[]|e|] eqn:Er; cbn [mbind outcome_bind].
  2:{ split; [done|]. split; [done|]. intros [Hreg _ _]. apply registry_spec in Hreg. by rewrite Er in Hreg. }
  2:{ unfold _require_exact_registry_v4 in Er. by destruct (List.find _ _). }
  rewrite registry_spec in Er. rewrite bool_decide_eq_true_2 by done. cbn [negb].
  destruct (_variant_tests blocks) as [tests|e|] eqn:Et; cbn [mbind outcome_bind].
  2:{ split; [done|]. split; [done|]. intros [_ Hid _]. destruct (variant_tests_total blocks Hid) as [? H].
      by rewrite Et in H. }
  2:{ exfalso. revert Et. apply outcome_fold_no_fuel. intros ts b Hb. apply outcome_fold_no_fuel. intros ts' i Hi.
      unfold variant_test. destruct (variant_of i); [by destruct (negb _)|done]. }
  apply variant_tests_spec in Et as [Hex Hid].
  pose proof (initial_inc_ok blocks tests H0) as Hinit.
  destruct (propagate_done blocks tests Hex (cfg_targets _ Hcfg) (cfg_ids _ Hcfg) (cfg_successors _ Hcfg)
    (proof_fuel tests blocks) (initial_incoming blocks) Hinit (measure_bound _ _ _ Hinit)) as (inc & -> & Hok & Hr).
  cbn [mbind outcome_bind]. split.
  { apply outcome_fold_no_fuel. intros [] b Hb. apply outcome_fold_no_fuel. intros [] i Hi.
    destruct i; cbn [check_payload]; try done. by case_decide. }
  pose proof (fixed_exact blocks tests Hex (cfg_targets _ Hcfg) (cfg_ids _ Hcfg) (cfg_successors _ Hcfg)
    inc Hok Hr) as Hfix.
  rewrite check_payloads_iff. split.
  - intros H. split; [done..|]. intros b t s v ty l Hb Hi. apply Hfix. by eapply H.
  - intros [_ _ Hp] b i t s v ty l Hb Hi ->. apply Hfix. by eapply Hp.
Qed.

Lemma undefined_uses_iff blocks :
  list_to_set (concat (block_uses <$> blocks)) ∖ list_to_set (concat (targets <$> blocks)) = (∅ : gset Z) ↔
  ∀ b v, b ∈ blocks → v ∈ block_uses b → ∃ b', b' ∈ blocks ∧ v ∈ targets b'.
Proof.
  split.
  - intros H b v Hb Hv. apply elem_of_concat_fmap.
    destruct (decide (v ∈ concat (targets <$> blocks))) as [|Hn]; [done|exfalso].
    assert (v ∈ (∅ : gset Z)) as Hem%elem_of_empty; [|done]. rewrite <- H.
    apply elem_of_difference. rewrite !elem_of_list_to_set. split; [|done].
    apply elem_of_concat_fmap. by exists b.
  - intros H. apply set_eq. intros v. rewrite elem_of_difference, !elem_of_list_to_set.
    split; [|by intros ?%elem_of_empty]. intros [(b & Hb & Hv)%elem_of_concat_fmap Hn]. exfalso.
    apply Hn, elem_of_concat_fmap. by eapply H.
Qed.

(** Either the graph is not well formed and the validator raises, or it goes on
to the variant proofs. *)
Lemma validate_cases blocks :
  (cfg_ok blocks ∧ validate_blocks blocks = validate_variant_proofs_v1 blocks) ∨
  (¬ cfg_ok blocks ∧ ∃ e, validate_blocks blocks = Raise e).
Proof.
  unfold validate_blocks. destruct blocks as [|b0 rest] eqn:Eb; [|rewrite <- Eb].
  { right. split; [|by eexists]. intros [(b & rest & ? & _) _ _ _ _]. done. }
  destruct (Z.eqb_spec (id b0) 0) as [Hz|Hz]; cbn [negb].
  2:{ right. split; [|by eexists]. intros [(b & r & E & ?) _ _ _ _]. rewrite Eb in E. by injection E as -> ->. }
  destruct (decide (NoDup (id <$> blocks))) as [Hnd|Hnd].
  2:{ right. rewrite bool_decide_eq_false_2.
      - split; [by intros []|by eexists].
      - rewrite <- (length_fmap id blocks). by rewrite list_to_set_NoDup. }
  rewrite bool_decide_eq_true_2 by (rewrite <- (length_fmap id blocks); by apply list_to_set_NoDup). cbn [negb].
  destruct (outcome_fold _ (∅, ∅) blocks) as [[D U]|e|] eqn:Ef; cbn [mbind outcome_bind].
  - apply collect_blocks_spec in Ef as (Ht & _ & Hs & -> & ->).
    rewrite (left_id_L ∅ (∪)), (right_id_L ∅ (∪)). case_decide as Hm.
    + left. split; [|done]. rewrite undefined_uses_iff in Hm. split; try done; [by exists b0, rest|].
      intros b s Hb Hin. by apply Hs in Hin; [apply elem_of_list_to_set in Hin|].
    + right. split; [|by eexists]. intros [_ _ _ _ Hu]. by apply Hm, undefined_uses_iff.
  - right. split; [|by eexists]. intros Hcfg. apply (not_collected _ blocks e Ef); [apply Hcfg|].
    intros b s Hb Hin. apply elem_of_list_to_set. by apply (cfg_successors _ Hcfg b).
  - exfalso. revert Ef. apply outcome_fold_no_fuel. intros [D U] b Hb. apply collect_block_no_fuel.
Qed.

Lemma validate_no_fuel blocks : validate_blocks blocks ≠ NoFuel.
Proof.
  destruct (validate_cases blocks) as [[Hcfg ->]|[_ [e ->]]]; [|done]. by apply variants_exact.
Qed.

Lemma validate_accepts blocks : validate_blocks blocks = Done () ↔ cfg_ok blocks ∧ variants_ok blocks.
Proof.
  destruct (validate_cases blocks) as [[Hcfg ->]|[Hn [e ->]]].
  - rewrite (proj2 (variants_exact blocks Hcfg)). tauto.
  - split; [done|]. by intros [? _].
Qed.

(** Validation of a function's blocks always terminates: the loop that
propagates variant proofs reaches its fixed point within [proof_fuel] rounds. *)
Theorem validate_total blocks : validate_blocks blocks ≠ NoFuel.
Proof. apply validate_no_fuel. Qed.

(** C27: The validator accepts exactly the functions that start with block 0,
have unique block ids and single assignment, jump to known blocks, use only
defined values, consist of registered instructions with canonical variant
identities, and extract a payload only in a reachable block that every path
reaches through the true edge of a test of the same value and variant. *)
Theorem validate_blocks_exact blocks :
  validate_blocks blocks = Done () ↔ cfg_ok blocks ∧ variants_ok blocks.
Proof. apply validate_accepts. Qed.

(** ** A function that matches on an option *)

Definition nowhere : SourceLocation := mk_location 1 1.
Definition int_type : TypeNode := NamedType (u "Int").

(** Block 0 tests the option and branches; block 1 extracts the payload. *)
Definition match_option (payload_block : Z) : list MirBasicBlock :=
  [mk_mir_block 0 [MirLoad 0 (u "o") int_type nowhere;
                   MirVariantIs 1 0 (u "Option::Some") int_type nowhere]
     (MirBranch 1 payload_block (3 - payload_block));
   mk_mir_block 1 [MirVariantPayload 2 0 (u "Option::Some") int_type nowhere] (MirReturn (Some 2));
   mk_mir_block 2 [] (MirReturn (Some 0))].

Example match_option_accepted : validate_blocks (match_option 1) = Done ().
Proof. vm_compute. reflexivity. Qed.

(** With the branches swapped the payload is on the false edge. *)
Example match_option_swapped : validate_blocks (match_option 2) = Raise (PayloadUnproven 0 (u "Option::Some")).
Proof. vm_compute. reflexivity. Qed.

(** The key of a map access is not an operand the validator counts: value 7 is
defined nowhere. *)
Lemma undefined_map_key_accepted :
  validate_blocks [mk_mir_block 0 [MirMapNew 0 int_type nowhere; MirMapGet 1 0 7 int_type nowhere]
    (MirReturn (Some 1))] = Done ().
Proof. vm_compute. reflexivity. Qed.
