(* ===== verification/Capability.v ===== *)
(** The canonical capability contract: [src/koschei/capability_effect_contract_v1.py].

The tables are association lists in the order of the source's dictionaries; a
set of methods is a list.  The theorems quantify over every capability type and
method name, known or not. *)

From S2P Require Import Prelude.

(** * Effects and power domains *)

Definition AUTHORITY_DERIVE := u "authority.derive".
Definition NET_IO := u "net.io".
Definition DISK_READ := u "disk.read".
Definition DISK_WRITE := u "disk.write".
Definition ENV_READ := u "env.read".
Definition PROCESS_EXEC := u "process.exec".
Definition PERSIST_READ := u "persist.read".
Definition PERSIST_WRITE := u "persist.write".
Definition SERVE_EXCHANGE := u "serve.exchange".

Definition POWER_DOMAIN_IDENTITY := u "identity".
Definition POWER_DOMAIN_AUTHORITY := u "authority".
Definition POWER_DOMAIN_DATA := u "data".
Definition POWER_DOMAIN_COMPUTE := u "compute".
Definition POWER_DOMAIN_NETWORK := u "network".
Definition POWER_DOMAIN_CONTINUITY := u "continuity".

Definition CANONICAL_POWER_DOMAINS : list ustring :=
  [POWER_DOMAIN_IDENTITY; POWER_DOMAIN_AUTHORITY; POWER_DOMAIN_DATA; POWER_DOMAIN_COMPUTE;
   POWER_DOMAIN_NETWORK; POWER_DOMAIN_CONTINUITY].

(** * Tables *)

Definition SYSTEM_CAPABILITY_MEMBERS : list (ustring * ustring) :=
  [(u "net", u "NetRoot"); (u "disk", u "DiskRoot"); (u "env", u "EnvRoot");
   (u "process", u "ProcessRoot"); (u "persist", u "PersistRoot"); (u "serve", u "ServeRoot")].

Definition ROOT_NARROWING : list (ustring * list (ustring * ustring)) :=
  [(u "NetRoot", [(u "allow", u "NetCaps")]);
   (u "DiskRoot", [(u "allow", u "DiskCaps"); (u "allow_read_only", u "DiskReadCaps")]);
   (u "EnvRoot", [(u "allow", u "EnvCaps")]);
   (u "ProcessRoot", [(u "allow", u "ProcessCaps")]);
   (u "PersistRoot", [(u "allow", u "PersistCaps")]);
   (u "ServeRoot", [(u "allow", u "ServeCaps")])].

Definition NARROWED_OPERATIONS : list (ustring * list ustring) :=
  [(u "NetCaps", [u "get"; u "post"; u "put"; u "delete"; u "request"]);
   (u "DiskCaps", [u "read"; u "write"; u "delete"; u "list"; u "read_file"; u "write_file"]);
   (u "DiskReadCaps", [u "read"; u "list"; u "read_file"]);
   (u "EnvCaps", [u "get"]);
   (u "ProcessCaps", [u "run"; u "spawn"]);
   (u "PersistCaps", [u "load"; u "commit"]);
   (u "ServeCaps", [u "exchange"])].

Definition CAPABILITY_METHOD_EFFECTS : list (ustring * list (ustring * ustring)) :=
  [(u "NetRoot", [(u "allow", AUTHORITY_DERIVE)]);
   (u "DiskRoot", [(u "allow", AUTHORITY_DERIVE); (u "allow_read_only", AUTHORITY_DERIVE)]);
   (u "EnvRoot", [(u "allow", AUTHORITY_DERIVE)]);
   (u "ProcessRoot", [(u "allow", AUTHORITY_DERIVE)]);
   (u "PersistRoot", [(u "allow", AUTHORITY_DERIVE)]);
   (u "ServeRoot", [(u "allow", AUTHORITY_DERIVE)]);
   (u "NetCaps", [(u "get", NET_IO); (u "post", NET_IO); (u "put", NET_IO); (u "delete", NET_IO);
                  (u "request", NET_IO)]);
   (u "DiskReadCaps", [(u "read", DISK_READ); (u "read_file", DISK_READ); (u "list", DISK_READ)]);
   (u "DiskCaps", [(u "read", DISK_READ); (u "read_file", DISK_READ); (u "list", DISK_READ);
                   (u "write", DISK_WRITE); (u "write_file", DISK_WRITE); (u "delete", DISK_WRITE)]);
   (u "EnvCaps", [(u "get", ENV_READ)]);
   (u "ProcessCaps", [(u "run", PROCESS_EXEC); (u "spawn", PROCESS_EXEC)]);
   (u "PersistCaps", [(u "load", PERSIST_READ); (u "commit", PERSIST_WRITE)]);
   (u "ServeCaps", [(u "exchange", SERVE_EXCHANGE)])].

Definition CAPABILITY_POWER_DOMAINS : list (ustring * ustring) :=
  [(u "SystemCaps", POWER_DOMAIN_AUTHORITY);
   (u "NetRoot", POWER_DOMAIN_NETWORK); (u "NetCaps", POWER_DOMAIN_NETWORK);
   (u "DiskRoot", POWER_DOMAIN_DATA); (u "DiskCaps", POWER_DOMAIN_DATA);
   (u "DiskReadCaps", POWER_DOMAIN_DATA);
   (u "EnvRoot", POWER_DOMAIN_DATA); (u "EnvCaps", POWER_DOMAIN_DATA);
   (u "ProcessRoot", POWER_DOMAIN_COMPUTE); (u "ProcessCaps", POWER_DOMAIN_COMPUTE);
   (u "PersistRoot", POWER_DOMAIN_CONTINUITY); (u "PersistCaps", POWER_DOMAIN_CONTINUITY);
   (u "ServeRoot", POWER_DOMAIN_NETWORK); (u "ServeCaps", POWER_DOMAIN_NETWORK)].

Definition EFFECT_POWER_DOMAINS : list (ustring * ustring) :=
  [(NET_IO, POWER_DOMAIN_NETWORK); (DISK_READ, POWER_DOMAIN_DATA); (DISK_WRITE, POWER_DOMAIN_DATA);
   (ENV_READ, POWER_DOMAIN_DATA); (PROCESS_EXEC, POWER_DOMAIN_COMPUTE);
   (PERSIST_READ, POWER_DOMAIN_CONTINUITY); (PERSIST_WRITE, POWER_DOMAIN_CONTINUITY);
   (SERVE_EXCHANGE, POWER_DOMAIN_NETWORK)].

(** The derived sets, with repetitions. *)
Definition NARROWING_METHODS : list ustring := concat ((λ kv, kv.2.*1) <$> ROOT_NARROWING).
Definition GUARDED_METHODS : list ustring := concat (snd <$> NARROWED_OPERATIONS).
Definition ROOT_CAPABILITY_TYPES : list ustring := ROOT_NARROWING.*1 ++ [u "SystemCaps"].
Definition CAPABILITY_TYPES : list ustring := ROOT_CAPABILITY_TYPES ++ NARROWED_OPERATIONS.*1.
Definition CANONICAL_CAPABILITY_EFFECTS : list ustring :=
  concat ((λ kv, kv.2.*2) <$> CAPABILITY_METHOD_EFFECTS).

(** * Operations *)

(** [table.get(key, {}).get(method)]. *)
Definition table_get {A} (table : list (ustring * list (ustring * A))) (key method : ustring) : option A :=
  assoc method (default [] (assoc key table)).

Definition narrowed_type_for (root_type method : ustring) : option ustring :=
  table_get ROOT_NARROWING root_type method.

Definition operation_allowed (capability_type method : ustring) : bool :=
  bool_decide (method ∈ default [] (assoc capability_type NARROWED_OPERATIONS)).

Definition effect_for (capability_type method : ustring) : option ustring :=
  table_get CAPABILITY_METHOD_EFFECTS capability_type method.

Definition power_domain_for_capability_type (capability_type : ustring) : option ustring :=
  assoc capability_type CAPABILITY_POWER_DOMAINS.

Definition power_domain_for_effect (effect : ustring) (capability_type : option ustring) : option ustring :=
  if bool_decide (effect = AUTHORITY_DERIVE) then
    match capability_type with
    | None => None
    | Some capability_type => power_domain_for_capability_type capability_type
    end
  else assoc effect EFFECT_POWER_DOMAINS.

Definition capability_method_stays_within_power_domain (capability_type method : ustring) : bool :=
  match effect_for capability_type method with
  | None => false
  | Some effect =>
      match power_domain_for_capability_type capability_type,
            power_domain_for_effect effect (Some capability_type) with
      | Some source_domain, Some target_domain => bool_decide (source_domain = target_domain)
      | _, _ => false
      end
  end.

(** The messages of [CapabilityPowerDomainError]. *)
Inductive power_domain_error :=
  | UnknownMethod
  | Unclassified
  | CrossDomain (source target : ustring).

Definition require_capability_method_same_power_domain (capability_type method : ustring)
    : outcome power_domain_error (ustring * ustring) :=
  match effect_for capability_type method with
  | None => Raise UnknownMethod
  | Some effect =>
      match power_domain_for_capability_type capability_type,
            power_domain_for_effect effect (Some capability_type) with
      | Some source_domain, Some target_domain =>
          if bool_decide (source_domain ≠ target_domain) then Raise (CrossDomain source_domain target_domain)
          else Done (effect, source_domain)
      | _, _ => Raise Unclassified
      end
  end.

(** * Every entry of a table *)

Lemma table_get_entry {A} (table : list (ustring * list (ustring * A))) key method a :
  table_get table key method = Some a → ∃ row, (key, row) ∈ table ∧ (method, a) ∈ row.
Proof.
  unfold table_get. destruct (assoc key table) as [row|] eqn:E; cbn [default]; [|done].
  intros H%assoc_Some. apply assoc_Some in E. by exists row.
Qed.

(** A decidable property of all entries of a table, checked by computation. *)
Definition entries {A} (table : list (ustring * list (ustring * A))) : list (ustring * ustring * A) :=
  concat ((λ kv : ustring * list (ustring * A), (λ ma : ustring * A, (kv.1, ma.1, ma.2)) <$> kv.2) <$> table).

Lemma elem_of_entries {A} (table : list (ustring * list (ustring * A))) key method a :
  (key, method, a) ∈ entries table ↔ ∃ row, (key, row) ∈ table ∧ (method, a) ∈ row.
Proof.
  unfold entries. rewrite elem_of_concat_fmap. split.
  - intros ([k row] & Hk & ([m a'] & [= -> -> ->] & Hm)%list_elem_of_fmap). by exists row.
  - intros (row & Hk & Hm). exists (key, row). split; [done|]. apply list_elem_of_fmap. by exists (method, a).
Qed.

Lemma table_forall {A} (table : list (ustring * list (ustring * A))) (P : ustring * ustring * A → bool) :
  forallb P (entries table) = true →
  ∀ key method a, table_get table key method = Some a → P (key, method, a) = true.
Proof.
  intros H key method a Hg. rewrite forallb_forall in H. apply H, list_elem_of_In, elem_of_entries.
  by apply table_get_entry.
Qed.

(** The permitted operations, with their capability. *)
Definition operation_entries : list (ustring * ustring) :=
  concat ((λ kv : ustring * list ustring, pair kv.1 <$> kv.2) <$> NARROWED_OPERATIONS).

Lemma operation_allowed_entry ty m :
  operation_allowed ty m = true → (ty, m) ∈ operation_entries.
Proof.
  unfold operation_allowed. rewrite bool_decide_eq_true.
  destruct (assoc ty NARROWED_OPERATIONS) as [row|] eqn:E; cbn [default]; [|by intros ?%elem_of_nil].
  apply assoc_Some in E. intros Hm. apply elem_of_concat_fmap. exists (ty, row). split; [done|].
  by apply list_elem_of_fmap_2.
Qed.

(** What one row of a table promises; each is checked over the whole table by computation. *)
Definition effect_row_ok (row : ustring * ustring * ustring) : bool :=
  let '(ty, m, effect) := row in
  bool_decide (effect ∈ CANONICAL_CAPABILITY_EFFECTS) &&
  match power_domain_for_capability_type ty, power_domain_for_effect effect (Some ty) with
  | Some d, Some d' => bool_decide (d = d') && bool_decide (d ∈ CANONICAL_POWER_DOMAINS)
  | _, _ => false
  end &&
  eqb (bool_decide (effect = AUTHORITY_DERIVE)) (bool_decide (is_Some (narrowed_type_for ty m))) &&
  eqb (bool_decide (effect ≠ AUTHORITY_DERIVE)) (operation_allowed ty m).

Definition narrowing_row_ok (row : ustring * ustring * ustring) : bool :=
  let '(root, m, narrowed) := row in
  bool_decide (root ∈ SYSTEM_CAPABILITY_MEMBERS.*2) && bool_decide (narrowed ∈ NARROWED_OPERATIONS.*1) &&
  bool_decide (power_domain_for_capability_type narrowed = power_domain_for_capability_type root) &&
  bool_decide (assoc narrowed ROOT_NARROWING = None) && bool_decide (assoc root NARROWED_OPERATIONS = None) &&
  bool_decide (is_Some (effect_for root m)).

Definition operation_row_ok (row : ustring * ustring) : bool :=
  let '(ty, m) := row in
  bool_decide (is_Some (effect_for ty m)) &&
  (bool_decide (ty ≠ u "DiskReadCaps") ||
   operation_allowed (u "DiskCaps") m && bool_decide (effect_for (u "DiskReadCaps") m = Some DISK_READ)).

Lemma effect_rows_ok : forallb effect_row_ok (entries CAPABILITY_METHOD_EFFECTS) = true.
Proof. vm_compute. reflexivity. Qed.

Lemma narrowing_rows_ok : forallb narrowing_row_ok (entries ROOT_NARROWING) = true.
Proof. vm_compute. reflexivity. Qed.

Lemma operation_rows_ok : forallb operation_row_ok operation_entries = true.
Proof. vm_compute. reflexivity. Qed.

Lemma operation_row ty m : operation_allowed ty m = true → operation_row_ok (ty, m) = true.
Proof.
  intros H%operation_allowed_entry. pose proof operation_rows_ok as Hr. rewrite forallb_forall in Hr.
  by apply Hr, list_elem_of_In.
Qed.

(** A capability method has an effect exactly if it narrows a root or is a
permitted operation of a narrowed capability, and never both; its effect is
canonical, and the boundary check answers with that effect and the power domain
of the capability itself.  No method is refused as unclassified or as crossing
a domain: the only refusal is of an unknown method. *)
Theorem capability_contract_closed ty m :
  match require_capability_method_same_power_domain ty m with
  | Done (effect, domain) =>
      effect_for ty m = Some effect ∧ effect ∈ CANONICAL_CAPABILITY_EFFECTS ∧
      power_domain_for_capability_type ty = Some domain ∧ domain ∈ CANONICAL_POWER_DOMAINS ∧
      capability_method_stays_within_power_domain ty m = true ∧
      (effect = AUTHORITY_DERIVE ↔ is_Some (narrowed_type_for ty m)) ∧
      (effect ≠ AUTHORITY_DERIVE ↔ operation_allowed ty m = true)
  | Raise e =>
      e = UnknownMethod ∧ effect_for ty m = None ∧
      narrowed_type_for ty m = None ∧ operation_allowed ty m = false ∧
      capability_method_stays_within_power_domain ty m = false
  | NoFuel => False
  end.
Proof.
  unfold require_capability_method_same_power_domain, capability_method_stays_within_power_domain.
  destruct (effect_for ty m) as [effect|] eqn:E.
  - pose proof (table_forall _ _ effect_rows_ok ty m effect E) as H. unfold effect_row_ok in H.
    apply andb_true_iff in H as [H Ha]. apply andb_true_iff in H as [H Hn]. apply andb_true_iff in H as [Hc Hd].
    apply bool_decide_eq_true in Hc. apply eqb_prop in Ha, Hn.
    destruct (power_domain_for_capability_type ty) as [d|]; [|done].
    destruct (power_domain_for_effect effect (Some ty)) as [d'|]; [|done].
    apply andb_true_iff in Hd as [Hd Hd2]. apply bool_decide_eq_true in Hd, Hd2. subst d'.
    rewrite bool_decide_eq_false_2 by tauto. rewrite bool_decide_eq_true_2 by done.
    split_and!; try done.
    + by rewrite <- (bool_decide_eq_true (effect = _)), Hn, bool_decide_eq_true.
    + by rewrite <- Ha, bool_decide_eq_true.
  - split_and!; try done.
    + destruct (narrowed_type_for ty m) as [t|] eqn:En; [|done].
      pose proof (table_forall _ _ narrowing_rows_ok ty m t En) as H. unfold narrowing_row_ok in H.
      apply andb_true_iff in H as [_ H]. apply bool_decide_eq_true in H. rewrite E in H. by destruct H.
    + destruct (operation_allowed ty m) eqn:Ea; [|done]. apply operation_row in Ea as [H _]%andb_true_iff.
      apply bool_decide_eq_true in H. rewrite E in H. by destruct H.
Qed.

(** Narrowing only attenuates: a narrowed capability comes from a root the
system hands out, stays in the root's power domain, cannot be narrowed again,
and the read-only disk capability reads what the disk capability reads and
writes nothing. *)
Theorem narrowing_attenuates root m narrowed :
  narrowed_type_for root m = Some narrowed →
  root ∈ SYSTEM_CAPABILITY_MEMBERS.*2 ∧ narrowed ∈ NARROWED_OPERATIONS.*1 ∧
  power_domain_for_capability_type narrowed = power_domain_for_capability_type root ∧
  (∀ m', narrowed_type_for narrowed m' = None) ∧
  (∀ m', operation_allowed root m' = false) ∧
  (∀ m', operation_allowed (u "DiskReadCaps") m' = true →
    operation_allowed (u "DiskCaps") m' = true ∧ effect_for (u "DiskReadCaps") m' = Some DISK_READ).
Proof.
  intros H.
  pose proof (table_forall _ _ narrowing_rows_ok root m narrowed H) as Hb. unfold narrowing_row_ok in Hb.
  repeat (apply andb_true_iff in Hb as [Hb ?]). rewrite !bool_decide_eq_true in *.
  split_and!; try done.
  - intros m'. unfold narrowed_type_for, table_get. by replace (assoc narrowed ROOT_NARROWING) with
      (@None (list (ustring * ustring))).
  - intros m'. unfold operation_allowed. by replace (assoc root NARROWED_OPERATIONS) with (@None (list ustring)).
  - intros m' [_ Hm]%operation_row%andb_true_iff. rewrite bool_decide_eq_false_2 in Hm by tauto.
    apply andb_true_iff in Hm as [? Hm]. by apply bool_decide_eq_true in Hm.
Qed.

Theorem narrowing_attenuates_witness :
  narrowed_type_for (u "DiskRoot") (u "allow_read_only") = Some (u "DiskReadCaps") ∧
  u "DiskRoot" ∈ SYSTEM_CAPABILITY_MEMBERS.*2.
Proof.
  split; [reflexivity|].
  apply (narrowing_attenuates (u "DiskRoot") (u "allow_read_only") (u "DiskReadCaps")). reflexivity.
Defined.
