(* ===== verification/TypeContracts.v ===== *)
(** Type contracts: [src/koschei/type_contracts.py], with the raw-queue gate of
[src/koschei/bounded_queue_contract_gate.py].

A [SemanticError] keeps its code and location; its message is text about the
subject.  A dictionary of declarations is a finite map, the mapping of an
inference the list of its items in insertion order.  [is_sensitive] recurses on
types that substitution builds, so it takes the depth of Python's stack and ends
in [RecursionError] below it. *)

From S2P Require Import Prelude TypeSystem Lexer Ast Capability.

#[export] Instance TypeNode_eq_dec : EqDecision TypeNode.
Proof.
  unfold EqDecision. fix go 1. intros t1 t2. destruct t1 as [|n1|n1|n1 a1|o1], t2 as [|n2|n2|n2 a2|o2]; try (right; discriminate).
  - by left.
  - destruct (decide (n1 = n2)) as [->|]; [by left|right; congruence].
  - destruct (decide (n1 = n2)) as [->|]; [by left|right; congruence].
  - destruct (decide (n1 = n2)) as [->|]; [|right; congruence].
    destruct (@list_eq_dec _ go a1 a2) as [->|]; [by left|right; congruence].
  - destruct (@list_eq_dec _ go o1 o2) as [->|]; [by left|right; congruence].
Defined.

Inductive contract_error :=
  | SemanticError (code : Z) (l : SourceLocation)
  (** A [ValueError] of the type text. *)
  | TypeTextError (e : type_error)
  | RecursionError
  (** An [AssertionError] of a later analysis. *)
  | AssertionError.

Abbreviation contract_result A := (outcome contract_error A).

(** * Tables, with the names that the installed modules add *)

Definition GENERIC_ARITY : list (ustring * nat) :=
  [(u "Option", 1); (u "Result", 2); (u "List", 1); (u "Map", 2); (u "BoundedQueue", 1)]%nat.

Definition RESERVED_TYPE_PARAMETERS : list ustring :=
  [u "Int"; u "Float"; u "String"; u "Bool"; u "Void"; u "Error"; u "Option"; u "Result"; u "List"; u "Map"] ++
  CAPABILITY_TYPES ++ [u "BoundedQueue"; u "Decimal"; u "TaskScope"].

(** * Declarations *)

(** A struct or enum declaration, as the contracts read it. *)
Inductive declaration :=
  | StructOf (d : StructDeclaration)
  | EnumOf (d : EnumDeclaration).

Definition type_parameters_of (d : declaration) : list ustring :=
  match d with StructOf d => struct_type_parameters d | EnumOf d => enum_type_parameters d end.

Definition declaration_name (d : declaration) : ustring :=
  match d with StructOf d => struct_name d | EnumOf d => enum_name d end.

(** The types of the fields, or of the variants that have a payload. *)
Definition component_types (d : declaration) : list TypeRef :=
  match d with StructOf d => field_type <$> struct_fields d | EnumOf d => omap payload_type (variants d) end.

(** [bind_type_variables(parse_type_ref(type_ref), parameters)]. *)
Definition bound_type (parameters : list ustring) (type_ref : option TypeRef) : contract_result TypeNode :=
  match parse_type_ref (names <$> type_ref) with
  | Done t => Done (bind_type_variables (list_to_set parameters) t)
  | Raise e => Raise (TypeTextError e)
  | NoFuel => NoFuel
  end.

Definition declaration_type (d : declaration) (r : TypeRef) : contract_result TypeNode :=
  bound_type (type_parameters_of d) (Some r).

Definition function_type (f : FunctionDeclaration) (r : option TypeRef) : contract_result TypeNode :=
  bound_type (function_type_parameters f) r.

(** * Assignability *)

Section zip_all.
Context {A B : Type} (f : A → B → bool).
(** [all(f(x, y) for x, y in zip(l1, l2))]. *)
Fixpoint zip_all (l1 : list A) (l2 : list B) : bool :=
  match l1, l2 with
  | x :: l1, y :: l2 => f x y && zip_all l1 l2
  | _, _ => true
  end.
End zip_all.

(** The outer recursion is on the expected type, the inner one on the options of
the actual type; [alternatives] of a type that is not a union is the type. *)
Fixpoint is_assignable (expected actual : TypeNode) {struct expected} : bool :=
  (fix against (actual : TypeNode) : bool :=
     match actual with
     | UnknownType => true
     | UnionType options => bool_decide (expected = UnknownType) || forallb against options
     | _ =>
         match expected with
         | UnknownType => true
         | UnionType options => existsb (λ option, is_assignable option actual) options
         | _ =>
             if bool_decide (expected = actual) then true
             else
               match expected, actual with
               | TypeVariable _, _ | _, TypeVariable _ => false
               | NamedType n, GenericType m _ | GenericType n _, NamedType m => bool_decide (n = m)
               | GenericType n args, GenericType m args' =>
                   bool_decide (n = m) && (length args =? length args')%nat && zip_all is_assignable args args'
               | _, _ => false
               end
         end
     end) actual.

Definition require_assignable (expected actual : TypeNode) (l : SourceLocation) : contract_result () :=
  if is_assignable expected actual then Done () else Raise (SemanticError 1301 l).

(** * Inference *)

Abbreviation type_mapping := (list (ustring * TypeNode)).

Definition _same_inference (t1 t2 : TypeNode) : bool := is_assignable t1 t2 && is_assignable t2 t1.

(** A mapping as [substitute_type] takes it. *)
Definition as_map (mapping : type_mapping) : gmap ustring TypeNode := list_to_map mapping.

Section zip_fold.
Context {A B S E : Type} (f : A → B → S → outcome E S).
Fixpoint zip_fold (l1 : list A) (l2 : list B) (s : S) : outcome E S :=
  match l1, l2 with
  | x :: l1, y :: l2 => s ← f x y s; zip_fold l1 l2 s
  | _, _ => Done s
  end.
End zip_fold.

Fixpoint _infer_pattern (l : SourceLocation) (pattern actual : TypeNode) (mapping : type_mapping)
    : contract_result type_mapping :=
  match pattern with
  | TypeVariable name =>
      match actual with
      | UnknownType => Done mapping
      | _ =>
          match dict_get name mapping with
          | None => Done (mapping ++ [(name, actual)])
          | Some previous =>
              if _same_inference previous actual then Done mapping else Raise (SemanticError 1307 l)
          end
      end
  | GenericType n args =>
      match actual with
      | GenericType m args' =>
          if bool_decide (n ≠ m) || negb (length args =? length args')%nat then Done mapping
          else zip_fold (_infer_pattern l) args args' mapping
      | _ => Done mapping
      end
  | UnionType options =>
      if (length (filter (λ o, is_assignable o actual = true) options) =? 1)%nat then
        (** The only candidate. *)
        (fix candidate (options : list TypeNode) : contract_result type_mapping :=
           match options with
           | [] => Done mapping
           | option :: options =>
               if is_assignable option actual then _infer_pattern l option actual mapping else candidate options
           end) options
      else Done mapping
  | _ => Done mapping
  end.

(** The loop over the parameters and the arguments of a call. *)
Definition infer_parameters (f : FunctionDeclaration) (l : SourceLocation)
    : list FunctionParameter → list TypeNode → type_mapping → contract_result type_mapping :=
  zip_fold (λ parameter actual mapping,
    pattern ← function_type f (Some (parameter_type parameter));
    _infer_pattern l pattern actual mapping).

Definition infer_function_mapping (f : FunctionDeclaration) (arguments : list TypeNode) (l : SourceLocation)
    : contract_result type_mapping :=
  if negb (length arguments =? length (parameters f))%nat then Raise (SemanticError 1301 l)
  else infer_parameters f l (parameters f) arguments [].

Definition instantiated_declaration_type (d : declaration) (mapping : type_mapping) : TypeNode :=
  match type_parameters_of d with
  | [] => NamedType (declaration_name d)
  | parameters => GenericType (declaration_name d) ((λ name, default UnknownType (dict_get name mapping)) <$> parameters)
  end.

(** * The validator *)

Record ImportedModule := mk_imported_module {
  imported_functions : list (ustring * FunctionDeclaration);
  imported_structs : list (ustring * StructDeclaration);
  imported_enums : list (ustring * EnumDeclaration);
}.

Record TypeContractValidator := mk_validator {
  validator_structs : gmap ustring StructDeclaration;
  validator_enums : gmap ustring EnumDeclaration;
}.

(** [dict.update]. *)
Definition dict_update {A} (m : gmap ustring A) (items : list (ustring * A)) : gmap ustring A :=
  foldl (λ m kv, <[kv.1 := kv.2]> m) m items.

(** [TypeContractValidator.__init__]. *)
Definition new_validator (program : NativeProgram) (modules : list (ustring * ImportedModule)) : TypeContractValidator :=
  mk_validator
    (foldl dict_update (dict_update ∅ ((λ d, (struct_name d, d)) <$> structs program))
      ((λ m, imported_structs m.2) <$> modules))
    (foldl dict_update (dict_update ∅ ((λ d, (enum_name d, d)) <$> enums program))
      ((λ m, imported_enums m.2) <$> modules)).

(** [any(f(x) for x in l)] and [for x in l: f(x)] of fallible [f]. *)
Section fallible_any.
Context {A E : Type} (f : A → outcome E bool).
Fixpoint fallible_any (l : list A) : outcome E bool :=
  match l with
  | [] => Done false
  | x :: l => b ← f x; if b : bool then Done true else fallible_any l
  end.
End fallible_any.

Section each.
Context {A E : Type} (f : A → outcome E ()).
Fixpoint each (l : list A) : outcome E () :=
  match l with
  | [] => Done ()
  | x :: l => _ ← f x; each l
  end.
End each.

Section validator.
Context (v : TypeContractValidator).
(** How deep Python's stack lets [is_sensitive] nest. *)
Context (recursion_limit : nat).

Definition _generic_declaration (name : ustring) : option declaration :=
  match validator_structs v !! name with
  | Some d => Some (StructOf d)
  | None => EnumOf <$> validator_enums v !! name
  end.

Fixpoint is_sensitive (depth : nat) (t : TypeNode) (seen : gset ustring) : contract_result bool :=
  match depth with
  | O => Raise RecursionError
  | S depth =>
      match t with
      | UnknownType | TypeVariable _ => Done false
      | UnionType options => fallible_any (λ option, is_sensitive depth option seen) options
      | GenericType name arguments =>
          in_arguments ← fallible_any (λ argument, is_sensitive depth argument seen) arguments;
          if in_arguments : bool then Done true
          else
            match _generic_declaration name with
            | None => Done false
            | Some d =>
                let key := render_type t in
                if bool_decide (key ∈ seen) then Done false
                else
                  let mapping := dict_update ∅ (zip (type_parameters_of d) arguments) in
                  fallible_any (λ r,
                    component ← declaration_type d r;
                    is_sensitive depth (substitute_type mapping component) ({[key]} ∪ seen)) (component_types d)
            end
      | NamedType name =>
          if bool_decide (name ∈ CAPABILITY_TYPES) then Done true
          else if bool_decide (name ∈ seen) then Done false
          else
            match _generic_declaration name with
            | None => Done false
            | Some d =>
                fallible_any (λ r,
                  component ← declaration_type d r;
                  is_sensitive depth component ({[name]} ∪ seen)) (component_types d)
            end
      end
  end.

(** [self.is_sensitive(type_node)]. *)
Definition sensitive_type (t : TypeNode) : contract_result bool := is_sensitive recursion_limit t ∅.

Definition reject_sensitive (l : SourceLocation) (t : TypeNode) : contract_result () :=
  b ← sensitive_type t; if b : bool then Raise (SemanticError 2402 l) else Done ().

(** [_structural_validate] of the gate, then [validate_type]. *)
Fixpoint validate_type (l : SourceLocation) (t : TypeNode) : contract_result () :=
  match t with
  | UnknownType | TypeVariable _ => Done ()
  | UnionType options => each (validate_type l) options
  | NamedType name =>
      if bool_decide (name = u "BoundedQueue") then Raise (SemanticError 1301 l)
      else
        match _generic_declaration name with
        | Some d => if bool_decide (type_parameters_of d ≠ []) then Raise (SemanticError 1307 l) else Done ()
        | None => Done ()
        end
  | GenericType name arguments =>
      let d := _generic_declaration name in
      let expected :=
        match assoc name GENERIC_ARITY with
        | Some arity => Some arity
        | None => (λ d, length (type_parameters_of d)) <$> d
        end in
      match expected with
      | None => Raise (SemanticError 1301 l)
      | Some expected =>
          if bool_decide (d ≠ None) && (expected =? 0)%nat then Raise (SemanticError 1301 l)
          else if negb (length arguments =? expected)%nat then Raise (SemanticError 1301 l)
          else
            let map_key_ok :=
              match arguments with
              | TypeVariable _ :: _ | UnknownType :: _ => true
              | k :: _ => bool_decide (k = NamedType (u "String"))
              | [] => true
              end in
            if bool_decide (name = u "Map") && negb map_key_ok then Raise (SemanticError 1301 l)
            else
              _ ← each (validate_type l) arguments;
              b ← fallible_any sensitive_type arguments;
              if b : bool then Raise (SemanticError 2402 l) else Done ()
      end
  end.

Definition _validate_parameter_names (params : list ustring) (l : SourceLocation) : contract_result () :=
  _ ← outcome_fold (λ seen name,
        if bool_decide (name ∈ (seen : list ustring)) then Raise (SemanticError 1307 l)
        else if bool_decide (name ∈ RESERVED_TYPE_PARAMETERS) then Raise (SemanticError 1307 l)
        else Done (name :: seen)) [] params;
  Done ().

Definition location_of_declaration (d : declaration) : SourceLocation :=
  match d with StructOf d => struct_location d | EnumOf d => enum_location d end.

Definition _validate_declaration_parameters (d : declaration) : contract_result () :=
  let params := type_parameters_of d in
  _ ← _validate_parameter_names params (location_of_declaration d);
  if bool_decide (params = []) then Done ()
  else
    types ← outcome_map (declaration_type d) (component_types d);
    let used := ⋃ (unresolved_type_variables <$> types) in
    if bool_decide (filter (λ name, name ∉ used) params ≠ []) then Raise (SemanticError 1307 (location_of_declaration d))
    else Done ().

Definition validate_function (f : FunctionDeclaration) : contract_result () :=
  _ ← _validate_parameter_names (function_type_parameters f) (function_location f);
  if bool_decide (function_name f = u "main") && bool_decide (function_type_parameters f ≠ [])
  then Raise (SemanticError 1307 (function_location f))
  else
    _ ← each (λ p, t ← function_type f (Some (parameter_type p)); validate_type (parameter_location p) t) (parameters f);
    match return_type f with
    | None => Done ()
    | Some r => t ← function_type f (Some r); validate_type (type_location r) t
    end.

Definition validate_struct (d : StructDeclaration) : contract_result () :=
  _ ← _validate_declaration_parameters (StructOf d);
  each (λ field, t ← declaration_type (StructOf d) (field_type field); validate_type (field_location field) t)
    (struct_fields d).

Definition validate_enum (d : EnumDeclaration) : contract_result () :=
  _ ← _validate_declaration_parameters (EnumOf d);
  each (λ variant,
    match payload_type variant with
    | None => Done ()
    | Some r => t ← declaration_type (EnumOf d) r; validate_type (variant_location variant) t
    end) (variants d).

(** [TypeContractValidator.validate]. *)
Definition validate_contracts (program : NativeProgram) : contract_result () :=
  _ ← each validate_struct (structs program);
  _ ← each validate_enum (enums program);
  each validate_function (declarations program).

(** * Instantiation *)

Definition instantiate_function (f : FunctionDeclaration) (arguments : list TypeNode) (l : SourceLocation)
    : contract_result TypeNode :=
  mapping ← infer_function_mapping f arguments l;
  if bool_decide (filter (λ name, dict_get name mapping = None) (function_type_parameters f) ≠ [])
  then Raise (SemanticError 1307 l)
  else
    _ ← each (reject_sensitive l) (mapping.*2);
    _ ← each (λ pa : FunctionParameter * TypeNode,
          pattern ← function_type f (Some (parameter_type pa.1));
          let expected := substitute_type (as_map mapping) pattern in
          _ ← require_assignable expected pa.2 l;
          validate_type l expected) (zip (parameters f) arguments);
    pattern ← function_type f (return_type f);
    let result := substitute_type (as_map mapping) pattern in
    if bool_decide (unresolved_type_variables result ≠ ∅) then Raise (SemanticError 1307 l)
    else _ ← validate_type l result; Done result.

End validator.

(** What [infer_declaration_mapping] asks of its validator: the compiler passes
[TypeContractValidator], the runtime a validator of its own. *)
Class AggregateValidator := {
  aggregate_is_sensitive : TypeNode → contract_result bool;
  aggregate_validate_type : SourceLocation → TypeNode → contract_result ();
}.

Definition compiler_validator (v : TypeContractValidator) (recursion_limit : nat) : AggregateValidator := {|
  aggregate_is_sensitive := sensitive_type v recursion_limit;
  aggregate_validate_type := validate_type v recursion_limit;
|}.

Section aggregate.
Context `{AggregateValidator}.

(** The check of each piece of evidence against the instantiated declaration. *)
Definition check_evidence (d : declaration) (l : SourceLocation) (mapping : type_mapping)
    (pair : TypeRef * TypeNode) : contract_result () :=
  pattern ← declaration_type d pair.1;
  let expected := substitute_type (as_map mapping) pattern in
  _ ← require_assignable expected pair.2 l;
  aggregate_validate_type l expected.

Definition infer_declaration_mapping (d : declaration) (pairs : list (TypeRef * TypeNode)) (l : SourceLocation)
    (allow_missing : bool) : contract_result type_mapping :=
  if bool_decide (type_parameters_of d = []) then
    _ ← each (λ pair : TypeRef * TypeNode,
          expected ← declaration_type d pair.1;
          _ ← require_assignable expected pair.2 l;
          aggregate_validate_type l expected) pairs;
    Done []
  else
    mapping ← outcome_fold (λ mapping (pair : TypeRef * TypeNode),
        pattern ← declaration_type d pair.1; _infer_pattern l pattern pair.2 mapping) [] pairs;
    let missing := filter (λ name, dict_get name mapping = None) (type_parameters_of d) in
    if bool_decide (missing ≠ []) && negb allow_missing then Raise (SemanticError 1307 l)
    else
      let mapping := foldl (λ mapping name,
          match dict_get name mapping with
          | Some _ => (λ kv, if bool_decide (kv.1 = name) then (name, UnknownType) else kv) <$> mapping
          | None => mapping ++ [(name, UnknownType)]
          end) mapping missing in
      _ ← each (λ t, b ← aggregate_is_sensitive t; if b : bool then Raise (SemanticError 2402 l) else Done ()) (mapping.*2);
      _ ← each (check_evidence d l mapping) pairs;
      Done mapping.
End aggregate.

(** * Assignability is an order *)

Lemma assignable_unknown_actual e : is_assignable e UnknownType = true.
Proof. by destruct e. Qed.

Lemma assignable_unknown_expected a : is_assignable UnknownType a = true.
Proof. by destruct a. Qed.

Lemma assignable_union_actual e options :
  is_assignable e (UnionType options) = forallb (is_assignable e) options.
Proof.
  destruct (decide (e = UnknownType)) as [->|He].
  - rewrite assignable_unknown_expected. symmetry. apply forallb_forall. intros. apply assignable_unknown_expected.
  - destruct e; try done; cbn [is_assignable]; by rewrite bool_decide_eq_false_2.
Qed.

(** Neither a union nor unknown. *)
Abbreviation simple := simple_type.

Lemma assignable_union_expected options a :
  simple a = true → is_assignable (UnionType options) a = existsb (λ o, is_assignable o a) options.
Proof. by destruct a. Qed.

Lemma assignable_union_iff e options :
  is_assignable e (UnionType options) = true ↔ ∀ o, o ∈ options → is_assignable e o = true.
Proof. rewrite assignable_union_actual, forallb_forall. setoid_rewrite list_elem_of_In. done. Qed.

Lemma assignable_option_iff options a :
  simple a = true → is_assignable (UnionType options) a = true ↔ ∃ o, o ∈ options ∧ is_assignable o a = true.
Proof. intros Ha. rewrite assignable_union_expected, existsb_exists by done. setoid_rewrite list_elem_of_In. done. Qed.

(** A wider expected type accepts more. *)
Lemma assignable_widen options o : o ∈ options → ∀ a,
  is_assignable o a = true → is_assignable (UnionType options) a = true.
Proof.
  intros Ho a. induction a as [|n|n|n args _|os IH] using TypeNode_nested_ind; intros Ha;
    try (apply assignable_option_iff; [done|]; by exists o); [done|].
  rewrite Forall_forall in IH. apply assignable_union_iff. intros o' Ho'. apply IH; [done|].
  by apply (proj1 (assignable_union_iff _ _) Ha).
Qed.

Lemma zip_all_refl {A} (f : A → A → bool) l : (∀ x, x ∈ l → f x x = true) → zip_all f l l = true.
Proof.
  induction l as [|x l IH]; intros H; [done|]. cbn. rewrite H, IH by (try left; intros; apply H; by right). done.
Qed.

Lemma assignable_refl t : is_assignable t t = true.
Proof.
  induction t as [|n|n|n args IH|os IH] using TypeNode_nested_ind; try (rewrite Forall_forall in IH); try done;
    try (cbn; by rewrite bool_decide_eq_true_2).
  apply assignable_union_iff. intros o Ho. apply (assignable_widen os o); auto.
Qed.

(** Types without unknown parts in which every name is used either always as a
generic or never; [validate_type] enforces this for declared generics. *)
Inductive structural (generics : gset ustring) : TypeNode → Prop :=
  | structural_named n : n ∉ generics → structural generics (NamedType n)
  | structural_variable n : structural generics (TypeVariable n)
  | structural_generic n args :
      n ∈ generics → Forall (structural generics) args → structural generics (GenericType n args)
  | structural_union options : Forall (structural generics) options → structural generics (UnionType options).

Lemma zip_all_spec {A B} (f : A → B → bool) l1 l2 :
  length l1 = length l2 → zip_all f l1 l2 = true ↔ Forall2 (λ x y, f x y = true) l1 l2.
Proof.
  revert l2. induction l1 as [|x l1 IH]; intros [|y l2] Hl; try discriminate; cbn.
  - split; [constructor|done].
  - rewrite andb_true_iff, IH by (by injection Hl). rewrite Forall2_cons. done.
Qed.

(** Two structural simple types are related if they are equal or instances of
the same generic with related arguments. *)
Lemma assignable_simple generics e a :
  structural generics e → structural generics a → simple e = true → simple a = true →
  is_assignable e a = true ↔
  e = a ∨ ∃ n args args', e = GenericType n args ∧ a = GenericType n args' ∧
    Forall2 (λ x y, is_assignable x y = true) args args'.
Proof.
  intros He Ha Hse Hsa. destruct (decide (e = a)) as [->|Hne].
  { split; [by left|]. intros _. apply assignable_refl. }
  destruct e as [|n|n|n args|]; try done; destruct a as [|m|m|m args'|]; try done; cbn [is_assignable];
    rewrite bool_decide_eq_false_2 by done; try (split; [done|intros [?|(?&?&?&?&?&?)]; congruence]).
  - inversion He; inversion Ha; subst. rewrite bool_decide_eq_true. split; [intros ->; done|intros [?|(?&?&?&?&?&?)]; congruence].
  - inversion He; inversion Ha; subst. rewrite bool_decide_eq_true. split; [intros ->; done|intros [?|(?&?&?&?&?&?)]; congruence].
  - rewrite !andb_true_iff, bool_decide_eq_true, Nat.eqb_eq. split.
    + intros [[-> Hl] H]. right. exists m, args, args'. rewrite zip_all_spec in H by done. done.
    + intros [?|(n' & a1 & a2 & [= -> ->] & [= -> ->] & H)]; [congruence|].
      pose proof (Forall2_length _ _ _ H). rewrite zip_all_spec by done. done.
Qed.

Lemma structural_option generics options o :
  structural generics (UnionType options) → o ∈ options → structural generics o.
Proof. inversion 1 as [| | |? Ho]; subst. rewrite Forall_forall in Ho. apply Ho. Qed.

Lemma structural_simple generics t : structural generics t →
  simple t = true ∨ ∃ options, t = UnionType options.
Proof. destruct 1; eauto. Qed.

Lemma Forall2_trans_in {A} (R : A → A → Prop) (l1 l2 l3 : list A) :
  (∀ x y z, x ∈ l1 → y ∈ l2 → z ∈ l3 → R x y → R y z → R x z) →
  Forall2 R l1 l2 → Forall2 R l2 l3 → Forall2 R l1 l3.
Proof.
  revert l2 l3. induction l1 as [|x l1 IH]; intros l2 l3 H H12 H23.
  - inversion H12; subst. by inversion H23; subst.
  - inversion H12 as [|? y ? l2' Hxy H12']; subst. inversion H23 as [|? z ? l3' Hyz H23']; subst. constructor.
    + apply (H x y z); [left..|done|done].
    + apply (IH l2' l3'); [|done|done]. intros x' y' z' ???. apply H; by right.
Qed.

(** [a] accepts what it accepts through [b]. *)
Definition transits generics (a : TypeNode) : Prop := ∀ b c,
  structural generics b → structural generics c →
  is_assignable a b = true → is_assignable b c = true → is_assignable a c = true.

(** It is enough to go through simple types. *)
Lemma transits_lift generics a :
  (∀ b c, structural generics b → structural generics c → simple b = true → simple c = true →
     is_assignable a b = true → is_assignable b c = true → is_assignable a c = true) → transits generics a.
Proof.
  intros Hs b c Hb Hc Hab. revert Hc. induction c as [|n|n|n args _|os IH] using TypeNode_nested_ind; intros Hc Hbc;
    [inversion Hc|..|by apply assignable_union_iff; intros o Ho; rewrite Forall_forall in IH;
       apply IH; [done|by apply (structural_option _ os)|by apply (proj1 (assignable_union_iff _ _) Hbc)]].
  all: match type of Hc with structural _ ?x => set (c := x) in * end; assert (simple c = true) as Hsc by done;
    clearbody c; revert Hab Hbc; induction b as [|m|m|m args' _|os IH] using TypeNode_nested_ind; intros Hab Hbc;
    [inversion Hb|by apply (Hs _ c Hb Hc eq_refl Hsc Hab Hbc)..|];
    apply assignable_option_iff in Hbc as (o & Ho & Hoc); [|done]; rewrite Forall_forall in IH;
    apply (IH o Ho); [by apply (structural_option _ os)|by apply (proj1 (assignable_union_iff _ _) Hab)|done].
Qed.

Lemma assignable_trans generics a : structural generics a → transits generics a.
Proof.
  induction a as [|n|n|n args IH|os IH] using TypeNode_nested_ind; intros Ha; try (rewrite Forall_forall in IH);
    apply transits_lift; intros b c Hb Hc Hsb Hsc Hab Hbc; [inversion Ha|..|].
  4: { apply assignable_option_iff in Hab as (o & Ho & Hob); [|done]. apply (assignable_widen os o Ho).
       apply (IH o Ho (structural_option _ _ _ Ha Ho) b c); done. }
  all: apply (assignable_simple generics) in Hab; [|done..]; apply (assignable_simple generics) in Hbc; [|done..];
    apply (assignable_simple generics); [done..|];
    destruct Hab as [<-|(n1 & a1 & b1 & E1 & -> & Hab)]; [done|]; try discriminate E1.
  destruct Hbc as [<-|(n2 & b2 & c2 & E2 & -> & Hbc)]; [right; by exists n1, a1, b1|].
  injection E1 as <- <-. injection E2 as <- <-. right. exists n, args, c2. split; [done|]. split; [done|].
  inversion Ha as [| |? ? _ Hargs|]; inversion Hb as [| |? ? _ Hbs|]; inversion Hc as [| |? ? _ Hcs|]; subst.
  rewrite Forall_forall in Hargs, Hbs, Hcs.
  apply (Forall2_trans_in _ args b1 c2); [|done|done]. intros x y z Hx Hy Hz. apply (IH x Hx); auto.
Qed.

Lemma assignable_flatten e types :
  (∀ t, t ∈ flatten_types types → is_assignable e t = true) ↔ (∀ t, t ∈ types → is_assignable e t = true).
Proof.
  induction types as [|t0 types IH]; [by split; intros _ t ?%not_elem_of_nil|].
  assert ((∀ t, t ∈ flatten_types (t0 :: types) → is_assignable e t = true) ↔
    is_assignable e t0 = true ∧ ∀ t, t ∈ flatten_types types → is_assignable e t = true) as ->.
  { clear IH. destruct t0; cbn [flatten_types]; rewrite ?assignable_union_iff, ?assignable_unknown_actual;
      setoid_rewrite elem_of_cons || setoid_rewrite elem_of_app || idtac; naive_solver. }
  rewrite IH. clear IH. setoid_rewrite elem_of_cons. naive_solver.
Qed.

(** Assignability is an order on types.  Every type accepts itself; on types
without unknown parts and raw generics acceptance is transitive; and a union is
the least upper bound of its members: it accepts what one of them accepts, and
a type accepts the union of written types exactly if it accepts each of them. *)
Theorem assignable_order generics :
  (∀ t, is_assignable t t = true) ∧
  (∀ a b c, structural generics a → structural generics b → structural generics c →
     is_assignable a b = true → is_assignable b c = true → is_assignable a c = true) ∧
  (∀ options o a, o ∈ options → is_assignable o a = true → is_assignable (UnionType options) a = true) ∧
  (∀ e types, Forall well_formed types →
     is_assignable e (union_type types) = true ↔ ∀ t, t ∈ types → is_assignable e t = true).
Proof.
  split; [apply assignable_refl|]. split; [intros a b c Ha; by apply assignable_trans|].
  split; [intros options o a Ho; by apply assignable_widen|]. intros e types Hw. rewrite <- assignable_flatten.
  assert ((∀ t, t ∈ flatten_types types → is_assignable e t = true) ↔
    ∀ t, t ∈ union_options (flatten_types types) → is_assignable e t = true) as ->.
  { split; intros H t Ht; apply H; [by apply union_options_elem|].
    apply union_options_all; [|done]. intros t'. by apply flatten_well_formed. }
  rewrite union_type_options. destruct (union_options _) as [|t [|t' l]].
  - rewrite assignable_unknown_actual. split; [by intros _ t ?%not_elem_of_nil|done].
  - split; [by intros H x ->%list_elem_of_singleton|intros H; apply H; left].
  - apply assignable_union_iff.
Qed.

Lemma assignable_order_witness :
  is_assignable (UnionType [NamedType (u "Error"); NamedType (u "Int")])
    (union_type [NamedType (u "Int"); NamedType (u "Error")]) = true.
Proof.
  apply (proj2 (proj2 (proj2 (assignable_order ∅)))).
  - repeat first [constructor | discriminate | reflexivity].
  - intros t. rewrite !elem_of_cons. intros [-> | [-> | Hn]]; [reflexivity|reflexivity|].
    destruct (not_elem_of_nil _ Hn).
Defined.

(** A raw container accepts, and is accepted by, every instance, so that
acceptance is not transitive through it. *)
Example raw_container_not_transitive :
  let list_of n := GenericType (u "List") [NamedType (u n)] in
  is_assignable (list_of "Int") (NamedType (u "List")) = true ∧
  is_assignable (NamedType (u "List")) (list_of "String") = true ∧
  is_assignable (list_of "Int") (list_of "String") = false.
Proof. vm_compute. done. Qed.

(** * Inference inverts instantiation *)

Fixpoint union_free (t : TypeNode) : bool :=
  match t with
  | GenericType _ args => forallb union_free args
  | UnionType _ => false
  | _ => true
  end.

Lemma dict_get_snoc (x : ustring) m n t :
  dict_get x (m ++ [(n, t)]) = match dict_get x m with Some t' => Some t' | None => if decide (n = x) then Some t else None end.
Proof.
  rewrite dict_get_app. destruct (dict_get x m); [done|]. unfold dict_get. cbn. by case_bool_decide; case_decide.
Qed.

(** The mapping [m] extended by [sigma] on the variables [X]. *)
Definition extended (sigma : gmap ustring TypeNode) (X : gset ustring) (m m' : type_mapping) : Prop :=
  NoDup m'.*1 ∧ ∀ x, dict_get x m' = if decide (x ∈ X) then sigma !! x else dict_get x m.

(** What is known agrees with [sigma]. *)
Definition agrees (sigma : gmap ustring TypeNode) (m : type_mapping) : Prop :=
  NoDup m.*1 ∧ ∀ x t, dict_get x m = Some t → sigma !! x = Some t.

Lemma extended_agrees sigma X m m' : agrees sigma m → extended sigma X m m' → agrees sigma m'.
Proof. intros [_ H] [Hn H']. split; [done|]. intros x t. rewrite H'. case_decide; [done|apply H]. Qed.

Lemma extended_nil sigma m : NoDup m.*1 → extended sigma ∅ m m.
Proof. intros Hn. split; [done|]. intros x. by rewrite decide_False by set_solver. Qed.

Lemma extended_trans sigma X Y m1 m2 m3 :
  extended sigma X m1 m2 → extended sigma Y m2 m3 → extended sigma (X ∪ Y) m1 m3.
Proof.
  intros [_ H1] [Hn H2]. split; [done|]. intros x. rewrite H2, H1.
  repeat case_decide; try done; exfalso; set_solver.
Qed.

Lemma zip_fold_extended {A} (f : A → TypeNode → type_mapping → contract_result type_mapping)
    (pattern : A → TypeNode) sigma (l : list A) :
  (∀ a m, a ∈ l → agrees sigma m → ∃ m', f a (substitute_type sigma (pattern a)) m = Done m' ∧
     extended sigma (unresolved_type_variables (pattern a)) m m') →
  ∀ m, agrees sigma m → ∃ m', zip_fold f l ((λ a, substitute_type sigma (pattern a)) <$> l) m = Done m' ∧
    extended sigma (⋃ ((λ a, unresolved_type_variables (pattern a)) <$> l)) m m'.
Proof.
  induction l as [|a l IH]; intros Hf m Hm; cbn [fmap list_fmap zip_fold union_list].
  { exists m. split; [done|]. by apply extended_nil, Hm. }
  destruct (Hf a m) as (m1 & -> & H1); [left|done|]. cbn [mbind outcome_bind].
  destruct (IH ltac:(intros a' m' Ha'; apply Hf; by right) m1) as (m2 & E & H2); [by eapply extended_agrees|].
  exists m2. split; [done|]. by eapply extended_trans.
Qed.

(** A variable is bound to its type, or found bound to it. *)
Lemma infer_variable l sigma n m t :
  sigma !! n = Some t → t ≠ UnknownType → agrees sigma m →
  ∃ m', _infer_pattern l (TypeVariable n) t m = Done m' ∧ extended sigma {[n]} m m'.
Proof.
  intros Ht Hne [Hn Ha].
  assert (∃ m', (match dict_get n m with
                | None => Done (m ++ [(n, t)])
                | Some previous => if _same_inference previous t then Done m else Raise (SemanticError 1307 l)
                end) = Done m' ∧ extended sigma {[n]} m m') as (m' & Hm' & He).
  { destruct (dict_get n m) as [previous|] eqn:E.
    - pose proof (Ha n previous E) as Hs. rewrite Ht in Hs. injection Hs as <-. unfold _same_inference.
      rewrite assignable_refl. exists m. split; [done|]. split; [done|]. intros x. case_decide as Hx; [|done].
      apply elem_of_singleton in Hx as ->. by rewrite E, Ht.
    - eexists. split; [done|]. apply dict_get_None in E as E'. split.
      + rewrite fmap_app. apply NoDup_app. split; [done|]. split; [|apply NoDup_singleton].
        intros x Hx ->%list_elem_of_singleton. done.
      + intros x. rewrite dict_get_snoc. destruct (dict_get x m) eqn:Ex.
        * rewrite decide_False; [done|]. intros ->%elem_of_singleton. by rewrite E in Ex.
        * case_decide as Hx; [subst; by rewrite decide_True by set_solver|by rewrite decide_False by set_solver]. }
  exists m'. split; [|done]. rewrite <- Hm'. by destruct t.
Qed.

(** Every variable of [X] has a known type. *)
Definition binds (sigma : gmap ustring TypeNode) (X : gset ustring) : Prop :=
  ∀ x, x ∈ X → ∃ t, sigma !! x = Some t ∧ t ≠ UnknownType.

Lemma infer_subst l sigma p : ∀ m,
  union_free p = true → binds sigma (unresolved_type_variables p) → agrees sigma m →
  ∃ m', _infer_pattern l p (substitute_type sigma p) m = Done m' ∧
    extended sigma (unresolved_type_variables p) m m'.
Proof.
  induction p as [|n|n|n args IH|options IH] using TypeNode_nested_ind; intros m Hu Hv Ha;
    cbn [substitute_type unresolved_type_variables] in *; [exists m; split; [done|apply extended_nil, Ha]..| | |discriminate].
  - destruct (Hv n) as (t & Ht & Hne); [set_solver|]. rewrite Ht. by apply infer_variable.
  - cbn [_infer_pattern]. rewrite length_fmap, bool_decide_eq_false_2, Nat.eqb_refl by (intros H; by apply H). cbn [orb negb].
    apply (zip_fold_extended (_infer_pattern l) (λ p, p)); [|done]. intros p m1 Hp Hm1.
    rewrite Forall_forall in IH. apply IH; [done|by apply (proj1 (forallb_forall _ _) Hu), list_elem_of_In| |done].
    intros x Hx. apply Hv. apply elem_of_union_list. exists (unresolved_type_variables p).
    split; [by apply list_elem_of_fmap_2|done].
Qed.

Lemma bound_type_closed params r t x :
  bound_type params r = Done t → x ∈ unresolved_type_variables t → x ∈ params.
Proof.
  unfold bound_type, parse_type_ref. destruct (names <$> r) as [texts|].
  - destruct (outcome_map _ _) as [types| |] eqn:E; cbn [mbind outcome_bind]; [|done..]. intros [= <-] Hx.
    apply bind_unresolved in Hx as [Hx|Hx]; [by apply elem_of_list_to_set in Hx|exfalso].
    rewrite union_type_closed in Hx; [done|]. apply Forall_forall.
    eapply outcome_map_Forall; [|done]. intros text t _. apply parse_type_text_closed.
  - intros [= <-] Hx. apply (bind_unresolved (list_to_set params) VOID) in Hx as [Hx|Hx];
      [by apply elem_of_list_to_set in Hx|done].
Qed.

Lemma outcome_map_Forall2 {E A B} (f : A → outcome E B) l l' :
  outcome_map f l = Done l' → Forall2 (λ x y, f x = Done y) l l'.
Proof.
  revert l'. induction l as [|x l IH]; intros l'; cbn [outcome_map]; [by intros [= <-]|].
  destruct (f x) as [y| |] eqn:Ex; cbn [mbind outcome_bind]; [|done..].
  destruct (outcome_map f l) as [ys| |]; cbn [mbind outcome_bind]; [|done..]. intros [= <-].
  constructor; [done|]. by apply IH.
Qed.

Lemma bind_done {E A B} (m : outcome E A) (k : A → outcome E B) r :
  (m ≫= k) = Done r → ∃ a, m = Done a ∧ k a = Done r.
Proof. destruct m as [a| |]; [|done..]. intros H. by exists a. Qed.

Lemma zip_fold_ext {A A' B S E} (f : A → B → S → outcome E S) (g : A' → B → S → outcome E S) l l' ts s :
  Forall2 (λ a a', ∀ t s, f a t s = g a' t s) l l' → zip_fold f l ts s = zip_fold g l' ts s.
Proof.
  intros H. revert ts s. induction H as [|a a' l l' Ha _ IH]; intros [|t ts] s; cbn [zip_fold]; try done.
  rewrite Ha. destruct (g a' t s); cbn [mbind outcome_bind]; [apply IH|done..].
Qed.

Lemma as_map_lookup m x : as_map m !! x = dict_get x m.
Proof.
  unfold as_map, dict_get. induction m as [|[y t] m IH]; cbn [list_to_map foldr List.find fst snd]; [done|].
  cbn. case_bool_decide as Hxy; [subst; by rewrite lookup_insert_eq|]. by rewrite lookup_insert_ne.
Qed.


(** * Sensitive types *)

Lemma fallible_any_true {A E} (f : A → outcome E bool) l :
  fallible_any f l = Done true → ∃ x, x ∈ l ∧ f x = Done true.
Proof.
  induction l as [|x l IH]; [done|]. cbn [fallible_any]. intros ([] & Ex & H)%bind_done.
  - exists x. split; [left|done].
  - destruct (IH H) as (y & Hy & Ey). exists y. split; [by right|done].
Qed.

Lemma fallible_any_false {A E} (f : A → outcome E bool) l x :
  fallible_any f l = Done false → x ∈ l → f x = Done false.
Proof.
  induction l as [|y l IH]; [by intros _ ?%not_elem_of_nil|]. cbn [fallible_any].
  intros ([] & Ey & H)%bind_done; [done|]. intros [->|Hx]%elem_of_cons; [done|by apply IH].
Qed.

Section sensitive.
Context (v : TypeContractValidator).

(** The types a value of a type is made of: the alternatives, the arguments, and
the fields or payloads of its declaration. *)
Inductive part : TypeNode → TypeNode → Prop :=
  | part_option options o : o ∈ options → part (UnionType options) o
  | part_argument n args a : a ∈ args → part (GenericType n args) a
  | part_generic n args d r t :
      _generic_declaration v n = Some d → r ∈ component_types d → declaration_type d r = Done t →
      part (GenericType n args) (substitute_type (dict_update ∅ (zip (type_parameters_of d) args)) t)
  | part_named n d r t :
      _generic_declaration v n = Some d → r ∈ component_types d → declaration_type d r = Done t →
      part (NamedType n) t.

Definition made_of : TypeNode → TypeNode → Prop := rtc part.

(** A capability is among the types that [t] is made of. *)
Definition carries_capability (t : TypeNode) : Prop :=
  ∃ c, c ∈ CAPABILITY_TYPES ∧ made_of t (NamedType c).

Lemma carries_part t t' : part t t' → carries_capability t' → carries_capability t.
Proof. intros Hp (c & Hc & Hr). exists c. split; [done|]. by eapply rtc_l. Qed.

Lemma is_sensitive_sound depth : ∀ t seen,
  is_sensitive v depth t seen = Done true → carries_capability t.
Proof.
  induction depth as [|depth IH]; intros t seen; [done|].
  destruct t as [|name|name|name args|options]; cbn [is_sensitive]; try done.
  - case_bool_decide as Hc; [intros _; exists name; split; [done|apply rtc_refl]|].
    case_bool_decide; [done|]. destruct (_generic_declaration v name) as [d|] eqn:Ed; [|done].
    intros (r & Hr & (t & Et & Hs)%bind_done)%fallible_any_true.
    eapply carries_part; [by eapply part_named|]. by eapply IH.
  - intros ([] & Ha & H)%bind_done.
    { apply fallible_any_true in Ha as (a & Hin & Ha). eapply carries_part; [by apply part_argument|]. by eapply IH. }
    destruct (_generic_declaration v name) as [d|] eqn:Ed; [|done]. case_bool_decide; [done|].
    apply fallible_any_true in H as (r & Hr & (t & Et & Hs)%bind_done).
    eapply carries_part; [by eapply part_generic|]. by eapply IH.
  - intros (o & Ho & H)%fallible_any_true. eapply carries_part; [by apply part_option|]. by eapply IH.
Qed.

(** A type that is not found sensitive reaches a capability only through a type
that is being visited, and not on a longer way than that type. *)
Lemma is_sensitive_complete c depth : c ∈ CAPABILITY_TYPES → ∀ n t seen,
  (∀ t', made_of t t' → well_formed t') →
  is_sensitive v depth t seen = Done false → nsteps part n t (NamedType c) →
  ∃ m t', (m <= n)%nat ∧ nsteps part m t' (NamedType c) ∧ made_of t t' ∧ render_type t' ∈ seen.
Proof.
  intros Hc. induction depth as [|depth IH]; [done|]. intros n. induction n as [n IHn] using lt_wf_ind.
  intros t seen Hw Hs Hn.
  assert (∀ n' t' seen', n = S n' → part t t' → nsteps part n' t' (NamedType c) →
    is_sensitive v depth t' seen' = Done false →
    ∃ m t0, (m <= n')%nat ∧ nsteps part m t0 (NamedType c) ∧ made_of t t0 ∧ render_type t0 ∈ seen') as Hstep.
  { intros n' t' seen' -> Hp Hn' Hs'. destruct (IH n' t' seen') as (m & t0 & ? & ? & ? & ?); [|done..|].
    - intros t0 H0. apply Hw. by eapply rtc_l.
    - exists m, t0. split_and!; [done|done|by eapply rtc_l|done]. }
  (** Through the components of the declaration of [t], which becomes visited. *)
  assert (∀ n' t', n = S n' → part t t' → nsteps part n' t' (NamedType c) →
    is_sensitive v depth t' ({[render_type t]} ∪ seen) = Done false →
    ∃ m t0, (m <= n)%nat ∧ nsteps part m t0 (NamedType c) ∧ made_of t t0 ∧ render_type t0 ∈ seen) as Hcomponent.
  { intros n' t' -> Hp Hn' Hs'. destruct (Hstep n' t' _ eq_refl Hp Hn' Hs') as (m & t0 & Hm & H0 & Hr & Hin).
    apply elem_of_union in Hin as [E%elem_of_singleton|Hin].
    - apply render_inj in E as ->; [|by apply Hw|by apply Hw, rtc_refl].
      destruct (IHn m ltac:(lia) t seen Hw Hs H0) as (m' & t1 & ? & ? & ? & ?).
      exists m', t1. split_and!; [lia|done..].
    - exists m, t0. split_and!; [lia|done..]. }
  destruct t as [|name|name|name args|options]; cbn [is_sensitive] in Hs.
  - inversion Hn as [|? ? ? ? Hp]; subst. inversion Hp.
  - case_bool_decide as Hcap; [done|]. case_bool_decide as Hseen.
    { exists n, (NamedType name). split_and!; [lia|done|apply rtc_refl|done]. }
    inversion Hn as [|n' ? t' ? Hp Hn']; subst; [done|]. inversion Hp as [| | |? d r t0 Ed Hr Et]; subst.
    rewrite Ed in Hs. pose proof (fallible_any_false _ _ r Hs Hr) as Hf. cbn beta in Hf. rewrite Et in Hf.
    by apply (Hcomponent n' t').
  - inversion Hn as [|? ? ? ? Hp]; subst. inversion Hp.
  - apply bind_done in Hs as ([] & Ha & Hs); [done|].
    inversion Hn as [|n' ? t' ? Hp Hn']; subst. inversion Hp as [|? ? a Hin|? ? d r t0 Ed Hr Et|]; subst.
    + destruct (Hstep n' t' seen) as (m & t0 & ? & ? & ? & ?); [done..|by apply (fallible_any_false _ _ _ Ha)|].
      exists m, t0. split_and!; [lia|done..].
    + rewrite Ed in Hs. case_bool_decide as Hseen.
      { exists (S n'), (GenericType name args). split_and!; [lia|done|apply rtc_refl|done]. }
      pose proof (fallible_any_false _ _ r Hs Hr) as Hf. cbn beta in Hf. rewrite Et in Hf.
      by apply (Hcomponent n' (substitute_type (dict_update ∅ (zip (type_parameters_of d) args)) t0)).
  - inversion Hn as [|n' ? t' ? Hp Hn']; subst. inversion Hp as [? o Ho| | |]; subst.
    destruct (Hstep n' t' seen) as (m & t0 & ? & ? & ? & ?); [done..|by apply (fallible_any_false _ _ _ Hs)|].
    exists m, t0. split_and!; [lia|done..].
Qed.
End sensitive.

(** C21: The sensitivity check is exact.  If every type that a type is made of is
a written type, the check answers yes exactly if a capability is among them,
through any nesting of unions, generic arguments, struct fields and enum
payloads and through recursive declarations; only running out of stack or an
ill-formed type text keeps it from answering. *)
Theorem sensitive_type_exact v limit t b :
  (∀ t', made_of v t t' → well_formed t') → sensitive_type v limit t = Done b →
  b = true ↔ carries_capability v t.
Proof.
  intros Hw Hs. split; [intros ->; by apply (is_sensitive_sound v limit t ∅)|].
  intros (c & Hc & (n & Hn)%rtc_nsteps). destruct b; [done|]. exfalso.
  destruct (is_sensitive_complete v c limit Hc n t ∅ Hw Hs Hn) as (m & t' & _ & _ & _ & Hin). set_solver.
Qed.

(** ** A small world *)

Definition origin : SourceLocation := mk_location 1 1.
Definition written (text : ustring) : TypeRef := mk_type_ref [text] origin.
Definition field (name text : ustring) : StructField := mk_struct_field name (written text) origin.

Definition handle_struct : StructDeclaration :=
  mk_struct (u "Handle") [field (u "net") (u "NetCaps")] origin [] false None.
Definition box_struct : StructDeclaration :=
  mk_struct (u "Box") [field (u "next") (u "Option<Box<T>>"); field (u "value") (u "T")] origin [u "T"] false None.
(** A struct whose field instantiates it at a larger type. *)
Definition nest_struct : StructDeclaration :=
  mk_struct (u "Nest") [field (u "inner") (u "Nest<List<T>>")] origin [u "T"] false None.

Definition small_world : TypeContractValidator :=
  mk_validator (list_to_map [(u "Handle", handle_struct); (u "Box", box_struct); (u "Nest", nest_struct)]) ∅.

Definition box_of (t : TypeNode) : TypeNode := GenericType (u "Box") [t].
Definition box_parts : list TypeNode :=
  [box_of (NamedType (u "Handle")); GenericType (u "Option") [box_of (NamedType (u "Handle"))];
   NamedType (u "Handle"); NamedType (u "NetCaps")].

Lemma box_parts_closed t t' : t ∈ box_parts → part small_world t t' → t' ∈ box_parts.
Proof.
  unfold box_parts. rewrite !elem_of_cons. intros [->|[->|[->|[->|[]%not_elem_of_nil]]]] Hp.
  - inversion Hp as [|? ? a Ha|? ? d r t0 Ed Hr Et|]; subst.
    + apply list_elem_of_singleton in Ha as ->. auto.
    + vm_compute in Ed. injection Ed as <-. unfold component_types in Hr. cbn in Hr.
      apply elem_of_cons in Hr as [->|Hr]; [|apply list_elem_of_singleton in Hr as ->];
        vm_compute in Et; injection Et as <-; vm_compute; auto.
  - inversion Hp as [|? ? a Ha|? ? d r t0 Ed Hr Et|]; subst.
    + apply list_elem_of_singleton in Ha as ->. auto.
    + vm_compute in Ed. discriminate Ed.
  - inversion Hp as [| | |? d r t0 Ed Hr Et]; subst. vm_compute in Ed. injection Ed as <-.
    apply list_elem_of_singleton in Hr as ->. vm_compute in Et. injection Et as <-. vm_compute. auto.
  - inversion Hp as [| | |? d r t0 Ed Hr Et]; subst. vm_compute in Ed. discriminate Ed.
Qed.

Lemma box_made_of t t' : made_of small_world t t' → t ∈ box_parts → t' ∈ box_parts.
Proof. induction 1 as [|x y z Hp _ IH]; [done|]. intros Hx. by apply IH, (box_parts_closed x). Qed.

Lemma sensitive_type_exact_witness :
  sensitive_type small_world 10 (box_of (NamedType (u "Handle"))) = Done true ∧
  carries_capability small_world (box_of (NamedType (u "Handle"))).
Proof.
  assert (sensitive_type small_world 10 (box_of (NamedType (u "Handle"))) = Done true) as E
    by (vm_compute; reflexivity).
  split; [exact E|]. refine (proj1 (sensitive_type_exact small_world 10 _ true _ E) eq_refl).
  intros t' Hr%box_made_of; [|left]. revert Hr. unfold box_parts. rewrite !elem_of_cons.
  intros [->|[->|[->|[->|[]%not_elem_of_nil]]]];
    repeat first [constructor | discriminate | reflexivity].
Defined.

Definition pair_function : FunctionDeclaration :=
  mk_function (u "pair") [mk_parameter (u "items") (written (u "List<T>")) origin; mk_parameter (u "other") (written (u "T")) origin]
    (Some (written (u "Option<T>"))) (mk_block []) origin false [u "T"] false.


(** ** Polymorphic recursion

The visited types are compared by their text, so a declaration that instantiates
itself at ever larger types is never found visited. *)

Fixpoint nested_list (k : nat) : TypeNode :=
  match k with O => NamedType (u "Int") | S k => GenericType (u "List") [nested_list k] end.

Lemma nested_list_length k : length (render_type (nested_list k)) = (3 + 6 * k)%nat.
Proof.
  induction k as [|k IH]; [done|]. cbn [nested_list render_type fmap list_fmap join].
  rewrite !length_app, IH. cbn. lia.
Qed.

Lemma nested_list_plain depth k seen :
  is_sensitive small_world depth (nested_list k) seen = Raise RecursionError ∨
  is_sensitive small_world depth (nested_list k) seen = Done false.
Proof.
  revert k. induction depth as [|depth IH]; intros k; [by left|]. destruct k as [|k].
  - right. cbn [is_sensitive nested_list]. change (bool_decide (u "Int" ∈ CAPABILITY_TYPES)) with false. cbn iota.
    by case_bool_decide.
  - cbn [is_sensitive nested_list fallible_any]. destruct (IH k) as [->| ->]; [by left|by right].
Qed.

Lemma nest_recursion depth : ∀ k seen,
  (∀ key, key ∈ seen → (length key < length (render_type (GenericType (u "Nest") [nested_list k])))%nat) →
  is_sensitive small_world depth (GenericType (u "Nest") [nested_list k]) seen = Raise RecursionError.
Proof.
  induction depth as [|depth IH]; intros k seen Hseen; [done|]. cbn [is_sensitive fallible_any].
  destruct (nested_list_plain depth k seen) as [->| ->]; cbn [mbind outcome_bind]; [done|].
  rewrite bool_decide_eq_false_2 by (intros Hin; specialize (Hseen _ Hin); lia).
  change (_generic_declaration small_world (u "Nest")) with (Some (StructOf nest_struct)).
  cbn [component_types nest_struct struct_fields fmap list_fmap fallible_any].
  change (declaration_type _ _) with (Done (E := contract_error) (GenericType (u "Nest") [GenericType (u "List") [TypeVariable (u "T")]])).
  cbn [mbind outcome_bind].
  change (substitute_type _ _) with (GenericType (u "Nest") [nested_list (S k)]).
  rewrite (IH (S k)); [done|]. intros key [->%elem_of_singleton|Hin]%elem_of_union.
  - cbn [render_type fmap list_fmap join]. rewrite !length_app, !nested_list_length. lia.
  - specialize (Hseen _ Hin). cbn [render_type fmap list_fmap join] in *.
    rewrite !length_app, !nested_list_length in *. lia.
Qed.

(** The check of the polymorphic recursive struct overflows every stack. *)
Lemma polymorphic_recursion_overflows limit :
  sensitive_type small_world limit (GenericType (u "Nest") [NamedType (u "Int")]) = Raise RecursionError.
Proof. apply (nest_recursion limit 0). set_solver. Qed.
