(* ===== verification/Effects.v ===== *)
(** Effect contracts of [pure] functions: [src/koschei/effect_contracts_v1.py].

[_walk] enumerates the nodes of a syntax tree with their positions; a position
stands for the identity of a node, which is how the typed report names an
expression.  [infer_effect_contracts] classifies every call of every function
and propagates the effects over the local calls to the least fixed point; the
loop takes fuel, and [effect_fuel] is enough.  [check_effect_contracts] rejects a
pure function that has an effect. *)

From S2P Require Import Prelude TypeSystem Lexer Ast Capability TypeContracts.

(** * The nodes of a tree *)

Inductive node :=
  | NExpression (e : Expression)
  | NArm (a : MatchArm)
  | NStatement (s : Statement)
  | NBlock (b : Block).

(** A node by the indices of the children on the way to it. *)
Abbreviation path := (list nat).

Section number.
Context {A B : Type} (f : nat → A → list B).
(** The results of the elements and their indices from [i] on. *)
Fixpoint number (i : nat) (l : list A) : list B :=
  match l with
  | [] => []
  | x :: l => f i x ++ number (S i) l
  end.
End number.

Fixpoint walk_expression (p : path) (e : Expression) {struct e} : list (path * node) :=
  (p, NExpression e) ::
  match e with
  | Identifier _ _ | Literal _ _ => []
  | InterpolatedString items _ | ListLiteral items _ => number (λ i x, walk_expression (p ++ [i]) x) 0 items
  | StructLiteral _ fields _ => number (λ i f, walk_expression (p ++ [i]) f.2) 0 fields
  | MapLiteral entries _ =>
      number (λ i e, walk_expression (p ++ [(2 * i)%nat]) e.1 ++ walk_expression (p ++ [S (2 * i)]) e.2) 0 entries
  | MemberExpression object _ _ => walk_expression (p ++ [0%nat]) object
  | CallExpression callee arguments _ =>
      walk_expression (p ++ [0%nat]) callee ++ number (λ i x, walk_expression (p ++ [i]) x) 1 arguments
  | AssignmentExpression x y _ | BinaryExpression x _ y _ | OrElseExpression x y _ =>
      walk_expression (p ++ [0%nat]) x ++ walk_expression (p ++ [1%nat]) y
  | UnaryExpression _ x _ => walk_expression (p ++ [0%nat]) x
  | OrReturnExpression x y _ =>
      walk_expression (p ++ [0%nat]) x ++
      match y with Some y => walk_expression (p ++ [1%nat]) y | None => [] end
  | OrBlockExpression x b _ => walk_expression (p ++ [0%nat]) x ++ walk_block (p ++ [1%nat]) b
  | MatchExpression x arms _ =>
      walk_expression (p ++ [0%nat]) x ++ number (λ i a, walk_arm (p ++ [i]) a) 1 arms
  end
with walk_arm (p : path) (a : MatchArm) {struct a} : list (path * node) :=
  (p, NArm a) ::
  match a with
  | mk_arm _ _ (ArmExpression e) _ => walk_expression (p ++ [0%nat]) e
  | mk_arm _ _ (ArmBlock b) _ => walk_block (p ++ [0%nat]) b
  end
with walk_statement (p : path) (s : Statement) {struct s} : list (path * node) :=
  (p, NStatement s) ::
  match s with
  | LetStatement _ _ x _ _ | ExpressionStatement x _ => walk_expression (p ++ [0%nat]) x
  | ReturnStatement x _ => match x with Some x => walk_expression (p ++ [0%nat]) x | None => [] end
  | IfStatement x b e _ =>
      walk_expression (p ++ [0%nat]) x ++ walk_block (p ++ [1%nat]) b ++
      match e with
      | Some (ElseBlock b') => walk_block (p ++ [2%nat]) b'
      | Some (ElseIf s') => walk_statement (p ++ [2%nat]) s'
      | None => []
      end
  | WhileStatement x b _ | ForStatement _ x b _ =>
      walk_expression (p ++ [0%nat]) x ++ walk_block (p ++ [1%nat]) b
  | BreakStatement _ | ContinueStatement _ => []
  end
with walk_block (p : path) (b : Block) {struct b} : list (path * node) :=
  (p, NBlock b) :: let 'mk_block statements := b in number (λ i s, walk_statement (p ++ [i]) s) 0 statements.

(** [_walk], the dataclasses without calls (locations and type references) left out. *)
Definition _walk (p : path) (n : node) : list (path * node) :=
  match n with
  | NExpression e => walk_expression p e
  | NArm a => walk_arm p a
  | NStatement s => walk_statement p s
  | NBlock b => walk_block p b
  end.

(** * Effects of calls *)

Definition _CONSOLE_BUILTINS : list ustring := [u "print"; u "println"].
Definition _QUEUE_BUILTINS : list ustring :=
  [u "bounded_queue"; u "queue_try_send"; u "queue_try_recv"; u "queue_len"; u "queue_capacity"].
Definition _TASK_BUILTINS : list ustring :=
  [u "task_scope"; u "task_spawn"; u "task_join_all"; u "task_pending"; u "task_capacity"; u "task_closed";
   u "task_cancel"; u "task_cancel_all"].
Definition _PURE_BUILTINS : list ustring :=
  [u "Error"; u "Some"; u "None"; u "Ok"; u "Err"; u "parse_json"; u "decimal"; u "decimal_add"; u "decimal_sub";
   u "decimal_cmp"; u "decimal_text"; u "parallel_map"].
Definition _PURE_VALUE_METHODS : list ustring :=
  [u "length"; u "to_int"; u "to_float"; u "contains"; u "trim"; u "split"; u "join"; u "get"; u "push"; u "sort";
   u "keys"; u "set"; u "status"; u "text"].

Record FunctionEffects := mk_function_effects {
  direct_calls : list ustring;
  imported_calls : list ustring;
  direct_effects : list ustring;
  effects : list ustring;
}.

Abbreviation EffectReport := (gmap ustring FunctionEffects).

Definition _base_name (t : TypeNode) : option ustring :=
  match t with NamedType n | TypeVariable n | GenericType n _ => Some n | UnknownType | UnionType _ => None end.

(** What a call contributes to the function that makes it. *)
Inductive contribution :=
  | LocalCall (name : ustring)
  | ImportedCall (alias name : ustring)
  | Effect (effect : ustring)
  | NoEffect.

(** The typed expressions of a report: function index and position. *)
Abbreviation TypedExpressions := (list ((nat * path) * TypeNode)).

(** The effects of each function so far. *)
Abbreviation resolved_map := (gmap ustring (gset ustring)).

Section inference.
Context (program : NativeProgram) (imports : list (ustring * ImportedModule)).
Context (typed_report : TypedExpressions).
Context (imported_effects : list (ustring * EffectReport)).
Context (recursion_limit : nat).

(** [expression_types.get(id(expression))]: the last entry counts. *)
Definition expression_type (function : nat) (p : path) : option TypeNode := assoc (function, p) (rev typed_report).

Definition local_names : list ustring := function_name <$> declarations program.

Definition builtin_call (name : ustring) (arguments : list Expression) : contribution :=
  if bool_decide (name ∈ _CONSOLE_BUILTINS) then Effect (u "console.write")
  else if bool_decide (name ∈ _QUEUE_BUILTINS) then Effect (u "shared-memory.queue")
  else if bool_decide (name ∈ _TASK_BUILTINS) then Effect (u "concurrency.task")
  else if bool_decide (name = u "parallel_map") then
    match arguments with
    | _ :: Identifier worker _ :: _ =>
        if bool_decide (worker ∈ local_names) then LocalCall worker else Effect (u "unknown.parallel-worker")
    | _ => Effect (u "unknown.parallel-worker")
    end
  else if bool_decide (name ∈ _PURE_BUILTINS) then NoEffect
  else if bool_decide (name ∈ variant_name <$> concat (variants <$> enums program)) then NoEffect
  else Effect (u "unknown.call:" ++ name).

Definition method_call (type_name : option ustring) (member : ustring) : contribution :=
  match effect_for (default [] type_name) member with
  | Some effect => Effect effect
  | None =>
      if bool_decide (member = u "filter") then Effect (u "unknown.higher-order")
      else if bool_decide (member ∈ _PURE_VALUE_METHODS) then NoEffect
      else Effect (u "unknown.method:" ++ member)
  end.

(** The body of the loop over the calls, for the call at position [p]. *)
Definition call_contribution (function : nat) (p : path) (callee : Expression) (arguments : list Expression)
    : contribution :=
  match callee with
  | Identifier name _ =>
      if bool_decide (name ∈ local_names) then LocalCall name else builtin_call name arguments
  | MemberExpression receiver member _ =>
      match receiver with
      | Identifier alias _ =>
          if bool_decide (alias ∈ imports.*1) then ImportedCall alias member
          else method_call (expression_type function (p ++ [0; 0]%nat) ≫= _base_name) member
      | _ => method_call (expression_type function (p ++ [0; 0]%nat) ≫= _base_name) member
      end
  | _ => Effect (u "unknown.indirect-call")
  end.

(** The contributions of the calls of a function, in the order of [_walk]. *)
Definition contributions (function : nat) (f : FunctionDeclaration) : list contribution :=
  omap (λ pn : path * node,
    match pn.2 with
    | NExpression (CallExpression callee arguments _) => Some (call_contribution function pn.1 callee arguments)
    | _ => None
    end) (_walk [] (NBlock (body f))).

Definition contracts : TypeContractValidator := new_validator program imports.

Definition _signature_effects (f : FunctionDeclaration) : contract_result (gset ustring) :=
  effects ← outcome_fold (λ effects p,
      t ← function_type f (Some (parameter_type p));
      b ← sensitive_type contracts recursion_limit t;
      Done (if b : bool then {[u "authority.input"]} ∪ effects else effects)) ∅ (parameters f);
  match return_type f with
  | None => Done effects
  | Some r =>
      t ← function_type f (Some r);
      b ← sensitive_type contracts recursion_limit t;
      Done (if b : bool then {[u "authority.output"]} ∪ effects else effects)
  end.

(** The direct effects, the local and the imported calls of a function. *)
Record summary := mk_summary {
  summary_effects : gset ustring;
  summary_calls : gset ustring;
  summary_imported : gset (ustring * ustring);
}.

Definition add_contribution (s : summary) (c : contribution) : summary :=
  match c with
  | LocalCall g => mk_summary (summary_effects s) ({[g]} ∪ summary_calls s) (summary_imported s)
  | ImportedCall alias g => mk_summary (summary_effects s) (summary_calls s) ({[(alias, g)]} ∪ summary_imported s)
  | Effect e => mk_summary ({[e]} ∪ summary_effects s) (summary_calls s) (summary_imported s)
  | NoEffect => s
  end.

Definition summarize (function : nat) (f : FunctionDeclaration) : contract_result summary :=
  effects ← _signature_effects f;
  Done (foldl add_contribution (mk_summary effects ∅ ∅) (contributions function f)).

(** The summaries by function name. *)
Fixpoint summarize_all (i : nat) (fs : list FunctionDeclaration) (m : gmap ustring summary)
    : contract_result (gmap ustring summary) :=
  match fs with
  | [] => Done m
  | f :: fs => s ← summarize i f; summarize_all (S i) fs (<[function_name f := s]> m)
  end.

(** The effects of an imported call. *)
Definition imported_summary (call : ustring * ustring) : gset ustring :=
  match report ← assoc call.1 imported_effects; (report : EffectReport) !! call.2 with
  | None => {[u "unknown.import:" ++ call.1 ++ u "." ++ call.2]}
  | Some summary => list_to_set (effects summary)
  end.

(** [resolved] before the loop. *)
Definition initial_effects (s : summary) : gset ustring :=
  summary_effects s ∪ ⋃ (imported_summary <$> elements (summary_imported s)).

(** ** The fixed point *)

(** [resolved[name]]; every callee is a declared function. *)
Definition resolved_of (resolved : resolved_map) (name : ustring) : gset ustring := default ∅ (resolved !! name).

Definition expand (calls : gset ustring) (resolved : resolved_map) (name : ustring) : gset ustring :=
  resolved_of resolved name ∪ ⋃ (resolved_of resolved <$> sorted_text (elements calls)).

(** One function of a round: the new map and whether it has changed. *)
Definition expand_step (summaries : gmap ustring summary) (st : resolved_map * bool) (name : ustring)
    : resolved_map * bool :=
  let calls := default ∅ (summary_calls <$> summaries !! name) in
  let expanded := expand calls st.1 name in
  if bool_decide (expanded = resolved_of st.1 name) then st else (<[name := expanded]> st.1, true).

Fixpoint propagate_effects (fuel : nat) (summaries : gmap ustring summary) (resolved : resolved_map)
    : contract_result resolved_map :=
  match fuel with
  | O => NoFuel
  | S fuel =>
      let '(resolved, changed) :=
        foldl (expand_step summaries) (resolved, false) (sorted_text (elements (dom summaries))) in
      if changed : bool then propagate_effects fuel summaries resolved else Done resolved
  end.

(** Every round but the last adds an effect to a function. *)
Definition effect_fuel (resolved : resolved_map) : nat :=
  S (size (dom resolved) * size (⋃ (snd <$> map_to_list resolved))).

Definition dotted (call : ustring * ustring) : ustring := call.1 ++ u "." ++ call.2.

Definition report_of (resolved : resolved_map) (name : ustring) (s : summary) : FunctionEffects :=
  mk_function_effects
    (sorted_text (elements (summary_calls s)))
    (sorted_text (dotted <$> elements (summary_imported s)))
    (sorted_text (elements (summary_effects s)))
    (sorted_text (elements (resolved_of resolved name))).

Definition infer_effect_contracts : contract_result EffectReport :=
  summaries ← summarize_all 0 (declarations program) ∅;
  let initial := initial_effects <$> summaries in
  resolved ← propagate_effects (effect_fuel initial) summaries initial;
  Done (map_imap (λ name s, Some (report_of resolved name s)) summaries).

(** [functions[name]]: the last declaration of a name. *)
Definition function_declared (name : ustring) : option FunctionDeclaration :=
  List.find (λ f, bool_decide (function_name f = name)) (rev (declarations program)).

Definition check_pure (report : EffectReport) (_ : ()) (name : ustring) : contract_result () :=
  match function_declared name, report !! name with
  | Some f, Some summary =>
      if is_pure f && negb (bool_decide (effects summary = [])) then Raise (SemanticError 3940 (function_location f))
      else Done ()
  | _, _ => Done ()
  end.

Definition check_effect_contracts : contract_result EffectReport :=
  report ← infer_effect_contracts;
  _ ← outcome_fold (check_pure report) () (sorted_text (elements (dom report)));
  Done report.
End inference.

(** * The walk enumerates the positions of a tree *)

Definition children (n : node) : list node :=
  match n with
  | NExpression e =>
      match e with
      | Identifier _ _ | Literal _ _ => []
      | InterpolatedString items _ | ListLiteral items _ => NExpression <$> items
      | StructLiteral _ fields _ => (λ f, NExpression f.2) <$> fields
      | MapLiteral entries _ => concat ((λ e, [NExpression e.1; NExpression e.2]) <$> entries)
      | MemberExpression object _ _ => [NExpression object]
      | CallExpression callee arguments _ => NExpression callee :: (NExpression <$> arguments)
      | AssignmentExpression x y _ | BinaryExpression x _ y _ | OrElseExpression x y _ => [NExpression x; NExpression y]
      | UnaryExpression _ x _ => [NExpression x]
      | OrReturnExpression x y _ => NExpression x :: match y with Some y => [NExpression y] | None => [] end
      | OrBlockExpression x b _ => [NExpression x; NBlock b]
      | MatchExpression x arms _ => NExpression x :: (NArm <$> arms)
      end
  | NArm (mk_arm _ _ (ArmExpression e) _) => [NExpression e]
  | NArm (mk_arm _ _ (ArmBlock b) _) => [NBlock b]
  | NStatement s =>
      match s with
      | LetStatement _ _ x _ _ | ExpressionStatement x _ => [NExpression x]
      | ReturnStatement x _ => match x with Some x => [NExpression x] | None => [] end
      | IfStatement x b e _ =>
          NExpression x :: NBlock b ::
          match e with Some (ElseBlock b') => [NBlock b'] | Some (ElseIf s') => [NStatement s'] | None => [] end
      | WhileStatement x b _ | ForStatement _ x b _ => [NExpression x; NBlock b]
      | BreakStatement _ | ContinueStatement _ => []
      end
  | NBlock (mk_block statements) => NStatement <$> statements
  end.

(** The node at a position. *)
Fixpoint node_at (n : node) (p : path) : option node :=
  match p with
  | [] => Some n
  | i :: p => c ← children n !! i; node_at c p
  end.

Lemma number_fmap {A B C} (f : nat → B → list C) (g : A → B) l : ∀ i,
  number f i (g <$> l) = number (λ i x, f i (g x)) i l.
Proof. induction l as [|x l IH]; intros i; [done|]. cbn. by rewrite IH. Qed.

Lemma number_pairs {A B C} (f : nat → B → list C) (g h : A → B) l : ∀ i,
  number (λ i e, f (2 * i)%nat (g e) ++ f (S (2 * i)) (h e)) i l =
  number f (2 * i) (concat ((λ e, [g e; h e]) <$> l)).
Proof.
  induction l as [|e l IH]; intros i; [done|]. cbn [fmap list_fmap concat app number]. rewrite IH, <- app_assoc.
  by replace (2 * S i)%nat with (S (S (2 * i))) by lia.
Qed.

Lemma elem_of_number {A B} (f : nat → A → list B) l x : ∀ i,
  x ∈ number f i l ↔ ∃ j y, l !! j = Some y ∧ x ∈ f (i + j)%nat y.
Proof.
  induction l as [|y l IH]; intros i; cbn [number].
  - split; [by intros ?%not_elem_of_nil|by intros (?&?&?&?)].
  - rewrite elem_of_app, IH. split.
    + intros [Hx|(j & z & Hz & Hx)]; [exists 0%nat, y; by rewrite Nat.add_0_r|].
      exists (S j), z. by rewrite <- Nat.add_succ_comm.
    + intros ([|j] & z & Hz & Hx); [left|right; exists j, z; by rewrite Nat.add_succ_comm].
      injection Hz as ->. by rewrite Nat.add_0_r in Hx.
Qed.

Lemma number_length {A B} (f : nat → A → list B) l y : ∀ i j,
  l !! j = Some y → (length (f (i + j)%nat y) <= length (number f i l))%nat.
Proof.
  induction l as [|z l IH]; intros i [|j]; cbn [number]; try discriminate; rewrite length_app.
  - intros [= ->]. rewrite Nat.add_0_r. lia.
  - intros Hy. rewrite <- Nat.add_succ_comm. specialize (IH (S i) j Hy). lia.
Qed.

Lemma walk_children p n : _walk p n = (p, n) :: number (λ i c, _walk (p ++ [i]) c) 0 (children n).
Proof.
  destruct n as [e|a|s|b].
  - destruct e; cbn [_walk walk_expression children number app]; rewrite ?number_fmap, ?app_nil_r; try done.
    + f_equal. exact (number_pairs (λ i c, _walk (p ++ [i]) c) (λ e, NExpression e.1) (λ e, NExpression e.2) entries 0).
    + by destruct error; cbn [number app]; rewrite ?app_nil_r.
  - destruct a as [? ? [e|b] ?]; cbn [_walk walk_arm children number app]; by rewrite app_nil_r.
  - destruct s as [| [|] | |? ? [[]|] ?| | | |]; cbn [_walk walk_statement children number app]; by rewrite ?app_nil_r.
  - destruct b as [l]. cbn [_walk walk_block children]. by rewrite number_fmap.
Qed.

(** Induction over the nodes of a tree, with the children of the children. *)
Lemma node_children_ind (P : node → Prop) :
  (∀ n, (∀ c, c ∈ children n → P c ∧ ∀ c', c' ∈ children c → P c') → P n) → ∀ n, P n.
Proof.
  intros Hstep n. cut (P n ∧ ∀ c, c ∈ children n → P c); [tauto|].
  cut (∀ k p n, (length (_walk p n) < k)%nat → P n ∧ ∀ c, c ∈ children n → P c).
  { intros H. by apply (H (S (length (_walk [] n))) []); lia. }
  clear n. induction k as [|k IH]; intros p n Hk; [lia|].
  assert (∀ c, c ∈ children n → P c ∧ ∀ c', c' ∈ children c → P c') as Hc.
  { intros c (i & Hi)%list_elem_of_lookup. apply (IH (p ++ [i])).
    pose proof (number_length (λ i c, _walk (p ++ [i]) c) _ _ 0 i Hi) as Hl. cbn in Hl.
    rewrite walk_children in Hk. cbn [length] in Hk. lia. }
  split; [by apply Hstep|]. intros c Hin. by apply Hc.
Qed.

(** The walk yields exactly the nodes of the tree, each with its position. *)
Lemma elem_of_walk n p q m : (q, m) ∈ _walk p n ↔ ∃ r, q = p ++ r ∧ node_at n r = Some m.
Proof.
  remember (length (_walk p n)) as k eqn:Ek. revert n p Ek. induction k as [k IH] using lt_wf_ind. intros n p Ek.
  rewrite walk_children in Ek. cbn [length] in Ek.
  assert (∀ j c, children n !! j = Some c →
    (q, m) ∈ _walk (p ++ [j]) c ↔ ∃ r, q = (p ++ [j]) ++ r ∧ node_at c r = Some m) as Hchild.
  { intros j c Hj. apply (IH (length (_walk (p ++ [j]) c))); [|done].
    pose proof (number_length (λ i c, _walk (p ++ [i]) c) _ _ 0 j Hj) as Hl. cbn in Hl. lia. }
  rewrite walk_children, elem_of_cons, elem_of_number. split.
  - intros [[= -> ->]|(j & c & Hj & Hc)]; [exists []; by rewrite app_nil_r|].
    apply Hchild in Hc as (r & -> & Hr); [|done]. exists (j :: r). cbn [node_at].
    rewrite Hj. split; [by rewrite <- app_assoc|done].
  - intros ([|j r] & -> & Hr); cbn [node_at] in Hr.
    + left. injection Hr as ->. by rewrite app_nil_r.
    + right. destruct (children n !! j) as [c|] eqn:Hj; [|done]. exists j, c. split; [done|].
      apply Hchild; [done|]. exists r. split; [by rewrite <- app_assoc|done].
Qed.

(** * What the summaries hold *)

Section summaries.
Context (program : NativeProgram) (imports : list (ustring * ImportedModule)).
Context (typed_report : TypedExpressions).
Context (imported_effects : list (ustring * EffectReport)).
Context (recursion_limit : nat).

(** Function number [i] contains a call that contributes [c]. *)
Definition contributes (i : nat) (f : FunctionDeclaration) (c : contribution) : Prop :=
  ∃ p callee arguments l, node_at (NBlock (body f)) p = Some (NExpression (CallExpression callee arguments l)) ∧
    c = call_contribution program imports typed_report i p callee arguments.

Lemma elem_of_contributions i f c :
  c ∈ contributions program imports typed_report i f ↔ contributes i f c.
Proof.
  unfold contributions, contributes. rewrite list_elem_of_omap. split.
  - intros ([p n] & (r & -> & Hn)%elem_of_walk & Hc). cbn [app fst snd] in *.
    destruct n as [[]| | |]; try discriminate Hc. injection Hc as <-. by eexists _, _, _, _.
  - intros (p & callee & arguments & l & Hn & ->). eexists (p, _). rewrite elem_of_walk. split; [by exists p|done].
Qed.

Lemma add_contributions_spec cs : ∀ s,
  let s' := foldl add_contribution s cs in
  (∀ e, e ∈ summary_effects s' ↔ e ∈ summary_effects s ∨ Effect e ∈ cs) ∧
  (∀ g, g ∈ summary_calls s' ↔ g ∈ summary_calls s ∨ LocalCall g ∈ cs) ∧
  (∀ a g, (a, g) ∈ summary_imported s' ↔ (a, g) ∈ summary_imported s ∨ ImportedCall a g ∈ cs).
Proof.
  induction cs as [|c cs IH]; intros s; cbn [foldl].
  - split_and!; intros; split; auto; intros [?|[]%not_elem_of_nil]; done.
  - specialize (IH (add_contribution s c)) as (H1 & H2 & H3). cbv zeta in *. split_and!; intros.
    + rewrite H1, elem_of_cons. destruct c; cbn [add_contribution summary_effects];
        rewrite ?elem_of_union, ?elem_of_singleton; naive_solver.
    + rewrite H2, elem_of_cons. destruct c; cbn [add_contribution summary_calls];
        rewrite ?elem_of_union, ?elem_of_singleton; naive_solver.
    + rewrite H3, elem_of_cons. destruct c; cbn [add_contribution summary_imported];
        rewrite ?elem_of_union, ?elem_of_singleton; naive_solver.
Qed.

(** Function [name] is number [i] of the program. *)
Definition declared (i : nat) (f : FunctionDeclaration) : Prop := declarations program !! i = Some f.

Lemma summarize_all_spec fs : ∀ i m m',
  summarize_all program imports typed_report recursion_limit i fs m = Done m' →
  NoDup (function_name <$> fs) → (∀ f, f ∈ fs → m !! function_name f = None) →
  ∀ name s, m' !! name = Some s ↔
    m !! name = Some s ∨ ∃ j f, fs !! j = Some f ∧ name = function_name f ∧
      summarize program imports typed_report recursion_limit (i + j) f = Done s.
Proof.
  induction fs as [|f fs IH]; intros i m m'; cbn [summarize_all].
  { intros [= <-] _ _ name s. split; [by left|]. by intros [?|(?&?&?&_)]. }
  intros (s0 & Es & Hm')%bind_done Hnd Hfresh name s. cbn [fmap list_fmap] in Hnd. apply NoDup_cons in Hnd as [Hf Hnd].
  rewrite (IH _ _ _ Hm' Hnd).
  2: { intros f' Hf'. rewrite lookup_insert_ne; [apply Hfresh; by right|]. intros E. apply Hf. rewrite E.
       by apply list_elem_of_fmap_2. }
  assert (m !! function_name f = None) as Hnone by (apply Hfresh; left). split.
  - intros [[[<- <-]|[Hne Hm]]%lookup_insert_Some|(j & f' & Hj & -> & Hs)]; [right|by left|right].
    + exists 0%nat, f. by rewrite Nat.add_0_r.
    + exists (S j), f'. by rewrite Nat.add_succ_r.
  - intros [Hm|([|j] & f' & Hj & -> & Hs)].
    + left. rewrite lookup_insert_ne; [done|]. intros <-. congruence.
    + injection Hj as ->. rewrite Nat.add_0_r, Es in Hs. injection Hs as ->. left. by rewrite lookup_insert_eq.
    + right. exists j, f'. by rewrite Nat.add_succ_l, <- Nat.add_succ_r.
Qed.

Lemma summarize_all_dom fs : ∀ i m m',
  summarize_all program imports typed_report recursion_limit i fs m = Done m' →
  dom m' = dom m ∪ list_to_set (function_name <$> fs).
Proof.
  induction fs as [|f fs IH]; intros i m m'; cbn [summarize_all]; [intros [= <-]; set_solver|].
  intros (s0 & Es & Hm')%bind_done. rewrite (IH _ _ _ Hm'), dom_insert_L. cbn [fmap list_fmap list_to_set].
  set_solver.
Qed.
End summaries.

(** * The fixed point *)

Section fixed_point.
Context (summaries : gmap ustring summary).
Context (initial : resolved_map).

Definition calls_of (name : ustring) : gset ustring := default ∅ (summary_calls <$> summaries !! name).

(** A local call from [f] to [g]. *)
Definition calls_to (f g : ustring) : Prop := g ∈ calls_of f.

(** An effect of a function that [name] reaches by local calls. *)
Definition flows (name effect : ustring) : Prop :=
  ∃ g, rtc calls_to name g ∧ effect ∈ resolved_of initial g.

Lemma elem_of_expand calls R name e :
  e ∈ expand calls R name ↔ e ∈ resolved_of R name ∨ ∃ g, g ∈ calls ∧ e ∈ resolved_of R g.
Proof.
  unfold expand. rewrite elem_of_union, elem_of_union_list. f_equiv. split.
  - intros (X & HX & He). apply list_elem_of_fmap in HX as (g & -> & Hg). exists g. split; [|done].
    by rewrite sorted_text_perm, elem_of_elements in Hg.
  - intros (g & Hg & He). exists (resolved_of R g). split; [|done]. apply list_elem_of_fmap_2.
    by rewrite sorted_text_perm, elem_of_elements.
Qed.

(** Between the initial effects and the effects that flow in, with the same functions. *)
Definition bounded (R : resolved_map) : Prop :=
  (∀ n, resolved_of initial n ⊆ resolved_of R n) ∧ (∀ n e, e ∈ resolved_of R n → flows n e).

Lemma resolved_insert R name X n :
  resolved_of (<[name := X]> R) n = if decide (n = name) then X else resolved_of R n.
Proof.
  unfold resolved_of. case_decide as Hn; [subst; by rewrite lookup_insert_eq|]. by rewrite lookup_insert_ne.
Qed.

Lemma flows_call f g e : g ∈ calls_of f → flows g e → flows f e.
Proof. intros Hg (h & Hr & He). exists h. split; [by eapply rtc_l|done]. Qed.

Lemma expand_step_bounded st name :
  bounded st.1 → bounded (expand_step summaries st name).1.
Proof.
  intros [H1 H2]. unfold expand_step. case_bool_decide; [by split|]. cbn [fst]. split.
  - intros n. rewrite resolved_insert. case_decide as Hn; [subst|done]. intros e He. apply elem_of_expand. left. by apply H1.
  - intros n e. rewrite resolved_insert. case_decide as Hn; [subst|by apply H2].
    intros [He|(g & Hg & He)]%elem_of_expand; [by apply H2|]. eapply flows_call; [done|]. by apply H2.
Qed.

(** The effects that can occur at all. *)
Definition universe : gset ustring := ⋃ (snd <$> map_to_list initial).

Lemma initial_universe n : resolved_of initial n ⊆ universe.
Proof.
  unfold resolved_of. destruct (initial !! n) as [X|] eqn:E; cbn [default]; [|set_solver]. intros e He.
  apply elem_of_union_list. exists X. split; [|done]. apply list_elem_of_fmap. exists (n, X).
  split; [done|]. by apply elem_of_map_to_list.
Qed.

Lemma bounded_universe R n : bounded R → resolved_of R n ⊆ universe.
Proof. intros [_ H] e (g & _ & He)%H. by apply initial_universe in He. Qed.

Definition names_of_summaries : list ustring := sorted_text (elements (dom summaries)).

(** How many effects can still be added. *)
Definition missing_effects (R : resolved_map) : nat :=
  sum_list_with (λ n, size universe - size (resolved_of R n))%nat names_of_summaries.

Lemma expand_step_progress st name :
  bounded st.1 → name ∈ names_of_summaries →
  (expand_step summaries st name = st ∧ expand (calls_of name) st.1 name = resolved_of st.1 name) ∨
  ((expand_step summaries st name).2 = true ∧
   (missing_effects (expand_step summaries st name).1 < missing_effects st.1)%nat).
Proof.
  intros Hb Hin. pose proof (expand_step_bounded st name Hb) as Hb'. revert Hb'. unfold expand_step.
  fold (calls_of name). case_bool_decide as He; [by left|]. cbn [fst snd]. intros Hb'. right. split; [done|].
  assert (resolved_of st.1 name ⊂ expand (calls_of name) st.1 name) as Hsub.
  { split; [intros e; rewrite elem_of_expand; by left|]. intros Hle. apply He. apply set_eq. intros e. split; [apply Hle|].
    rewrite elem_of_expand. by left. }
  pose proof (subset_size _ _ Hsub) as Hsize. pose proof (bounded_universe _ name Hb') as Hu.
  rewrite resolved_insert, decide_True in Hu by done. apply subseteq_size in Hu.
  apply sum_list_with_lt; [|exists name; split; [done|]].
  - intros n _. rewrite resolved_insert. case_decide; [subst|]; lia.
  - rewrite resolved_insert, decide_True by done. lia.
Qed.

(** A round either adds an effect or finds the map stable. *)
Lemma round_progress names : (∀ n, n ∈ names → n ∈ names_of_summaries) → ∀ st, bounded st.1 →
  let st' := foldl (expand_step summaries) st names in
  bounded st'.1 ∧ (missing_effects st'.1 <= missing_effects st.1)%nat ∧
  ((st' = st ∧ ∀ n, n ∈ names → expand (calls_of n) st.1 n = resolved_of st.1 n) ∨
   (st'.2 = true ∧ (missing_effects st'.1 < missing_effects st.1)%nat)).
Proof.
  induction names as [|n names IH]; intros Hnames st Hb; cbn [foldl].
  { split_and!; [done|done|]. left. split; [done|]. by intros n ?%not_elem_of_nil. }
  pose proof (expand_step_bounded st n Hb) as Hb1.
  destruct (IH ltac:(intros n' Hn'; apply Hnames; by right) _ Hb1) as (Hb2 & Hle & Hcase).
  destruct (expand_step_progress st n Hb (Hnames n ltac:(left))) as [[E Hfix]|[Ht Hlt]].
  - rewrite E in *. split_and!; [done|done|]. destruct Hcase as [[Est Hall]|?]; [left|by right].
    split; [done|]. intros n' [->|Hn']%elem_of_cons; [done|by apply Hall].
  - split_and!; [done|lia|]. right. destruct Hcase as [[Est _]|[Ht2 Hlt2]]; [|split; [done|lia]].
    rewrite Est. split; [done|lia].
Qed.

Lemma propagate_fixed fuel : ∀ R, bounded R → (missing_effects R < fuel)%nat →
  ∃ R', propagate_effects fuel summaries R = Done R' ∧ bounded R' ∧
    ∀ n, n ∈ dom summaries → ∀ g, g ∈ calls_of n → resolved_of R' g ⊆ resolved_of R' n.
Proof.
  induction fuel as [|fuel IH]; intros R Hb Hf; [lia|]. cbn [propagate_effects].
  fold names_of_summaries.
  destruct (round_progress names_of_summaries (λ _ H, H) (R, false) Hb) as (Hb' & Hle & Hcase).
  destruct (foldl _ _ _) as [R1 changed]. cbn [fst snd] in *. destruct Hcase as [[[= -> ->] Hall]|[-> Hlt]].
  - exists R. split; [done|]. split; [done|]. intros n Hn g Hg e He. rewrite <- Hall.
    + apply elem_of_expand. right. by exists g.
    + unfold names_of_summaries. by rewrite sorted_text_perm, elem_of_elements.
  - apply IH; [done|lia].
Qed.

Lemma missing_effects_bound R : (missing_effects R <= size (dom summaries) * size universe)%nat.
Proof.
  unfold missing_effects. assert (length names_of_summaries = size (dom summaries)) as <-.
  { unfold names_of_summaries. by rewrite sorted_text_perm. }
  induction names_of_summaries as [|n l IH]; cbn [sum_list_with length]; lia.
Qed.

(** The loop ends with the effects that flow into each function. *)
Lemma propagate_exact : dom initial = dom summaries →
  ∃ R, propagate_effects (effect_fuel initial) summaries initial = Done R ∧
    ∀ n e, e ∈ resolved_of R n ↔ flows n e.
Proof.
  intros Hdom. assert (bounded initial) as Hb.
  { split; [done|]. intros n e He. exists n. split; [apply rtc_refl|done]. }
  destruct (propagate_fixed (effect_fuel initial) initial Hb) as (R & HR & [H1 H2] & Hfix).
  { pose proof (missing_effects_bound initial) as Hm. unfold effect_fuel. fold universe. rewrite Hdom. lia. }
  exists R. split; [done|]. intros n e. split; [apply H2|]. intros (g & Hr & He).
  induction Hr as [|n n' g Hc _ IH]; [by apply H1|]. assert (n ∈ dom summaries) as Hn.
  { apply elem_of_dom. unfold calls_to, calls_of in Hc. destruct (summaries !! n); [done|].
    by apply not_elem_of_empty in Hc. }
  specialize (Hfix n Hn n' Hc e). auto.
Qed.
End fixed_point.

(** * What the analysis reports *)

Section report.
Context (program : NativeProgram) (imports : list (ustring * ImportedModule)).
Context (typed_report : TypedExpressions).
Context (imported_effects : list (ustring * EffectReport)).
Context (recursion_limit : nat).

(** What it means for a function to have an effect: its signature takes or
returns a capability, its body contains a call with the effect, the effect is
reported for an imported function that it calls, or for a local function that
it calls. *)
Inductive performs : ustring → ustring → Prop :=
  | performs_signature i f signature e :
      declared program i f → _signature_effects program imports recursion_limit f = Done signature →
      e ∈ signature → performs (function_name f) e
  | performs_call i f e :
      declared program i f → contributes program imports typed_report i f (Effect e) → performs (function_name f) e
  | performs_import i f alias g e :
      declared program i f → contributes program imports typed_report i f (ImportedCall alias g) →
      e ∈ imported_summary imported_effects (alias, g) → performs (function_name f) e
  | performs_local i f g e :
      declared program i f → contributes program imports typed_report i f (LocalCall g) →
      performs g e → performs (function_name f) e.

Lemma summarize_spec i f s :
  summarize program imports typed_report recursion_limit i f = Done s →
  ∃ signature, _signature_effects program imports recursion_limit f = Done signature ∧
    (∀ e, e ∈ summary_effects s ↔ e ∈ signature ∨ contributes program imports typed_report i f (Effect e)) ∧
    (∀ g, g ∈ summary_calls s ↔ contributes program imports typed_report i f (LocalCall g)) ∧
    (∀ a g, (a, g) ∈ summary_imported s ↔ contributes program imports typed_report i f (ImportedCall a g)).
Proof.
  intros (signature & Es & [= <-])%bind_done. exists signature. split; [done|].
  pose proof (add_contributions_spec (contributions program imports typed_report i f) (mk_summary signature ∅ ∅)) as (H1 & H2 & H3).
  cbn [summary_effects summary_calls summary_imported] in *. split_and!; intros.
  - by rewrite H1, elem_of_contributions.
  - rewrite H2, elem_of_contributions. set_solver.
  - rewrite H3, elem_of_contributions. set_solver.
Qed.

Lemma elem_of_initial s e :
  e ∈ initial_effects imported_effects s ↔
  e ∈ summary_effects s ∨ ∃ a g, (a, g) ∈ summary_imported s ∧ e ∈ imported_summary imported_effects (a, g).
Proof.
  unfold initial_effects. rewrite elem_of_union, elem_of_union_list. f_equiv. split.
  - intros (X & HX & He). apply list_elem_of_fmap in HX as ([a g] & -> & Hag). exists a, g.
    by rewrite elem_of_elements in Hag.
  - intros (a & g & Hag & He). exists (imported_summary imported_effects (a, g)). split; [|done].
    apply list_elem_of_fmap_2. by rewrite elem_of_elements.
Qed.

Lemma summarize_all_done fs : ∀ i m m',
  summarize_all program imports typed_report recursion_limit i fs m = Done m' →
  ∀ j f, fs !! j = Some f → ∃ s, summarize program imports typed_report recursion_limit (i + j) f = Done s.
Proof.
  induction fs as [|f0 fs IH]; intros i m m'; cbn [summarize_all]; [done|]. intros (s0 & Es & H)%bind_done [|j] f.
  - intros [= ->]. exists s0. by rewrite Nat.add_0_r.
  - intros Hj. rewrite Nat.add_succ_r, <- Nat.add_succ_l. by eapply IH.
Qed.

Lemma flows_performs summaries :
  NoDup (function_name <$> declarations program) →
  summarize_all program imports typed_report recursion_limit 0 (declarations program) ∅ = Done summaries →
  ∀ n e, flows summaries (initial_effects imported_effects <$> summaries) n e ↔ performs n e.
Proof.
  intros Hnd Hs. pose proof (summarize_all_spec program imports typed_report recursion_limit _ _ _ _ Hs Hnd
    ltac:(intros; apply lookup_empty)) as Hlookup.
  assert (∀ n s, summaries !! n = Some s ↔ ∃ j f, declared program j f ∧ n = function_name f ∧
    summarize program imports typed_report recursion_limit j f = Done s) as Hl.
  { intros n s. rewrite Hlookup, lookup_empty. split; [by intros [?|]|by right]. }
  clear Hlookup. assert (∀ n e, e ∈ resolved_of (initial_effects imported_effects <$> summaries) n ↔
    ∃ s, summaries !! n = Some s ∧ e ∈ initial_effects imported_effects s) as Hinit.
  { intros n e. unfold resolved_of. rewrite lookup_fmap. destruct (summaries !! n) as [s|]; cbn.
    - split; [by exists s|by intros (? & [= <-] & ?)].
    - split; [by intros ?%not_elem_of_empty|by intros (? & ? & _)]. }
  intros n e. split.
  - intros (g & Hr & He). revert He. induction Hr as [n|n n' g Hc _ IH]; intros He.
    + apply Hinit in He as (s & (j & f & Hj & -> & Es)%Hl & He).
      apply summarize_spec in Es as (signature & Esig & H1 & H2 & H3). apply elem_of_initial in He as [He|(a & g & Hag & He)].
      * apply H1 in He as [He|He]; [by eapply performs_signature|by eapply performs_call].
      * apply H3 in Hag. by eapply performs_import.
    + specialize (IH He). unfold calls_to, calls_of in Hc. destruct (summaries !! n) as [s|] eqn:En; [|by apply not_elem_of_empty in Hc].
      apply Hl in En as (j & f & Hj & -> & Es). apply summarize_spec in Es as (_ & _ & _ & H2 & _).
      apply H2 in Hc. by eapply performs_local.
  - assert (∀ i f, declared program i f → ∃ s, summaries !! function_name f = Some s ∧
      summarize program imports typed_report recursion_limit i f = Done s) as Hdone.
    { intros i f Hf. destruct (summarize_all_done _ _ _ _ Hs i f Hf) as (s & Es). exists s. split; [|done].
      apply Hl. by exists i, f. }
    assert (∀ f s e, summaries !! function_name f = Some s → e ∈ initial_effects imported_effects s →
      flows summaries (initial_effects imported_effects <$> summaries) (function_name f) e) as Hflow.
    { intros f s e' Hf He. exists (function_name f). split; [apply rtc_refl|]. apply Hinit. by exists s. }
    induction 1 as [i f signature e Hf Esig He|i f e Hf Hc|i f a g e Hf Hc He|i f g e Hf Hc _ IH];
      destruct (Hdone i f Hf) as (s & Hn & Es); apply summarize_spec in Es as (signature' & Esig' & H1 & H2 & H3).
    + rewrite Esig in Esig'. injection Esig' as <-. apply (Hflow f s e Hn), elem_of_initial. left. apply H1. by left.
    + apply (Hflow f s e Hn), elem_of_initial. left. apply H1. by right.
    + apply (Hflow f s e Hn), elem_of_initial. right. exists a, g. by rewrite H3.
    + apply (flows_call _ _ _ g); [|by apply IH]. unfold calls_of. rewrite Hn. by apply H2.
Qed.

Lemma infer_spec :
  NoDup (function_name <$> declarations program) →
  match infer_effect_contracts program imports typed_report imported_effects recursion_limit with
  | Done report =>
      (∀ n, n ∈ dom report ↔ n ∈ function_name <$> declarations program) ∧
      ∀ n s, report !! n = Some s → ∀ e, e ∈ effects s ↔ performs n e
  | Raise _ => True
  | NoFuel => summarize_all program imports typed_report recursion_limit 0 (declarations program) ∅ = NoFuel
  end.
Proof.
  intros Hnd. unfold infer_effect_contracts.
  destruct (summarize_all _ _ _ _ _ _ _) as [summaries|e|] eqn:Es; cbn [mbind outcome_bind]; [|done..].
  destruct (propagate_exact summaries (initial_effects imported_effects <$> summaries)) as (R & -> & HR);
    [by rewrite dom_fmap_L|]. cbn [mbind outcome_bind]. split.
  - intros n. rewrite elem_of_dom, map_lookup_imap. pose proof (summarize_all_dom _ _ _ _ _ _ _ _ Es) as Hdom.
    rewrite dom_empty_L, union_empty_l_L in Hdom. rewrite <- (elem_of_list_to_set (C := gset ustring)), <- Hdom, elem_of_dom.
    destruct (summaries !! n); cbn; [split; intros _; by eexists|split; by intros [? ?]].
  - intros n s Hn e. rewrite map_lookup_imap in Hn. destruct (summaries !! n) as [s'|]; [|done]. injection Hn as <-.
    cbn [report_of effects]. rewrite sorted_text_perm, elem_of_elements, HR. by apply flows_performs.
Qed.
End report.

(** * The pure contract *)

Lemma each_no_fuel {A E} (f : A → outcome E ()) l : (∀ x, x ∈ l → f x ≠ NoFuel) → each f l ≠ NoFuel.
Proof.
  induction l as [|x l IH]; intros H; [done|]. cbn [each]. pose proof (H x ltac:(left)) as Hx.
  destruct (f x) as [[]| |]; cbn [mbind outcome_bind]; [|done..]. apply IH. intros y Hy. apply H. by right.
Qed.

Lemma fallible_any_no_fuel {A E} (f : A → outcome E bool) l :
  (∀ x, x ∈ l → f x ≠ NoFuel) → fallible_any f l ≠ NoFuel.
Proof.
  induction l as [|x l IH]; intros H; [done|]. cbn [fallible_any]. pose proof (H x ltac:(left)) as Hx.
  destruct (f x) as [[]| |]; cbn [mbind outcome_bind]; [done| |done..]. apply IH. intros y Hy. apply H. by right.
Qed.

Lemma bind_no_fuel {E A B} (m : outcome E A) (k : A → outcome E B) :
  m ≠ NoFuel → (∀ a, m = Done a → k a ≠ NoFuel) → (m ≫= k) ≠ NoFuel.
Proof. intros Hm Hk. destruct m as [a| |]; [by apply Hk|done..]. Qed.

Lemma bound_type_no_fuel params r : bound_type params r ≠ NoFuel.
Proof.
  unfold bound_type, parse_type_ref. destruct (names <$> r) as [texts|]; [|done].
  pose proof (outcome_map_no_fuel type_of_text texts ltac:(intros text _; apply parse_type_text_fuel; lia)) as H.
  by destruct (outcome_map _ _).
Qed.

Lemma is_sensitive_no_fuel v depth : ∀ t seen, is_sensitive v depth t seen ≠ NoFuel.
Proof.
  induction depth as [|depth IH]; intros t seen; [done|].
  destruct t as [|name|name|name args|options]; cbn [is_sensitive]; try done.
  - repeat (case_bool_decide; [done|]). destruct (_generic_declaration v name); [|done].
    apply fallible_any_no_fuel. intros r _. apply bind_no_fuel; [apply bound_type_no_fuel|]. intros; apply IH.
  - apply bind_no_fuel; [by apply fallible_any_no_fuel|]. intros [] _; [done|].
    destruct (_generic_declaration v name); [|done]. case_bool_decide; [done|].
    apply fallible_any_no_fuel. intros r _. apply bind_no_fuel; [apply bound_type_no_fuel|]. intros; apply IH.
  - by apply fallible_any_no_fuel.
Qed.

Lemma summarize_all_no_fuel program imports typed limit fs : ∀ i m,
  summarize_all program imports typed limit i fs m ≠ NoFuel.
Proof.
  induction fs as [|f fs IH]; intros i m; cbn [summarize_all]; [done|].
  apply bind_no_fuel; [|intros; apply IH]. unfold summarize. apply bind_no_fuel; [|done].
  unfold _signature_effects. apply bind_no_fuel.
  - apply outcome_fold_no_fuel. intros s p _. apply bind_no_fuel; [apply bound_type_no_fuel|]. intros t _.
    apply bind_no_fuel; [apply is_sensitive_no_fuel|done].
  - intros effects _. destruct (return_type f) as [r|]; [|done]. apply bind_no_fuel; [apply bound_type_no_fuel|]. intros t _.
    apply bind_no_fuel; [apply is_sensitive_no_fuel|done].
Qed.

Lemma summarize_all_raise program imports typed limit fs e : ∀ i m,
  summarize_all program imports typed limit i fs m = Raise e →
  ∃ f, f ∈ fs ∧ ∀ r, _signature_effects program imports limit f ≠ Done r.
Proof.
  induction fs as [|f fs IH]; intros i m; cbn [summarize_all]; [done|].
  destruct (summarize _ _ _ _ i f) as [s|e'|] eqn:Es; cbn [mbind outcome_bind]; [|intros _|done].
  - intros (f' & Hf' & H)%IH. exists f'. split; [by right|done].
  - exists f. split; [left|]. intros r Hr. unfold summarize in Es. by rewrite Hr in Es.
Qed.

Lemma infer_raise program imports typed imported limit e :
  infer_effect_contracts program imports typed imported limit = Raise e →
  ∃ f, f ∈ declarations program ∧ ∀ r, _signature_effects program imports limit f ≠ Done r.
Proof.
  unfold infer_effect_contracts. destruct (summarize_all _ _ _ _ _ _ _) as [summaries|e'|] eqn:Es; [|intros _|done].
  - cbn [mbind outcome_bind]. destruct (propagate_exact summaries (initial_effects imported <$> summaries)) as (R & -> & _);
      [by rewrite dom_fmap_L|done].
  - by apply summarize_all_raise in Es.
Qed.

(** C37: The effect analysis computes exactly the effects of the call graph.  It
always ends, recursion among the functions included; and an effect is reported
for a function exactly if its signature passes a capability, a call at some
position of its body has the effect, an imported function it calls is reported
with it, or a local function that it calls has it. *)
Theorem effects_exact program imports typed imported limit :
  NoDup (function_name <$> declarations program) →
  match infer_effect_contracts program imports typed imported limit with
  | Done report => ∀ f e,
      (∃ s, report !! f = Some s ∧ e ∈ effects s) ↔ performs program imports typed imported limit f e
  | Raise _ => ∃ f, f ∈ declarations program ∧ ∀ r, _signature_effects program imports limit f ≠ Done r
  | NoFuel => False
  end.
Proof.
  intros Hnd. pose proof (infer_spec program imports typed imported limit Hnd) as H.
  pose proof (summarize_all_no_fuel program imports typed limit (declarations program) 0 ∅) as Hno.
  destruct (infer_effect_contracts _ _ _ _ _) as [report|e|] eqn:Ei; [| |by rewrite H in Hno].
  - destruct H as [Hdom He]. intros f e. split; [intros (s & Hs & Hin); by apply (He f s)|]. intros Hp.
    assert (f ∈ dom report) as (s & Hs)%elem_of_dom.
    { apply Hdom. inversion Hp as [i g|i g|i g|i g]; subst; apply list_elem_of_fmap_2; by eapply list_elem_of_lookup_2. }
    exists s. split; [done|]. by apply (He f s).
  - apply (infer_raise _ _ _ _ _ _ Ei).
Qed.

Lemma declared_unique program f :
  NoDup (function_name <$> declarations program) → f ∈ declarations program →
  function_declared program (function_name f) = Some f.
Proof.
  intros Hnd Hf. unfold function_declared.
  destruct (List.find _ _) as [f'|] eqn:E.
  - apply find_some in E as [Hf' E]. apply in_rev, list_elem_of_In in Hf'. apply bool_decide_eq_true in E. f_equal.
    apply list_elem_of_lookup in Hf as [i Hi], Hf' as [j Hj]. enough (i = j) as -> by congruence.
    apply (NoDup_lookup _ _ _ (function_name f) Hnd); rewrite list_lookup_fmap; [by rewrite Hi|by rewrite Hj, <- E].
  - exfalso. pose proof (find_none _ _ E f) as Hn. cbn beta in Hn. rewrite bool_decide_eq_true_2 in Hn by done.
    discriminate Hn. rewrite <- in_rev. by apply list_elem_of_In.
Qed.

Lemma outcome_fold_unit_raise {X A} (f : () → A → outcome X ()) l e :
  outcome_fold f () l = Raise e → ∃ x, x ∈ l ∧ f () x = Raise e.
Proof.
  induction l as [|x l IH]; cbn [outcome_fold]; [done|].
  destruct (f () x) as [[]|e'|] eqn:Ex; cbn [mbind outcome_bind]; [|intros [= ->]|done].
  - intros (y & Hy & Ey)%IH. exists y. split; [by right|done].
  - exists x. split; [left|done].
Qed.

(** The pure check of one function. *)
Lemma check_pure_spec program report f s :
  function_declared program (function_name f) = Some f → report !! function_name f = Some s →
  check_pure program report () (function_name f) =
    if is_pure f && negb (bool_decide (effects s = [])) then Raise (SemanticError 3940 (function_location f)) else Done ().
Proof. intros Hf Hs. unfold check_pure. by rewrite Hf, Hs. Qed.

(** What the analysis and the check establish together. *)
Lemma check_effects_done program imports typed imported limit report :
  NoDup (function_name <$> declarations program) →
  check_effect_contracts program imports typed imported limit = Done report →
  infer_effect_contracts program imports typed imported limit = Done report ∧
  ∀ f s, f ∈ declarations program → is_pure f = true → report !! function_name f = Some s → effects s = [].
Proof.
  intros Hnd (report' & Ei & ([] & Ef & [= ->])%bind_done)%bind_done. split; [done|]. intros f s Hf Hp Hs.
  pose proof (proj1 (outcome_fold_unit_iff _ _) Ef (function_name f)) as Hc.
  rewrite (check_pure_spec _ _ f s), Hp in Hc by (done || by apply declared_unique).
  destruct (bool_decide_reflect (effects s = [])) as [|Hne]; [done|]. discriminate Hc.
  rewrite sorted_text_perm, elem_of_elements. apply elem_of_dom. by exists s.
Qed.

(** C20: The check of the pure contract is exact: it passes exactly if no function
declared [pure] performs any effect, and otherwise it raises KS3940 at a pure
function that performs one. *)
Theorem pure_contract_exact program imports typed imported limit report :
  NoDup (function_name <$> declarations program) →
  infer_effect_contracts program imports typed imported limit = Done report →
  match check_effect_contracts program imports typed imported limit with
  | Done report' => report' = report ∧
      ∀ f, f ∈ declarations program → is_pure f = true →
        ∀ e, ¬ performs program imports typed imported limit (function_name f) e
  | Raise err => ∃ f e, f ∈ declarations program ∧ is_pure f = true ∧
      err = SemanticError 3940 (function_location f) ∧ performs program imports typed imported limit (function_name f) e
  | NoFuel => False
  end.
Proof.
  intros Hnd Ei. pose proof (infer_spec program imports typed imported limit Hnd) as H. rewrite Ei in H.
  destruct H as [Hdom He]. unfold check_effect_contracts. rewrite Ei. cbn [mbind outcome_bind].
  assert (∀ f, f ∈ declarations program → ∃ s, report !! function_name f = Some s ∧
    function_declared program (function_name f) = Some f) as Hreport.
  { intros f Hf. assert (function_name f ∈ dom report) as (s & Hs)%elem_of_dom by by apply Hdom, list_elem_of_fmap_2.
    exists s. split; [done|]. by apply declared_unique. }
  destruct (outcome_fold _ _ _) as [[]|err|] eqn:Ef; cbn [mbind outcome_bind].
  - split; [done|]. intros f Hf Hpure e Hp. destruct (Hreport f Hf) as (s & Hs & Hdecl).
    pose proof (proj1 (outcome_fold_unit_iff _ _) Ef (function_name f)) as Hc.
    rewrite (check_pure_spec _ _ f s), Hpure in Hc by done. apply (He _ _ Hs) in Hp.
    rewrite bool_decide_eq_false_2 in Hc by (intros E; rewrite E in Hp; by apply not_elem_of_nil in Hp).
    discriminate Hc. rewrite sorted_text_perm, elem_of_elements. apply elem_of_dom. by exists s.
  - apply outcome_fold_unit_raise in Ef as (name & Hin & Hc). rewrite sorted_text_perm, elem_of_elements in Hin.
    apply Hdom in Hin as (f & -> & Hf)%list_elem_of_fmap. destruct (Hreport f Hf) as (s & Hs & Hdecl).
    rewrite (check_pure_spec _ _ f s) in Hc by done. destruct (is_pure f) eqn:Hpure; [|done].
    destruct (effects s) as [|e es] eqn:Es; [done|]. injection Hc as <-. exists f, e. split_and!; [done..|].
    apply (He _ _ Hs). rewrite Es. left.
  - by apply outcome_fold_no_fuel in Ef; [|intros [] name _; unfold check_pure; repeat case_match].
Qed.

(** ** A small program *)

Definition call_statement (name : ustring) (arguments : list Expression) : Statement :=
  ExpressionStatement (CallExpression (Identifier name origin) arguments origin) origin.

Definition function_calling (name : ustring) (pure : bool) (statements : list Statement) : FunctionDeclaration :=
  mk_function name [] None (mk_block statements) origin pure [] false.

(** [shout] prints; [again] and the pure [quiet] call each other, and [again] calls [shout]. *)
Definition noisy_program : NativeProgram :=
  mk_program
    [function_calling (u "shout") false [call_statement (u "print") [Literal (LitBool true) origin]];
     function_calling (u "again") false [call_statement (u "quiet") []; call_statement (u "shout") []];
     function_calling (u "quiet") true [WhileStatement (Literal (LitBool false) origin) (mk_block [call_statement (u "again") []]) origin]]
    [] [] [] [].

Lemma noisy_names : NoDup (function_name <$> declarations noisy_program).
Proof. apply (bool_decide_unpack (NoDup [u "shout"; u "again"; u "quiet"])). vm_compute. exact I. Qed.

Definition noisy_report : EffectReport :=
  match infer_effect_contracts noisy_program [] [] [] 100 with Done report => report | _ => ∅ end.

Lemma noisy_infer : infer_effect_contracts noisy_program [] [] [] 100 = Done noisy_report.
Proof. vm_compute. reflexivity. Qed.

Lemma effects_exact_witness : performs noisy_program [] [] [] 100 (u "quiet") (u "console.write").
Proof.
  pose proof (effects_exact noisy_program [] [] [] 100 noisy_names) as H. rewrite noisy_infer in H.
  apply (proj1 (H (u "quiet") (u "console.write"))).
  exists (mk_function_effects [u "again"] [] [] [u "console.write"]).
  split; [vm_compute; reflexivity|left].
Defined.

Lemma pure_contract_exact_witness :
  check_effect_contracts noisy_program [] [] [] 100 = Raise (SemanticError 3940 origin) ∧
  ∃ f e, f ∈ declarations noisy_program ∧ performs noisy_program [] [] [] 100 (function_name f) e.
Proof.
  split; [vm_compute; reflexivity|].
  pose proof (pure_contract_exact noisy_program [] [] [] 100 noisy_report noisy_names noisy_infer) as H.
  destruct (check_effect_contracts noisy_program [] [] [] 100) as [r|err|] eqn:E.
  - exfalso. vm_compute in E. discriminate E.
  - destruct H as (f & e & Hf & _ & _ & Hp). exists f, e. split; [exact Hf|exact Hp].
  - destruct H.
Defined.
