(* ===== verification/Typestate.v ===== *)
(** Typestate resources: [src/koschei/typestate_resources_v1.py].

A [stateful struct] has one state parameter; a value in another than its initial
state is only built by a [transition fn].  As in [Effects], an expression is named
by the index of its function and its position, and the [_walk] of the source is
the one of that file. *)

From S2P Require Import Prelude TypeSystem Lexer Ast Capability TypeContracts Effects.

Definition _CONTAINER_TYPES : list ustring := [u "List"; u "Map"; u "Option"; u "Result"; u "BoundedQueue"].

(** [getattr(type_node, "name", None)]. *)
Definition type_name_of (t : TypeNode) : option ustring :=
  match t with NamedType n | TypeVariable n | GenericType n _ => Some n | UnknownType | UnionType _ => None end.

Section contracts.
Context (v : TypeContractValidator).
(** How deep Python's stack lets [is_typestate_affine] nest. *)
Context (recursion_limit : nat).

Definition _stateful_declaration (t : TypeNode) : option StructDeclaration :=
  match type_name_of t with
  | None => None
  | Some name =>
      match validator_structs v !! name with
      | Some d => if is_stateful d then Some d else None
      | None => None
      end
  end.

(** The declaration and the name of the marker, a [NamedType]. *)
Definition _stateful_instance (t : TypeNode) : option (StructDeclaration * ustring) :=
  match t with
  | GenericType _ arguments =>
      match _stateful_declaration t, arguments with
      | Some d, [NamedType marker] => Some (d, marker)
      | _, _ => None
      end
  | _ => None
  end.

Fixpoint is_typestate_affine (depth : nat) (t : TypeNode) (seen : gset ustring) : contract_result bool :=
  match depth with
  | O => Raise RecursionError
  | S depth =>
      match t with
      | UnknownType | TypeVariable _ => Done false
      | UnionType options => fallible_any (λ option, is_typestate_affine depth option seen) options
      | GenericType name arguments =>
          match _stateful_declaration t with
          | Some _ => Done true
          | None =>
              in_arguments ← fallible_any (λ argument, is_typestate_affine depth argument seen) arguments;
              if in_arguments : bool then Done true
              else
                match validator_structs v !! name with
                | None => Done false
                | Some d =>
                    let key := render_type t in
                    if bool_decide (key ∈ seen) then Done false
                    else
                      let mapping := dict_update ∅ (zip (struct_type_parameters d) arguments) in
                      fallible_any (λ f,
                        component ← declaration_type (StructOf d) (field_type f);
                        is_typestate_affine depth (substitute_type mapping component) ({[key]} ∪ seen)) (struct_fields d)
                end
          end
      | NamedType name =>
          match _stateful_declaration t with
          | Some _ => Done true
          | None =>
              if bool_decide (name ∈ seen) then Done false
              else
                match validator_structs v !! name with
                | None => Done false
                | Some d =>
                    fallible_any (λ f,
                      component ← declaration_type (StructOf d) (field_type f);
                      is_typestate_affine depth component ({[name]} ∪ seen)) (struct_fields d)
                end
          end
      end
  end.

(** [is_typestate_affine(type_node, contracts)]. *)
Definition typestate_affine (t : TypeNode) : contract_result bool := is_typestate_affine recursion_limit t ∅.

Definition _validate_marker (marker : TypeNode) (l : SourceLocation) : contract_result () :=
  match marker with
  | NamedType name =>
      match validator_structs v !! name with
      | None => Raise (SemanticError 3951 l)
      | Some d =>
          if bool_decide (struct_fields d ≠ []) || bool_decide (struct_type_parameters d ≠ []) || is_stateful d
          then Raise (SemanticError 3951 l) else Done ()
      end
  | _ => Raise (SemanticError 3951 l)
  end.

Fixpoint _validate_type (l : SourceLocation) (t : TypeNode) : contract_result () :=
  match t with
  | UnknownType | TypeVariable _ | NamedType _ => Done ()
  | UnionType options => each (_validate_type l) options
  | GenericType name arguments =>
      match _stateful_declaration t with
      | Some _ =>
          match arguments with
          | [marker] => _validate_marker marker l
          | _ => Raise (SemanticError 3950 l)
          end
      | None =>
          _ ← (if bool_decide (name ∈ _CONTAINER_TYPES) then
                 b ← fallible_any typestate_affine arguments;
                 if b : bool then Raise (SemanticError 3952 l) else Done ()
               else Done ());
          each (_validate_type l) arguments
      end
  end.

(** [TypestateResourceChecker._validate_declaration]. *)
Definition _validate_declaration (d : StructDeclaration) : contract_result () :=
  match struct_type_parameters d with
  | [parameter] =>
      match filter (λ f, field_name f = u "state") (struct_fields d) with
      | [state_field] =>
          state_type ← declaration_type (StructOf d) (field_type state_field);
          if bool_decide (state_type ≠ TypeVariable parameter) then Raise (SemanticError 3950 (field_location state_field))
          else
            match initial_state d with
            | None | Some [] => Raise (SemanticError 3950 (struct_location d))
            | Some initial => _validate_marker (NamedType initial) (struct_location d)
            end
      | _ => Raise (SemanticError 3950 (struct_location d))
      end
  | _ => Raise (SemanticError 3950 (struct_location d))
  end.

(** The fields of an ordinary struct and the payloads of an enum. *)
Definition check_struct_fields (d : StructDeclaration) : contract_result () :=
  if is_stateful d then Done ()
  else each (λ f, t ← declaration_type (StructOf d) (field_type f); _validate_type (field_location f) t) (struct_fields d).

Definition check_enum_payloads (d : EnumDeclaration) : contract_result () :=
  each (λ variant,
    match payload_type variant with
    | None => Done ()
    | Some r =>
        payload ← declaration_type (EnumOf d) r;
        b ← typestate_affine payload;
        if b : bool then Raise (SemanticError 3952 (variant_location variant))
        else _validate_type (variant_location variant) payload
    end) (variants d).
End contracts.

(** * Functions *)

Record stateful_literal := mk_stateful_literal {
  literal_path : path;
  literal_location : SourceLocation;
  literal_declaration : StructDeclaration;
  literal_marker : ustring;
}.

(** The whole source of a transition at a position: not the object of a member. *)
Definition escaping (b : Block) (source_name : ustring) (pn : path * node) : option SourceLocation :=
  match pn.2 with
  | NExpression (Identifier name l) =>
      if bool_decide (name = source_name) then
        match node_at (NBlock b) (removelast pn.1) with
        | Some (NExpression (MemberExpression _ _ _)) => None
        | _ => Some l
        end
      else None
  | _ => None
  end.

(** The first use, in the order of [_walk], that is not a field borrow. *)
Definition _reject_source_escape (b : Block) (source_name : ustring) : contract_result () :=
  match omap (escaping b source_name) (_walk [] (NBlock b)) with
  | [] => Done ()
  | l :: _ => Raise (SemanticError 3953 l)
  end.

Section checker.
Context (program : NativeProgram) (imports : list (ustring * ImportedModule)).
Context (typed_report : TypedExpressions).
Context (recursion_limit : nat).

Definition typestate_contracts : TypeContractValidator := new_validator program imports.

Definition literal_at (i : nat) (pn : path * node) : option stateful_literal :=
  match pn.2 with
  | NExpression (StructLiteral _ _ l) =>
      let t := default UnknownType (expression_type typed_report i pn.1) in
      (λ dm : StructDeclaration * ustring, mk_stateful_literal pn.1 l dm.1 dm.2) <$> _stateful_instance typestate_contracts t
  | _ => None
  end.

Definition _stateful_literals (i : nat) (f : FunctionDeclaration) : list stateful_literal :=
  omap (literal_at i) (_walk [] (NBlock (body f))).

Definition _validate_ordinary_construction (i : nat) (f : FunctionDeclaration) : contract_result () :=
  each (λ literal,
    if bool_decide (Some (literal_marker literal) ≠ initial_state (literal_declaration literal))
    then Raise (SemanticError 3953 (literal_location literal)) else Done ()) (_stateful_literals i f).

(** The parameters with a stateful instance, with its declaration and marker. *)
Definition transition_sources (f : FunctionDeclaration)
    : contract_result (list (FunctionParameter * (StructDeclaration * ustring))) :=
  outcome_fold (λ sources p,
    t ← function_type f (Some (parameter_type p));
    Done (match _stateful_instance typestate_contracts t with
          | Some dm => sources ++ [(p, dm)]
          | None => sources
          end)) [] (parameters f).

(** The value of the last statement if it returns a struct literal, its position
and location. *)
Definition final_literal (f : FunctionDeclaration) : contract_result (path * SourceLocation) :=
  let l := statements (body f) in
  match last l with
  | Some (ReturnStatement value location) =>
      match value with
      | Some (StructLiteral _ _ _) => Done ([(length l - 1)%nat; 0%nat], location)
      | _ => Raise (SemanticError 3953 location)
      end
  | _ => Raise (SemanticError 3953 (function_location f))
  end.

Definition _validate_transition (i : nat) (f : FunctionDeclaration) : contract_result () :=
  match return_type f with
  | None => Raise (SemanticError 3953 (function_location f))
  | Some r =>
      if bool_decide (function_name f = u "main") then Raise (SemanticError 3953 (function_location f))
      else
        result ← function_type f (Some r);
        match _stateful_instance typestate_contracts result with
        | None => Raise (SemanticError 3953 (type_location r))
        | Some (target_declaration, target_marker) =>
            _ ← _validate_marker typestate_contracts (NamedType target_marker) (type_location r);
            sources ← transition_sources f;
            match sources with
            | [(source_parameter, (source_declaration, source_marker))] =>
                if bool_decide (struct_name source_declaration ≠ struct_name target_declaration)
                then Raise (SemanticError 3953 (function_location f))
                else
                  _ ← _validate_marker typestate_contracts (NamedType source_marker) (parameter_location source_parameter);
                  if bool_decide (source_marker = target_marker) then Raise (SemanticError 3953 (function_location f))
                  else
                    '(final, final_location) ← final_literal f;
                    if negb (bool_decide (literal_path <$> _stateful_literals i f = [final]))
                    then Raise (SemanticError 3953 (function_location f))
                    else if bool_decide (default UnknownType (expression_type typed_report i final) ≠ result)
                    then Raise (SemanticError 3953 final_location)
                    else _reject_source_escape (body f) (parameter_name source_parameter)
            | _ => Raise (SemanticError 3953 (function_location f))
            end
        end
  end.

Definition check_function (i : nat) (f : FunctionDeclaration) : contract_result () :=
  _ ← each (λ p, t ← function_type f (Some (parameter_type p));
              _validate_type typestate_contracts recursion_limit (parameter_location p) t) (parameters f);
  _ ← match return_type f with
      | None => Done ()
      | Some r => t ← function_type f (Some r); _validate_type typestate_contracts recursion_limit (type_location r) t
      end;
  if is_transition f then _validate_transition i f else _validate_ordinary_construction i f.

Fixpoint check_functions (i : nat) (fs : list FunctionDeclaration) : contract_result () :=
  match fs with
  | [] => Done ()
  | f :: fs => _ ← check_function i f; check_functions (S i) fs
  end.

(** [item.expression.location]; the report names expressions of the program. *)
Definition typed_location (ip : nat * path) : SourceLocation :=
  match f ← declarations program !! ip.1; node_at (NBlock (body f)) ip.2 with
  | Some (NExpression e) => location_of e
  | _ => mk_location 1 1
  end.

Definition check_typestate_resources : contract_result () :=
  _ ← each (λ d, if is_stateful d then _validate_declaration typestate_contracts d else Done ()) (structs program);
  _ ← each (check_struct_fields typestate_contracts recursion_limit) (structs program);
  _ ← each (check_enum_payloads typestate_contracts recursion_limit) (enums program);
  _ ← check_functions 0 (declarations program);
  each (λ item : (nat * path) * TypeNode,
    _validate_type typestate_contracts recursion_limit (typed_location item.1) item.2) typed_report.
End checker.

(** * What the check seals *)

Lemma each_done {A E} (f : A → outcome E ()) l : each f l = Done () → ∀ x, x ∈ l → f x = Done ().
Proof.
  induction l as [|x l IH]; cbn [each]; [by intros _ y ?%elem_of_nil|].
  intros ([] & Hx & Hl)%bind_done y [->|Hy]%elem_of_cons; [done|by apply IH].
Qed.

(** A state marker: a struct without fields, parameters or state. *)
Definition marker_struct (v : TypeContractValidator) (marker : ustring) : Prop :=
  ∃ d, validator_structs v !! marker = Some d ∧ struct_fields d = [] ∧ struct_type_parameters d = [] ∧ is_stateful d = false.

Lemma validate_marker_done v marker l : _validate_marker v (NamedType marker) l = Done () → marker_struct v marker.
Proof.
  cbn [_validate_marker]. destruct (validator_structs v !! marker) as [d|] eqn:Ed; [|done].
  destruct (bool_decide (struct_fields d ≠ [])) eqn:E1; [done|].
  destruct (bool_decide (struct_type_parameters d ≠ [])) eqn:E2; [done|]. destruct (is_stateful d) eqn:E3; [done|].
  intros _. exists d. apply bool_decide_eq_false, dec_stable in E1, E2. done.
Qed.

Lemma check_functions_done program imports typed limit fs : ∀ i,
  check_functions program imports typed limit i fs = Done () →
  ∀ j f, fs !! j = Some f → check_function program imports typed limit (i + j) f = Done ().
Proof.
  induction fs as [|f0 fs IH]; intros i; cbn [check_functions]; [done|]. intros ([] & H0 & H)%bind_done [|j] f.
  - intros [= ->]. by rewrite Nat.add_0_r.
  - intros Hj. rewrite Nat.add_succ_r, <- Nat.add_succ_l. by apply IH.
Qed.

Section sealed.
Context (program : NativeProgram) (imports : list (ustring * ImportedModule)).
Context (typed_report : TypedExpressions).

Abbreviation contracts := (typestate_contracts program imports).

(** The struct literal at position [p] of function [i] builds a value of the
stateful declaration [d] in state [marker]. *)
Definition builds (i : nat) (f : FunctionDeclaration) (p : path) (d : StructDeclaration) (marker : ustring) : Prop :=
  ∃ name fields l, node_at (NBlock (body f)) p = Some (NExpression (StructLiteral name fields l)) ∧
    (expression_type typed_report i p ≫= _stateful_instance contracts) = Some (d, marker).

(** The parameter [source] has the state [marker] of a declaration [d]. *)
Definition takes (f : FunctionDeclaration) (source : FunctionParameter) (d : StructDeclaration) (marker : ustring) : Prop :=
  source ∈ parameters f ∧ ∃ t, function_type f (Some (parameter_type source)) = Done t ∧
    _stateful_instance contracts t = Some (d, marker).

(** A sealed transition: it turns its only stateful parameter into another state
of the same resource, which is what it returns and all it builds, and reads the
parameter only through its fields. *)
Record sealed_transition (i : nat) (f : FunctionDeclaration) (p : path) (d : StructDeclaration) (marker : ustring) : Prop := {
  sealed_declared : is_transition f = true ∧ function_name f ≠ u "main";
  sealed_result : ∃ t r, return_type f = Some r ∧ function_type f (Some r) = Done t ∧
    _stateful_instance contracts t = Some (d, marker) ∧ default UnknownType (expression_type typed_report i p) = t;
  sealed_final : ∃ pre x l, statements (body f) = pre ++ [ReturnStatement (Some x) l] ∧ p = [length pre; 0%nat];
  sealed_only : ∀ p' d' marker', builds i f p' d' marker' → p' = p;
  sealed_source : ∃ source d' marker', takes f source d' marker' ∧
    (∀ source' d2 m2, takes f source' d2 m2 → source' = source) ∧
    struct_name d' = struct_name d ∧ marker' ≠ marker ∧ marker_struct contracts marker' ∧ marker_struct contracts marker ∧
    ∀ q l, node_at (NBlock (body f)) q = Some (NExpression (Identifier (parameter_name source) l)) →
      ∃ q' o m l', q = q' ++ [0%nat] ∧ node_at (NBlock (body f)) q' = Some (NExpression (MemberExpression o m l'));
}.

Lemma elem_of_stateful_literals i f x :
  x ∈ _stateful_literals program imports typed_report i f →
  builds i f (literal_path x) (literal_declaration x) (literal_marker x).
Proof.
  unfold _stateful_literals. rewrite list_elem_of_omap. intros ([p n] & (r & -> & Hn)%elem_of_walk & Hx).
  unfold literal_at in Hx. cbn [fst snd app] in Hx. destruct n as [e| | |]; [|done..]. destruct e as [| | |name fields l| | | | | | | | | | |]; try done.
  destruct (expression_type typed_report i r) as [t|] eqn:Et; [|done]. change (default UnknownType (Some t)) with t in Hx.
  destruct (_stateful_instance contracts t) as [[d m]|] eqn:Es; [|done]. injection Hx as <-. cbn. exists name, fields, l.
  split; [done|]. rewrite Et. exact Es.
Qed.

Lemma builds_literal i f p d marker : builds i f p d marker →
  ∃ l, mk_stateful_literal p l d marker ∈ _stateful_literals program imports typed_report i f.
Proof.
  intros (name & fields & l & Hn & Ht). exists l. unfold _stateful_literals. apply list_elem_of_omap.
  exists (p, NExpression (StructLiteral name fields l)). split; [by apply elem_of_walk; exists p|].
  unfold literal_at. cbn [fst snd]. destruct (expression_type typed_report i p) as [t|]; [|done]. cbn in *. by rewrite Ht.
Qed.

Lemma node_at_app n p q : node_at n (p ++ q) = (m ← node_at n p; node_at m q).
Proof.
  revert n. induction p as [|i p IH]; intros n; [done|]. cbn [app node_at].
  destruct (children n !! i) as [c|]; [apply IH|done].
Qed.

Lemma reject_source_escape_done b source : _reject_source_escape b source = Done () →
  ∀ q l, node_at (NBlock b) q = Some (NExpression (Identifier source l)) →
    ∃ q' o m l', q = q' ++ [0%nat] ∧ node_at (NBlock b) q' = Some (NExpression (MemberExpression o m l')).
Proof.
  unfold _reject_source_escape. destruct (omap _ _) as [|l0 ls] eqn:Eo; [|done]. intros _ q l Hq.
  assert (escaping b source (q, NExpression (Identifier source l)) = None) as He.
  { destruct (escaping _ _ _) as [x|] eqn:Ex; [|done]. exfalso. apply (not_elem_of_nil x). rewrite <- Eo.
    apply list_elem_of_omap. eexists. split; [|exact Ex]. apply elem_of_walk. by exists q. }
  unfold escaping in He. cbn [fst snd] in He. rewrite bool_decide_eq_true_2 in He by done.
  destruct (node_at (NBlock b) (removelast q)) as [[[]| | |]|] eqn:Er; try done.
  destruct q as [|k q] using rev_ind; [done|]. rewrite removelast_last in Er. exists q.
  assert (k = 0%nat) as ->; [|by eexists _, _, _].
  rewrite node_at_app, Er in Hq. cbn in Hq. by destruct k.
Qed.

Lemma transition_sources_spec f sources : transition_sources program imports f = Done sources →
  ∀ source d marker, (source, (d, marker)) ∈ sources ↔ takes f source d marker.
Proof.
  intros H source d marker. unfold takes.
  refine (outcome_fold_ind _ (λ done sources, (source, (d, marker)) ∈ sources ↔ source ∈ done ∧
    ∃ t, function_type f (Some (parameter_type source)) = Done t ∧ _stateful_instance contracts t = Some (d, marker)) _ _ _ _ _ H).
  - split; [by intros ?%elem_of_nil|by intros [?%elem_of_nil _]].
  - intros pre p post s1 s2 _ IH (t & Et & [= <-])%bind_done.
    assert (source = p ∧ (∃ t, function_type f (Some (parameter_type source)) = Done t ∧
      _stateful_instance contracts t = Some (d, marker)) ↔ source = p ∧ _stateful_instance contracts t = Some (d, marker)) as Hp.
    { split; intros [-> Hi]; split; [done| |done|by exists t]. destruct Hi as (t' & Et' & ?). congruence. }
    rewrite elem_of_app, list_elem_of_singleton.
    destruct (_stateful_instance contracts t) as [dm|] eqn:Ei.
    + rewrite elem_of_app, list_elem_of_singleton, IH. split.
      * intros [[? ?]|[= -> <-]]; [tauto|]. split; [by right|by exists t].
      * intros [[?| ->] Ht]; [by left|]. right. destruct (proj1 Hp (conj eq_refl Ht)) as [_ [= ->]]. done.
    + rewrite IH. split; [tauto|]. intros [[?| ->] Ht]; [done|]. by destruct (proj1 Hp (conj eq_refl Ht)).
Qed.

Lemma final_literal_done f p l : final_literal f = Done (p, l) →
  ∃ pre x, statements (body f) = pre ++ [ReturnStatement (Some x) l] ∧ p = [length pre; 0%nat].
Proof.
  unfold final_literal. destruct (statements (body f)) as [|s pre _] using rev_ind; [done|]. rewrite last_snoc.
  destruct s as [|[[]|]| | | | | |]; try done. rewrite length_app, Nat.add_sub. intros [= <- <-].
  eexists pre, _. done.
Qed.

Lemma validate_transition_done i f : _validate_transition program imports typed_report i f = Done () →
  is_transition f = true → ∀ p d marker, builds i f p d marker → sealed_transition i f p d marker.
Proof.
  unfold _validate_transition. destruct (return_type f) as [r|] eqn:Er; [|done].
  destruct (bool_decide_reflect (function_name f = u "main")) as [|Hmain]; [done|].
  intros (result & Et & H)%bind_done Htrans p d marker Hb. destruct (_stateful_instance contracts result) as [[td tm]|] eqn:Ei; [|done].
  apply bind_done in H as ([] & Htm%validate_marker_done & (sources & Esrc & H)%bind_done).
  destruct sources as [|[source [sd sm]] [|]]; [done| |done].
  destruct (bool_decide_reflect (struct_name sd ≠ struct_name td)) as [|Hsame]; [done|]. apply dec_stable in Hsame.
  apply bind_done in H as ([] & Hsm%validate_marker_done & H).
  destruct (bool_decide_reflect (sm = tm)) as [|Hne]; [done|].
  apply bind_done in H as ([final fl] & Efin & H). destruct (bool_decide_reflect (literal_path <$> _stateful_literals program imports typed_report i f = [final])) as [Hlit|]; [|done].
  cbn [negb] in H. destruct (bool_decide_reflect (default UnknownType (expression_type typed_report i final) ≠ result)) as [|Hty]; [done|].
  apply dec_stable in Hty. pose proof (reject_source_escape_done _ _ H) as Hescape. pose proof (transition_sources_spec _ _ Esrc) as Hsrc.
  assert (∀ p' d' m', builds i f p' d' m' → p' = final) as Honly.
  { intros p' d' m' (l & Hl)%builds_literal. apply (list_elem_of_fmap_2 literal_path) in Hl. rewrite Hlit in Hl.
    by apply list_elem_of_singleton in Hl. }
  pose proof (Honly _ _ _ Hb) as ->. destruct (final_literal_done _ _ _ Efin) as (pre & x & Hpre & ->).
  assert ((td, tm) = (d, marker)) as [= -> ->].
  { destruct Hb as (? & ? & ? & _ & Hi). destruct (expression_type typed_report i _) as [t|]; [|done].
    cbn in Hty, Hi. rewrite <- Hty in Ei. unfold id in Ei. congruence. }
  split; [done|by exists result, r|by exists pre, x, fl|done|].
  exists source, sd, sm. split; [apply Hsrc; left|]. split; [|done].
  intros source' d2 m2 Hin%Hsrc. by apply list_elem_of_singleton in Hin as [= -> _ _].
Qed.
End sealed.

Lemma expression_type_elem typed i p t : expression_type typed i p = Some t → ((i, p), t) ∈ typed.
Proof. unfold expression_type. intros H%assoc_Some. revert H. rewrite !list_elem_of_In. apply in_rev. Qed.

(** C18: State changes are sealed.  In an accepted program every struct literal of
a stateful resource is in a definite state, a marker struct.  It builds the
initial state, or it is the value that a transition returns at its end: the
transition turns its only stateful parameter into another state of the same
resource, builds nothing else that is stateful and reads the parameter only
through its fields. *)
Theorem typestate_sealed program imports typed limit :
  check_typestate_resources program imports typed limit = Done () →
  ∀ i f p name fields l n arguments d, declared program i f →
    node_at (NBlock (body f)) p = Some (NExpression (StructLiteral name fields l)) →
    expression_type typed i p = Some (GenericType n arguments) →
    validator_structs (typestate_contracts program imports) !! n = Some d → is_stateful d = true →
    ∃ marker, arguments = [NamedType marker] ∧ marker_struct (typestate_contracts program imports) marker ∧
      (initial_state d = Some marker ∨ sealed_transition program imports typed i f p d marker).
Proof.
  unfold check_typestate_resources.
  intros ([] & _ & ([] & _ & ([] & _ & ([] & Hf & Htyped)%bind_done)%bind_done)%bind_done)%bind_done.
  intros i f p name fields l n arguments d Hi Hn Ht Hd Hs.
  assert (_stateful_declaration (typestate_contracts program imports) (GenericType n arguments) = Some d) as Hdecl
    by (unfold _stateful_declaration; cbn [type_name_of]; by rewrite Hd, Hs).
  pose proof (each_done _ _ Htyped _ (expression_type_elem _ _ _ _ Ht)) as Hm. cbn [snd _validate_type] in Hm.
  rewrite Hdecl in Hm. destruct arguments as [|[|marker| | |] []]; try done. exists marker. split; [done|].
  split; [by eapply validate_marker_done|].
  assert (builds program imports typed i f p d marker) as Hb.
  { exists name, fields, l. split; [done|]. rewrite Ht. cbn [mbind option_bind _stateful_instance]. by rewrite Hdecl. }
  apply check_functions_done with (j := i) (f := f) in Hf; [|done].
  apply bind_done in Hf as ([] & _ & ([] & _ & H)%bind_done).
  destruct (is_transition f) eqn:Htr; [right; by apply (validate_transition_done program imports typed i f)|left].
  destruct (builds_literal _ _ _ _ _ _ _ _ Hb) as (l' & Hl). apply (each_done _ _ H) in Hl. cbn in Hl.
  destruct (bool_decide_reflect (Some marker ≠ initial_state d)) as [|E]; [done|]. by apply dec_stable in E.
Qed.

(** ** A session *)

Definition marker_of (name : ustring) : StructDeclaration := mk_struct name [] origin [] false None.
Definition session_struct : StructDeclaration :=
  mk_struct (u "Session") [field (u "id") (u "String"); field (u "state") (u "S")] origin [u "S"] true (Some (u "Open")).

(** [return Session { id: session.id, state: Closed {} }]. *)
Definition close_function : FunctionDeclaration :=
  mk_function (u "close") [mk_parameter (u "session") (written (u "Session<Open>")) origin] (Some (written (u "Session<Closed>")))
    (mk_block [ReturnStatement (Some (StructLiteral (u "Session")
      [(u "id", MemberExpression (Identifier (u "session") origin) (u "id") origin);
       (u "state", StructLiteral (u "Closed") [] origin)] origin)) origin]) origin false [] true.

Definition session_program : NativeProgram :=
  mk_program [close_function] [marker_of (u "Open"); marker_of (u "Closed"); session_struct] [] [] [].

Definition session_types : TypedExpressions :=
  [((0%nat, [0; 0; 0; 0]%nat), GenericType (u "Session") [NamedType (u "Open")]);
   ((0%nat, [0; 0; 1]%nat), NamedType (u "Closed"));
   ((0%nat, [0; 0]%nat), GenericType (u "Session") [NamedType (u "Closed")])].

Lemma typestate_sealed_witness :
  check_typestate_resources session_program [] session_types 100 = Done () ∧
  sealed_transition session_program [] session_types 0 close_function [0; 0]%nat session_struct (u "Closed").
Proof.
  assert (check_typestate_resources session_program [] session_types 100 = Done ()) as Hc by (vm_compute; reflexivity).
  split; [exact Hc|].
  destruct (typestate_sealed session_program [] session_types 100 Hc 0 close_function [0; 0]%nat (u "Session")
    [(u "id", MemberExpression (Identifier (u "session") origin) (u "id") origin);
     (u "state", StructLiteral (u "Closed") [] origin)] origin
    (u "Session") [NamedType (u "Closed")] session_struct) as (marker & E & _ & H); [vm_compute; reflexivity..|].
  injection E as <-. destruct H as [E|H]; [vm_compute in E; discriminate E|exact H].
Defined.
