(* ===== verification/Affine.v ===== *)
(** Affine resources: [src/koschei/affine_resources_v1.py], with the affine types
that [src/koschei/typestate_affine_alignment.py] adds.

The checker moves authority-bearing bindings through the statements of a function
and rejects a use after a move.  The innermost scope is the head of [scopes].
As in [Effects], an expression is named by its position.

The second half states what the check is for: an execution model of ownership, in
which every evaluation of a [let] creates a new owner, loops repeat, branches
choose and [or return] leaves early; and that in an accepted function no execution
uses an owner after it was moved. *)

From S2P Require Import Prelude TypeSystem Lexer Ast Capability TypeContracts Integrity Effects Typestate.

Inductive use_context := MOVE | BORROW.

#[export] Instance use_context_eq_dec : EqDecision use_context.
Proof. solve_decision. Defined.

Record _Binding := mk_binding {
  binding_id : Z;
  binding_name : ustring;
  binding_type : TypeNode;
  binding_location : SourceLocation;
}.

(** The fields of the checker that change. *)
Record checker := mk_checker {
  scopes : list (gmap ustring _Binding);
  moved : gset Z;
  move_locations : gmap Z SourceLocation;
  _next_binding_id : Z;
}.

Definition with_scopes (l : list (gmap ustring _Binding)) (st : checker) : checker :=
  mk_checker l (moved st) (move_locations st) (_next_binding_id st).

Definition with_moved (ids : gset Z) (locations : gmap Z SourceLocation) (st : checker) : checker :=
  mk_checker (scopes st) ids locations (_next_binding_id st).

(** [self.scopes.append({})] and [self.scopes.pop()]. *)
Definition push_scope (st : checker) : checker := with_scopes (∅ :: scopes st) st.
Definition pop_scope (st : checker) : checker := with_scopes (tail (scopes st)) st.

Definition binding_ids (scope : gmap ustring _Binding) : gset Z :=
  list_to_set ((λ nb : ustring * _Binding, binding_id nb.2) <$> map_to_list scope).

Definition _outer_binding_ids (st : checker) : gset Z := ⋃ (binding_ids <$> scopes st).

Definition _resolve (name : ustring) (st : checker) : option _Binding :=
  foldr (λ scope rest, match scope !! name with Some b => Some b | None => rest end) None (scopes st).

(** The entries of [move_locations] for [ids]. *)
Definition locations_of (ids : gset Z) (locations : gmap Z SourceLocation) : gmap Z SourceLocation :=
  filter (λ il : Z * SourceLocation, il.1 ∈ ids) locations.

(** [min(ids)]. *)
Definition min_id (ids : gset Z) : option Z :=
  match elements ids with [] => None | x :: l => Some (foldl Z.min x l) end.

Definition _binding_by_id (id : Z) (st : checker) : contract_result _Binding :=
  match List.find (λ nb : ustring * _Binding, binding_id nb.2 =? id) (concat (map_to_list <$> rev (scopes st))) with
  | Some nb => Done nb.2
  | None => Raise AssertionError
  end.

(** The name whose scope a member chain reads. *)
Fixpoint _root_identifier (e : Expression) : option ustring :=
  match e with
  | MemberExpression object _ _ => _root_identifier object
  | Identifier name _ => Some name
  | _ => None
  end.

Section numbered_fold.
Context {A S E : Type} (f : nat → A → S → outcome E S).
(** The loop over a list with the index of each element. *)
Fixpoint numbered_fold (i : nat) (l : list A) (s : S) : outcome E S :=
  match l with
  | [] => Done s
  | x :: l => s ← f i x s; numbered_fold (Datatypes.S i) l s
  end.
End numbered_fold.

Section checker.
Context (v : TypeContractValidator).
Context (typed_report : TypedExpressions).
Context (recursion_limit : nat).

(** [_is_affine], as the typestate alignment extends it. *)
Definition _is_affine (t : TypeNode) : contract_result bool :=
  b ← sensitive_type v recursion_limit t;
  if b : bool then Done true else typestate_affine v recursion_limit t.

Definition _declare (name : ustring) (t : TypeNode) (l : SourceLocation) (mutable : bool) (st : checker)
    : contract_result checker :=
  b ← (if mutable then _is_affine t else Done false);
  if b : bool then Raise (SemanticError 3930 l)
  else
    let binding := mk_binding (_next_binding_id st) name t l in
    match scopes st with
    | [] => Raise AssertionError
    | scope :: rest =>
        Done (mk_checker (<[name := binding]> scope :: rest) (moved st) (move_locations st) (_next_binding_id st + 1))
    end.

Definition _mark_move (b : _Binding) (l : SourceLocation) (st : checker) : contract_result checker :=
  if bool_decide (binding_id b ∈ moved st) then Raise (SemanticError 3931 l)
  else Done (with_moved ({[binding_id b]} ∪ moved st) (<[binding_id b := l]> (move_locations st)) st).

Definition _use_identifier (name : ustring) (l : SourceLocation) (context : use_context) (st : checker)
    : contract_result checker :=
  match _resolve name st with
  | None => Done st
  | Some b =>
      affine ← _is_affine (binding_type b);
      if negb affine then Done st
      else if bool_decide (binding_id b ∈ moved st) then Raise (SemanticError 3931 l)
      else match context with MOVE => _mark_move b l st | BORROW => Done st end
  end.

(** The end of [_check_block(nested=True)]: the bindings of the block are forgotten. *)
Definition leave_block (st : checker) : checker :=
  let local_ids := match scopes st with [] => ∅ | scope :: _ => binding_ids scope end in
  pop_scope (with_moved (moved st ∖ local_ids)
    (filter (λ il : Z * SourceLocation, il.1 ∉ local_ids) (move_locations st)) st).

(** The rejection of a move of an outer binding from a loop body; [before] is
the state before the body. *)
Definition reject_repeated_move (before : checker) (l : SourceLocation) (st : checker) : contract_result () :=
  let newly_moved := (moved st ∖ moved before) ∩ _outer_binding_ids before in
  match min_id newly_moved with
  | None => Done ()
  | Some id => _ ← _binding_by_id id st; Raise (SemanticError 3932 (default l (move_locations st !! id)))
  end.

(** Back to the moves before a loop body. *)
Definition restore_moves (before st : checker) : checker := with_moved (moved before) (move_locations before) st.

(** What one branch adds to the moves of the branches before it. *)
Definition join_branch (before branch joined : checker) : checker :=
  let branch_moved := moved branch ∩ _outer_binding_ids before in
  with_moved (moved joined ∪ branch_moved)
    (move_locations joined ∪ locations_of branch_moved (move_locations branch)) branch.

Section function.
Context (function : nat).

Definition _type_of (p : path) : TypeNode := default UnknownType (expression_type typed_report function p).

(** [_MOVE if self._is_affine(self._type_of(expression)) else _BORROW]. *)
Definition own_context (p : path) : contract_result use_context :=
  b ← _is_affine (_type_of p); Done (if b : bool then MOVE else BORROW).

(** [context if self._is_affine(...) else _BORROW]. *)
Definition passed_context (p : path) (context : use_context) : contract_result use_context :=
  b ← _is_affine (_type_of p); Done (if b : bool then context else BORROW).

(** Extracting an affine field moves the owner, except from [SystemCaps]. *)
Definition move_owner (p : path) (object : Expression) (l : SourceLocation) (context : use_context) (st : checker)
    : contract_result checker :=
  match context with
  | BORROW => Done st
  | MOVE =>
      b ← _is_affine (_type_of p);
      if negb b || bool_decide (_type_of (p ++ [0%nat]) = NamedType (u "SystemCaps")) then Done st
      else
        match name ← _root_identifier object; _resolve name st with
        | None => Done st
        | Some binding =>
            affine ← _is_affine (binding_type binding);
            if affine : bool then _mark_move binding l st else Done st
        end
  end.

Fixpoint _check_expression (p : path) (e : Expression) (context : use_context) (st : checker) {struct e}
    : contract_result checker :=
  match e with
  | Literal _ _ => Done st
  | Identifier name l => _use_identifier name l context st
  | InterpolatedString parts _ => numbered_fold (λ i x, _check_expression (p ++ [i]) x BORROW) 0 parts st
  | ListLiteral items _ =>
      numbered_fold (λ i x st, c ← own_context (p ++ [i]); _check_expression (p ++ [i]) x c st) 0 items st
  | MapLiteral entries _ =>
      numbered_fold (λ i kv st,
        st ← _check_expression (p ++ [(2 * i)%nat]) kv.1 BORROW st;
        c ← own_context (p ++ [S (2 * i)]);
        _check_expression (p ++ [S (2 * i)]) kv.2 c st) 0 entries st
  | StructLiteral _ fields _ =>
      numbered_fold (λ i f st, c ← own_context (p ++ [i]); _check_expression (p ++ [i]) f.2 c st) 0 fields st
  | MemberExpression object _ l =>
      st ← _check_expression (p ++ [0%nat]) object BORROW st;
      move_owner p object l context st
  | CallExpression callee arguments _ =>
      st ← match callee with
           | MemberExpression object _ _ => _check_expression (p ++ [0; 0]%nat) object BORROW st
           | _ => _check_expression (p ++ [0%nat]) callee BORROW st
           end;
      numbered_fold (λ i x st, c ← own_context (p ++ [i]); _check_expression (p ++ [i]) x c st) 1 arguments st
  | BinaryExpression x _ y _ =>
      st ← _check_expression (p ++ [0%nat]) x BORROW st;
      _check_expression (p ++ [1%nat]) y BORROW st
  | UnaryExpression _ x _ => _check_expression (p ++ [0%nat]) x BORROW st
  | OrReturnExpression x error _ =>
      c ← passed_context (p ++ [0%nat]) context;
      st ← _check_expression (p ++ [0%nat]) x c st;
      match error with
      | None => Done st
      | Some y => c ← own_context (p ++ [1%nat]); _check_expression (p ++ [1%nat]) y c st
      end
  | OrElseExpression x y _ =>
      c ← passed_context (p ++ [0%nat]) context;
      st ← _check_expression (p ++ [0%nat]) x c st;
      c ← passed_context (p ++ [1%nat]) context;
      _check_expression (p ++ [1%nat]) y c st
  | OrBlockExpression x handler _ =>
      c ← passed_context (p ++ [0%nat]) context;
      st ← _check_expression (p ++ [0%nat]) x c st;
      st ← _check_statements (p ++ [1%nat]) handler (push_scope st);
      Done (leave_block st)
  | MatchExpression x arms _ =>
      before ← _check_expression (p ++ [0%nat]) x BORROW st;
      numbered_fold (λ i a joined,
        branch ← _check_arm (p ++ [i]) a context (push_scope (restore_moves before joined));
        Done (join_branch before (pop_scope branch) joined)) 1 arms before
  | AssignmentExpression target value _ =>
      c ← own_context (p ++ [1%nat]);
      st ← _check_expression (p ++ [1%nat]) value c st;
      _check_expression (p ++ [0%nat]) target BORROW st
  end
with _check_arm (p : path) (a : MatchArm) (context : use_context) (st : checker) {struct a} : contract_result checker :=
  match a with
  | mk_arm _ binding arm_body l =>
      st ← match binding with None => Done st | Some name => _declare name UnknownType l false st end;
      match arm_body with
      | ArmBlock b => _check_statements (p ++ [0%nat]) b st
      | ArmExpression e =>
          c ← passed_context (p ++ [0%nat]) context;
          _check_expression (p ++ [0%nat]) e c st
      end
  end
with _check_statement (p : path) (s : Statement) (st : checker) {struct s} : contract_result checker :=
  match s with
  | LetStatement name is_mutable value l _ =>
      c ← own_context (p ++ [0%nat]);
      st ← _check_expression (p ++ [0%nat]) value c st;
      _declare name (_type_of (p ++ [0%nat])) l is_mutable st
  | ReturnStatement None _ => Done st
  | ReturnStatement (Some x) _ => c ← own_context (p ++ [0%nat]); _check_expression (p ++ [0%nat]) x c st
  | ExpressionStatement x _ => _check_expression (p ++ [0%nat]) x BORROW st
  | IfStatement condition then_block else_branch _ =>
      before ← _check_expression (p ++ [0%nat]) condition BORROW st;
      (** [_check_if]; an [else if] checks its condition and its own branches. *)
      then_st ← _check_statements (p ++ [1%nat]) then_block (push_scope before);
      let joined := join_branch before (leave_block then_st) before in
      let else_start := restore_moves before joined in
      else_st ← match else_branch with
                | Some (ElseBlock b) =>
                    st ← _check_statements (p ++ [2%nat]) b (push_scope else_start); Done (leave_block st)
                | Some (ElseIf s') =>
                    match s' with
                    | IfStatement _ _ _ _ => _check_statement (p ++ [2%nat]) s' else_start
                    | _ => Done else_start
                    end
                | None => Done else_start
                end;
      Done (join_branch before else_st joined)
  | WhileStatement condition b l =>
      before ← _check_expression (p ++ [0%nat]) condition BORROW st;
      st ← _check_statements (p ++ [1%nat]) b (push_scope before);
      let st := leave_block st in
      _ ← reject_repeated_move before l st;
      Done (restore_moves before st)
  | ForStatement variable iterable b l =>
      before ← _check_expression (p ++ [0%nat]) iterable BORROW st;
      let item_type := match _type_of (p ++ [0%nat]) with GenericType _ (t :: _) => t | _ => UnknownType end in
      st ← _declare variable item_type l false (push_scope before);
      st ← _check_statements (p ++ [1%nat]) b st;
      _ ← reject_repeated_move before l st;
      Done (restore_moves before (pop_scope st))
  | BreakStatement _ | ContinueStatement _ => Done st
  end
(** The loop of [_check_block] over the statements. *)
with _check_statements (p : path) (b : Block) (st : checker) {struct b} : contract_result checker :=
  let 'mk_block l := b in numbered_fold (λ i s, _check_statement (p ++ [i]) s) 0 l st.

(** One function of [check], the new scope pushed and popped around it. *)
Definition check_affine_function (f : FunctionDeclaration) (st : checker) : contract_result checker :=
  st ← outcome_fold (λ st p,
         t ← function_type f (Some (parameter_type p));
         _declare (parameter_name p) t (parameter_location p) false st) (push_scope st) (parameters f);
  st ← _check_statements [] (body f) st;
  Done (with_moved ∅ ∅ (pop_scope st)).
End function.
End checker.

Definition check_affine_resources (program : NativeProgram) (imports : list (ustring * ImportedModule))
    (typed_report : TypedExpressions) (recursion_limit : nat) : contract_result () :=
  _ ← numbered_fold (check_affine_function (new_validator program imports) typed_report recursion_limit) 0
    (declarations program) (mk_checker [] ∅ ∅ 1);
  Done ().

(** * Ownership at run time

What the evaluation of a piece of program does to the owners, with the choices
that data decides left open. *)

Inductive action :=
  | ASkip
  (** Read a name; [MOVE] takes the owner it names. *)
  | AUse (name : ustring) (context : use_context)
  | ADeclare (name : ustring) (t : TypeNode)
  (** Leave: [return], [break], [continue] or an early return of [or]. *)
  | AExit (s : signal)
  | ASeq (a b : action)
  | AChoice (a b : action)
  | AScope (a : action)
  (** Test, then leave or run the body, again and again. *)
  | ALoop (test body : action).

Definition aseq (l : list action) : action := foldr ASeq ASkip l.
Definition achoose (l : list action) : action := foldr AChoice ASkip l.

Record slot := mk_slot { slot_type : TypeNode; slot_moved : bool }.

Abbreviation store := (list (gmap ustring slot)).

Inductive result :=
  (** An owner is used after it was moved. *)
  | UseAfterMove
  | Runs (s : store) (how : signal).

Section ownership.
Context (affine : TypeNode → bool).

(** The innermost slot of a name is read. *)
Fixpoint use_slot (name : ustring) (context : use_context) (s : store) : result :=
  match s with
  | [] => Runs [] Completes
  | level :: rest =>
      match level !! name with
      | Some x =>
          if negb (affine (slot_type x)) then Runs s Completes
          else if slot_moved x then UseAfterMove
          else match context with
               | BORROW => Runs s Completes
               | MOVE => Runs (<[name := mk_slot (slot_type x) true]> level :: rest) Completes
               end
      | None =>
          match use_slot name context rest with
          | Runs rest how => Runs (level :: rest) how
          | UseAfterMove => UseAfterMove
          end
      end
  end.

Definition declare_slot (name : ustring) (t : TypeNode) (s : store) : store :=
  match s with [] => [] | level :: rest => <[name := mk_slot t false]> level :: rest end.

(** One iteration of a loop. *)
Definition iteration (test body : action) : action := ASeq test (AChoice (AExit Breaks) body).

Inductive exec : action → store → result → Prop :=
  | exec_skip s : exec ASkip s (Runs s Completes)
  | exec_use name c s : exec (AUse name c) s (use_slot name c s)
  | exec_declare name t s : exec (ADeclare name t) s (Runs (declare_slot name t s) Completes)
  | exec_exit how s : exec (AExit how) s (Runs s how)
  | exec_seq a b s s' r : exec a s (Runs s' Completes) → exec b s' r → exec (ASeq a b) s r
  | exec_seq_moved a b s : exec a s UseAfterMove → exec (ASeq a b) s UseAfterMove
  | exec_seq_leaves a b s s' how : exec a s (Runs s' how) → how ≠ Completes → exec (ASeq a b) s (Runs s' how)
  | exec_left a b s r : exec a s r → exec (AChoice a b) s r
  | exec_right a b s r : exec b s r → exec (AChoice a b) s r
  | exec_scope a s level s' how : exec a (∅ :: s) (Runs (level :: s') how) → exec (AScope a) s (Runs s' how)
  | exec_scope_moved a s : exec a (∅ :: s) UseAfterMove → exec (AScope a) s UseAfterMove
  | exec_again test body s s' how r :
      exec (iteration test body) s (Runs s' how) → how = Completes ∨ how = Continues →
      exec (ALoop test body) s' r → exec (ALoop test body) s r
  | exec_break test body s s' :
      exec (iteration test body) s (Runs s' Breaks) → exec (ALoop test body) s (Runs s' Completes)
  | exec_return test body s s' :
      exec (iteration test body) s (Runs s' Returns) → exec (ALoop test body) s (Runs s' Returns)
  | exec_loop_moved test body s :
      exec (iteration test body) s UseAfterMove → exec (ALoop test body) s UseAfterMove.

(** ** What a function does *)

Section plan.
(** The type of the expression at a position. *)
Context (type_at : path → TypeNode).

Definition own (p : path) : use_context := if affine (type_at p) then MOVE else BORROW.
Definition passed (p : path) (context : use_context) : use_context := if affine (type_at p) then context else BORROW.

(** Taking an affine field takes its owner; [SystemCaps] can be projected. *)
Definition take_field (p : path) (object : Expression) (context : use_context) : action :=
  match context, _root_identifier object with
  | MOVE, Some name =>
      if affine (type_at p) && negb (bool_decide (type_at (p ++ [0%nat]) = NamedType (u "SystemCaps")))
      then AUse name MOVE else ASkip
  | _, _ => ASkip
  end.

Fixpoint plan_expression (p : path) (e : Expression) (context : use_context) {struct e} : action :=
  match e with
  | Literal _ _ => ASkip
  | Identifier name _ => AUse name context
  | InterpolatedString parts _ => aseq (number (λ i x, [plan_expression (p ++ [i]) x BORROW]) 0 parts)
  | ListLiteral items _ => aseq (number (λ i x, [plan_expression (p ++ [i]) x (own (p ++ [i]))]) 0 items)
  | MapLiteral entries _ =>
      aseq (number (λ i kv, [ASeq (plan_expression (p ++ [(2 * i)%nat]) kv.1 BORROW)
        (plan_expression (p ++ [S (2 * i)]) kv.2 (own (p ++ [S (2 * i)])))]) 0 entries)
  | StructLiteral _ fields _ => aseq (number (λ i f, [plan_expression (p ++ [i]) f.2 (own (p ++ [i]))]) 0 fields)
  | MemberExpression object _ _ => ASeq (plan_expression (p ++ [0%nat]) object BORROW) (take_field p object context)
  | CallExpression callee arguments _ =>
      ASeq (match callee with
            | MemberExpression object _ _ => plan_expression (p ++ [0; 0]%nat) object BORROW
            | _ => plan_expression (p ++ [0%nat]) callee BORROW
            end)
        (aseq (number (λ i x, [plan_expression (p ++ [i]) x (own (p ++ [i]))]) 1 arguments))
  | BinaryExpression x operator y _ =>
      let right_operand := plan_expression (p ++ [1%nat]) y BORROW in
      ASeq (plan_expression (p ++ [0%nat]) x BORROW)
        (if bool_decide (operator ∈ [u "&&"; u "||"]) then AChoice ASkip right_operand else right_operand)
  | UnaryExpression _ x _ => plan_expression (p ++ [0%nat]) x BORROW
  | OrReturnExpression x error _ =>
      ASeq (plan_expression (p ++ [0%nat]) x (passed (p ++ [0%nat]) context))
        (AChoice ASkip
          (ASeq (match error with None => ASkip | Some y => plan_expression (p ++ [1%nat]) y (own (p ++ [1%nat])) end)
            (AExit Returns)))
  | OrElseExpression x y _ =>
      ASeq (plan_expression (p ++ [0%nat]) x (passed (p ++ [0%nat]) context))
        (AChoice ASkip (plan_expression (p ++ [1%nat]) y (passed (p ++ [1%nat]) context)))
  | OrBlockExpression x handler _ =>
      ASeq (plan_expression (p ++ [0%nat]) x (passed (p ++ [0%nat]) context))
        (AChoice ASkip (AScope (plan_block (p ++ [1%nat]) handler)))
  | MatchExpression x arms _ =>
      ASeq (plan_expression (p ++ [0%nat]) x BORROW)
        (achoose (number (λ i a, [AScope (plan_arm (p ++ [i]) a context)]) 1 arms))
  | AssignmentExpression target value _ =>
      ASeq (plan_expression (p ++ [1%nat]) value (own (p ++ [1%nat]))) (plan_expression (p ++ [0%nat]) target BORROW)
  end
(** The payload of a variant is no capability: enums cannot have such payloads. *)
with plan_arm (p : path) (a : MatchArm) (context : use_context) {struct a} : action :=
  match a with
  | mk_arm _ binding arm_body _ =>
      ASeq (match binding with None => ASkip | Some name => ADeclare name UnknownType end)
        (match arm_body with
         | ArmBlock b => plan_block (p ++ [0%nat]) b
         | ArmExpression e => plan_expression (p ++ [0%nat]) e (passed (p ++ [0%nat]) context)
         end)
  end
with plan_statement (p : path) (s : Statement) {struct s} : action :=
  match s with
  | LetStatement name _ value _ _ =>
      ASeq (plan_expression (p ++ [0%nat]) value (own (p ++ [0%nat]))) (ADeclare name (type_at (p ++ [0%nat])))
  | ReturnStatement None _ => AExit Returns
  | ReturnStatement (Some x) _ => ASeq (plan_expression (p ++ [0%nat]) x (own (p ++ [0%nat]))) (AExit Returns)
  | ExpressionStatement x _ => plan_expression (p ++ [0%nat]) x BORROW
  | IfStatement condition then_block else_branch _ =>
      ASeq (plan_expression (p ++ [0%nat]) condition BORROW)
        (AChoice (AScope (plan_block (p ++ [1%nat]) then_block))
          (match else_branch with
           | Some (ElseBlock b) => AScope (plan_block (p ++ [2%nat]) b)
           | Some (ElseIf s') => match s' with IfStatement _ _ _ _ => plan_statement (p ++ [2%nat]) s' | _ => ASkip end
           | None => ASkip
           end))
  | WhileStatement condition b _ =>
      ALoop (plan_expression (p ++ [0%nat]) condition BORROW) (AScope (plan_block (p ++ [1%nat]) b))
  | ForStatement variable iterable b _ =>
      ASeq (plan_expression (p ++ [0%nat]) iterable BORROW)
        (ALoop ASkip
          (AScope (ASeq
            (ADeclare variable (match type_at (p ++ [0%nat]) with GenericType _ (t :: _) => t | _ => UnknownType end))
            (plan_block (p ++ [1%nat]) b))))
  | BreakStatement _ => AExit Breaks
  | ContinueStatement _ => AExit Continues
  end
with plan_block (p : path) (b : Block) {struct b} : action :=
  let 'mk_block l := b in aseq (number (λ i s, [plan_statement (p ++ [i]) s]) 0 l).
End plan.
End ownership.

(** No owner is taken. *)
Fixpoint moves_nothing (a : action) : bool :=
  match a with
  | AUse _ MOVE => false
  | ASkip | AUse _ BORROW | ADeclare _ _ | AExit _ => true
  | ASeq a b | AChoice a b | ALoop a b => moves_nothing a && moves_nothing b
  | AScope a => moves_nothing a
  end.

(** No loop takes an owner in its test. *)
Fixpoint tests_borrow (a : action) : bool :=
  match a with
  | ASkip | AUse _ _ | ADeclare _ _ | AExit _ => true
  | ASeq a b | AChoice a b => tests_borrow a && tests_borrow b
  | AScope a => tests_borrow a
  | ALoop test body => moves_nothing test && tests_borrow test && tests_borrow body
  end.

(** * The checker covers every execution *)

Definition scope_ids (l : list (gmap ustring _Binding)) : gset Z := ⋃ (binding_ids <$> l).

(** The bindings of a scope are the slots of a level; a moved slot is a moved binding. *)
Definition level_covers (ids : gset Z) (scope : gmap ustring _Binding) (level : gmap ustring slot) : Prop :=
  ∀ name,
    match scope !! name, level !! name with
    | Some b, Some x => slot_type x = binding_type b ∧ (slot_moved x = true → binding_id b ∈ ids)
    | None, None => True
    | _, _ => False
    end.

Definition covers (l : list (gmap ustring _Binding)) (ids : gset Z) (s : store) : Prop := Forall2 (level_covers ids) l s.

(** No id is in two scopes. *)
Fixpoint apart (l : list (gmap ustring _Binding)) : Prop :=
  match l with [] => True | scope :: l => binding_ids scope ## scope_ids l ∧ apart l end.

Definition wf (st : checker) : Prop := apart (scopes st) ∧ ∀ id, id ∈ scope_ids (scopes st) → id < _next_binding_id st.

Lemma elem_of_binding_ids id scope : id ∈ binding_ids scope ↔ ∃ name b, scope !! name = Some b ∧ id = binding_id b.
Proof.
  unfold binding_ids. rewrite elem_of_list_to_set, list_elem_of_fmap. split.
  - intros ([n b] & -> & H%elem_of_map_to_list). by exists n, b.
  - intros (n & b & H & ->). exists (n, b). split; [done|]. by apply elem_of_map_to_list.
Qed.

Lemma scope_ids_cons scope l : scope_ids (scope :: l) = binding_ids scope ∪ scope_ids l.
Proof. done. Qed.

Lemma binding_ids_empty : binding_ids ∅ = ∅.
Proof. apply set_eq. intros id. rewrite elem_of_binding_ids. split; [intros (n & b & H & _); by rewrite lookup_empty in H|set_solver]. Qed.

Lemma covers_mono l ids ids' s : (∀ id, id ∈ scope_ids l → id ∈ ids → id ∈ ids') → covers l ids s → covers l ids' s.
Proof.
  intros Hids H. induction H as [|scope level l s Hlevel _ IH]; constructor.
  - intros name. specialize (Hlevel name). destruct (scope !! name) as [b|] eqn:Eb, (level !! name) as [x|]; [|done..].
    destruct Hlevel as [Ht Hm]. split; [done|]. intros Hx. apply Hids; [|by apply Hm].
    rewrite scope_ids_cons, elem_of_union. left. apply elem_of_binding_ids. by exists name, b.
  - apply IH. intros id Hid. apply Hids. rewrite scope_ids_cons. set_solver.
Qed.

Lemma covers_subset l ids ids' s : ids ⊆ ids' → covers l ids s → covers l ids' s.
Proof. intros H. apply covers_mono. set_solver. Qed.

Lemma covers_push l ids s : covers l ids s → covers (∅ :: l) ids (∅ :: s).
Proof. intros H. constructor; [|done]. intros name. by rewrite !lookup_empty. Qed.

Lemma wf_push st : wf st → wf (push_scope st).
Proof.
  intros [Ha Hn]. split; unfold push_scope, with_scopes; cbn [scopes apart _next_binding_id].
  - split; [rewrite binding_ids_empty; set_solver|done].
  - intros id. rewrite scope_ids_cons, binding_ids_empty. intros H. apply Hn. set_solver.
Qed.

Lemma reject_repeated_move_done before l st : reject_repeated_move before l st = Done () →
  ∀ id, id ∈ scope_ids (scopes before) → id ∈ moved st → id ∈ moved before.
Proof.
  unfold reject_repeated_move, min_id. destruct (elements _) as [|x ids] eqn:E.
  - intros _ id H1 H2. apply elements_empty_inv in E. destruct (decide (id ∈ moved before)); [done|]. exfalso.
    apply (not_elem_of_empty (C := gset Z) id), E. unfold _outer_binding_ids. fold (scope_ids (scopes before)). set_solver.
  - destruct (_binding_by_id _ st); done.
Qed.

(** ** Steps of the checker and what they stand for *)

Section sound.
Context (v : TypeContractValidator) (typed_report : TypedExpressions) (recursion_limit : nat) (function : nat).

Definition affine_type (t : TypeNode) : bool :=
  match _is_affine v recursion_limit t with Done b => b | _ => false end.

Abbreviation type_at := (_type_of typed_report function).
Abbreviation runs := (exec affine_type).

Definition covered (st : checker) (r : result) : Prop :=
  match r with UseAfterMove => False | Runs s _ => covers (scopes st) (moved st) s end.

(** The check of an expression, or of a statement that declares nothing. *)
Record sound (a : action) (st st' : checker) : Prop := {
  sound_scopes : scopes st' = scopes st;
  sound_next : _next_binding_id st <= _next_binding_id st';
  sound_mono : ∀ id, id ∈ scope_ids (scopes st) → id ∈ moved st → id ∈ moved st';
  sound_quiet : moves_nothing a = true → moved st' ⊆ moved st;
  sound_runs : tests_borrow a = true → ∀ s r, covers (scopes st) (moved st) s → runs a s r → covered st' r;
}.

Definition ends (st st' : checker) (r : result) : Prop :=
  match r with
  | UseAfterMove => False
  | Runs s Completes => covers (scopes st') (moved st') s
  | Runs s _ => ∃ level rest, s = level :: rest ∧ covers (tail (scopes st)) (moved st') rest
  end.

(** The check of statements, which may declare in the innermost scope. *)
Record sound_statements (a : action) (st st' : checker) : Prop := {
  statements_scopes : ∃ top top' rest, scopes st = top :: rest ∧ scopes st' = top' :: rest;
  statements_wf : wf st';
  statements_next : _next_binding_id st <= _next_binding_id st';
  statements_mono : ∀ id, id ∈ scope_ids (tail (scopes st)) → id ∈ moved st → id ∈ moved st';
  statements_quiet : moves_nothing a = true → moved st' ⊆ moved st;
  statements_runs : tests_borrow a = true → ∀ s r, covers (scopes st) (moved st) s → runs a s r → ends st st' r;
}.

Lemma sound_wf a st st' : wf st → sound a st st' → wf st'.
Proof. intros [Ha Hn] [Hs Hnext _ _ _]. split; rewrite Hs; [done|]. intros id H. specialize (Hn id H). lia. Qed.

Lemma sound_skip st : sound ASkip st st.
Proof. split; [done|lia|done|done|]. intros _ s r Hc H. by inversion H; subst. Qed.

Lemma sound_exit how st : sound (AExit how) st st.
Proof. split; [done|lia|done|done|]. intros _ s r Hc H. by inversion H; subst. Qed.

Lemma sound_seq a b st st1 st2 : sound a st st1 → sound b st1 st2 → sound (ASeq a b) st st2.
Proof.
  intros [A1 A2 A3 A4 A5] [B1 B2 B3 B4 B5]. split; [congruence|lia| | |].
  - intros id Hid Hm. apply B3; [by rewrite A1|by apply A3].
  - cbn. intros [H1 H2]%andb_prop. etransitivity; [by apply B4|by apply A4].
  - cbn. intros [H1 H2]%andb_prop s r Hc H. inversion H as [| | | |? ? ? s' ? Ha Hb|? ? ? Ha|? ? ? s' how Ha Hne| | | | | | | |]; subst.
    + by apply (B5 H2 s' r); [apply (A5 H1 s (Runs s' Completes))|].
    + by apply (A5 H1 s UseAfterMove).
    + pose proof (A5 H1 s (Runs s' how) Hc Ha) as Hs. cbn in Hs |- *. rewrite B1. revert Hs. apply covers_mono. rewrite A1 in *. exact B3.
Qed.

Lemma sound_choice a b st st' : sound a st st' → sound b st st' → sound (AChoice a b) st st'.
Proof.
  intros [A1 A2 A3 A4 A5] [B1 B2 B3 B4 B5]. split; try done.
  - cbn. intros [H1 H2]%andb_prop. by apply A4.
  - cbn. intros [H1 H2]%andb_prop s r Hc H. inversion H; subst; [by apply (A5 H1 s)|by apply (B5 H2 s)].
Qed.

(** An optional step. *)
Lemma sound_maybe a st st' : sound a st st' → sound (AChoice ASkip a) st st'.
Proof.
  intros [A1 A2 A3 A4 A5]. split; try done.
  intros H s r Hc Hr. inversion Hr as [| | | | | | |? ? ? ? Hs|? ? ? ? Ha| | | | | |]; subst; [|by apply (A5 H s)].
  inversion Hs; subst. cbn. rewrite A1. by eapply covers_mono.
Qed.

(** Using a name that is not moved. *)
Lemma use_covers name context l ids ids' s : covers l ids s → ids ⊆ ids' →
  (∀ b, foldr (λ scope rest, match scope !! name with Some b => Some b | None => rest end) None l = Some b →
    affine_type (binding_type b) = true → binding_id b ∉ ids ∧ (context = MOVE → binding_id b ∈ ids')) →
  ∃ s', use_slot affine_type name context s = Runs s' Completes ∧ covers l ids' s'.
Proof.
  intros H Hids. induction H as [|scope level l s Hlevel Hrest IH]; cbn [foldr use_slot]; intros Hb; [exists []; split; [done|constructor]|].
  pose proof (Hlevel name) as Hname.
  assert (covers (scope :: l) ids' (level :: s)) as Hsame by (eapply covers_subset; [done|by constructor]).
  destruct (scope !! name) as [b|] eqn:Eb, (level !! name) as [x|] eqn:Ex; try done.
  - destruct Hname as [Ht Hm]. destruct (affine_type (slot_type x)) eqn:Ea; cbn [negb]; [|by eexists].
    rewrite Ht in Ea. destruct (Hb b eq_refl Ea) as [Hn Hin]. destruct (slot_moved x) eqn:Es; [by destruct Hn; apply Hm|].
    destruct context; [|by eexists]. eexists. split; [done|]. inversion Hsame as [|? ? ? ? Hl' Hr']; subst. constructor; [|done].
    intros n. specialize (Hl' n). destruct (decide (n = name)) as [->|Hne].
    + rewrite Eb, lookup_insert_eq. cbn. split; [done|]. intros _. by apply Hin.
    + by rewrite lookup_insert_ne.
  - destruct (IH Hb) as (s' & -> & Hs'). eexists. split; [done|]. inversion Hsame; subst. by constructor.
Qed.

Lemma affine_done t b : _is_affine v recursion_limit t = Done b → affine_type t = b.
Proof. unfold affine_type. by intros ->. Qed.

(** A step that marks at most the binding that [name] resolves to. *)
Lemma sound_use_moved name context st ids locations : moved st ⊆ ids →
  (context = BORROW → ids = moved st) →
  (∀ b, _resolve name st = Some b → affine_type (binding_type b) = true →
    binding_id b ∉ moved st ∧ (context = MOVE → binding_id b ∈ ids)) →
  sound (AUse name context) st (with_moved ids locations st).
Proof.
  intros Hids Hborrow Hb. split; cbn [scopes with_moved _next_binding_id moved]; [done|lia|set_solver| |].
  - intros H. destruct context; [done|]. by rewrite Hborrow.
  - intros _ s r Hc H. inversion H; subst. destruct (use_covers name context (scopes st) (moved st) ids s Hc Hids Hb) as (s' & -> & Hs'). done.
Qed.

Lemma with_moved_same st : with_moved (moved st) (move_locations st) st = st.
Proof. by destruct st. Qed.

Lemma mark_move_done b l st st' : _mark_move b l st = Done st' →
  binding_id b ∉ moved st ∧ st' = with_moved ({[binding_id b]} ∪ moved st) (<[binding_id b := l]> (move_locations st)) st.
Proof.
  unfold _mark_move. destruct (bool_decide_reflect (binding_id b ∈ moved st)); [done|]. by intros [= <-].
Qed.

Lemma sound_use name l context st st' :
  _use_identifier v recursion_limit name l context st = Done st' → sound (AUse name context) st st'.
Proof.
  unfold _use_identifier. destruct (_resolve name st) as [b|] eqn:Er.
  - intros (affine & Ha%affine_done & H)%bind_done. destruct affine; cbn [negb] in H.
    + destruct (bool_decide_reflect (binding_id b ∈ moved st)) as [|Hn]; [done|]. destruct context.
      * apply mark_move_done in H as [_ ->]. apply sound_use_moved; [set_solver|done|]. intros b'. rewrite Er. intros [= <-] _. set_solver.
      * injection H as <-. rewrite <- (with_moved_same st) at 2. apply sound_use_moved; [done|done|]. intros b'. rewrite Er. by intros [= <-] _.
    + injection H as <-. rewrite <- (with_moved_same st) at 2. apply sound_use_moved; [done|done|]. intros b'. rewrite Er. intros [= <-]. congruence.
  - intros [= <-]. rewrite <- (with_moved_same st) at 2. apply sound_use_moved; [done|done|]. intros b'. by rewrite Er.
Qed.

Lemma sound_take_field p object l context st st' :
  move_owner v typed_report recursion_limit function p object l context st = Done st' →
  sound (take_field affine_type type_at p object context) st st'.
Proof.
  unfold move_owner, take_field. destruct context; [|intros [= <-]; apply sound_skip].
  intros (b & ->%affine_done & H)%bind_done.
  destruct (_root_identifier object) as [name|].
  - destruct b; cbn [negb orb andb] in *; [|injection H as <-; apply sound_skip].
    destruct (bool_decide _); cbn [negb]; [injection H as <-; apply sound_skip|]. cbn in H.
    destruct (_resolve name st) as [binding|] eqn:Er.
    + apply bind_done in H as (affine & Ha%affine_done & H). destruct affine.
      * apply mark_move_done in H as [Hn ->]. apply sound_use_moved; [set_solver|done|]. intros b'. rewrite Er. intros [= <-] _. set_solver.
      * injection H as <-. rewrite <- (with_moved_same st) at 2. apply sound_use_moved; [done|done|]. intros b'. rewrite Er. intros [= <-]. congruence.
    + injection H as <-. rewrite <- (with_moved_same st) at 2. apply sound_use_moved; [done|done|]. intros b'. by rewrite Er.
  - assert (st' = st) as -> by (destruct (negb b || _); cbn in H; congruence). apply sound_skip.
Qed.

(** ** Statements *)

Lemma sound_statement a st st' : wf st → scopes st ≠ [] → sound a st st' → sound_statements a st st'.
Proof.
  intros Hwf Hne Hs. pose proof (sound_wf _ _ _ Hwf Hs). destruct Hs as [A1 A2 A3 A4 A5]. split; [| |done| |done|].
  - rewrite A1. destruct (scopes st) as [|top rest]; [done|]. by exists top, top, rest.
  - done.
  - intros id Hid. apply A3. destruct (scopes st); [done|]. rewrite scope_ids_cons. set_solver.
  - intros Ht s r Hc Hr. pose proof (A5 Ht s r Hc Hr) as H1. destruct r as [|s' how]; [done|]. cbn in H1. rewrite A1 in H1.
    assert (∃ level rest, s' = level :: rest ∧ covers (tail (scopes st)) (moved st') rest) as Hl.
    { destruct (scopes st) as [|top rest]; [done|]. inversion H1; subst. by eexists _, _. }
    destruct how; [|exact Hl..]. cbn. by rewrite A1.
Qed.

Lemma statements_seq a b st st1 st2 :
  sound_statements a st st1 → sound_statements b st1 st2 → sound_statements (ASeq a b) st st2.
Proof.
  intros [A1 A2 A3 A4 A5 A6] [B1 B2 B3 B4 B5 B6].
  destruct A1 as (top & top1 & rest & E & E1), B1 as (? & top2 & ? & E1' & E2).
  rewrite E1 in E1'. injection E1' as <- <-. rewrite E, E1 in *. cbn [tail] in *.
  split; [by exists top, top2, rest|done|lia| | |].
  - rewrite E. cbn [tail]. intros id Hid Hm. apply B4; [done|by apply A4].
  - cbn. intros [H1 H2]%andb_prop. etransitivity; [by apply B5|by apply A5].
  - cbn. intros [H1 H2]%andb_prop s r Hc H. rewrite E in *. inversion H as [| | | |? ? ? s' ? Ha Hb|? ? ? Ha|? ? ? s' how Ha Hne| | | | | | | |]; subst.
    + pose proof (A6 H1 s _ Hc Ha) as Hs. cbn in Hs. rewrite E1 in Hs. pose proof (B6 H2 s' r Hs Hb) as Hr.
      destruct r as [|s2 [| | |]]; try done; unfold ends in *; by rewrite E, E1 in *.
    + exact (A6 H1 s _ Hc Ha).
    + pose proof (A6 H1 s _ Hc Ha) as Hs. unfold ends in *. rewrite E in *. destruct how; [done|..];
        destruct Hs as (level & rest' & -> & Hs); exists level, rest'; (split; [done|]); cbn in *; revert Hs; by apply covers_mono.
Qed.

Lemma statements_declare name t l mutable st st' : wf st →
  _declare v recursion_limit name t l mutable st = Done st' → sound_statements (ADeclare name t) st st'.
Proof.
  intros [Ha Hn] (b & _ & H)%bind_done. destruct b; [done|]. destruct (scopes st) as [|top rest] eqn:E; [done|]. injection H as <-.
  assert (∀ id, id ∈ binding_ids (<[name := mk_binding (_next_binding_id st) name t l]> top) →
    id ∈ binding_ids top ∨ id = _next_binding_id st) as Hids.
  { intros id (n & b & Hb & ->)%elem_of_binding_ids. apply lookup_insert_Some in Hb as [[_ <-]|[_ Hb]]; [by right|left].
    apply elem_of_binding_ids. by exists n, b. }
  split; cbn [scopes moved _next_binding_id tail]; [by exists top; eexists; exists rest| |lia|done|done|].
  - destruct Ha as [Ha1 Ha2]. split; cbn [scopes _next_binding_id apart].
    + split; [|done]. intros id [Hid| ->]%Hids Hr; [by apply (Ha1 id)|].
      pose proof (Hn (_next_binding_id st)) as H. rewrite scope_ids_cons in H. ospecialize (H _); [set_solver|lia].
    + intros id. rewrite scope_ids_cons. intros [[Hid| ->]%Hids|Hid]%elem_of_union; [|lia|];
        pose proof (Hn id) as H; rewrite scope_ids_cons in H; ospecialize (H _); set_solver || lia.
  - intros _ s r Hc Hr. inversion Hr; subst. rewrite E in Hc. inversion Hc as [|? level ? rest' Hlevel Hrest]; subst. cbn. constructor; [|done].
    intros n. specialize (Hlevel n). destruct (decide (n = name)) as [->|Hne]; [by rewrite !lookup_insert_eq|by rewrite !lookup_insert_ne].
Qed.

(** ** Scopes, branches and loops *)

Lemma sound_scope a st st' : wf st → sound_statements a (push_scope st) st' → sound (AScope a) st (pop_scope st').
Proof.
  intros Hwf [(top & top' & rest & E & E') A2 A3 A4 A5 A6]. cbn in E. injection E as <- <-. cbn in A3, A4, A5.
  split; unfold pop_scope, with_scopes; cbn [scopes moved _next_binding_id]; rewrite ?E'; try done.
  intros Ht s r Hc Hr. inversion Hr as [| | | | | | | | |? ? level s' how Ha|? ? Ha| | | |]; subst.
  - pose proof (A6 Ht _ _ (covers_push _ _ _ Hc) Ha) as H. cbn [covered scopes moved]. rewrite ?E'. cbn [tail].
    destruct how; cbn [ends push_scope with_scopes scopes moved tail] in H;
      [rewrite E' in H; by inversion H|by destruct H as (? & ? & [= -> ->] & H)..].
  - exact (A6 Ht _ _ (covers_push _ _ _ Hc) Ha).
Qed.

(** The bindings of a block are forgotten at its end. *)
Lemma sound_block a st st' : wf st → sound_statements a (push_scope st) st' → sound (AScope a) st (leave_block st').
Proof.
  intros Hwf Ha. destruct (sound_scope a st st' Hwf Ha) as [A1 A2 A3 A4 A5].
  destruct Ha as [(top & top' & rest & E & E') [Hapart _] _ _ _ _]. cbn in E. injection E as <- <-. rewrite E' in Hapart. destruct Hapart as [Hd _].
  unfold leave_block, pop_scope, with_scopes, with_moved in *. rewrite E' in *. cbn [tail scopes moved _next_binding_id] in *.
  split; cbn [scopes moved _next_binding_id]; [done|done| | |].
  - intros id Hid Hm. specialize (A3 id Hid Hm). apply elem_of_difference. split; [done|]. intros Hin. by apply (Hd id).
  - intros H. specialize (A4 H). set_solver.
  - intros Ht s r Hc Hr. specialize (A5 Ht s r Hc Hr). destruct r as [|s' how]; [done|]. cbn in A5 |- *. revert A5.
    apply covers_mono. intros id Hid Hm. apply elem_of_difference. split; [done|]. intros Hin. by apply (Hd id).
Qed.

(** The join of the branches [l] that start in [before]. *)
Record joins (before joined : checker) (l : list action) : Prop := {
  joins_scopes : scopes joined = scopes before;
  joins_next : _next_binding_id before <= _next_binding_id joined;
  joins_before : moved before ⊆ moved joined;
  joins_quiet : forallb moves_nothing l = true → moved joined ⊆ moved before;
  joins_runs : ∀ a, a ∈ l → tests_borrow a = true → ∀ s r, covers (scopes before) (moved before) s → runs a s r → covered joined r;
}.

Lemma joins_nil before : joins before before [].
Proof. split; [done|lia|done|done|]. by intros a ?%elem_of_nil. Qed.

Lemma restore_wf before joined l : wf before → joins before joined l → wf (restore_moves before joined).
Proof.
  intros [Ha Hn] [A1 A2 _ _ _]. split; cbn; rewrite A1; [done|]. intros id H. specialize (Hn id H). lia.
Qed.

Lemma joins_branch before joined l a branch :
  joins before joined l → sound a (restore_moves before joined) branch →
  joins before (join_branch before branch joined) (l ++ [a]).
Proof.
  intros [A1 A2 A3 A4 A5] [B1 B2 B3 B4 B5]. unfold restore_moves, with_moved in *. cbn in *. rewrite A1 in *.
  split; cbn; [done|lia|set_solver| |].
  - rewrite forallb_app. intros [H1 H2]%andb_prop. cbn in H2. rewrite andb_true_r in H2.
    specialize (A4 H1). specialize (B4 H2). set_solver.
  - intros a' [Ha| ->%list_elem_of_singleton]%elem_of_app Ht s r Hc Hr.
    + pose proof (A5 a' Ha Ht s r Hc Hr) as H. destruct r; [done|]. cbn in *. rewrite B1. rewrite A1 in H. revert H.
      apply covers_subset. set_solver.
    + pose proof (B5 Ht s r Hc Hr) as H. destruct r; [done|]. cbn in *. rewrite B1 in *. revert H. apply covers_mono.
      intros id Hid Hm. apply elem_of_union. right. apply elem_of_intersection. split; [done|exact Hid].
Qed.

Lemma exec_choose l s r : runs (achoose l) s r → r = Runs s Completes ∨ ∃ a, a ∈ l ∧ runs a s r.
Proof.
  induction l as [|a l IH]; cbn; intros H; [inversion H; by left|].
  inversion H as [| | | | | | |? ? ? ? Ha|? ? ? ? Ha| | | | | |]; subst; [right; exists a; split; [left|done]|].
  destruct (IH Ha) as [?|(a' & Ha' & ?)]; [by left|right; exists a'; split; [by right|done]].
Qed.

Lemma sound_choose before joined l : joins before joined l → sound (achoose l) before joined.
Proof.
  intros [A1 A2 A3 A4 A5]. split; [done|done|set_solver| |].
  - intros H. apply A4. clear -H. induction l as [|a l IH]; [done|]. cbn in *. apply andb_prop in H as [-> H]. by apply IH.
  - intros Ht s r Hc [->|(a & Ha & Hr)]%exec_choose.
    + cbn. rewrite A1. by eapply covers_subset.
    + apply (A5 a Ha) with s; [|done..]. clear -Ha Ht. induction l as [|x l IH]; [by apply elem_of_nil in Ha|].
      cbn in Ht. apply andb_prop in Ht as [H1 H2]. apply elem_of_cons in Ha as [->|Ha]; [done|by apply IH].
Qed.

Lemma sound_branches before joined a b : joins before joined [a; b] → sound (AChoice a b) before joined.
Proof.
  intros [A1 A2 A3 A4 A5]. split; [done|done|set_solver| |].
  - cbn. intros [H1 H2]%andb_prop. apply A4. cbn. by rewrite H1, H2.
  - cbn. intros [H1 H2]%andb_prop s r Hc H. inversion H; subst.
    + apply (A5 a) with s; [left|done..].
    + apply (A5 b) with s; [right; left|done..].
Qed.

(** A loop whose test takes nothing and whose body takes nothing from outside. *)
Lemma sound_loop test body st st1 st2 :
  sound test st st1 → sound body st1 st2 →
  (∀ id, id ∈ scope_ids (scopes st1) → id ∈ moved st2 → id ∈ moved st1) →
  sound (ALoop test body) st (restore_moves st1 st2).
Proof.
  intros A B Hbody. pose proof (sound_seq _ _ _ _ _ A (sound_seq _ _ _ _ _ (sound_skip _) B)) as AB.
  destruct A as [A1 A2 A3 A4 A5], B as [B1 B2 B3 B4 B5]. unfold restore_moves, with_moved.
  split; cbn [scopes moved _next_binding_id]; [congruence|lia|done| |].
  - cbn. by intros [H1 _]%andb_prop; apply A4.
  - cbn [tests_borrow]. intros [[Hq H1]%andb_prop H2]%andb_prop s r Hc. specialize (A4 Hq).
    assert (∀ s0 r0, covers (scopes st) (moved st1) s0 → runs (iteration test body) s0 r0 → covered st1 r0) as Hiter.
    { intros s0 r0 Hs0%(covers_subset _ _ (moved st)) Hr0; [|done].
      inversion Hr0 as [| | | |? ? ? s' ? Ht Hb|? ? ? Ht|? ? ? s' how Ht Hne| | | | | | | |]; subst.
      - pose proof (A5 H1 s0 _ Hs0 Ht) as Hs'. cbn in Hs'. inversion Hb as [| | | | | | |? ? ? ? He|? ? ? ? Hb'| | | | | |]; subst.
        + by inversion He; subst.
        + pose proof (B5 H2 s' r0 Hs' Hb') as H. destruct r0; [done|]. cbn in *. rewrite B1 in H. revert H. by apply covers_mono.
      - exact (A5 H1 s0 _ Hs0 Ht).
      - exact (A5 H1 s0 _ Hs0 Ht). }
    assert (covers (scopes st) (moved st1) s) as Hs by by eapply covers_mono.
    intros Hr. clear Hc. remember (ALoop test body) as loop eqn:El. revert Hs.
    assert (∀ r0, covered st1 r0 → covered (mk_checker (scopes st2) (moved st1) (move_locations st1) (_next_binding_id st2)) r0) as Hout.
    { intros [|s0 how0]; [done|]. cbn. by rewrite B1. }
    induction Hr as [| | | | | | | | | | |? ? ? ? how r Hi _ _ _ IH|? ? ? ? Hi _|? ? ? ? Hi _|? ? ? Hi _]; try done; injection El as -> ->; intros Hs.
    + apply IH; [done|]. pose proof (Hiter _ _ Hs Hi) as H. cbn in H. by rewrite <- A1.
    + pose proof (Hiter _ _ Hs Hi) as H. by apply Hout.
    + pose proof (Hiter _ _ Hs Hi) as H. by apply Hout.
    + exact (Hiter _ _ Hs Hi).
Qed.

(** ** Every node of a function *)

Abbreviation check_e := (_check_expression v typed_report recursion_limit function).
Abbreviation check_a := (_check_arm v typed_report recursion_limit function).
Abbreviation check_s := (_check_statement v typed_report recursion_limit function).
Abbreviation check_b := (_check_statements v typed_report recursion_limit function).

Lemma own_done p c : own_context v typed_report recursion_limit function p = Done c → c = own affine_type type_at p.
Proof. intros (b & Hb & [= <-])%bind_done. unfold own. by rewrite (affine_done _ _ Hb). Qed.

Lemma passed_done p context c :
  passed_context v typed_report recursion_limit function p context = Done c → c = passed affine_type type_at p context.
Proof. intros (b & Hb & [= <-])%bind_done. unfold passed. by rewrite (affine_done _ _ Hb). Qed.

Lemma sound_list {A} (f : nat → A → checker → contract_result checker) (g : nat → A → action) l : ∀ i st st',
  (∀ i x st st', x ∈ l → wf st → f i x st = Done st' → sound (g i x) st st') →
  wf st → numbered_fold f i l st = Done st' → sound (aseq (number (λ i x, [g i x]) i l)) st st'.
Proof.
  induction l as [|x l IH]; intros i st st' Hf Hwf; cbn [numbered_fold number]; [intros [= <-]; apply sound_skip|].
  intros (st1 & H1 & H2)%bind_done. apply Hf in H1; [|left|done].
  apply (sound_seq _ _ _ st1); [done|]. apply IH; [|by eapply sound_wf|done].
  intros j y st2 st3 Hy. apply Hf. by right.
Qed.

Lemma statements_list l : ∀ i p st st',
  (∀ i s st st', s ∈ l → wf st → scopes st ≠ [] → check_s (p ++ [i]) s st = Done st' →
    sound_statements (plan_statement affine_type type_at (p ++ [i]) s) st st') →
  wf st → scopes st ≠ [] → numbered_fold (λ i s, check_s (p ++ [i]) s) i l st = Done st' →
  sound_statements (aseq (number (λ i s, [plan_statement affine_type type_at (p ++ [i]) s]) i l)) st st'.
Proof.
  induction l as [|s l IH]; intros i p st st' Hf Hwf Hne; cbn [numbered_fold number].
  - intros [= <-]. apply sound_statement; [done..|apply sound_skip].
  - intros (st1 & H1 & H2)%bind_done. apply Hf in H1; [|left|done..].
    apply (statements_seq _ _ _ st1); [done|]. apply IH; [|by apply H1| |done].
    + intros j s' st2 st3 Hs'. apply Hf. by right.
    + destruct (statements_scopes _ _ _ H1) as (? & ? & ? & _ & ->). done.
Qed.

Definition claims (n : node) : Prop :=
  match n with
  | NExpression e => ∀ p c st st', wf st → check_e p e c st = Done st' → sound (plan_expression affine_type type_at p e c) st st'
  | NArm a => ∀ p c st st', wf st → scopes st ≠ [] → check_a p a c st = Done st' →
      sound_statements (plan_arm affine_type type_at p a c) st st'
  | NStatement s => ∀ p st st', wf st → check_s p s st = Done st' →
      match s with
      | LetStatement _ _ _ _ _ => scopes st ≠ [] → sound_statements (plan_statement affine_type type_at p s) st st'
      | _ => sound (plan_statement affine_type type_at p s) st st'
      end
  | NBlock b => ∀ p st st', wf st → scopes st ≠ [] → check_b p b st = Done st' →
      sound_statements (plan_block affine_type type_at p b) st st'
  end.

Lemma sound_scoped_block b p st st1 : claims (NBlock b) → wf st → check_b p b (push_scope st) = Done st1 →
  sound (AScope (plan_block affine_type type_at p b)) st (leave_block st1).
Proof. intros Hb Hwf H. apply sound_block; [done|]. apply Hb; [by apply wf_push|done|done]. Qed.

(** The arms of a match, all from the state [before]. *)
Lemma joins_arms before p context arms : wf before → (∀ a, a ∈ arms → claims (NArm a)) → ∀ i l joined st',
  joins before joined l →
  numbered_fold (λ i a joined,
    branch ← check_a (p ++ [i]) a context (push_scope (restore_moves before joined));
    Done (join_branch before (pop_scope branch) joined)) i arms joined = Done st' →
  joins before st' (l ++ number (λ i a, [AScope (plan_arm affine_type type_at (p ++ [i]) a context)]) i arms).
Proof.
  intros Hwf. induction arms as [|a arms IH]; intros Harms i l joined st' Hj; cbn [numbered_fold number].
  - intros [= <-]. by rewrite app_nil_r.
  - intros (joined' & (branch & Hb & [= <-])%bind_done & H)%bind_done.
    rewrite app_assoc. apply (IH ltac:(intros; apply Harms; by right) (S i) _ (join_branch before (pop_scope branch) joined)); [|done].
    apply joins_branch; [done|]. apply sound_scope; [by eapply restore_wf|].
    apply (Harms a ltac:(left)); [by apply wf_push, (restore_wf _ _ l)|done|done].
Qed.

(** A call: the receiver of a method is read, not the method. *)
Lemma claims_callee p callee st st' : claims (NExpression callee) → (∀ c, c ∈ children (NExpression callee) → claims c) → wf st →
  match callee with
  | MemberExpression object _ _ => check_e (p ++ [0; 0]%nat) object BORROW st
  | _ => check_e (p ++ [0%nat]) callee BORROW st
  end = Done st' →
  sound (match callee with
         | MemberExpression object _ _ => plan_expression affine_type type_at (p ++ [0; 0]%nat) object BORROW
         | _ => plan_expression affine_type type_at (p ++ [0%nat]) callee BORROW
         end) st st'.
Proof.
  intros Hc Hchildren Hwf. destruct callee; try (apply Hc; done).
  apply (Hchildren (NExpression callee)); [left|done].
Qed.

Lemma claims_if p before condition then_block else_branch l st' :
  (∀ c, c ∈ children (NStatement (IfStatement condition then_block else_branch l)) → claims c) → wf before →
  (then_st ← check_b (p ++ [1%nat]) then_block (push_scope before);
   let joined := join_branch before (leave_block then_st) before in
   let else_start := restore_moves before joined in
   else_st ← match else_branch with
             | Some (ElseBlock b) => st ← check_b (p ++ [2%nat]) b (push_scope else_start); Done (leave_block st)
             | Some (ElseIf s') =>
                 match s' with IfStatement _ _ _ _ => check_s (p ++ [2%nat]) s' else_start | _ => Done else_start end
             | None => Done else_start
             end;
   Done (join_branch before else_st joined)) = Done st' →
  sound (AChoice (AScope (plan_block affine_type type_at (p ++ [1%nat]) then_block))
    (match else_branch with
     | Some (ElseBlock b) => AScope (plan_block affine_type type_at (p ++ [2%nat]) b)
     | Some (ElseIf s') =>
         match s' with IfStatement _ _ _ _ => plan_statement affine_type type_at (p ++ [2%nat]) s' | _ => ASkip end
     | None => ASkip
     end)) before st'.
Proof.
  intros Hc Hwf (then_st & H1 & (else_st & H2 & [= <-])%bind_done)%bind_done.
  apply (sound_scoped_block _ _ before) in H1; [|apply Hc; right; left|done].
  assert (restore_moves before before = before) as Hsame by by destruct before.
  rewrite <- Hsame in H1 at 1. pose proof (joins_branch _ _ [] _ _ (joins_nil before) H1) as Hj.
  pose proof (restore_wf _ _ _ Hwf Hj) as Hwf'. apply sound_branches. apply (joins_branch _ _ [_]); [exact Hj|].
  destruct else_branch as [[b|s']|]; cbn [children] in Hc.
  - apply bind_done in H2 as (st1 & H2 & [= <-]). apply sound_scoped_block; [|done..]. apply Hc. right. right. left.
  - destruct s'; try (injection H2 as <-; apply sound_skip).
    apply (Hc (NStatement _)) in H2; [done| |done]. right. right. left.
  - injection H2 as <-. apply sound_skip.
Qed.

Lemma sound_seq_wf a b st st1 st2 : wf st → sound a st st1 → (wf st1 → sound b st1 st2) → sound (ASeq a b) st st2.
Proof. intros Hwf Ha Hb. apply (sound_seq _ _ _ st1); [done|]. apply Hb. by eapply sound_wf. Qed.

Lemma children_expressions (l : list Expression) x : x ∈ l → NExpression x ∈ NExpression <$> l.
Proof. apply list_elem_of_fmap_2. Qed.

Lemma claims_expression e :
  (∀ c, c ∈ children (NExpression e) → claims c ∧ ∀ c', c' ∈ children c → claims c') → claims (NExpression e).
Proof.
  intros IH p context st st' Hwf H.
  assert (∀ x, NExpression x ∈ children (NExpression e) → claims (NExpression x)) as IHe by (intros x Hx; by apply IH).
  destruct e as [name l|lit l|parts l|tn fields l|items l|entries l|object member l|callee arguments l|target value l|x op y l|op x l|x error l|x y l|x handler l|x arms l];
    cbn [_check_expression plan_expression] in *; cbn [children] in *.
  - by eapply sound_use.
  - injection H as <-. apply sound_skip.
  - eapply sound_list; [|done..]. intros i x st1 st2 Hx Hwf1 H1. by apply (IHe x); [apply children_expressions|..].
  - eapply sound_list; [|done..]. intros i f st1 st2 Hx Hwf1 (c & ->%own_done & H1)%bind_done.
    apply (IHe f.2); [|done..]. by apply (list_elem_of_fmap_2 (λ f, NExpression f.2)).
  - eapply sound_list; [|done..]. intros i x st1 st2 Hx Hwf1 (c & ->%own_done & H1)%bind_done.
    by apply (IHe x); [apply children_expressions|..].
  - eapply sound_list; [|done..]. intros i kv st1 st2 Hx Hwf1 (st3 & H1 & (c & ->%own_done & H2)%bind_done)%bind_done.
    assert (∀ z, z ∈ [NExpression kv.1; NExpression kv.2] → z ∈ concat ((λ e, [NExpression e.1; NExpression e.2]) <$> entries)) as Hin.
    { intros z Hz. apply list_elem_of_In, in_concat. exists [NExpression kv.1; NExpression kv.2]. rewrite <- !list_elem_of_In. split; [|done].
      by apply (list_elem_of_fmap_2 (λ e, [NExpression e.1; NExpression e.2])). }
    apply (sound_seq_wf _ _ _ st3); [done| |intros Hwf3].
    + apply (IHe kv.1); [|done..]. apply Hin. left.
    + apply (IHe kv.2); [|done..]. apply Hin. right. left.
  - apply bind_done in H as (st1 & H1 & H2). apply (sound_seq_wf _ _ _ st1); [done| |intros _; by eapply sound_take_field].
    apply (IHe object); [left|done..].
  - apply bind_done in H as (st1 & H1 & H2). apply (sound_seq_wf _ _ _ st1); [done| |intros Hwf1].
    + apply claims_callee; [apply IHe; left| |done..]. apply (IH (NExpression callee)). left.
    + eapply sound_list; [|done..]. intros i x st2 st3 Hx Hwf2 (c & ->%own_done & H3)%bind_done.
      apply (IHe x); [right; by apply children_expressions|done..].
  - apply bind_done in H as (c & ->%own_done & (st1 & H1 & H2)%bind_done). apply (sound_seq_wf _ _ _ st1); [done| |intros Hwf1].
    + apply (IHe value); [right; left|done..].
    + apply (IHe target); [left|done..].
  - apply bind_done in H as (st1 & H1 & H2). apply (sound_seq_wf _ _ _ st1); [done| |intros Hwf1].
    + apply (IHe x); [left|done..].
    + apply (IHe y ltac:(right; left)) in H2; [|done]. destruct (bool_decide _); [by apply sound_maybe|done].
  - apply (IHe x); [left|done..].
  - apply bind_done in H as (c & ->%passed_done & (st1 & H1 & H2)%bind_done). apply (sound_seq_wf _ _ _ st1); [done| |intros Hwf1].
    + apply (IHe x); [left|done..].
    + apply sound_maybe. apply (sound_seq _ _ _ st'); [|apply sound_exit]. destruct error as [y|].
      * apply bind_done in H2 as (c & ->%own_done & H2). apply (IHe y); [right; left|done..].
      * injection H2 as <-. apply sound_skip.
  - apply bind_done in H as (c & ->%passed_done & (st1 & H1 & (c & ->%passed_done & H2)%bind_done)%bind_done).
    apply (sound_seq_wf _ _ _ st1); [done| |intros Hwf1].
    + apply (IHe x); [left|done..].
    + apply sound_maybe. apply (IHe y); [right; left|done..].
  - apply bind_done in H as (c & ->%passed_done & (st1 & H1 & (st2 & H2 & [= <-])%bind_done)%bind_done).
    apply (sound_seq_wf _ _ _ st1); [done| |intros Hwf1].
    + apply (IHe x); [left|done..].
    + apply sound_maybe. apply sound_scoped_block; [|done..]. refine (proj1 (IH (NBlock handler) _)). right. left.
  - apply bind_done in H as (before & H1 & H2). apply (sound_seq_wf _ _ _ before); [done| |intros Hwf1].
    + apply (IHe x); [left|done..].
    + apply sound_choose. apply (joins_arms before p context arms Hwf1) with (l := []) (joined := before);
        [|apply joins_nil|done].
      intros a Ha. refine (proj1 (IH (NArm a) _)). right. by apply list_elem_of_fmap_2.
Qed.

Lemma claims_statement s :
  (∀ c, c ∈ children (NStatement s) → claims c ∧ ∀ c', c' ∈ children c → claims c') → claims (NStatement s).
Proof.
  intros IH p st st' Hwf H.
  assert (∀ x, NExpression x ∈ children (NStatement s) → claims (NExpression x)) as IHe by (intros x Hx; by apply IH).
  destruct s as [name m value l a|[x|] l|x l|condition b else_branch l|condition b l|variable iterable b l|l|l];
    cbn [_check_statement plan_statement] in *; cbn [children] in *.
  - intros Hne. apply bind_done in H as (c & ->%own_done & (st1 & H1 & H2)%bind_done).
    apply (IHe value ltac:(left)) in H1; [|done]. apply (statements_seq _ _ _ st1).
    + by apply sound_statement.
    + eapply statements_declare; [by eapply sound_wf|done].
  - apply bind_done in H as (c & ->%own_done & H1). apply (sound_seq _ _ _ st'); [|apply sound_exit].
    apply (IHe x); [left|done..].
  - injection H as <-. apply sound_exit.
  - apply (IHe x); [left|done..].
  - apply bind_done in H as (before & H1 & H2). apply (sound_seq_wf _ _ _ before); [done| |intros Hwf1].
    + apply (IHe condition); [left|done..].
    + by apply (claims_if p before condition b else_branch l); [intros c Hc; apply IH|..].
  - apply bind_done in H as (before & H1 & (st1 & H2 & ([] & H3 & [= <-])%bind_done)%bind_done).
    apply (IHe condition ltac:(left)) in H1; [|done]. apply (sound_loop _ _ _ before); [done| |by eapply reject_repeated_move_done].
    apply sound_scoped_block; [|by eapply sound_wf|done]. refine (proj1 (IH (NBlock b) _)). right. left.
  - apply bind_done in H as (before & H1 & (st1 & H2 & (st2 & H3 & ([] & H4 & [= <-])%bind_done)%bind_done)%bind_done).
    apply (IHe iterable ltac:(left)) in H1; [|done]. pose proof (sound_wf _ _ _ Hwf H1) as Hwf1.
    apply (sound_seq _ _ _ before); [done|]. apply (sound_loop _ _ _ before); [apply sound_skip| |exact (reject_repeated_move_done _ _ _ H4)].
    apply sound_scope; [done|]. apply statements_declare in H2; [|by apply wf_push].
    apply (statements_seq _ _ _ st1); [done|]. refine (proj1 (IH (NBlock b) _) _ _ _ (statements_wf _ _ _ H2) _ H3); [right; left|].
    by destruct (statements_scopes _ _ _ H2) as (? & ? & ? & _ & ->).
  - injection H as <-. apply sound_exit.
  - injection H as <-. apply sound_exit.
Qed.

Lemma claims_arm a :
  (∀ c, c ∈ children (NArm a) → claims c) → claims (NArm a).
Proof.
  intros IH p context st st' Hwf Hne H. destruct a as [variant binding arm_body l]. cbn [_check_arm plan_arm] in *.
  apply bind_done in H as (st1 & H1 & H2). apply (statements_seq _ _ _ st1).
  - destruct binding as [name|]; [by eapply statements_declare|]. injection H1 as <-. apply sound_statement; [done..|apply sound_skip].
  - assert (wf st1 ∧ scopes st1 ≠ []) as [Hwf1 Hne1].
    { destruct binding as [name|]; [|by injection H1 as <-]. apply statements_declare in H1; [|done]. split; [apply H1|].
      destruct (statements_scopes _ _ _ H1) as (? & ? & ? & _ & ->). done. }
    destruct arm_body as [e|b]; cbn [children] in IH.
    + apply bind_done in H2 as (c & ->%passed_done & H2). apply sound_statement; [done..|]. apply (IH (NExpression e)); [left|done..].
    + apply (IH (NBlock b)); [left|done..].
Qed.

Lemma claims_block b : (∀ c, c ∈ children (NBlock b) → claims c) → claims (NBlock b).
Proof.
  intros IH p st st' Hwf Hne H. destruct b as [l]. eapply statements_list; [|done..].
  intros i s st1 st2 Hs Hwf1 Hne1 H1. apply (IH (NStatement s)) in H1; [|by apply list_elem_of_fmap_2|done].
  destruct s; try (by apply sound_statement). by apply H1.
Qed.

Lemma claims_all n : claims n.
Proof.
  apply (node_children_ind claims). clear n. intros [e|a|s|b] IH.
  - by apply claims_expression.
  - apply claims_arm. intros c Hc. by apply IH.
  - by apply claims_statement.
  - apply claims_block. intros c Hc. by apply IH.
Qed.
End sound.

(** * Accepted functions *)

(** What an execution of a function does: declare its parameters, run its body. *)
Definition plan_function (v : TypeContractValidator) (typed : TypedExpressions) (limit : nat) (i : nat) (f : FunctionDeclaration)
    : contract_result action :=
  types ← outcome_map (λ p, function_type f (Some (parameter_type p))) (parameters f);
  Done (ASeq (aseq (zip_with (λ p t, ADeclare (parameter_name p) t) (parameters f) types))
    (plan_block (affine_type v limit) (_type_of typed i) [] (body f))).

Lemma sound_parameters v limit f ps : ∀ st st',
  wf st → scopes st ≠ [] →
  outcome_fold (λ st p, t ← function_type f (Some (parameter_type p));
                _declare v limit (parameter_name p) t (parameter_location p) false st) st ps = Done st' →
  ∃ types, outcome_map (λ p, function_type f (Some (parameter_type p))) ps = Done types ∧
    sound_statements v limit (aseq (zip_with (λ p t, ADeclare (parameter_name p) t) ps types)) st st'.
Proof.
  induction ps as [|p ps IH]; intros st st' Hwf Hne; cbn [outcome_fold outcome_map].
  - intros [= <-]. exists []. split; [done|]. apply sound_statement; [done..|apply sound_skip].
  - intros (st1 & (t & Et & Hd)%bind_done & H)%bind_done. apply statements_declare in Hd; [|done].
    apply IH in H as (types & -> & Hs); [|by apply Hd|by destruct (statements_scopes _ _ _ _ _ Hd) as (? & ? & ? & _ & ->)].
    exists (t :: types). rewrite Et. split; [done|]. by apply (statements_seq _ _ _ _ _ st1).
Qed.

Lemma affine_function v typed limit i f st st' : scopes st = [] → moved st = ∅ →
  check_affine_function v typed limit i f st = Done st' →
  scopes st' = [] ∧ moved st' = ∅ ∧ ∃ plan, plan_function v typed limit i f = Done plan ∧
    (tests_borrow plan = true → ¬ exec (affine_type v limit) plan [∅] UseAfterMove).
Proof.
  intros Hs Hm (st1 & Hp & (st2 & Hb & [= <-])%bind_done)%bind_done.
  assert (wf (push_scope st)) as Hwf.
  { unfold push_scope, with_scopes. rewrite Hs. split; cbn [scopes apart]; [set_solver|].
    intros id. rewrite scope_ids_cons, binding_ids_empty. cbn. set_solver. }
  apply sound_parameters in Hp as (types & Et & Hp); [|done..].
  assert (scopes st1 ≠ []) as Hne by by destruct (statements_scopes _ _ _ _ _ Hp) as (? & ? & ? & _ & ->).
  pose proof (claims_all v typed limit i (NBlock (body f)) [] st1 st2 (statements_wf _ _ _ _ _ Hp) Hne Hb) as Hbody.
  pose proof (statements_seq _ _ _ _ _ _ _ Hp Hbody) as [(top & top' & rest & E & E') _ _ _ _ Hruns].
  cbn in E. rewrite Hs in E. injection E as <- <-. split; [cbn; by rewrite E'|]. split; [done|].
  eexists. split; [unfold plan_function; by rewrite Et|]. intros Htests Hexec.
  apply (Hruns Htests [∅] UseAfterMove); [|done]. cbn. rewrite Hs. by apply covers_push, Forall2_nil.
Qed.

Lemma affine_functions v typed limit fs : ∀ i st st', scopes st = [] → moved st = ∅ →
  numbered_fold (check_affine_function v typed limit) i fs st = Done st' →
  ∀ j f, fs !! j = Some f → ∃ plan, plan_function v typed limit (i + j) f = Done plan ∧
    (tests_borrow plan = true → ¬ exec (affine_type v limit) plan [∅] UseAfterMove).
Proof.
  induction fs as [|f0 fs IH]; intros i st st' Hs Hm; cbn [numbered_fold]; [done|].
  intros (st1 & H1 & H2)%bind_done. apply affine_function in H1 as (Hs1 & Hm1 & Hplan); [|done..]. intros [|j] f.
  - intros [= ->]. by rewrite Nat.add_0_r.
  - intros Hj. rewrite Nat.add_succ_r, <- Nat.add_succ_l. by apply (IH _ _ _ Hs1 Hm1 H2).
Qed.

(** C12: No owner is used after it was moved.  In every function of an accepted
program, no execution, whatever its branches, arms, early returns and numbers of
iterations, reads or takes a resource that it has taken before, provided that no
loop takes a resource in its test. *)
Theorem affine_no_use_after_move program imports typed limit :
  check_affine_resources program imports typed limit = Done () →
  ∀ i f, declared program i f →
    ∃ plan, plan_function (new_validator program imports) typed limit i f = Done plan ∧
      (tests_borrow plan = true → ¬ exec (affine_type (new_validator program imports) limit) plan [∅] UseAfterMove).
Proof.
  intros (st & H & _)%bind_done i f Hf. exact (affine_functions _ _ _ _ 0 (mk_checker [] ∅ ∅ 1) _ eq_refl eq_refl H i f Hf).
Qed.

(** ** Two functions with a capability *)

Definition net_parameter : FunctionParameter := mk_parameter (u "authority") (written (u "NetCaps")) origin.
Definition consume_call (name : ustring) : Expression :=
  CallExpression (Identifier (u "consume") origin) [Identifier name origin] origin.
Definition affine_function_of (l : list Statement) : NativeProgram :=
  mk_program [mk_function (u "run") [net_parameter] None (mk_block l) origin false [] false] [] [] [] [].

(** [let next = authority  if ready { consume(next) }]. *)
Definition handoff_program : NativeProgram :=
  affine_function_of
    [LetStatement (u "next") false (Identifier (u "authority") origin) origin None;
     IfStatement (Identifier (u "ready") origin) (mk_block [ExpressionStatement (consume_call (u "next")) origin]) None origin].
Definition handoff_types : TypedExpressions :=
  [((0%nat, [0; 0]%nat), NamedType (u "NetCaps")); ((0%nat, [1; 1; 0; 0; 1]%nat), NamedType (u "NetCaps"))].

Lemma affine_no_use_after_move_witness :
  check_affine_resources handoff_program [] handoff_types 100 = Done () ∧
  match plan_function (new_validator handoff_program []) handoff_types 100 0
    (mk_function (u "run") [net_parameter] None (mk_block
      [LetStatement (u "next") false (Identifier (u "authority") origin) origin None;
       IfStatement (Identifier (u "ready") origin) (mk_block [ExpressionStatement (consume_call (u "next")) origin]) None origin])
      origin false [] false) with
  | Done plan => tests_borrow plan = true ∧ ¬ exec (affine_type (new_validator handoff_program []) 100) plan [∅] UseAfterMove
  | _ => False
  end.
Proof.
  assert (check_affine_resources handoff_program [] handoff_types 100 = Done ()) as Hc by (vm_compute; reflexivity).
  split; [exact Hc|].
  destruct (affine_no_use_after_move handoff_program [] handoff_types 100 Hc 0 _ eq_refl) as (plan & Hp & H).
  rewrite Hp. assert (tests_borrow plan = true) as Ht by (vm_compute in Hp; injection Hp as <-; reflexivity).
  split; [exact Ht|exact (H Ht)].
Defined.

(** [while consume(authority) {}] is accepted although its second test uses the
moved authority. *)
Definition loop_program : NativeProgram :=
  affine_function_of [WhileStatement (consume_call (u "authority")) (mk_block []) origin].
Definition loop_types : TypedExpressions := [((0%nat, [0; 0; 1]%nat), NamedType (u "NetCaps"))].

Lemma moving_test_accepted :
  check_affine_resources loop_program [] loop_types 100 = Done () ∧
  ∃ f plan, declared loop_program 0 f ∧ plan_function (new_validator loop_program []) loop_types 100 0 f = Done plan ∧
    exec (affine_type (new_validator loop_program []) 100) plan [∅] UseAfterMove.
Proof.
  split; [vm_compute; reflexivity|].
  eexists _, _. split; [reflexivity|]. split; [vm_compute; reflexivity|].
  pose (affine := affine_type (new_validator loop_program []) 100).
  pose (start := declare_slot (u "authority") (NamedType (u "NetCaps")) [∅]).
  pose (taken := match use_slot affine (u "authority") MOVE start with Runs s _ => s | UseAfterMove => [] end).
  pose (other := use_slot affine (u "consume") BORROW).
  eapply exec_seq.
  { eapply exec_seq; [apply exec_declare|apply exec_skip]. }
  eapply exec_seq_moved.
  assert (∀ s, exec affine (AUse (u "consume") BORROW) s (other s)) as Hother by (intros s; apply exec_use).
  eapply exec_again with (s' := taken) (how := Completes); [|by left|].
  - eapply exec_seq; [|apply exec_right, exec_scope with (level := ∅), exec_skip].
    eapply exec_seq; [exact (Hother start)|]. eapply exec_seq; [|apply exec_skip]. exact (exec_use affine (u "authority") MOVE start).
  - apply exec_loop_moved. apply exec_seq_moved. eapply exec_seq; [exact (Hother taken)|].
    apply exec_seq_moved. exact (exec_use affine (u "authority") MOVE taken).
Qed.
