(* ===== verification/Modules.v ===== *)
(** The module pipeline: [src/koschei/modules.py].

[load_graph] reads and parses a module and what it imports; [check_graph] runs
the analyses over the modules in dependency order and hands their reports to the
lowering.  A path is its text.  [Path.resolve], the files and the caller's reader
and resolver are parameters; the analyses that this library does not model are a
record of functions. *)

From S2P Require Import Prelude Order TypeSystem Lexer Ast Parser Integrity Capability TypeContracts Effects Typestate Affine.

(** [Module] of the source. *)
Record SourceModule := mk_module {
  source_name : ustring;
  module_path : ustring;
  module_program : NativeProgram;
  module_imports : list (ustring * ustring);
}.

(** The graph before it is checked. *)
Record ModuleGraph := mk_module_graph {
  graph_root : ustring;
  graph_modules : list (ustring * SourceModule);
}.

Inductive module_error :=
  | ModuleError (code : Z) (l : SourceLocation)
  (** A [ModuleError] of the caller's reader or resolver. *)
  | CallerError (code : Z) (l : SourceLocation)
  (** An [OSError] or [UnicodeDecodeError] of [read_text]. *)
  | ReadError (path : ustring)
  (** A [LexerError] or [ParserError] with its [source_path]. *)
  | SourceError (path : ustring) (e : parse_error)
  | ModuleKeyError (key : ustring).

Abbreviation load_result A := (outcome module_error A).

Definition module_of (graph : ModuleGraph) (k : ustring) : load_result SourceModule :=
  match assoc k (graph_modules graph) with Some m => Done m | None => Raise (ModuleKeyError k) end.

Definition root_module (graph : ModuleGraph) : load_result SourceModule := module_of graph (graph_root graph).

(** The modules with their keys. *)
Definition entries_in_order (graph : ModuleGraph) : load_result (list (ustring * SourceModule)) :=
  dependency_order (λ m, (module_imports m).*2) (graph_modules graph) ModuleKeyError (graph_root graph).

(** * Paths *)

Definition SLASH : Z := 47.
Definition DOT : Z := 46.

(** The text before the last slash and the text after it. *)
Definition split_path (path : ustring) : ustring * ustring :=
  match List.find (λ n, bool_decide (path !! n = Some SLASH)) (rev (seq 0 (length path))) with
  | Some n => (take n path, drop (S n) path)
  | None => ([], path)
  end.

(** [parent / name] of an absolute path. *)
Definition beside (path name : ustring) : ustring := (split_path path).1 ++ [SLASH] ++ name.

(** [Path.stem]: the name without its last suffix. *)
Definition stem (path : ustring) : ustring :=
  let name := (split_path path).2 in
  match List.find (λ n, bool_decide (name !! n = Some DOT)) (rev (seq 0 (length name))) with
  | Some n => if (0 <? n)%nat && (n <? length name - 1)%nat then take n name else name
  | None => name
  end.

Definition MODULE_SUFFIX : ustring := u ".ks".

Definition _resolve_sibling_import (importer name : ustring) (_ : SourceLocation) : ustring :=
  beside importer (name ++ MODULE_SUFFIX).

(** * Loading *)

(** What the file system has at a path. *)
Inductive file :=
  | NoFile
  | Unreadable
  | Contents (source : ustring).

(** What a caller's reader answers. *)
Inductive reader_answer :=
  | ReadText (source : ustring)
  | ReaderModuleError (code : Z) (l : SourceLocation)
  | ReaderFailure
  | NotText.

Section load.
Context `{Unicode}.
(** [Path.resolve]. *)
Context (resolve : ustring → ustring).
Context (files : ustring → file).
Context (import_resolver : option (ustring → ustring → SourceLocation → ustring + (Z * SourceLocation))).
Context (source_reader : option (ustring → reader_answer)).

Definition resolver (importer name : ustring) (l : SourceLocation) : load_result ustring :=
  match import_resolver with
  | None => Done (_resolve_sibling_import importer name l)
  | Some f =>
      match f importer name l with
      | inl target => Done target
      | inr (code, l) => Raise (CallerError code l)
      end
  end.

Definition read_source (path : ustring) (l : SourceLocation) : load_result ustring :=
  match source_reader with
  | None =>
      match files path with
      | NoFile => Raise (ModuleError 1601 l)
      | Unreadable => Raise (ReadError path)
      | Contents source => Done source
      end
  | Some reader =>
      match reader path with
      | ReadText source => Done source
      | ReaderModuleError code l => Raise (CallerError code l)
      | ReaderFailure | NotText => Raise (ModuleError 1604 l)
      end
  end.

Definition parse_source (path source : ustring) : load_result NativeProgram :=
  match parse source with
  | Done program => Done program
  | Raise e => Raise (SourceError path e)
  | NoFuel => NoFuel
  end.

(** The loaded modules, newest last. *)
Abbreviation module_table := (list (ustring * SourceModule)).

(** One import of the module at [importer]: the names seen, the imports bound and
the modules loaded so far. *)
Definition load_import (load : module_table → ustring → ustring → SourceLocation → load_result (ustring * module_table))
    (importer : ustring) (st : list ustring * list (ustring * ustring) * module_table) (d : ImportDeclaration)
    : load_result (list ustring * list (ustring * ustring) * module_table) :=
  let '(seen, bound, table) := st in
  let name := import_name d in
  if bool_decide (name ∈ seen) then Raise (ModuleError 1603 (import_location d))
  else
    target ← resolver importer name (import_location d);
    '(k, table) ← load table target name (import_location d);
    Done (name :: seen, bound ++ [(name, k)], table).

(** Every nested call loads another readable path. *)
Fixpoint load (fuel : nat) (loading : list ustring) (table : module_table) (path name : ustring) (l : SourceLocation)
    : load_result (ustring * module_table) :=
  match fuel with
  | O => NoFuel
  | S fuel =>
      let resolved_path := resolve path in
      let key := resolved_path in
      if bool_decide (key ∈ loading) then Raise (ModuleError 1602 l)
      else
        match assoc key table with
        | Some _ => Done (key, table)
        | None =>
            source ← read_source resolved_path l;
            program ← parse_source resolved_path source;
            '(_, bound, table) ← outcome_fold (load_import (load fuel (loading ++ [key])) resolved_path)
              ([], [], table) (imports program);
            Done (key, table ++ [(key, mk_module name resolved_path program bound)])
        end
  end.

(** The fuel bounds the nesting of the imports. *)
Definition load_graph (fuel : nat) (root_path : ustring) : load_result ModuleGraph :=
  let root := resolve root_path in
  '(root_key, table) ← load fuel [] [] root (stem root) (mk_location 1 1);
  Done (mk_module_graph root_key table).
End load.

(** * Checking *)

Definition public_api (m : SourceModule) : ImportedModule :=
  mk_imported_module
    ((λ d, (function_name d, d)) <$> declarations (module_program m))
    ((λ d, (struct_name d, d)) <$> structs (module_program m))
    ((λ d, (enum_name d, d)) <$> enums (module_program m)).

Definition imported_modules (graph : ModuleGraph) (m : SourceModule) : load_result (list (ustring * ImportedModule)) :=
  outcome_map (λ import : ustring * ustring, target ← module_of graph import.2; Done (import.1, public_api target))
    (module_imports m).

Inductive check_error :=
  | GraphError (e : module_error)
  (** A [SemanticError] with its [source_path]. *)
  | IntegrityFault (path : ustring) (e : integrity_error)
  | ContractFault (path : ustring) (e : contract_error)
  | NoReport.

(** The passes that this library does not model. *)
Record passes (Report Semantic Sigils NativeMir Mir : Type) := mk_passes {
  check_typed_hir : NativeProgram → list (ustring * ImportedModule) → outcome contract_error Report;
  (** The types of the expressions in the report. *)
  typed_expressions : Report → TypedExpressions;
  check_native_sigils : NativeProgram → outcome contract_error Sigils;
  (** [prepare_legacy_analysis], then the semantic check. *)
  semantic_check : NativeProgram → list (ustring * ImportedModule) → Report → outcome contract_error Semantic;
  lower_native_sigils : NativeProgram → Sigils → outcome contract_error NativeMir;
  lower_mir_graph : ModuleGraph → list (ustring * Report) → list (ustring * EffectReport) → list (ustring * NativeMir) →
    outcome check_error Mir;
}.
Arguments check_typed_hir {_ _ _ _ _}.
Arguments typed_expressions {_ _ _ _ _}.
Arguments check_native_sigils {_ _ _ _ _}.
Arguments semantic_check {_ _ _ _ _}.
Arguments lower_native_sigils {_ _ _ _ _}.
Arguments lower_mir_graph {_ _ _ _ _}.

(** The outcome of one part of a check, as an error at the module. *)
Definition at_module {E A} (wrap : E → check_error) (r : outcome E A) : outcome check_error A :=
  match r with Done a => Done a | Raise e => Raise (wrap e) | NoFuel => NoFuel end.

Section check.
Context {Report Semantic Sigils NativeMir Mir : Type}.
Context (pass : passes Report Semantic Sigils NativeMir Mir).
Context (recursion_limit : nat).

(** The reports of the modules checked so far and the root's semantic report. *)
Record check_state := mk_check_state {
  typed_reports : list (ustring * Report);
  effect_reports : list (ustring * EffectReport);
  native_mir_reports : list (ustring * NativeMir);
  semantic_report : option Semantic;
}.

(** The effect reports of the modules that [m] imports, by alias. *)
Definition imported_effects_of (reports : list (ustring * EffectReport)) (m : SourceModule) : list (ustring * EffectReport) :=
  omap (λ import : ustring * ustring, (λ report, (import.1, report)) <$> assoc import.2 reports) (module_imports m).

(** The body of the loop of [check_graph]. *)
Definition check_module (graph : ModuleGraph) (st : check_state) (entry : ustring * SourceModule) : outcome check_error check_state :=
  let '(k, m) := entry in
  let program := module_program m in
  let contract := ContractFault (module_path m) in
  imported ← at_module GraphError (imported_modules graph m);
  _ ← at_module (IntegrityFault (module_path m)) (check_program_integrity program);
  native ← (if bool_decide (sigils program = []) then Done None
            else report ← at_module contract (check_native_sigils pass program); Done (Some report));
  typed ← at_module contract (check_typed_hir pass program imported);
  _ ← at_module contract (check_typestate_resources program imported (typed_expressions pass typed) recursion_limit);
  _ ← at_module contract (check_affine_resources program imported (typed_expressions pass typed) recursion_limit);
  effect_report ← at_module contract
    (check_effect_contracts program imported (typed_expressions pass typed) (imported_effects_of (effect_reports st) m) recursion_limit);
  result ← at_module contract (semantic_check pass program imported typed);
  native_reports ← match native with
                   | None => Done (native_mir_reports st)
                   | Some report => low ← at_module contract (lower_native_sigils pass program report);
                                    Done (native_mir_reports st ++ [(k, low)])
                   end;
  Done (mk_check_state (typed_reports st ++ [(k, typed)]) (effect_reports st ++ [(k, effect_report)]) native_reports
    (if bool_decide (k = graph_root graph) then Some result else semantic_report st)).

(** The semantic report of the root, and the MIR and the native reports that are
attached to the graph. *)
Definition check_graph (graph : ModuleGraph) : outcome check_error (Semantic * Mir * list (ustring * NativeMir)) :=
  entries ← at_module GraphError (entries_in_order graph);
  st ← outcome_fold (check_module graph) (mk_check_state [] [] [] None) entries;
  match semantic_report st with
  | None => Raise NoReport
  | Some report =>
      mir ← lower_mir_graph pass graph (typed_reports st) (effect_reports st) (native_mir_reports st);
      Done (report, mir, native_mir_reports st)
  end.
End check.

Definition require_entrypoint (graph : ModuleGraph) : load_result () :=
  root ← root_module graph;
  match List.find (λ f, bool_decide (function_name f = u "main")) (declarations (module_program root)) with
  | None => Raise (ModuleError 1801 (mk_location 1 1))
  | Some main =>
      match return_type main with
      | Some r => Raise (ModuleError 1801 (type_location r))
      | None => Done ()
      end
  end.

(** The table of structs (and of enums) that the back ends read: of two modules
that declare a name, the later in dependency order wins. *)
Definition struct_declarations (graph : ModuleGraph) : load_result (gmap ustring StructDeclaration) :=
  entries ← entries_in_order graph;
  Done (foldl (λ m entry, dict_update m ((λ d, (struct_name d, d)) <$> structs (module_program entry.2))) ∅ entries).

Definition enum_declarations (graph : ModuleGraph) : load_result (gmap ustring EnumDeclaration) :=
  entries ← entries_in_order graph;
  Done (foldl (λ m entry, dict_update m ((λ d, (enum_name d, d)) <$> enums (module_program entry.2))) ∅ entries).

(** * What loading finds *)

Section loaded.
Context `{Unicode}.
Context (resolve : ustring → ustring) (files : ustring → file).
Context (import_resolver : option (ustring → ustring → SourceLocation → ustring + (Z * SourceLocation))).
Context (source_reader : option (ustring → reader_answer)).

Abbreviation resolver' := (resolver import_resolver).
Abbreviation read' := (read_source files source_reader).
Abbreviation load' := (load resolve files import_resolver source_reader).

Definition source_text (k : ustring) : option ustring :=
  match source_reader with
  | None => match files k with Contents source => Some source | _ => None end
  | Some reader => match reader k with ReadText source => Some source | _ => None end
  end.

(** The program at a path. *)
Definition unit_at (k : ustring) (program : NativeProgram) : Prop :=
  ∃ source, source_text k = Some source ∧ parse source = Done program.

(** The module at [k] imports the one at [j]. *)
Definition refers (k j : ustring) : Prop :=
  ∃ program d target, unit_at k program ∧ d ∈ imports program ∧
    resolver' k (import_name d) (import_location d) = Done target ∧ resolve target = j.

Context (root : ustring).

Definition reached (k : ustring) : Prop := rtc refers root k.

(** A module of the table: the program at its key, reached from the root, its
imports bound in order to the paths they resolve to, which come before it. *)
Record entry_ok (before : list ustring) (k : ustring) (m : SourceModule) : Prop := {
  entry_new : k ∉ before;
  entry_reached : reached k;
  entry_path : module_path m = k;
  entry_unit : unit_at k (module_program m);
  entry_distinct : NoDup (import_name <$> imports (module_program m));
  entry_bound : Forall2 (λ d (import : ustring * ustring), import.1 = import_name d ∧
    ∃ target, resolver' k (import_name d) (import_location d) = Done target ∧ resolve target = import.2)
    (imports (module_program m)) (module_imports m);
  entry_before : ∀ j, j ∈ (module_imports m).*2 → j ∈ before;
}.

Definition table_ok (table : list (ustring * SourceModule)) : Prop :=
  ∀ l1 k m l2, table = l1 ++ (k, m) :: l2 → entry_ok l1.*1 k m.

(** What an error of the loader means. *)
Definition load_fault (e : module_error) : Prop :=
  match e with
  | ModuleError code _ =>
      (code = 1602 ∧ ∃ k, reached k ∧ tc refers k k) ∨
      (code = 1603 ∧ ∃ k program, reached k ∧ unit_at k program ∧ ¬ NoDup (import_name <$> imports program)) ∨
      ((code = 1601 ∨ code = 1604) ∧ ∃ k, reached k ∧ source_text k = None)
  | CallerError code l =>
      (∃ k reader, reached k ∧ source_reader = Some reader ∧ reader k = ReaderModuleError code l) ∨
      (∃ k program d f, reached k ∧ unit_at k program ∧ d ∈ imports program ∧ import_resolver = Some f ∧
        f k (import_name d) (import_location d) = inr (code, l))
  | ReadError k => reached k ∧ source_text k = None
  | SourceError k e => reached k ∧ ∃ source, source_text k = Some source ∧ parse source = Raise e
  | ModuleKeyError _ => False
  end.

Lemma read_source_spec k l : reached k →
  match read' k l with Done source => source_text k = Some source | Raise e => load_fault e | NoFuel => False end.
Proof.
  intros Hk. unfold read_source, source_text.
  destruct source_reader as [reader|] eqn:Er.
  - destruct (reader k) eqn:Ek; cbn; [done|left; eauto|right; right; split; [by right|]; exists k..];
      (split; [done|]; unfold source_text; by rewrite Er, Ek).
  - destruct (files k) eqn:Ek; cbn; [right; right; split; [by left|]; exists k|split; [done|]|done];
      [split; [done|]|]; unfold source_text; by rewrite Er, Ek.
Qed.

Lemma parse_source_spec k source : reached k → source_text k = Some source →
  match parse_source k source with Done program => unit_at k program | Raise e => load_fault e | NoFuel => False end.
Proof.
  intros Hk Hs. unfold parse_source. pose proof (proj1 (parse_no_fuel source)) as Hn.
  destruct (parse source) as [program|e|] eqn:E; [by exists source|by split; [|exists source]|done].
Qed.

Lemma table_ok_nil : table_ok [].
Proof. intros [|] ? ? ? [=]. Qed.

Lemma table_ok_snoc table k m : table_ok table → entry_ok table.*1 k m → table_ok (table ++ [(k, m)]).
Proof.
  intros Ht Hk l1 k' m' l2 [(r & ->)|(r & -> & E)]%app_cons_split; [by eapply Ht|].
  destruct r as [|? [|]]; try done. injection E as <- <- <-. by rewrite app_nil_r.
Qed.

(** ** One call of the loader *)

(** The state in which [k] is loaded: the modules of [loading] wait for it. *)
Record loads (loading : list ustring) (table : list (ustring * SourceModule)) (k : ustring) : Prop := {
  loads_table : table_ok table;
  loads_apart : ∀ j, j ∈ table.*1 → j ∉ loading;
  loads_waiting : ∀ j, j ∈ loading → tc refers j k;
  loads_reached : reached k;
}.

(** What the call leaves. *)
Record loaded (loading : list ustring) (table table' : list (ustring * SourceModule)) (k : ustring) : Prop := {
  loaded_table : table_ok table';
  loaded_apart : ∀ j, j ∈ table'.*1 → j ∉ loading;
  loaded_grows : table.*1 ⊆ table'.*1;
  loaded_key : k ∈ table'.*1;
}.

Definition load_ok (loading : list ustring) (table : list (ustring * SourceModule)) (k : ustring)
    (r : load_result (ustring * list (ustring * SourceModule))) : Prop :=
  match r with
  | Done (key, table') => key = k ∧ loaded loading table table' k
  | Raise e => load_fault e
  | NoFuel => False
  end.

(** The imports of the module at [k] that are bound so far. *)
Record binds_imports (k : ustring) (loading : list ustring) (table : list (ustring * SourceModule)) (done : list ImportDeclaration)
    (st : list ustring * list (ustring * ustring) * list (ustring * SourceModule)) : Prop := {
  binds_seen : ∀ name, name ∈ st.1.1 ↔ name ∈ import_name <$> done;
  binds_distinct : NoDup (import_name <$> done);
  binds_bound : Forall2 (λ d (import : ustring * ustring), import.1 = import_name d ∧
    ∃ target, resolver' k (import_name d) (import_location d) = Done target ∧ resolve target = import.2) done st.1.2;
  binds_table : table_ok st.2;
  binds_apart : ∀ j, j ∈ st.2.*1 → j ∉ loading;
  binds_before : ∀ j, j ∈ st.1.2.*2 → j ∈ st.2.*1;
  binds_grows : table.*1 ⊆ st.2.*1;
}.

Definition imports_ok k loading table program
    (r : load_result (list ustring * list (ustring * ustring) * list (ustring * SourceModule))) : Prop :=
  match r with Done st => binds_imports k loading table (imports program) st | Raise e => load_fault e | NoFuel => False end.

Lemma load_imports_spec fuel loading table k program :
  (∀ table path name l, loads (loading ++ [k]) table (resolve path) → load_ok (loading ++ [k]) table (resolve path) (load' fuel (loading ++ [k]) table path name l)) →
  loads loading table k → k ∉ loading → k ∉ table.*1 → unit_at k program →
  imports_ok k (loading ++ [k]) table program
    (outcome_fold (load_import import_resolver (load' fuel (loading ++ [k])) k) ([], [], table) (imports program)).
Proof.
  intros Hload [L1 L2 L3 L4] Hk Hnew Hunit. unfold imports_ok.
  assert (∀ l done st, imports program = done ++ l → binds_imports k (loading ++ [k]) table done st →
    imports_ok k (loading ++ [k]) table program (outcome_fold (load_import import_resolver (load' fuel (loading ++ [k])) k) st l)) as Hloop.
  { induction l as [|d l IH]; intros done st E Hst; cbn [outcome_fold].
    - rewrite app_nil_r in E. by rewrite <- E in Hst.
    - destruct st as [[seen bound] tab]. destruct Hst as [B1 B2 B3 B4 B5 B6 B7]. cbn [fst snd] in *. unfold load_import at 2. cbn beta iota zeta.
      assert (d ∈ imports program) as Hd by (rewrite E, elem_of_app; right; left).
      destruct (bool_decide_reflect (import_name d ∈ seen)) as [Hs|Hs].
      { cbn. right. left. split; [done|]. exists k, program. split; [done|]. split; [done|]. rewrite E, fmap_app, fmap_cons.
        intros (_ & Hn & _)%NoDup_app. apply (Hn (import_name d)); [by apply B1|left]. }
      assert (match resolver' k (import_name d) (import_location d) with Raise e => load_fault e | NoFuel => False | _ => True end) as Hr.
      { unfold resolver. destruct import_resolver as [f|] eqn:Ef; [|done].
        destruct (f k _ _) as [target|[code l']] eqn:Et; [done|]. cbn. right. by exists k, program, d, f. }
      destruct (resolver' k (import_name d) (import_location d)) as [target|e|] eqn:Et; cbn [mbind outcome_bind]; [clear Hr|done..].
      assert (refers k (resolve target)) as Hrefers by by exists program, d, target.
      assert (loads (loading ++ [k]) tab (resolve target)) as Hl.
      { split; [done..| |by eapply rtc_r]. intros j [Hj| ->%list_elem_of_singleton]%elem_of_app; [|by apply tc_once].
        eapply tc_r; [by apply L3|done]. }
      specialize (Hload tab target (import_name d) (import_location d) Hl).
      destruct (load' fuel (loading ++ [k]) tab target _ _) as [[key tab']|e|]; cbn [mbind outcome_bind]; [|done..].
      destruct Hload as (-> & [D1 D2 D3 D4]). apply (IH (done ++ [d])); [by rewrite <- app_assoc|].
      split; cbn [fst snd]; [| | |done|done| |by etransitivity].
      + intros name. rewrite elem_of_cons, fmap_app, elem_of_app, B1. cbn. rewrite list_elem_of_singleton. tauto.
      + rewrite fmap_app. apply NoDup_app. split; [done|]. split; [|apply NoDup_singleton].
        intros x Hx ->%list_elem_of_singleton. by apply Hs, B1.
      + apply Forall2_app; [done|]. constructor; [|done]. split; [done|]. by exists target.
      + intros j. rewrite fmap_app, elem_of_app. intros [Hj| ->%list_elem_of_singleton]; [by apply D3, B6|done]. }
  apply (Hloop _ []); [done|]. split; cbn [fst snd]; [|constructor|constructor|done| |by intros j ?%elem_of_nil|done].
  - intros name. split; by intros ?%elem_of_nil.
  - intros j Hj [?| ->%list_elem_of_singleton]%elem_of_app; [by apply (L2 j)|done].
Qed.

(** Every readable path is one of [paths]. *)
Context (paths : gset ustring) (Hpaths : ∀ k, is_Some (source_text k) → k ∈ paths).

Lemma load_spec fuel : ∀ loading table path name l,
  NoDup loading → (∀ j, j ∈ loading → j ∈ paths) → (size paths < fuel + length loading)%nat →
  loads loading table (resolve path) → load_ok loading table (resolve path) (load' fuel loading table path name l).
Proof.
  induction fuel as [|fuel IH]; intros loading table path name l Hnd Hin Hfuel Hl.
  { exfalso. assert (length loading <= size paths)%nat; [|lia].
    rewrite <- (size_list_to_set (C := gset ustring) loading) by done. apply subseteq_size. intros j. rewrite elem_of_list_to_set. apply Hin. }
  cbn [load]. pose proof Hl as [L1 L2 L3 L4]. set (k := resolve path) in *.
  destruct (bool_decide_reflect (k ∈ loading)) as [Hk|Hk].
  { cbn. left. split; [done|]. exists k. split; [done|by apply L3]. }
  destruct (assoc k table) as [m|] eqn:Em.
  { cbn. split; [done|]. split; [done..|]. apply assoc_Some in Em. by apply (list_elem_of_fmap_2 fst) in Em. }
  pose proof (read_source_spec k l L4) as Hread. destruct (read' k l) as [source|e|]; cbn [mbind outcome_bind]; [|done..].
  pose proof (parse_source_spec k source L4 Hread) as Hparse.
  destruct (parse_source k source) as [program|e|]; cbn [mbind outcome_bind]; [|done..].
  assert (k ∉ table.*1) as Hnew by by apply assoc_None.
  assert (k ∈ paths) as Hkp by (apply Hpaths; by eexists).
  pose proof (load_imports_spec fuel loading table k program) as Himports. ospecialize (Himports _ Hl Hk Hnew Hparse).
  { intros table' path' name' l' Hl'. apply IH; [| | |done].
    - apply NoDup_app. split; [done|]. split; [|apply NoDup_singleton]. intros j Hj ->%list_elem_of_singleton. done.
    - intros j [?| ->%list_elem_of_singleton]%elem_of_app; [by apply Hin|done].
    - rewrite length_app. cbn. lia. }
  destruct (outcome_fold _ _ _) as [[[seen bound] table']|e|]; cbn [mbind outcome_bind]; [|done..].
  destruct Himports as [B1 B2 B3 B4 B5 B6 B7]. cbn [fst snd] in *. split; [done|]. split.
  - apply table_ok_snoc; [done|]. split; cbn; try done. intros Hk'. apply (B5 k Hk'). apply elem_of_app. right. left.
  - intros j. rewrite fmap_app, elem_of_app. intros [Hj| ->%list_elem_of_singleton]; [|done].
    intros Hj'. apply (B5 j Hj). apply elem_of_app. by left.
  - rewrite fmap_app. set_solver.
  - rewrite fmap_app, elem_of_app. right. left.
Qed.
End loaded.

(** ** The loaded graph *)

Section graph.
Context `{Unicode}.
Context (resolve : ustring → ustring) (files : ustring → file).
Context (import_resolver : option (ustring → ustring → SourceLocation → ustring + (Z * SourceLocation))).
Context (source_reader : option (ustring → reader_answer)).
Context (root : ustring).

Abbreviation refers' := (refers resolve files import_resolver source_reader).
Abbreviation table_ok' := (table_ok resolve files import_resolver source_reader root).

Lemma unit_at_unique k p1 p2 : unit_at files source_reader k p1 → unit_at files source_reader k p2 → p1 = p2.
Proof. intros (s1 & E1 & H1) (s2 & E2 & H2). congruence. Qed.

Lemma table_entry (table : list (ustring * SourceModule)) k : k ∈ table.*1 → ∃ l1 m l2, table = l1 ++ (k, m) :: l2.
Proof.
  intros ([k' m] & -> & (l1 & l2 & ->)%list_elem_of_split)%list_elem_of_fmap. by exists l1, m, l2.
Qed.

Lemma refers_before l1 k m l2 j : table_ok' (l1 ++ (k, m) :: l2) → refers' k j → j ∈ l1.*1.
Proof.
  intros Ht (program & d & target & Hunit & Hd & Hr & Hj). destruct (Ht _ _ _ _ eq_refl) as [_ _ _ E4 _ E6 E7].
  rewrite (unit_at_unique _ _ _ Hunit E4) in Hd. apply list_elem_of_lookup in Hd as (n & Hn).
  destruct (Forall2_lookup_l _ _ _ _ _ E6 Hn) as ([name j'] & Hin%list_elem_of_lookup_2 & _ & target' & Hr' & Hj').
  cbn in Hj'. apply E7. assert (j = j') as -> by congruence. by apply (list_elem_of_fmap_2 snd) in Hin.
Qed.

Lemma tc_before table k j : table_ok' table → tc refers' k j →
  ∀ l1 m l2, table = l1 ++ (k, m) :: l2 → j ∈ l1.*1.
Proof.
  intros Ht. induction 1 as [k j Hr|k y j Hr _ IH]; intros l1 m l2 ->; [by eapply refers_before|].
  pose proof (refers_before _ _ _ _ _ Ht Hr) as Hy. destruct (table_entry _ _ Hy) as (a & m' & b & ->).
  assert (j ∈ a.*1) as Hj by (apply (IH a m' (b ++ (k, m) :: l2)); by rewrite <- app_assoc).
  rewrite fmap_app, elem_of_app. by left.
Qed.

Lemma table_nodup table : table_ok' table → NoDup table.*1.
Proof.
  induction table as [|[k m] table IH] using rev_ind; intros Ht; [constructor|].
  rewrite fmap_app. apply NoDup_app. split.
  - apply IH. intros l1 k' m' l2 ->. apply (Ht l1 k' m' (l2 ++ [(k, m)])). by rewrite <- app_assoc.
  - split; [|apply NoDup_singleton]. intros j Hj ->%list_elem_of_singleton. by apply (entry_new _ _ _ _ _ _ _ _ (Ht table k m [] eq_refl)).
Qed.

Lemma table_reached table k : table_ok' table → root ∈ table.*1 →
  k ∈ table.*1 ↔ reached resolve files import_resolver source_reader root k.
Proof.
  intros Ht Hroot. split.
  - intros (l1 & m & l2 & ->)%table_entry. apply (Ht _ _ _ _ eq_refl).
  - intros Hr. assert (∀ x, rtc refers' x k → x ∈ table.*1 → k ∈ table.*1) as Hall; [|by apply (Hall root)].
    induction 1 as [x|x y z Hxy _ IH]; [done|]. intros (l1 & m & l2 & E)%table_entry. apply IH; [done..|].
    subst table. rewrite fmap_app, elem_of_app. left. by eapply refers_before.
Qed.
End graph.

(** C14: Loading a project is exact.  Among finitely many readable paths it always
ends.  The graph it returns has exactly the modules that the root reaches through
imports, each once and parsed from its own source, with its imports bound in order
to the modules they resolve to, and no module of it imports itself through others;
every error names a fault that the project has: an import cycle, a module imported
twice, a source that cannot be read or parsed, or an error of the caller's own
functions. *)
Theorem load_graph_exact `{Unicode} resolve files import_resolver source_reader paths fuel root_path :
  (∀ k, is_Some (source_text files source_reader k) → k ∈ (paths : gset ustring)) → (size paths < fuel)%nat →
  let root := resolve (resolve root_path) in
  match load_graph resolve files import_resolver source_reader fuel root_path with
  | Done g =>
      graph_root g = root ∧ NoDup (graph_modules g).*1 ∧
      (∀ k, k ∈ (graph_modules g).*1 ↔ reached resolve files import_resolver source_reader root k) ∧
      (∀ k, reached resolve files import_resolver source_reader root k → ¬ tc (refers resolve files import_resolver source_reader) k k) ∧
      ∀ k m, (k, m) ∈ graph_modules g →
        module_path m = k ∧ unit_at files source_reader k (module_program m) ∧
        (module_imports m).*1 = import_name <$> imports (module_program m) ∧ NoDup (module_imports m).*1 ∧
        Forall2 (λ d (import : ustring * ustring), ∃ target,
          resolver import_resolver k (import_name d) (import_location d) = Done target ∧ resolve target = import.2)
          (imports (module_program m)) (module_imports m)
  | Raise e => load_fault resolve files import_resolver source_reader root e
  | NoFuel => False
  end.
Proof.
  intros Hpaths Hfuel root. unfold load_graph. fold root.
  pose proof (load_spec resolve files import_resolver source_reader root paths Hpaths fuel [] [] (resolve root_path)
    (stem (resolve root_path)) (mk_location 1 1)) as Hl.
  ospecialize (Hl _ _ _ _); [constructor|by intros j ?%elem_of_nil|cbn; lia| |].
  { split; [apply table_ok_nil|by intros j ?%elem_of_nil|by intros j ?%elem_of_nil|apply rtc_refl]. }
  destruct (load _ _ _ _ _ _ _ _ _ _) as [[key table]|e|]; cbn [mbind outcome_bind]; [|exact Hl..].
  destruct Hl as (-> & [D1 _ _ D4]). fold root in D4. cbn [graph_root graph_modules].
  pose proof (λ k, table_reached resolve files import_resolver source_reader root table k D1 D4) as Hreached. split; [done|]. split; [by eapply table_nodup|]. split; [by intros k; apply Hreached|].
  split.
  - intros k Hk%Hreached Hcycle. destruct (table_entry _ _ Hk) as (l1 & m & l2 & ->).
    apply (entry_new _ _ _ _ _ _ _ _ (D1 _ _ _ _ eq_refl)). by eapply tc_before.
  - intros k m (l1 & l2 & ->)%list_elem_of_split. destruct (D1 _ _ _ _ eq_refl) as [_ _ E3 E4 E5 E6 _].
    split; [done|]. split; [done|].
    assert ((module_imports m).*1 = import_name <$> imports (module_program m)) as ->.
    { clear -E6. induction E6 as [|d [name j] ds bound [Hn _] _ IH]; [done|]. cbn in *. by rewrite Hn, IH. }
    split; [done|]. split; [done|]. eapply Forall2_impl; [exact E6|]. by intros d import [_ ?].
Qed.

(** * What checking establishes *)

Section checked.
Context {Report Semantic Sigils NativeMir Mir : Type}.
Context (pass : passes Report Semantic Sigils NativeMir Mir).
Context (recursion_limit : nat) (graph : ModuleGraph).

(** The module at a key, its imports and the types of its expressions. *)
Record view (k : ustring) (m : SourceModule) (imported : list (ustring * ImportedModule)) (types : TypedExpressions) : Prop := {
  view_module : assoc k (graph_modules graph) = Some m;
  view_imported : imported_modules graph m = Done imported;
  view_types : ∃ typed, check_typed_hir pass (module_program m) imported = Done typed ∧ types = typed_expressions pass typed;
}.

Definition unknown_import (alias g : ustring) : ustring := u "unknown.import:" ++ alias ++ u "." ++ g.

(** The function [f] of the module at [k] has an effect, through its signature and
its own calls, or through the functions it calls in its module and in others. *)
Inductive graph_performs : ustring → ustring → ustring → Prop :=
  | performs_signature_of k m imported types i f signature e :
      view k m imported types → declared (module_program m) i f →
      _signature_effects (module_program m) imported recursion_limit f = Done signature → e ∈ signature →
      graph_performs k (function_name f) e
  | performs_own k m imported types i f e :
      view k m imported types → declared (module_program m) i f →
      contributes (module_program m) imported types i f (Effect e) → graph_performs k (function_name f) e
  | performs_inside k m imported types i f g e :
      view k m imported types → declared (module_program m) i f →
      contributes (module_program m) imported types i f (LocalCall g) →
      graph_performs k g e → graph_performs k (function_name f) e
  | performs_across k m imported types i f alias g j e :
      view k m imported types → declared (module_program m) i f →
      contributes (module_program m) imported types i f (ImportedCall alias g) → assoc alias (module_imports m) = Some j →
      graph_performs j g e → graph_performs k (function_name f) e
  | performs_unknown k m imported types i f alias g j m' :
      view k m imported types → declared (module_program m) i f →
      contributes (module_program m) imported types i f (ImportedCall alias g) → assoc alias (module_imports m) = Some j →
      assoc j (graph_modules graph) = Some m' → g ∉ function_name <$> declarations (module_program m') →
      graph_performs k (function_name f) (unknown_import alias g).

(** What the loop establishes for one module, after the modules of [before]. *)
Record checked_entry (before : list (ustring * EffectReport)) (k : ustring) (m : SourceModule) (report : EffectReport) : Prop := {
  checked_view : ∃ imported typed, imported_modules graph m = Done imported ∧
    check_typed_hir pass (module_program m) imported = Done typed ∧
    infer_effect_contracts (module_program m) imported (typed_expressions pass typed) (imported_effects_of before m) recursion_limit =
      Done report;
  checked_names : NoDup (function_name <$> declarations (module_program m));
  checked_pure : ∀ f s, f ∈ declarations (module_program m) → is_pure f = true → report !! function_name f = Some s → effects s = [];
}.

Lemma at_module_done {E A} (wrap : E → check_error) (r : outcome E A) a : at_module wrap r = Done a → r = Done a.
Proof. destruct r; [by intros [= ->]|done..]. Qed.

Lemma integrity_names p : check_program_integrity p = Done () → NoDup (function_name <$> declarations p).
Proof.
  intros ([] & H & _)%bind_done. pose proof (validate_spec p) as Hv. rewrite H in Hv. destruct Hv as [Hnd _].
  unfold function_names in Hnd. by rewrite <- list_fmap_compose in Hnd.
Qed.

Lemma check_module_done st k m st' : check_module pass recursion_limit graph st (k, m) = Done st' →
  ∃ report, effect_reports st' = effect_reports st ++ [(k, report)] ∧ checked_entry (effect_reports st) k m report.
Proof.
  unfold check_module. intros (imported & Ei%at_module_done & H)%bind_done.
  apply bind_done in H as ([] & Hint%at_module_done%integrity_names & H). apply bind_done in H as (native & _ & H).
  apply bind_done in H as (typed & Et%at_module_done & H). apply bind_done in H as ([] & _ & H). apply bind_done in H as ([] & _ & H).
  apply bind_done in H as (report & Er%at_module_done & H). apply bind_done in H as (result & _ & H).
  apply bind_done in H as (native_reports & _ & [= <-]). exists report. split; [done|].
  apply check_effects_done in Er as [Er Hpure]; [|done]. split; [by exists imported, typed|done|done].
Qed.

(** The reports of a list of modules: each after the reports before it. *)
Definition reports_ok (entries : list (ustring * SourceModule)) (reports : list (ustring * EffectReport)) : Prop :=
  reports.*1 = entries.*1 ∧
  ∀ n k m, entries !! n = Some (k, m) → ∃ report, reports !! n = Some (k, report) ∧ checked_entry (take n reports) k m report.

Lemma check_modules_done entries st : 
  outcome_fold (check_module pass recursion_limit graph) (mk_check_state [] [] [] None) entries = Done st →
  reports_ok entries (effect_reports st).
Proof.
  apply (outcome_fold_ind _ (λ done st, reports_ok done (effect_reports st))); [by split|].
  intros l1 [k m] l2 st1 st2 _ [H1 H2] (report & E & Hentry)%check_module_done. rewrite E. split.
  - by rewrite !fmap_app, H1.
  - assert (length (effect_reports st1) = length l1) as Hlen by (rewrite <- (length_fmap fst), H1; apply length_fmap).
    intros n k' m' Hn. destruct (decide (n = length l1)) as [->|Hne].
    + rewrite list_lookup_middle in Hn by done. injection Hn as <- <-. exists report. rewrite <- Hlen, take_app_length.
      split; [by apply list_lookup_middle|done].
    + assert (n < length l1)%nat as Hlt by (apply lookup_lt_Some in Hn; rewrite length_app in Hn; cbn in Hn; lia).
      rewrite lookup_app_l in Hn by done. destruct (H2 n k' m' Hn) as (r & Hr & Hc). exists r.
      rewrite lookup_app_l, take_app_le by lia. done.
Qed.

(** ** Imports by alias *)

Lemma assoc_cons {A} (k k' : ustring) (a : A) l : assoc k ((k', a) :: l) = if decide (k' = k) then Some a else assoc k l.
Proof.
  unfold assoc. cbn [List.find fst]. destruct (decide (k' = k)); [by rewrite bool_decide_eq_true_2|by rewrite bool_decide_eq_false_2].
Qed.

Lemma imported_effects_lookup reports m alias j : NoDup (module_imports m).*1 → assoc alias (module_imports m) = Some j →
  assoc alias (imported_effects_of reports m) = assoc j reports.
Proof.
  unfold imported_effects_of. generalize (module_imports m) as l. induction l as [|[a j0] l IH]; [done|].
  rewrite fmap_cons, assoc_cons. cbn [fst]. intros [Ha Hnd]%NoDup_cons. cbn [omap list_omap fst snd].
  destruct (decide (a = alias)) as [->|Hne].
  - intros [= ->]. destruct (assoc j reports) as [report|]; cbn [fmap option_fmap option_map]; [rewrite assoc_cons; by case_decide|].
    match goal with |- ?x = _ => destruct x as [r|] eqn:E; [|done] end. apply assoc_Some, list_elem_of_omap in E as ([a' j'] & Hin & Er). cbn in Er.
    destruct (assoc j' reports); [|done]. injection Er as -> _. by apply (list_elem_of_fmap_2 fst) in Hin.
  - intros Hj. specialize (IH Hnd Hj). destruct (assoc j0 reports) as [report|]; cbn [fmap option_fmap option_map]; [|done].
    rewrite assoc_cons. by case_decide.
Qed.

Lemma imported_module m imported alias : imported_modules graph m = Done imported → alias ∈ imported.*1 →
  ∃ j m', assoc alias (module_imports m) = Some j ∧ assoc j (graph_modules graph) = Some m'.
Proof.
  unfold imported_modules. revert imported. generalize (module_imports m) as l.
  induction l as [|[a j] l IH]; intros imported; cbn [outcome_map]; [intros [= <-]; by intros ?%elem_of_nil|].
  intros (x & (target & Ht & [= <-])%bind_done & (l' & Hl & [= <-])%bind_done)%bind_done. rewrite fmap_cons, assoc_cons. cbn [fst snd] in *.
  intros Hin. destruct (decide (a = alias)) as [->|Hne].
  - exists j. unfold module_of in Ht. destruct (assoc j (graph_modules graph)) as [m'|]; [|done]. by exists m'.
  - apply (IH l'); [done|]. by apply elem_of_cons in Hin as [->|?].
Qed.

Lemma contributes_imported program imported types i f alias g :
  contributes program imported types i f (ImportedCall alias g) → alias ∈ imported.*1.
Proof.
  intros (p & callee & arguments & l & _ & E). unfold call_contribution, builtin_call, method_call in E.
  destruct callee; repeat case_match; try done; by case_bool_decide; simplify_eq.
Qed.

(** ** The reports of a whole graph *)

Section reports.
Context (entries : list (ustring * SourceModule)) (reports : list (ustring * EffectReport)).
Context (Hreports : reports_ok entries reports) (Hnodup : NoDup entries.*1).
Context (Hmodules : ∀ entry, entry ∈ entries → assoc entry.1 (graph_modules graph) = Some entry.2).
Context (Himports : ∀ entry, entry ∈ entries → NoDup (module_imports entry.2).*1).
Context (Hclosed : ∀ entry j, entry ∈ entries → j ∈ (module_imports entry.2).*2 → j ∈ entries.*1).

Lemma reports_nodup : NoDup reports.*1.
Proof. by rewrite (proj1 Hreports). Qed.

Lemma report_of_key n k report : reports !! n = Some (k, report) → assoc k reports = Some report.
Proof. intros H. apply assoc_elem; [apply reports_nodup|]. by eapply list_elem_of_lookup_2. Qed.

Lemma report_before n j report : assoc j (take n reports) = Some report → assoc j reports = Some report.
Proof. intros H%assoc_Some. apply assoc_elem; [apply reports_nodup|]. by eapply elem_of_take in H as (i & Hi & _); eapply list_elem_of_lookup_2. Qed.

(** The report of a module describes its functions. *)
Lemma entry_report n k m : entries !! n = Some (k, m) → ∃ report imported types,
  reports !! n = Some (k, report) ∧ view k m imported types ∧
  (∀ g, g ∈ dom report ↔ g ∈ function_name <$> declarations (module_program m)) ∧
  (∀ f s e, report !! f = Some s → e ∈ effects s ↔
    performs (module_program m) imported types (imported_effects_of (take n reports) m) recursion_limit f e).
Proof.
  intros Hn. destruct (proj2 Hreports n k m Hn) as (report & Hr & [(imported & typed & Ei & Et & Er) Hnames _]).
  pose proof (infer_spec (module_program m) imported (typed_expressions pass typed) (imported_effects_of (take n reports) m) recursion_limit Hnames) as H.
  rewrite Er in H. destruct H as [Hdom He]. exists report, imported, (typed_expressions pass typed). split; [done|]. split; [|split; [exact Hdom|intros f s e Hs; by apply He]].
  split; [apply (Hmodules (k, m)); by eapply list_elem_of_lookup_2|done|by exists typed].
Qed.

Lemma view_unique k m imported types m' imported' types' :
  view k m imported types → view k m' imported' types' → m = m' ∧ imported = imported' ∧ types = types'.
Proof.
  intros [A1 A2 (t1 & A3 & ->)] [B1 B2 (t2 & B3 & ->)]. assert (m = m') as <- by congruence. assert (imported = imported') as <- by congruence.
  split; [done|]. split; [done|]. congruence.
Qed.

(** Every module after the modules it imports. *)
Definition ordered : Prop :=
  ∀ n k m j, entries !! n = Some (k, m) → j ∈ (module_imports m).*2 → j ∈ (take n entries).*1.

Lemma key_position k : k ∈ entries.*1 → ∃ n m, entries !! n = Some (k, m).
Proof. intros ([k' m] & -> & (n & Hn)%list_elem_of_lookup)%list_elem_of_fmap. by exists n, m. Qed.

(** A function that performs an effect is reported with an effect: with this one
if the order is strict, else perhaps with an unknown import. *)
Lemma graph_performs_reported k f e : graph_performs k f e → k ∈ entries.*1 →
  ∃ report s e', assoc k reports = Some report ∧ report !! f = Some s ∧ e' ∈ effects s ∧ (ordered → e' = e).
Proof.
  assert (∀ k m imported types i f, k ∈ entries.*1 → view k m imported types → declared (module_program m) i f →
    ∃ n report s, entries !! n = Some (k, m) ∧ assoc k reports = Some report ∧ report !! function_name f = Some s ∧
      ∀ e, performs (module_program m) imported types (imported_effects_of (take n reports) m) recursion_limit (function_name f) e → e ∈ effects s) as Hview.
  { intros k0 m imported types i f0 Hk Hv Hi. destruct (key_position k0 Hk) as (n & m' & Hn).
    destruct (entry_report n k0 m' Hn) as (report & imported' & types' & Hr & Hv' & Hdom & He).
    destruct (view_unique _ _ _ _ _ _ _ Hv Hv') as (<- & <- & <-). exists n, report.
    assert (function_name f0 ∈ dom report) as (s & Hs)%elem_of_dom by (apply Hdom, list_elem_of_fmap_2; by eapply list_elem_of_lookup_2).
    exists s. split; [done|]. split; [by eapply report_of_key|]. split; [done|]. intros e0. by apply (He _ s). }
  assert (∀ n k m alias j g e, entries !! n = Some (k, m) → assoc alias (module_imports m) = Some j →
    (∀ report s, assoc j reports = Some report → report !! g = Some s → ∃ e', e' ∈ effects s ∧ (ordered → e' = e)) →
    (∀ report, assoc j reports = Some report → report !! g = None → e = unknown_import alias g) → 
    ∃ e', e' ∈ imported_summary (imported_effects_of (take n reports) m) (alias, g) ∧ (ordered → e' = e)) as Hsummary.
  { intros n k0 m alias j g e0 Hn Hj Hsome Hnone. unfold imported_summary. cbn [fst snd].
    assert ((k0, m) ∈ entries) as Hin by by eapply list_elem_of_lookup_2.
    rewrite (imported_effects_lookup _ _ _ j) by (done || by apply (Himports (k0, m))).
    destruct (assoc j (take n reports)) as [report|] eqn:Er; cbn [mbind option_bind].
    - apply report_before in Er. destruct (report !! g) as [s|] eqn:Eg.
      + destruct (Hsome report s Er Eg) as (e' & He' & Hs). exists e'. split; [by apply elem_of_list_to_set|done].
      + exists (unknown_import alias g). split; [by apply elem_of_singleton|]. intros _. by rewrite (Hnone report Er Eg).
    - exists (unknown_import alias g). split; [by apply elem_of_singleton|]. intros Hord. exfalso.
      specialize (Hord n k0 m j Hn ltac:(by apply assoc_Some, (list_elem_of_fmap_2 snd) in Hj)).
      apply assoc_None in Er. apply Er. by rewrite fmap_take, (proj1 Hreports), <- fmap_take. }
  induction 1 as [k m imported types i f signature e Hv Hi Hs He|k m imported types i f e Hv Hi Hc|k m imported types i f g e Hv Hi Hc _ IH|
    k m imported types i f alias g j e Hv Hi Hc Hj _ IH|k m imported types i f alias g j m' Hv Hi Hc Hj Hm' Hg]; intros Hk;
    destruct (Hview k m imported types i f Hk Hv Hi) as (n & report & s & Hn & Hr & Hs' & Hperf); exists report, s.
  - exists e. split_and!; try done. apply Hperf. by eapply performs_signature.
  - exists e. split_and!; try done. apply Hperf. by eapply performs_call.
  - destruct (IH Hk) as (report' & s' & e' & Hr' & Hg' & He' & Hord). rewrite Hr in Hr'. injection Hr' as <-.
    exists e'. split_and!; try done. apply Hperf. eapply performs_local; [done..|].
    destruct (entry_report n k m Hn) as (report' & imported' & types' & Hr' & Hv' & _ & He).
    destruct (view_unique _ _ _ _ _ _ _ Hv Hv') as (_ & <- & <-). apply report_of_key in Hr'. assert (report = report') as <- by congruence.
    by apply (He g s').
  - assert (j ∈ entries.*1) as Hjin.
    { apply (Hclosed (k, m)); [by eapply list_elem_of_lookup_2|]. by apply assoc_Some, (list_elem_of_fmap_2 snd) in Hj. }
    destruct (IH Hjin) as (report' & s' & e' & Hr' & Hg' & He' & Hord).
    destruct (Hsummary n k m alias j g e Hn Hj) as (e2 & He2 & Hord2).
    + intros r0 s0 Hr0 Hs0. assert (r0 = report') as -> by congruence. assert (s0 = s') as -> by congruence. by exists e'.
    + intros r0 Hr0 Hs0. congruence.
    + exists e2. split_and!; try done. apply Hperf. by eapply performs_import.
  - destruct (Hsummary n k m alias j g (unknown_import alias g) Hn Hj) as (e2 & He2 & Hord2).
    + intros r0 s0 Hr0 Hs0. exfalso. assert (j ∈ entries.*1) as (n' & m2 & Hn')%key_position.
      { apply (Hclosed (k, m)); [by eapply list_elem_of_lookup_2|]. by apply assoc_Some, (list_elem_of_fmap_2 snd) in Hj. }
      destruct (entry_report n' j m2 Hn') as (r1 & imported1 & types1 & Hr1%report_of_key & [Hm2 _ _] & Hdom & _).
      assert (r0 = r1) as -> by congruence. assert (m2 = m') as -> by congruence. apply Hg, Hdom, elem_of_dom. by exists s0.
    + done.
    + exists e2. split_and!; try done. apply Hperf. by eapply performs_import.
Qed.

(** With strictly ordered modules nothing else is reported. *)
Lemma reported_performs : ordered → ∀ n k m report f s e,
  entries !! n = Some (k, m) → reports !! n = Some (k, report) → report !! f = Some s → e ∈ effects s → graph_performs k f e.
Proof.
  intros Hord n. induction n as [n IHn] using lt_wf_ind. intros k m report f s e Hn Hr Hs He.
  destruct (entry_report n k m Hn) as (report' & imported & types & Hr' & Hv & _ & Hperf).
  assert (report = report') as <- by congruence. apply (Hperf f s e Hs) in He. clear Hs s.
  induction He as [i f signature e Hi Hsig He|i f e Hi Hc|i f alias g e Hi Hc He|i f g e Hi Hc _ IH].
  - by eapply performs_signature_of.
  - by eapply performs_own.
  - destruct Hv as [Hm Himp Ht] eqn:Ev. pose proof Hv as Hv'.
    destruct (imported_module m imported alias Himp (contributes_imported _ _ _ _ _ _ _ Hc)) as (j & m' & Hj & Hm').
    assert ((k, m) ∈ entries) as Hin by by eapply list_elem_of_lookup_2.
    assert (j ∈ (module_imports m).*2) as Hj2 by by apply assoc_Some, (list_elem_of_fmap_2 snd) in Hj.
    unfold imported_summary in He. cbn [fst snd] in He. rewrite (imported_effects_lookup _ _ _ j) in He by (done || by apply (Himports (k, m))).
    specialize (Hord n k m j Hn Hj2). apply list_elem_of_fmap in Hord as ([j' m2] & Ej & (n' & Hn' & Hlt)%elem_of_take). cbn in Ej. subst j'.
    destruct (entry_report n' j m2 Hn') as (report2 & imported2 & types2 & Hr2 & [Hm2 _ _] & Hdom2 & _).
    assert (m2 = m') as -> by congruence.
    assert (assoc j (take n reports) = Some report2) as Ej.
    { apply assoc_elem; [rewrite fmap_take; apply (sublist_NoDup _ reports.*1); [apply reports_nodup|apply sublist_take]|].
      apply elem_of_take. exists n'. split; [done|]. done. }
    rewrite Ej in He. cbn [mbind option_bind] in He. destruct (report2 !! g) as [s|] eqn:Eg.
    + eapply performs_across; [exact Hv'|done..|]. apply (IHn n' Hlt j m' report2 g s e); [done..|]. by apply elem_of_list_to_set in He.
    + apply elem_of_singleton in He as ->. eapply performs_unknown; [exact Hv'|done..|].
      intros Hg. apply Hdom2 in Hg. apply elem_of_dom in Hg as [? ?]. congruence.
  - by eapply performs_inside.
Qed.
End reports.
End checked.

(** The keys that the root reaches through the imports of the graph. *)
Definition in_graph (graph : ModuleGraph) : ustring → Prop :=
  import_reach (λ m, (module_imports m).*2) (graph_modules graph) (graph_root graph).

(** The import dictionaries of the modules have distinct names. *)
Definition imports_distinct (graph : ModuleGraph) : Prop :=
  ∀ k m, assoc k (graph_modules graph) = Some m → NoDup (module_imports m).*1.

Lemma check_graph_entries {Report Semantic Sigils NativeMir Mir} (pass : passes Report Semantic Sigils NativeMir Mir) limit graph
    semantic mir natives : check_graph pass limit graph = Done (semantic, mir, natives) →
  ∃ entries types reports, entries_in_order graph = Done entries ∧ reports_ok pass limit graph entries reports ∧
    lower_mir_graph pass graph types reports natives = Done mir.
Proof.
  intros (entries & He%at_module_done & H)%bind_done. apply bind_done in H as (st & Hst & H).
  destruct (semantic_report st) as [report|]; [|done]. apply bind_done in H as (mir' & Hmir & [= <- <- <-]).
  exists entries, (typed_reports st), (effect_reports st). split; [done|]. split; [by apply check_modules_done|done].
Qed.

Lemma entries_facts graph entries : imports_distinct graph → entries_in_order graph = Done entries →
  NoDup entries.*1 ∧ (∀ k, k ∈ entries.*1 ↔ in_graph graph k) ∧
  (∀ entry, entry ∈ entries → assoc entry.1 (graph_modules graph) = Some entry.2) ∧
  (∀ entry, entry ∈ entries → NoDup (module_imports entry.2).*1) ∧
  (∀ entry j, entry ∈ entries → j ∈ (module_imports entry.2).*2 → j ∈ entries.*1) ∧
  (∀ l1 m l2 j, entries = l1 ++ m :: l2 → j ∈ (module_imports m.2).*2 →
    j ∈ l1.*1 ∨ import_reach (λ m, (module_imports m).*2) (graph_modules graph) j m.1).
Proof.
  intros Hd He. pose proof (dependency_order_ok (λ m, (module_imports m).*2) (graph_modules graph) ModuleKeyError (graph_root graph)) as H.
  unfold entries_in_order in He. rewrite He in H. destruct H as (H1 & H2 & H3 & H4). split_and!; try done.
  - intros entry Hin. by apply (Hd entry.1), H3.
  - intros entry j Hin Hj. apply H2. eapply reach_step; [apply H2; by apply list_elem_of_fmap_2|by apply H3|done].
Qed.

(** C13: Purity holds across the whole program.  If a graph is checked, no function
declared [pure] in a module that the root reaches performs an effect: none of its
own, none of the local functions it calls, none of the functions of other modules
that these call, import cycles included. *)
Theorem checked_graph_pure {Report Semantic Sigils NativeMir Mir} (pass : passes Report Semantic Sigils NativeMir Mir) limit graph r :
  imports_distinct graph → check_graph pass limit graph = Done r →
  ∀ k m f, in_graph graph k → assoc k (graph_modules graph) = Some m → f ∈ declarations (module_program m) → is_pure f = true →
    ∀ e, ¬ graph_performs pass limit graph k (function_name f) e.
Proof.
  destruct r as [[semantic mir] natives]. intros Hd (entries & types & reports & He & Hok & _)%check_graph_entries k m f Hk Hm Hf Hp e Hperf.
  destruct (entries_facts graph entries Hd He) as (H1 & H2 & H3 & H4 & H5 & _). apply H2 in Hk.
  destruct (graph_performs_reported pass limit graph entries reports Hok H1 H3 H4 H5 _ _ _ Hperf Hk) as (report & s & e' & Hr & Hs & He' & _).
  destruct (key_position entries k Hk) as (n & m' & Hn). assert (m' = m) as ->.
  { pose proof (H3 (k, m') ltac:(by eapply list_elem_of_lookup_2)) as Hm'. cbn in Hm'. congruence. }
  destruct (proj2 Hok n k m Hn) as (report' & Hr' & [_ _ Hpure]). apply (report_of_key _ _ _ _ _ Hok H1) in Hr'.
  assert (report = report') as <- by congruence. rewrite (Hpure f s Hf Hp Hs) in He'. by apply elem_of_nil in He'.
Qed.

(** C19: The lowering is handed the effects of the whole program.  If a graph
without import cycles is checked, the effect reports that the lowering receives
cover exactly the modules the root reaches, and give each function exactly the
effects that it performs through local and imported calls. *)
Theorem lowering_gets_effects {Report Semantic Sigils NativeMir Mir} (pass : passes Report Semantic Sigils NativeMir Mir) limit graph
    semantic mir natives :
  imports_distinct graph →
  (∀ k m j, in_graph graph k → assoc k (graph_modules graph) = Some m → j ∈ (module_imports m).*2 →
    ¬ import_reach (λ m, (module_imports m).*2) (graph_modules graph) j k) →
  check_graph pass limit graph = Done (semantic, mir, natives) →
  ∃ types reports, lower_mir_graph pass graph types reports natives = Done mir ∧
    (∀ k, k ∈ reports.*1 ↔ in_graph graph k) ∧
    ∀ k report, (k, report) ∈ reports → ∀ f e,
      (∃ s, report !! f = Some s ∧ e ∈ effects s) ↔ graph_performs pass limit graph k f e.
Proof.
  intros Hd Hacyclic (entries & types & reports & He & Hok & Hmir)%check_graph_entries.
  destruct (entries_facts graph entries Hd He) as (H1 & H2 & H3 & H4 & H5 & H6).
  assert (ordered entries) as Hord.
  { intros n k m j Hn Hj. pose proof (list_elem_of_lookup_2 _ _ _ Hn) as Hin.
    destruct (H6 (take n entries) (k, m) (drop (S n) entries) j) as [?|Hr]; [by rewrite take_drop_middle|done|done|].
    exfalso. apply (Hacyclic k m j); [by apply H2; apply (list_elem_of_fmap_2 fst) in Hin|by apply (H3 (k, m))|done|done]. }
  exists types, reports. split; [done|]. split; [intros k; by rewrite (proj1 Hok)|].
  intros k report (n & Hr)%list_elem_of_lookup f e.
  assert (k ∈ entries.*1) as Hk by (rewrite <- (proj1 Hok); apply list_elem_of_lookup_2 in Hr; by apply (list_elem_of_fmap_2 fst) in Hr).
  assert (∃ m, entries !! n = Some (k, m)) as [m Hn].
  { assert (reports.*1 !! n = Some k) as Hk' by by rewrite list_lookup_fmap, Hr. rewrite (proj1 Hok), list_lookup_fmap in Hk'.
    destruct (entries !! n) as [[k' m]|]; [|done]. injection Hk' as ->. by exists m. }
  split.
  - intros (s & Hs & Hin). by eapply (reported_performs pass limit graph entries reports).
  - intros Hp. destruct (graph_performs_reported pass limit graph entries reports Hok H1 H3 H4 H5 _ _ _ Hp Hk) as (report' & s & e' & Hr' & Hs & He' & Heq).
    apply (report_of_key _ _ _ _ _ Hok H1) in Hr. assert (report' = report) as -> by congruence. specialize (Heq Hord) as ->. by exists s.
Qed.

(** * A project of two modules *)

(** Passes that accept everything and lower to nothing. *)
Definition lenient_passes : passes TypedExpressions () () () () :=
  mk_passes _ _ _ _ _ (λ _ _, Done []) (λ types, types) (λ _, Done ()) (λ _ _ _, Done ()) (λ _ _, Done ()) (λ _ _ _ _, Done ()).

Definition call_imported (alias name : ustring) : Statement :=
  ExpressionStatement (CallExpression (MemberExpression (Identifier alias origin) name origin) [] origin) origin.

(** [util] has [shout], which prints, and the pure [silent]; [run] of [main] calls
[shout] and the pure [quiet] of [main] calls [silent]. *)
Definition util_module : SourceModule :=
  mk_module (u "util") (u "/util.ks")
    (mk_program [function_calling (u "shout") false [call_statement (u "print") []]; function_calling (u "silent") true []] [] [] [] []) [].
Definition main_module : SourceModule :=
  mk_module (u "main") (u "/main.ks")
    (mk_program [function_calling (u "run") false [call_imported (u "util") (u "shout")];
                 function_calling (u "quiet") true [call_imported (u "util") (u "silent")]] [] [mk_import (u "util") origin] [] [])
    [(u "util", u "/util.ks")].
Definition two_modules : ModuleGraph := mk_module_graph (u "/main.ks") [(u "/util.ks", util_module); (u "/main.ks", main_module)].

Lemma two_modules_assoc k m : assoc k (graph_modules two_modules) = Some m →
  (k = u "/util.ks" ∧ m = util_module) ∨ (k = u "/main.ks" ∧ m = main_module).
Proof.
  intros H%assoc_Some. apply elem_of_cons in H as [[= -> ->]|H]; [by left|].
  apply list_elem_of_singleton in H as [= -> ->]. by right.
Qed.

Lemma two_modules_distinct : imports_distinct two_modules.
Proof. intros k m [[_ ->]|[_ ->]]%two_modules_assoc; [constructor|apply NoDup_singleton]. Qed.

Lemma checked_graph_pure_witness :
  check_graph lenient_passes 100 two_modules = Done ((), (), []) ∧
  ∀ e, ¬ graph_performs lenient_passes 100 two_modules (u "/main.ks") (u "quiet") e.
Proof.
  assert (check_graph lenient_passes 100 two_modules = Done ((), (), [])) as H by (vm_compute; reflexivity).
  split; [exact H|].
  apply (checked_graph_pure lenient_passes 100 two_modules _ two_modules_distinct H (u "/main.ks") main_module
    (function_calling (u "quiet") true [call_imported (u "util") (u "silent")])).
  - constructor.
  - reflexivity.
  - right. left.
  - reflexivity.
Defined.

Lemma lowering_gets_effects_witness :
  ∃ reports : list (ustring * EffectReport), u "/main.ks" ∈ reports.*1 ∧
    ∀ k report, (k, report) ∈ reports → ∀ f e,
      (∃ s, report !! f = Some s ∧ e ∈ effects s) ↔ graph_performs lenient_passes 100 two_modules k f e.
Proof.
  destruct (lowering_gets_effects lenient_passes 100 two_modules () () [] two_modules_distinct) as (types & reports & _ & Hkeys & H).
  - intros k m j _ [[-> ->]|[-> ->]]%two_modules_assoc Hj; [by apply elem_of_nil in Hj|].
    apply list_elem_of_singleton in Hj as ->. intros Hr.
    assert (∀ j, import_reach (λ m, (module_imports m).*2) (graph_modules two_modules) (u "/util.ks") j → j = u "/util.ks") as Hall.
    { induction 1 as [|k2 k3 m _ IH Hm Hin]; [done|]. subst k2. injection Hm as <-. by apply elem_of_nil in Hin. }
    discriminate (Hall _ Hr).
  - vm_compute. reflexivity.
  - exists reports. split; [apply Hkeys; constructor|exact H].
Defined.

(** The files [/main.ks] with [import util], and [/util.ks]. *)
Definition two_files (path : ustring) : file :=
  if bool_decide (path = u "/main.ks") then Contents (u "import util" ++ [NEWLINE])
  else if bool_decide (path = u "/util.ks") then Contents [] else NoFile.

Definition load_two : load_result ModuleGraph := load_graph (H := ascii_only) (λ path, path) two_files None None 3 (u "/main.ks").

Lemma load_graph_exact_witness :
  match load_two with
  | Done g => (graph_modules g).*1 = [u "/util.ks"; u "/main.ks"] ∧
      ¬ tc (refers (H := ascii_only) (λ path, path) two_files None None) (u "/main.ks") (u "/main.ks")
  | _ => False
  end.
Proof.
  pose proof (load_graph_exact (H := ascii_only) (λ path, path) two_files None None {[u "/main.ks"; u "/util.ks"]} 3 (u "/main.ks")) as H.
  fold load_two in H. assert ((graph_modules <$> match load_two with Done g => Some g | _ => None end) ≠ None) as Hd by (vm_compute; discriminate).
  assert (match load_two with Done g => (graph_modules g).*1 | _ => [] end = [u "/util.ks"; u "/main.ks"]) as Ek by (vm_compute; reflexivity).
  destruct load_two as [g|e|]; [|contradiction Hd; reflexivity..]. split; [exact Ek|].
  destruct H as (_ & _ & _ & Hc & _).
  - intros k. unfold source_text, two_files. do 2 (case_bool_decide; [set_solver|]). by intros [].
  - vm_compute. lia.
  - apply Hc. apply rtc_refl.
Defined.

(** Two modules that import each other are refused. *)
Example cycle_refused :
  load_graph (H := ascii_only) (λ path, path)
    (λ path, if bool_decide (path = u "/a.ks") then Contents (u "import b") else if bool_decide (path = u "/b.ks") then Contents (u "import a") else NoFile)
    None None 5 (u "/a.ks") = Raise (ModuleError 1602 (mk_location 1 1)).
Proof. vm_compute. reflexivity. Qed.
