(* ===== verification/MirGraph.v ===== *)
(** The sealed module graph of [src/koschei/mir.py]: functions, modules and the
graph, the dependency order, the static resource summary and [assert_sealed];
and the scope gate of [src/koschei/mir_scope_safety.py].

[imports] and [modules] are the insertion-ordered dictionaries of the source.
The native-sigil report of a module and the SHA-256 fingerprint are parameters
of [assert_sealed]. *)

From S2P Require Import Prelude TypeSystem Lexer Ast Capability Mir MirProof Order.

(** * Data *)

Record MirResources := mk_resources {
  basic_blocks : Z;
  instruction_count : Z;
  ast_fallbacks : Z;
  backward_edges : Z;
  self_recursive : bool;
}.

#[export] Instance MirResources_eq_dec : EqDecision MirResources.
Proof. solve_decision. Defined.

Record MirParameter := mk_mir_parameter {
  mir_parameter_name : ustring;
  mir_parameter_type : TypeNode;
}.

Record MirFunction := mk_mir_function {
  mir_function_name : ustring;
  mir_parameters : list MirParameter;
  mir_return_type : TypeNode;
  calls : list ustring;
  effects : list ustring;
  resources : MirResources;
  declaration : FunctionDeclaration;
  blocks : list MirBasicBlock;
}.

Record MirModule := mk_mir_module {
  key : ustring;
  module_name : ustring;
  program : NativeProgram;
  module_imports : list (ustring * ustring);
  functions : list MirFunction;
}.

Record MirGraph := mk_mir_graph {
  root : ustring;
  modules : list (ustring * MirModule);
  fingerprint : ustring;
  version : Z;
}.

Inductive graph_error :=
  | KeyError (key : ustring)
  | ModuleIdentity (module_key graph_key : ustring)
  | SigilContract (module : ustring)
  | InvalidBlocks (e : mir_error)
  | ResourceMismatch (module function : ustring)
  | UnknownEffects (effects : list ustring)
  | SealMismatch.

Abbreviation graph_result A := (outcome graph_error A).

(** [self.modules[key]]. *)
Definition module_of (mir : MirGraph) (k : ustring) : graph_result MirModule :=
  match assoc k (modules mir) with Some m => Done m | None => Raise (KeyError k) end.

Definition root_module (mir : MirGraph) : graph_result MirModule := module_of mir (root mir).

(** * Dependency order *)

Definition in_dependency_order (mir : MirGraph) : graph_result (list MirModule) :=
  entries ← dependency_order (λ m, (module_imports m).*2) (modules mir) KeyError (root mir);
  Done entries.*2.

(** * Static resources *)

Definition count_fallback (i : MirInstruction) : Z :=
  match i with MirAstFallback _ _ _ _ => 1 | _ => 0 end.

Definition sum_Z (l : list Z) : Z := foldr Z.add 0 l.

Definition block_backward_edges (b : MirBasicBlock) : Z :=
  match terminator b with
  | MirJump target => if target <=? id b then 1 else 0
  | MirBranch _ then_block else_block =>
      (if then_block <=? id b then 1 else 0) + (if else_block <=? id b then 1 else 0)
  | MirReturn _ | MirUnreachable _ => 0
  end.

Definition _resource_contract (name : ustring) (calls : list ustring) (blocks : list MirBasicBlock)
    : MirResources :=
  {| basic_blocks := Z.of_nat (length blocks);
     instruction_count := sum_Z ((λ b, Z.of_nat (length (instructions b))) <$> blocks);
     ast_fallbacks := sum_Z ((λ b, sum_Z (count_fallback <$> instructions b)) <$> blocks);
     backward_edges := sum_Z (block_backward_edges <$> blocks);
     self_recursive := bool_decide (name ∈ calls) |}.

(** [_canonical_mir_effects] of a function's checked effects. *)
Definition _canonical_mir_effects (effects : list ustring) : list ustring :=
  filter (λ effect, effect ∈ CANONICAL_CAPABILITY_EFFECTS) effects.

(** * The seal *)

Section seal.
(** [_assert_native_sigil_contract] accepts the module. *)
Context (native_sigil_contract : MirModule → bool).
(** [_fingerprint]: SHA-256 of the canonical JSON of the graph. *)
Context (_fingerprint : ustring → list (ustring * MirModule) → ustring).

Definition seal_function (module : MirModule) (_ : ()) (f : MirFunction) : graph_result () :=
  _ ← match validate_blocks (blocks f) with
      | Done _ => Done ()
      | Raise e => Raise (InvalidBlocks e)
      | NoFuel => NoFuel
      end;
  if negb (bool_decide (resources f = _resource_contract (mir_function_name f) (calls f) (blocks f)))
  then Raise (ResourceMismatch (module_name module) (mir_function_name f))
  else
    let unknown_effects := filter (λ effect, effect ∉ CANONICAL_CAPABILITY_EFFECTS) (effects f) in
    if bool_decide (unknown_effects ≠ []) then Raise (UnknownEffects unknown_effects) else Done ().

Definition seal_module (_ : ()) (entry : ustring * MirModule) : graph_result () :=
  let '(k, module) := entry in
  if negb (bool_decide (key module = k)) then Raise (ModuleIdentity (key module) k)
  else if negb (native_sigil_contract module) then Raise (SigilContract (module_name module))
  else outcome_fold (seal_function module) () (functions module).

Definition assert_sealed (mir : MirGraph) : graph_result () :=
  _ ← outcome_fold seal_module () (modules mir);
  (** [_fingerprint] reads [modules[root].name]. *)
  _ ← root_module mir;
  if bool_decide (_fingerprint (root mir) (modules mir) ≠ fingerprint mir) then Raise SealMismatch else Done ().
End seal.

(** * The scope gate *)

Definition _COMPILER_INTERNAL_PREFIX : ustring := u "$mir_".

Definition _is_compiler_internal_binding (name : ustring) : bool := starts_with _COMPILER_INTERNAL_PREFIX name.

(** The names so far and the repeated or shadowed bindings, newest first. *)
Definition scope_step (st : list ustring * list ustring) (i : MirInstruction) : list ustring * list ustring :=
  let '(names, reasons) := st in
  match i with
  | MirBind name _ _ _ _ =>
      if bool_decide (name ∈ names) then
        if _is_compiler_internal_binding name then st else (names, name :: reasons)
      else (name :: names, reasons)
  | _ => st
  end.

Definition function_scope_reasons (f : MirFunction) : list ustring :=
  rev (foldl scope_step (mir_parameter_name <$> mir_parameters f, [])
    (concat (instructions <$> blocks f))).2.

(** The reasons: the function and the name that its scope repeats; [seal] is
[mir.assert_sealed()]. *)
Definition inspect_mir_scope_safety (seal : graph_result ()) (mir : MirGraph) : graph_result (list (ustring * ustring)) :=
  _ ← seal;
  module ← root_module mir;
  Done (dict_fromkeys (concat ((λ f, pair (mir_function_name f) <$> function_scope_reasons f) <$> functions module))).

(** * Correctness of the dependency order *)

(** Module [k2] can be reached from [k1] through imports. *)
Definition import_reach (mir : MirGraph) : ustring → ustring → Prop :=
  Order.import_reach (λ m, (module_imports m).*2) (modules mir).

(** The graph's keys are the keys of its modules, as [assert_sealed] checks. *)
Definition keys_ok (mir : MirGraph) : Prop := ∀ k m, assoc k (modules mir) = Some m → key m = k.

(** What [in_dependency_order] returns. *)
Definition order_ok (mir : MirGraph) (r : graph_result (list MirModule)) : Prop :=
  match r with
  | Done l =>
      NoDup (key <$> l) ∧ (∀ k, k ∈ key <$> l ↔ import_reach mir (root mir) k) ∧
      (∀ m, m ∈ l → assoc (key m) (modules mir) = Some m) ∧
      (∀ l1 m l2 j, l = l1 ++ m :: l2 → j ∈ (module_imports m).*2 →
        j ∈ key <$> l1 ∨ import_reach mir j (key m))
  | Raise e => ∃ k, e = KeyError k ∧ import_reach mir (root mir) k ∧ assoc k (modules mir) = None
  | NoFuel => False
  end.

Lemma entry_keys mir (Hkeys : keys_ok mir) (l : list (ustring * MirModule)) :
  (∀ e, e ∈ l → assoc e.1 (modules mir) = Some e.2) → key <$> l.*2 = l.*1.
Proof.
  induction l as [|[k m] l IH]; intros H; [done|]. rewrite !fmap_cons. f_equal.
  - exact (Hkeys _ _ (H (k, m) ltac:(left))).
  - apply IH. intros e He. apply H. by right.
Qed.

Lemma order_terminates mir : keys_ok mir → order_ok mir (in_dependency_order mir).
Proof.
  intros Hkeys. unfold in_dependency_order, order_ok, import_reach.
  pose proof (dependency_order_ok (λ m, (module_imports m).*2) (modules mir) KeyError (root mir)) as H.
  destruct (dependency_order _ _ _ _) as [l|e|]; cbn [mbind outcome_bind]; [|exact H..].
  destruct H as (H1 & H2 & H3 & H4). pose proof (entry_keys mir Hkeys l H3) as E.
  rewrite E. split_and!; [done..| |].
  - intros m ([k m'] & -> & Hm)%list_elem_of_fmap. pose proof (H3 _ Hm) as Ha. by rewrite (Hkeys _ _ Ha).
  - intros l1 m l2 j El Hj. apply fmap_app_inv in El as (e1 & l2' & -> & Er & ->).
    symmetry in Er. apply fmap_cons_inv in Er as ([k m'] & e2 & -> & -> & ->).
    cbn [snd] in *. pose proof (H3 (k, m') ltac:(set_solver)) as Ha. cbn [fst snd] in Ha.
    rewrite (entry_keys mir Hkeys e1) by (intros x Hx; apply H3; set_solver). rewrite (Hkeys _ _ Ha).
    by apply (H4 e1 (k, m') e2 j).
Qed.

(** The dependency order terminates on every graph, import cycles included.
It lists every module reachable from the root exactly once and no other, each
after the modules it imports unless an import cycle forbids it; it fails only
with the key of an import that the graph does not have. *)
Theorem dependency_order_exact mir :
  keys_ok mir →
  match in_dependency_order mir with
  | Done l =>
      NoDup (key <$> l) ∧ (∀ k, k ∈ key <$> l ↔ import_reach mir (root mir) k) ∧
      (∀ m, m ∈ l → assoc (key m) (modules mir) = Some m) ∧
      (∀ l1 m l2 j, l = l1 ++ m :: l2 → j ∈ (module_imports m).*2 →
        j ∈ key <$> l1 ∨ import_reach mir j (key m))
  | Raise e => ∃ k, e = KeyError k ∧ import_reach mir (root mir) k ∧ assoc k (modules mir) = None
  | NoFuel => False
  end.
Proof. intros Hkeys. exact (order_terminates mir Hkeys). Qed.

(** * What the seal and the scope gate accept *)

(** What the seal promises of one function. *)
Record function_ok (f : MirFunction) : Prop := {
  function_cfg : cfg_ok (blocks f);
  function_variants : variants_ok (blocks f);
  function_resources : resources f = _resource_contract (mir_function_name f) (calls f) (blocks f);
  function_effects : ∀ e, e ∈ effects f → e ∈ CANONICAL_CAPABILITY_EFFECTS;
}.

Lemma seal_function_spec m f :
  seal_function m () f ≠ NoFuel ∧ (seal_function m () f = Done () ↔ function_ok f).
Proof.
  unfold seal_function. pose proof (validate_no_fuel (blocks f)) as Hnf.
  pose proof (validate_accepts (blocks f)) as Hex.
  destruct (validate_blocks (blocks f)) as [[]|e|]; cbn [mbind outcome_bind]; [| |done].
  - destruct (proj1 Hex eq_refl) as [Hc Hv]. case_bool_decide as Hr; cbn [negb].
    + case_bool_decide as Hu.
      * split; [done|]. split; [done|]. intros [_ _ _ He]. exfalso. apply Hu.
        destruct (filter _ _) as [|x l] eqn:E; [done|]. exfalso.
        assert (x ∈ x :: l) as Hx by left. rewrite <- E in Hx. apply list_elem_of_filter in Hx as [Hn Hx].
        by apply Hn, He.
      * split; [done|]. split; [intros _|done]. split; try done. intros e He.
        destruct (decide (e ∈ CANONICAL_CAPABILITY_EFFECTS)) as [|Hn]; [done|exfalso].
        assert (filter (λ e, e ∉ CANONICAL_CAPABILITY_EFFECTS) (effects f) = []) as E by done.
        assert (e ∈ filter (λ e, e ∉ CANONICAL_CAPABILITY_EFFECTS) (effects f)) as Hin by (by apply list_elem_of_filter).
        rewrite E in Hin. by apply elem_of_nil in Hin.
    + split; [done|]. split; [done|]. by intros [].
  - split; [done|]. split; [done|]. intros [Hc Hv _ _]. by pose proof (proj2 Hex (conj Hc Hv)).
Qed.

Section seal_spec.
Context (native_sigil_contract : MirModule → bool).
Context (_fingerprint : ustring → list (ustring * MirModule) → ustring).

Definition module_ok (entry : ustring * MirModule) : Prop :=
  key entry.2 = entry.1 ∧ native_sigil_contract entry.2 = true ∧ ∀ f, f ∈ functions entry.2 → function_ok f.

Lemma seal_module_spec entry :
  seal_module native_sigil_contract () entry ≠ NoFuel ∧
  (seal_module native_sigil_contract () entry = Done () ↔ module_ok entry).
Proof.
  destruct entry as [k m]. unfold seal_module, module_ok. cbn [fst snd].
  case_bool_decide as Hk; cbn [negb]; [|split; [done|]; split; [done|]; by intros [? _]].
  destruct (native_sigil_contract m); cbn [negb]; [|split; [done|]; split; [done|]; by intros (_ & ? & _)].
  split.
  - apply outcome_fold_no_fuel. intros [] f _. apply seal_function_spec.
  - rewrite outcome_fold_unit_iff. split.
    + intros H. split; [done|]. split; [done|]. intros f Hf. by apply (seal_function_spec m f), H.
    + intros (_ & _ & H) f Hf. by apply seal_function_spec, H.
Qed.

Lemma seal_modules mir :
  assert_sealed native_sigil_contract _fingerprint mir = Done () → ∀ entry, entry ∈ modules mir → module_ok entry.
Proof.
  unfold assert_sealed. destruct (outcome_fold _ () (modules mir)) as [[]|e|] eqn:E; cbn [mbind outcome_bind]; [|done..].
  intros _ entry He. apply seal_module_spec. rewrite outcome_fold_unit_iff in E. by apply E.
Qed.

End seal_spec.

(** The names the source binds in a function, in order. *)
Definition user_binding (i : MirInstruction) : option ustring :=
  match i with
  | MirBind name _ _ _ _ => if _is_compiler_internal_binding name then None else Some name
  | _ => None
  end.

Definition user_bindings (f : MirFunction) : list ustring :=
  omap user_binding (concat (instructions <$> blocks f)).

Lemma scope_fold ins : ∀ names reasons,
  (foldl scope_step (names, reasons) ins).2 = [] ↔
  reasons = [] ∧ NoDup (omap user_binding ins) ∧ ∀ n, n ∈ omap user_binding ins → n ∉ names.
Proof.
  induction ins as [|i ins IH]; intros names reasons; cbn [foldl omap list_omap].
  { split; [intros; split_and!; [done|constructor|by intros n ?%elem_of_nil]|by intros [? _]]. }
  destruct (user_binding i) as [name|] eqn:Eu.
  - destruct i; try done. cbn [user_binding] in Eu. destruct (_is_compiler_internal_binding name0) eqn:Ei; [done|].
    injection Eu as ->. unfold scope_step at 2. case_bool_decide as Hn; rewrite ?Ei, IH.
    + split; [by intros [? _]|]. intros (_ & _ & H). exfalso. by apply (H name); [left|].
    + rewrite NoDup_cons. split.
      * intros (Hr & Hnd & H). split; [done|]. split; [split; [|done]|].
        -- intros Hin. apply (H name Hin). left.
        -- intros n [->|Hin]%elem_of_cons; [done|]. intros Hx. apply (H n Hin). by right.
      * intros (Hr & [Hx Hnd] & H). split; [done|]. split; [done|].
        intros n Hin [->|Hn']%elem_of_cons; [done|]. apply (H n); [by right|done].
  - assert (∃ names', scope_step (names, reasons) i = (names', reasons) ∧
      (∀ n, _is_compiler_internal_binding n = false → n ∈ names' ↔ n ∈ names)) as (names' & -> & Hn).
    { destruct i; try (exists names; split; [done|tauto]). cbn [user_binding] in Eu.
      destruct (_is_compiler_internal_binding name) eqn:Ei; [|done]. cbn [scope_step]. rewrite Ei.
      case_bool_decide; [by exists names|]. exists (name :: names). split; [done|]. intros n Hn.
      rewrite elem_of_cons. split; [intros [->|?]; [by rewrite Hn in Ei|done]|by right]. }
    rewrite IH. assert (∀ n, n ∈ omap user_binding ins → _is_compiler_internal_binding n = false) as Hu.
    { intros n (i' & _ & Hi')%list_elem_of_omap. destruct i'; try done. cbn [user_binding] in Hi'.
      destruct (_is_compiler_internal_binding name) eqn:E'; [done|]. by injection Hi' as <-. }
    split; intros (? & ? & H); (split; [done|]; split; [done|]; intros n Hin; specialize (H n Hin); rewrite Hn in *); auto.
Qed.

Lemma function_scope_spec f :
  function_scope_reasons f = [] ↔
  NoDup (user_bindings f) ∧ ∀ n, n ∈ user_bindings f → n ∉ mir_parameter_name <$> mir_parameters f.
Proof.
  unfold function_scope_reasons, user_bindings.
  pose proof (scope_fold (concat (instructions <$> blocks f)) (mir_parameter_name <$> mir_parameters f) []) as H.
  destruct ((foldl _ _ _).2) as [|x l].
  - cbn [rev]. destruct H as [H _]. destruct (H eq_refl) as (_ & ? & ?). done.
  - split.
    + intros E. apply (f_equal length) in E. rewrite length_rev in E. done.
    + intros [? ?]. destruct H as [_ H]. discriminate H. done.
Qed.

(** The scope gate finds nothing exactly if the graph is sealed and in every
function of the root module no source-level name is bound twice or shadows a
parameter. *)
Theorem scope_safety_exact sigils fp mir m :
  assoc (root mir) (modules mir) = Some m →
  (inspect_mir_scope_safety (assert_sealed sigils fp mir) mir = Done [] ↔
   assert_sealed sigils fp mir = Done () ∧ ∀ f, f ∈ functions m → NoDup (user_bindings f) ∧
     ∀ n, n ∈ user_bindings f → n ∉ mir_parameter_name <$> mir_parameters f).
Proof.
  intros Hm. unfold inspect_mir_scope_safety, root_module, module_of. rewrite Hm.
  destruct (assert_sealed _ _ _) as [[]|e|]; cbn [mbind outcome_bind]; [|by split; [|intros [? _]]..].
  set (reasons := concat _). assert (Done (dict_fromkeys reasons) = @Done graph_error _ [] ↔ reasons = []) as ->.
  { split; [|by intros ->]. intros [= E]. destruct reasons as [|r rs]; [done|].
    assert (r ∈ dict_fromkeys (r :: rs)) as Hr by (apply elem_of_dict_fromkeys; left).
    rewrite E in Hr. by apply elem_of_nil in Hr. }
  split.
  - intros E. split; [done|]. intros f Hf. apply function_scope_spec. destruct (function_scope_reasons f) as [|n ns] eqn:Ef; [done|exfalso].
    assert ((mir_function_name f, n) ∈ reasons) as Hin.
    { apply elem_of_concat_fmap. exists f. split; [done|]. rewrite Ef. left. }
    rewrite E in Hin. by apply elem_of_nil in Hin.
  - intros [_ H]. destruct reasons as [|[g n] rs] eqn:Er; [done|exfalso].
    assert ((g, n) ∈ reasons) as Hin by (rewrite Er; left).
    apply elem_of_concat_fmap in Hin as (f & Hf & Hin). apply H, function_scope_spec in Hf. rewrite Hf in Hin.
    by apply elem_of_nil in Hin.
Qed.

(** ** A small graph *)

Definition void_declaration (name : ustring) : FunctionDeclaration :=
  mk_function name [] None (mk_block []) nowhere false [] false.

Definition function_of (name : ustring) (bs : list MirBasicBlock) : MirFunction :=
  mk_mir_function name [] (NamedType (u "Void")) [] [] (_resource_contract name [] bs) (void_declaration name) bs.

Definition empty_program : NativeProgram := mk_program [] [] [] [] [].

(** [main] imports a module whose function [f] binds [x] twice. *)
Definition shadowing_graph : MirGraph :=
  mk_mir_graph (u "main")
    [(u "main", mk_mir_module (u "main") (u "main") empty_program [(u "lib", u "lib")]
       [function_of (u "main") [mk_mir_block 0 [] (MirReturn None)]]);
     (u "lib", mk_mir_module (u "lib") (u "lib") empty_program []
       [function_of (u "f") [mk_mir_block 0
         [MirUnit 0 int_type nowhere; MirBind (u "x") 0 false int_type nowhere;
          MirBind (u "x") 0 false int_type nowhere] (MirReturn None)]])]
    [] 4.

Theorem dependency_order_exact_witness :
  (l ← in_dependency_order shadowing_graph; Done (key <$> (l : list MirModule))) = Done [u "lib"; u "main"] ∧
  ∃ l : list MirModule, in_dependency_order shadowing_graph = Done l ∧ NoDup (key <$> l).
Proof.
  split; [vm_compute; reflexivity|].
  pose proof (dependency_order_exact shadowing_graph) as H.
  assert (keys_ok shadowing_graph) as Hk.
  { intros k m E. apply assoc_Some in E. cbn in E.
    apply elem_of_cons in E as [[= -> ->]|[= -> ->]%list_elem_of_singleton]; reflexivity. }
  specialize (H Hk). destruct (in_dependency_order shadowing_graph) as [l|e|] eqn:E.
  - exists l. split; [reflexivity|]. apply H.
  - vm_compute in E. discriminate E.
  - vm_compute in E. discriminate E.
Defined.

Definition no_sigils : MirModule → bool := λ _, true.
Definition no_print : ustring → list (ustring * MirModule) → ustring := λ _ _, [].

Theorem scope_safety_exact_witness :
  inspect_mir_scope_safety (assert_sealed no_sigils no_print shadowing_graph) shadowing_graph = Done [] ∧
  ∀ f, f ∈ functions (mk_mir_module (u "main") (u "main") empty_program [(u "lib", u "lib")]
       [function_of (u "main") [mk_mir_block 0 [] (MirReturn None)]]) → NoDup (user_bindings f).
Proof.
  split; [vm_compute; reflexivity|]. intros f Hf.
  eapply (proj1 (scope_safety_exact no_sigils no_print shadowing_graph _ eq_refl)); [vm_compute; reflexivity|exact Hf].
Defined.

(** The gate does not look at imported modules: the double binding of [lib.f] is not reported. *)
Lemma imported_scope_not_inspected :
  inspect_mir_scope_safety (assert_sealed no_sigils no_print shadowing_graph) shadowing_graph = Done [] ∧
  ∃ m f, assoc (u "lib") (modules shadowing_graph) = Some m ∧ f ∈ functions m ∧ ¬ NoDup (user_bindings f).
Proof.
  split; [vm_compute; reflexivity|]. eexists _, _. split; [reflexivity|]. split; [left|].
  intros H. apply NoDup_cons in H as [H _]. apply H. left.
Qed.
