(* ===== verification/TypedHir.v ===== *)
(** The report of the structural checker: the data classes and queries of
[src/koschei/typed_hir.py] and the projection of the value of a block in
[src/koschei/_typed_expr.py].

A report names an expression by the function and the position of the node, as in
[Effects].  The checker that fills the report is not modelled here. *)

From S2P Require Import Prelude TypeSystem Lexer Ast TypeContracts Effects.

(** An expression object: the index of its function and its position. *)
Abbreviation expression_id := (nat * path)%type.

Record TypedBinding := mk_typed_binding {
  typed_name : ustring;
  typed_type : TypeNode;
  typed_location : SourceLocation;
  typed_role : ustring;
}.

Record TypedMatchArmResolution := mk_arm_resolution {
  resolved_arm : MatchArm;
  arm_owner : ustring;
  arm_variant : ustring;
  resolved_variant : ustring;
  arm_payload_type : option TypeNode;
  arm_binding_type : option TypeNode;
}.

Record TypedMatchResolution := mk_match_resolution {
  match_expression : expression_id;
  match_value_type : TypeNode;
  resolved_arms : list TypedMatchArmResolution;
  match_exhaustive : bool;
}.

Record TypedStructLiteralResolution := mk_struct_resolution {
  struct_expression : expression_id;
  struct_type_name : ustring;
  struct_required_fields : list ustring;
}.

Record TypedMapLiteralResolution := mk_map_resolution {
  map_expression : expression_id;
  map_key_type : TypeNode;
  duplicate_policy : ustring;
}.

Record TypedMapMethodResolution := mk_map_method {
  map_call : expression_id;
  map_receiver_type : TypeNode;
  map_method : ustring;
}.

Record TypedCapabilityCallResolution := mk_capability_call {
  capability_call : expression_id;
  capability_receiver_type : TypeNode;
  resolved_capability : ustring;
  capability_method : ustring;
  resolved_effect : ustring;
  resolved_domain : ustring;
}.

Record TypedHIRReport := mk_typed_report {
  bindings : list TypedBinding;
  expressions : TypedExpressions;
  collections : Z;
  match_resolutions : list TypedMatchResolution;
  struct_literal_resolutions : list TypedStructLiteralResolution;
  map_literal_resolutions : list TypedMapLiteralResolution;
  map_method_resolutions : list TypedMapMethodResolution;
  capability_call_resolutions : list TypedCapabilityCallResolution;
}.

(** The queries: the first resolution of the expression. *)
Definition resolution_of {A} (expression : A → expression_id) (resolutions : list A) (e : expression_id) : option A :=
  List.find (λ item, bool_decide (expression item = e)) resolutions.

Definition binding_types (report : TypedHIRReport) (name : ustring) : list TypeNode :=
  typed_type <$> filter (λ item, typed_name item = name) (bindings report).
Definition match_resolution_of (report : TypedHIRReport) : expression_id → option TypedMatchResolution :=
  resolution_of match_expression (match_resolutions report).
Definition struct_literal_resolution_of (report : TypedHIRReport) : expression_id → option TypedStructLiteralResolution :=
  resolution_of struct_expression (struct_literal_resolutions report).
Definition map_literal_resolution_of (report : TypedHIRReport) : expression_id → option TypedMapLiteralResolution :=
  resolution_of map_expression (map_literal_resolutions report).
Definition map_method_resolution_of (report : TypedHIRReport) : expression_id → option TypedMapMethodResolution :=
  resolution_of map_call (map_method_resolutions report).
Definition capability_call_resolution_of (report : TypedHIRReport)
    : expression_id → option TypedCapabilityCallResolution :=
  resolution_of capability_call (capability_call_resolutions report).

(** * The items of an iterable *)

(** What one success alternative contributes; [None] is a shape that is no list. *)
Definition iterable_item (success : TypeNode) : option TypeNode :=
  match success with
  | GenericType name arguments =>
      if bool_decide (name = u "List") then Some (default UnknownType (head arguments)) else None
  | UnknownType => Some UnknownType
  | _ => if is_named success (u "List") then Some UnknownType else None
  end.

Definition iterable_success_item_type (t : TypeNode) : option TypeNode :=
  match List.filter (λ option, negb (bool_decide (option = ERROR))) (alternatives t) with
  | [] => None
  | success_options => union_type <$> mapM iterable_item success_options
  end.

(** * The value of a block *)

Section projection.
Context (checked : TypedExpressions) (function : nat).

(** [_recorded_expression_type]: the last entry counts. *)
Definition _recorded_expression_type (p : path) : TypeNode :=
  default UnknownType (expression_type checked function p).

Definition _error_result_type (t : TypeNode) : option TypeNode :=
  if bool_decide (ERROR ∈ alternatives t) then Some ERROR else None.

(** The normal types of the parts, without those that have none. *)
Definition present (types : list (option TypeNode)) : list TypeNode := omap (λ t, t) types.

Section block.
Context (statement : nat → Statement → option TypeNode).
(** The loop over the statements of a block. *)
Fixpoint block_normal_type (i : nat) (l : list Statement) (normal : TypeNode) (continues : bool) : option TypeNode :=
  match l with
  | [] => if continues then Some normal else None
  | s :: l =>
      if negb continues then block_normal_type (S i) l normal continues
      else match statement i s with
           | None => block_normal_type (S i) l normal false
           | Some t => block_normal_type (S i) l t true
           end
  end.
End block.

Fixpoint _checked_statement_normal_type (p : path) (s : Statement) {struct s} : option TypeNode :=
  match s with
  | LetStatement _ _ _ _ _ => Some VOID
  | ReturnStatement _ _ => None
  | ExpressionStatement _ _ => Some (_recorded_expression_type (p ++ [0%nat]))
  | IfStatement _ b e _ =>
      let condition_error := _error_result_type (_recorded_expression_type (p ++ [0%nat])) in
      let then_type := checked_block_normal_type (p ++ [1%nat]) b in
      let else_type :=
        match e with
        | Some (ElseBlock b') => checked_block_normal_type (p ++ [2%nat]) b'
        | Some (ElseIf (IfStatement _ _ _ _ as s')) => _checked_statement_normal_type (p ++ [2%nat]) s'
        | Some (ElseIf _) | None => Some VOID
        end in
      match present [condition_error; then_type; else_type] with
      | [] => None
      | normal_types => Some (union_type normal_types)
      end
  | WhileStatement _ b _ | ForStatement _ _ b _ =>
      let error := _error_result_type (_recorded_expression_type (p ++ [0%nat])) in
      let body_type := checked_block_normal_type (p ++ [1%nat]) b in
      Some (union_type (VOID :: present [error; body_type]))
  | BreakStatement _ | ContinueStatement _ => Some UnknownType
  end
with checked_block_normal_type (p : path) (b : Block) {struct b} : option TypeNode :=
  let 'mk_block statements := b in
  block_normal_type (λ i s, _checked_statement_normal_type (p ++ [i]) s) 0 statements VOID true.
End projection.
