(* ===== verification/Lowering.v ===== *)
(** The lowering of a checked function to basic blocks: the lowerer of
[src/koschei/mir_ir.py] with the methods that
[src/koschei/ergonomics_semantics.py], [src/koschei/ergonomics_integration.py],
[src/koschei/mir_or_return_normalization_v1.py] and
[src/koschei/mir_canonical_lowering_v1.py] put over it, and its helpers
[src/koschei/mir_match_plan_v1.py], [src/koschei/mir_match_lowering_v1.py] and
[src/koschei/mir_variant_constructor_lowering_v1.py].

The lowerer is a state monad with exceptions over the record [lowerer].  A method
that lowers a node takes the lowerings of the parts of the node as arguments, and
[lower_expression] with its companions supplies them by recursion on the tree.  A
[finally] that pops a scope or a loop target is modelled on the normal path: an
exception ends the lowering of the function and its state is dropped. *)

From S2P Require Import Prelude TypeSystem Lexer Ast TypeContracts Effects TypedHir Mir.

(** * Errors *)

Inductive plan_problem :=
  | AuthorityPlan
  | NoArms
  | DuplicateArm
  | ArmNotCanonical
  | ExtractionMismatch
  | UnboundWithType
  | BindingTypeUnbound
  | PayloadTypeMissing
  | MissingResolution
  | ArmDrift
  | NotExhaustive
  | LostBinding
  | ArmBlockRefused
  | NoArmValue.

Inductive lower_error :=
  (** The checker's report does not have what the tree needs. *)
  | MissingMapLiteral
  | UnsupportedMapLiteral
  | MapArity (method : ustring)
  | UnsupportedMapMethod (method : ustring)
  | MissingStructLiteral
  | VariantArity (variant : ustring) (expected got : Z)
  | VariantPayloads
  | MatchPlan (p : plan_problem)
  (** A statement in value position without a type, or over no list. *)
  | ValueIfType
  | ValueWhileType
  | ValueForType
  | ValueForIterable
  (** The lowerer's own state is broken. *)
  | UnknownCurrent (block : Z)
  | NoScope
  | EmitTerminated (block : Z)
  | AlreadyTerminated (block : Z)
  (** [validate_blocks] rejects the result. *)
  | Invalid (e : mir_error).

(** * The lowerer *)

Record _MutableBlock := mk_mutable_block {
  block_id : Z;
  block_instructions : list MirInstruction;
  block_terminator : option MirTerminator;
}.

(** [loop_targets] and [lower_scopes] have the innermost first. *)
Record lowerer := mk_lowerer {
  open_blocks : gmap Z _MutableBlock;
  current : Z;
  next_block : Z;
  next_value : Z;
  next_binding : Z;
  loop_targets : list (Z * Z);
  lower_scopes : list (gmap ustring ustring);
  used_binding_names : gset ustring;
}.

Definition set_blocks (m : gmap Z _MutableBlock) (st : lowerer) : lowerer :=
  mk_lowerer m (current st) (next_block st) (next_value st) (next_binding st) (loop_targets st) (lower_scopes st)
    (used_binding_names st).
Definition with_current (b : Z) (st : lowerer) : lowerer :=
  mk_lowerer (open_blocks st) b (next_block st) (next_value st) (next_binding st) (loop_targets st) (lower_scopes st)
    (used_binding_names st).
Definition with_loops (l : list (Z * Z)) (st : lowerer) : lowerer :=
  mk_lowerer (open_blocks st) (current st) (next_block st) (next_value st) (next_binding st) l (lower_scopes st)
    (used_binding_names st).
Definition with_lower_scopes (l : list (gmap ustring ustring)) (st : lowerer) : lowerer :=
  mk_lowerer (open_blocks st) (current st) (next_block st) (next_value st) (next_binding st) (loop_targets st) l
    (used_binding_names st).
Definition with_names (n : Z) (used : gset ustring) (st : lowerer) : lowerer :=
  mk_lowerer (open_blocks st) (current st) (next_block st) (next_value st) n (loop_targets st) (lower_scopes st) used.

(** * The monad *)

Definition lower (A : Type) : Type := lowerer → outcome lower_error (A * lowerer).

#[export] Instance lower_ret : MRet lower := λ A a st, Done (a, st).
#[export] Instance lower_bind : MBind lower := λ A B f c st,
  match c st with
  | Done (a, st) => f a st
  | Raise e => Raise e
  | NoFuel => NoFuel
  end.

Definition fail {A} (e : lower_error) : lower A := λ st, Raise e.
Definition read {A} (f : lowerer → A) : lower A := λ st, Done (f st, st).
Definition update (f : lowerer → lowerer) : lower () := λ st, Done ((), f st).

(** Run the lowerings of a list from left to right. *)
Fixpoint sequence {A} (l : list (lower A)) : lower (list A) :=
  match l with
  | [] => mret []
  | m :: l => x ← m; xs ← sequence l; mret (x :: xs)
  end.

Section positions.
Context {A B : Type} (f : nat → A → B).
(** The results of the elements and their indices from [i] on. *)
Fixpoint positions (i : nat) (l : list A) : list B :=
  match l with
  | [] => []
  | x :: l => f i x :: positions (S i) l
  end.
End positions.

(** ** Values, blocks and emission *)

Definition _new_value : lower Z := λ st,
  Done (next_value st,
    mk_lowerer (open_blocks st) (current st) (next_block st) (next_value st + 1) (next_binding st) (loop_targets st)
      (lower_scopes st) (used_binding_names st)).

Definition _new_block : lower Z := λ st,
  Done (next_block st,
    mk_lowerer (<[next_block st := mk_mutable_block (next_block st) [] None]> (open_blocks st)) (current st)
      (next_block st + 1) (next_value st) (next_binding st) (loop_targets st) (lower_scopes st) (used_binding_names st)).

Definition set_current (b : Z) : lower () := update (with_current b).

Definition _emit (i : MirInstruction) : lower () := λ st,
  match open_blocks st !! current st with
  | None => Raise (UnknownCurrent (current st))
  | Some b =>
      match block_terminator b with
      | Some _ => Raise (EmitTerminated (block_id b))
      | None =>
          Done ((), set_blocks
            (<[current st := mk_mutable_block (block_id b) (block_instructions b ++ [i]) None]> (open_blocks st)) st)
      end
  end.

Definition _terminate (t : MirTerminator) : lower () := λ st,
  match open_blocks st !! current st with
  | None => Raise (UnknownCurrent (current st))
  | Some b =>
      match block_terminator b with
      | Some _ => Raise (AlreadyTerminated (block_id b))
      | None =>
          Done ((), set_blocks
            (<[current st := mk_mutable_block (block_id b) (block_instructions b) (Some t)]> (open_blocks st)) st)
      end
  end.

(** [self.blocks[self.current].terminator is not None]. *)
Definition terminated : lower bool := λ st,
  match open_blocks st !! current st with
  | None => Raise (UnknownCurrent (current st))
  | Some b => Done (bool_decide (is_Some (block_terminator b)), st)
  end.

(** Emit the instruction that defines a new value. *)
Definition define (i : Z → MirInstruction) : lower Z :=
  target ← _new_value; _ ← _emit (i target); mret target.

(** ** Names *)

(** The loop of the two allocators: the first counter whose name is not used. *)
Fixpoint fresh_name (fuel : nat) (candidate : Z → ustring) (n : Z) (used : gset ustring) : outcome lower_error (ustring * Z) :=
  match fuel with
  | O => NoFuel
  | S fuel =>
      let name := candidate n in
      if bool_decide (name ∈ used) then fresh_name fuel candidate (n + 1) used else Done (name, n + 1)
  end.

(** One more round than there are names in use. *)
Definition name_fuel (used : gset ustring) : nat := S (size used).

Definition allocate_name (candidate : Z → ustring) : lower ustring := λ st,
  '(name, n) ← fresh_name (name_fuel (used_binding_names st)) candidate (next_binding st) (used_binding_names st);
  Done (name, with_names n ({[name]} ∪ used_binding_names st) st).

(** [self.scopes[-1][source_name] = internal]. *)
Definition bind_scope (source_name internal : ustring) : lower () := λ st,
  match lower_scopes st with
  | [] => Raise NoScope
  | scope :: rest => Done ((), with_lower_scopes (<[source_name := internal]> scope :: rest) st)
  end.

Definition _new_binding_name (source_name : ustring) : lower ustring :=
  used ← read used_binding_names;
  internal ←
    (if bool_decide (source_name ∉ used) then
       _ ← update (λ st, with_names (next_binding st) ({[source_name]} ∪ used_binding_names st) st);
       mret source_name
     else allocate_name (λ n, source_name ++ u "$mir" ++ str_int n));
  _ ← bind_scope source_name internal;
  mret internal.

Definition _new_internal_binding_name (purpose : ustring) : lower ustring :=
  allocate_name (λ n, u "$mir_" ++ purpose ++ u "_" ++ str_int n).

Definition _resolve_binding_name (source_name : ustring) : lower (option ustring) :=
  read (λ st, foldr (λ scope rest, match scope !! source_name with Some n => Some n | None => rest end)
    None (lower_scopes st)).

(** A body under a scope of its own, and under the targets of a loop. *)
Definition scoped {A} (body : lower A) : lower A :=
  _ ← update (λ st, with_lower_scopes (∅ :: lower_scopes st) st);
  a ← body;
  _ ← update (λ st, with_lower_scopes (tail (lower_scopes st)) st);
  mret a.

Definition in_loop {A} (break_target continue_target : Z) (body : lower A) : lower A :=
  _ ← update (λ st, with_loops ((break_target, continue_target) :: loop_targets st) st);
  a ← body;
  _ ← update (λ st, with_loops (tail (loop_targets st)) st);
  mret a.

(** * Statements

[l] is the location of the statement or the expression. *)

Definition BOOL : TypeNode := NamedType (u "Bool").
Definition STRING_TYPE : TypeNode := NamedType (u "String").

Definition statement_fallback (kind : ustring) (l : SourceLocation) : lower () :=
  _emit (MirAstFallback None kind UnknownType l).

Definition lower_let (name : ustring) (is_mutable : bool) (value : lower Z) (type : TypeNode) (l : SourceLocation)
    : lower () :=
  v ← value;
  binding_name ← _new_binding_name name;
  _emit (MirBind binding_name v is_mutable type l).

Definition lower_expression_statement (value : lower Z) : lower () := _ ← value; mret ().

Definition lower_return (value : option (lower Z)) : lower () :=
  v ← match value with Some m => v ← m; mret (Some v) | None => mret None end;
  _terminate (MirReturn v).

(** Outside a loop the method that ergonomics installs leaves a marker. *)
Definition lower_break (l : SourceLocation) : lower () :=
  loops ← read loop_targets;
  match loops with
  | [] => statement_fallback (u "BreakOutsideLoop") l
  | (break_target, _) :: _ => _terminate (MirJump break_target)
  end.

Definition lower_continue (l : SourceLocation) : lower () :=
  loops ← read loop_targets;
  match loops with
  | [] => statement_fallback (u "ContinueOutsideLoop") l
  | (_, continue_target) :: _ => _terminate (MirJump continue_target)
  end.

(** Jump to [target] unless the block has ended already. *)
Definition jump_if_open (target : Z) : lower () :=
  t ← terminated; if t : bool then mret () else _terminate (MirJump target).

Definition _emit_unit (l : SourceLocation) : lower Z := define (λ t, MirUnit t VOID l).

Definition is_runtime_error (value : Z) (l : SourceLocation) : lower Z :=
  define (λ t, MirIsRuntimeError t value BOOL l).

Definition _store_error_or_continue (value : Z) (result_name : ustring) (result_type : TypeNode) (final_join : Z)
    (l : SourceLocation) : lower () :=
  is_error ← is_runtime_error value l;
  error_block ← _new_block;
  continue_block ← _new_block;
  _ ← _terminate (MirBranch is_error error_block continue_block);
  _ ← set_current error_block;
  _ ← _emit (MirStore result_name value result_type l);
  _ ← _terminate (MirJump final_join);
  set_current continue_block.

Definition _lower_if (condition : lower Z) (then_branch else_branch : lower ()) (l : SourceLocation) : lower () :=
  c ← condition;
  is_error ← is_runtime_error c l;
  error_block ← _new_block;
  decision_block ← _new_block;
  then_block ← _new_block;
  else_block ← _new_block;
  join_block ← _new_block;
  _ ← _terminate (MirBranch is_error error_block decision_block);
  _ ← set_current error_block;
  _ ← _terminate (MirJump join_block);
  _ ← set_current decision_block;
  _ ← _terminate (MirBranch c then_block else_block);
  _ ← set_current then_block;
  _ ← then_branch;
  _ ← jump_if_open join_block;
  _ ← set_current else_block;
  _ ← else_branch;
  _ ← jump_if_open join_block;
  set_current join_block.

(** The end of a loop body: an Error value of the body leaves the loop; [save]
keeps the value where the loop is in value position. *)
Definition finish_loop_body (body_value : option Z) (save : Z → lower ()) (exit_block condition_block : Z)
    (l : SourceLocation) : lower () :=
  t ← terminated;
  match body_value with
  | Some v =>
      if t : bool then mret ()
      else
        _ ← save v;
        body_is_error ← is_runtime_error v l;
        body_error_block ← _new_block;
        continue_block ← _new_block;
        _ ← _terminate (MirBranch body_is_error body_error_block continue_block);
        _ ← set_current body_error_block;
        _ ← _terminate (MirJump exit_block);
        _ ← set_current continue_block;
        _terminate (MirJump condition_block)
  | None => mret ()
  end.

Definition no_save (_ : Z) : lower () := mret ().

Definition _lower_while (supported : bool) (condition : lower Z) (body : lower (option Z)) (l : SourceLocation)
    : lower () :=
  if negb supported then statement_fallback (u "WhileStatement") l
  else
    condition_block ← _new_block;
    condition_error_block ← _new_block;
    decision_block ← _new_block;
    body_block ← _new_block;
    exit_block ← _new_block;
    _ ← _terminate (MirJump condition_block);
    _ ← set_current condition_block;
    c ← condition;
    condition_is_error ← is_runtime_error c l;
    _ ← _terminate (MirBranch condition_is_error condition_error_block decision_block);
    _ ← set_current condition_error_block;
    _ ← _terminate (MirJump exit_block);
    _ ← set_current decision_block;
    _ ← _terminate (MirBranch c body_block exit_block);
    _ ← set_current body_block;
    body_value ← in_loop exit_block condition_block body;
    _ ← finish_loop_body body_value no_save exit_block condition_block l;
    set_current exit_block.

(** The head of a [for] body: the next item under the name of the variable. *)
Definition bind_item (variable : ustring) (iterator : Z) (item_type : TypeNode) (l : SourceLocation) : lower () :=
  item ← define (λ t, MirIterNext t iterator item_type l);
  binding_name ← _new_binding_name variable;
  _emit (MirBind binding_name item false item_type l).

(** The blocks of a [for] from the iterable value on; [failed] is what the edge
of an Error value does before it leaves, [exit_block] the block it leaves to. *)
Definition for_blocks (iterable : Z) (failed : lower ()) (save : Z → lower ()) (variable : ustring)
    (item_type : TypeNode) (body : lower (option Z)) (l : SourceLocation) : lower () :=
  iterable_is_error ← is_runtime_error iterable l;
  iterable_error_block ← _new_block;
  iterator_init_block ← _new_block;
  condition_block ← _new_block;
  body_block ← _new_block;
  exit_block ← _new_block;
  _ ← _terminate (MirBranch iterable_is_error iterable_error_block iterator_init_block);
  _ ← set_current iterable_error_block;
  _ ← failed;
  _ ← _terminate (MirJump exit_block);
  _ ← set_current iterator_init_block;
  iterator ← define (λ t, MirIterInit t iterable (GenericType (u "Iterator") [item_type]) l);
  _ ← _terminate (MirJump condition_block);
  _ ← set_current condition_block;
  has_next ← define (λ t, MirIterHasNext t iterator BOOL l);
  _ ← _terminate (MirBranch has_next body_block exit_block);
  _ ← set_current body_block;
  body_value ← scoped (in_loop exit_block condition_block (
    _ ← bind_item variable iterator item_type l; body));
  _ ← finish_loop_body body_value save exit_block condition_block l;
  set_current exit_block.

Definition _lower_for (supported : bool) (iterable_type : TypeNode) (iterable : lower Z) (variable : ustring)
    (body : lower (option Z)) (l : SourceLocation) : lower () :=
  match iterable_success_item_type iterable_type with
  | Some item_type =>
      if negb supported then statement_fallback (u "ForStatement") l
      else
        i ← iterable;
        for_blocks i (mret ()) no_save variable item_type body l
  | None => statement_fallback (u "ForStatement") l
  end.

Definition _list_item_type (t : TypeNode) : option TypeNode :=
  match t with
  | GenericType name [item] => if bool_decide (name = u "List") then Some item else None
  | _ => None
  end.

(** The two dispatchers of a [for]: the v4 one and, behind it, the base one. *)
Definition lower_for_statement (supported : bool) (iterable_type : TypeNode) (iterable : lower Z) (variable : ustring)
    (body : lower (option Z)) (l : SourceLocation) : lower () :=
  match iterable_success_item_type iterable_type, _list_item_type iterable_type with
  | None, None => statement_fallback (u "ForStatement") l
  | _, _ => _lower_for supported iterable_type iterable variable body l
  end.

(** ** Statements in value position *)

(** Bind the result of a branch that goes on, and leave for the join. *)
Definition bind_result (result_name : ustring) (value : option Z) (result_type : TypeNode) (join_block : Z)
    (l : SourceLocation) : lower () :=
  t ← terminated;
  match value with
  | Some v =>
      if t : bool then mret ()
      else _ ← _emit (MirBind result_name v false result_type l); _terminate (MirJump join_block)
  | None => mret ()
  end.

Definition load_result (result_name : ustring) (result_type : TypeNode) (l : SourceLocation) : lower Z :=
  define (λ t, MirLoad t result_name result_type l).

Definition _lower_value_if (condition : lower Z) (then_branch else_branch : lower (option Z)) (result_type : TypeNode)
    (l : SourceLocation) : lower Z :=
  c ← condition;
  is_error ← is_runtime_error c l;
  error_block ← _new_block;
  decision_block ← _new_block;
  then_block ← _new_block;
  else_block ← _new_block;
  join_block ← _new_block;
  result_name ← _new_internal_binding_name (u "value_if_result");
  _ ← _terminate (MirBranch is_error error_block decision_block);
  _ ← set_current error_block;
  _ ← _emit (MirBind result_name c false result_type l);
  _ ← _terminate (MirJump join_block);
  _ ← set_current decision_block;
  _ ← _terminate (MirBranch c then_block else_block);
  _ ← set_current then_block;
  then_value ← then_branch;
  _ ← bind_result result_name then_value result_type join_block l;
  _ ← set_current else_block;
  else_value ← else_branch;
  _ ← bind_result result_name else_value result_type join_block l;
  _ ← set_current join_block;
  load_result result_name result_type l.

Definition _lower_value_while (condition : lower Z) (body : lower (option Z)) (result_type : TypeNode)
    (l : SourceLocation) : lower Z :=
  initial ← _emit_unit l;
  result_name ← _new_internal_binding_name (u "value_while_result");
  _ ← _emit (MirBind result_name initial true result_type l);
  condition_block ← _new_block;
  condition_error_block ← _new_block;
  decision_block ← _new_block;
  body_block ← _new_block;
  final_join ← _new_block;
  _ ← _terminate (MirJump condition_block);
  _ ← set_current condition_block;
  c ← condition;
  condition_is_error ← is_runtime_error c l;
  _ ← _terminate (MirBranch condition_is_error condition_error_block decision_block);
  _ ← set_current condition_error_block;
  _ ← _emit (MirStore result_name c result_type l);
  _ ← _terminate (MirJump final_join);
  _ ← set_current decision_block;
  _ ← _terminate (MirBranch c body_block final_join);
  _ ← set_current body_block;
  body_value ← in_loop final_join condition_block body;
  _ ← finish_loop_body body_value (λ v, _emit (MirStore result_name v result_type l)) final_join condition_block l;
  _ ← set_current final_join;
  load_result result_name result_type l.

Definition _lower_value_for (iterable_type : TypeNode) (iterable : lower Z) (variable : ustring)
    (body : lower (option Z)) (result_type : TypeNode) (l : SourceLocation) : lower Z :=
  match iterable_success_item_type iterable_type with
  | None => fail ValueForIterable
  | Some item_type =>
      initial ← _emit_unit l;
      result_name ← _new_internal_binding_name (u "value_for_result");
      _ ← _emit (MirBind result_name initial true result_type l);
      i ← iterable;
      let save v := _emit (MirStore result_name v result_type l) in
      _ ← for_blocks i (save i) save variable item_type body l;
      load_result result_name result_type l
  end.

(** What the lowering of value blocks admits; the statements after a return are
not looked at. *)
Section supports.
Context (statement : Statement → bool).
Fixpoint supports_statements (l : list Statement) : bool :=
  match l with
  | [] => true
  | ReturnStatement _ _ :: _ => true
  | s :: l => statement s && supports_statements l
  end.
End supports.

Fixpoint _supports_value_block (b : Block) {struct b} : bool :=
  let 'mk_block statements := b in supports_statements supports_statement statements
with supports_statement (s : Statement) {struct s} : bool :=
  match s with
  | ReturnStatement _ _ | ExpressionStatement _ _ | LetStatement _ _ _ _ _ | BreakStatement _ | ContinueStatement _ => true
  | IfStatement _ then_block else_branch _ =>
      _supports_value_block then_block &&
      match else_branch with
      | Some (ElseBlock b) => _supports_value_block b
      | Some (ElseIf (IfStatement _ _ _ _ as s')) => supports_statement s'
      | Some (ElseIf _) | None => true
      end
  | WhileStatement _ body _ | ForStatement _ _ body _ => _supports_value_block body
  end.

(** * Match plans *)

Record MirMatchArmPlanV1 := mk_arm_plan {
  canonical_variant : ustring;
  plan_binding_name : option ustring;
  plan_binding_type : option TypeNode;
  payload_required : bool;
}.

Record MirMatchPlanV1 := mk_plan {
  plan_arms : list MirMatchArmPlanV1;
  exhaustive : bool;
  authority : bool;
}.

Definition plan_fail {A} (p : plan_problem) : outcome lower_error A := Raise (MatchPlan p).

Definition check_arm_plan (arm : MirMatchArmPlanV1) : outcome lower_error () :=
  if negb (_canonical_variant_identity (canonical_variant arm)) then plan_fail ArmNotCanonical
  else if xorb (payload_required arm) (bool_decide (is_Some (plan_binding_name arm))) then plan_fail ExtractionMismatch
  else if bool_decide (plan_binding_name arm = None) && bool_decide (is_Some (plan_binding_type arm))
    then plan_fail UnboundWithType
  else Done ().

Definition assert_valid (plan : MirMatchPlanV1) : outcome lower_error () :=
  if authority plan then plan_fail AuthorityPlan
  else if bool_decide (plan_arms plan = []) then plan_fail NoArms
  else if negb (bool_decide (NoDup (canonical_variant <$> plan_arms plan))) then plan_fail DuplicateArm
  else outcome_fold (λ _, check_arm_plan) () (plan_arms plan).

(** [arm.binding]. *)
Definition arm_binding (a : MatchArm) : option ustring := let 'mk_arm _ binding _ _ := a in binding.
Definition arm_location (a : MatchArm) : SourceLocation := let 'mk_arm _ _ _ l := a in l.

Definition _arm_plan (arm : TypedMatchArmResolution) : outcome lower_error MirMatchArmPlanV1 :=
  match arm_binding (resolved_arm arm) with
  | None =>
      match arm_binding_type arm with
      | Some _ => plan_fail BindingTypeUnbound
      | None => Done (mk_arm_plan (resolved_variant arm) None None false)
      end
  | Some binding =>
      match arm_payload_type arm, arm_binding_type arm with
      | Some _, Some t => Done (mk_arm_plan (resolved_variant arm) (Some binding) (Some t) true)
      | _, _ => plan_fail PayloadTypeMissing
      end
  end.

(** The lowering of a part with its location. *)
Abbreviation located := (lower Z * SourceLocation)%type.

Section lowering.
Context `{Unicode}.
Context (typed_report : TypedHIRReport) (function : nat).

Definition build_mir_match_plan_v1 (p : path) (arms : list MatchArm) : outcome lower_error MirMatchPlanV1 :=
  match match_resolution_of typed_report (function, p) with
  | None => plan_fail MissingResolution
  | Some resolution =>
      if negb (bool_decide (resolved_arm <$> resolved_arms resolution = arms)) then plan_fail ArmDrift
      else
        plans ← outcome_map _arm_plan (resolved_arms resolution);
        let plan := mk_plan plans (match_exhaustive resolution) false in
        _ ← assert_valid plan;
        Done plan
  end.

(** [_type_of]: the first entry counts. *)
Definition _type_of (p : path) : TypeNode := default UnknownType (assoc (function, p) (expressions typed_report)).

(** * Expressions *)

Definition expression_fallback (p : path) (kind : ustring) (l : SourceLocation) : lower Z :=
  define (λ t, MirAstFallback (Some t) kind (_type_of p) l).

(** ** Variants *)

Definition _BUILTIN_VARIANT_ARITY : list (ustring * Z) := [(u "Some", 1); (u "None", 0); (u "Ok", 1); (u "Err", 1)].

Definition _owner_from_checked_type (t : TypeNode) : option ustring :=
  match t with
  | GenericType name _ | NamedType name => Some name
  | _ => None
  end.

Definition _emit_construct (p : path) (variant : ustring) (source : option Z) (l : SourceLocation) : lower (option Z) :=
  match _owner_from_checked_type (_type_of p) with
  | None => mret None
  | Some owner =>
      if starts_with (u "Module:") owner || bool_decide (is_Some (partition_colons owner)) then mret None
      else
        target ← define (λ t, MirVariantConstruct t (owner ++ u "::" ++ variant) source (_type_of p) l);
        mret (Some target)
  end.

(** A name that can be a variant: it starts with an upper-case letter. *)
Definition visible_variant (name : ustring) : bool :=
  match name with [] => false | c :: _ => isupper c end && negb (bool_decide (name = u "Error")).

Definition lower_variant_constructor_v1 (p : path) (callee : Expression) (arguments : list (lower Z)) (l : SourceLocation)
    : lower (option Z) :=
  match callee with
  | Identifier variant _ =>
      if negb (visible_variant variant) then mret None
      else
        let got := Z.of_nat (length arguments) in
        let expected := default got (assoc variant _BUILTIN_VARIANT_ARITY) in
        if negb (got =? expected) then fail (VariantArity variant expected got)
        else if 1 <? got then fail VariantPayloads
        else
          source ← match arguments with m :: _ => v ← m; mret (Some v) | [] => mret None end;
          _emit_construct p variant source l
  | _ => mret None
  end.

Definition lower_payload_free_variant_v1 (p : path) (variant : ustring) (l : SourceLocation) : lower (option Z) :=
  if negb (visible_variant variant) then mret None else _emit_construct p variant None l.

(** The first result that is there. *)
Definition or_try {A} (first : lower (option A)) (second : lower A) : lower A :=
  r ← first; match r with Some a => mret a | None => second end.

(** ** Names and assignments *)

Definition lower_identifier (p : path) (name : ustring) (l : SourceLocation) : lower Z :=
  or_try (lower_payload_free_variant_v1 p name l)
    (resolved ← _resolve_binding_name name;
     define (λ t, MirLoad t (default name resolved) (_type_of p) l)).

Definition lower_assignment (p : path) (name : ustring) (value : lower Z) (l : SourceLocation) : lower Z :=
  v ← value;
  resolved ← _resolve_binding_name name;
  _ ← _emit (MirStore (default name resolved) v (_type_of p) l);
  mret v.

Definition lower_field_assignment (p : path) (object : lower Z) (field : ustring) (value : lower Z) (l : SourceLocation)
    : lower Z :=
  receiver ← object;
  source ← value;
  define (λ t, MirStructFieldSet t receiver field source (_type_of p) l).

(** ** Operators and calls *)

Definition lower_unary (p : path) (operator : ustring) (operand : lower Z) (l : SourceLocation) : lower Z :=
  v ← operand; define (λ t, MirUnary t operator v (_type_of p) l).

Definition lower_binary (p : path) (operator : ustring) (left right : lower Z) (l : SourceLocation) : lower Z :=
  x ← left; y ← right; define (λ t, MirBinary t operator x y (_type_of p) l).

Definition _lower_short_circuit (p : path) (operator : ustring) (left right : lower Z) (l : SourceLocation) : lower Z :=
  x ← left;
  result_name ← _new_internal_binding_name (u "shortcircuit");
  _ ← _emit (MirBind result_name x true (_type_of p) l);
  is_error ← is_runtime_error x l;
  decision_block ← _new_block;
  rhs_block ← _new_block;
  skip_block ← _new_block;
  join_block ← _new_block;
  _ ← _terminate (MirBranch is_error join_block decision_block);
  _ ← set_current decision_block;
  _ ← _terminate (if bool_decide (operator = u "&&") then MirBranch x rhs_block skip_block
                  else MirBranch x skip_block rhs_block);
  _ ← set_current rhs_block;
  y ← right;
  _ ← _emit (MirStore result_name y (_type_of p) l);
  _ ← _terminate (MirJump join_block);
  _ ← set_current skip_block;
  _ ← _terminate (MirJump join_block);
  _ ← set_current join_block;
  load_result result_name (_type_of p) l.

Definition lower_list (p : path) (items : list (lower Z)) (l : SourceLocation) : lower Z :=
  match _list_item_type (_type_of p) with
  | Some _ => values ← sequence items; define (λ t, MirList t values (_type_of p) l)
  | None => expression_fallback p (u "ListLiteral") l
  end.

Definition lower_interpolation (p : path) (parts : list (lower Z)) (l : SourceLocation) : lower Z :=
  items ← sequence parts; define (λ t, MirInterpolate t items (_type_of p) l).

Definition lower_member (p : path) (object : lower Z) (member : ustring) (l : SourceLocation) : lower Z :=
  o ← object; define (λ t, MirMember t o member (_type_of p) l).

Definition _lower_capability_call (p : path) (object : option (lower Z)) (arguments : list (lower Z)) (l : SourceLocation)
    : lower (option Z) :=
  match object, capability_call_resolution_of typed_report (function, p) with
  | Some object, Some r =>
      receiver ← object;
      values ← sequence arguments;
      target ← define (λ t, MirCapabilityCall t receiver values (resolved_capability r) (capability_method r)
                               (resolved_effect r) (resolved_domain r) (_type_of p) l);
      mret (Some target)
  | _, _ => mret None
  end.

(** The instruction of a method of [Map]. *)
Definition map_instruction (method : ustring) (receiver : Z) (arguments : list Z) (t : TypeNode) (l : SourceLocation)
    : outcome lower_error (Z → MirInstruction) :=
  if bool_decide (method = u "get") then
    match arguments with [k] => Done (λ v, MirMapGet v receiver k t l) | _ => Raise (MapArity method) end
  else if bool_decide (method = u "set") then
    match arguments with [k; x] => Done (λ v, MirMapSet v receiver k x t l) | _ => Raise (MapArity method) end
  else if bool_decide (method = u "keys") then
    match arguments with [] => Done (λ v, MirMapKeys v receiver t l) | _ => Raise (MapArity method) end
  else if bool_decide (method = u "contains") then
    match arguments with [k] => Done (λ v, MirMapContains v receiver k t l) | _ => Raise (MapArity method) end
  else Raise (UnsupportedMapMethod method).

Definition _lower_map_method_call (p : path) (object : option (lower Z)) (arguments : list (lower Z)) (l : SourceLocation)
    : lower (option Z) :=
  match object, map_method_resolution_of typed_report (function, p) with
  | Some object, Some r =>
      receiver ← object;
      values ← sequence arguments;
      match map_instruction (map_method r) receiver values (_type_of p) l with
      | Done i => target ← define i; mret (Some target)
      | Raise e => fail e
      | NoFuel => λ _, NoFuel
      end
  | _, _ => mret None
  end.

(** A call: a variant constructor, a capability method, a method of [Map], or a
call of a value.  [object] is the object of a member callee. *)
Definition lower_call (p : path) (callee : Expression) (callee_value : lower Z) (object : option (lower Z))
    (arguments : list (lower Z)) (l : SourceLocation) : lower Z :=
  or_try (lower_variant_constructor_v1 p callee arguments l)
    (or_try (_lower_capability_call p object arguments l)
      (or_try (_lower_map_method_call p object arguments l)
        (f ← callee_value;
         values ← sequence arguments;
         define (λ t, MirCall t f values (_type_of p) l)))).

(** ** Builders *)

(** An Error value of a part ends the literal with the value. *)
Definition lower_part (value : lower Z) (location : SourceLocation) (result_name : ustring) (result_type : TypeNode)
    (final_join : Z) : lower Z :=
  v ← value;
  _ ← _store_error_or_continue v result_name result_type final_join location;
  mret v.

(** The end of a literal: the finished value goes through the join as well. *)
Definition finish_literal (finish : Z → MirInstruction) (result_name : ustring) (result_type : TypeNode) (final_join : Z)
    (l : SourceLocation) : lower Z :=
  finished ← define finish;
  _ ← _emit (MirStore result_name finished result_type l);
  _ ← _terminate (MirJump final_join);
  _ ← set_current final_join;
  load_result result_name result_type l.

Fixpoint lower_entries (builder : Z) (result_name : ustring) (result_type : TypeNode) (final_join : Z) (l : SourceLocation)
    (entries : list (located * located)) : lower () :=
  match entries with
  | [] => mret ()
  | (key, value) :: entries =>
      k ← lower_part key.1 key.2 result_name result_type final_join;
      v ← lower_part value.1 value.2 result_name result_type final_join;
      _ ← _emit (MirMapInsert builder k v result_type l);
      lower_entries builder result_name result_type final_join l entries
  end.

Definition _lower_map_literal (p : path) (entries : list (located * located)) (l : SourceLocation) : lower Z :=
  let result_type := _type_of p in
  match map_literal_resolution_of typed_report (function, p) with
  | None => fail MissingMapLiteral
  | Some r =>
      if negb (bool_decide (map_key_type r = STRING_TYPE)) || negb (bool_decide (duplicate_policy r = u "reject"))
      then fail UnsupportedMapLiteral
      else
        builder ← define (λ t, MirMapNew t result_type l);
        result_name ← _new_internal_binding_name (u "map_result");
        _ ← _emit (MirBind result_name builder true result_type l);
        final_join ← _new_block;
        _ ← lower_entries builder result_name result_type final_join l entries;
        finish_literal (λ t, MirMapFinish t builder result_type l) result_name result_type final_join l
  end.

Fixpoint lower_fields (builder : Z) (result_name : ustring) (result_type : TypeNode) (final_join : Z) (l : SourceLocation)
    (fields : list (ustring * located)) : lower () :=
  match fields with
  | [] => mret ()
  | (field_name, value) :: fields =>
      v ← lower_part value.1 value.2 result_name result_type final_join;
      _ ← _emit (MirStructSet builder field_name v result_type l);
      lower_fields builder result_name result_type final_join l fields
  end.

Definition _lower_struct_literal (p : path) (fields : list (ustring * located)) (l : SourceLocation) : lower Z :=
  let result_type := _type_of p in
  match struct_literal_resolution_of typed_report (function, p) with
  | None => fail MissingStructLiteral
  | Some r =>
      builder ← define (λ t, MirStructNew t (struct_type_name r) (struct_required_fields r) result_type l);
      result_name ← _new_internal_binding_name (u "struct_result");
      _ ← _emit (MirBind result_name builder true result_type l);
      final_join ← _new_block;
      _ ← lower_fields builder result_name result_type final_join l fields;
      finish_literal (λ t, MirStructFinish t builder result_type l) result_name result_type final_join l
  end.

(** ** Fallible values *)

(** The test of a fallible value: the success, the failure and the join block. *)
Definition branch_fallible (fallible : Z) (l : SourceLocation) : lower (Z * Z * Z) :=
  success ← define (λ t, MirFallibleIsSuccess t fallible BOOL l);
  success_block ← _new_block;
  failure_block ← _new_block;
  join_block ← _new_block;
  _ ← _terminate (MirBranch success success_block failure_block);
  mret (success_block, failure_block, join_block).

(** The success edge binds the payload. *)
Definition bind_payload (fallible : Z) (result_name : ustring) (result_type : TypeNode) (join_block : Z) (l : SourceLocation)
    : lower () :=
  payload ← define (λ t, MirFalliblePayload t fallible result_type l);
  _ ← _emit (MirBind result_name payload false result_type l);
  _terminate (MirJump join_block).

Definition _lower_or_else (p : path) (value fallback : lower Z) (l : SourceLocation) : lower Z :=
  fallible ← value;
  '(success_block, failure_block, join_block) ← branch_fallible fallible l;
  result_name ← _new_internal_binding_name (u "or_else_result");
  _ ← set_current success_block;
  _ ← bind_payload fallible result_name (_type_of p) join_block l;
  _ ← set_current failure_block;
  v ← fallback;
  _ ← _emit (MirBind result_name v false (_type_of p) l);
  _ ← _terminate (MirJump join_block);
  _ ← set_current join_block;
  load_result result_name (_type_of p) l.

Definition _lower_or_block (p : path) (value : lower Z) (handler : lower (option Z)) (l : SourceLocation) : lower Z :=
  fallible ← value;
  '(success_block, failure_block, join_block) ← branch_fallible fallible l;
  result_name ← _new_internal_binding_name (u "or_block_result");
  _ ← set_current success_block;
  _ ← bind_payload fallible result_name (_type_of p) join_block l;
  _ ← set_current failure_block;
  handler_value ← handler;
  _ ← bind_result result_name handler_value (_type_of p) join_block l;
  _ ← set_current join_block;
  load_result result_name (_type_of p) l.

Definition lower_or_return (p : path) (value : lower Z) (error : option (lower Z)) (l : SourceLocation) : lower Z :=
  fallible ← value;
  '(success_block, failure_block, join_block) ← branch_fallible fallible l;
  _ ← set_current failure_block;
  failure_value ← match error with None => mret fallible | Some m => m end;
  _ ← _terminate (MirReturn (Some failure_value));
  _ ← set_current success_block;
  payload ← define (λ t, MirFalliblePayload t fallible (_type_of p) l);
  _ ← _terminate (MirJump join_block);
  _ ← set_current join_block;
  mret payload.

(** ** Matches *)

(** The payload of an arm under its name. *)
Definition bind_arm_payload (scrutinee : Z) (plan : MirMatchArmPlanV1) (l : SourceLocation) : lower () :=
  if payload_required plan then
    match plan_binding_name plan, plan_binding_type plan with
    | Some name, Some t =>
        payload ← define (λ v, MirVariantPayload v scrutinee (canonical_variant plan) t l);
        internal_name ← _new_binding_name name;
        _emit (MirBind internal_name payload false t l)
    | _, _ => fail (MatchPlan LostBinding)
    end
  else mret ().

(** A path that goes on to the join needs a value. *)
Definition bind_arm_result (arm_value : option Z) (result_name : ustring) (result_type : TypeNode) (join_block : Z)
    (l : SourceLocation) : lower () :=
  t ← terminated;
  if t : bool then mret ()
  else
    match arm_value with
    | None => fail (MatchPlan NoArmValue)
    | Some v => _ ← _emit (MirBind result_name v false result_type l); _terminate (MirJump join_block)
    end.

Definition lower_match_arm (scrutinee : Z) (result_name : ustring) (result_type : TypeNode) (join_block : Z) (is_last : bool)
    (plan : MirMatchArmPlanV1) (body : lower (option Z)) (l : SourceLocation) : lower () :=
  test ← define (λ t, MirVariantIs t scrutinee (canonical_variant plan) BOOL l);
  arm_block ← _new_block;
  miss_block ← _new_block;
  _ ← _terminate (MirBranch test arm_block miss_block);
  _ ← set_current arm_block;
  _ ← scoped (
    _ ← bind_arm_payload scrutinee plan l;
    arm_value ← body;
    bind_arm_result arm_value result_name result_type join_block l);
  _ ← set_current miss_block;
  if is_last then _terminate (MirUnreachable (u "compiler-proven exhaustive match had no variant arm")) else mret ().

Section arms.
Context (scrutinee : Z) (result_name : ustring) (result_type : TypeNode) (join_block : Z) (last : nat).
Context (body : nat → MatchArm → lower (option Z)).
(** The arms with their plans; [last] is the index of the last arm. *)
Fixpoint lower_match_arms (i : nat) (arms : list MatchArm) (plans : list MirMatchArmPlanV1) : lower () :=
  match arms, plans with
  | arm :: arms, plan :: plans =>
      _ ← lower_match_arm scrutinee result_name result_type join_block (bool_decide (i = last)) plan (body i arm)
            (arm_location arm);
      lower_match_arms (S i) arms plans
  | _, _ => mret ()
  end.
End arms.

Definition lower_match_expression_v1 (p : path) (value : lower Z) (body : nat → MatchArm → lower (option Z))
    (arms : list MatchArm) (l : SourceLocation) : lower Z :=
  match build_mir_match_plan_v1 p arms with
  | Raise e => fail e
  | NoFuel => λ _, NoFuel
  | Done plan =>
      if negb (exhaustive plan) then fail (MatchPlan NotExhaustive)
      else
        scrutinee ← value;
        result_name ← _new_internal_binding_name (u "match_result");
        join_block ← _new_block;
        _ ← lower_match_arms scrutinee result_name (_type_of p) join_block (length (plan_arms plan) - 1) body 0 arms
              (plan_arms plan);
        _ ← set_current join_block;
        load_result result_name (_type_of p) l
  end.

(** * The recursion over the tree *)

Section statement_list.
Context (statement : nat → Statement → lower ()).
(** The loop of [_lower_block]: it stops behind a statement that ends the block. *)
Fixpoint lower_statements (i : nat) (l : list Statement) : lower () :=
  match l with
  | [] => mret ()
  | s :: l =>
      t ← terminated;
      if t : bool then mret () else _ ← statement i s; lower_statements (S i) l
  end.
Context (tail_value : nat → Statement → lower (option Z)).
(** The loop of [_lower_value_block]: the last statement gives the value. *)
Fixpoint lower_value_statements (i : nat) (l : list Statement) : lower (option Z) :=
  match l with
  | [] => mret None
  | s :: rest =>
      t ← terminated;
      if t : bool then mret None
      else
        match rest with
        | [] => tail_value i s
        | _ => _ ← statement i s; lower_value_statements (S i) rest
        end
  end.
End statement_list.

(** A statement in value position that needs a type of its value. *)
Definition with_type (error : lower_error) (result_type : option TypeNode) (f : TypeNode → lower Z) : lower (option Z) :=
  match result_type with
  | None => fail error
  | Some t => v ← f t; mret (Some v)
  end.

Definition no_value (m : lower ()) : lower (option Z) := _ ← m; mret None.

Definition some_value (m : lower Z) : lower (option Z) := v ← m; mret (Some v).

(** The normal type of a block, from the report. *)
Definition body_type (p : path) (b : Block) : option TypeNode :=
  checked_block_normal_type (expressions typed_report) function p b.

Fixpoint lower_expression (p : path) (e : Expression) {struct e} : lower Z :=
  match e with
  | Identifier name l => lower_identifier p name l
  | Literal value l => define (λ t, MirConst t value (_type_of p) l)
  | InterpolatedString parts l => lower_interpolation p (positions (λ i x, lower_expression (p ++ [i]) x) 0 parts) l
  | StructLiteral _ fields l =>
      _lower_struct_literal p
        (positions (λ i f, (f.1, (lower_expression (p ++ [i]) f.2, location_of f.2))) 0 fields) l
  | ListLiteral items l => lower_list p (positions (λ i x, lower_expression (p ++ [i]) x) 0 items) l
  | MapLiteral entries l =>
      _lower_map_literal p
        (positions (λ i kv, ((lower_expression (p ++ [(2 * i)%nat]) kv.1, location_of kv.1),
                             (lower_expression (p ++ [S (2 * i)]) kv.2, location_of kv.2))) 0 entries) l
  | MemberExpression object member l => lower_member p (lower_expression (p ++ [0%nat]) object) member l
  | CallExpression callee arguments l =>
      lower_call p callee (lower_expression (p ++ [0%nat]) callee)
        match callee with
        | MemberExpression object _ _ => Some (lower_expression (p ++ [0; 0]%nat) object)
        | _ => None
        end
        (positions (λ i x, lower_expression (p ++ [i]) x) 1 arguments) l
  | AssignmentExpression target value l =>
      match target with
      | MemberExpression (Identifier _ _ as object) field _ =>
          lower_field_assignment p (lower_expression (p ++ [0; 0]%nat) object) field
            (lower_expression (p ++ [1%nat]) value) l
      | Identifier name _ => lower_assignment p name (lower_expression (p ++ [1%nat]) value) l
      | _ => _ ← lower_expression (p ++ [1%nat]) value; expression_fallback p (u "AssignmentExpression") l
      end
  | BinaryExpression x operator y l =>
      if bool_decide (operator ∈ [u "&&"; u "||"])
      then _lower_short_circuit p operator (lower_expression (p ++ [0%nat]) x) (lower_expression (p ++ [1%nat]) y) l
      else lower_binary p operator (lower_expression (p ++ [0%nat]) x) (lower_expression (p ++ [1%nat]) y) l
  | UnaryExpression operator x l => lower_unary p operator (lower_expression (p ++ [0%nat]) x) l
  | OrReturnExpression x error l =>
      lower_or_return p (lower_expression (p ++ [0%nat]) x)
        match error with Some y => Some (lower_expression (p ++ [1%nat]) y) | None => None end l
  | OrElseExpression x y l =>
      _lower_or_else p (lower_expression (p ++ [0%nat]) x) (lower_expression (p ++ [1%nat]) y) l
  | OrBlockExpression x b l =>
      if _supports_value_block b
      then _lower_or_block p (lower_expression (p ++ [0%nat]) x)
             (lower_value_block (p ++ [1%nat]) b l (Some (_type_of p))) l
      else expression_fallback p (u "OrBlockExpression") l
  | MatchExpression x arms l =>
      lower_match_expression_v1 p (lower_expression (p ++ [0%nat]) x)
        (λ i a, lower_arm_body (p ++ [S i]) a (_type_of p)) arms l
  end
with lower_arm_body (p : path) (a : MatchArm) (result_type : TypeNode) {struct a} : lower (option Z) :=
  match a with
  | mk_arm _ _ (ArmExpression e) _ => some_value (lower_expression (p ++ [0%nat]) e)
  | mk_arm _ _ (ArmBlock b) l =>
      if negb (_supports_value_block b) then fail (MatchPlan ArmBlockRefused)
      else lower_value_block (p ++ [0%nat]) b l (Some result_type)
  end
with lower_statement (p : path) (s : Statement) {struct s} : lower () :=
  match s with
  | LetStatement name is_mutable value l _ =>
      lower_let name is_mutable (lower_expression (p ++ [0%nat]) value) (_type_of (p ++ [0%nat])) l
  | ReturnStatement value _ =>
      lower_return match value with Some e => Some (lower_expression (p ++ [0%nat]) e) | None => None end
  | ExpressionStatement e _ => lower_expression_statement (lower_expression (p ++ [0%nat]) e)
  | IfStatement condition then_block else_branch l =>
      _lower_if (lower_expression (p ++ [0%nat]) condition) (lower_block (p ++ [1%nat]) then_block)
        match else_branch with
        | Some (ElseBlock b) => lower_block (p ++ [2%nat]) b
        | Some (ElseIf (IfStatement _ _ _ _ as s')) => lower_statement (p ++ [2%nat]) s'
        | Some (ElseIf _) | None => mret ()
        end l
  | WhileStatement condition body l =>
      _lower_while (_supports_value_block body) (lower_expression (p ++ [0%nat]) condition)
        (lower_value_block (p ++ [1%nat]) body l (body_type (p ++ [1%nat]) body)) l
  | ForStatement variable iterable body l =>
      lower_for_statement (_supports_value_block body) (_type_of (p ++ [0%nat]))
        (lower_expression (p ++ [0%nat]) iterable) variable
        (lower_value_block (p ++ [1%nat]) body l (body_type (p ++ [1%nat]) body)) l
  | BreakStatement l => lower_break l
  | ContinueStatement l => lower_continue l
  end
with lower_tail (p : path) (s : Statement) (result_type : option TypeNode) {struct s} : lower (option Z) :=
  match s with
  | ExpressionStatement e _ => some_value (lower_expression (p ++ [0%nat]) e)
  | LetStatement name is_mutable value l _ =>
      _ ← lower_let name is_mutable (lower_expression (p ++ [0%nat]) value) (_type_of (p ++ [0%nat])) l;
      some_value (_emit_unit l)
  | ReturnStatement value _ =>
      no_value (lower_return match value with Some e => Some (lower_expression (p ++ [0%nat]) e) | None => None end)
  | BreakStatement l => no_value (lower_break l)
  | ContinueStatement l => no_value (lower_continue l)
  | IfStatement condition then_block else_branch l =>
      with_type ValueIfType result_type (λ t,
        _lower_value_if (lower_expression (p ++ [0%nat]) condition)
          (lower_value_block (p ++ [1%nat]) then_block l (Some t))
          match else_branch with
          | Some (ElseBlock b) => lower_value_block (p ++ [2%nat]) b l (Some t)
          | Some (ElseIf (IfStatement _ _ _ _ as s')) => lower_tail (p ++ [2%nat]) s' (Some t)
          | Some (ElseIf _) | None => some_value (_emit_unit l)
          end t l)
  | WhileStatement condition body l =>
      with_type ValueWhileType result_type (λ t,
        _lower_value_while (lower_expression (p ++ [0%nat]) condition)
          (lower_value_block (p ++ [1%nat]) body l (body_type (p ++ [1%nat]) body)) t l)
  | ForStatement variable iterable body l =>
      with_type ValueForType result_type (λ t,
        _lower_value_for (_type_of (p ++ [0%nat])) (lower_expression (p ++ [0%nat]) iterable) variable
          (lower_value_block (p ++ [1%nat]) body l (body_type (p ++ [1%nat]) body)) t l)
  end
with lower_block (p : path) (b : Block) {struct b} : lower () :=
  let 'mk_block statements := b in
  scoped (lower_statements (λ i s, lower_statement (p ++ [i]) s) 0 statements)
with lower_value_block (p : path) (b : Block) (empty_location : SourceLocation) (result_type : option TypeNode) {struct b}
    : lower (option Z) :=
  let 'mk_block statements := b in
  scoped
    match statements with
    | [] => some_value (_emit_unit empty_location)
    | _ =>
        lower_value_statements (λ i s, lower_statement (p ++ [i]) s) (λ i s, lower_tail (p ++ [i]) s result_type)
          0 statements
    end.

(** * Functions *)

Definition new_lowerer (declaration : FunctionDeclaration) : lowerer :=
  let names := parameter_name <$> parameters declaration in
  mk_lowerer {[0 := mk_mutable_block 0 [] None]} 0 1 0 0 [] [list_to_map (zip names names)] (list_to_set names).

Definition freeze (b : _MutableBlock) : MirBasicBlock :=
  mk_mir_block (block_id b) (block_instructions b)
    (default (MirUnreachable (u "unterminated lowering block")) (block_terminator b)).

Definition block_order (x y : _MutableBlock) : Prop := block_id x <= block_id y.
#[export] Instance block_order_dec x y : Decision (block_order x y) := Z.le_dec _ _.

(** The blocks in the order of their ids, before they are validated. *)
Definition lower_body (declaration : FunctionDeclaration) : outcome lower_error (list MirBasicBlock) :=
  let run :=
    _ ← lower_statements (λ i s, lower_statement [i] s) 0 (statements (body declaration));
    t ← terminated;
    if t : bool then mret () else _terminate (MirReturn None) in
  '(_, st) ← run (new_lowerer declaration);
  Done (freeze <$> merge_sort block_order (map_to_list (open_blocks st)).*2).

Definition lower_function_blocks_v1 (declaration : FunctionDeclaration) : outcome lower_error (list MirBasicBlock) :=
  blocks ← lower_body declaration;
  match validate_blocks blocks with
  | Done () => Done blocks
  | Raise e => Raise (Invalid e)
  | NoFuel => NoFuel
  end.
End lowering.
