(* ===== verification/LoweringProof.v ===== *)
(** What lowering guarantees.

A [point] says what holds at a position of the code on every path: the values
that are defined, the names that are bound, and the variants that have been
tested.  A function is certified by an entry point for each block such that the
instructions of the block need nothing else, and each edge leads to a block that
needs no more than holds at the edge.  The lowering of every construct keeps such
a certificate for the blocks built so far ([good]); [wp] is the weakest
precondition of the lowerer's monad, and one lemma per operation moves the
abstract [state].  Names that are free in the source are exempt: they belong to
functions, imports and builtins. *)

From S2P Require Import Prelude TypeSystem Lexer Ast TypeContracts Effects TypedHir Mir MirProof MirGraph Lowering.

(** The errors that only the checker's report or the shape of the source cause. *)
Definition expected (e : lower_error) : bool :=
  match e with
  | UnknownCurrent _ | NoScope | EmitTerminated _ | AlreadyTerminated _ | Invalid _ => false
  | MatchPlan (AuthorityPlan | ExtractionMismatch | UnboundWithType | LostBinding) => false
  | _ => true
  end.

(** * Points *)

Record point := mk_point {
  p_values : gset Z;
  p_names : gset ustring;
  p_facts : gset proof;
  (** The tests of this block so far. *)
  p_tests : gset (Z * proof);
}.

(** [p] needs no more than [q] offers. *)
Record point_le (p q : point) : Prop := {
  le_values : p_values p ⊆ p_values q;
  le_names : p_names p ⊆ p_names q;
  le_facts : p_facts p ⊆ p_facts q;
}.

#[export] Instance point_sqsubseteq : SqSubsetEq point := point_le.

#[export] Instance point_le_preorder : PreOrder (⊑@{point}).
Proof. split; [by intros p|]. intros p q r [] []. split; by etransitivity. Qed.

(** Every operand, the ones the validator does not look at included. *)
Definition operands (i : MirInstruction) : list Z :=
  match i with
  | MirMapGet _ object key _ _ | MirMapContains _ object key _ _ => [object; key]
  | MirMapSet _ object key value _ _ => [object; key; value]
  | _ => uses_of i
  end.

Definition bound_name (i : MirInstruction) : option ustring :=
  match i with MirBind name _ _ _ _ => Some name | _ => None end.

Definition after (q : point) (i : MirInstruction) : point :=
  mk_point (match target_of i with Some t => {[t]} ∪ p_values q | None => p_values q end)
    (match bound_name i with Some n => {[n]} ∪ p_names q | None => p_names q end) (p_facts q)
    (match i with MirVariantIs t s v _ _ => {[(t, (s, v))]} ∪ p_tests q | _ => p_tests q end).

Definition end_point (p : point) (l : list MirInstruction) : point := foldl after p l.

(** At the start of a block nothing is tested in it. *)
Definition clean (q : point) : point := mk_point (p_values q) (p_names q) (p_facts q) ∅.
Definition with_name (n : ustring) (q : point) : point := mk_point (p_values q) ({[n]} ∪ p_names q) (p_facts q) ∅.
Definition with_fact (f : proof) (q : point) : point := mk_point (p_values q) (p_names q) ({[f]} ∪ p_facts q) ∅.

(** What holds on the edge on which [c] is true. *)
Definition taken (c : Z) (q : point) : point :=
  mk_point (p_values q) (p_names q) (p_facts q ∪ set_map snd (filter (λ t : Z * proof, t.1 = c) (p_tests q))) ∅.

Lemma after_le q i : q ⊑ after q i.
Proof. split; cbn [after p_values p_names p_facts]; [destruct (target_of i)|destruct (bound_name i)|]; set_solver. Qed.

Lemma values_mono (p q : point) v : p ⊑ q → v ∈ p_values p → v ∈ p_values q.
Proof. intros []. set_solver. Qed.

Lemma names_mono (p q : point) n : p ⊑ q → n ∈ p_names p → n ∈ p_names q.
Proof. intros []. set_solver. Qed.

Lemma clean_le q : clean q ⊑ q.
Proof. by split. Qed.

Lemma le_clean q : q ⊑ clean q.
Proof. by split. Qed.

Lemma le_with_name n q : q ⊑ with_name n q.
Proof. split; cbn; set_solver. Qed.

Lemma le_with_fact f q : q ⊑ with_fact f q.
Proof. split; cbn; set_solver. Qed.

Lemma taken_le c q : q ⊑ taken c q.
Proof. split; cbn; set_solver. Qed.

Lemma end_point_le p l : p ⊑ end_point p l.
Proof. revert p. induction l as [|i l IH]; intros p; [done|]. etransitivity; [apply after_le|apply IH]. Qed.

Lemma end_point_values p l v :
  v ∈ p_values (end_point p l) ↔ v ∈ p_values p ∨ v ∈ omap target_of l.
Proof.
  revert p. induction l as [|i l IH]; intros p; cbn [end_point foldl omap list_omap].
  - split; [by left|]. by intros [?|?%elem_of_nil].
  - unfold end_point in IH. rewrite IH. cbn [after p_values]. destruct (target_of i); [rewrite elem_of_cons|]; set_solver.
Qed.

Lemma end_point_facts p l : p_facts (end_point p l) = p_facts p.
Proof. revert p. induction l as [|i l IH]; intros p; [done|]. cbn [end_point foldl]. unfold end_point in IH. by rewrite IH. Qed.

Lemma end_point_tests p l c f :
  (c, f) ∈ p_tests (end_point p l) → (c, f) ∈ p_tests p ∨ ∃ i, i ∈ l ∧ tests_for i c f.
Proof.
  revert p. induction l as [|i l IH]; intros p; cbn [end_point foldl]; [by left|]. unfold end_point in IH.
  intros [H|(j & Hj & Ht)]%IH; [|right; exists j; split; [by right|done]].
  destruct i; try (by left). cbn [after p_tests] in H. apply elem_of_union in H as [[= -> ->]%elem_of_singleton|?]; [|by left].
  right. eexists. split; [left|]. by eexists _, _.
Qed.

(** * Certificates *)

Section certificate.
Context (free : gset ustring).

Definition name_ok (q : point) (i : MirInstruction) : Prop :=
  match i with
  | MirLoad _ n _ _ | MirStore n _ _ _ => n ∈ p_names q ∨ n ∈ free
  | _ => True
  end.

Definition variant_ok (q : point) (i : MirInstruction) : Prop :=
  match i with
  | MirVariantIs _ _ v _ _ => _canonical_variant_identity v = true
  | MirVariantPayload _ s v _ _ => _canonical_variant_identity v = true ∧ (s, v) ∈ p_facts q
  | _ => True
  end.

(** The instruction [i] needs only what holds at [q]. *)
Record instr_ok (q : point) (i : MirInstruction) : Prop := {
  ok_operands : ∀ v, v ∈ operands i → v ∈ p_values q;
  ok_registered : is_mir_v4_instruction i = true;
  ok_name : name_ok q i;
  ok_variant : variant_ok q i;
}.

Fixpoint instrs_ok (p : point) (l : list MirInstruction) : Prop :=
  match l with [] => True | i :: l => instr_ok p i ∧ instrs_ok (after p i) l end.

Definition terminator_ok (entries : gmap Z point) (q : point) (t : MirTerminator) : Prop :=
  (∀ v, v ∈ terminator_uses t → v ∈ p_values q) ∧
  match t with
  | MirJump s => ∃ r, entries !! s = Some r ∧ r ⊑ q
  | MirBranch c s1 s2 => (∃ r, entries !! s1 = Some r ∧ r ⊑ taken c q) ∧ ∃ r, entries !! s2 = Some r ∧ r ⊑ q
  | _ => True
  end.

Lemma instrs_ok_snoc p l i : instrs_ok p (l ++ [i]) ↔ instrs_ok p l ∧ instr_ok (end_point p l) i.
Proof.
  revert p. induction l as [|j l IH]; intros p; cbn [app instrs_ok end_point foldl]; [tauto|].
  rewrite IH. unfold end_point. tauto.
Qed.

Lemma end_point_snoc p l i : end_point p (l ++ [i]) = after (end_point p l) i.
Proof. unfold end_point. by rewrite foldl_app. Qed.

Lemma terminator_ok_mono entries entries' q t :
  entries ⊆ entries' → terminator_ok entries q t → terminator_ok entries' q t.
Proof.
  intros Hs [Hu H]. split; [done|]. destruct t; try done.
  - destruct H as (r & Hr & ?). exists r. split; [by eapply lookup_weaken|done].
  - destruct H as [(r1 & H1 & ?) (r2 & H2 & ?)].
    split; [exists r1|exists r2]; (split; [by eapply lookup_weaken|done]).
Qed.

Definition block_ok (entries : gmap Z point) (p : point) (b : _MutableBlock) : Prop :=
  instrs_ok p (block_instructions b) ∧
  ∀ t, block_terminator b = Some t → terminator_ok entries (end_point p (block_instructions b)) t.

(** ** Labels that occur once *)

Section labels.
Context {X : Type} (label : MirInstruction → option X).

Definition labels (b : _MutableBlock) : list X := omap label (block_instructions b).

Record unique_labels (m : gmap Z _MutableBlock) : Prop := {
  labels_nodup : ∀ k b, m !! k = Some b → NoDup (labels b);
  labels_apart : ∀ k1 k2 b1 b2 x, m !! k1 = Some b1 → m !! k2 = Some b2 → x ∈ labels b1 → x ∈ labels b2 → k1 = k2;
}.

(** Blocks with the same labels at the same places. *)
Lemma unique_same m k b b' : m !! k = Some b → labels b' = labels b → unique_labels m → unique_labels (<[k := b']> m).
Proof.
  intros Hk Hl [H1 H2].
  assert (∀ j c, <[k := b']> m !! j = Some c → ∃ c', m !! j = Some c' ∧ labels c = labels c') as H.
  { intros j c [[<- <-]|[_ Hj]]%lookup_insert_Some; [by exists b|by exists c]. }
  split.
  - intros j c (c' & Hc & ->)%H. by eapply H1.
  - intros k1 k2 b1 b2 x (c1 & Hc1 & ->)%H (c2 & Hc2 & ->)%H. by apply H2.
Qed.

Lemma unique_new m k b : m !! k = None → labels b = [] → unique_labels m → unique_labels (<[k := b]> m).
Proof.
  intros Hk Hl [H1 H2]. split.
  - intros j c [[<- <-]|[_ Hj]]%lookup_insert_Some; [rewrite Hl; constructor|by eapply H1].
  - intros k1 k2 b1 b2 x [[<- <-]|[_ Hk1]]%lookup_insert_Some [[<- <-]|[_ Hk2]]%lookup_insert_Some; rewrite ?Hl.
    + done.
    + by intros ?%elem_of_nil.
    + by intros _ ?%elem_of_nil.
    + by apply H2.
Qed.

Lemma unique_emit m k b i b' :
  m !! k = Some b → block_instructions b' = block_instructions b ++ [i] →
  (∀ x j c, label i = Some x → m !! j = Some c → x ∉ labels c) → unique_labels m → unique_labels (<[k := b']> m).
Proof.
  intros Hk Hb Hx [H1 H2].
  assert (labels b' = labels b ++ match label i with Some x => [x] | None => [] end) as Hl.
  { unfold labels. rewrite Hb, omap_app. cbn. by destruct (label i). }
  split.
  - intros j c [[<- <-]|[_ Hj]]%lookup_insert_Some; [|by eapply H1]. rewrite Hl. apply NoDup_app.
    split; [by eapply H1|]. destruct (label i) as [x|] eqn:E; [|split; [by intros ? ? ?%elem_of_nil|constructor]].
    split; [|apply NoDup_singleton]. intros y Hy ->%list_elem_of_singleton. by eapply Hx.
  - intros k1 k2 b1 b2 x [[<- <-]|[_ Hk1]]%lookup_insert_Some [[<- <-]|[_ Hk2]]%lookup_insert_Some; rewrite ?Hl, ?elem_of_app.
    + done.
    + intros [?|Hin] ?; [by eapply H2|]. destruct (label i) as [y|] eqn:E; [|by apply elem_of_nil in Hin].
      apply list_elem_of_singleton in Hin as ->. by edestruct Hx.
    + intros ? [?|Hin]; [by eapply H2|]. destruct (label i) as [y|] eqn:E; [|by apply elem_of_nil in Hin].
      apply list_elem_of_singleton in Hin as ->. by edestruct Hx.
    + by apply H2.
Qed.
End labels.

(** ** The blocks built so far *)

Context (params : gset ustring).

(** The blocks of [st], its counters and its names fit together; [A] has the entry
points that are fixed already. *)
Record good (A : gmap Z point) (st : lowerer) : Prop := {
  g_ids : ∀ k b, open_blocks st !! k = Some b → block_id b = k ∧ 0 <= k < next_block st;
  g_all : ∀ k, 0 <= k < next_block st → is_Some (open_blocks st !! k);
  g_entries : ∀ k p, A !! k = Some p → 0 <= k < next_block st ∧ p_tests p = ∅ ∧
    ∀ v, v ∈ p_values p → ∃ j b, open_blocks st !! j = Some b ∧ v ∈ labels target_of b;
  g_blocks : ∀ k b p, open_blocks st !! k = Some b → A !! k = Some p → block_ok A p b;
  g_pending : ∀ k b, open_blocks st !! k = Some b → A !! k = None → block_instructions b = [] ∧ block_terminator b = None;
  g_targets : unique_labels target_of (open_blocks st);
  g_values : ∀ k b v, open_blocks st !! k = Some b → v ∈ labels target_of b → v < next_value st;
  g_binds : unique_labels user_binding (open_blocks st);
  g_used : ∀ k b n, open_blocks st !! k = Some b → n ∈ labels user_binding b → n ∈ used_binding_names st ∧ n ∉ params;
  g_params : params ⊆ used_binding_names st;
}.

(** What a method knows of a block it has made. *)
Inductive status :=
  (** Empty, without an entry point. *)
  | Pending
  (** Empty, with an entry point. *)
  | Ready (p : point)
  (** Has been made the current block. *)
  | Placed (p : point).

Definition entry (s : status) : option point := match s with Pending => None | Ready p | Placed p => Some p end.

Abbreviation knowledge := (gmap Z status).

Definition knows (A : gmap Z point) (st : lowerer) (k : Z) (s : status) : Prop :=
  match s with
  | Pending => A !! k = None ∧ open_blocks st !! k = Some (mk_mutable_block k [] None) ∧ k ≠ current st
  | Ready p => A !! k = Some p ∧ open_blocks st !! k = Some (mk_mutable_block k [] None) ∧ k ≠ current st
  | Placed p => A !! k = Some p
  end.

(** The scopes [S] and the loop targets [L] ask for no more than the base [c]. *)
Record context_ok (O : knowledge) (S : list (gmap ustring ustring)) (L : list (Z * Z)) (c : point) : Prop := {
  c_scopes : ∀ scope n x, scope ∈ S → scope !! n = Some x → x ∈ p_names c;
  c_loops : ∀ k1 k2, (k1, k2) ∈ L → (∃ s p, O !! k1 = Some s ∧ entry s = Some p ∧ p ⊑ c) ∧
    ∃ s p, O !! k2 = Some s ∧ entry s = Some p ∧ p ⊑ c;
}.

Record holds (O : knowledge) (S : list (gmap ustring ustring)) (L : list (Z * Z)) (c : point) (A : gmap Z point) (st : lowerer)
    : Prop := {
  h_good : good A st;
  h_knows : ∀ k s, O !! k = Some s → knows A st k s;
  h_scopes : lower_scopes st = S;
  h_loops : loop_targets st = L;
  h_context : context_ok O S L c;
}.

(** The current block is open and [q] holds at its end. *)
Definition state O S L c (q : point) (st : lowerer) : Prop := ∃ A b p,
  holds O S L c A st ∧ open_blocks st !! current st = Some b ∧ block_terminator b = None ∧
  A !! current st = Some p ∧ q = end_point p (block_instructions b) ∧ c ⊑ q.

(** The current block has ended. *)
Definition ended O S L c (st : lowerer) : Prop := ∃ A b t,
  holds O S L c A st ∧ open_blocks st !! current st = Some b ∧ block_terminator b = Some t.

(** Either of the two. *)
Definition left_behind O S L c (st : lowerer) : Prop := ended O S L c st ∨ ∃ q, state O S L c q st.

(** ** Weakest preconditions *)

Definition wp {A} (m : lower A) (st : lowerer) (Q : A → lowerer → Prop) : Prop :=
  match m st with
  | Done (a, st) => Q a st
  | Raise e => expected e = true
  | NoFuel => False
  end.

Lemma bind_run {A B} (m : lower A) (f : A → lower B) st :
  (m ≫= f) st = match m st with Done (a, st) => f a st | Raise e => Raise e | NoFuel => NoFuel end.
Proof. done. Qed.

Lemma wp_bind {A B} (m : lower A) (f : A → lower B) st Q :
  wp m st (λ a st, wp (f a) st Q) → wp (m ≫= f) st Q.
Proof. unfold wp, mbind, lower_bind. by destruct (m st) as [[a st']|e|]. Qed.

Lemma wp_ret {A} (a : A) st (Q : A → lowerer → Prop) : Q a st → wp (mret a) st Q.
Proof. done. Qed.

Lemma wp_fail {A} e st (Q : A → lowerer → Prop) : expected e = true → wp (fail e) st Q.
Proof. done. Qed.

Lemma wp_mono {A} (m : lower A) st (Q Q' : A → lowerer → Prop) :
  wp m st Q → (∀ a st, Q a st → Q' a st) → wp m st Q'.
Proof. unfold wp. destruct (m st) as [[a st']|e|]; auto. Qed.

(** ** Forgetting and rebasing *)

Lemma context_mono O O' S L c c' :
  context_ok O S L c → O ⊆ O' → c ⊑ c' → context_ok O' S L c'.
Proof.
  intros [H1 H2] HO Hc. split.
  - intros scope n x Hs Hn. by eapply (le_names _ _ Hc), H1.
  - intros k1 k2 [(s1 & p1 & ? & ? & ?) (s2 & p2 & ? & ? & ?)]%H2.
    split; [exists s1, p1|exists s2, p2]; (split; [by eapply lookup_weaken|split; [done|by etransitivity]]).
Qed.

Lemma holds_weaken O O' S L c c' A st :
  holds O' S L c' A st → O ⊆ O' → context_ok O S L c → holds O S L c A st.
Proof. intros [H1 H2 H3 H4 H5] HO Hc. split; try done. intros k s Hk. apply H2. by eapply lookup_weaken. Qed.

(** Back from a wider context to the one of the caller. *)
Lemma state_restore O O' S L c c' q st :
  state O' S L c' q st → O ⊆ O' → context_ok O S L c → c ⊑ q → state O S L c q st.
Proof. intros (A & b & p & Hh & ? & ? & ? & ? & _) HO Hc Hq. exists A, b, p. split_and!; try done. by eapply holds_weaken. Qed.

Lemma ended_restore O O' S L c c' st :
  ended O' S L c' st → O ⊆ O' → context_ok O S L c → ended O S L c st.
Proof. intros (A & b & t & Hh & ? & ?) HO Hc. exists A, b, t. split_and!; try done. by eapply holds_weaken. Qed.

Lemma state_context O S L c q st : state O S L c q st → context_ok O S L c.
Proof. by intros (A & b & p & [] & _). Qed.

Lemma state_base O S L c q st : state O S L c q st → c ⊑ q.
Proof. by intros (A & b & p & _ & _ & _ & _ & _ & ?). Qed.

Lemma state_rebase O S L c q st : state O S L c q st → state O S L q q st.
Proof.
  intros (A & b & p & [H1 H2 H3 H4 H5] & ? & ? & ? & ? & ?). exists A, b, p. split_and!; try done.
  split; try done. by eapply context_mono.
Qed.

Lemma ended_context O S L c st : ended O S L c st → context_ok O S L c.
Proof. by intros (A & b & t & [] & _). Qed.

(** ** The primitives *)

Lemma knows_update A st st' k s :
  knows A st k s → current st' = current st → (∀ j, j ≠ current st → open_blocks st' !! j = open_blocks st !! j) →
  knows A st' k s.
Proof. intros H Hc Hb. destruct s; cbn in *; rewrite ?Hc; [..|done]; destruct H as (? & ? & ?); by rewrite Hb. Qed.

(** The current block becomes [b'], with the instructions it had and [extra]. *)
Lemma good_current A st b p b' extra :
  good A st → open_blocks st !! current st = Some b → A !! current st = Some p → block_terminator b = None →
  block_id b' = block_id b → block_instructions b' = block_instructions b ++ extra → block_ok A p b' →
  unique_labels target_of (<[current st := b']> (open_blocks st)) →
  unique_labels user_binding (<[current st := b']> (open_blocks st)) →
  (∀ v, v ∈ omap target_of extra → v < next_value st) →
  (∀ n, n ∈ omap user_binding extra → n ∈ used_binding_names st ∧ n ∉ params) →
  good A (set_blocks (<[current st := b']> (open_blocks st)) st).
Proof.
  intros [] Hb Hp Hopen Hid Hins Hok Ht Hu Hv Hn. split; cbn [set_blocks open_blocks next_block next_value used_binding_names].
  - intros k b1 [[<- <-]|[_ ?]]%lookup_insert_Some; [rewrite Hid|]; by apply g_ids0.
  - intros k Hk. destruct (decide (k = current st)) as [->|]; [rewrite lookup_insert_eq; by eexists|].
    rewrite lookup_insert_ne by done. by apply g_all0.
  - intros k p1 Hk. destruct (g_entries0 k p1 Hk) as (? & ? & Hd). split_and!; try done; [lia..|].
    intros v Hin. destruct (Hd v Hin) as (j & bj & Hj & Hl). destruct (decide (j = current st)) as [->|].
    + exists (current st), b'. rewrite lookup_insert_eq. split; [done|]. rewrite Hb in Hj. injection Hj as <-.
      unfold labels. rewrite Hins, omap_app, elem_of_app. by left.
    + exists j, bj. by rewrite lookup_insert_ne.
  - intros k b1 p1 [[<- <-]|[_ ?]]%lookup_insert_Some; [|by apply g_blocks0]. rewrite Hp. by intros [= <-].
  - intros k b1 [[<- <-]|[_ ?]]%lookup_insert_Some; [by rewrite Hp|by apply g_pending0].
  - done.
  - intros k b1 v [[<- <-]|[_ ?]]%lookup_insert_Some; [|by eapply g_values0].
    unfold labels. rewrite Hins, omap_app, elem_of_app. intros [?|?]; [by eapply g_values0|by apply Hv].
  - done.
  - intros k b1 n [[<- <-]|[_ ?]]%lookup_insert_Some; [|by eapply g_used0].
    unfold labels. rewrite Hins, omap_app, elem_of_app. intros [?|?]; [by eapply g_used0|by apply Hn].
  - done.
Qed.

(** A fresh value and a name that is no user binding may be emitted at once. *)
Definition emittable (st : lowerer) (i : MirInstruction) : Prop :=
  (∀ t, target_of i = Some t → t < next_value st ∧ ∀ j b, open_blocks st !! j = Some b → t ∉ labels target_of b) ∧
  (∀ n, user_binding i = Some n → n ∈ used_binding_names st ∧ n ∉ params ∧
     ∀ j b, open_blocks st !! j = Some b → n ∉ labels user_binding b).

Lemma wp_emit i O S L c q st (Q : () → lowerer → Prop) :
  state O S L c q st → instr_ok q i → emittable st i →
  (∀ st', state O S L c (after q i) st' → Q () st') → wp (_emit i) st Q.
Proof.
  intros (A & b & p & [Hg Hk Hs Hl Hc] & Hb & Hopen & Hp & -> & Hle) Hi [He1 He2] HQ. unfold wp, _emit.
  rewrite Hb, Hopen. apply HQ. exists A, (mk_mutable_block (block_id b) (block_instructions b ++ [i]) None), p.
  cbn [set_blocks open_blocks current block_instructions block_terminator]. rewrite lookup_insert_eq, end_point_snoc.
  split_and!; try done; [|etransitivity; [done|apply after_le]].
  split; try done.
  - apply (good_current A st b p _ [i]); try done; cbn [block_id block_instructions block_terminator].
    + split; cbn [block_instructions block_terminator]; [|done]. apply instrs_ok_snoc. split; [|done].
      by destruct (g_blocks _ _ Hg _ _ _ Hb Hp).
    + apply (unique_emit _ _ _ b i); try done; [|apply Hg]. intros x j d Hx Hj. by eapply He1.
    + apply (unique_emit _ _ _ b i); try done; [|apply Hg]. intros x j d Hx Hj. by eapply He2.
    + intros v. cbn. destruct (target_of i) eqn:E; [|by intros ?%elem_of_nil]. intros ->%list_elem_of_singleton. by apply He1.
    + intros n. cbn. destruct (user_binding i) eqn:E; [|by intros ?%elem_of_nil]. intros ->%list_elem_of_singleton.
      by edestruct He2 as (? & ? & _).
  - intros k s Hks. eapply knows_update; [by apply Hk|done|]. intros j Hj. cbn. by rewrite lookup_insert_ne.
Qed.

(** An instruction that defines no value and binds no name of the source. *)
Definition quiet (i : MirInstruction) : Prop := target_of i = None ∧ user_binding i = None.

Lemma wp_emit_quiet i O S L c q st (Q : () → lowerer → Prop) :
  state O S L c q st → instr_ok q i → quiet i →
  (∀ q' st', q' = after q i → q ⊑ q' → state O S L c q' st' → Q () st') → wp (_emit i) st Q.
Proof.
  intros Hst Hi [Ht Hu] HQ. eapply wp_emit; [done..| |].
  - split; [by rewrite Ht|by rewrite Hu].
  - intros st' H. by eapply HQ; [|apply after_le|].
Qed.

Lemma state_new_value O S L c q st st' :
  state O S L c q st →
  st' = mk_lowerer (open_blocks st) (current st) (next_block st) (next_value st + 1) (next_binding st) (loop_targets st)
    (lower_scopes st) (used_binding_names st) →
  state O S L c q st'.
Proof.
  intros (A & b & p & [[] Hk Hs Hl Hc] & Hb & Hopen & Hp & Hq & Hle) ->. exists A, b, p. split_and!; try done.
  split; try done. split; try done. cbn. intros k b1 v Hk1 Hv. specialize (g_values0 k b1 v Hk1 Hv). lia.
Qed.

Lemma wp_define i O S L c q st (Q : Z → lowerer → Prop) :
  state O S L c q st → (∀ t, target_of (i t) = Some t) → (∀ t, user_binding (i t) = None) → (∀ t, instr_ok q (i t)) →
  (∀ t q' st', q' = after q (i t) → q ⊑ q' → t ∈ p_values q' → state O S L c q' st' → Q t st') →
  wp (define i) st Q.
Proof.
  intros Hst Ht Hu Hi HQ. unfold define. apply wp_bind. unfold wp at 1, _new_value.
  apply wp_bind. eapply wp_emit.
  - by eapply state_new_value.
  - apply Hi.
  - split; [|by rewrite Hu]. rewrite Ht. intros t [= <-]. cbn. split; [lia|]. intros j b Hj Hin.
    destruct Hst as (A & b0 & p & [[] _ _ _ _] & _). specialize (g_values0 j b _ Hj Hin). lia.
  - intros st' H. apply wp_ret. eapply HQ; [done|apply after_le| |done]. cbn. rewrite Ht. set_solver.
Qed.

Lemma wp_terminated O S L c st (Q : bool → lowerer → Prop) :
  left_behind O S L c st →
  (ended O S L c st → Q true st) → (∀ q, state O S L c q st → Q false st) → wp terminated st Q.
Proof.
  intros [H|[q H]] H1 H2; unfold wp, terminated.
  - pose proof H as (A & b & t & _ & -> & ->). rewrite bool_decide_eq_true_2 by (by eexists). by apply H1.
  - pose proof H as (A & b & p & _ & -> & -> & _). rewrite bool_decide_eq_false_2 by (by intros [? ?]). by eapply H2.
Qed.

Lemma wp_new_block O S L c q st (Q : Z → lowerer → Prop) :
  state O S L c q st →
  (∀ b st', O !! b = None → state (<[b := Pending]> O) S L c q st' → Q b st') →
  wp _new_block st Q.
Proof.
  intros (A & b & p & [[] Hk Hs Hl Hc] & Hb & Hopen & Hp & Hq & Hle) HQ. unfold wp, _new_block.
  remember (next_block st) as n eqn:En. assert (A !! n = None) as HA.
  { destruct (A !! n) as [p'|] eqn:E; [|done]. apply g_entries0 in E. lia. }
  assert (open_blocks st !! n = None) as HB.
  { destruct (open_blocks st !! n) as [b'|] eqn:E; [|done]. apply g_ids0 in E. lia. }
  assert (n ≠ current st) as Hcur by (intros E; rewrite E in HA; congruence).
  assert (O !! n = None) as HO.
  { destruct (O !! n) as [s|] eqn:E; [|done]. apply Hk in E. destruct s; cbn in E; [|destruct E as [E _]|]; rewrite HA in *; try done.
    destruct E as (_ & E & _). by rewrite HB in E. }
  apply HQ; [done|]. exists A, b, p. cbn [open_blocks current]. rewrite lookup_insert_ne by done. split_and!; try done.
  split; try done.
  - pose proof (proj2 (g_ids0 _ _ Hb)) as Hn. split; cbn [open_blocks next_block next_value used_binding_names].
    + intros k b1 [[<- <-]|[_ H]]%lookup_insert_Some; [split; [done|lia]|]. apply g_ids0 in H. split; [apply H|lia].
    + intros k Hk'. destruct (decide (k = n)) as [->|]; [rewrite lookup_insert_eq; by eexists|].
      rewrite lookup_insert_ne by done. apply g_all0. lia.
    + intros k p1 H. destruct (g_entries0 k p1 H) as (? & ? & Hd). split_and!; try done; [lia..|].
      intros v Hin. destruct (Hd v Hin) as (j & bj & Hj & ?). exists j, bj. split; [|done].
      rewrite lookup_insert_ne; [done|]. intros E. rewrite E in HB. congruence.
    + intros k b1 p1 [[<- <-]|[_ ?]]%lookup_insert_Some Ha; [by rewrite HA in Ha|by eapply g_blocks0].
    + intros k b1 [[<- <-]|[_ ?]]%lookup_insert_Some Ha; [done|by eapply g_pending0].
    + by apply unique_new.
    + intros k b1 v [[<- <-]|[_ ?]]%lookup_insert_Some Hin; [by apply elem_of_nil in Hin|by eapply g_values0].
    + by apply unique_new.
    + intros k b1 v [[<- <-]|[_ ?]]%lookup_insert_Some Hin; [by apply elem_of_nil in Hin|by eapply g_used0].
    + done.
  - intros k s [[<- <-]|[Hne H]]%lookup_insert_Some; cbn [knows open_blocks current].
    + split_and!; [done|by rewrite lookup_insert_eq|done].
    + apply Hk in H. destruct s; cbn in *; rewrite ?lookup_insert_ne by done; done.
  - eapply context_mono; [done| |done]. by apply insert_subseteq.
Qed.

(** Give a pending block its entry point. *)
Lemma state_assign O S L c q st k r :
  state O S L c q st → O !! k = Some Pending → p_tests r = ∅ → p_values r ⊆ p_values q →
  state (<[k := Ready r]> O) S L c q st.
Proof.
  intros (A & b & p & [Hg Hk Hs Hl Hc] & Hb & Hopen & Hp & Hq & Hle) HO Ht Hv.
  destruct (Hk k _ HO) as (HA & HB & Hne). pose proof Hg as [].
  assert (A ⊆ <[k := r]> A) as Hsub by by apply insert_subseteq.
  exists (<[k := r]> A), b, p. rewrite lookup_insert_ne by done. split_and!; try done. split; try done.
  - split; try done.
    + intros j pj [[<- <-]|[_ H]]%lookup_insert_Some; [|by apply g_entries0]. apply g_ids0 in HB as [_ HB]. split_and!; try done; [lia..|].
      intros v Hin%Hv. subst q. apply end_point_values in Hin as [Hin|Hin]; [by eapply g_entries0|]. by exists (current st), b.
    + intros j bj pj Hj [[<- <-]|[_ H]]%lookup_insert_Some.
      * rewrite HB in Hj. injection Hj as <-. split; [done|]. intros ? [=].
      * destruct (g_blocks0 j bj pj Hj H) as [H1 H2]. split; [done|]. intros t Ht'. eapply terminator_ok_mono; [done|by apply H2].
    + intros j bj Hj [H _]%lookup_insert_None. by eapply g_pending0.
  - intros j s [[<- <-]|[Hj H]]%lookup_insert_Some; [unfold knows; by rewrite lookup_insert_eq|].
    apply Hk in H. destruct s; cbn in *; by rewrite lookup_insert_ne.
  - assert (∀ k' s' p', O !! k' = Some s' → entry s' = Some p' → k ≠ k') as Hother by (intros k' s' p' H1 H2 <-; by simplify_eq).
    destruct Hc as [H1 H2]. split; [done|]. intros k1 k2 Hin. destruct (H2 k1 k2 Hin) as [(s1 & p1 & E1 & ? & ?) (s2 & p2 & E2 & ? & ?)].
    split; [exists s1, p1|exists s2, p2]; (split; [rewrite lookup_insert_ne; [done|by eapply Hother]|done]).
Qed.

(** ** Edges *)

Definition entry_at (O : knowledge) (k : Z) (p : point) : Prop := ∃ s, O !! k = Some s ∧ entry s = Some p.

Lemma entry_at_weaken O O' k p : entry_at O k p → O ⊆ O' → entry_at O' k p.
Proof. intros (s & ? & ?) HO. exists s. split; [by eapply lookup_weaken|done]. Qed.

Lemma knows_entry A st k s p : knows A st k s → entry s = Some p → A !! k = Some p.
Proof. by destruct s; cbn; intros H [= <-]; destruct_and?. Qed.

(** End the current block. *)
Lemma wp_end t O S L c q st (Q : () → lowerer → Prop) :
  state O S L c q st → (∀ A, (∀ k p, entry_at O k p → A !! k = Some p) → terminator_ok A q t) →
  (∀ st', ended O S L c st' → Q () st') → wp (_terminate t) st Q.
Proof.
  intros (A & b & p & [Hg Hk Hs Hl Hc] & Hb & Hopen & Hp & -> & Hle) Ht HQ. unfold wp, _terminate.
  rewrite Hb, Hopen. apply HQ. exists A, (mk_mutable_block (block_id b) (block_instructions b) (Some t)), t.
  cbn [set_blocks open_blocks current block_instructions block_terminator]. rewrite lookup_insert_eq.
  split_and!; try done. split; try done.
  - apply (good_current A st b p _ []); try done; cbn [block_instructions block_terminator].
    + by rewrite app_nil_r.
    + destruct (g_blocks _ _ Hg _ _ _ Hb Hp) as [H1 _]. split; [done|]. cbn [block_terminator block_instructions].
      intros t' [= <-]. apply Ht. intros k p' (s & HO & He). eapply knows_entry; [by apply Hk|done].
    + apply (unique_same _ _ _ b); try done. apply Hg.
    + apply (unique_same _ _ _ b); try done. apply Hg.
    + by intros v ?%elem_of_nil.
    + by intros v ?%elem_of_nil.
  - intros k s Hks. eapply knows_update; [by apply Hk|done|]. intros j Hj. cbn. by rewrite lookup_insert_ne.
Qed.

Lemma wp_return v O S L c q st (Q : () → lowerer → Prop) :
  state O S L c q st → (∀ x, v = Some x → x ∈ p_values q) →
  (∀ st', ended O S L c st' → Q () st') → wp (_terminate (MirReturn v)) st Q.
Proof.
  intros Hst Hv HQ. eapply wp_end; [done| |done]. intros A _. split; [|done].
  destruct v; cbn; [|by intros ? ?%elem_of_nil]. intros x ->%list_elem_of_singleton. by apply Hv.
Qed.

Lemma wp_unreachable r O S L c q st (Q : () → lowerer → Prop) :
  state O S L c q st → (∀ st', ended O S L c st' → Q () st') → wp (_terminate (MirUnreachable r)) st Q.
Proof. intros Hst HQ. eapply wp_end; [done| |done]. intros A _. split; [|done]. by intros v ?%elem_of_nil. Qed.

Lemma wp_jump k r O S L c q st (Q : () → lowerer → Prop) :
  state O S L c q st → entry_at O k r → r ⊑ q →
  (∀ st', ended O S L c st' → Q () st') → wp (_terminate (MirJump k)) st Q.
Proof.
  intros Hst Hk Hr HQ. eapply wp_end; [done| |done]. intros A HA. split; [by intros v ?%elem_of_nil|].
  exists r. split; [by apply HA|done].
Qed.

Lemma wp_branch v k1 k2 r1 r2 O S L c q st (Q : () → lowerer → Prop) :
  state O S L c q st → v ∈ p_values q → entry_at O k1 r1 → r1 ⊑ taken v q → entry_at O k2 r2 → r2 ⊑ q →
  (∀ st', ended O S L c st' → Q () st') → wp (_terminate (MirBranch v k1 k2)) st Q.
Proof.
  intros Hst Hv Hk1 Hr1 Hk2 Hr2 HQ. eapply wp_end; [done| |done]. intros A HA.
  split; [by intros x ->%list_elem_of_singleton|]. split; [exists r1|exists r2]; (split; [by apply HA|done]).
Qed.

(** Go on with a block that has its entry point. *)
Lemma wp_set_current k r O S L c st (Q : () → lowerer → Prop) :
  left_behind O S L c st → O !! k = Some (Ready r) → c ⊑ r →
  (∀ st', state (<[k := Placed r]> O) S L c r st' → Q () st') → wp (set_current k) st Q.
Proof.
  intros Hst Hk Hr HQ. unfold wp, set_current, update. apply HQ.
  assert (∃ A, holds O S L c A st) as (A & [Hg Hkn Hs Hl Hc]) by (destruct Hst as [(A & ? & ? & H & _)|(? & A & ? & ? & H & _)]; by exists A).
  destruct (Hkn _ _ Hk) as (HA & HB & Hne). exists A, (mk_mutable_block k [] None), r. cbn [with_current open_blocks current].
  split_and!; try done. split; try done.
  - by destruct Hg; split.
  - intros j s [[<- <-]|[Hj H]]%lookup_insert_Some; [done|]. apply Hkn in H. destruct s; cbn in *; destruct_and?; try done.
  - assert (∀ j p, entry_at O j p → entry_at (<[k := Placed r]> O) j p) as Hkeep.
    { intros j p (s & HO & He). destruct (decide (j = k)) as [->|]; [|exists s; by rewrite lookup_insert_ne].
      rewrite Hk in HO. injection HO as <-. exists (Placed r). by rewrite lookup_insert_eq. }
    destruct Hc as [H1 H2]. split; [done|]. intros k1 k2 Hin. destruct (H2 k1 k2 Hin) as [(s1 & p1 & E1 & F1 & ?) (s2 & p2 & E2 & F2 & ?)].
    destruct (Hkeep k1 p1) as (s1' & ? & ?); [by exists s1|]. destruct (Hkeep k2 p2) as (s2' & ? & ?); [by exists s2|].
    split; [by exists s1', p1|by exists s2', p2].
Qed.

(** ** Names *)

Lemma str_int_inj a b : str_int a = str_int b → a = b.
Proof.
  assert (∀ x y, 0 <= x → 0 < y → str_nat x ≠ ch "-" :: str_nat y) as Hsign.
  { intros x y Hx Hy E. pose proof (str_nat_canonical x Hx) as [H _]. rewrite E in H. inversion_clear H as [|?? Hc]. done. }
  assert (∀ x y, 0 <= x → 0 <= y → str_nat x = str_nat y → x = y) as Hnat.
  { intros x y Hx Hy E. by rewrite <- (dec_value_str_nat x), <- (dec_value_str_nat y), E. }
  destruct (Z.ltb_spec a 0) as [Ha|Ha], (Z.ltb_spec b 0) as [Hb|Hb];
    rewrite ?(str_int_neg _ Ha), ?(str_int_neg _ Hb), ?(str_int_nonneg _ Ha), ?(str_int_nonneg _ Hb); intros E.
  - injection E as E. apply Hnat in E; lia.
  - symmetry in E. apply Hsign in E; [done|lia..].
  - apply Hsign in E; [done|lia..].
  - by apply Hnat.
Qed.

(** The allocator finds a name: distinct counters give distinct candidates. *)
Lemma fresh_name_spec candidate used : (∀ i j, candidate i = candidate j → i = j) → ∀ fuel n seen,
  seen ⊆ used → (∀ x, x ∈ seen → ∃ k, x = candidate k ∧ k < n) → (size used < fuel + size seen)%nat →
  ∃ k, fresh_name fuel candidate n used = Done (candidate k, k + 1) ∧ candidate k ∉ used.
Proof.
  intros Hinj. induction fuel as [|fuel IH]; intros n seen Hs Hseen Hf.
  - apply subseteq_size in Hs. lia.
  - cbn [fresh_name]. case_bool_decide as Hin; [|by exists n]. apply (IH (n + 1) ({[candidate n]} ∪ seen)).
    + set_solver.
    + intros x [->%elem_of_singleton|Hx]%elem_of_union; [by exists n; split; [|lia]|].
      destruct (Hseen x Hx) as (k & -> & ?). exists k. split; [done|lia].
    + rewrite size_union, size_singleton; [lia|]. intros x ->%elem_of_singleton (k & E & Hk)%Hseen.
      apply Hinj in E. lia.
Qed.

Lemma allocate_spec candidate st : (∀ i j, candidate i = candidate j → i = j) → ∃ k,
  allocate_name candidate st =
    Done (candidate k, with_names (k + 1) ({[candidate k]} ∪ used_binding_names st) st) ∧
  candidate k ∉ used_binding_names st.
Proof.
  intros Hinj. destruct (fresh_name_spec candidate (used_binding_names st) Hinj
    (name_fuel (used_binding_names st)) (next_binding st) ∅) as (k & E & Hk).
  - set_solver.
  - by intros x ?%elem_of_empty.
  - unfold name_fuel. lia.
  - exists k. unfold allocate_name. by rewrite E.
Qed.

Lemma new_binding_spec name st scope rest : lower_scopes st = scope :: rest → ∃ n k,
  _new_binding_name name st =
    Done (n, with_lower_scopes (<[name := n]> scope :: rest) (with_names k ({[n]} ∪ used_binding_names st) st)) ∧
  n ∉ used_binding_names st.
Proof.
  intros Hs. unfold _new_binding_name. rewrite bind_run. cbn [read]. rewrite bind_run.
  case_bool_decide as Hin.
  - exists name, (next_binding st). rewrite bind_run. cbn. rewrite bind_run. unfold bind_scope. cbn. by rewrite Hs.
  - destruct (allocate_spec (λ n, name ++ u "$mir" ++ str_int n) st) as (k & E & Hk).
    { intros i j E. by apply app_inv_head, app_inv_head, str_int_inj in E. }
    eexists _, _. rewrite E, bind_run. unfold bind_scope. cbn. rewrite Hs. split; [reflexivity|done].
Qed.

Lemma state_names O S L c q st k n :
  state O S L c q st → state O S L c q (with_names k ({[n]} ∪ used_binding_names st) st).
Proof.
  intros (A & b & p & [[] Hk Hs Hl Hc] & ?). exists A, b, p. split; [|done]. split; try done. split; try done.
  - intros j bj x Hj Hx. destruct (g_used0 j bj x Hj Hx). cbn. set_solver.
  - cbn. set_solver.
Qed.

Lemma ended_names O S L c st k n :
  ended O S L c st → ended O S L c (with_names k ({[n]} ∪ used_binding_names st) st).
Proof.
  intros (A & b & t & [[] Hk Hs Hl Hc] & ?). exists A, b, t. split; [|done]. split; try done. split; try done.
  - intros j bj x Hj Hx. destruct (g_used0 j bj x Hj Hx). cbn. set_solver.
  - cbn. set_solver.
Qed.

Lemma state_scopes S' c' O S L c q st :
  state O S L c q st → context_ok O S' L c' → c' ⊑ q → state O S' L c' q (with_lower_scopes S' st).
Proof.
  intros (A & b & p & [[] Hk Hs Hl Hc] & ? & ? & ? & ? & ?) Hc' Hle. exists A, b, p. split_and!; try done; split; try done; by split.
Qed.

Lemma ended_scopes S' c' O S L c st :
  ended O S L c st → context_ok O S' L c' → ended O S' L c' (with_lower_scopes S' st).
Proof.
  intros (A & b & t & [[] Hk Hs Hl Hc] & ? & ?) Hc'. exists A, b, t. split_and!; try done; split; try done; by split.
Qed.

Lemma state_loops L' c' O S L c q st :
  state O S L c q st → context_ok O S L' c' → c' ⊑ q → state O S L' c' q (with_loops L' st).
Proof.
  intros (A & b & p & [[] Hk Hs Hl Hc] & ? & ? & ? & ? & ?) Hc' Hle. exists A, b, p. split_and!; try done; split; try done; by split.
Qed.

Lemma ended_loops L' c' O S L c st :
  ended O S L c st → context_ok O S L' c' → ended O S L' c' (with_loops L' st).
Proof.
  intros (A & b & t & [[] Hk Hs Hl Hc] & ? & ?) Hc'. exists A, b, t. split_and!; try done; split; try done; by split.
Qed.

Lemma wp_internal_name purpose O S L c q st (Q : ustring → lowerer → Prop) :
  state O S L c q st →
  (∀ n st', _is_compiler_internal_binding n = true → state O S L c q st' → Q n st') →
  wp (_new_internal_binding_name purpose) st Q.
Proof.
  intros Hst HQ. unfold wp, _new_internal_binding_name.
  destruct (allocate_spec (λ n, u "$mir_" ++ purpose ++ u "_" ++ str_int n) st) as (k & -> & Hk).
  { intros i j E. rewrite !app_assoc in E. by apply app_inv_head, str_int_inj in E. }
  apply HQ; [reflexivity|]. by apply state_names.
Qed.

Lemma wp_internal_name_ended purpose O S L c st (Q : ustring → lowerer → Prop) :
  ended O S L c st →
  (∀ n st', _is_compiler_internal_binding n = true → ended O S L c st' → Q n st') →
  wp (_new_internal_binding_name purpose) st Q.
Proof.
  intros Hst HQ. unfold wp, _new_internal_binding_name.
  destruct (allocate_spec (λ n, u "$mir_" ++ purpose ++ u "_" ++ str_int n) st) as (k & -> & Hk).
  { intros i j E. rewrite !app_assoc in E. by apply app_inv_head, str_int_inj in E. }
  apply HQ; [reflexivity|]. by apply ended_names.
Qed.

Lemma emit_scopes i S st :
  _emit i (with_lower_scopes S st) =
    match _emit i st with Done (a, st') => Done (a, with_lower_scopes S st') | Raise e => Raise e | NoFuel => NoFuel end.
Proof. unfold _emit. cbn. destruct (open_blocks st !! current st) as [b|]; [|done]. by destruct (block_terminator b). Qed.

(** Bind a name of the source: it gets a MIR name of its own and enters the scope. *)
Lemma wp_bind_name name v m t l O scope rest L c q st (Q : () → lowerer → Prop) :
  state O (scope :: rest) L c q st → v ∈ p_values q →
  (∀ n q' st', q ⊑ q' → state O (<[name := n]> scope :: rest) L q' q' st' → Q () st') →
  wp (n ← _new_binding_name name; _emit (MirBind n v m t l)) st Q.
Proof.
  intros Hst Hv HQ. assert (lower_scopes st = scope :: rest) as Hs by (by destruct Hst as (A & b & p & [] & _)).
  destruct (new_binding_spec name st scope rest Hs) as (n & k & E & Hn). apply wp_bind. unfold wp at 1. rewrite E.
  set (i := MirBind n v m t l). assert (wp (_emit i) (with_names k ({[n]} ∪ used_binding_names st) st)
    (λ _ st', Q () (with_lower_scopes (<[name := n]> scope :: rest) st'))) as H.
  - eapply wp_emit; [by apply state_names| | |].
    + split; try done. by intros x ->%list_elem_of_singleton.
    + split; [by unfold i; intros ? [=]|]. intros n'. unfold i. cbn [user_binding]. destruct (_is_compiler_internal_binding n); [by intros [=]|]. intros [= <-].
      destruct Hst as (A & b & p & [[] _ _ _ _] & _). split_and!; [set_solver|set_solver|].
      intros j bj Hj Hin. by eapply Hn, g_used0.
    + intros st' H. eapply (HQ n (after q i)); [apply after_le|]. eapply state_scopes; [by eapply state_rebase| |done].
      pose proof (state_base _ _ _ _ _ _ H) as Hle.
      destruct (context_mono O O _ _ c (after q i) (state_context _ _ _ _ _ _ H) ltac:(reflexivity) Hle) as [H1 H2].
      split; [|done]. intros sc x y [->|Hsc]%elem_of_cons; [|eapply H1; by right].
      intros [[<- <-]|[_ Hx]]%lookup_insert_Some; [cbn; set_solver|by (eapply H1; [left|])].
  - unfold wp in *. rewrite emit_scopes. by destruct (_emit i _) as [[[] st']|e|].
Qed.

(** ** Derived rules *)

Lemma wp_new_ready r O S L c q st (Q : Z → lowerer → Prop) :
  state O S L c q st → p_tests r = ∅ → p_values r ⊆ p_values q →
  (∀ b st', O !! b = None → state (<[b := Ready r]> O) S L c q st' → Q b st') → wp _new_block st Q.
Proof.
  intros Hst Ht Hv HQ. eapply wp_new_block; [done|]. intros b st' Hb H. apply HQ; [done|].
  rewrite <- (insert_insert_eq O b (Ready r) Pending). by apply state_assign; [|rewrite lookup_insert_eq|..].
Qed.

Lemma wp_bind_internal n v m t l O S L c q st (Q : () → lowerer → Prop) :
  state O S L c q st → _is_compiler_internal_binding n = true → v ∈ p_values q →
  (∀ q' st', q ⊑ q' → n ∈ p_names q' → state O S L c q' st' → Q () st') → wp (_emit (MirBind n v m t l)) st Q.
Proof.
  intros Hst Hn Hv HQ. eapply wp_emit_quiet; [done| | |].
  - split; try done. by intros x ->%list_elem_of_singleton.
  - split; [done|]. cbn [user_binding]. by rewrite Hn.
  - intros q' st' -> Hle H. apply (HQ _ _ Hle); [|done]. cbn. set_solver.
Qed.

Lemma wp_store n v t l O S L c q st (Q : () → lowerer → Prop) :
  state O S L c q st → n ∈ p_names q ∨ n ∈ free → v ∈ p_values q →
  (∀ q' st', q ⊑ q' → state O S L c q' st' → Q () st') → wp (_emit (MirStore n v t l)) st Q.
Proof.
  intros Hst Hn Hv HQ. eapply wp_emit_quiet; [done| |done|].
  - split; try done. by intros x ->%list_elem_of_singleton.
  - intros q' st' _ Hle H. by apply (HQ _ _ Hle).
Qed.

Lemma with_name_le n p q : p ⊑ q → n ∈ p_names q → with_name n p ⊑ q.
Proof. intros [] ?. split; cbn; set_solver. Qed.

Lemma with_fact_le f p q : p ⊑ q → f ∈ p_facts q → with_fact f p ⊑ q.
Proof. intros [] ?. split; cbn; set_solver. Qed.

(** ** What lowering a part of the tree keeps *)

(** The names of [D] are in scope. *)
Definition covers (D : gset ustring) (S : list (gmap ustring ustring)) : Prop :=
  ∀ n, n ∈ D → ∃ scope, scope ∈ S ∧ is_Some (scope !! n).

(** An action that leaves a value. *)
Definition value_ok (D : gset ustring) (m : lower Z) : Prop := ∀ O S L c q st,
  covers D S → state O S L c q st →
  wp m st (λ v st', ∃ q', state O S L c q' st' ∧ q ⊑ q' ∧ v ∈ p_values q').

(** An action that leaves some values. *)
Definition values_ok (D : gset ustring) (m : lower (list Z)) : Prop := ∀ O S L c q st,
  covers D S → state O S L c q st →
  wp m st (λ vs st', ∃ q', state O S L c q' st' ∧ q ⊑ q' ∧ Forall (λ v, v ∈ p_values q') vs).

(** The value that a block may leave. *)
Definition option_value (v : option Z) (q : point) : Prop := ∀ x, v = Some x → x ∈ p_values q.

(** An action that may leave a value. *)
Definition maybe_ok (D : gset ustring) (m : lower (option Z)) : Prop := ∀ O S L c q st,
  covers D S → state O S L c q st →
  wp m st (λ v st', ∃ q', state O S L c q' st' ∧ q ⊑ q' ∧ option_value v q').

(** A block in value position: it may end the current block instead. *)
Definition option_ok (D : gset ustring) (m : lower (option Z)) : Prop := ∀ O S L c q st,
  covers D S → state O S L c q st →
  wp m st (λ v st', ended O S L c st' ∨ ∃ q', state O S L c q' st' ∧ q ⊑ q' ∧ option_value v q').

(** A block or a statement that declares nothing. *)
Definition unit_ok (D : gset ustring) (m : lower ()) : Prop := ∀ O S L c q st,
  covers D S → state O S L c q st →
  wp m st (λ _ st', ended O S L c st' ∨ ∃ q', state O S L c q' st' ∧ q ⊑ q').

(** An action under a scope of its own, after which the names of [D'] are in scope. *)
Definition body_from {A : Type} (p : point) (D D' : gset ustring) (P : A → point → Prop) (m : lower A) : Prop :=
  ∀ O scope rest L c q st, p ⊑ q → covers D (scope :: rest) → state O (scope :: rest) L c q st →
  wp m st (λ a st', ∃ scope' c', ended O (scope' :: rest) L c' st' ∨
    ∃ q', state O (scope' :: rest) L c' q' st' ∧ q ⊑ q' ∧ covers D' (scope' :: rest) ∧ P a q').

Definition body_ok {A : Type} (D D' : gset ustring) (P : A → point → Prop) (m : lower A) : Prop :=
  ∀ p, body_from p D D' P m.

Definition statement_ok (D D' : gset ustring) (m : lower ()) : Prop := body_ok D D' (λ _ _, True) m.

(** A block in value position where [p] holds. *)
Definition option_from (p : point) (D : gset ustring) (m : lower (option Z)) : Prop := ∀ O S L c q st,
  p ⊑ q → covers D S → state O S L c q st →
  wp m st (λ v st', ended O S L c st' ∨ ∃ q', state O S L c q' st' ∧ q ⊑ q' ∧ option_value v q').

(** A scope of its own is closed on every path. *)
Lemma scoped_at {A : Type} D (P : A → point → Prop) (m : lower A) O S L c q st :
  covers D S → state O S L c q st →
  (∀ st1, covers D (∅ :: S) → state O (∅ :: S) L c q st1 → wp m st1 (λ a st', ∃ scope' c',
     ended O (scope' :: S) L c' st' ∨ ∃ q', state O (scope' :: S) L c' q' st' ∧ q ⊑ q' ∧ P a q')) →
  wp (scoped m) st (λ a st', ended O S L c st' ∨ ∃ q', state O S L c q' st' ∧ q ⊑ q' ∧ P a q').
Proof.
  intros Hcov Hst Hm. pose proof (state_context _ _ _ _ _ _ Hst) as [Hc1 Hc2]. pose proof (state_base _ _ _ _ _ _ Hst) as Hle.
  assert (lower_scopes st = S) as HS by (by destruct Hst as (? & ? & ? & [] & _)).
  unfold scoped. apply wp_bind. unfold wp at 1, update. rewrite HS. apply wp_bind. eapply wp_mono.
  - apply Hm.
    + intros n (sc & ? & ?)%Hcov. exists sc. split; [by right|done].
    + eapply state_scopes; [done| |done]. split; [|done]. intros sc n x [->|?]%elem_of_cons; [done|by eapply Hc1].
  - cbn beta. intros a st1 (scope' & c' & Hend). apply wp_bind. unfold wp at 1, update. apply wp_ret.
    destruct Hend as [He|(q' & Hst' & Hq & HP)].
    + left. pose proof He as (? & ? & ? & [_ _ -> _ _] & _). by apply (ended_scopes S c) in He.
    + right. exists q'. split; [|done]. pose proof Hst' as (? & ? & ? & [_ _ -> _ _] & _).
      eapply state_scopes; [done|done|by etransitivity].
Qed.

Lemma scoped_ok {A : Type} p D D' P (m : lower A) O S L c q st :
  body_from p D D' P m → p ⊑ q → covers D S → state O S L c q st →
  wp (scoped m) st (λ a st', ended O S L c st' ∨ ∃ q', state O S L c q' st' ∧ q ⊑ q' ∧ P a q').
Proof.
  intros Hm Hp Hcov Hst. eapply scoped_at; [done..|]. intros st1 Hcov1 Hst1. eapply wp_mono; [by eapply Hm|]. cbn beta.
  intros a st2 (scope' & c' & [He|(q' & ? & ? & _ & ?)]); exists scope', c'; [by left|right; by exists q'].
Qed.

Lemma option_from_ok p D m : option_ok D m → option_from p D m.
Proof. intros H O S L c q st _. apply H. Qed.

(** A scope and the targets of a loop are separate stacks. *)
Lemma scoped_in_loop {A : Type} k1 k2 (m : lower A) st : scoped (in_loop k1 k2 m) st = in_loop k1 k2 (scoped m) st.
Proof.
  unfold scoped, in_loop. rewrite !bind_run. cbn [update]. rewrite !bind_run. cbn [update]. rewrite !bind_run.
  change (with_loops ((k1, k2) :: loop_targets (with_lower_scopes (∅ :: lower_scopes st) st)) (with_lower_scopes (∅ :: lower_scopes st) st))
    with (with_lower_scopes (∅ :: lower_scopes (with_loops ((k1, k2) :: loop_targets st) st)) (with_loops ((k1, k2) :: loop_targets st) st)).
  by destruct (m _) as [[a st']|e|].
Qed.

Lemma option_scoped_from p D D' m : body_from p D D' option_value m → option_from p D (scoped m).
Proof. intros Hm O S L c q st Hp Hcov Hst. by eapply (scoped_ok p). Qed.

Lemma option_scoped D D' m : body_ok D D' option_value m → option_ok D (scoped m).
Proof. intros Hm O S L c q st Hcov Hst. by eapply (scoped_ok q). Qed.

Lemma unit_scoped D D' m : statement_ok D D' m → unit_ok D (scoped m).
Proof.
  intros Hm O S L c q st Hcov Hst. eapply wp_mono; [by eapply (scoped_ok q)|]. cbn beta.
  intros _ st' [He|(q' & ? & ? & _)]; [by left|right; by exists q'].
Qed.

(** The targets of a loop are known blocks that ask for no more than the body has. *)
Lemma in_loop_ok p D k1 k2 p1 p2 m O S L c q st : option_from p D m → covers D S → state O S L c q st → p ⊑ q →
  entry_at O k1 p1 → p1 ⊑ q → entry_at O k2 p2 → p2 ⊑ q →
  wp (in_loop k1 k2 m) st (λ v st', ended O S L c st' ∨ ∃ q', state O S L c q' st' ∧ q ⊑ q' ∧ option_value v q').
Proof.
  intros Hm Hcov Hst Hp (s1 & ? & ?) Hp1 (s2 & ? & ?) Hp2. pose proof (state_context _ _ _ _ _ _ Hst) as Hctx.
  pose proof (state_base _ _ _ _ _ _ Hst) as Hle.
  destruct (context_mono O O S L c q Hctx ltac:(reflexivity) Hle) as [Hc1 Hc2].
  assert (loop_targets st = L) as HL by (by destruct Hst as (? & ? & ? & [] & _)).
  unfold in_loop. apply wp_bind. unfold wp at 1, update. rewrite HL. apply wp_bind. eapply wp_mono.
  - apply (Hm O S ((k1, k2) :: L) q q); [done..|]. eapply state_loops; [done| |done]. split; [done|].
    intros k3 k4 [[= -> ->]|?]%elem_of_cons; [|by apply Hc2]. split; [by exists s1, p1|by exists s2, p2].
  - cbn beta. intros a st1 Hend. apply wp_bind. unfold wp at 1, update. apply wp_ret.
    destruct Hend as [He|(q' & Hst' & Hq & HP)].
    + left. pose proof He as (? & ? & ? & [_ _ _ -> _] & _). by apply (ended_loops L c) in He.
    + right. exists q'. split; [|done]. pose proof Hst' as (? & ? & ? & [_ _ _ -> _] & _).
      eapply state_loops; [done|done|by etransitivity].
Qed.

(** The end of a branch: it jumps to the join unless it has ended. *)
Lemma jump_if_open_ok k r p O S L c st (Q : () → lowerer → Prop) :
  ended O S L c st ∨ (∃ q, state O S L c q st ∧ p ⊑ q) → entry_at O k r → r ⊑ p →
  (∀ st', ended O S L c st' → Q () st') → wp (jump_if_open k) st Q.
Proof.
  intros Hst Hk Hr HQ. unfold jump_if_open. apply wp_bind. destruct Hst as [He|(q & Hst & Hq)].
  - unfold wp at 1, terminated. pose proof He as (A & b & t & _ & -> & ->).
    rewrite bool_decide_eq_true_2 by (by eexists). apply wp_ret. by apply HQ.
  - unfold wp at 1, terminated. pose proof Hst as (A & b & t & _ & -> & -> & _).
    rewrite bool_decide_eq_false_2 by (by intros [? ?]). eapply wp_jump; [done..| |done]. by etransitivity.
Qed.

(** ** Automation *)

(** [p ⊑ q] along the chain of points in the context. *)
Ltac le :=
  lazymatch goal with
  | |- ?p ⊑ ?p => reflexivity
  | |- clean _ ⊑ _ => etransitivity; [apply clean_le|le]
  | |- with_name _ _ ⊑ with_name _ _ => apply with_name_le; [le|cbn; set_solver]
  | |- with_name _ _ ⊑ taken _ _ => etransitivity; [|apply taken_le]; le
  | |- with_name _ _ ⊑ ?q => apply with_name_le; [le|names]
  | |- _ ⊑ clean _ => etransitivity; [|apply le_clean]; le
  | |- _ ⊑ taken _ _ => etransitivity; [|apply taken_le]; le
  | |- _ ⊑ with_name _ _ => etransitivity; [|apply le_with_name]; le
  | |- _ ⊑ with_fact _ _ => etransitivity; [|apply le_with_fact]; le
  | |- ?p ⊑ ?q => match goal with H : ?r ⊑ q |- _ => first [exact H | transitivity r; [solve [le]|exact H]] end
  end
with names :=
  match goal with
  | |- ?n ∈ p_names (with_name ?n _) => cbn; apply elem_of_union_l, elem_of_singleton; reflexivity
  | H : ?n ∈ p_names ?p |- ?n ∈ p_names ?q => first [exact H | exact (names_mono p q n ltac:(le) H)]
  end.

(** A value that was defined at an earlier point. *)
Ltac val :=
  match goal with
  | H : ?v ∈ p_values ?p |- ?v ∈ p_values ?q => first [exact H | exact (values_mono p q v ltac:(le) H)]
  end.

Ltac vals :=
  match goal with
  | H : Forall (λ v, v ∈ p_values ?p) ?l |- Forall (λ v, v ∈ p_values ?q) ?l =>
      first [exact H | eapply Forall_impl; [exact H|]; intros ??; val]
  end.

(** The operands of an instruction. *)
Ltac operands :=
  apply Forall_forall; cbn [operands uses_of]; repeat first [vals | apply Forall_cons_2; [cbn beta; val|] | apply Forall_nil_2].

Ltac instr := split; [operands|reflexivity|first [exact I|left; names]|first [exact I|idtac]].

(** The entry of a block that a method has made. *)
Ltac known :=
  repeat (rewrite lookup_insert_ne by congruence); first [apply lookup_insert_eq|eassumption].

Ltac grown := repeat (apply insert_subseteq_r; [eassumption|]); reflexivity.
Ltac entry := first [eexists; split; [known|reflexivity]|eapply entry_at_weaken; [eassumption|grown]].

(** The steps of a method, each with its new state. *)
Ltac lowered H :=
  apply wp_bind; eapply wp_mono; [eapply H; eassumption|]; cbn beta; intros ?v ?st (?q & ?Hst & ?Hle & ?Hv).
Ltac defined :=
  apply wp_bind; eapply wp_define; [eassumption|reflexivity|reflexivity|intros ?; instr|intros ?v ?q ?st _ ?Hle ?Hv ?Hst].
Ltac ready r :=
  apply wp_bind; eapply (wp_new_ready r); [eassumption|reflexivity|first [done|cbn; intros ??; val]|];
  let b := fresh "b" in let H := fresh "Hb" in
  intros b ?st H ?Hst; repeat (apply lookup_insert_None in H as [H ?]).
Ltac pending :=
  apply wp_bind; eapply wp_new_block; [eassumption|];
  let b := fresh "b" in let H := fresh "Hb" in
  intros b ?st H ?Hst; repeat (apply lookup_insert_None in H as [H ?]).
Ltac assign b r :=
  match goal with
  | Hst : state _ _ _ _ _ ?st |- wp _ ?st _ =>
      eapply (state_assign _ _ _ _ _ _ b r) in Hst; [|known|reflexivity|first [done|cbn; intros ??; val]]
  end.
Ltac loop H :=
  apply wp_bind; eapply wp_mono; [eapply in_loop_ok; [apply H|eassumption|eassumption|le|entry|le|entry|le]|];
  cbn beta; intros ?v ?st ?Hend.
Ltac branch :=
  apply wp_bind; eapply wp_branch; [eassumption|val|entry|le|entry|le|]; intros ?st ?He.
Ltac jump := apply wp_bind; eapply wp_jump; [eassumption|entry|le|]; intros ?st ?He.
Ltac go b :=
  apply wp_bind; eapply (wp_set_current b);
    [first [left; eassumption|right; eexists; eassumption|eassumption]|known|le|]; intros ?st ?Hst.

(** A nested action that may end the block. *)
Ltac nested H :=
  apply wp_bind; eapply wp_mono; [eapply H; eassumption|]; cbn beta; intros ?v ?st ?Hend.
Ltac join :=
  apply wp_bind; eapply jump_if_open_ok; [eassumption|entry|le|]; intros ?st ?He.
(** The last [set_current] of a method. *)
Ltac goes b :=
  eapply (wp_set_current b);
    [first [left; eassumption|right; eexists; eassumption|eassumption]|known|le|]; intros ?st ?Hst.
(** Back to what the caller knows. *)
Ltac back :=
  first [eapply state_restore; [eassumption|grown|eassumption|le]|eapply ended_restore; [eassumption|grown|eassumption]].
Ltac start Hst :=
  pose proof (state_context _ _ _ _ _ _ Hst) as Hctx; pose proof (state_base _ _ _ _ _ _ Hst) as Hbase.

Section methods.
Context `{HU : Unicode} (typed_report : TypedHIRReport) (function : nat).

Lemma lower_if_ok D condition then_branch else_branch l :
  value_ok D condition → unit_ok D then_branch → unit_ok D else_branch →
  unit_ok D (_lower_if condition then_branch else_branch l).
Proof.
  intros Hc Ht He O S L c q st Hcov Hst. start Hst. unfold _lower_if, is_runtime_error.
  lowered Hc. defined.
  ready (clean q1). ready (clean q1). ready (clean q1). ready (clean q1). ready (clean q1).
  branch. go b. jump. go b0. branch. go b1. nested Ht. join. go b2. nested He. join. goes b3.
  right. eexists. split; [back|le].
Qed.

(** Saving the value of a loop body, from [p] on. *)
Definition save_ok (p : point) (save : Z → lower ()) : Prop := ∀ x O S L c q st,
  state O S L c q st → p ⊑ q → x ∈ p_values q → wp (save x) st (λ _ st', ∃ q', state O S L c q' st' ∧ q ⊑ q').

Lemma no_save_ok p : save_ok p no_save.
Proof. intros x O S L c q st Hst _ _. apply wp_ret. by exists q. Qed.

Lemma store_ok p n t l : n ∈ p_names p → save_ok p (λ v, _emit (MirStore n v t l)).
Proof.
  intros Hn x O S L c q st Hst Hp Hx. eapply wp_store; [done|left; by eapply names_mono|done|].
  intros q' st' Hle Hst'. by exists q'.
Qed.

Lemma finish_loop_body_ok v save p k1 k2 p1 p2 l O S L c q st (Q : () → lowerer → Prop) :
  ended O S L c st ∨ (∃ q', state O S L c q' st ∧ q ⊑ q' ∧ option_value v q') → save_ok p save → p ⊑ q →
  entry_at O k1 p1 → p1 ⊑ q → entry_at O k2 p2 → p2 ⊑ q →
  (∀ st', left_behind O S L c st' → Q () st') → wp (finish_loop_body v save k1 k2 l) st Q.
Proof.
  intros Hst Hsave Hp Hk1 Hp1 Hk2 Hp2 HQ. unfold finish_loop_body. apply wp_bind. destruct Hst as [He|(q0 & Hst & Hq & Hv)].
  - unfold wp at 1, terminated. pose proof He as (A & b & t & _ & -> & ->). rewrite bool_decide_eq_true_2 by (by eexists).
    destruct v; apply wp_ret, HQ; by left.
  - unfold wp at 1, terminated. pose proof Hst as (A & b & t & _ & -> & -> & _).
    rewrite bool_decide_eq_false_2 by (by intros [? ?]). destruct v as [x|]; [|apply wp_ret, HQ; right; by exists q0].
    specialize (Hv x eq_refl). start Hst. apply wp_bind. eapply wp_mono; [eapply Hsave; [done|le|done]|]. cbn beta.
    intros _ st1 (q1 & Hst1 & Hle1). unfold is_runtime_error. defined. ready (clean q2). ready (clean q2). branch.
    go b0. jump. go b1.
    eapply wp_jump; [eassumption|entry|le|]. intros st8 He8. apply HQ. left. back.
Qed.

Lemma lower_while_ok D supported condition body l : value_ok D condition → option_ok D body →
  unit_ok D (_lower_while supported condition body l).
Proof.
  intros Hc Hb O S L c q st Hcov Hst. start Hst. unfold _lower_while, is_runtime_error. destruct (negb supported).
  { unfold statement_fallback. eapply wp_emit_quiet; [eassumption|instr|done|]. intros. right. by eexists. }
  ready (clean q). pending. pending. pending. ready (clean q). jump. go b. lowered Hc. defined.
  assign b0 (clean q1). assign b1 (clean q1). assign b2 (clean q1). branch. go b0. jump. go b1. branch. go b2. loop (option_from_ok q1 _ _ Hb).
  apply wp_bind. eapply finish_loop_body_ok; [eassumption|apply no_save_ok|le|entry|le|entry|le|]. intros ?st Hleft.
  goes b3. right. eexists. split; [back|le].
Qed.

Lemma bind_item_ok variable v t l O scope rest L c q st (Q : () → lowerer → Prop) :
  state O (scope :: rest) L c q st → v ∈ p_values q →
  (∀ n q' st', q ⊑ q' → state O (<[variable := n]> scope :: rest) L q' q' st' → Q () st') →
  wp (bind_item variable v t l) st Q.
Proof.
  intros Hst Hv HQ. unfold bind_item. defined. eapply wp_bind_name; [eassumption|val|]. intros n q1 st1 Hle1 Hst1.
  eapply HQ; [|eassumption]. le.
Qed.

Lemma covers_insert D n x scope rest : covers D (scope :: rest) → covers ({[n]} ∪ D) (<[n := x]> scope :: rest).
Proof.
  intros H m [->%elem_of_singleton|Hm]%elem_of_union.
  - exists (<[n := x]> scope). split; [left|]. rewrite lookup_insert_eq. by eexists.
  - destruct (H m Hm) as (sc & [->|Hsc]%elem_of_cons & Hx); [|exists sc; split; [by right|done]].
    exists (<[n := x]> scope). split; [left|]. apply lookup_insert_is_Some'. by right.
Qed.

(** Only the iterator is needed by the head of a [for] body. *)
Definition only_value (v : Z) : point := mk_point {[v]} ∅ ∅ ∅.

Lemma for_body_ok D variable iterator t l m : option_ok ({[variable]} ∪ D) m →
  body_from (only_value iterator) D ({[variable]} ∪ D) option_value (_ ← bind_item variable iterator t l; m).
Proof.
  intros Hm O scope rest L c q st Hit Hcov Hst. apply wp_bind. eapply bind_item_ok; [done| |].
  { eapply values_mono; [done|]. cbn. set_solver. }
  intros n q1 st1 Hle1 Hst1. apply (covers_insert _ variable n) in Hcov. eapply wp_mono; [by eapply Hm|].
  cbn beta. intros v st2 Hend. exists (<[variable := n]> scope), q1.
  destruct Hend as [He|(q2 & Hst2 & Hle2 & Hv2)]; [by left|right]. exists q2. split; [done|]. split; [le|done].
Qed.

Lemma only_value_le v q : v ∈ p_values q → only_value v ⊑ q.
Proof. split; cbn; set_solver. Qed.

(** An action that neither leaves the block nor gives a value, where [p] holds. *)
Definition keeps (p : point) (m : lower ()) : Prop := ∀ O S L c q st,
  p ⊑ q → state O S L c q st → wp m st (λ _ st', ∃ q', state O S L c q' st' ∧ q ⊑ q').

Lemma for_blocks_ok D i failed save variable t body l O S L c q st (Q : () → lowerer → Prop) :
  covers D S → state O S L c q st → i ∈ p_values q → keeps q failed → save_ok q save → option_ok ({[variable]} ∪ D) body →
  (∀ q' st', q ⊑ q' → state O S L c q' st' → Q () st') → wp (for_blocks i failed save variable t body l) st Q.
Proof.
  intros Hcov Hst Hi Hfailed Hsave Hbody HQ. start Hst. unfold for_blocks, is_runtime_error. defined.
  ready (clean q0). ready (clean q0). pending. pending. ready (clean q0). branch. go b.
  apply wp_bind. eapply wp_mono; [eapply Hfailed; [|eassumption]; le|]. cbn beta. intros _ ?st (q1 & Hstf & Hlef). jump.
  go b0. defined. assign b1 (clean q2). jump. go b1. defined. assign b2 (clean q3). branch. go b2.
  apply wp_bind. unfold wp at 1. rewrite scoped_in_loop.
  pose proof (option_scoped_from _ _ _ _ (for_body_ok D variable v0 t l body Hbody)) as Hloop.
  eapply wp_mono; [eapply in_loop_ok; [exact Hloop|eassumption|eassumption|apply only_value_le; val|entry|le|entry|le]|].
  cbn beta. intros bv ?st Hend.
  apply wp_bind. eapply finish_loop_body_ok; [eassumption|exact Hsave|le|entry|le|entry|le|]. intros ?st Hleft.
  goes b3. eapply (HQ (clean q0)); [le|back].
Qed.

Lemma lower_for_ok D supported it iterable variable body l : value_ok D iterable → option_ok ({[variable]} ∪ D) body →
  unit_ok D (_lower_for supported it iterable variable body l).
Proof.
  intros Hi Hb O S L c q st Hcov Hst. unfold _lower_for.
  destruct (iterable_success_item_type it); [destruct (negb supported)|].
  - eapply wp_emit_quiet; [eassumption|instr|done|]. intros. right. by eexists.
  - lowered Hi. eapply for_blocks_ok; [done|eassumption|done|..|exact Hb|].
    + intros O' S' L' c' q' st' _ Hst'. apply wp_ret. by exists q'.
    + apply no_save_ok.
    + intros q' st' Hle' Hst'. right. exists q'. split; [done|le].
  - eapply wp_emit_quiet; [eassumption|instr|done|]. intros. right. by eexists.
Qed.

Lemma bind_result_ok n v t k r p l O S L c st (Q : () → lowerer → Prop) :
  ended O S L c st ∨ (∃ q, state O S L c q st ∧ p ⊑ q ∧ option_value v q) → _is_compiler_internal_binding n = true →
  entry_at O k (with_name n r) → r ⊑ p →
  (∀ st', left_behind O S L c st' → Q () st') → wp (bind_result n v t k l) st Q.
Proof.
  intros Hst Hn Hk Hr HQ. unfold bind_result. apply wp_bind. destruct Hst as [He|(q & Hst & Hq & Hv)].
  - unfold wp at 1, terminated. pose proof He as (A & b & t' & _ & -> & ->). rewrite bool_decide_eq_true_2 by (by eexists).
    destruct v; apply wp_ret, HQ; by left.
  - unfold wp at 1, terminated. pose proof Hst as (A & b & t' & _ & -> & -> & _).
    rewrite bool_decide_eq_false_2 by (by intros [? ?]). destruct v as [x|]; [|apply wp_ret, HQ; right; by exists q].
    specialize (Hv x eq_refl). apply wp_bind. eapply wp_bind_internal; [done..|]. intros q' st' Hle Hn' Hst'.
    eapply wp_jump; [done..| |]; [apply with_name_le; [le|done]|]. intros st'' He. apply HQ. by left.
Qed.

Lemma load_result_ok n t l O S L c q st (Q : Z → lowerer → Prop) :
  state O S L c q st → n ∈ p_names q →
  (∀ v q' st', q ⊑ q' → v ∈ p_values q' → state O S L c q' st' → Q v st') → wp (load_result n t l) st Q.
Proof.
  intros Hst Hn HQ. eapply wp_define; [done|reflexivity|reflexivity|intros ?; instr|].
  intros v q' st' _ Hle Hv Hst'. by eapply HQ.
Qed.

Lemma with_name_in n q : n ∈ p_names (with_name n q).
Proof. cbn. set_solver. Qed.

Ltac internal :=
  apply wp_bind; eapply wp_internal_name; [eassumption|]; intros ?n ?st ?Hn ?Hst.
Ltac bound :=
  apply wp_bind; eapply wp_bind_internal; [eassumption|eassumption|val|]; intros ?q ?st ?Hle ?Hnq ?Hst.
Ltac stored :=
  apply wp_bind; eapply wp_store; [eassumption|left; names|val|]; intros ?q ?st ?Hle ?Hst.
Ltac result :=
  apply wp_bind; eapply bind_result_ok; [eassumption|eassumption|entry|le|]; intros ?st ?Hend.
Ltac loaded :=
  eapply load_result_ok; [eassumption|names|]; intros ?v ?q ?st ?Hle ?Hv ?Hst.

Lemma lower_value_if_ok D condition then_branch else_branch t l :
  value_ok D condition → option_ok D then_branch → option_ok D else_branch →
  value_ok D (_lower_value_if condition then_branch else_branch t l).
Proof.
  intros Hc Ht He O S L c q st Hcov Hst. start Hst. unfold _lower_value_if, is_runtime_error.
  lowered Hc. defined. ready (clean q1). ready (clean q1). ready (clean q1). ready (clean q1). pending. internal.
  assign b3 (with_name n (clean q1)). branch. go b. bound. jump. go b0. branch. go b1. nested Ht. result.
  go b2. nested He. result. go b3. loaded. eexists. split; [back|]. split; [le|done].
Qed.

Lemma lower_value_while_ok D condition body t l : value_ok D condition → option_ok D body →
  value_ok D (_lower_value_while condition body t l).
Proof.
  intros Hc Hb O S L c q st Hcov Hst. start Hst. unfold _lower_value_while, is_runtime_error, _emit_unit. defined.
  internal. bound. ready (clean q1). pending. pending. pending. ready (clean q1). jump. go b. lowered Hc. defined.
  assign b0 (clean q3). assign b1 (clean q3). assign b2 (clean q3). branch. go b0. stored. jump. go b1. branch. go b2.
  loop (option_from_ok q3 _ _ Hb).
  apply wp_bind. eapply finish_loop_body_ok; [eassumption|by eapply (store_ok q1)|le|entry|le|entry|le|]. intros ?st Hleft.
  go b3. loaded. eexists. split; [back|]. split; [le|done].
Qed.

Lemma lower_value_for_ok D it iterable variable body t l : value_ok D iterable → option_ok ({[variable]} ∪ D) body →
  value_ok D (_lower_value_for it iterable variable body t l).
Proof.
  intros Hi Hb O S L c q st Hcov Hst. unfold _lower_value_for. destruct (iterable_success_item_type it); [|done].
  unfold _emit_unit. defined. internal. bound. lowered Hi. apply wp_bind.
  eapply for_blocks_ok; [done|eassumption|done|..|exact Hb|].
  - intros O' S' L' c' q' st' Hle' Hst'. eapply store_ok; [|done|reflexivity|val]. names.
  - apply store_ok. names.
  - intros q' st' Hle' Hst'. loaded. eexists. split; [eassumption|]. split; [le|done].
Qed.

(** ** Lists of parts *)

Lemma sequence_ok D l : Forall (value_ok D) l → values_ok D (sequence l).
Proof.
  induction 1 as [|m l Hm Hl IH]; intros O S L c q st Hcov Hst; cbn [sequence].
  - apply wp_ret. exists q. split; [done|]. split; [done|constructor].
  - lowered Hm. apply wp_bind. eapply wp_mono; [by eapply IH|]. cbn beta. intros vs ?st (q1 & Hst1 & Hle1 & Hvs).
    apply wp_ret. exists q1. split; [done|]. split; [le|]. constructor; [val|done].
Qed.

Lemma define_ok D i O S L c q st : (∀ t, target_of (i t) = Some t) → (∀ t, user_binding (i t) = None) →
  (∀ t, instr_ok q (i t)) → covers D S → state O S L c q st →
  wp (define i) st (λ v st', ∃ q', state O S L c q' st' ∧ q ⊑ q' ∧ v ∈ p_values q').
Proof. intros. eapply wp_define; [done..|]. intros t q' st' _ ? ? ?. by exists q'. Qed.

(** A value defined from what is there. *)
Ltac finish :=
  eapply wp_define; [eassumption|reflexivity|reflexivity|intros ?; instr|intros ?v ?q ?st _ ?Hle ?Hv ?Hst];
  eexists; split; [eassumption|split; [le|done]].

Lemma some_of_value D m : value_ok D m → maybe_ok D (v ← m; mret (Some v)).
Proof.
  intros Hm O S L c q st Hcov Hst. lowered Hm. apply wp_ret. exists q0. split; [done|]. split; [done|]. by intros x [= <-].
Qed.

Lemma or_try_ok D first second : maybe_ok D first → value_ok D second → value_ok D (or_try first second).
Proof.
  intros H1 H2 O S L c q st Hcov Hst. unfold or_try. apply wp_bind. eapply wp_mono; [by eapply H1|]. cbn beta.
  intros [v|] st1 (q1 & Hst1 & Hle & Hv).
  - apply wp_ret. exists q1. split; [done|]. split; [done|]. by apply Hv.
  - eapply wp_mono; [by eapply H2|]. cbn beta. intros v ?st (q2 & Hst2 & Hle2 & Hv2). exists q2. split; [done|]. split; [le|done].
Qed.

Lemma maybe_none D : maybe_ok D (mret None).
Proof. intros O S L c q st _ Hst. apply wp_ret. exists q. split; [done|]. split; [done|]. by intros x. Qed.

Lemma fallback_ok p kind l D : value_ok D (expression_fallback typed_report function p kind l).
Proof. intros O S L c q st Hcov Hst. unfold expression_fallback. finish. Qed.

Lemma emit_construct_ok p variant source l D O S L c q st :
  covers D S → state O S L c q st → (∀ x, source = Some x → x ∈ p_values q) →
  wp (_emit_construct typed_report function p variant source l) st
    (λ v st', ∃ q', state O S L c q' st' ∧ q ⊑ q' ∧ option_value v q').
Proof.
  intros Hcov Hst Hs. unfold _emit_construct. destruct (_owner_from_checked_type _) as [owner|]; [|by eapply (maybe_none D)].
  destruct (_ || _); [by eapply (maybe_none D)|].
  apply wp_bind. eapply wp_define; [eassumption|reflexivity|reflexivity| |].
  - intros t. split; try done. cbn. destruct source; [|by intros v ?%elem_of_nil]. intros v ->%list_elem_of_singleton. by apply Hs.
  - intros t q' st' _ Hle Hv Hst'. apply wp_ret. exists q'. split; [done|]. split; [done|]. by intros x [= <-].
Qed.

Lemma variant_constructor_ok p callee arguments l D : Forall (value_ok D) arguments →
  maybe_ok D (lower_variant_constructor_v1 typed_report function p callee arguments l).
Proof.
  intros Ha O S L c q st Hcov Hst. unfold lower_variant_constructor_v1. destruct callee; try by eapply (maybe_none D).
  destruct (negb (visible_variant _)); [by eapply (maybe_none D)|]. destruct (negb _); [by apply wp_fail|].
  destruct (1 <? _); [by apply wp_fail|]. apply wp_bind. destruct Ha as [|m ms Hm _].
  - apply wp_ret. by eapply (emit_construct_ok _ _ _ _ D).
  - lowered Hm. apply wp_ret. eapply wp_mono; [eapply (emit_construct_ok _ _ _ _ D); [done..|]; by intros x [= <-]|].
    cbn beta. intros v' ?st (q1 & Hst1 & Hle1 & Hv1). exists q1. split; [done|]. split; [le|done].
Qed.

Lemma payload_free_ok p variant l D : maybe_ok D (lower_payload_free_variant_v1 typed_report function p variant l).
Proof.
  intros O S L c q st Hcov Hst. unfold lower_payload_free_variant_v1. destruct (negb _); [by eapply (maybe_none D)|].
  by eapply (emit_construct_ok _ _ _ _ D).
Qed.

(** ** Names *)

(** A name of the source is bound, or it is free. *)
Lemma resolve_ok name D O S L c q st (Q : option ustring → lowerer → Prop) :
  covers D S → state O S L c q st → name ∈ D ∨ name ∈ free →
  (∀ r, default name r ∈ p_names q ∨ default name r ∈ free → Q r st) → wp (_resolve_binding_name name) st Q.
Proof.
  intros Hcov Hst Hname HQ. unfold wp, _resolve_binding_name, read. apply HQ.
  pose proof (state_context _ _ _ _ _ _ Hst) as [Hc _]. pose proof (state_base _ _ _ _ _ _ Hst) as Hle.
  assert (lower_scopes st = S) as -> by (by destruct Hst as (? & ? & ? & [] & _)).
  assert ((∃ x scope, foldr (λ (scope : gmap ustring ustring) rest,
      match scope !! name with Some n => Some n | None => rest end) None S = Some x ∧ scope ∈ S ∧ scope !! name = Some x) ∨
    (foldr (λ (scope : gmap ustring ustring) rest, match scope !! name with Some n => Some n | None => rest end) None S = None ∧
     ∀ scope, scope ∈ S → scope !! name = None)) as [(x & scope & -> & Hs & Hx)|[-> Hnone]].
  { clear. induction S as [|h S IH]; cbn [foldr]; [right; split; [done|by intros ? ?%elem_of_nil]|].
    destruct (h !! name) as [x|] eqn:E; [left; exists x, h; split_and!; [done|left|done]|].
    destruct IH as [(x & sc & ? & ? & ?)|[? Hn]]; [left; exists x, sc; split_and!; [done|by right|done]|right].
    split; [done|]. intros sc [->|?]%elem_of_cons; [done|by apply Hn]. }
  - left. cbn. by eapply names_mono, Hc.
  - right. cbn. destruct Hname as [HD|]; [|done]. destruct (Hcov name HD) as (sc & Hsc & v & Hv). by rewrite Hnone in Hv.
Qed.

Lemma lower_identifier_ok p name l D : name ∈ D ∨ name ∈ free →
  value_ok D (lower_identifier typed_report function p name l).
Proof.
  intros Hname. apply or_try_ok; [apply payload_free_ok|]. intros O S L c q st Hcov Hst. apply wp_bind.
  eapply resolve_ok; [done..|]. intros r Hr. eapply (define_ok D); try done. intros t. split; try done. by intros v ?%elem_of_nil.
Qed.

Lemma lower_assignment_ok p name value l D : name ∈ D ∨ name ∈ free → value_ok D value →
  value_ok D (lower_assignment typed_report function p name value l).
Proof.
  intros Hname Hv O S L c q st Hcov Hst. unfold lower_assignment. lowered Hv. apply wp_bind.
  eapply (resolve_ok name D); [done..|]. intros r Hr. apply wp_bind. eapply wp_store; [done..|]. intros q' st' Hle' Hst'.
  apply wp_ret. exists q'. split; [done|]. split; [le|val].
Qed.

(** ** Operators and calls *)

Lemma lower_field_assignment_ok p object field value l D : value_ok D object → value_ok D value →
  value_ok D (lower_field_assignment typed_report function p object field value l).
Proof. intros Ho Hv O S L c q st Hcov Hst. unfold lower_field_assignment. lowered Ho. lowered Hv. finish. Qed.

Lemma lower_unary_ok p operator operand l D : value_ok D operand →
  value_ok D (lower_unary typed_report function p operator operand l).
Proof. intros Ho O S L c q st Hcov Hst. unfold lower_unary. lowered Ho. finish. Qed.

Lemma lower_binary_ok p operator left right l D : value_ok D left → value_ok D right →
  value_ok D (lower_binary typed_report function p operator left right l).
Proof. intros Hx Hy O S L c q st Hcov Hst. unfold lower_binary. lowered Hx. lowered Hy. finish. Qed.

Lemma lower_member_ok p object member l D : value_ok D object →
  value_ok D (lower_member typed_report function p object member l).
Proof. intros Ho O S L c q st Hcov Hst. unfold lower_member. lowered Ho. finish. Qed.

Ltac sequenced H :=
  apply wp_bind; eapply wp_mono; [eapply (sequence_ok _ _ H); eassumption|]; cbn beta; intros ?vs ?st (?q & ?Hst & ?Hle & ?Hvs).

Lemma lower_list_ok p items l D : Forall (value_ok D) items → value_ok D (lower_list typed_report function p items l).
Proof.
  intros Hi O S L c q st Hcov Hst. unfold lower_list. destruct (_list_item_type _); [|by eapply fallback_ok].
  sequenced Hi. finish.
Qed.

Lemma lower_interpolation_ok p parts l D : Forall (value_ok D) parts →
  value_ok D (lower_interpolation typed_report function p parts l).
Proof. intros Hi O S L c q st Hcov Hst. unfold lower_interpolation. sequenced Hi. finish. Qed.

Lemma capability_call_ok p object arguments l D :
  (∀ m, object = Some m → value_ok D m) → Forall (value_ok D) arguments →
  maybe_ok D (_lower_capability_call typed_report function p object arguments l).
Proof.
  intros Ho Ha O S L c q st Hcov Hst. unfold _lower_capability_call. destruct object as [m|]; [|by eapply (maybe_none D)].
  destruct (capability_call_resolution_of _ _); [|by eapply (maybe_none D)]. specialize (Ho m eq_refl).
  lowered Ho. sequenced Ha. defined. apply wp_ret. eexists. split; [eassumption|]. split; [le|]. by intros x [= <-].
Qed.

Lemma map_instruction_ok method receiver arguments t l i q :
  map_instruction method receiver arguments t l = Done i → receiver ∈ p_values q → Forall (λ v, v ∈ p_values q) arguments →
  (∀ v, target_of (i v) = Some v) ∧ (∀ v, user_binding (i v) = None) ∧ ∀ v, instr_ok q (i v).
Proof.
  unfold map_instruction. intros Hi Hr Ha.
  repeat case_bool_decide; repeat (destruct arguments as [|? arguments]; try done); injection Hi as <-;
    decompose_Forall_hyps; (split; [done|split; [done|intros v; instr]]).
Qed.

Lemma map_instruction_error method receiver arguments t l :
  match map_instruction method receiver arguments t l with Done _ => True | Raise e => expected e = true | NoFuel => False end.
Proof. unfold map_instruction. by repeat case_match; simplify_eq. Qed.

Lemma map_method_ok p object arguments l D :
  (∀ m, object = Some m → value_ok D m) → Forall (value_ok D) arguments →
  maybe_ok D (_lower_map_method_call typed_report function p object arguments l).
Proof.
  intros Ho Ha O S L c q st Hcov Hst. unfold _lower_map_method_call. destruct object as [m|]; [|by eapply (maybe_none D)].
  destruct (map_method_resolution_of _ _) as [r|]; [|by eapply (maybe_none D)]. specialize (Ho m eq_refl).
  lowered Ho. sequenced Ha. destruct (map_instruction _ _ _ _ _) as [i|e|] eqn:Ei.
  - destruct (map_instruction_ok _ _ _ _ _ _ q1 Ei) as (H1 & H2 & H3); [val|done|].
    apply wp_bind. eapply wp_define; [done..|]. intros t q' st' _ Hle' Hv' Hst'. apply wp_ret. exists q'.
    split; [done|]. split; [le|]. by intros x [= <-].
  - apply wp_fail. pose proof (map_instruction_error (map_method r) v vs (_type_of typed_report function p) l) as He.
    by rewrite Ei in He.
  - pose proof (map_instruction_error (map_method r) v vs (_type_of typed_report function p) l) as He. by rewrite Ei in He.
Qed.

Lemma lower_call_ok p callee callee_value object arguments l D :
  value_ok D callee_value → (∀ m, object = Some m → value_ok D m) → Forall (value_ok D) arguments →
  value_ok D (lower_call typed_report function p callee callee_value object arguments l).
Proof.
  intros Hc Ho Ha. apply or_try_ok; [by apply variant_constructor_ok|]. apply or_try_ok; [by apply capability_call_ok|].
  apply or_try_ok; [by apply map_method_ok|]. intros O S L c q st Hcov Hst. lowered Hc. sequenced Ha. finish.
Qed.

Lemma short_circuit_ok p operator left right l D : value_ok D left → value_ok D right →
  value_ok D (_lower_short_circuit typed_report function p operator left right l).
Proof.
  intros Hx Hy O S L c q st Hcov Hst. start Hst. unfold _lower_short_circuit, is_runtime_error.
  lowered Hx. internal. bound. defined. ready (clean q2). ready (clean q2). ready (clean q2). ready (clean q2). branch.
  go b. apply wp_bind.
  destruct (bool_decide _); (eapply wp_branch; [eassumption|val|entry|le|entry|le|]; intros ?st ?He;
    go b0; lowered Hy; stored; jump; go b1; jump; go b2; loaded; eexists; split; [back|split; [le|done]]).
Qed.

(** ** Builders *)

(** What the parts of a literal rely on: the result name, the builder and the join. *)
Definition literal_at (n : ustring) (builder k : Z) (r : point) (O : knowledge) (q : point) : Prop :=
  n ∈ p_names q ∧ builder ∈ p_values q ∧ O !! k = Some (Ready r) ∧ r ⊑ q.

Lemma literal_mono n builder k r O q q' : q ⊑ q' → literal_at n builder k r O q → literal_at n builder k r O q'.
Proof. intros Hq (? & ? & ? & ?). split_and!; [names|val|done|le]. Qed.

Lemma lower_part_ok D value loc n t builder k r O S L c q st : value_ok D value → covers D S →
  state O S L c q st → literal_at n builder k r O q →
  wp (lower_part value loc n t k) st (λ v st', ∃ q', state O S L c q' st' ∧ q ⊑ q' ∧ v ∈ p_values q').
Proof.
  intros Hv Hcov Hst (Hn & Hbu & Hk & Hr). start Hst. unfold lower_part. lowered Hv. apply wp_bind.
  unfold _store_error_or_continue, is_runtime_error. defined. ready (clean q1). ready (clean q1). branch.
  go b. stored. jump. goes b0. apply wp_ret. exists (clean q1). split; [back|]. split; [le|val].
Qed.

Definition entry_ok (D : gset ustring) (e : located * located) : Prop := value_ok D e.1.1 ∧ value_ok D e.2.1.

Lemma lower_entries_ok D builder n t k r l entries O S L c q st (Q : () → lowerer → Prop) :
  Forall (entry_ok D) entries → covers D S → state O S L c q st → literal_at n builder k r O q →
  (∀ q' st', q ⊑ q' → state O S L c q' st' → Q () st') → wp (lower_entries builder n t k l entries) st Q.
Proof.
  intros He Hcov Hst Hl HQ. revert q st Hst Hl HQ. induction He as [|[[k1 l1] [v1 l2]] entries [Hk1 Hv1] He IH];
    intros q st Hst Hl HQ; cbn [lower_entries fst snd] in *.
  - apply wp_ret. by eapply HQ.
  - apply wp_bind. eapply wp_mono; [by eapply lower_part_ok|]. cbn beta. intros kv st1 (q1 & Hst1 & Hle1 & Hkv).
    apply (literal_mono _ _ _ _ _ _ _ Hle1) in Hl.
    apply wp_bind. eapply wp_mono; [by eapply (lower_part_ok D v1)|]. cbn beta. intros vv st2 (q2 & Hst2 & Hle2 & Hvv).
    apply (literal_mono _ _ _ _ _ _ _ Hle2) in Hl. destruct Hl as (? & Hbu & ? & ?).
    apply wp_bind. eapply wp_emit_quiet; [eassumption|instr|done|]. intros q3 st3 _ Hle3 Hst3.
    eapply (IH q3); [done|split_and!; [names|val|done|le]|]. intros q' st' Hle' Hst'. eapply HQ; [|done]. le.
Qed.

Lemma lower_fields_ok D builder n t k r l fields O S L c q st (Q : () → lowerer → Prop) :
  Forall (λ f : ustring * located, value_ok D f.2.1) fields → covers D S → state O S L c q st → literal_at n builder k r O q →
  (∀ q' st', q ⊑ q' → state O S L c q' st' → Q () st') → wp (lower_fields builder n t k l fields) st Q.
Proof.
  intros He Hcov Hst Hl HQ. revert q st Hst Hl HQ. induction He as [|[f [v1 l1]] fields Hv1 He IH];
    intros q st Hst Hl HQ; cbn [lower_fields fst snd] in *.
  - apply wp_ret. by eapply HQ.
  - apply wp_bind. eapply wp_mono; [by eapply (lower_part_ok D v1)|]. cbn beta. intros vv st1 (q1 & Hst1 & Hle1 & Hvv).
    apply (literal_mono _ _ _ _ _ _ _ Hle1) in Hl. destruct Hl as (? & Hbu & ? & ?).
    apply wp_bind. eapply wp_emit_quiet; [eassumption|instr|done|]. intros q2 st2 _ Hle2 Hst2.
    eapply (IH q2); [done|split_and!; [names|val|done|le]|]. intros q' st' Hle' Hst'. eapply HQ; [|done]. le.
Qed.

Lemma finish_literal_ok D finish n t builder k r l O S L c q st (Q : Z → lowerer → Prop) :
  (∀ v, target_of (finish v) = Some v) → (∀ v, user_binding (finish v) = None) → (∀ v q, builder ∈ p_values q → instr_ok q (finish v)) →
  covers D S → state O S L c q st → literal_at n builder k (with_name n r) O q → c ⊑ r →
  (∀ v q' st', r ⊑ q' → v ∈ p_values q' → state (<[k := Placed (with_name n r)]> O) S L c q' st' → Q v st') →
  wp (finish_literal finish n t k l) st Q.
Proof.
  intros H1 H2 H3 Hcov Hst (Hn & Hbu & Hk & Hr) Hc HQ. unfold finish_literal.
  apply wp_bind. eapply wp_define; [eassumption|done|done|intros v; by apply H3|]. intros v q1 st1 _ Hle1 Hv1 Hst1.
  stored. jump. go k. loaded. eapply HQ; [|eassumption..]. le.
Qed.

Lemma map_literal_ok p entries l D : Forall (entry_ok D) entries →
  value_ok D (_lower_map_literal typed_report function p entries l).
Proof.
  intros He O S L c q st Hcov Hst. start Hst. unfold _lower_map_literal.
  destruct (map_literal_resolution_of _ _); [|by apply wp_fail]. destruct (_ || _); [by apply wp_fail|].
  defined. internal. bound. ready (with_name n (clean q1)). apply wp_bind.
  eapply lower_entries_ok; [done|done|eassumption|split_and!; [names|val|known|le]|]. intros q2 ?st Hle2 Hst4.
  eapply (finish_literal_ok D _ _ _ v); [reflexivity|reflexivity| |exact Hcov|eassumption|split_and!; [names|val|known|le]|le|].
  - intros. instr.
  - intros v' q' st' Hle' Hv' Hst'. exists q'. split; [back|]. split; [le|done].
Qed.

Lemma struct_literal_ok p fields l D : Forall (λ f : ustring * located, value_ok D f.2.1) fields →
  value_ok D (_lower_struct_literal typed_report function p fields l).
Proof.
  intros He O S L c q st Hcov Hst. start Hst. unfold _lower_struct_literal.
  destruct (struct_literal_resolution_of _ _); [|by apply wp_fail].
  defined. internal. bound. ready (with_name n (clean q1)). apply wp_bind.
  eapply lower_fields_ok; [done|done|eassumption|split_and!; [names|val|known|le]|]. intros q2 ?st Hle2 Hst4.
  eapply (finish_literal_ok D _ _ _ v); [reflexivity|reflexivity| |exact Hcov|eassumption|split_and!; [names|val|known|le]|le|].
  - intros. instr.
  - intros v' q' st' Hle' Hv' Hst'. exists q'. split; [back|]. split; [le|done].
Qed.

(** ** Fallible values *)

Lemma lower_or_else_ok p value fallback l D : value_ok D value → value_ok D fallback →
  value_ok D (_lower_or_else typed_report function p value fallback l).
Proof.
  intros Hv Hf O S L c q st Hcov Hst. start Hst. unfold _lower_or_else, bind_payload.
  lowered Hv. apply wp_bind. unfold branch_fallible. defined. ready (clean q1). ready (clean q1). pending. branch.
  apply wp_ret. apply wp_bind. eapply wp_internal_name_ended; [eassumption|]. intros n ?st Hn Hend.
  go b. assign b1 (with_name n (clean q1)). apply wp_bind. defined. bound. eapply wp_jump; [eassumption|entry|le|]. intros ?st ?He.
  go b0. lowered Hf. bound. jump. go b1. loaded. eexists. split; [back|]. split; [le|done].
Qed.

Lemma lower_or_block_ok p value handler l D : value_ok D value → option_ok D handler →
  value_ok D (_lower_or_block typed_report function p value handler l).
Proof.
  intros Hv Hf O S L c q st Hcov Hst. start Hst. unfold _lower_or_block, bind_payload.
  lowered Hv. apply wp_bind. unfold branch_fallible. defined. ready (clean q1). ready (clean q1). pending. branch.
  apply wp_ret. apply wp_bind. eapply wp_internal_name_ended; [eassumption|]. intros n ?st Hn Hend.
  go b. assign b1 (with_name n (clean q1)). apply wp_bind. defined. bound. eapply wp_jump; [eassumption|entry|le|]. intros ?st ?He.
  go b0. nested Hf. result. go b1. loaded. eexists. split; [back|]. split; [le|done].
Qed.

Lemma lower_or_return_ok p value error l D : value_ok D value → (∀ m, error = Some m → value_ok D m) →
  value_ok D (lower_or_return typed_report function p value error l).
Proof.
  intros Hv He O S L c q st Hcov Hst. start Hst. unfold lower_or_return.
  lowered Hv. apply wp_bind. unfold branch_fallible. defined. ready (clean q1). ready (clean q1). pending. branch.
  apply wp_ret. go b0. apply wp_bind. eapply wp_mono.
  { instantiate (1 := λ x st', ∃ q', state (<[b0:=Placed (clean q1)]> (<[b1:=Pending]> (<[b0:=Ready (clean q1)]>
      (<[b:=Ready (clean q1)]> O)))) S L c q' st' ∧ clean q1 ⊑ q' ∧ x ∈ p_values q').
    destruct error as [m|]; [by eapply He|]. apply wp_ret. eexists. split; [eassumption|]. split; [le|val]. }
  cbn beta. intros x ?st (q2 & Hst7 & Hle2 & Hx). apply wp_bind. eapply wp_return; [eassumption| |].
  { intros y [= <-]. done. }
  intros ?st ?Hend. go b. defined. assign b1 (clean q3). jump. go b1. apply wp_ret.
  exists (clean q3). split; [back|]. split; [le|val].
Qed.

(** ** Matches *)

(** A validated plan of an arm with the binding [name]. *)
Record plan_ok (name : option ustring) (plan : MirMatchArmPlanV1) : Prop := {
  plan_identity : _canonical_variant_identity (canonical_variant plan) = true;
  plan_name : plan_binding_name plan = name;
  plan_payload : payload_required plan = bool_decide (is_Some name);
  plan_type : is_Some name → is_Some (plan_binding_type plan);
}.

Lemma arm_plan_cases arm :
  match _arm_plan arm with
  | Done plan => plan_binding_name plan = arm_binding (resolved_arm arm) ∧
      payload_required plan = bool_decide (is_Some (arm_binding (resolved_arm arm))) ∧
      (is_Some (plan_binding_name plan) ↔ is_Some (plan_binding_type plan))
  | Raise e => expected e = true
  | NoFuel => False
  end.
Proof.
  unfold _arm_plan, plan_fail. destruct (arm_binding _); repeat case_match; simplify_eq; try done;
    cbn [plan_binding_name payload_required plan_binding_type]; by split_and!.
Qed.

Lemma check_plan_cases plan :
  payload_required plan = bool_decide (is_Some (plan_binding_name plan)) →
  (is_Some (plan_binding_name plan) ↔ is_Some (plan_binding_type plan)) →
  match check_arm_plan plan with
  | Done _ => plan_ok (plan_binding_name plan) plan
  | Raise e => expected e = true
  | NoFuel => False
  end.
Proof.
  intros Hp Ht. unfold check_arm_plan. destruct (_canonical_variant_identity _) eqn:Ei; cbn [negb]; [|done].
  rewrite Hp, xorb_nilpotent. destruct (plan_binding_name plan) as [n|] eqn:En.
  - rewrite bool_decide_eq_false_2 by done. cbn [andb]. split; [done..|]. intros _. by apply Ht.
  - rewrite (bool_decide_eq_false_2 (is_Some (plan_binding_type plan))) by (intros [? ?]%Ht; done).
    rewrite andb_false_r. by split.
Qed.

Lemma build_plan_ok p arms :
  match build_mir_match_plan_v1 typed_report function p arms with
  | Done plan => Forall2 (λ arm, plan_ok (arm_binding arm)) arms (plan_arms plan)
  | Raise e => expected e = true
  | NoFuel => False
  end.
Proof.
  unfold build_mir_match_plan_v1. destruct (match_resolution_of _ _) as [r|]; [|done].
  case_bool_decide as Harms; cbn [negb]; [|done].
  assert (match outcome_map _arm_plan (resolved_arms r) with
    | Done plans => Forall2 (λ a plan, plan_binding_name plan = arm_binding (resolved_arm a) ∧
        payload_required plan = bool_decide (is_Some (arm_binding (resolved_arm a))) ∧
        (is_Some (plan_binding_name plan) ↔ is_Some (plan_binding_type plan))) (resolved_arms r) plans
    | Raise e => expected e = true | NoFuel => False end) as Hplans.
  { clear Harms. induction (resolved_arms r) as [|a l IH]; cbn [outcome_map]; [constructor|].
    pose proof (arm_plan_cases a) as Ha. destruct (_arm_plan a) as [plan|e|]; cbn [mbind outcome_bind]; [|done..].
    destruct (outcome_map _ l); cbn [mbind outcome_bind]; [|done..]. by constructor. }
  destruct (outcome_map _ _) as [plans|e|]; cbn [mbind outcome_bind]; [|done..]. cbv zeta. unfold assert_valid.
  cbn [authority plan_arms]. case_bool_decide as Hnil; cbn [mbind outcome_bind plan_fail]; [done|].
  case_bool_decide; cbn [negb mbind outcome_bind plan_fail]; [|done].
  assert (match outcome_fold (λ _, check_arm_plan) () plans with
    | Done _ => Forall2 (λ arm, plan_ok (arm_binding arm)) arms plans
    | Raise e => expected e = true | NoFuel => False end) as Hcheck.
  { subst arms. clear -Hplans. induction Hplans as [|a plan l plans (Hn & Hp & Ht) Hplans IH]; cbn [outcome_fold]; [constructor|].
    rewrite <- Hn in Hp. pose proof (check_plan_cases plan Hp Ht) as Hc. destruct (check_arm_plan plan); cbn [mbind outcome_bind]; [|done..].
    destruct a0. destruct (outcome_fold _ () plans); [|done..]. cbn. constructor; [by rewrite <- Hn|done]. }
  destruct (outcome_fold _ () plans) as [[]|e|]; cbn [mbind outcome_bind]; done.
Qed.

(** The names in scope in an arm. *)
Definition arm_scope (D : gset ustring) (name : option ustring) : gset ustring :=
  match name with Some n => {[n]} ∪ D | None => D end.

Lemma bind_arm_payload_ok D name scrutinee plan l O scope rest L c q st (Q : () → lowerer → Prop) :
  plan_ok name plan → covers D (scope :: rest) → state O (scope :: rest) L c q st →
  scrutinee ∈ p_values q → (scrutinee, canonical_variant plan) ∈ p_facts q →
  (∀ scope' c' q' st', covers (arm_scope D name) (scope' :: rest) → q ⊑ q' → state O (scope' :: rest) L c' q' st' → Q () st') →
  wp (bind_arm_payload scrutinee plan l) st Q.
Proof.
  intros [Hid Hname Hreq Htype] Hcov Hst Hs Hf HQ. unfold bind_arm_payload. rewrite Hreq, Hname.
  destruct name as [n|]; cbn [arm_scope] in *.
  - rewrite bool_decide_eq_true_2 by (by eexists). destruct Htype as [t ->]; [by eexists|].
    apply wp_bind. eapply wp_define; [eassumption|reflexivity|reflexivity| |].
    { intros v. by split; [operands|..]. }
    intros v q1 st1 _ Hle Hv Hst1. eapply wp_bind_name; [eassumption|done|]. intros x q2 st2 Hle2 Hst2.
    eapply (HQ _ _ q2); [by apply covers_insert|le|eassumption].
  - rewrite bool_decide_eq_false_2 by (by intros [? ?]). apply wp_ret. by eapply HQ.
Qed.

Lemma bind_arm_result_ok v n t k r l O S L c st (p : point) (Q : () → lowerer → Prop) :
  ended O S L c st ∨ (∃ q, state O S L c q st ∧ p ⊑ q ∧ option_value v q) → _is_compiler_internal_binding n = true →
  entry_at O k (with_name n r) → r ⊑ p →
  (∀ st', ended O S L c st' → Q () st') → wp (bind_arm_result v n t k l) st Q.
Proof.
  intros Hst Hn Hk Hr HQ. unfold bind_arm_result. apply wp_bind. destruct Hst as [He|(q & Hst & Hq & Hv)].
  - unfold wp at 1, terminated. pose proof He as (A & b & t' & _ & -> & ->). rewrite bool_decide_eq_true_2 by (by eexists).
    apply wp_ret. by apply HQ.
  - unfold wp at 1, terminated. pose proof Hst as (A & b & t' & _ & -> & -> & _).
    rewrite bool_decide_eq_false_2 by (by intros [? ?]). destruct v as [x|]; [|by apply wp_fail].
    specialize (Hv x eq_refl). apply wp_bind. eapply wp_bind_internal; [done..|]. intros q' st' Hle Hn' Hst'.
    eapply wp_jump; [done..| |]; [apply with_name_le; [le|done]|]. intros st'' He. by apply HQ.
Qed.

Lemma taken_tested t s v type l q (q' := after q (MirVariantIs t s v type l)) :
  with_fact (s, v) (clean q') ⊑ taken t q'.
Proof.
  split; [done|done|]. cbn. intros f [->%elem_of_singleton|?]%elem_of_union; [|set_solver].
  apply elem_of_union_r, elem_of_map. exists (t, (s, v)). split; [done|]. apply elem_of_filter. split; [done|]. set_solver.
Qed.

Lemma with_fact_in f q : f ∈ p_facts (with_fact f q).
Proof. cbn. set_solver. Qed.

(** What every arm relies on. *)
Definition match_at (scrutinee : Z) (n : ustring) (k : Z) (r : point) (O : knowledge) (q : point) : Prop :=
  scrutinee ∈ p_values q ∧ _is_compiler_internal_binding n = true ∧ entry_at O k (with_name n r) ∧ r ⊑ q.

Lemma match_arm_ok D name scrutinee n t k last plan body l r O S L c q st (Q : () → lowerer → Prop) :
  plan_ok name plan → option_ok (arm_scope D name) body → covers D S → state O S L c q st → match_at scrutinee n k r O q →
  (last = true → ∀ st', ended O S L c st' → Q () st') →
  (last = false → ∀ q' st', q ⊑ q' → state O S L c q' st' → Q () st') →
  wp (lower_match_arm scrutinee n t k last plan body l) st Q.
Proof.
  intros Hplan Hbody Hcov Hst (Hs & Hn & Hk & Hr) HQ1 HQ2. start Hst. unfold lower_match_arm.
  apply wp_bind. eapply wp_define; [eassumption|reflexivity|reflexivity| |].
  { intros v. split; [operands|done|done|apply Hplan]. }
  intros test q1 st1 Eq1 Hle Htest Hst1. ready (with_fact (scrutinee, canonical_variant plan) (clean q1)). ready (clean q1).
  apply wp_bind. eapply wp_branch; [eassumption|done|entry|subst q1; apply taken_tested|entry|le|].
  intros ?st ?He. go b. apply wp_bind. eapply wp_mono.
  { eapply (scoped_at D (λ _ _, False)); [done|eassumption|]. intros st5 Hcov5 Hst5. apply wp_bind.
    eapply bind_arm_payload_ok; [done|done|eassumption|val|apply with_fact_in|]. intros scope' c' q' st6 Hcov6 Hle6 Hst6.
    apply wp_bind. eapply wp_mono; [by eapply Hbody|]. cbn beta. intros v st7 Hend.
    eapply bind_arm_result_ok; [exact Hend|exact Hn|entry| |].
    { etransitivity; [|exact Hle6]. le. }
    intros st8 He8. exists scope', c'. by left. }
  cbn beta. intros _ ?st [Hend|(q' & _ & _ & [])]. go b0. destruct last.
  - eapply wp_unreachable; [eassumption|]. intros ?st ?Hend. apply HQ1; [done|]. back.
  - apply wp_ret. eapply (HQ2 eq_refl (clean q1)); [le|back].
Qed.

Lemma match_mono scrutinee n k r O q q' : q ⊑ q' → match_at scrutinee n k r O q → match_at scrutinee n k r O q'.
Proof. intros Hq (? & ? & ? & ?). split_and!; [val|done|done|le]. Qed.

Lemma match_arms_ok D scrutinee n t k last body r O S L c arms plans i q st (Q : () → lowerer → Prop) :
  Forall2 (λ arm, plan_ok (arm_binding arm)) arms plans →
  (∀ j arm, arms !! j = Some arm → option_ok (arm_scope D (arm_binding arm)) (body (i + j)%nat arm)) →
  (arms ≠ [] → (i + length arms = Datatypes.S last)%nat) →
  covers D S → state O S L c q st → match_at scrutinee n k r O q →
  (∀ st', left_behind O S L c st' → Q () st') →
  wp (lower_match_arms scrutinee n t k last body i arms plans) st Q.
Proof.
  intros Hplans. revert i q st. induction Hplans as [|arm plan arms plans Hplan Hplans IH];
    intros i q st Hbody Hlast Hcov Hst Hm HQ; cbn [lower_match_arms].
  - apply wp_ret, HQ. right. by exists q.
  - apply wp_bind. specialize (Hlast ltac:(done)). cbn [length] in Hlast. eapply match_arm_ok; [done| |done|done|done|..].
    + specialize (Hbody 0%nat arm eq_refl). by rewrite Nat.add_0_r in Hbody.
    + intros ->%bool_decide_eq_true st' He. destruct arms; [|cbn [length] in Hlast; lia]. inversion Hplans. apply wp_ret, HQ. by left.
    + intros Hi%bool_decide_eq_false q' st' Hle Hst'. eapply IH; [|lia|done|done|by eapply match_mono|done].
      intros j arm' Hj. specialize (Hbody (Datatypes.S j) arm' Hj). by rewrite Nat.add_succ_r in Hbody.
Qed.

Lemma lower_match_ok p value body arms l D : value_ok D value →
  (∀ i arm, arms !! i = Some arm → option_ok (arm_scope D (arm_binding arm)) (body i arm)) →
  value_ok D (lower_match_expression_v1 typed_report function p value body arms l).
Proof.
  intros Hv Hb O S L c q st Hcov Hst. start Hst. unfold lower_match_expression_v1.
  pose proof (build_plan_ok p arms) as Hplan. destruct (build_mir_match_plan_v1 _ _ _ _) as [plan|e|]; [|by apply wp_fail|done].
  destruct (negb _); [by apply wp_fail|]. lowered Hv. internal. ready (with_name n (clean q0)). apply wp_bind.
  eapply match_arms_ok; [exact Hplan|exact Hb| |exact Hcov|eassumption|split_and!; [val|done|entry|le]|].
  { intros Ha. apply Forall2_length in Hplan. destruct arms; [done|]. cbn [length] in *. lia. }
  intros ?st Hend. go b. loaded. eexists. split; [back|]. split; [le|done].
Qed.

(** ** Statements *)

Lemma lower_let_ok name m value t l D : value_ok D value → statement_ok D ({[name]} ∪ D) (lower_let name m value t l).
Proof.
  intros Hv p O scope rest L c q st Hp Hcov Hst. unfold lower_let. lowered Hv. eapply wp_bind_name; [eassumption|done|].
  intros n q1 st1 Hle1 Hst1. exists (<[name := n]> scope), q1. right. exists q1. split; [done|].
  split; [le|]. split; [by apply covers_insert|done].
Qed.

(** A statement that declares nothing. *)
Lemma unit_statement D m : unit_ok D m → statement_ok D D m.
Proof.
  intros Hm p O scope rest L c q st Hp Hcov Hst. eapply wp_mono; [by eapply Hm|]. cbn beta.
  intros _ st1 [He|(q1 & Hst1 & Hle)]; exists scope, c; [by left|right]. by exists q1.
Qed.

Lemma value_unit D m : value_ok D m → unit_ok D (_ ← m; mret ()).
Proof. intros Hm O S L c q st Hcov Hst. lowered Hm. apply wp_ret. right. by exists q0. Qed.

Lemma lower_return_ok value D : (∀ m, value = Some m → value_ok D m) → unit_ok D (lower_return value).
Proof.
  intros Hv O S L c q st Hcov Hst. unfold lower_return. apply wp_bind. destruct value as [m|].
  - specialize (Hv m eq_refl). lowered Hv. apply wp_ret. eapply wp_return; [done|by intros x [= <-]|]. intros st' He. by left.
  - apply wp_ret. eapply wp_return; [done|by intros x|]. intros st' He. by left.
Qed.

Lemma statement_fallback_ok kind l D : unit_ok D (statement_fallback kind l).
Proof.
  intros O S L c q st Hcov Hst. unfold statement_fallback. eapply wp_emit_quiet; [eassumption|instr|done|].
  intros q' st' _ Hle Hst'. right. by exists q'.
Qed.

Lemma lower_break_ok l D : unit_ok D (lower_break l).
Proof.
  intros O S L c q st Hcov Hst. unfold lower_break. apply wp_bind. unfold wp at 1, read.
  pose proof (state_context _ _ _ _ _ _ Hst) as [_ Hc]. pose proof (state_base _ _ _ _ _ _ Hst) as Hle.
  assert (loop_targets st = L) as -> by (by destruct Hst as (? & ? & ? & [] & _)).
  destruct L as [|[k1 k2] L]; [by eapply statement_fallback_ok|].
  destruct (Hc k1 k2) as [(s & r & ? & ? & ?) _]; [left|]. eapply wp_jump; [done|by exists s|by etransitivity|]. intros st' He. by left.
Qed.

Lemma lower_continue_ok l D : unit_ok D (lower_continue l).
Proof.
  intros O S L c q st Hcov Hst. unfold lower_continue. apply wp_bind. unfold wp at 1, read.
  pose proof (state_context _ _ _ _ _ _ Hst) as [_ Hc]. pose proof (state_base _ _ _ _ _ _ Hst) as Hle.
  assert (loop_targets st = L) as -> by (by destruct Hst as (? & ? & ? & [] & _)).
  destruct L as [|[k1 k2] L]; [by eapply statement_fallback_ok|].
  destruct (Hc k1 k2) as [_ (s & r & ? & ? & ?)]; [left|]. eapply wp_jump; [done|by exists s|by etransitivity|]. intros st' He. by left.
Qed.

Lemma lower_for_statement_ok supported it iterable variable body l D :
  value_ok D iterable → option_ok ({[variable]} ∪ D) body →
  unit_ok D (lower_for_statement supported it iterable variable body l).
Proof.
  intros Hi Hb. unfold lower_for_statement. repeat case_match; try by apply lower_for_ok. apply statement_fallback_ok.
Qed.

(** ** Statements in tail position *)

Lemma emit_unit_ok l D : value_ok D (_emit_unit l).
Proof. intros O S L c q st Hcov Hst. unfold _emit_unit. finish. Qed.

Lemma some_value_ok D m : value_ok D m → option_ok D (some_value m).
Proof.
  intros Hm O S L c q st Hcov Hst. eapply wp_mono; [by eapply (some_of_value D)|]. cbn beta. intros v st' ?. by right.
Qed.

Lemma no_value_ok D m : unit_ok D m → option_ok D (no_value m).
Proof.
  intros Hm O S L c q st Hcov Hst. nested Hm. apply wp_ret. destruct Hend as [|(q' & ? & ?)]; [by left|right].
  exists q'. by split_and!.
Qed.

Lemma with_type_ok error t f D : expected error = true → (∀ t, value_ok D (f t)) → option_ok D (with_type error t f).
Proof. intros He Hf. destruct t as [t|]; [by apply some_value_ok|]. intros O S L c q st _ _. by apply wp_fail. Qed.

(** What a tail statement leaves, with the names it declares. *)
Definition tail_ok (D D' : gset ustring) (m : lower (option Z)) : Prop := body_ok D D' option_value m.

Lemma option_tail D m : option_ok D m → tail_ok D D m.
Proof.
  intros Hm p O scope rest L c q st Hp Hcov Hst. eapply wp_mono; [by eapply Hm|]. cbn beta.
  intros v st1 [He|(q1 & Hst1 & Hle & Hv)]; exists scope, c; [by left|right]. by exists q1.
Qed.

End methods.
End certificate.
