(* ===== verification/LoweringSafe.v ===== *)
(** The whole lowerer: the recursion over the tree keeps the certificate of
[LoweringProof], and what that gives for the blocks of a function. *)

From S2P Require Import Prelude TypeSystem Lexer Ast TypeContracts Effects TypedHir Mir MirProof MirGraph Lowering LoweringProof.

(** * The names that a function takes from outside

[D] has the names that are in scope. *)

Definition declares (D : gset ustring) (s : Statement) : gset ustring :=
  match s with LetStatement name _ _ _ _ => {[name]} ∪ D | _ => D end.

Section free_list.
Context (free : gset ustring → Statement → gset ustring).
Fixpoint free_list (D : gset ustring) (l : list Statement) : gset ustring :=
  match l with
  | [] => ∅
  | s :: l => free D s ∪ free_list (declares D s) l
  end.
End free_list.

Fixpoint free_expression (D : gset ustring) (e : Expression) {struct e} : gset ustring :=
  match e with
  | Identifier name _ => {[name]} ∖ D
  | Literal _ _ => ∅
  | InterpolatedString items _ | ListLiteral items _ => ⋃ (free_expression D <$> items)
  | StructLiteral _ fields _ => ⋃ ((λ f : ustring * Expression, free_expression D f.2) <$> fields)
  | MapLiteral entries _ => ⋃ ((λ kv : Expression * Expression, free_expression D kv.1 ∪ free_expression D kv.2) <$> entries)
  | MemberExpression object _ _ => free_expression D object
  | CallExpression callee arguments _ => free_expression D callee ∪ ⋃ (free_expression D <$> arguments)
  | AssignmentExpression x y _ | BinaryExpression x _ y _ | OrElseExpression x y _ =>
      free_expression D x ∪ free_expression D y
  | UnaryExpression _ x _ => free_expression D x
  | OrReturnExpression x y _ => free_expression D x ∪ match y with Some y => free_expression D y | None => ∅ end
  | OrBlockExpression x b _ => free_expression D x ∪ free_block D b
  | MatchExpression x arms _ => free_expression D x ∪ ⋃ (free_arm D <$> arms)
  end
with free_arm (D : gset ustring) (a : MatchArm) {struct a} : gset ustring :=
  match a with
  | mk_arm _ name (ArmExpression e) _ => free_expression (arm_scope D name) e
  | mk_arm _ name (ArmBlock b) _ => free_block (arm_scope D name) b
  end
with free_statement (D : gset ustring) (s : Statement) {struct s} : gset ustring :=
  match s with
  | LetStatement _ _ x _ _ | ExpressionStatement x _ => free_expression D x
  | ReturnStatement x _ => match x with Some x => free_expression D x | None => ∅ end
  | IfStatement x b e _ =>
      free_expression D x ∪ free_block D b ∪
      match e with
      | Some (ElseBlock b') => free_block D b'
      | Some (ElseIf s') => free_statement D s'
      | None => ∅
      end
  | WhileStatement x b _ => free_expression D x ∪ free_block D b
  | ForStatement variable x b _ => free_expression D x ∪ free_block ({[variable]} ∪ D) b
  | BreakStatement _ | ContinueStatement _ => ∅
  end
with free_block (D : gset ustring) (b : Block) {struct b} : gset ustring :=
  let 'mk_block statements := b in free_list free_statement D statements.

Definition parameter_names (f : FunctionDeclaration) : gset ustring := list_to_set (parameter_name <$> parameters f).

(** Functions, imports, builtins and constructors, if the checker accepts the function. *)
Definition free_names (f : FunctionDeclaration) : gset ustring := free_list free_statement (parameter_names f) (statements (body f)).

Lemma union_list_in {A} (f : A → gset ustring) l X x : ⋃ (f <$> l) ⊆ X → x ∈ l → f x ⊆ X.
Proof. intros H Hx n Hn. apply H, elem_of_union_list. exists (f x). split; [by apply list_elem_of_fmap_2|done]. Qed.

Lemma positions_Forall {A B} (P : B → Prop) (f : nat → A → B) l : ∀ i,
  (∀ i x, x ∈ l → P (f i x)) → Forall P (positions f i l).
Proof.
  induction l as [|x l IH]; intros i H; cbn [positions]; constructor; [by apply H; left|].
  apply IH. intros j y Hy. apply H. by right.
Qed.

(** * The recursion over the tree *)

Section tree.
Context `{HU : Unicode} (free params : gset ustring) (typed_report : TypedHIRReport) (function : nat).

Abbreviation value_ok := (value_ok free params).
Abbreviation option_ok := (option_ok free params).
Abbreviation unit_ok := (unit_ok free params).
Abbreviation statement_ok := (statement_ok free params).
Abbreviation tail_ok := (tail_ok free params).
Abbreviation state := (state free params).
Abbreviation ended := (ended free params).

(** ** Lists of statements *)

Lemma wp_terminated_ended O S L c st (Q : bool → lowerer → Prop) :
  ended O S L c st → Q true st → wp terminated st Q.
Proof.
  intros (A & b & t & _ & Hb & Ht) HQ. unfold wp, terminated. rewrite Hb, Ht. by rewrite bool_decide_eq_true_2 by (by eexists).
Qed.

Lemma wp_terminated_open O S L c q st (Q : bool → lowerer → Prop) :
  state O S L c q st → Q false st → wp terminated st Q.
Proof.
  intros (A & b & p & _ & Hb & Ht & _) HQ. unfold wp, terminated. rewrite Hb, Ht. rewrite bool_decide_eq_false_2; [done|by intros [? ?]].
Qed.

(** The names in scope along the statements, from [D] to [D']. *)
Inductive threads (P : nat → gset ustring → Statement → Prop) : nat → gset ustring → list Statement → gset ustring → Prop :=
  | threads_nil i D : threads P i D [] D
  | threads_cons i D s l D' : P i D s → threads P (S i) (declares D s) l D' → threads P i D (s :: l) D'.

Lemma free_list_threads (P : nat → gset ustring → Statement → Prop) l : ∀ i D,
  (∀ i D s, s ∈ l → free_statement D s ⊆ free → P i D s) → free_list free_statement D l ⊆ free →
  ∃ D', threads P i D l D'.
Proof.
  induction l as [|s l IH]; intros i D HP; cbn [free_list]; [intros _; eexists; constructor|].
  intros [Hs Hl]%union_subseteq. destruct (IH (S i) (declares D s)) as [D' Ht]; [|done|].
  - intros j D0 s0 Hs0. apply HP. by right.
  - exists D'. constructor; [|done]. by apply HP; [left|].
Qed.

Lemma lower_statements_ended f i l O S L c st (Q : () → lowerer → Prop) :
  ended O S L c st → Q () st → wp (lower_statements f i l) st Q.
Proof.
  intros He HQ. destruct l as [|s l]; cbn [lower_statements]; [done|]. apply wp_bind.
  eapply wp_terminated_ended; [done|]. by apply wp_ret.
Qed.

Lemma lower_statements_ok f i D l D' :
  threads (λ i D s, statement_ok D (declares D s) (f i s)) i D l D' → statement_ok D D' (lower_statements f i l).
Proof.
  induction 1 as [i D|i D s l D' Hs Hl IH]; intros p O scope rest L c q st Hp Hcov Hst; cbn [lower_statements].
  - apply wp_ret. exists scope, c. right. by exists q.
  - apply wp_bind. eapply wp_terminated_open; [done|]. apply wp_bind. eapply wp_mono; [by eapply Hs|]. cbn beta.
    intros [] st1 (scope1 & c1 & [He|(q1 & Hst1 & Hle1 & Hcov1 & _)]).
    + eapply lower_statements_ended; [done|]. exists scope1, c1. by left.
    + eapply wp_mono; [eapply (IH p); [|done..]; by etransitivity|]. cbn beta.
      intros [] st2 (scope2 & c2 & [He|(q2 & ? & ? & ?)]); exists scope2, c2; [by left|right].
      exists q2. split; [done|]. split; [by etransitivity|done].
Qed.

Lemma lower_value_statements_ended f g i l O S L c st (Q : option Z → lowerer → Prop) :
  ended O S L c st → Q None st → wp (lower_value_statements f g i l) st Q.
Proof.
  intros He HQ. destruct l as [|s l]; cbn [lower_value_statements]; [done|]. apply wp_bind.
  eapply wp_terminated_ended; [done|]. by apply wp_ret.
Qed.

Lemma lower_value_statements_ok f g l : ∀ i D D', l ≠ [] →
  threads (λ i D s, statement_ok D (declares D s) (f i s) ∧ tail_ok D (declares D s) (g i s)) i D l D' →
  tail_ok D D' (lower_value_statements f g i l).
Proof.
  induction l as [|s l IH]; intros i D D' Hne Hl; [done|]. inversion Hl as [|? ? ? ? ? [Hs Ht] Hrest]; subst.
  intros p O scope rest L c q st Hp Hcov Hst; cbn [lower_value_statements]. apply wp_bind. eapply wp_terminated_open; [done|].
  destruct l as [|s2 l].
  - inversion Hrest; subst. by eapply Ht.
  - apply wp_bind. eapply wp_mono; [by eapply Hs|]. cbn beta. intros [] st1 (scope1 & c1 & [He|(q1 & Hst1 & Hle1 & Hcov1 & _)]).
    + eapply lower_value_statements_ended; [done|]. exists scope1, c1. by left.
    + eapply wp_mono; [eapply (IH (S i)); [done|done|by etransitivity|done|done]|]. cbn beta.
      intros v st2 (scope2 & c2 & [He|(q2 & ? & ? & ?)]); exists scope2, c2; [by left|right].
      exists q2. split; [done|]. split; [by etransitivity|done].
Qed.

Lemma threads_impl (P Q : nat → gset ustring → Statement → Prop) i D l D' :
  (∀ i D s, P i D s → Q i D s) → threads P i D l D' → threads Q i D l D'.
Proof. intros H. induction 1; constructor; [by apply H|done]. Qed.

(** ** Every node *)

Abbreviation lower_e := (lower_expression typed_report function).
Abbreviation lower_a := (lower_arm_body typed_report function).
Abbreviation lower_s := (lower_statement typed_report function).
Abbreviation lower_t := (lower_tail typed_report function).
Abbreviation lower_b := (lower_block typed_report function).
Abbreviation lower_v := (lower_value_block typed_report function).

Definition lowers (n : node) : Prop :=
  match n with
  | NExpression e => ∀ D p, free_expression D e ⊆ free → value_ok D (lower_e p e)
  | NArm a => ∀ D p t, free_arm D a ⊆ free → option_ok (arm_scope D (arm_binding a)) (lower_a p a t)
  | NStatement s => ∀ D p, free_statement D s ⊆ free →
      match s with
      | LetStatement _ _ _ _ _ => statement_ok D (declares D s) (lower_s p s) ∧ ∀ t, tail_ok D (declares D s) (lower_t p s t)
      | _ => unit_ok D (lower_s p s) ∧ ∀ t, option_ok D (lower_t p s t)
      end
  | NBlock b => ∀ D p, free_block D b ⊆ free → unit_ok D (lower_b p b) ∧ ∀ l t, option_ok D (lower_v p b l t)
  end.

Lemma lowers_statement s D p : lowers (NStatement s) → free_statement D s ⊆ free →
  statement_ok D (declares D s) (lower_s p s) ∧ ∀ t, tail_ok D (declares D s) (lower_t p s t).
Proof.
  intros H Hs. specialize (H D p Hs). destruct s; try done; destruct H as [H1 H2];
    (split; [by apply unit_statement|intros t; by apply option_tail]).
Qed.

Lemma lowers_values D f l i : (∀ x, x ∈ l → lowers (NExpression x)) → ⋃ (free_expression D <$> l) ⊆ free →
  Forall (value_ok D) (positions (λ i x, lower_e (f i) x) i l).
Proof.
  intros Hl Hf. apply positions_Forall. intros j x Hx. apply Hl; [done|]. by eapply (union_list_in (free_expression D)).
Qed.

Ltac parts H := cbn [free_expression free_arm free_statement free_block] in H; rewrite ?union_subseteq in H; destruct_and? H.

Lemma lowers_call p callee arguments l D : lowers (NExpression callee) →
  (∀ c, c ∈ children (NExpression callee) → lowers c) → (∀ x, x ∈ arguments → lowers (NExpression x)) →
  free_expression D (CallExpression callee arguments l) ⊆ free → value_ok D (lower_e p (CallExpression callee arguments l)).
Proof.
  intros Hc Hcc Ha Hf. parts Hf. cbn [lower_expression]. apply lower_call_ok; [by apply Hc| |by apply lowers_values].
  intros m Hm. destruct callee; try done. injection Hm as <-. apply (Hcc (NExpression callee)); [left|done].
Qed.

Lemma lowers_assignment p target value l D : lowers (NExpression target) → lowers (NExpression value) →
  (∀ c, c ∈ children (NExpression target) → lowers c) →
  free_expression D (AssignmentExpression target value l) ⊆ free → value_ok D (lower_e p (AssignmentExpression target value l)).
Proof.
  intros Ht Hv Hc Hf. parts Hf. specialize (Hv D (p ++ [1%nat]) ltac:(done)).
  assert (value_ok D (_ ← lower_e (p ++ [1%nat]) value; expression_fallback typed_report function p (u "AssignmentExpression") l)) as Hother.
  { intros O S L c q st Hcov Hst. apply wp_bind. eapply wp_mono; [by eapply Hv|]. cbn beta. intros v st1 (q1 & Hst1 & Hle & _).
    eapply wp_mono; [by eapply fallback_ok|]. cbn beta. intros w st2 (q2 & ? & ? & ?). exists q2. split; [done|]. split; [by etransitivity|done]. }
  destruct target as [name ?| | | | | |object field ?| | | | | | | |]; try exact Hother.
  - cbn [lower_expression]. apply lower_assignment_ok; [|done]. destruct (decide (name ∈ D)); [by left|right]. set_solver.
  - destruct object; try exact Hother. cbn [lower_expression]. apply lower_field_assignment_ok; [|done].
    apply (Hc (NExpression (Identifier name location0))); [left|done].
Qed.

Lemma lowers_expression e :
  (∀ c, c ∈ children (NExpression e) → lowers c ∧ ∀ c', c' ∈ children c → lowers c') → lowers (NExpression e).
Proof.
  intros IH D p Hf. assert (∀ c, c ∈ children (NExpression e) → lowers c) as Hc by (intros c Hin; by apply IH).
  destruct e; cbn [children] in Hc.
  - cbn [lower_expression]. apply lower_identifier_ok. destruct (decide (name ∈ D)); [by left|right]. parts Hf. set_solver.
  - cbn [lower_expression]. intros O S L c q st Hcov Hst. eapply define_ok; try done. intros t. split; try done. by intros v ?%elem_of_nil.
  - cbn [lower_expression]. apply lower_interpolation_ok, lowers_values; [|done].
    intros x Hx. apply Hc. by apply list_elem_of_fmap_2.
  - cbn [lower_expression]. apply struct_literal_ok, positions_Forall. intros j [f x] Hx. cbn [fst snd].
    apply (Hc (NExpression x)); [by apply (list_elem_of_fmap_2 (λ f : ustring * Expression, NExpression f.2) _ (f, x))|].
    exact (union_list_in (λ f : ustring * Expression, free_expression D f.2) _ _ _ Hf Hx).
  - cbn [lower_expression]. apply lower_list_ok, lowers_values; [|done].
    intros x Hx. apply Hc. by apply list_elem_of_fmap_2.
  - cbn [lower_expression]. apply map_literal_ok, positions_Forall. intros j [x y] Hx.
    pose proof (union_list_in (λ kv : Expression * Expression, free_expression D kv.1 ∪ free_expression D kv.2) _ _ _ Hf Hx) as Hxy.
    cbn beta iota delta [fst snd] in Hxy. apply union_subseteq in Hxy as [? ?]. unfold entry_ok. cbn [fst snd].
    split; [apply (Hc (NExpression x))|apply (Hc (NExpression y))]; try done; apply elem_of_concat_fmap; exists (x, y); (split; [done|]); set_solver.
  - cbn [lower_expression]. parts Hf. apply lower_member_ok. apply (Hc (NExpression e)); [left|done].
  - apply lowers_call; [apply Hc; left|intros c; apply (IH (NExpression e)); left| |done].
    intros x Hx. apply Hc. right. by apply list_elem_of_fmap_2.
  - apply lowers_assignment; [apply Hc; left|apply Hc; right; left|intros c; apply (IH (NExpression e1)); left|done].
  - parts Hf. cbn [lower_expression]. case_bool_decide; [apply short_circuit_ok|apply lower_binary_ok];
      (apply (Hc (NExpression e1)) || apply (Hc (NExpression e2))); try done; by repeat constructor.
  - parts Hf. cbn [lower_expression]. apply lower_unary_ok. apply (Hc (NExpression e)); [left|done].
  - parts Hf. cbn [lower_expression]. apply lower_or_return_ok; [apply (Hc (NExpression e)); [left|done]|].
    intros m Hm. destruct error as [y|]; [|done]. injection Hm as <-. apply (Hc (NExpression y)); [right; left|done].
  - parts Hf. cbn [lower_expression]. apply lower_or_else_ok; [apply (Hc (NExpression e1))|apply (Hc (NExpression e2))]; try done; by repeat constructor.
  - parts Hf. cbn [lower_expression]. destruct (_supports_value_block handler); [|apply fallback_ok].
    apply lower_or_block_ok; [apply (Hc (NExpression e)); [left|done]|]. apply (Hc (NBlock handler)); [right; left|done].
  - parts Hf. cbn [lower_expression]. apply lower_match_ok; [apply (Hc (NExpression e)); [left|done]|].
    intros i a Ha%list_elem_of_lookup_2. apply (Hc (NArm a)); [right; by apply list_elem_of_fmap_2|].
    by eapply (union_list_in (free_arm D)).
Qed.

Lemma lowers_arm a : (∀ c, c ∈ children (NArm a) → lowers c) → lowers (NArm a).
Proof.
  intros Hc D p t Hf. destruct a as [variant name [e|b] l]; cbn [lower_arm_body arm_binding].
  - apply some_value_ok. apply (Hc (NExpression e)); [left|done].
  - destruct (negb _); [intros O S L c q st _ _; by apply wp_fail|]. apply (Hc (NBlock b)); [left|done].
Qed.

Lemma lower_block_eq p l : lower_b p (mk_block l) = scoped (lower_statements (λ i s, lower_s (p ++ [i]) s) 0 l).
Proof. reflexivity. Qed.

Lemma lower_value_block_eq p l loc t : lower_v p (mk_block l) loc t = scoped
  match l with
  | [] => some_value (_emit_unit loc)
  | _ => lower_value_statements (λ i s, lower_s (p ++ [i]) s) (λ i s, lower_t (p ++ [i]) s t) 0 l
  end.
Proof. reflexivity. Qed.

Lemma lowers_block b : (∀ c, c ∈ children (NBlock b) → lowers c) → lowers (NBlock b).
Proof.
  intros Hc D p Hf. destruct b as [l]. rewrite lower_block_eq. setoid_rewrite lower_value_block_eq.
  destruct (free_list_threads (λ i D s, statement_ok D (declares D s) (lower_s (p ++ [i]) s) ∧
    ∀ t, tail_ok D (declares D s) (lower_t (p ++ [i]) s t)) l 0 D) as [D' Ht]; [|done|].
  { intros i D0 s Hs Hfs. apply lowers_statement; [|done]. apply Hc. by apply list_elem_of_fmap_2. }
  split.
  - eapply unit_scoped, lower_statements_ok, threads_impl; [|exact Ht]. by intros ??? [].
  - intros loc t. destruct l as [|s l].
    + eapply option_scoped, option_tail, some_value_ok, emit_unit_ok.
    + eapply option_scoped, (lower_value_statements_ok _ _ (s :: l)), threads_impl; [done| |exact Ht]. by intros ??? [].
Qed.

Lemma lowers_else p (e : option else_branch) D t l :
  (∀ c, c ∈ match e with Some (ElseBlock b) => [NBlock b] | Some (ElseIf s) => [NStatement s] | None => [] end → lowers c) →
  match e with Some (ElseBlock b) => free_block D b | Some (ElseIf s) => free_statement D s | None => ∅ end ⊆ free →
  unit_ok D match e with
    | Some (ElseBlock b) => lower_b p b
    | Some (ElseIf (IfStatement _ _ _ _ as s')) => lower_s p s'
    | Some (ElseIf _) | None => mret ()
    end ∧
  option_ok D match e with
    | Some (ElseBlock b) => lower_v p b l t
    | Some (ElseIf (IfStatement _ _ _ _ as s')) => lower_t p s' t
    | Some (ElseIf _) | None => some_value (_emit_unit l)
    end.
Proof.
  intros Hc Hf. assert (unit_ok D (mret ())) as Hskip.
  { intros O S L c q st _ Hst. apply wp_ret. right. by exists q. }
  assert (option_ok D (some_value (_emit_unit l))) as Hunit by apply some_value_ok, emit_unit_ok.
  destruct e as [[b|s]|]; [| |done].
  - destruct (Hc (NBlock b) ltac:(left) D p Hf) as [H1 H2]. done.
  - pose proof (Hc (NStatement s) ltac:(left) D p Hf) as Hs. destruct s; try done. by destruct Hs.
Qed.

Lemma let_tail_ok name m value t l D : value_ok D value →
  tail_ok D ({[name]} ∪ D) (_ ← lower_let name m value t l; some_value (_emit_unit l)).
Proof.
  intros Hv p O scope rest L c q st Hp Hcov Hst. apply wp_bind. unfold lower_let. apply wp_bind.
  eapply wp_mono; [by eapply Hv|]. cbn beta. intros v st1 (q1 & Hst1 & Hle1 & Hv1).
  eapply wp_bind_name; [done..|]. intros n q2 st2 Hle2 Hst2. apply (covers_insert _ name n) in Hcov.
  eapply wp_mono; [eapply some_value_ok; [apply emit_unit_ok|done..]|]. cbn beta.
  intros w st3 [He|(q3 & Hst3 & Hle3 & Hw)]; exists (<[name := n]> scope), q2; [by left|right].
  exists q3. split; [done|]. split; [by do 2 (etransitivity; [done|])|done].
Qed.

Lemma lowers_statement_node s : (∀ c, c ∈ children (NStatement s) → lowers c) → lowers (NStatement s).
Proof.
  intros Hc D p Hf. destruct s as [name m x l o|x l|x l|x b e l|x b l|variable x b l|l|l]; parts Hf.
  - specialize (Hc (NExpression x) ltac:(left) D (p ++ [0%nat]) ltac:(done)).
    split; [by apply lower_let_ok|]. intros t. by apply let_tail_ok.
  - assert (unit_ok D (lower_s p (ReturnStatement x l))) as H.
    { cbn [lower_statement]. apply lower_return_ok. intros y Hy. destruct x as [x|]; [|done]. injection Hy as <-.
      apply (Hc (NExpression x)); [left|done]. }
    split; [done|]. intros t. by apply no_value_ok.
  - specialize (Hc (NExpression x) ltac:(left) D (p ++ [0%nat]) ltac:(done)).
    split; [by apply value_unit|]. intros t. by apply some_value_ok.
  - pose proof (Hc (NExpression x) ltac:(left) D (p ++ [0%nat]) ltac:(done)) as Hx.
    destruct (Hc (NBlock b) ltac:(right; left) D (p ++ [1%nat]) ltac:(done)) as [Hb1 Hb2].
    assert (∀ c, c ∈ match e with Some (ElseBlock b) => [NBlock b] | Some (ElseIf s) => [NStatement s] | None => [] end → lowers c) as Hce
      by (intros c Hin; apply Hc; right; by right).
    pose proof (λ t, lowers_else (p ++ [2%nat]) e D t l Hce ltac:(done)) as He.
    split; [apply lower_if_ok; [done..|by apply (He None)]|]. intros t. apply with_type_ok; [done|]. intros t'.
    apply lower_value_if_ok; [done..|by apply (He (Some t'))].
  - pose proof (Hc (NExpression x) ltac:(left) D (p ++ [0%nat]) ltac:(done)) as Hx.
    destruct (Hc (NBlock b) ltac:(right; left) D (p ++ [1%nat]) ltac:(done)) as [Hb1 Hb2].
    split; [by apply lower_while_ok|]. intros t. apply with_type_ok; [done|]. intros t'. by apply lower_value_while_ok.
  - pose proof (Hc (NExpression x) ltac:(left) D (p ++ [0%nat]) ltac:(done)) as Hx.
    destruct (Hc (NBlock b) ltac:(right; left) ({[variable]} ∪ D) (p ++ [1%nat]) ltac:(done)) as [Hb1 Hb2].
    split; [by apply lower_for_statement_ok|]. intros t. apply with_type_ok; [done|]. intros t'. by apply lower_value_for_ok.
  - split; [apply lower_break_ok|]. intros t. apply no_value_ok, lower_break_ok.
  - split; [apply lower_continue_ok|]. intros t. apply no_value_ok, lower_continue_ok.
Qed.

Lemma lowers_all n : lowers n.
Proof.
  apply (node_children_ind lowers). clear n. intros [e|a|s|b] IH; [by apply lowers_expression|..].
  - apply lowers_arm. intros c Hin. by apply IH.
  - apply lowers_statement_node. intros c Hin. by apply IH.
  - apply lowers_block. intros c Hin. by apply IH.
Qed.
End tree.

(** * The blocks of a function *)

Section function.
Context `{HU : Unicode} (typed_report : TypedHIRReport) (function : nat).

(** What holds at the start of a function. *)
Definition start_point (params : gset ustring) : point := mk_point ∅ params ∅ ∅.

(** The entry points [A] certify the blocks. *)
Record certified (free params : gset ustring) (A : gmap Z point) (blocks : list MirBasicBlock) : Prop := {
  cert_ids : id <$> blocks = seqZ 0 (Z.of_nat (length blocks));
  cert_start : A !! 0 = Some (start_point params);
  cert_known : ∀ k, is_Some (A !! k) → k ∈ id <$> blocks;
  cert_values : ∀ k p v, A !! k = Some p → v ∈ p_values p → ∃ b, b ∈ blocks ∧ v ∈ targets b;
  cert_tests : ∀ k p, A !! k = Some p → p_tests p = ∅;
  cert_blocks : ∀ b p, b ∈ blocks → A !! id b = Some p →
    instrs_ok free p (instructions b) ∧ terminator_ok A (end_point p (instructions b)) (terminator b);
  cert_dead : ∀ b, b ∈ blocks → A !! id b = None → instructions b = [] ∧ terminator b = MirUnreachable (u "unterminated lowering block");
  cert_targets : NoDup (concat (targets <$> blocks));
  cert_bindings : NoDup (omap user_binding (concat (instructions <$> blocks)));
  cert_params : ∀ n, n ∈ omap user_binding (concat (instructions <$> blocks)) → n ∉ params;
}.

Lemma new_lowerer_state free f (params := parameter_names f) (q := start_point params)
    (S := [list_to_map (zip (parameter_name <$> parameters f) (parameter_name <$> parameters f))]) :
  state free params {[0 := Placed q]} S [] q q (new_lowerer f) ∧ covers params S.
Proof.
  assert (∀ n x, (list_to_map (zip (parameter_name <$> parameters f) (parameter_name <$> parameters f)) : gmap ustring ustring) !! n = Some x →
    x ∈ params) as Hin.
  { intros n x Hx%elem_of_list_to_map_2%elem_of_zip_r. by apply elem_of_list_to_set. }
  split.
  - exists {[0 := q]}, (mk_mutable_block 0 [] None), q. cbn [new_lowerer open_blocks current]. rewrite !lookup_singleton_eq.
    split_and!; try done. split; try done.
    + split; cbn [new_lowerer open_blocks next_block next_value used_binding_names].
      * by intros k b [<- <-]%lookup_singleton_Some.
      * intros k Hk. replace k with 0 by lia. rewrite lookup_singleton_eq. by eexists.
      * intros k p [<- <-]%lookup_singleton_Some. split_and!; [lia|lia|done|]. by intros v ?%elem_of_empty.
      * intros k b p [<- <-]%lookup_singleton_Some [_ <-]%lookup_singleton_Some. by split.
      * intros k b [<- <-]%lookup_singleton_Some. by rewrite lookup_singleton_eq.
      * split; [intros k b [<- <-]%lookup_singleton_Some; constructor|].
        by intros k1 k2 b1 b2 x [<- <-]%lookup_singleton_Some [<- <-]%lookup_singleton_Some.
      * by intros k b v [<- <-]%lookup_singleton_Some ?%elem_of_nil.
      * split; [intros k b [<- <-]%lookup_singleton_Some; constructor|].
        by intros k1 k2 b1 b2 x [<- <-]%lookup_singleton_Some [<- <-]%lookup_singleton_Some.
      * by intros k b v [<- <-]%lookup_singleton_Some ?%elem_of_nil.
      * done.
    + intros k s [<- <-]%lookup_singleton_Some. apply lookup_singleton_eq.
    + split; [|by intros ?? ?%elem_of_nil]. intros scope n x ->%list_elem_of_singleton. apply Hin.
  - intros n Hn. eexists. split; [left|]. unfold params, parameter_names in Hn. rewrite elem_of_list_to_set in Hn.
    destruct (list_to_map _ !! n) eqn:E; [by eexists|]. apply not_elem_of_list_to_map_2 in E. destruct E.
    rewrite fst_zip; done.
Qed.

Lemma sort_blocks_perm (m : gmap Z _MutableBlock) : merge_sort block_order (map_to_list m).*2 ≡ₚ (map_to_list m).*2.
Proof. apply merge_sort_Permutation. Qed.

#[local] Instance block_order_total : Total block_order.
Proof. intros x y. unfold block_order. lia. Qed.
#[local] Instance block_order_trans : Transitive block_order.
Proof. intros x y z. unfold block_order. lia. Qed.

Lemma elem_of_sorted (m : gmap Z _MutableBlock) (b : _MutableBlock) : (∀ k b, m !! k = Some b → block_id b = k) →
  b ∈ merge_sort block_order (map_to_list m).*2 ↔ m !! block_id b = Some b.
Proof.
  intros Hid. rewrite sort_blocks_perm, list_elem_of_fmap. split.
  - intros ([k b'] & -> & Hk%elem_of_map_to_list). cbn [snd]. by rewrite (Hid k b' Hk).
  - intros Hb. exists (block_id b, b). split; [done|]. by apply elem_of_map_to_list.
Qed.

Lemma sorted_seq n : ∀ i, StronglySorted Z.le (Z.of_nat <$> seq i n).
Proof.
  induction n as [|n IH]; intros i; cbn [seq fmap list_fmap]; constructor; [apply IH|].
  apply Forall_forall. intros x (j & -> & Hj%elem_of_seq)%list_elem_of_fmap. lia.
Qed.

Lemma sorted_seqZ n : StronglySorted Z.le (seqZ 0 n).
Proof.
  replace (seqZ 0 n) with (Z.of_nat <$> seq 0 (Z.to_nat n)); [apply sorted_seq|].
  unfold seqZ. apply list_fmap_ext. intros _ x _. lia.
Qed.

(** The blocks come out in the order of their ids, without a gap. *)
Lemma sorted_ids (m : gmap Z _MutableBlock) n :
  (∀ k b, m !! k = Some b → block_id b = k ∧ 0 <= k < n) → (∀ k, 0 <= k < n → is_Some (m !! k)) →
  block_id <$> merge_sort block_order (map_to_list m).*2 = seqZ 0 n.
Proof.
  intros H1 H2. apply (StronglySorted_unique Z.le).
  - pose proof (StronglySorted_merge_sort block_order (map_to_list m).*2) as Hs.
    induction Hs as [|x l Hs IH Hx]; cbn; constructor; [done|]. by apply Forall_fmap.
  - apply sorted_seqZ.
  - apply NoDup_Permutation.
    + rewrite sort_blocks_perm. replace (block_id <$> (map_to_list m).*2) with (map_to_list m).*1; [apply NoDup_fst_map_to_list|].
      rewrite <- list_fmap_compose. apply list_fmap_ext. intros i [k b] Hi%list_elem_of_lookup_2%elem_of_map_to_list.
      cbn. symmetry. by apply (H1 k b).
    + apply NoDup_seqZ.
    + intros k. rewrite elem_of_seqZ, list_elem_of_fmap. split.
      * intros (b & -> & Hb%elem_of_sorted); [|intros k' b' Hkb; by apply H1]. destruct (H1 _ _ Hb). lia.
      * intros Hk. destruct (H2 k ltac:(lia)) as [b Hb]. destruct (H1 k b Hb) as [<- _]. exists b. split; [done|].
        apply elem_of_sorted; [intros k' b' Hkb; by apply H1|done].
Qed.

Lemma concat_labels {X} (label : MirInstruction → option X) l :
  omap label (concat (instructions <$> (freeze <$> l))) = concat (labels label <$> l).
Proof. induction l as [|b l IH]; [done|]. cbn [fmap list_fmap concat instructions freeze]. by rewrite omap_app, IH. Qed.

(** Labels that occur once in the blocks occur once in their list. *)
Lemma NoDup_labels {X} (label : MirInstruction → option X) (m : gmap Z _MutableBlock) l :
  unique_labels label m → NoDup (block_id <$> l) → (∀ b, b ∈ l → m !! block_id b = Some b) →
  NoDup (concat (labels label <$> l)).
Proof.
  intros [Hnd Hap]. induction l as [|b l IH]; cbn [fmap list_fmap concat]; [constructor|].
  intros [Hb Hl]%NoDup_cons Hin. apply NoDup_app. split; [by eapply Hnd, Hin; left|]. split.
  - intros x Hx (b' & Hb' & Hx')%elem_of_concat_fmap. destruct Hb. apply list_elem_of_fmap. exists b'. split; [|done].
    eapply (Hap _ _ b b' x); try done; apply Hin; [left|by right].
  - apply IH; [done|]. intros b' Hb'. apply Hin. by right.
Qed.

(** What [freeze] keeps of the certificate. *)
Lemma freeze_certified free params A st : good free params A st → A !! 0 = Some (start_point params) →
  certified free params A (freeze <$> merge_sort block_order (map_to_list (open_blocks st)).*2).
Proof.
  intros [] H0. set (l := merge_sort _ _).
  assert (∀ k b, open_blocks st !! k = Some b → block_id b = k) as Hid by (intros k b H; by apply g_ids).
  assert (∀ b, b ∈ l ↔ open_blocks st !! block_id b = Some b) as Hl by (intros b; by apply elem_of_sorted).
  assert (block_id <$> l = seqZ 0 (next_block st)) as Hseq by by apply sorted_ids.
  assert (id <$> (freeze <$> l) = block_id <$> l) as Hids by (rewrite <- list_fmap_compose; by apply list_fmap_ext).
  assert (∀ k, k ∈ block_id <$> l ↔ 0 <= k < next_block st) as Hk by (intros k; rewrite Hseq, elem_of_seqZ; lia).
  destruct (g_entries 0 _ H0) as (Hz & _ & _).
  split.
  - rewrite Hids, Hseq. f_equal. apply (f_equal length) in Hseq. rewrite length_fmap, length_seqZ in Hseq. rewrite length_fmap. lia.
  - done.
  - intros k [p Hp]. rewrite Hids, Hk. by apply g_entries in Hp as [? _].
  - intros k p v Hp Hv. apply g_entries in Hp as (_ & _ & H). destruct (H v Hv) as (j & b & Hj & Hin). exists (freeze b).
    split; [|done]. apply list_elem_of_fmap_2, Hl. by rewrite (Hid j b Hj).
  - intros k p Hp. by apply g_entries in Hp as (_ & ? & _).
  - intros b p (b' & -> & Hb%Hl)%list_elem_of_fmap Hp. destruct (g_blocks _ _ _ Hb Hp) as [Hi Ht].
    split; [done|]. cbn [freeze terminator instructions]. destruct (block_terminator b') as [t|]; [by apply Ht|].
    split; [by intros v ?%elem_of_nil|done].
  - intros b (b' & -> & Hb%Hl)%list_elem_of_fmap Hp. destruct (g_pending _ _ Hb Hp) as [Hi Ht]. cbn. by rewrite Ht.
  - replace (concat (targets <$> (freeze <$> l))) with (concat (labels target_of <$> l)).
    + eapply NoDup_labels; [done| |by intros b ?%Hl]. rewrite Hseq. apply NoDup_seqZ.
    + f_equal. rewrite <- list_fmap_compose. by apply list_fmap_ext.
  - rewrite concat_labels. eapply NoDup_labels; [done| |by intros b ?%Hl]. rewrite Hseq. apply NoDup_seqZ.
  - intros n. rewrite concat_labels. intros (b & Hb%Hl & Hn)%elem_of_concat_fmap. by eapply g_used.
Qed.

(** The lowering of a function ends with certified blocks, or with an error that
the report or the shape of the source causes. *)
Lemma lower_body_certified f :
  match lower_body typed_report function f with
  | Done blocks => ∃ A, certified (free_names f) (parameter_names f) A blocks
  | Raise e => expected e = true
  | NoFuel => False
  end.
Proof.
  set (D := parameter_names f). destruct (new_lowerer_state (free_names f) f) as [Hst Hcov].
  destruct (free_list_threads (free_names f)
    (λ i D0 s, statement_ok (free_names f) D D0 (declares D0 s) (lower_statement typed_report function [i] s)) (statements (body f)) 0 D)
    as [D' Ht]; [|done|].
  { intros i D0 s _ Hs. refine (proj1 (lowers_statement (free_names f) D typed_report function s D0 [i] _ Hs)).
    apply (lowers_all (free_names f) D typed_report function (NStatement s)). }
  apply lower_statements_ok in Ht. unfold lower_body. cbv zeta.
  match goal with |- context [?m (new_lowerer f)] => set (run := m) end.
  assert (wp run (new_lowerer f) (λ _ st', ∃ A, good (free_names f) D A st' ∧ A !! 0 = Some (start_point D))) as Hrun.
  { apply wp_bind. eapply wp_mono; [by eapply (Ht (start_point D))|]. cbn beta.
    assert (∀ S L c st1, ended (free_names f) D {[0 := Placed (start_point D)]} S L c st1 →
      ∃ A, good (free_names f) D A st1 ∧ A !! 0 = Some (start_point D)) as Hended.
    { intros S L c st1 (A & b & t & [Hg Hk _ _ _] & _). exists A. split; [done|]. apply (Hk 0 (Placed (start_point D))), lookup_singleton_eq. }
    intros [] st1 (scope & c & [He|(q & Hst1 & _)]); apply wp_bind.
    - eapply wp_terminated_ended; [done|]. apply wp_ret. by eapply Hended.
    - eapply wp_terminated_open; [done|]. eapply wp_return; [done|by intros x|]. intros st2 He. by eapply Hended. }
  unfold wp in Hrun. destruct (run (new_lowerer f)) as [[[] st]|e|]; cbn [mbind outcome_bind]; [|done..].
  destruct Hrun as (A & Hg & H0). exists A. by apply freeze_certified.
Qed.
End function.

(** * What a certificate gives *)

(** The values [V] and the names [N] that some path from block 0 to block [k] has
defined and bound. *)
Inductive path_defines (blocks : list MirBasicBlock) (params : gset ustring) : Z → gset Z → gset ustring → Prop :=
  | path_start : path_defines blocks params 0 ∅ params
  | path_edge b V N s : path_defines blocks params (id b) V N → b ∈ blocks → s ∈ successors (terminator b) →
      path_defines blocks params s (V ∪ list_to_set (targets b)) (N ∪ list_to_set (omap bound_name (instructions b))).

Definition named (i : MirInstruction) : option ustring :=
  match i with MirLoad _ n _ _ | MirStore n _ _ _ => Some n | _ => None end.

Section consequences.
Context (free params : gset ustring) (A : gmap Z point) (blocks : list MirBasicBlock).
Context (Hcert : certified free params A blocks).

Lemma instrs_ok_middle p l1 i l2 : instrs_ok free p (l1 ++ i :: l2) → instr_ok free (end_point p l1) i.
Proof.
  revert p. induction l1 as [|j l1 IH]; intros p; cbn [app instrs_ok]; [by intros [? _]|].
  intros [_ H]. by apply IH in H.
Qed.

Lemma certified_entry b : b ∈ blocks → A !! id b = None ∨ ∃ p, A !! id b = Some p ∧
  instrs_ok free p (instructions b) ∧ terminator_ok A (end_point p (instructions b)) (terminator b).
Proof.
  intros Hb. destruct (A !! id b) as [p|] eqn:E; [right|by left]. exists p. split; [done|]. by eapply cert_blocks.
Qed.

Lemma certified_successor b s p : b ∈ blocks → A !! id b = Some p → s ∈ successors (terminator b) →
  ∃ r, A !! s = Some r ∧ p_values r ⊆ p_values (end_point p (instructions b)) ∧
    p_names r ⊆ p_names (end_point p (instructions b)).
Proof.
  intros Hb Hp Hs. destruct (cert_blocks _ _ _ _ Hcert b p Hb Hp) as [_ [_ Ht]].
  destruct (terminator b); cbn [successors] in Hs; try by apply elem_of_nil in Hs.
  - destruct Ht as (r & Hr & []). apply list_elem_of_singleton in Hs as ->. by exists r.
  - destruct Ht as [(r1 & H1 & [Hv1 Hn1 _]) (r2 & H2 & [])]. apply elem_of_cons in Hs as [->|Hs]; [by exists r1|].
    apply list_elem_of_singleton in Hs as ->. by exists r2.
Qed.

Lemma certified_registered b i : b ∈ blocks → i ∈ instructions b → is_mir_v4_instruction i = true.
Proof.
  intros Hb (l1 & l2 & Hi)%list_elem_of_split. destruct (certified_entry b Hb) as [Hn|(p & Hp & Hok & _)].
  - destruct (cert_dead _ _ _ _ Hcert b Hb Hn) as [E _]. rewrite E in Hi. by destruct l1.
  - rewrite Hi in Hok. by apply instrs_ok_middle in Hok as [].
Qed.

Lemma uses_operands i v : v ∈ uses_of i → v ∈ operands i.
Proof. destruct i; cbn [operands]; try done; cbn; rewrite ?elem_of_cons; tauto. Qed.

Lemma certified_cfg : cfg_ok blocks.
Proof.
  split.
  - pose proof (cert_known _ _ _ _ Hcert 0 ltac:(rewrite (cert_start _ _ _ _ Hcert); by eexists)) as H0.
    pose proof (cert_ids _ _ _ _ Hcert) as Hids. destruct blocks as [|b rest]; [by apply elem_of_nil in H0|].
    exists b, rest. split; [done|]. cbn [length fmap list_fmap] in Hids. rewrite seqZ_cons in Hids by lia. by injection Hids.
  - rewrite (cert_ids _ _ _ _ Hcert). apply NoDup_seqZ.
  - apply Hcert.
  - intros b s Hb Hs. destruct (certified_entry b Hb) as [Hn|(p & Hp & _)].
    + destruct (cert_dead _ _ _ _ Hcert b Hb Hn) as [_ E]. rewrite E in Hs. by apply elem_of_nil in Hs.
    + destruct (certified_successor b s p Hb Hp Hs) as (r & Hr & _). apply (cert_known _ _ _ _ Hcert). by rewrite Hr.
  - intros b v Hb Hv. destruct (certified_entry b Hb) as [Hn|(p & Hp & Hok & Ht & _)].
    { destruct (cert_dead _ _ _ _ Hcert b Hb Hn) as [E1 E2]. unfold block_uses in Hv. rewrite E1, E2 in Hv. by apply elem_of_nil in Hv. }
    assert (∀ l, l ⊆ instructions b → v ∈ p_values (end_point p l) → ∃ b', b' ∈ blocks ∧ v ∈ targets b') as Hdef.
    { intros l Hl [H|H]%end_point_values; [by eapply (cert_values _ _ _ _ Hcert)|]. exists b. split; [done|].
      apply list_elem_of_omap in H as (i & Hi & E). apply list_elem_of_omap. exists i. split; [by apply Hl|done]. }
    unfold block_uses in Hv. apply elem_of_app in Hv as [(i & Hi & Hv)%elem_of_concat_fmap|Hv].
    + apply list_elem_of_split in Hi as (l1 & l2 & E). rewrite E in Hok. apply instrs_ok_middle in Hok as [Hops _ _ _].
      apply (Hdef l1); [rewrite E; intros x; rewrite elem_of_app; by left|]. by apply Hops, uses_operands.
    + by apply (Hdef (instructions b)); [|apply Ht].
Qed.

Lemma tested_once b c f g : b ∈ blocks → tested b c f → tested b c g → f = g.
Proof.
  intros Hb (i & Hi & Hf) (j & Hj & Hg).
  assert (i = j) as <-.
  { apply (omap_NoDup_unique target_of (instructions b) c); try done; [|by eapply tests_for_target..].
    by eapply (block_targets_NoDup blocks), Hb; apply Hcert. }
  destruct Hf as (? & ? & ->), Hg as (? & ? & [= E1 E2 _ _]). destruct f, g. cbn in *. by subst.
Qed.

(** What a path has tested on the way to a block is in the facts of its entry. *)
Lemma certified_facts k F : reaches blocks k F → ∃ p, A !! k = Some p ∧ ∀ f, f ∈ p_facts p → f ∈ F.
Proof.
  assert (∀ b p, b ∈ blocks → A !! id b = Some p → p_facts (end_point p (instructions b)) = p_facts p) as Hfacts.
  { intros. apply end_point_facts. }
  assert (∀ b p c f r, b ∈ blocks → A !! id b = Some p → r ⊑ taken c (end_point p (instructions b)) → f ∈ p_facts r →
    f ∈ p_facts p ∨ tested b c f) as Htaken.
  { intros b p c f r Hb Hp [_ _ Hr] Hf. apply Hr in Hf. cbn in Hf. rewrite end_point_facts in Hf.
    apply elem_of_union in Hf as [?|Hf]; [by left|right]. apply elem_of_map in Hf as ([c' f'] & -> & Ht).
    apply elem_of_filter in Ht as [Ec Ht]. cbn in Ec. subst c'. apply end_point_tests in Ht as [Ht|Ht]; [|done].
    rewrite (cert_tests _ _ _ _ Hcert _ _ Hp) in Ht. by apply elem_of_empty in Ht. }
  induction 1 as [|b F t _ (p & Hp & HF) Hb Et|b F c t e _ (p & Hp & HF) Hb Et|b F c t e _ (p & Hp & HF) Hb Et Hno
    |b F c t e f _ (p & Hp & HF) Hb Et Hf].
  - exists (start_point params). split; [apply Hcert|]. by intros f ?%elem_of_empty.
  - destruct (cert_blocks _ _ _ _ Hcert b p Hb Hp) as [_ [_ Ht]]. rewrite Et in Ht. destruct Ht as (r & Hr & [_ _ Hle]).
    exists r. split; [done|]. intros f Hf. apply HF. rewrite <- (Hfacts b p Hb Hp). by apply Hle.
  - destruct (cert_blocks _ _ _ _ Hcert b p Hb Hp) as [_ [_ Ht]]. rewrite Et in Ht. destruct Ht as [_ (r & Hr & [_ _ Hle])].
    exists r. split; [done|]. intros f Hf. apply HF. rewrite <- (Hfacts b p Hb Hp). by apply Hle.
  - destruct (cert_blocks _ _ _ _ Hcert b p Hb Hp) as [_ [_ Ht]]. rewrite Et in Ht. destruct Ht as [(r & Hr & Hle) _].
    exists r. split; [done|]. intros f Hf. destruct (Htaken b p c f r Hb Hp Hle Hf) as [?|Hx]; [by apply HF|by apply Hno in Hx].
  - destruct (cert_blocks _ _ _ _ Hcert b p Hb Hp) as [_ [_ Ht]]. rewrite Et in Ht. destruct Ht as [(r & Hr & Hle) _].
    exists r. split; [done|]. intros g Hg. destruct (Htaken b p c g r Hb Hp Hle Hg) as [?|Hx]; [right; by apply HF|].
    assert (f = g) as ->; [|left]. by apply (tested_once b c).
Qed.

(** Every payload is extracted behind a test of the same value and variant. *)
Lemma certified_payload b F t s v ty l : b ∈ blocks → MirVariantPayload t s v ty l ∈ instructions b →
  reaches blocks (id b) F → (s, v) ∈ F.
Proof.
  intros Hb (l1 & l2 & E)%list_elem_of_split (p & Hp & HF)%certified_facts. apply HF.
  destruct (cert_blocks _ _ _ _ Hcert b p Hb Hp) as [Hok _]. rewrite E in Hok. apply instrs_ok_middle in Hok as [_ _ _ [_ Hf]].
  by rewrite end_point_facts in Hf.
Qed.

Lemma end_point_names p l n : n ∈ p_names (end_point p l) ↔ n ∈ p_names p ∨ n ∈ omap bound_name l.
Proof.
  revert p. induction l as [|i l IH]; intros p; cbn [end_point foldl omap list_omap].
  - split; [by left|]. by intros [?|?%elem_of_nil].
  - unfold end_point in IH. rewrite IH. cbn [after p_names]. destruct (bound_name i); [rewrite elem_of_cons|]; set_solver.
Qed.

Lemma certified_path k V N : path_defines blocks params k V N → ∃ p, A !! k = Some p ∧ p_values p ⊆ V ∧ p_names p ⊆ N.
Proof.
  induction 1 as [|b V N s _ (p & Hp & HV & HN) Hb Hs].
  - exists (start_point params). split; [apply Hcert|]. done.
  - destruct (certified_successor b s p Hb Hp Hs) as (r & Hr & Hrv & Hrn). exists r. split; [done|]. split.
    + intros v [Hv|Hv]%Hrv%end_point_values; [|apply elem_of_union_r; by apply elem_of_list_to_set].
      apply elem_of_union_l. by apply HV.
    + intros n [Hn|Hn]%Hrn%end_point_names; [|apply elem_of_union_r; by apply elem_of_list_to_set].
      apply elem_of_union_l. by apply HN.
Qed.

(** At every instruction the operands are defined and the name is bound. *)
Lemma certified_assigned b V N l1 i l2 : path_defines blocks params (id b) V N → b ∈ blocks → instructions b = l1 ++ i :: l2 →
  (∀ v, v ∈ operands i → v ∈ V ∨ v ∈ omap target_of l1) ∧
  (∀ n, named i = Some n → n ∈ N ∨ n ∈ omap bound_name l1 ∨ n ∈ free).
Proof.
  intros (p & Hp & HV & HN)%certified_path Hb E. destruct (cert_blocks _ _ _ _ Hcert b p Hb Hp) as [Hok _].
  rewrite E in Hok. apply instrs_ok_middle in Hok as [Hops _ Hname _]. split.
  - intros v [Hv|Hv]%Hops%end_point_values; [left; by apply HV|by right].
  - intros n Hn. assert (n ∈ p_names (end_point p l1) ∨ n ∈ free) as [[H|H]%end_point_names|H]; [|left; by apply HN|right; by left|right; by right].
    destruct i; try done; by injection Hn as <-.
Qed.

Lemma certified_terminator b V N v : path_defines blocks params (id b) V N → b ∈ blocks → v ∈ terminator_uses (terminator b) →
  v ∈ V ∨ v ∈ targets b.
Proof.
  intros (p & Hp & HV & HN)%certified_path Hb Hv. destruct (cert_blocks _ _ _ _ Hcert b p Hb Hp) as [_ [Ht _]].
  apply Ht, end_point_values in Hv as [Hv|Hv]; [left; by apply HV|by right].
Qed.

(** Only constructed variants can lack a canonical identity. *)
Lemma certified_identity b i v : b ∈ blocks → i ∈ instructions b → variant_of i = Some v →
  _canonical_variant_identity v = true ∨ ∃ t s ty l, i = MirVariantConstruct t v s ty l.
Proof.
  intros Hb (l1 & l2 & Hi)%list_elem_of_split Hv. destruct (certified_entry b Hb) as [Hn|(p & Hp & Hok & _)].
  { destruct (cert_dead _ _ _ _ Hcert b Hb Hn) as [E _]. rewrite E in Hi. by destruct l1. }
  rewrite Hi in Hok. apply instrs_ok_middle in Hok as [_ _ _ Hid].
  destruct i; try done; injection Hv as <-; cbn in Hid; [right; by eexists _, _, _, _|by left|left; by destruct Hid].
Qed.

(** The validator accepts the blocks if the constructed variants are canonical and
no extraction is in a dead block. *)
Lemma certified_validates : validate_blocks blocks = Done () ↔
  (∀ b, b ∈ blocks → identities_ok b) ∧
  ∀ b t s v ty l, b ∈ blocks → MirVariantPayload t s v ty l ∈ instructions b → ∃ F, reaches blocks (id b) F.
Proof.
  rewrite validate_accepts. split.
  - intros [_ [_ Hid Hp]]. split; [done|]. intros b t s v ty l Hb Hi. by destruct (Hp b t s v ty l Hb Hi).
  - intros [Hid Hp]. split; [apply certified_cfg|]. split; [by apply certified_registered|done|].
    intros b t s v ty l Hb Hi. split; [by eapply Hp|]. intros F. by eapply certified_payload.
Qed.

(** The scope gate finds nothing in the function. *)
Lemma certified_scope f : MirGraph.blocks f = blocks → list_to_set (mir_parameter_name <$> mir_parameters f) = params →
  function_scope_reasons f = [].
Proof.
  intros E Hp. apply function_scope_spec. unfold user_bindings. rewrite E. split; [apply Hcert|].
  intros n Hn Hin. eapply (cert_params _ _ _ _ Hcert n); [done|]. subst params. by apply elem_of_list_to_set.
Qed.
End consequences.

(** * Correctness of the lowering *)

Section lowered.
Context `{HU : Unicode} (typed_report : TypedHIRReport) (function : nat) (f : FunctionDeclaration).

(** C22: Lowering a function terminates.  It either raises an error that the checker's
report or the shape of the source causes - never one about the lowerer's own state,
such as a terminated block or a missing scope - or it builds a well-formed
control-flow graph with single assignment, made of registered instructions, in
which every path to the extraction of a payload has tested the same value for the
same variant. *)
Theorem lowering_valid :
  match lower_body typed_report function f with
  | Done blocks =>
      cfg_ok blocks ∧
      (∀ b i, b ∈ blocks → i ∈ instructions b → is_mir_v4_instruction i = true) ∧
      (∀ b F t s v ty l, b ∈ blocks → MirVariantPayload t s v ty l ∈ instructions b → reaches blocks (id b) F → (s, v) ∈ F)
  | Raise e => expected e = true
  | NoFuel => False
  end.
Proof.
  pose proof (lower_body_certified typed_report function f) as H.
  destruct (lower_body _ _ _) as [blocks|e|]; [|done..]. destruct H as [A HA].
  split; [by eapply certified_cfg|]. split; [by eapply certified_registered|by eapply certified_payload].
Qed.

Lemma lower_body_done blocks : lower_body typed_report function f = Done blocks →
  ∃ A, certified (free_names f) (parameter_names f) A blocks.
Proof. intros E. pose proof (lower_body_certified typed_report function f) as H. by rewrite E in H. Qed.

(** C24: In lowered code every operand of an instruction or of a terminator is defined
and every name that is loaded or stored is bound on every path that leads there;
only names that are free in the source function are taken from outside. *)
Theorem lowered_assigned blocks b V N :
  lower_body typed_report function f = Done blocks →
  path_defines blocks (parameter_names f) (id b) V N → b ∈ blocks →
  (∀ l1 i l2, instructions b = l1 ++ i :: l2 →
    (∀ v, v ∈ operands i → v ∈ V ∨ v ∈ omap target_of l1) ∧
    (∀ n, named i = Some n → n ∈ N ∨ n ∈ omap bound_name l1 ∨ n ∈ free_names f)) ∧
  (∀ v, v ∈ terminator_uses (terminator b) → v ∈ V ∨ v ∈ targets b).
Proof.
  intros [A HA]%lower_body_done Hp Hb. split.
  - intros l1 i l2 E. by eapply certified_assigned.
  - intros v. by eapply certified_terminator.
Qed.

(** C25: The validator that ends the lowering accepts the blocks exactly if the variants
they construct have canonical identities and no payload is extracted in a block
that no path reaches. *)
Theorem lowering_accepted blocks :
  lower_body typed_report function f = Done blocks →
  (lower_function_blocks_v1 typed_report function f = Done blocks ↔
   (∀ b t v s ty l, b ∈ blocks → MirVariantConstruct t v s ty l ∈ instructions b → _canonical_variant_identity v = true) ∧
   (∀ b t s v ty l, b ∈ blocks → MirVariantPayload t s v ty l ∈ instructions b → ∃ F, reaches blocks (id b) F)).
Proof.
  intros E. destruct (lower_body_done _ E) as [A HA]. unfold lower_function_blocks_v1. rewrite E. cbn [mbind outcome_bind].
  assert (match validate_blocks blocks with Done () => Done blocks | Raise e => Raise (Invalid e) | NoFuel => NoFuel end = Done blocks ↔
    validate_blocks blocks = Done ()) as -> by by destruct (validate_blocks blocks) as [[]| |].
  rewrite (certified_validates _ _ _ _ HA). split; intros [H1 H2]; (split; [|done]).
  - intros b t v s ty l Hb Hi. by apply (H1 b Hb _ v Hi).
  - intros b Hb i v Hi Hv. destruct (certified_identity _ _ _ _ HA b i v Hb Hi Hv) as [?|(t & s & ty & l & ->)]; [done|by eapply H1].
Qed.
End lowered.

(** C26: The scope gate accepts every lowered function: the lowerer gives each binding
of the source a MIR name of its own, also when a name is declared twice or hides a
parameter. *)
Theorem lowered_scope `{HU : Unicode} typed_report index (f : MirFunction) :
  lower_body typed_report index (declaration f) = Done (blocks f) →
  mir_parameter_name <$> mir_parameters f = parameter_name <$> parameters (declaration f) →
  function_scope_reasons f = [].
Proof.
  intros [A HA]%lower_body_done Hp. eapply certified_scope; [done|done|]. by rewrite Hp.
Qed.

(** ** A function

[fn f(o) { let x = 1; match o { Some(x) => x, None => x } }] with the report of
the checker: the arm hides [x]. *)

Definition here : SourceLocation := mk_location 1 1.
Definition option_int : TypeNode := GenericType (u "Option") [NamedType (u "Int")].
Definition some_arm : MatchArm := mk_arm (u "Some") (Some (u "x")) (ArmExpression (Identifier (u "x") here)) here.
Definition none_arm : MatchArm := mk_arm (u "None") None (ArmExpression (Identifier (u "x") here)) here.

Definition match_function : FunctionDeclaration :=
  mk_function (u "f") [mk_parameter (u "o") (mk_type_ref [u "Option"] here) here] None
    (mk_block [LetStatement (u "x") false (Literal (LitValue (VInt 1)) here) here None;
               ExpressionStatement (MatchExpression (Identifier (u "o") here) [some_arm; none_arm] here) here])
    here false [] false.

Definition match_report : TypedHIRReport :=
  mk_typed_report [] [] 0
    [mk_match_resolution (0%nat, [1; 0]%nat) option_int
       [mk_arm_resolution some_arm (u "Option") (u "Some") (u "Option::Some") (Some (NamedType (u "Int"))) (Some (NamedType (u "Int")));
        mk_arm_resolution none_arm (u "Option") (u "None") (u "Option::None") None None] true]
    [] [] [] [].

Definition match_blocks : list MirBasicBlock :=
  match lower_body (H := ascii_only) match_report 0 match_function with Done blocks => blocks | _ => [] end.

Example match_lowered : lower_body (H := ascii_only) match_report 0 match_function = Done match_blocks.
Proof. vm_compute. reflexivity. Qed.

(** The block of the arm of [Some], and the path to it. *)
Definition some_block : MirBasicBlock :=
  mk_mir_block 2
    [MirVariantPayload 3 1 (u "Option::Some") (NamedType (u "Int")) here;
     MirBind (u "x$mir1") 3 false (NamedType (u "Int")) here;
     MirLoad 4 (u "x$mir1") UnknownType here;
     MirBind (u "$mir_match_result_0") 4 false UnknownType here] (MirJump 1).

Definition first_block : MirBasicBlock :=
  mk_mir_block 0
    [MirConst 0 (LitValue (VInt 1)) UnknownType here; MirBind (u "x") 0 false UnknownType here;
     MirLoad 1 (u "o") UnknownType here; MirVariantIs 2 1 (u "Option::Some") BOOL here] (MirBranch 2 2 3).

Lemma match_blocks_found : match_blocks !! 0%nat = Some first_block ∧ match_blocks !! 2%nat = Some some_block.
Proof. vm_compute. done. Qed.

Lemma some_block_in : some_block ∈ match_blocks.
Proof. apply list_elem_of_lookup_2 with 2%nat, match_blocks_found. Qed.

Lemma some_block_path : path_defines match_blocks (parameter_names match_function) 2
  (∅ ∪ list_to_set [0; 1; 2]) (parameter_names match_function ∪ list_to_set [u "x"]).
Proof.
  apply (path_edge match_blocks _ first_block ∅ (parameter_names match_function) 2); [constructor| |left].
  apply list_elem_of_lookup_2 with 0%nat, match_blocks_found.
Qed.

Theorem lowered_assigned_witness : path_defines match_blocks (parameter_names match_function) 2
    (∅ ∪ list_to_set [0; 1; 2]) (parameter_names match_function ∪ list_to_set [u "x"]) ∧
  ∀ n, named (MirLoad 4 (u "x$mir1") UnknownType here) = Some n →
    n ∈ parameter_names match_function ∪ list_to_set [u "x"] ∨ n ∈ [u "x$mir1"] ∨ n ∈ free_names match_function.
Proof.
  split; [exact some_block_path|].
  destruct (lowered_assigned (HU := ascii_only) match_report 0 match_function match_blocks some_block _ _ match_lowered some_block_path
    some_block_in) as [H _].
  exact (proj2 (H (firstn 2 (instructions some_block)) (MirLoad 4 (u "x$mir1") UnknownType here)
    (skipn 3 (instructions some_block)) eq_refl)).
Defined.

Theorem lowering_accepted_witness :
  lower_function_blocks_v1 (H := ascii_only) match_report 0 match_function = Done match_blocks ∧ ∃ F, reaches match_blocks 2 F.
Proof.
  assert (lower_function_blocks_v1 (H := ascii_only) match_report 0 match_function = Done match_blocks) as H by (vm_compute; reflexivity).
  split; [exact H|].
  destruct (proj1 (lowering_accepted (HU := ascii_only) match_report 0 match_function match_blocks match_lowered) H) as [_ Hp].
  apply (Hp some_block 3 1 (u "Option::Some") (NamedType (u "Int")) here some_block_in). left.
Defined.

Definition match_mir : MirFunction :=
  mk_mir_function (u "f") [mk_mir_parameter (u "o") option_int] UnknownType [] [] (_resource_contract (u "f") [] match_blocks)
    match_function match_blocks.

Theorem lowered_scope_witness : blocks match_mir = match_blocks ∧ function_scope_reasons match_mir = [].
Proof.
  split; [reflexivity|]. apply (lowered_scope (HU := ascii_only) match_report 0 match_mir); [exact match_lowered|reflexivity].
Defined.

(** ** Where the lowering and the checker disagree *)

Definition bool_at (b : bool) : Expression := Literal (LitBool b) here.
Definition returning : Block := mk_block [ReturnStatement None here].
Definition plain_function (l : list Statement) : FunctionDeclaration :=
  mk_function (u "f") [mk_parameter (u "o") (mk_type_ref [u "Option"] here) here] None (mk_block l) here false [] false.
Definition no_report : TypedHIRReport := mk_typed_report [] [] 0 [] [] [] [] [].

(** [while true { if true { return } else { return } }]: the body has no normal type,
and its last statement is in value position. *)
Lemma returning_loop_body_fails :
  lower_function_blocks_v1 (H := ascii_only) no_report 0
    (plain_function [WhileStatement (bool_at true)
       (mk_block [IfStatement (bool_at true) returning (Some (ElseBlock returning)) here]) here]) = Raise ValueIfType.
Proof. vm_compute. reflexivity. Qed.

Definition returning_arms : list MatchArm := [mk_arm (u "Some") (Some (u "x")) (ArmBlock returning) here].
Definition twice_matched : Statement :=
  ExpressionStatement (MatchExpression (Identifier (u "o") here) returning_arms here) here.
Definition returning_match (p : path) : TypedMatchResolution :=
  mk_match_resolution (0%nat, p) option_int
    [mk_arm_resolution (nth 0 returning_arms some_arm) (u "Option") (u "Some") (u "Option::Some") (Some (NamedType (u "Int")))
       (Some (NamedType (u "Int")))] true.

(** Two matches in a row whose arms return: the second one is in a dead block. *)
Lemma dead_match_rejected :
  lower_function_blocks_v1 (H := ascii_only)
    (mk_typed_report [] [] 0 [returning_match [0; 0]%nat; returning_match [1; 0]%nat] [] [] [] []) 0
    (plain_function [twice_matched; twice_matched]) = Raise (Invalid (PayloadUnproven 4 (u "Option::Some"))).
Proof. vm_compute. reflexivity. Qed.

(** [Some(f())] without a checked type: the argument is lowered, the constructor is
given up, and the call lowers the argument again. *)
Lemma constructor_argument_lowered_twice :
  (λ bs : list MirBasicBlock, length (filter (λ i, class_name i = u "MirCall") (concat (instructions <$> bs)))) <$>
    match lower_function_blocks_v1 (H := ascii_only) no_report 0
      (plain_function [ExpressionStatement (CallExpression (Identifier (u "Some") here)
         [CallExpression (Identifier (u "f") here) [] here] here) here]) with Done bs => Some bs | _ => None end = Some 3%nat.
Proof. vm_compute. reflexivity. Qed.
