(* ===== verification/Value.v ===== *)
(** The values and the scalar operations of the direct MIR executor:
[src/koschei/mir_native_runtime.py] with the arithmetic that
[src/koschei/integer_division_mir_v1.py] and
[src/koschei/direct_mir_type_integrity_v1.py] install over it, and the variant
identities of [src/koschei/mir_variant_runtime_v1.py].

A Python [float] is an IEEE-754 binary64 [spec_float]; an [int] an integer of
any size.  A builder or an iterator is a mutable object, kept in a heap and
named by its location.  [repr] of a [float] is a parameter. *)

From Stdlib Require Import Floats.SpecFloat.
From S2P Require Import Prelude TypeSystem Lexer Ast Mir.

(** * Values *)

Inductive value :=
  | NUnit
  | NBool (b : bool)
  | NInt (z : Z)
  | NFloat (f : spec_float)
  | NString (s : ustring)
  | NTuple (items : list value)
  | NMap (entries : list (ustring * value))
  | NStruct (type_name : ustring) (fields : list (ustring * value))
  | NError (message : ustring)
  (** An [EnumValue]; no payload is [_NO_PAYLOAD]. *)
  | NEnum (enum_name variant : ustring) (payload : option value)
  | NFunction (name module_key : ustring)
  | NModule (key : ustring)
  | NBuiltin (name : ustring)
  (** A [_MapBuilder], a [_StructBuilder] or a [_ListIterator]. *)
  | NObject (loc : nat).

(** The exceptions that end an execution.  The constructors up to [TypeContract]
are the messages of [MirNativeRuntimeError] and its subclasses, the next four
exceptions of Python itself, [Unmodelled] a value or a call outside the model. *)
Inductive run_error :=
  | StepBudgetExceeded
  | CallDepthExceeded
  | UnknownModule (key : ustring)
  | ArgumentCount (function : ustring) (expected got : Z)
  | UnknownBlock (function : ustring) (block : Z)
  | BranchNotBool
  | ReachedUnreachable (reason : ustring)
  | UnknownLoadName (name : ustring)
  | StoreUnknown (name : ustring)
  | StoreImmutable (name : ustring)
  | UnavailableValue (id : Z)
  | NoSuccessProof
  | InvalidIdentity
  | NotAnEnum
  | VariantMismatch
  | NoPayload
  | InvalidMapValue
  | InvalidMapBuilder
  | MapBuilderConsumed
  | MapKeyNotString
  | DuplicateMapKey
  | InvalidStructBuilder
  | DuplicateContractField
  | StructBuilderConsumed
  | FieldOutsideContract (field : ustring)
  | DuplicateFieldAssignment (field : ustring)
  | MissingFields (fields : list ustring)
  | IteratorNeedsList
  | InvalidIterator
  | IteratorPastEnd
  | NoStructField (field : ustring)
  | NoModuleFunction (name : ustring)
  | UnsupportedReceiver
  | UnsupportedInstruction (class_name : ustring)
  | UnknownFunction (name : ustring)
  | NotCallable
  | BuiltinArity (name : ustring)
  | UnaryNeedsBool
  | UnaryNeedsNumber
  | UnsupportedUnary (operator : ustring)
  | UnsupportedBinary (operator : ustring)
  | TypeContract (function : ustring) (parameter : option ustring) (expected : TypeNode)
  | PyKeyError (key : ustring)
  | PyTypeError
  | PyOverflowError
  | PyValueError
  | Unmodelled (what : ustring).

Abbreviation run_result A := (outcome run_error A).

(** * Numbers *)

Definition prec : Z := 53.
Definition emax : Z := 1024.

(** A [bool] is an [int] to Python's arithmetic. *)
Inductive number :=
  | Exact (z : Z)
  | Approx (f : spec_float).

Definition as_number (v : value) : option number :=
  match v with
  | NBool b => Some (Exact (if b then 1 else 0))
  | NInt z => Some (Exact z)
  | NFloat f => Some (Approx f)
  | _ => None
  end.

Definition is_infinite (f : spec_float) : bool := match f with S754_infinity _ => true | _ => false end.

(** [float(z)]. *)
Definition float_of_int (z : Z) : run_result spec_float :=
  let f := binary_normalize prec emax z 0 false in
  if is_infinite f then Raise PyOverflowError else Done f.

Definition to_float (n : number) : run_result spec_float :=
  match n with Exact z => float_of_int z | Approx f => Done f end.

(** An integer and a float compare by their exact values. *)
Definition float_int_compare (f : spec_float) (z : Z) : option comparison :=
  match f with
  | S754_nan => None
  | S754_infinity s => Some (if s : bool then Lt else Gt)
  | S754_zero _ => Some (0 ?= z)
  | S754_finite s m e =>
      let m := if s : bool then Zneg m else Zpos m in
      Some (if 0 <=? e then m * 2 ^ e ?= z else m ?= z * 2 ^ (- e))
  end.

Definition number_compare (a b : number) : option comparison :=
  match a, b with
  | Exact x, Exact y => Some (x ?= y)
  | Approx f, Approx g => SFcompare f g
  | Approx f, Exact y => float_int_compare f y
  | Exact x, Approx g => CompOpp <$> float_int_compare g x
  end.

Definition number_eqb (a b : number) : bool :=
  match number_compare a b with Some Eq => true | _ => false end.

(** The quotient of two integers as a float, [b] not zero. *)
Definition int_true_divide (a b : Z) : run_result spec_float :=
  let finite z := match z with
                  | Z0 => S754_zero false
                  | Zpos p => S754_finite false p 0
                  | Zneg p => S754_finite true p 0
                  end in
  let f := SFdiv prec emax (finite a) (finite b) in
  if is_infinite f then Raise PyOverflowError else Done f.

(** [float(text)] of the digits of a literal. *)
Definition float_of_digits (whole fraction : ustring) : spec_float :=
  match dec_value (whole ++ fraction) with
  | Zpos m => SFdiv prec emax (S754_finite false m 0)
      (S754_finite false (Z.to_pos (10 ^ Z.of_nat (length fraction))) 0)
  | _ => S754_zero false
  end.

(** The value of a [MirConst]; the scanner puts no other value into a literal. *)
Definition const_value (l : literal) : run_result value :=
  match l with
  | LitBool b => Done (NBool b)
  | LitValue (VText s) => Done (NString s)
  | LitValue (VInt z) => Done (NInt z)
  | LitValue (VFloat whole fraction) => Done (NFloat (float_of_digits whole fraction))
  | LitValue VNone | LitValue (VSegments _) => Raise (Unmodelled (u "literal"))
  end.

(** * Comparison *)

Definition is_nan (v : value) : bool := match v with NFloat S754_nan => true | _ => false end.

(** Inside a container Python asks for identity first, which decides for a NaN
with itself; the model does not track the identity of floats. *)
Definition element_eq (eq : value → value → option bool) (x y : value) : option bool :=
  if is_nan x && is_nan y then None else eq x y.

(** [left == right]; [None] when the answer depends on the identity of a float
or on the contents of builders and iterators. *)
Fixpoint py_eq (a b : value) {struct a} : option bool :=
  let fix items (l1 l2 : list value) {struct l1} : option bool :=
    match l1, l2 with
    | [], [] => Some true
    | x :: l1, y :: l2 =>
        equal ← element_eq py_eq x y;
        if equal : bool then items l1 l2 else Some false
    | _, _ => Some false
    end in
  let fix entries (l1 l2 : list (ustring * value)) {struct l1} : option bool :=
    match l1, l2 with
    | [], [] => Some true
    | (k1, x) :: l1, (k2, y) :: l2 =>
        if decide (k1 = k2) then
          equal ← element_eq py_eq x y;
          if equal : bool then entries l1 l2 else Some false
        else Some false
    | _, _ => Some false
    end in
  match as_number a, as_number b with
  | Some x, Some y => Some (number_eqb x y)
  | _, _ =>
      match a, b with
      | NUnit, NUnit => Some true
      | NString s, NString t => Some (bool_decide (s = t))
      | NTuple l1, NTuple l2 => items l1 l2
      | NMap l1, NMap l2 => entries l1 l2
      | NStruct n1 l1, NStruct n2 l2 => if decide (n1 = n2) then entries l1 l2 else Some false
      | NError m1, NError m2 => Some (bool_decide (m1 = m2))
      | NEnum e1 v1 p1, NEnum e2 v2 p2 =>
          if decide (e1 = e2 ∧ v1 = v2) then
            match p1, p2 with
            | None, None => Some true
            | Some x, Some y => element_eq py_eq x y
            | _, _ => Some false
            end
          else Some false
      | NFunction n1 k1, NFunction n2 k2 => Some (bool_decide (n1 = n2 ∧ k1 = k2))
      | NModule k1, NModule k2 => Some (bool_decide (k1 = k2))
      | NBuiltin n1, NBuiltin n2 => Some (bool_decide (n1 = n2))
      | NObject _, NObject _ => None
      | _, _ => Some false
      end
  end.

Definition eq_result (a b : value) : run_result bool :=
  match py_eq a b with Some r => Done r | None => Raise (Unmodelled (u "identity")) end.

(** The four orderings. *)
Inductive ordering := OrdLt | OrdLe | OrdGt | OrdGe.

Definition holds (op : ordering) (c : comparison) : bool :=
  match op, c with
  | OrdLt, Lt | OrdLe, (Lt | Eq) | OrdGt, Gt | OrdGe, (Gt | Eq) => true
  | _, _ => false
  end.

Definition text_compare (s t : ustring) : comparison :=
  if decide (s = t) then Eq else if ustr_leb s t then Lt else Gt.

(** [left op right]: tuples compare at the first position where they differ. *)
Fixpoint py_order (op : ordering) (a b : value) {struct a} : run_result bool :=
  let fix items (l1 l2 : list value) {struct l1} : run_result bool :=
    match l1, l2 with
    | [], [] => Done (holds op Eq)
    | [], _ :: _ => Done (holds op Lt)
    | _ :: _, [] => Done (holds op Gt)
    | x :: l1, y :: l2 =>
        match element_eq py_eq x y with
        | Some true => items l1 l2
        | Some false => py_order op x y
        | None => Raise (Unmodelled (u "identity"))
        end
    end in
  match as_number a, as_number b with
  | Some x, Some y => Done (match number_compare x y with Some c => holds op c | None => false end)
  | _, _ =>
      match a, b with
      | NString s, NString t => Done (holds op (text_compare s t))
      | NTuple l1, NTuple l2 => items l1 l2
      | _, _ => Raise PyTypeError
      end
  end.

(** * Arithmetic *)

(** Integers exactly, mixed operands as floats. *)
Definition number_op (on_int : Z → Z → Z) (on_float : spec_float → spec_float → spec_float) (a b : number)
    : run_result value :=
  match a, b with
  | Exact x, Exact y => Done (NInt (on_int x y))
  | _, _ => f ← to_float a; g ← to_float b; Done (NFloat (on_float f g))
  end.

Definition repeat_list {A} (n : Z) (l : list A) : list A := concat (replicate (Z.to_nat n) l).

Definition py_add (a b : value) : run_result value :=
  match as_number a, as_number b with
  | Some x, Some y => number_op Z.add (SFadd prec emax) x y
  | _, _ =>
      match a, b with
      | NString s, NString t => Done (NString (s ++ t))
      | NTuple l1, NTuple l2 => Done (NTuple (l1 ++ l2))
      | _, _ => Raise PyTypeError
      end
  end.

Definition py_sub (a b : value) : run_result value :=
  match as_number a, as_number b with
  | Some x, Some y => number_op Z.sub (SFsub prec emax) x y
  | _, _ => Raise PyTypeError
  end.

Definition py_mul (a b : value) : run_result value :=
  match as_number a, as_number b with
  | Some x, Some y => number_op Z.mul (SFmul prec emax) x y
  | Some (Exact n), None =>
      match b with
      | NString s => Done (NString (repeat_list n s))
      | NTuple l => Done (NTuple (repeat_list n l))
      | _ => Raise PyTypeError
      end
  | None, Some (Exact n) =>
      match a with
      | NString s => Done (NString (repeat_list n s))
      | NTuple l => Done (NTuple (repeat_list n l))
      | _ => Raise PyTypeError
      end
  | _, _ => Raise PyTypeError
  end.

(** [left / right], the divisor not zero. *)
Definition py_true_divide (a b : value) : run_result value :=
  match as_number a, as_number b with
  | Some (Exact x), Some (Exact y) => f ← int_true_divide x y; Done (NFloat f)
  | Some x, Some y => f ← to_float x; g ← to_float y; Done (NFloat (SFdiv prec emax f g))
  | _, _ => Raise PyTypeError
  end.

(** [_unary] of mir_native_runtime.py. *)
Definition _unary_base (operator : ustring) (operand : value) : run_result value :=
  if decide (operator = u "!") then
    match operand with NBool b => Done (NBool (negb b)) | _ => Raise UnaryNeedsBool end
  else if decide (operator = u "-") then
    match operand with
    | NInt z => Done (NInt (- z))
    | NFloat f => Done (NFloat (SFopp f))
    | _ => Raise UnaryNeedsNumber
    end
  else if decide (operator = u "+") then
    match operand with NInt _ | NFloat _ => Done operand | _ => Raise UnaryNeedsNumber end
  else Raise (UnsupportedUnary operator).

(** [_binary] of mir_native_runtime.py. *)
Definition _binary_base (operator : ustring) (a b : value) : run_result value :=
  if decide (operator = u "+") then py_add a b
  else if decide (operator = u "-") then py_sub a b
  else if decide (operator = u "*") then py_mul a b
  else if decide (operator = u "==") then r ← eq_result a b; Done (NBool r)
  else if decide (operator = u "!=") then r ← eq_result a b; Done (NBool (negb r))
  else if decide (operator = u "<") then r ← py_order OrdLt a b; Done (NBool r)
  else if decide (operator = u "<=") then r ← py_order OrdLe a b; Done (NBool r)
  else if decide (operator = u ">") then r ← py_order OrdGt a b; Done (NBool r)
  else if decide (operator = u ">=") then r ← py_order OrdGe a b; Done (NBool r)
  else Raise (UnsupportedBinary operator).

(** Error texts with the Turkish letters of the source. *)
Definition division_by_zero : ustring := u "S" ++ [305] ++ u "f" ++ [305] ++ u "ra b" ++ [246] ++ u "lme".

Definition division_overflow : ustring :=
  u "KS3501: Int ta" ++ [351] ++ u "mas" ++ [305] ++ u ": '/' i" ++ [351] ++ u "lemi i" ++ [351] ++
  u "aretli 64-bit aral" ++ [305; 287; 305] ++ u "n d" ++ [305; 351; 305] ++ u "na " ++ [231] ++ [305] ++
  u "kt" ++ [305] ++ u ".".

(** Truncating division of Python integers, [b] not zero. *)
Definition int_quotient (a b : Z) : Z :=
  let quotient := Z.abs a / Z.abs b in
  if eqb (a <? 0) (b <? 0) then quotient else - quotient.

(** [type(left) is int and type(right) is int]. *)
Definition both_ints (a b : value) : option (Z * Z) :=
  match a, b with NInt x, NInt y => Some (x, y) | _, _ => None end.

(** [_binary] of integer_division_mir_v1.py. *)
Definition _binary_division (operator : ustring) (a b : value) : run_result value :=
  if decide (operator ≠ u "/") then _binary_base operator a b
  else
    zero ← eq_result b (NInt 0);
    if zero : bool then Done (NError division_by_zero)
    else
      match both_ints a b with
      | Some (x, y) =>
          if (x =? INT64_MIN) && (y =? -1) then Done (NError division_overflow)
          else Done (NInt (int_quotient x y))
      | None => py_true_divide a b
      end.

Definition int_overflow (operator : ustring) : ustring :=
  u "KS3501: Int overflow: '" ++ operator ++ u "' exceeded signed 64-bit range".

Definition negate_overflow : ustring := u "KS3501: Int overflow: unary '-' exceeded signed 64-bit range".

(** The three checked operators on integers. *)
Definition checked_op (operator : ustring) : option (Z → Z → Z) :=
  if decide (operator = u "+") then Some Z.add
  else if decide (operator = u "-") then Some Z.sub
  else if decide (operator = u "*") then Some Z.mul
  else None.

Definition is_error (v : value) : bool := match v with NError _ => true | _ => false end.

(** [_binary] and [_unary] of direct_mir_type_integrity_v1.py, the ones the executor calls. *)
Definition _binary (operator : ustring) (a b : value) : run_result value :=
  if is_error a then Done a
  else if is_error b then Done b
  else
    match checked_op operator, both_ints a b with
    | Some op, Some (x, y) =>
        let result := op x y in
        if in_int64 result then Done (NInt result) else Done (NError (int_overflow operator))
    | _, _ => _binary_division operator a b
    end.

Definition _unary (operator : ustring) (operand : value) : run_result value :=
  match operand with
  | NError _ => Done operand
  | NInt z =>
      if bool_decide (operator = u "-") && (z =? INT64_MIN) then Done (NError negate_overflow)
      else _unary_base operator operand
  | _ => _unary_base operator operand
  end.

(** * Text *)

Section text.
(** [repr] of a [float]. *)
Context (float_repr : spec_float → ustring).

Definition float_text (f : spec_float) : ustring :=
  let text := float_repr f in
  if bool_decide (ch "." ∈ text) || bool_decide (ch "e" ∈ text) || bool_decide (ch "E" ∈ text) then text
  else text ++ u ".0".

(** [str] of an integer: Python refuses more than 4300 digits. *)
Definition int_text (z : Z) : run_result ustring :=
  if INT_MAX_STR_DIGITS <? Z.of_nat (length (str_nat (Z.abs z))) then Raise PyValueError else Done (str_int z).

Definition quoted (s : ustring) : ustring := QUOTE :: s ++ [QUOTE].

(** [_to_string]; the [repr] of the dataclasses is outside the model. *)
Fixpoint _to_string (v : value) : run_result ustring :=
  let _to_container_repr v :=
    match v with
    | NString s => Done (quoted s)
    | _ => _to_string v
    end in
  match v with
  | NUnit => Done (u "unit")
  | NBool b => Done (if b : bool then u "true" else u "false")
  | NFloat f => Done (float_text f)
  | NTuple items =>
      parts ← outcome_map _to_container_repr items;
      Done (u "[" ++ join (u ", ") parts ++ u "]")
  | NMap entries =>
      parts ← outcome_map (λ '(k, item), text ← _to_container_repr item; Done (quoted k ++ u ": " ++ text)) entries;
      Done (u "{" ++ join (u ", ") parts ++ u "}")
  | NError message => Done message
  | NInt z => int_text z
  | NString s => Done s
  | NStruct _ _ | NEnum _ _ _ | NFunction _ _ | NModule _ | NBuiltin _ | NObject _ => Raise (Unmodelled (u "repr"))
  end.

(** ["".join(_to_string(...))]. *)
Definition concat_text (vs : list value) : run_result ustring :=
  parts ← outcome_map _to_string vs; Done (concat parts).
End text.

(** * Variants *)

(** [s.count("::")]: occurrences that do not overlap, left to right. *)
Fixpoint count_colons (s : ustring) : nat :=
  match s with
  | [] => 0
  | c :: s =>
      match s with
      | [] => 0
      | d :: s' => if (c =? ch ":") && (d =? ch ":") then S (count_colons s') else count_colons s
      end
  end.

Definition split_canonical_variant_v1 (canonical_variant : ustring) : run_result (ustring * ustring) :=
  if bool_decide (canonical_variant = []) then Raise InvalidIdentity
  else if negb (count_colons canonical_variant =? 1)%nat then Raise InvalidIdentity
  else
    match partition_colons canonical_variant with
    | Some (owner, variant) =>
        if bool_decide (owner = []) || bool_decide (variant = []) then Raise InvalidIdentity
        else Done (owner, variant)
    | None => Raise InvalidIdentity
    end.

Definition variant_is_v1 (v : value) (canonical_variant : ustring) : run_result bool :=
  '(owner, variant) ← split_canonical_variant_v1 canonical_variant;
  match v with
  | NEnum enum_name name _ => Done (bool_decide (enum_name = owner) && bool_decide (name = variant))
  | _ => Raise NotAnEnum
  end.

Definition variant_payload_v1 (v : value) (canonical_variant : ustring) : run_result value :=
  matches ← variant_is_v1 v canonical_variant;
  if negb matches then Raise VariantMismatch
  else
    match v with
    | NEnum _ _ (Some payload) => Done payload
    | _ => Raise NoPayload
    end.

(** [_unwrap_fallible_value]: success, and the payload or the value itself. *)
Definition _unwrap_fallible_value (v : value) : run_result (bool * value) :=
  match v with
  | NError _ => Done (false, v)
  | NEnum enum_name variant payload =>
      let success := match payload with
                     | Some payload => Done (true, payload)
                     | None => Raise (Unmodelled (u "payload"))
                     end in
      if decide (enum_name = u "Option" ∧ variant = u "Some") then success
      else if decide (enum_name = u "Option" ∧ variant = u "None") then Done (false, v)
      else if decide (enum_name = u "Result" ∧ variant = u "Ok") then success
      else if decide (enum_name = u "Result" ∧ variant = u "Err") then Done (false, v)
      else Done (true, v)
  | _ => Done (true, v)
  end.

(** * Types *)

(** [_matches] of direct_mir_type_integrity_v1.py; the model has no [DataValue]. *)
Definition matches_named (v : value) (name : ustring) : bool :=
  if decide (name = u "Void") then match v with NUnit => true | _ => false end
  else if decide (name = u "Bool") then match v with NBool _ => true | _ => false end
  else if decide (name = u "Int") then match v with NInt z => in_int64 z | _ => false end
  else if decide (name = u "Float") then match v with NFloat _ => true | _ => false end
  else if decide (name = u "String") then match v with NString _ => true | _ => false end
  else if decide (name = u "Error") then match v with NError _ => true | _ => false end
  else if decide (name = u "Data") then false
  else if decide (name = u "List") then match v with NTuple _ => true | _ => false end
  else true.

Fixpoint _matches (expected : TypeNode) (v : value) : bool :=
  match expected with
  | UnknownType | TypeVariable _ => true
  | UnionType options => existsb (λ option, _matches option v) options
  | GenericType name arguments =>
      match arguments with
      | [argument] =>
          if decide (name = u "List") then
            match v with NTuple items => forallb (_matches argument) items | _ => false end
          else true
      | _ => true
      end
  | NamedType name => matches_named v name
  end.

(** * Correctness of the scalar operations *)

Lemma int_quotient_spec a b : b ≠ 0 → int_quotient a b = Z.quot a b.
Proof.
  intros Hb. unfold int_quotient. rewrite <- Z.quot_div_nonneg by lia.
  destruct (Z.ltb_spec a 0) as [Ha|Ha], (Z.ltb_spec b 0) as [Hb'|Hb']; cbn [eqb].
  - rewrite (Z.abs_neq a), (Z.abs_neq b) by lia. by rewrite Z.quot_opp_opp.
  - rewrite (Z.abs_neq a), (Z.abs_eq b) by lia. rewrite Z.quot_opp_l by done. lia.
  - rewrite (Z.abs_eq a), (Z.abs_neq b) by lia. rewrite Z.quot_opp_r by done. lia.
  - rewrite (Z.abs_eq a), (Z.abs_eq b) by lia. done.
Qed.

(** The quotient of 64-bit integers overflows only for the least integer and -1. *)
Lemma quot_in_int64 x y :
  in_int64 x = true → in_int64 y = true → y ≠ 0 →
  (in_int64 (Z.quot x y) = false ↔ x = INT64_MIN ∧ y = -1).
Proof.
  intros Hx%in_int64_spec Hy%in_int64_spec Hne.
  assert (Z.abs (Z.quot x y) <= Z.abs x) as Hle.
  { rewrite <- Z.quot_abs by done. apply Z.quot_le_upper_bound; [lia|]. nia. }
  unfold INT64_MIN, INT64_MAX in *. split.
  - intros Hf. destruct (decide (x = - 2 ^ 63 ∧ y = -1)) as [|Hn]; [done|exfalso].
    assert (in_int64 (Z.quot x y) = true) as Ht; [|congruence]. apply in_int64_spec. unfold INT64_MIN, INT64_MAX.
    destruct (decide (x = - 2 ^ 63)) as [->|]; [|lia]. assert (y ≠ -1) by tauto. clear Hn Hf.
    destruct (decide (y = 1)) as [->|]; [rewrite Z.quot_1_r; lia|].
    assert (Z.abs (Z.quot (- 2 ^ 63) y) < 2 ^ 63); [|lia].
    rewrite <- Z.quot_abs by done. apply Z.quot_lt_upper_bound; lia.
  - intros [-> ->]. vm_compute. reflexivity.
Qed.

(** The result of an operation whose exact value is [r]. *)
Definition checked (r : Z) (overflow : ustring) : value := if in_int64 r then NInt r else NError overflow.

(** C39: On 64-bit integers every binary operation has the mathematical result:
[+], [-] and [*] exactly, [/] truncated towards zero, the comparisons of the
integers.  A result outside the 64-bit range and a division by zero are Error
values, nothing wraps around and nothing is raised but the refusal of an
operator the executor does not have. *)
Theorem int_arithmetic_exact op x y :
  in_int64 x = true → in_int64 y = true →
  _binary op (NInt x) (NInt y) =
    if decide (op = u "+") then Done (checked (x + y) (int_overflow op))
    else if decide (op = u "-") then Done (checked (x - y) (int_overflow op))
    else if decide (op = u "*") then Done (checked (x * y) (int_overflow op))
    else if decide (op = u "/") then
      Done (if y =? 0 then NError division_by_zero else checked (Z.quot x y) division_overflow)
    else if decide (op = u "==") then Done (NBool (x =? y))
    else if decide (op = u "!=") then Done (NBool (negb (x =? y)))
    else if decide (op = u "<") then Done (NBool (x <? y))
    else if decide (op = u "<=") then Done (NBool (x <=? y))
    else if decide (op = u ">") then Done (NBool (y <? x))
    else if decide (op = u ">=") then Done (NBool (y <=? x))
    else Raise (UnsupportedBinary op).
Proof.
  intros Hx Hy. unfold _binary, checked_op, checked. cbn [is_error both_ints].
  destruct (decide (op = u "+")); [by case_match|].
  destruct (decide (op = u "-")); [by case_match|].
  destruct (decide (op = u "*")) as [->|]; [by case_match|].
  unfold _binary_division. destruct (decide (op = u "/")) as [->|].
  - rewrite decide_False by tauto. unfold eq_result. cbn [py_eq as_number number_eqb number_compare].
    unfold number_eqb, number_compare. rewrite <- (Z.eqb_compare y 0). cbn [both_ints].
    destruct (Z.eqb_spec y 0) as [->|Hne]; cbn [mbind outcome_bind]; [done|].
    pose proof (quot_in_int64 x y Hx Hy Hne) as Hq. rewrite int_quotient_spec by done.
    destruct (in_int64 (Z.quot x y)); case_Z; cbn [andb]; try done;
      first [by destruct (proj1 Hq eq_refl)|discriminate (proj2 Hq ltac:(split; done))].
  - rewrite decide_True by tauto. unfold _binary_base.
    destruct (decide (op = u "+")), (decide (op = u "-")), (decide (op = u "*")); try done.
    cbn [py_eq py_order as_number]. unfold eq_result. cbn [py_eq as_number mbind outcome_bind].
    unfold number_eqb, number_compare. destruct (Z.compare_spec x y) as [->|Hlt|Hgt]; cbn [holds];
      case_Z; try lia; repeat case_decide; done.
Qed.

Theorem int_arithmetic_exact_witness :
  _binary (u "/") (NInt INT64_MIN) (NInt (-1)) = Done (NError division_overflow) ∧
  _binary (u "/") (NInt (-7)) (NInt 2) = Done (NInt (-3)).
Proof.
  split.
  - rewrite (int_arithmetic_exact (u "/") INT64_MIN (-1)); [vm_compute; reflexivity|reflexivity|reflexivity].
  - vm_compute. reflexivity.
Defined.

(** * The canonical executor's operators *)

Module Canonical.

(** [bool(value)]. *)
Definition truthy (v : value) : bool :=
  match v with
  | NBool b => b
  | NInt z => negb (z =? 0)
  | NFloat f => match f with S754_zero _ => false | _ => true end
  | NString s => negb (bool_decide (s = []))
  | NTuple items => negb (bool_decide (items = []))
  | _ => true
  end.

Definition overflow (operator : ustring) : ustring :=
  u "KS3501: Int ta" ++ [351] ++ u "mas" ++ [305] ++ u ": '" ++ operator ++ u "'".

(** [MirExecutorV1._binary] of [src/koschei/mir_executor_v1.py]; a list is an [NTuple]. *)
Definition _binary (op : ustring) (a b : value) : run_result value :=
  let as_bool := if is_error b then b else NBool (truthy b) in
  if is_error a then Done a
  else if decide (op = u "&&") then Done (if negb (truthy a) then NBool false else as_bool)
  else if decide (op = u "||") then Done (if truthy a then NBool true else as_bool)
  else if is_error b then Done b
  else
    match checked_op op, both_ints a b with
    | Some f, Some (x, y) =>
        let result := f x y in
        if in_int64 result then Done (NInt result) else Done (NError (overflow op))
    | _, _ =>
        if decide (op = u "+") then py_add a b
        else if decide (op = u "-") then py_sub a b
        else if decide (op = u "*") then py_mul a b
        else if decide (op = u "/") then
          zero ← eq_result b (NInt 0);
          if zero : bool then Done (NError division_by_zero)
          else
            match both_ints a b with
            | Some (x, y) =>
                if (x =? INT64_MIN) && (y =? -1) then Done (NError (overflow op))
                else Done (NInt (int_quotient x y))
            | None => py_true_divide a b
            end
        else
          match (if decide (op = u "%") then both_ints a b else None) with
          | Some (x, y) =>
              if y =? 0 then Done (NError division_by_zero) else Done (NInt (x - int_quotient x y * y))
          | None =>
              if decide (op = u "==") then r ← eq_result a b; Done (NBool r)
              else if decide (op = u "!=") then r ← eq_result a b; Done (NBool (negb r))
              else if decide (op = u "<") then r ← py_order OrdLt a b; Done (NBool r)
              else if decide (op = u "<=") then r ← py_order OrdLe a b; Done (NBool r)
              else if decide (op = u ">") then r ← py_order OrdGt a b; Done (NBool r)
              else if decide (op = u ">=") then r ← py_order OrdGe a b; Done (NBool r)
              else Raise (UnsupportedBinary op)
          end
    end.
End Canonical.

(** Equal results, up to the text of an Error value. *)
Definition same_result (r1 r2 : run_result value) : Prop :=
  match r1, r2 with
  | Done (NError _), Done (NError _) => True
  | _, _ => r1 = r2
  end.

Lemma same_result_refl r : same_result r r.
Proof. by destruct r as [[]| |]. Qed.



(** * Induction on values *)

Section value_induction.
Context (P : value → Prop).
Context (Hunit : P NUnit) (Hbool : ∀ b, P (NBool b)) (Hint : ∀ z, P (NInt z)) (Hfloat : ∀ f, P (NFloat f))
  (Hstring : ∀ s, P (NString s)) (Htuple : ∀ items, Forall P items → P (NTuple items))
  (Hmap : ∀ entries, Forall (λ kv, P kv.2) entries → P (NMap entries))
  (Hstruct : ∀ n fields, Forall (λ kv, P kv.2) fields → P (NStruct n fields))
  (Herror : ∀ s, P (NError s)) (Hnone : ∀ e n, P (NEnum e n None))
  (Hsome : ∀ e n v, P v → P (NEnum e n (Some v)))
  (Hfunction : ∀ n k, P (NFunction n k)) (Hmodule : ∀ k, P (NModule k)) (Hbuiltin : ∀ n, P (NBuiltin n))
  (Hobject : ∀ l, P (NObject l)).

Fixpoint value_nested_ind (v : value) : P v :=
  let fix items (l : list value) : Forall P l :=
    match l with
    | [] => List.Forall_nil _
    | x :: l => List.Forall_cons _ _ _ (value_nested_ind x) (items l)
    end in
  let fix entries (l : list (ustring * value)) : Forall (λ kv, P kv.2) l :=
    match l with
    | [] => List.Forall_nil _
    | (k, x) :: l => List.Forall_cons _ (k, x) _ (value_nested_ind x) (entries l)
    end in
  match v with
  | NUnit => Hunit
  | NBool b => Hbool b
  | NInt z => Hint z
  | NFloat f => Hfloat f
  | NString s => Hstring s
  | NTuple l => Htuple l (items l)
  | NMap l => Hmap l (entries l)
  | NStruct n l => Hstruct n l (entries l)
  | NError s => Herror s
  | NEnum e n None => Hnone e n
  | NEnum e n (Some v) => Hsome e n v (value_nested_ind v)
  | NFunction n k => Hfunction n k
  | NModule k => Hmodule k
  | NBuiltin n => Hbuiltin n
  | NObject l => Hobject l
  end.
End value_induction.

(** The operations on values have no loop that needs fuel. *)
Lemma to_string_no_fuel float_repr v : _to_string float_repr v ≠ NoFuel.
Proof.
  revert v. apply value_nested_ind; try done; cbn [_to_string].
  - intros z. unfold int_text. by destruct (_ <? _).
  - intros items Hall. rewrite List.Forall_forall in Hall.
    assert (∀ f : value → run_result ustring, (∀ x, x ∈ items → f x ≠ NoFuel) → outcome_map f items ≠ NoFuel) as Hm
      by (intros f Hf; by apply outcome_map_no_fuel).
    match goal with |- (outcome_map ?f items ≫= _) ≠ _ => specialize (Hm f) end.
    destruct (outcome_map _ items); cbn; [done..|]. exfalso. apply Hm; [|done].
    intros x Hx. destruct x; try done; apply Hall, list_elem_of_In, Hx.
  - intros entries Hall. rewrite List.Forall_forall in Hall.
    assert (∀ f : ustring * value → run_result ustring,
      (∀ x, x ∈ entries → f x ≠ NoFuel) → outcome_map f entries ≠ NoFuel) as Hm
      by (intros f Hf; by apply outcome_map_no_fuel).
    match goal with |- (outcome_map ?f entries ≫= _) ≠ _ => specialize (Hm f) end.
    destruct (outcome_map _ entries); cbn; [done..|]. exfalso. apply Hm; [|done].
    intros [k x] Hx. specialize (Hall (k, x) (proj1 (list_elem_of_In _ _) Hx)). cbn [snd] in Hall.
    destruct x; try done; by destruct (_to_string float_repr _).
Qed.

Lemma concat_text_no_fuel float_repr vs : concat_text float_repr vs ≠ NoFuel.
Proof.
  unfold concat_text. assert (outcome_map (_to_string float_repr) vs ≠ NoFuel).
  { apply outcome_map_no_fuel. intros. apply to_string_no_fuel. }
  by destruct (outcome_map _ vs).
Qed.

Lemma py_order_no_fuel op a : ∀ b, py_order op a b ≠ NoFuel.
Proof.
  revert a. apply (value_nested_ind (λ a, ∀ b, py_order op a b ≠ NoFuel)).
  6:{ intros items Hall b. cbn [py_order as_number]. destruct b; try done. revert items0 Hall.
      induction items as [|x l1 IH]; intros [|y l2] Hall; try done. inversion_clear Hall as [|? ? Hx Hl].
      destruct (element_eq py_eq x y) as [[]|]; [by apply IH|apply Hx|done]. }
  all: intros; cbn [py_order as_number]; repeat case_match; done.
Qed.

Lemma number_op_no_fuel f g a b : number_op f g a b ≠ NoFuel.
Proof.
  destruct a, b; cbn [number_op to_float]; unfold float_of_int; try done; repeat case_match; done.
Qed.

Lemma binary_base_no_fuel op a b : _binary_base op a b ≠ NoFuel.
Proof.
  assert (∀ o, py_order o a b ≠ NoFuel) by (intros; apply py_order_no_fuel).
  assert (eq_result a b ≠ NoFuel) by (unfold eq_result; by destruct (py_eq a b)).
  assert (∀ o, (r ← py_order o a b; Done (NBool r)) ≠ @NoFuel run_error _) by
    (intros o; specialize (H o); by destruct (py_order o a b)).
  unfold _binary_base. repeat case_decide; try done.
  - unfold py_add. repeat case_match; try done; apply number_op_no_fuel.
  - unfold py_sub. repeat case_match; try done; apply number_op_no_fuel.
  - unfold py_mul. repeat case_match; try done; apply number_op_no_fuel.
  - by destruct (eq_result a b).
  - by destruct (eq_result a b).
Qed.

Lemma binary_no_fuel op a b : _binary op a b ≠ NoFuel.
Proof.
  unfold _binary, _binary_division. repeat (case_match; try done); try apply binary_base_no_fuel.
  all: unfold eq_result; destruct (py_eq b (NInt 0)) as [[]|]; try done; cbn [mbind outcome_bind].
  all: repeat (case_match; try done).
  all: unfold py_true_divide, int_true_divide, to_float, float_of_int; repeat (case_match; try done).
Qed.

Lemma unary_no_fuel op a : _unary op a ≠ NoFuel.
Proof. unfold _unary, _unary_base. repeat (case_match; try done). Qed.

(** ** Variant identities *)

Lemma starts_with_colons c s : starts_with (u "::") (c :: s) = true ↔ c = ch ":" ∧ ∃ s', s = ch ":" :: s'.
Proof.
  cbn. rewrite andb_true_iff, Z.eqb_eq. destruct s as [|d s']; [split; [by intros []|by intros (_ & ? & ?)]|].
  rewrite andb_true_r, Z.eqb_eq. split; [intros [<- <-]; by eauto|]. by intros [-> (? & [= -> _])].
Qed.

Lemma count_partition s :
  match partition_colons s with
  | Some (owner, variant) => count_colons s = S (count_colons variant)
  | None => count_colons s = O
  end.
Proof.
  induction s as [|c s IH]; [done|]. cbn [partition_colons].
  destruct (starts_with (u "::") (c :: s)) eqn:E.
  - apply starts_with_colons in E as (-> & s' & ->). done.
  - assert (count_colons (c :: s) = count_colons s) as ->.
    { destruct s as [|d s']; [done|]. cbn [count_colons]. destruct ((c =? 58) && (d =? 58)) eqn:E2; [|done].
      apply andb_true_iff in E2 as [->%Z.eqb_eq ->%Z.eqb_eq]. done. }
    destruct (partition_colons s) as [[before after]|]; done.
Qed.

Lemma partition_None_count s : partition_colons s = None ↔ count_colons s = O.
Proof. pose proof (count_partition s). destruct (partition_colons s) as [[? ?]|]; split; intros; done || lia. Qed.

(** The runtime splits exactly the identities that the validator accepts. *)
Lemma split_canonical_spec s owner variant :
  split_canonical_variant_v1 s = Done (owner, variant) ↔
  _canonical_variant_identity s = true ∧ partition_colons s = Some (owner, variant).
Proof.
  unfold split_canonical_variant_v1, _canonical_variant_identity. pose proof (count_partition s) as Hc.
  case_bool_decide as Hs; [subst; by split; [|intros [? ?]]|].
  destruct (partition_colons s) as [[o v]|].
  - rewrite Hc. pose proof (partition_None_count v) as Hv.
    destruct (Nat.eqb_spec (S (count_colons v)) 1) as [E|E]; cbn [negb].
    + rewrite (bool_decide_eq_true_2 (partition_colons v = None)) by (apply Hv; lia). rewrite andb_true_r.
      destruct (decide (o = [])) as [Ho|Ho]; [|destruct (decide (v = [])) as [Hv'|Hv']].
      * rewrite (bool_decide_eq_true_2 _ Ho), (bool_decide_eq_false_2 (o ≠ [])) by tauto. by split; [|intros []].
      * rewrite (bool_decide_eq_false_2 _ Ho), (bool_decide_eq_true_2 _ Hv'), (bool_decide_eq_false_2 (v ≠ [])) by tauto.
        rewrite andb_false_r. by split; [|intros []].
      * rewrite (bool_decide_eq_false_2 _ Ho), (bool_decide_eq_false_2 _ Hv'), !bool_decide_eq_true_2 by done.
        split; [intros [= <- <-]|intros [_ [= <- <-]]]; done.
    + rewrite (bool_decide_eq_false_2 (partition_colons v = None)) by (rewrite Hv; lia). rewrite andb_false_r.
      split; [done|by intros []].
  - rewrite Hc. split; [done|by intros []].
Qed.

Lemma split_canonical_done s :
  _canonical_variant_identity s = true → ∃ p, split_canonical_variant_v1 s = Done p.
Proof.
  intros H. destruct (partition_colons s) as [[o v]|] eqn:E.
  - exists (o, v). by apply split_canonical_spec.
  - unfold _canonical_variant_identity in H. by rewrite E in H.
Qed.
