(* ===== verification/NativeRuntime.v ===== *)
(** The direct executor of sealed MIR: [_MirExecutor] of
[src/koschei/mir_native_runtime.py], with the call contract of
[src/koschei/direct_mir_type_integrity_v1.py] and the variant construction of
[src/koschei/mir_native_variant_construct_v1.py], whose executor the budgeted
runtime uses.

The executor is a state monad over the machine: the shared counters, the heap of
mutable objects and the printed text.  A failing computation keeps its machine,
as a Python exception does.  The builtins that other modules add (data, decimal,
queue and task calls, [parallel_map]) can be loaded, and calling one ends in
[Unmodelled]. *)

From Stdlib Require Import Floats.SpecFloat.
From S2P Require Import Prelude TypeSystem Lexer Ast Capability Mir MirProof MirGraph Value.

(** * The machine *)

Inductive object :=
  | MapBuilder (entries : list (ustring * value)) (consumed : bool)
  | StructBuilder (type_name : ustring) (required_fields : list ustring) (fields : list (ustring * value))
      (consumed : bool)
  | ListIterator (items : list value) (index : nat).

Record machine := mk_machine {
  steps : Z;
  depth : Z;
  current_module_key : ustring;
  heap : list object;
  output : ustring;
}.

Definition set_steps (n : Z) (m : machine) : machine :=
  mk_machine n (depth m) (current_module_key m) (heap m) (output m).
Definition set_depth (n : Z) (m : machine) : machine :=
  mk_machine (steps m) n (current_module_key m) (heap m) (output m).
Definition set_module (k : ustring) (m : machine) : machine :=
  mk_machine (steps m) (depth m) k (heap m) (output m).
Definition set_heap (h : list object) (m : machine) : machine :=
  mk_machine (steps m) (depth m) (current_module_key m) h (output m).
Definition add_output (s : ustring) (m : machine) : machine :=
  mk_machine (steps m) (depth m) (current_module_key m) (heap m) (output m ++ s).

(** * The monad *)

Definition exec (A : Type) : Type := machine → run_result A * machine.

#[export] Instance exec_ret : MRet exec := λ A a m, (Done a, m).
#[export] Instance exec_bind : MBind exec := λ A B f c m,
  match c m with
  | (Done a, m) => f a m
  | (Raise e, m) => (Raise e, m)
  | (NoFuel, m) => (NoFuel, m)
  end.

(** A result that does not touch the machine. *)
Definition lift {A} (r : run_result A) : exec A := λ m, (r, m).
Definition raise {A} (e : run_error) : exec A := lift (Raise e).
Definition get : exec machine := λ m, (Done m, m).
Definition modify (f : machine → machine) : exec () := λ m, (Done (), f m).

(** Evaluate the items of a list from left to right. *)
Fixpoint exec_map {A B} (f : A → exec B) (l : list A) : exec (list B) :=
  match l with
  | [] => mret []
  | x :: l => y ← f x; ys ← exec_map f l; mret (y :: ys)
  end.

(** Run a step of a state for each element. *)
Fixpoint exec_fold {A S} (f : S → A → exec S) (s : S) (l : list A) : exec S :=
  match l with
  | [] => mret s
  | x :: l => s ← f s x; exec_fold f s l
  end.

(** [try: body finally: cleanup]. *)
Definition finally {A} (body : exec A) (cleanup : machine → machine) : exec A := λ m,
  let '(r, m) := body m in (r, cleanup m).

(** * The heap *)

Definition allocate (o : object) : exec value := λ m,
  (Done (NObject (length (heap m))), set_heap (heap m ++ [o]) m).

Definition store (loc : nat) (o : object) : exec () := modify (λ m, set_heap (<[loc := o]> (heap m)) m).

Definition load_object (v : value) : exec (option (nat * object)) := λ m,
  (Done (match v with
         | NObject loc => o ← heap m !! loc; Some (loc, o)
         | _ => None
         end), m).

(** * Frames *)

(** What one activation of a function owns: the SSA [values], the
[environment] of its bindings and the names that are [mutable]. *)
Record frame := mk_frame {
  values : gmap Z value;
  environment : gmap ustring value;
  mutable : gset ustring;
}.

Definition set_value (fr : frame) (id : Z) (v : value) : frame :=
  mk_frame (<[id := v]> (values fr)) (environment fr) (mutable fr).

Definition _value (fr : frame) (value_id : Z) : exec value :=
  match values fr !! value_id with
  | Some v => mret v
  | None => raise (UnavailableValue value_id)
  end.

Definition _map_value (fr : frame) (value_id : Z) : exec (list (ustring * value)) :=
  v ← _value fr value_id;
  match v with NMap entries => mret entries | _ => raise InvalidMapValue end.

Definition _map_builder (fr : frame) (value_id : Z) : exec (nat * list (ustring * value) * bool) :=
  v ← _value fr value_id;
  o ← load_object v;
  match o with
  | Some (loc, MapBuilder entries consumed) => mret (loc, entries, consumed)
  | _ => raise InvalidMapBuilder
  end.

Definition _struct_builder (fr : frame) (value_id : Z)
    : exec (nat * (ustring * list ustring * list (ustring * value) * bool)) :=
  v ← _value fr value_id;
  o ← load_object v;
  match o with
  | Some (loc, StructBuilder name required fields consumed) => mret (loc, (name, required, fields, consumed))
  | _ => raise InvalidStructBuilder
  end.

Definition _iterator (fr : frame) (value_id : Z) : exec (nat * list value * nat) :=
  v ← _value fr value_id;
  o ← load_object v;
  match o with
  | Some (loc, ListIterator items index) => mret (loc, items, index)
  | _ => raise InvalidIterator
  end.

Definition key_text (v : value) : exec ustring :=
  match v with NString s => mret s | _ => raise MapKeyNotString end.

(** * Names *)

Definition _BUILTINS : list ustring := [u "print"; u "println"; u "Error"; u "Some"; u "None"; u "Ok"; u "Err"].

(** The builtins that the installed adapters add. *)
Definition extension_builtins : list ustring :=
  [u "parse_json"; u "encode_json";
   u "decimal"; u "decimal_add"; u "decimal_sub"; u "decimal_cmp"; u "decimal_text";
   u "bounded_queue"; u "queue_try_send"; u "queue_try_recv"; u "queue_len"; u "queue_capacity";
   u "task_scope"; u "task_spawn"; u "task_join_all"; u "task_pending"; u "task_capacity"; u "task_closed";
   u "task_cancel"; u "task_cancel_all"; u "parallel_map"].

(** [{item.name: item for item in functions}]: the last function of a name. *)
Definition function_named (fs : list MirFunction) (name : ustring) : option MirFunction :=
  List.find (λ f, bool_decide (mir_function_name f = name)) (rev fs).

(** [functions_by_module.get(key)]. *)
Definition module_functions (mir : MirGraph) (k : ustring) : option (list MirFunction) :=
  functions <$> assoc k (modules mir).

Section executor.
Context (float_repr : spec_float → ustring).
Context (mir : MirGraph) (max_steps max_call_depth : Z).

Definition _consume_step : exec () :=
  _ ← modify (λ m, set_steps (steps m + 1) m);
  m ← get;
  if max_steps <? steps m then raise StepBudgetExceeded else mret ().

Definition load_name (module_key name : ustring) (fr : frame) : exec value :=
  match assoc module_key (modules mir) with
  | None => raise (PyKeyError module_key)
  | Some module =>
      match environment fr !! name with
      | Some v => mret v
      | None =>
          if bool_decide (is_Some (function_named (functions module) name)) then mret (NFunction name module_key)
          else
            match assoc name (module_imports module) with
            | Some k => mret (NModule k)
            | None =>
                if bool_decide (name ∈ _BUILTINS ++ extension_builtins) then mret (NBuiltin name)
                else raise (UnknownLoadName name)
            end
      end
  end.

(** * Instructions *)

Section step.
(** The activation of a function: [_call]. *)
Context (call : MirFunction → list value → ustring → exec value).

Definition one_argument (name : ustring) (arguments : list value) (k : value → exec value) : exec value :=
  match arguments with [a] => k a | _ => raise (BuiltinArity name) end.

Definition invoke_builtin (name : ustring) (arguments : list value) : exec value :=
  if bool_decide (name ∈ extension_builtins) then raise (Unmodelled name)
  else if bool_decide (name = u "print") || bool_decide (name = u "println") then
    one_argument name arguments (λ a,
      text ← lift (_to_string float_repr a);
      _ ← modify (add_output (text ++ if bool_decide (name = u "println") then [NEWLINE] else []));
      mret NUnit)
  else if bool_decide (name = u "Error") then
    one_argument name arguments (λ a, text ← lift (_to_string float_repr a); mret (NError text))
  else if bool_decide (name = u "Some") then
    one_argument name arguments (λ a, mret (NEnum (u "Option") (u "Some") (Some a)))
  else if bool_decide (name = u "None") then
    match arguments with [] => mret (NEnum (u "Option") (u "None") None) | _ => raise (BuiltinArity name) end
  else if bool_decide (name = u "Ok") then
    one_argument name arguments (λ a, mret (NEnum (u "Result") (u "Ok") (Some a)))
  else if bool_decide (name = u "Err") then
    one_argument name arguments (λ a, mret (NEnum (u "Result") (u "Err") (Some a)))
  else raise NotCallable.

Definition _invoke (callee : value) (arguments : list value) : exec value :=
  match callee with
  | NFunction name k =>
      m ← get;
      let module_key := if bool_decide (k = []) then current_module_key m else k in
      match module_functions mir module_key with
      | None => raise (UnknownModule module_key)
      | Some fs =>
          match function_named fs name with
          | None => raise (UnknownFunction name)
          | Some f => call f arguments module_key
          end
      end
  | NBuiltin name => invoke_builtin name arguments
  | _ => raise NotCallable
  end.

(** ** Maps *)

(** [Map.set]: the first entry of the key is replaced, or a new one appended. *)
Fixpoint map_set (entries : list (ustring * value)) (k : ustring) (v : value) : list (ustring * value) :=
  match entries with
  | [] => [(k, v)]
  | (k', v') :: entries => if decide (k' = k) then (k, v) :: entries else (k', v') :: map_set entries k v
  end.

Definition missing_key (k : ustring) : ustring :=
  u "Map anahtar" ++ [305] ++ u " bulunamad" ++ [305] ++ u ": " ++ k.

Definition execute_map (fr : frame) (i : MirInstruction) : exec frame :=
  match i with
  | MirMapNew target _ _ =>
      v ← allocate (MapBuilder [] false); mret (set_value fr target v)
  | MirMapInsert object key value _ _ =>
      '(loc, entries, consumed) ← _map_builder fr object;
      if consumed : bool then raise MapBuilderConsumed
      else
        k ← _value fr key;
        k ← key_text k;
        if bool_decide (k ∈ entries.*1) then raise DuplicateMapKey
        else
          v ← _value fr value;
          _ ← store loc (MapBuilder (entries ++ [(k, v)]) false);
          mret fr
  | MirMapFinish target source _ _ =>
      '(loc, entries, consumed) ← _map_builder fr source;
      if consumed : bool then raise MapBuilderConsumed
      else
        _ ← store loc (MapBuilder entries true);
        mret (set_value fr target (NMap entries))
  | MirMapGet target object key _ _ =>
      entries ← _map_value fr object;
      k ← _value fr key;
      k ← key_text k;
      mret (set_value fr target (default (NError (missing_key k)) (assoc k entries)))
  | MirMapSet target object key value _ _ =>
      entries ← _map_value fr object;
      k ← _value fr key;
      k ← key_text k;
      v ← _value fr value;
      mret (set_value fr target (NMap (map_set entries k v)))
  | MirMapKeys target object _ _ =>
      entries ← _map_value fr object;
      mret (set_value fr target (NTuple (NString <$> entries.*1)))
  | MirMapContains target object key _ _ =>
      entries ← _map_value fr object;
      k ← _value fr key;
      k ← key_text k;
      mret (set_value fr target (NBool (bool_decide (k ∈ entries.*1))))
  | _ => raise (UnsupportedInstruction (class_name i))
  end.

(** ** Structs *)

(** [(f, builder.fields[f])] for the required fields, and those missing. *)
Definition missing_fields (required : list ustring) (fields : list (ustring * value)) : list ustring :=
  filter (λ f, assoc f fields = None) required.

Definition ordered_fields (required : list ustring) (fields : list (ustring * value)) : list (ustring * value) :=
  omap (λ f, v ← assoc f fields; Some (f, v)) required.

Definition execute_struct (fr : frame) (i : MirInstruction) : exec frame :=
  match i with
  | MirStructNew target type_name required_fields _ _ =>
      if bool_decide (NoDup required_fields) then
        v ← allocate (StructBuilder type_name required_fields [] false);
        mret (set_value fr target v)
      else raise DuplicateContractField
  | MirStructSet object field source _ _ =>
      '(loc, (name, required, fields, consumed)) ← _struct_builder fr object;
      if consumed : bool then raise StructBuilderConsumed
      else if negb (bool_decide (field ∈ required)) then raise (FieldOutsideContract field)
      else if bool_decide (field ∈ fields.*1) then raise (DuplicateFieldAssignment field)
      else
        v ← _value fr source;
        _ ← store loc (StructBuilder name required (fields ++ [(field, v)]) false);
        mret fr
  | MirStructFinish target source _ _ =>
      '(loc, (name, required, fields, consumed)) ← _struct_builder fr source;
      if consumed : bool then raise StructBuilderConsumed
      else
        let missing := missing_fields required fields in
        if bool_decide (missing ≠ []) then raise (MissingFields missing)
        else
          _ ← store loc (StructBuilder name required fields true);
          mret (set_value fr target (NStruct name (ordered_fields required fields)))
  | _ => raise (UnsupportedInstruction (class_name i))
  end.

(** ** Lists and members *)

Definition execute_iterator (fr : frame) (i : MirInstruction) : exec frame :=
  match i with
  | MirIterInit target iterable _ _ =>
      v ← _value fr iterable;
      match v with
      | NTuple items => it ← allocate (ListIterator items 0); mret (set_value fr target it)
      | _ => raise IteratorNeedsList
      end
  | MirIterHasNext target iterator _ _ =>
      '(_, items, index) ← _iterator fr iterator;
      mret (set_value fr target (NBool (index <? length items)%nat))
  | MirIterNext target iterator _ _ =>
      '(loc, items, index) ← _iterator fr iterator;
      match items !! index with
      | None => raise IteratorPastEnd
      | Some item =>
          _ ← store loc (ListIterator items (S index));
          mret (set_value fr target item)
      end
  | _ => raise (UnsupportedInstruction (class_name i))
  end.

Definition execute_member (fr : frame) (target object : Z) (member : ustring) : exec frame :=
  receiver ← _value fr object;
  match receiver with
  | NStruct _ fields =>
      match assoc member fields with
      | Some item => mret (set_value fr target item)
      | None => raise (NoStructField member)
      end
  | NModule k =>
      match module_functions mir k with
      | None => raise (UnknownModule k)
      | Some fs =>
          if bool_decide (is_Some (function_named fs member)) then mret (set_value fr target (NFunction member k))
          else raise (NoModuleFunction member)
      end
  | _ => raise UnsupportedReceiver
  end.

(** ** Variants *)

Definition execute_variant (fr : frame) (i : MirInstruction) : exec frame :=
  match i with
  | MirVariantIs target source variant _ _ =>
      v ← _value fr source;
      r ← lift (variant_is_v1 v variant);
      mret (set_value fr target (NBool r))
  | MirVariantPayload target source variant _ _ =>
      v ← _value fr source;
      payload ← lift (variant_payload_v1 v variant);
      mret (set_value fr target payload)
  | MirVariantConstruct target variant source _ _ =>
      '(owner, name) ← lift (split_canonical_variant_v1 variant);
      match source with
      | None => mret (set_value fr target (NEnum owner name None))
      | Some source => v ← _value fr source; mret (set_value fr target (NEnum owner name (Some v)))
      end
  | _ => raise (UnsupportedInstruction (class_name i))
  end.

(** ** Bindings *)

Definition execute_bind (fr : frame) (name : ustring) (source : Z) (is_mutable : bool) : exec frame :=
  v ← _value fr source;
  mret (mk_frame (values fr) (<[name := v]> (environment fr))
    (if is_mutable : bool then {[name]} ∪ mutable fr else mutable fr ∖ {[name]})).

Definition execute_store (fr : frame) (name : ustring) (source : Z) : exec frame :=
  if bool_decide (environment fr !! name = None) then raise (StoreUnknown name)
  else if negb (bool_decide (name ∈ mutable fr)) then raise (StoreImmutable name)
  else
    v ← _value fr source;
    mret (mk_frame (values fr) (<[name := v]> (environment fr)) (mutable fr)).

(** [_execute_instruction], with [MirVariantConstruct]. *)
Definition _execute_instruction (module_key : ustring) (fr : frame) (i : MirInstruction) : exec frame :=
  match i with
  | MirConst target value _ _ => v ← lift (const_value value); mret (set_value fr target v)
  | MirLoad target name _ _ => v ← load_name module_key name fr; mret (set_value fr target v)
  | MirBind name source is_mutable _ _ => execute_bind fr name source is_mutable
  | MirStore name source _ _ => execute_store fr name source
  | MirUnary target operator operand _ _ =>
      a ← _value fr operand; r ← lift (_unary operator a); mret (set_value fr target r)
  | MirBinary target operator lhs rhs _ _ =>
      a ← _value fr lhs; b ← _value fr rhs; r ← lift (_binary operator a b); mret (set_value fr target r)
  | MirUnit target _ _ => mret (set_value fr target NUnit)
  | MirIsRuntimeError target source _ _ =>
      v ← _value fr source; mret (set_value fr target (NBool (is_error v)))
  | MirFallibleIsSuccess target source _ _ =>
      v ← _value fr source; r ← lift (_unwrap_fallible_value v); mret (set_value fr target (NBool r.1))
  | MirFalliblePayload target source _ _ =>
      v ← _value fr source;
      r ← lift (_unwrap_fallible_value v);
      if r.1 : bool then mret (set_value fr target r.2) else raise NoSuccessProof
  | MirInterpolate target items _ _ =>
      vs ← exec_map (_value fr) items;
      text ← lift (concat_text float_repr vs);
      mret (set_value fr target (NString text))
  | MirVariantIs _ _ _ _ _ | MirVariantPayload _ _ _ _ _ | MirVariantConstruct _ _ _ _ _ => execute_variant fr i
  | MirMapNew _ _ _ | MirMapInsert _ _ _ _ _ | MirMapFinish _ _ _ _ | MirMapGet _ _ _ _ _
  | MirMapSet _ _ _ _ _ _ | MirMapKeys _ _ _ _ | MirMapContains _ _ _ _ _ => execute_map fr i
  | MirStructNew _ _ _ _ _ | MirStructSet _ _ _ _ _ | MirStructFinish _ _ _ _ => execute_struct fr i
  | MirList target items _ _ => vs ← exec_map (_value fr) items; mret (set_value fr target (NTuple vs))
  | MirIterInit _ _ _ _ | MirIterHasNext _ _ _ _ | MirIterNext _ _ _ _ => execute_iterator fr i
  | MirMember target object member _ _ => execute_member fr target object member
  | MirCall target callee arguments _ _ =>
      f ← _value fr callee;
      vs ← exec_map (_value fr) arguments;
      r ← _invoke f vs;
      mret (set_value fr target r)
  | MirAstFallback _ _ _ _ | MirCapabilityCall _ _ _ _ _ _ _ _ _ | MirStructFieldSet _ _ _ _ _ _
  | Unregistered _ _ _ _ => raise (UnsupportedInstruction (class_name i))
  end.

Definition step_instruction (module_key : ustring) (fr : frame) (i : MirInstruction) : exec frame :=
  _ ← _consume_step; _execute_instruction module_key fr i.

(** Where a terminator leads: a result, or the next block. *)
Definition follow (fr : frame) (t : MirTerminator) : exec (value + Z) :=
  match t with
  | MirReturn None => mret (inl NUnit)
  | MirReturn (Some id) => v ← _value fr id; mret (inl v)
  | MirJump target => mret (inr target)
  | MirBranch condition then_block else_block =>
      v ← _value fr condition;
      match v with
      | NBool b => mret (inr (if b : bool then then_block else else_block))
      | _ => raise BranchNotBool
      end
  | MirUnreachable reason => raise (ReachedUnreachable reason)
  end.
End step.

(** * Calls *)

(** The last block of an identifier, as in the dictionary [{block.id: block}]. *)
Definition block_named (bs : list MirBasicBlock) (b : Z) : option MirBasicBlock :=
  List.find (λ block, id block =? b) (rev bs).

Definition parameter_environment (f : MirFunction) (arguments : list value) : gmap ustring value :=
  foldl (λ env pv, <[mir_parameter_name pv.1 := pv.2]> env) ∅ (zip (mir_parameters f) arguments).

(** [_call] of mir_native_runtime.py; [run] executes the body. *)
Definition _call_body (run : MirFunction → ustring → Z → frame → exec value)
    (f : MirFunction) (arguments : list value) (module_key : ustring) : exec value :=
  if bool_decide (module_functions mir module_key = None) then raise (UnknownModule module_key)
  else if negb (length arguments =? length (mir_parameters f))%nat then
    raise (ArgumentCount (mir_function_name f) (Z.of_nat (length (mir_parameters f))) (Z.of_nat (length arguments)))
  else
    m ← get;
    if max_call_depth <=? depth m then raise CallDepthExceeded
    else
      let previous_module_key := current_module_key m in
      _ ← modify (λ m, set_depth (depth m + 1) (set_module module_key m));
      finally (run f module_key 0 (mk_frame ∅ (parameter_environment f arguments) ∅))
        (λ m, set_depth (depth m - 1) (set_module previous_module_key m)).

(** [_call] of direct_mir_type_integrity_v1.py. *)
Definition _call (run : MirFunction → ustring → Z → frame → exec value)
    (f : MirFunction) (arguments : list value) (module_key : ustring) : exec value :=
  let mismatch :=
    if (length arguments =? length (mir_parameters f))%nat then
      List.find (λ pv, negb (_matches (mir_parameter_type pv.1) pv.2)) (zip (mir_parameters f) arguments)
    else None in
  match mismatch with
  | Some (p, _) => raise (TypeContract (mir_function_name f) (Some (mir_parameter_name p)) (mir_parameter_type p))
  | None =>
      result ← _call_body run f arguments module_key;
      if bool_decide (mir_function_name f = u "main") && bool_decide (module_key = root mir) && is_error result
      then mret result
      else if _matches (mir_return_type f) result then mret result
      else raise (TypeContract (mir_function_name f) None (mir_return_type f))
  end.

(** The [while True] loop over the blocks of an activation. *)
Fixpoint run_blocks (fuel : nat) (f : MirFunction) (module_key : ustring) (current : Z) (fr : frame) : exec value :=
  match fuel with
  | O => lift NoFuel
  | S fuel =>
      match block_named (blocks f) current with
      | None => raise (UnknownBlock (mir_function_name f) current)
      | Some block =>
          fr ← exec_fold (step_instruction (_call (run_blocks fuel)) module_key) fr (instructions block);
          _ ← _consume_step;
          next ← follow fr (terminator block);
          match next with
          | inl result => mret result
          | inr target => run_blocks fuel f module_key target fr
          end
      end
  end.

Definition initial_machine : machine := mk_machine 0 0 (root mir) [] [].

(** Every round of the loop and every call consumes a step. *)
Definition execution_fuel : nat := S (S (Z.to_nat max_steps)).

Definition execute_main : exec value :=
  match module_functions mir (root mir) with
  | None => raise (PyKeyError (root mir))
  | Some fs =>
      match function_named fs (u "main") with
      | None => raise (UnknownFunction (u "main"))
      | Some main => _call (run_blocks execution_fuel) main [] (root mir)
      end
  end.
End executor.
