(* ===== verification/NativeAdmission.v ===== *)
(** Admission to the direct executor and its entry point:
[inspect_native_mir_support] of [src/koschei/mir_native_runtime.py], the
import-shadow guard of [src/koschei/mir_native_module_shadow_guard_v1.py], and
the extension and [run_mir_native] of
[src/koschei/mir_native_variant_construct_v1.py].

A reason is its constructor instead of its text. *)

From Stdlib Require Import Floats.SpecFloat.
From S2P Require Import Prelude TypeSystem Lexer Ast Capability Mir MirProof MirGraph Value NativeRuntime.

Definition _SUPPORTED_BINARY : list ustring :=
  [u "+"; u "-"; u "*"; u "=="; u "!="; u "<"; u "<="; u ">"; u ">="; u "/"].
Definition _SUPPORTED_UNARY : list ustring := [u "!"; u "-"; u "+"].

Inductive reason :=
  | RequiresMain
  | MainParameters
  | HasEnums (module : ustring)
  | FallbackRemains (module function node_kind : ustring)
  | MemberNotNative (module function : ustring)
  | BinaryNotNative (module function operator : ustring)
  | UnaryNotNative (module function operator : ustring)
  | UnsupportedClass (module function class_name : ustring)
  | BadIdentity (module function : ustring)
  | UnknownBuiltinVariant (module function variant : ustring)
  | BuiltinPayloadShape (module function variant : ustring)
  | OwnerNotUnique (module function owner : ustring)
  | VariantAbsent (module function variant : ustring)
  | PayloadShape (module function variant : ustring).

#[export] Instance reason_eq_dec : EqDecision reason.
Proof. solve_decision. Defined.

(** * The base inspection *)

(** The type an instruction gives to its result. *)
Definition type_of_instruction (i : MirInstruction) : option TypeNode :=
  match i with
  | MirConst _ _ t _ | MirLoad _ _ t _ | MirBind _ _ _ t _ | MirStore _ _ t _ | MirUnary _ _ _ t _
  | MirBinary _ _ _ _ t _ | MirList _ _ t _ | MirIterInit _ _ t _ | MirIterHasNext _ _ t _
  | MirIterNext _ _ t _ | MirMember _ _ _ t _ | MirCall _ _ _ t _ | MirAstFallback _ _ t _ | MirUnit _ t _
  | MirFallibleIsSuccess _ _ t _ | MirFalliblePayload _ _ t _ | MirInterpolate _ _ t _
  | MirIsRuntimeError _ _ t _ | MirVariantConstruct _ _ _ t _ | MirVariantIs _ _ _ t _
  | MirVariantPayload _ _ _ t _ | MirCapabilityCall _ _ _ _ _ _ _ t _ | MirMapNew _ t _
  | MirMapInsert _ _ _ t _ | MirMapFinish _ _ t _ | MirMapGet _ _ _ t _ | MirMapSet _ _ _ _ t _
  | MirMapKeys _ _ t _ | MirMapContains _ _ _ t _ | MirStructNew _ _ _ t _ | MirStructSet _ _ _ t _
  | MirStructFinish _ _ t _ | MirStructFieldSet _ _ _ _ t _ => Some t
  | Unregistered _ _ _ _ => None
  end.

(** [_definitions(function)]: the instruction that defines each value. *)
Definition _definitions (f : MirFunction) : gmap Z MirInstruction :=
  foldl (λ defs i, match target_of i with Some t => <[t := i]> defs | None => defs end) ∅
    (concat (instructions <$> blocks f)).

Definition _receiver_type_name (f : MirFunction) (value_id : Z) : option ustring :=
  i ← _definitions f !! value_id;
  t ← type_of_instruction i;
  match t with
  | GenericType name _ | NamedType name => Some name
  | _ => None
  end.

(** [_shadowed_names] of the guard. *)
Definition _shadowed_names (m : MirModule) (f : MirFunction) : list ustring :=
  (mir_parameter_name <$> mir_parameters f) ++ (mir_function_name <$> functions m) ++
  omap (λ i, match i with MirBind name _ _ _ _ => Some name | _ => None end) (concat (instructions <$> blocks f)).

Section inspection.
Context (mir : MirGraph).

(** The guard, then [_is_direct_module_member]. *)
Definition _is_direct_module_member (m : MirModule) (f : MirFunction) (object : Z) (member : ustring) : bool :=
  match _definitions f !! object with
  | Some (MirLoad _ name _ _) =>
      if bool_decide (name ∈ _shadowed_names m f) then false
      else
        match assoc name (module_imports m) with
        | None => false
        | Some target_key =>
            match assoc target_key (modules mir) with
            | None => false
            | Some target => bool_decide (member ∈ mir_function_name <$> functions target)
            end
        end
  | _ => false
  end.

(** The struct declarations of a name in the module and in what it imports;
the dependency order has already found every imported module. *)
Definition struct_candidates (m : MirModule) (type_name : ustring) : list StructDeclaration :=
  filter (λ d, struct_name d = type_name)
    (structs (program m) ++
     concat ((λ k, match assoc k (modules mir) with Some t => structs (program t) | None => [] end)
             <$> (module_imports m).*2)).

Definition _is_checked_struct_field_member (m : MirModule) (f : MirFunction) (object : Z) (member : ustring) : bool :=
  match _receiver_type_name f object with
  | None => false
  | Some type_name =>
      match struct_candidates m type_name with
      | [d] => bool_decide (member ∈ field_name <$> struct_fields d)
      | _ => false
      end
  end.

Definition supported_class (i : MirInstruction) : bool :=
  match i with
  | MirConst _ _ _ _ | MirLoad _ _ _ _ | MirBind _ _ _ _ _ | MirStore _ _ _ _ | MirUnary _ _ _ _ _
  | MirBinary _ _ _ _ _ _ | MirList _ _ _ _ | MirIterInit _ _ _ _ | MirIterHasNext _ _ _ _
  | MirIterNext _ _ _ _ | MirMember _ _ _ _ _ | MirCall _ _ _ _ _ | MirVariantIs _ _ _ _ _
  | MirVariantPayload _ _ _ _ _ | MirUnit _ _ _ | MirIsRuntimeError _ _ _ _ | MirFallibleIsSuccess _ _ _ _
  | MirFalliblePayload _ _ _ _ | MirInterpolate _ _ _ _ | MirMapNew _ _ _ | MirMapInsert _ _ _ _ _
  | MirMapFinish _ _ _ _ | MirMapGet _ _ _ _ _ | MirMapSet _ _ _ _ _ _ | MirMapKeys _ _ _ _
  | MirMapContains _ _ _ _ _ | MirStructNew _ _ _ _ _ | MirStructSet _ _ _ _ _ | MirStructFinish _ _ _ _ => true
  | MirAstFallback _ _ _ _ | MirVariantConstruct _ _ _ _ _ | MirCapabilityCall _ _ _ _ _ _ _ _ _
  | MirStructFieldSet _ _ _ _ _ _ | Unregistered _ _ _ _ => false
  end.

Definition inspect_instruction (m : MirModule) (f : MirFunction) (i : MirInstruction) : list reason :=
  let module := module_name m in
  let function := mir_function_name f in
  match i with
  | MirAstFallback _ node_kind _ _ => [FallbackRemains module function node_kind]
  | MirMember _ object member _ _ =>
      if _is_direct_module_member m f object member || _is_checked_struct_field_member m f object member then []
      else [MemberNotNative module function]
  | MirBinary _ operator _ _ _ _ =>
      if bool_decide (operator ∈ _SUPPORTED_BINARY) then [] else [BinaryNotNative module function operator]
  | MirUnary _ operator _ _ _ =>
      if bool_decide (operator ∈ _SUPPORTED_UNARY) then [] else [UnaryNotNative module function operator]
  | _ => if supported_class i then [] else [UnsupportedClass module function (class_name i)]
  end.

(** Every instruction of the modules, with its module and function. *)
Definition all_instructions (ms : list MirModule) : list (MirModule * MirFunction * MirInstruction) :=
  concat ((λ m : MirModule, concat ((λ f, (λ i, (m, f, i)) <$> concat (instructions <$> blocks f)) <$> functions m)) <$> ms).

Definition inspect_module (m : MirModule) : list reason :=
  (if bool_decide (enums (program m) = []) then [] else [HasEnums (module_name m)]) ++
  concat ((λ f, concat (inspect_instruction m f <$> concat (instructions <$> blocks f))) <$> functions m).

(** [next((item for item in root.functions if item.name == "main"), None)]. *)
Definition inspect_main (m : MirModule) : list reason :=
  match List.find (λ f, bool_decide (mir_function_name f = u "main")) (functions m) with
  | None => [RequiresMain]
  | Some main => if bool_decide (mir_parameters main = []) then [] else [MainParameters]
  end.

Definition _inspect_base (seal : graph_result ()) : graph_result (list reason) :=
  _ ← seal;
  m ← root_module mir;
  ms ← in_dependency_order mir;
  Done (dict_fromkeys (inspect_main m ++ concat (inspect_module <$> ms))).

(** * Variant construction *)

(** [_enum_declarations_by_owner(mir).get(owner, [])]. *)
Definition enum_declarations (ms : list MirModule) (owner : ustring) : list EnumDeclaration :=
  filter (λ d, enum_name d = owner) (concat ((λ m, enums (program m)) <$> ms)).

(** Whether a builtin variant takes a payload. *)
Definition builtin_variants (owner : ustring) : option (list (ustring * bool)) :=
  assoc owner [(u "Option", [(u "Some", true); (u "None", false)]);
               (u "Result", [(u "Ok", true); (u "Err", true)])].

Definition validate_construct (ms : list MirModule) (m : MirModule) (f : MirFunction) (i : MirInstruction)
    : list reason :=
  let module := module_name m in
  let function := mir_function_name f in
  match i with
  | MirVariantConstruct _ identity source _ _ =>
      let has_payload := bool_decide (is_Some source) in
      match split_canonical_variant_v1 identity with
      | Done (owner, variant) =>
          match builtin_variants owner with
          | Some builtin =>
              match assoc variant builtin with
              | None => [UnknownBuiltinVariant module function identity]
              | Some expects_payload =>
                  if eqb expects_payload has_payload then [] else [BuiltinPayloadShape module function identity]
              end
          | None =>
              match enum_declarations ms owner with
              | [d] =>
                  match List.find (λ v, bool_decide (variant_name v = variant)) (variants d) with
                  | None => [VariantAbsent module function identity]
                  | Some target =>
                      if eqb (bool_decide (is_Some (payload_type target))) has_payload then []
                      else [PayloadShape module function identity]
                  end
              | _ => [OwnerNotUnique module function owner]
              end
          end
      | _ => [BadIdentity module function]
      end
  | _ => []
  end.

Definition _validate_variant_constructs_v1 : graph_result (list reason) :=
  ms ← in_dependency_order mir;
  Done (dict_fromkeys (concat ((λ x : MirModule * MirFunction * MirInstruction,
    validate_construct ms x.1.1 x.1.2 x.2) <$> all_instructions ms))).

(** The base reasons that the extension answers. *)
Definition answered (r : reason) : bool :=
  match r with
  | HasEnums _ => true
  | UnsupportedClass _ _ name => bool_decide (name = u "MirVariantConstruct")
  | _ => false
  end.

Definition inspect_native_mir_support (seal : graph_result ()) : graph_result (list reason) :=
  base ← _inspect_base seal;
  constructs ← _validate_variant_constructs_v1;
  Done (dict_fromkeys (filter (λ r, answered r = false) base ++ constructs)).
End inspection.

(** * The entry point *)

Inductive native_error :=
  | GraphError (e : graph_error)
  | NativeUnsupported (reasons : list reason)
  | InvalidMaxSteps
  | InvalidMaxCallDepth
  | RunError (e : run_error)
  (** [main] returned an Error value. *)
  | ProgramError (message : ustring).

Definition _MAX_CALL_DEPTH : Z := 512.
Definition _DEFAULT_MAX_STEPS : Z := 1000000.

Section entry.
Context (float_repr : spec_float → ustring).
(** [mir.assert_sealed()]. *)
Context (seal : MirGraph → graph_result ()).

(** The exit code, or the exception, and what was printed. *)
Definition run_mir_native (mir : MirGraph) (max_steps max_call_depth : Z) : outcome native_error Z * ustring :=
  match inspect_native_mir_support mir (seal mir) with
  | Raise e => (Raise (GraphError e), [])
  | NoFuel => (NoFuel, [])
  | Done (r :: rs) => (Raise (NativeUnsupported (r :: rs)), [])
  | Done [] =>
      if max_steps <=? 0 then (Raise InvalidMaxSteps, [])
      else if (max_call_depth <=? 0) || (_MAX_CALL_DEPTH <? max_call_depth) then (Raise InvalidMaxCallDepth, [])
      else
        let '(result, m) := execute_main float_repr mir max_steps max_call_depth (initial_machine mir) in
        (match result with
         | Done (NError message) => Raise (ProgramError message)
         | Done _ => Done 0
         | Raise e => Raise (RunError e)
         | NoFuel => NoFuel
         end, output m)
  end.
End entry.
