(* ===== verification/NativeProof.v ===== *)
(** What the direct executor guarantees of every graph: [run_mir_native]
terminates, every call leaves the call depth and the module as it found them,
and a larger budget does not change a run that stayed within a smaller one. *)

From Stdlib Require Import Floats.SpecFloat.
From S2P Require Import Prelude TypeSystem Lexer Ast Capability Mir MirProof MirGraph Value NativeRuntime.
From S2P Require Import NativeAdmission.

(** * Frames and budgets *)

(** What every computation of the executor leaves unchanged, and what grows. *)
Record kept (m m' : machine) : Prop := {
  kept_steps : steps m <= steps m';
  kept_depth : depth m' = depth m;
  kept_module : current_module_key m' = current_module_key m;
  kept_output : output m `prefix_of` output m';
}.

Lemma kept_refl m : kept m m.
Proof. by split. Qed.

Lemma kept_trans m1 m2 m3 : kept m1 m2 → kept m2 m3 → kept m1 m3.
Proof.
  intros [A1 A2 A3 A4] [B1 B2 B3 B4]. split; [lia|congruence|congruence|by etrans].
Qed.

Section budget.
Context (float_repr : spec_float → ustring) (mir : MirGraph) (max_steps max_call_depth : Z).

(** From a machine within the budget, [c] keeps what it must keep, passes the
step limit by at most one and only by failing, and does not run out of [n]
rounds if fewer steps than that remain. *)
Definition metered {A} (n : Z) (c : exec A) : Prop := ∀ m, steps m <= max_steps →
  kept m (c m).2 ∧ steps (c m).2 <= max_steps + 1 ∧
  (is_done (c m).1 = true → steps (c m).2 <= max_steps) ∧
  (max_steps - steps m < n → (c m).1 ≠ NoFuel).

(** A computation that fails or ends without a step. *)
Lemma metered_quiet {A} n (c : exec A) :
  (∀ m, kept m (c m).2 ∧ steps (c m).2 = steps m ∧ (c m).1 ≠ NoFuel) → metered n c.
Proof.
  intros H m Hm. destruct (H m) as (Hk & Hs & Hn). split; [done|]. split; [lia|]. split; [lia|]. by intros _.
Qed.

Lemma metered_lift {A} n (r : run_result A) : r ≠ NoFuel → metered n (lift r).
Proof. intros Hr. apply metered_quiet. intros m. split; [apply kept_refl|]. split; [done|exact Hr]. Qed.

Lemma metered_ret {A} n (a : A) : metered n (mret a).
Proof. apply metered_quiet. intros m. split; [apply kept_refl|done]. Qed.

Lemma metered_raise {A} n e : metered (A := A) n (raise e).
Proof. by apply metered_lift. Qed.

Lemma metered_bind {A B} n (c : exec A) (f : A → exec B) :
  metered n c → (∀ a, metered n (f a)) → metered n (c ≫= f).
Proof.
  intros Hc Hf m Hm. destruct (Hc m Hm) as (H1 & H2 & H3 & H4). unfold mbind, exec_bind.
  destruct (c m) as [[a|e|] m1]; cbn [fst snd is_done] in *;
    [|by split_and!|split_and!; try done; intros Hn; by destruct (H4 Hn)].
  destruct (Hf a m1 (H3 eq_refl)) as (K1 & K2 & K3 & K4). split; [by eapply kept_trans|].
  split; [done|]. split; [done|]. intros Hn. apply K4. pose proof (kept_steps _ _ H1). lia.
Qed.

(** A change of the heap or of the printed text. *)
Lemma metered_modify n (f : machine → machine) :
  (∀ m, kept m (f m) ∧ steps (f m) = steps m) → metered n (modify f).
Proof. intros Hf. apply metered_quiet. intros m. destruct (Hf m). by split_and!. Qed.

Lemma metered_get n : metered n get.
Proof. apply metered_quiet. intros m. split; [apply kept_refl|done]. Qed.

Lemma metered_load_object n v : metered n (load_object v).
Proof. apply metered_quiet. intros m. split; [apply kept_refl|done]. Qed.

Lemma metered_allocate n o : metered n (allocate o).
Proof. apply metered_quiet. intros m. by split; [split|]. Qed.

Lemma metered_store n loc o : metered n (store loc o).
Proof. apply metered_modify. intros m. by split. Qed.

Lemma metered_map {A B} n (f : A → exec B) l : (∀ x, metered n (f x)) → metered n (exec_map f l).
Proof.
  intros H. induction l as [|x l IH]; [apply metered_ret|]. cbn [exec_map].
  apply metered_bind; [done|]. intros y. apply metered_bind; [done|]. intros ys. apply metered_ret.
Qed.

Lemma metered_fold {A S} n (f : S → A → exec S) l : (∀ s x, metered n (f s x)) → ∀ s, metered n (exec_fold f s l).
Proof.
  intros H. induction l as [|x l IH]; intros s; [apply metered_ret|]. cbn [exec_fold].
  apply metered_bind; [done|]. intros s'. apply IH.
Qed.

Lemma metered_weaken {A} n n' (c : exec A) : n' <= n → metered n c → metered n' c.
Proof. intros Hn Hc m Hm. destruct (Hc m Hm) as (? & ? & ? & H). split_and!; try done. intros ?. apply H. lia. Qed.

(** A step leaves one round less to need. *)
Lemma metered_step {A} n (c : exec A) :
  metered n c → metered (n + 1) (_ ← _consume_step max_steps; c).
Proof.
  intros Hc m Hm. unfold _consume_step, modify, get, mbind, exec_bind. cbn [steps set_steps].
  destruct (Z.ltb_spec max_steps (steps m + 1)) as [Hlt|Hle]; cbn [raise lift fst snd is_done steps set_steps].
  - split; [split; cbn; [lia|done..]|]. split; [lia|]. by split.
  - unfold mret, exec_ret. set (m1 := set_steps (steps m + 1) m).
    destruct (Hc m1) as (H1 & H2 & H3 & H4); [cbn; lia|]. split.
    + eapply kept_trans; [|exact H1]. split; cbn; [lia|done..].
    + split; [done|]. split; [done|]. intros Hn. apply H4. cbn. lia.
Qed.
End budget.

(** Automation: the structure of a computation, then its leaves. *)
Create HintDb metered discriminated.
#[export] Hint Resolve metered_ret metered_raise metered_get metered_load_object metered_allocate
  metered_store : metered.

Ltac metered_steps :=
  repeat match goal with
  | |- metered _ _ (mbind _ _) => apply metered_bind; [|intros ?]
  | |- metered _ _ (exec_map _ _) => apply metered_map; intros ?
  | |- metered _ _ (mret _) => apply metered_ret
  | |- metered _ _ (raise _) => apply metered_raise
  | |- metered _ _ get => apply metered_get
  | |- metered _ _ (load_object _) => apply metered_load_object
  | |- metered _ _ (allocate _) => apply metered_allocate
  | |- metered _ _ (store _ _) => apply metered_store
  | |- metered _ _ (match ?x with _ => _ end) => destruct x
  | |- metered _ _ (if ?x then _ else _) => destruct x
  end.

Section metered_executor.
Context (float_repr : spec_float → ustring) (mir : MirGraph) (max_steps max_call_depth : Z).

Section metered_step.
Context (n : Z) (call : MirFunction → list value → ustring → exec value).
Context (Hcall : ∀ f args k, metered max_steps n (call f args k)).

Lemma metered_value fr id : metered max_steps n (_value fr id).
Proof. unfold _value. metered_steps. Qed.

Lemma metered_text v : metered max_steps n (lift (_to_string float_repr v)).
Proof. apply metered_lift, to_string_no_fuel. Qed.

Lemma metered_load_name k name fr : metered max_steps n (load_name mir k name fr).
Proof. unfold load_name. metered_steps. Qed.

Lemma metered_invoke callee args : metered max_steps n (_invoke float_repr mir call callee args).
Proof.
  unfold _invoke, invoke_builtin, one_argument. metered_steps; try apply Hcall; try apply metered_text.
  apply metered_modify. intros m. split; [|done]. split; cbn; try done. by eexists.
Qed.

Lemma metered_map_builder fr id : metered max_steps n (_map_builder fr id).
Proof. unfold _map_builder. metered_steps. apply metered_value. Qed.

Lemma metered_struct_builder fr id : metered max_steps n (_struct_builder fr id).
Proof. unfold _struct_builder. metered_steps. apply metered_value. Qed.

Lemma metered_iterator fr id : metered max_steps n (_iterator fr id).
Proof. unfold _iterator. metered_steps. apply metered_value. Qed.

Lemma metered_map_value fr id : metered max_steps n (_map_value fr id).
Proof. unfold _map_value. metered_steps. apply metered_value. Qed.

Lemma metered_key_text v : metered max_steps n (key_text v).
Proof. unfold key_text. metered_steps. Qed.

Ltac leaves :=
  try first [apply metered_value|apply metered_map_builder|apply metered_struct_builder|apply metered_iterator
    |apply metered_map_value|apply metered_key_text|apply metered_load_name|apply metered_invoke].

Lemma metered_execute_map fr i : metered max_steps n (execute_map fr i).
Proof. unfold execute_map. metered_steps; leaves. Qed.

Lemma metered_execute_struct fr i : metered max_steps n (execute_struct fr i).
Proof. unfold execute_struct. metered_steps; leaves. Qed.

Lemma metered_execute_iterator fr i : metered max_steps n (execute_iterator fr i).
Proof. unfold execute_iterator. metered_steps; leaves. Qed.

Lemma metered_execute_member fr t o member : metered max_steps n (execute_member mir fr t o member).
Proof. unfold execute_member. metered_steps; leaves. Qed.

Lemma split_no_fuel s : split_canonical_variant_v1 s ≠ NoFuel.
Proof. unfold split_canonical_variant_v1. repeat case_match; done. Qed.

Lemma variant_is_no_fuel v s : variant_is_v1 v s ≠ NoFuel.
Proof.
  unfold variant_is_v1. pose proof (split_no_fuel s). destruct (split_canonical_variant_v1 s) as [[]| |]; [|done..].
  by destruct v.
Qed.

Lemma metered_execute_variant fr i : metered max_steps n (execute_variant fr i).
Proof.
  unfold execute_variant. metered_steps; leaves; apply metered_lift.
  - apply split_no_fuel.
  - apply variant_is_no_fuel.
  - unfold variant_payload_v1. pose proof (variant_is_no_fuel a variant).
    destruct (variant_is_v1 a variant) as [[]| |]; [|done..]. by destruct a as [| | | | | | | | |? ? []| | | |].
Qed.

Lemma metered_execute_instruction k fr i :
  metered max_steps n (_execute_instruction float_repr mir call k fr i).
Proof.
  assert (∀ v, _unwrap_fallible_value v ≠ NoFuel) by (intros []; cbn; repeat case_match; done).
  unfold _execute_instruction, execute_bind, execute_store.
  destruct i; try apply metered_execute_map; try apply metered_execute_struct; try apply metered_execute_iterator;
    try apply metered_execute_member; try apply metered_execute_variant; metered_steps; leaves;
    try apply metered_lift; auto.
  - destruct value as [[]|]; done.
  - apply unary_no_fuel.
  - apply binary_no_fuel.
  - apply concat_text_no_fuel.
Qed.

Lemma metered_step_instruction k fr i :
  metered max_steps (n + 1) (step_instruction float_repr mir max_steps call k fr i).
Proof. apply metered_step, metered_execute_instruction. Qed.

Lemma metered_follow fr t : metered max_steps n (follow fr t).
Proof. unfold follow. metered_steps; leaves. Qed.
End metered_step.

Lemma metered_call n run f args k :
  (∀ f k b fr, metered max_steps n (run f k b fr)) → metered max_steps n (_call mir max_call_depth run f args k).
Proof.
  intros Hrun. unfold _call. cbv zeta. destruct (if _ : bool then _ else _) as [[p v]|]; [apply metered_raise|].
  apply metered_bind; [|intros r; metered_steps].
  unfold _call_body. destruct (bool_decide _); [apply metered_raise|].
  destruct (negb _); [apply metered_raise|]. intros m Hm. unfold get, mbind, exec_bind.
  destruct (max_call_depth <=? depth m); [by apply (metered_raise max_steps n)|]. unfold finally, modify.
  destruct (Hrun f k 0 (mk_frame ∅ (parameter_environment f args) ∅) (set_depth (depth m + 1) (set_module k m)) Hm)
    as (H1 & H2 & H3 & H4).
  destruct (run _ _ _ _ _) as [r m2]. cbn in H1, H2, H3, H4. destruct H1 as [K1 K2 K3 K4]. cbn in K1, K2, K3, K4.
  split; [split; cbn; [exact K1|lia|done|exact K4]|]. by split_and!.
Qed.

Lemma metered_run_blocks fuel : ∀ f k b fr,
  metered max_steps (Z.of_nat fuel) (run_blocks float_repr mir max_steps max_call_depth fuel f k b fr).
Proof.
  induction fuel as [|fuel IH]; intros f k b fr.
  { intros m Hm. cbn. split; [apply kept_refl|]. split; [lia|]. split; [done|]. lia. }
  cbn [run_blocks]. destruct (block_named _ _) as [block|]; [|apply metered_raise].
  rewrite Nat2Z.inj_succ. apply metered_bind.
  - apply metered_fold. intros fr' i. apply metered_step_instruction. intros. by apply metered_call.
  - intros fr'. apply metered_step, metered_bind; [apply metered_follow|]. intros [v|t]; [apply metered_ret|apply IH].
Qed.

Lemma metered_execute_main :
  0 <= max_steps → metered max_steps (max_steps + 1) (execute_main float_repr mir max_steps max_call_depth).
Proof.
  intros Hs. unfold execute_main. metered_steps. apply metered_call. intros. eapply metered_weaken; [|apply metered_run_blocks].
  unfold execution_fuel. lia.
Qed.
End metered_executor.

(** Every activation of a function, whether it returns or ends in any error,
restores the call depth and the current module, prints only after what was
printed, and passes the step limit by at most one step; with a round of fuel
for every remaining step it does not run out of fuel. *)
Theorem call_restores_frame float_repr mir max_steps max_call_depth fuel f args k m :
  steps m <= max_steps → max_steps - steps m < Z.of_nat fuel →
  let '(r, m') := _call mir max_call_depth (run_blocks float_repr mir max_steps max_call_depth fuel) f args k m in
  depth m' = depth m ∧ current_module_key m' = current_module_key m ∧ output m `prefix_of` output m' ∧
  steps m <= steps m' <= max_steps + 1 ∧ (steps m' = max_steps + 1 → is_done r = false) ∧ r ≠ NoFuel.
Proof.
  intros Hm Hf. pose proof (metered_call mir max_steps max_call_depth (Z.of_nat fuel) _ f args k
    (metered_run_blocks float_repr mir max_steps max_call_depth fuel) m Hm) as (H1 & H2 & H3 & H4).
  destruct (_call _ _ _ _ _ _ m) as [r m']. cbn [fst snd] in *. destruct H1. split_and!; try done.
  - intros E. destruct (is_done r) eqn:Er; [|done]. specialize (H3 eq_refl). lia.
  - by apply H4.
Qed.

(** ** The seal decides the order of modules *)

Section entry.
Context (float_repr : spec_float → ustring).
Context (native_sigil_contract : MirModule → bool).
Context (_fingerprint : ustring → list (ustring * MirModule) → ustring).

Abbreviation seal := (assert_sealed native_sigil_contract _fingerprint).

Lemma seal_no_fuel mir : seal mir ≠ NoFuel.
Proof.
  unfold assert_sealed. assert (outcome_fold (seal_module native_sigil_contract) () (modules mir) ≠ NoFuel) as H.
  { apply outcome_fold_no_fuel. intros [] e _. apply seal_module_spec. }
  destruct (outcome_fold _ _ _); cbn [mbind outcome_bind]; [|done..]. unfold root_module, module_of.
  destruct (assoc _ _); cbn [mbind outcome_bind]; [|done]. by case_bool_decide.
Qed.

Lemma seal_keys mir : seal mir = Done () → keys_ok mir.
Proof.
  intros Hs k m Hm%assoc_Some. by destruct (seal_modules _ _ mir Hs (k, m) Hm).
Qed.

Lemma order_no_fuel mir : keys_ok mir → in_dependency_order mir ≠ NoFuel.
Proof. intros Hk. pose proof (order_terminates mir Hk) as H. unfold order_ok in H. by destruct (in_dependency_order mir). Qed.

Lemma inspect_no_fuel mir : inspect_native_mir_support mir (seal mir) ≠ NoFuel.
Proof.
  unfold inspect_native_mir_support, _inspect_base, _validate_variant_constructs_v1, root_module, module_of.
  pose proof (seal_no_fuel mir) as Hs. destruct (seal mir) as [[]| |] eqn:E; cbn [mbind outcome_bind]; [|done..].
  pose proof (order_no_fuel mir (seal_keys mir E)).
  destruct (assoc _ _); cbn [mbind outcome_bind]; [|done].
  by destruct (in_dependency_order mir); cbn [mbind outcome_bind].
Qed.

Lemma native_run_no_fuel mir max_steps max_call_depth :
  (run_mir_native float_repr seal mir max_steps max_call_depth).1 ≠ NoFuel.
Proof.
  unfold run_mir_native. pose proof (inspect_no_fuel mir).
  destruct (inspect_native_mir_support mir (seal mir)) as [[|]| |]; try done.
  destruct (Z.leb_spec max_steps 0); [done|]. destruct (_ || _); [done|].
  destruct (metered_execute_main float_repr mir max_steps max_call_depth ltac:(lia) (initial_machine mir)) as (_ & _ & _ & H4);
    [cbn; lia|].
  destruct (execute_main _ _ _ _ _) as [[[]| |] m]; try done. exfalso. apply H4; [cbn; lia|done].
Qed.

(** [run_mir_native] terminates on every graph and every budget: the
rounds of fuel that the model gives to the loops are never exhausted. *)
Theorem native_run_total mir max_steps max_call_depth :
  (run_mir_native float_repr seal mir max_steps max_call_depth).1 ≠ NoFuel.
Proof. apply native_run_no_fuel. Qed.
End entry.

(** * A larger budget *)

(** [c'] does what [c] does where [c] stays within its budgets. *)
Definition within {A} (r : run_result A) : Prop :=
  r ≠ Raise StepBudgetExceeded ∧ r ≠ Raise CallDepthExceeded ∧ r ≠ NoFuel.

Definition extends {A} (c c' : exec A) : Prop := ∀ m, within (c m).1 → c' m = c m.

Lemma extends_refl {A} (c : exec A) : extends c c.
Proof. by intros m _. Qed.

Lemma extends_bind {A B} (c c' : exec A) (f f' : A → exec B) :
  extends c c' → (∀ a, extends (f a) (f' a)) → extends (c ≫= f) (c' ≫= f').
Proof.
  intros Hc Hf m. unfold mbind, exec_bind. specialize (Hc m). destruct (c m) as [[a|e|] m1]; cbn [fst] in *; intros Hw.
  - rewrite Hc by done. by apply Hf.
  - rewrite Hc; [done|]. destruct Hw as (H1 & H2 & _). by split_and!; [intros [= ->]|intros [= ->]|].
  - by destruct Hw as (_ & _ & ?).
Qed.

Lemma extends_fold {A S} (f f' : S → A → exec S) l :
  (∀ s x, extends (f s x) (f' s x)) → ∀ s, extends (exec_fold f s l) (exec_fold f' s l).
Proof.
  intros H. induction l as [|x l IH]; intros s; [apply extends_refl|]. cbn [exec_fold].
  by apply extends_bind; [|intros s'].
Qed.

Lemma extends_finally {A} (c c' : exec A) cleanup : extends c c' → extends (finally c cleanup) (finally c' cleanup).
Proof.
  intros Hc m. unfold finally. specialize (Hc m). destruct (c m) as [r m1]. cbn [fst]. intros Hw. by rewrite Hc.
Qed.

Section larger.
Context (float_repr : spec_float → ustring) (mir : MirGraph).
Context (steps1 steps2 depth1 depth2 : Z) (Hsteps : steps1 <= steps2) (Hdepth : depth1 <= depth2).

Lemma extends_consume : extends (_consume_step steps1) (_consume_step steps2).
Proof using Hsteps.
  intros m. unfold _consume_step, modify, get, mbind, exec_bind. cbn [steps set_steps].
  destruct (Z.ltb_spec steps1 (steps m + 1)) as [H|H]; cbn [raise lift fst]; intros (H1 & H2 & H3); [done|].
  destruct (Z.ltb_spec steps2 (steps m + 1)); [lia|done].
Qed.

Section extends_step.
Context (call call' : MirFunction → list value → ustring → exec value).
Context (Hcall : ∀ f args k, extends (call f args k) (call' f args k)).

Lemma extends_invoke callee args : extends (_invoke float_repr mir call callee args) (_invoke float_repr mir call' callee args).
Proof using Hcall.
  destruct callee; try apply extends_refl. unfold _invoke. apply extends_bind; [apply extends_refl|]. intros m.
  destruct (module_functions _ _); [|apply extends_refl]. destruct (function_named _ _); [apply Hcall|apply extends_refl].
Qed.

Lemma extends_step_instruction k fr i :
  extends (step_instruction float_repr mir steps1 call k fr i) (step_instruction float_repr mir steps2 call' k fr i).
Proof using Hcall Hsteps.
  apply extends_bind; [apply extends_consume|]. intros _.
  destruct i; try apply extends_refl. cbn [_execute_instruction].
  apply extends_bind; [apply extends_refl|]. intros f. apply extends_bind; [apply extends_refl|]. intros vs.
  apply extends_bind; [apply extends_invoke|]. intros r. apply extends_refl.
Qed.
End extends_step.

Lemma extends_call run run' f args k :
  (∀ f k b fr, extends (run f k b fr) (run' f k b fr)) →
  extends (_call mir depth1 run f args k) (_call mir depth2 run' f args k).
Proof using Hdepth.
  intros Hrun. unfold _call. cbv zeta. destruct (if _ : bool then _ else _) as [[p v]|]; [apply extends_refl|].
  apply extends_bind; [|intros r; apply extends_refl]. unfold _call_body.
  destruct (bool_decide _); [apply extends_refl|]. destruct (negb _); [apply extends_refl|].
  apply extends_bind; [apply extends_refl|]. intros m.
  destruct (Z.leb_spec depth1 (depth m)) as [H|H].
  - intros m'. cbn. by intros (_ & ? & _).
  - destruct (Z.leb_spec depth2 (depth m)); [lia|]. apply extends_bind; [apply extends_refl|]. intros _.
    apply extends_finally, Hrun.
Qed.

Lemma extends_run_blocks fuel1 : ∀ fuel2 f k b fr, (fuel1 <= fuel2)%nat →
  extends (run_blocks float_repr mir steps1 depth1 fuel1 f k b fr) (run_blocks float_repr mir steps2 depth2 fuel2 f k b fr).
Proof using Hsteps Hdepth.
  induction fuel1 as [|fuel1 IH]; intros [|fuel2] f k b fr Hf; try lia.
  - apply extends_refl.
  - intros m. cbn. by intros (_ & _ & ?).
  - cbn [run_blocks]. destruct (block_named _ _) as [block|]; [|apply extends_refl].
    apply extends_bind.
    + apply extends_fold. intros fr' i. apply extends_step_instruction. intros f' args k'. apply extends_call.
      intros. apply IH. lia.
    + intros fr'. apply extends_bind; [apply extends_consume|]. intros _.
      apply extends_bind; [apply extends_refl|]. intros [v|t]; [apply extends_refl|]. apply IH. lia.
Qed.

Lemma extends_main :
  extends (execute_main float_repr mir steps1 depth1) (execute_main float_repr mir steps2 depth2).
Proof using Hsteps Hdepth.
  unfold execute_main. destruct (module_functions _ _); [|apply extends_refl].
  destruct (function_named _ _); [|apply extends_refl]. apply extends_call. intros. apply extends_run_blocks.
  unfold execution_fuel. lia.
Qed.
End larger.

(** C29: The budgets only stop programs, they never change them: a run that ends
without exhausting its step or call-depth budget has the same result and prints
the same text under every larger budget. *)
Theorem larger_budget_same_run float_repr sigils fp mir steps1 steps2 depth1 depth2 :
  0 < steps1 <= steps2 → 0 < depth1 <= depth2 → depth2 <= _MAX_CALL_DEPTH →
  let r := run_mir_native float_repr (assert_sealed sigils fp) mir steps1 depth1 in
  r.1 ≠ Raise (RunError StepBudgetExceeded) → r.1 ≠ Raise (RunError CallDepthExceeded) →
  run_mir_native float_repr (assert_sealed sigils fp) mir steps2 depth2 = r.
Proof.
  intros Hs Hd Hmax r. pose proof (native_run_no_fuel float_repr sigils fp mir steps1 depth1) as Hfuel.
  revert Hfuel. subst r. unfold run_mir_native. unfold _MAX_CALL_DEPTH in *.
  destruct (inspect_native_mir_support mir _) as [[|]| |]; try done.
  destruct (Z.leb_spec steps1 0), (Z.leb_spec steps2 0), (Z.leb_spec depth1 0), (Z.leb_spec depth2 0),
    (Z.ltb_spec 512 depth1), (Z.ltb_spec 512 depth2); try lia. cbn [orb].
  pose proof (extends_main float_repr mir steps1 steps2 depth1 depth2 ltac:(lia) ltac:(lia) (initial_machine mir)) as He.
  destruct (execute_main float_repr mir steps1 depth1 (initial_machine mir)) as [r m] eqn:E. cbn [fst] in *.
  intros Hfuel Hstep Hdep. rewrite He; [done|]. split_and!; intros ->; congruence.
Qed.
