(* ===== verification/NativeSafety.v ===== *)
(** Validation and admission are sound for the direct executor: in a sealed graph
that the inspection admits, no execution jumps to an unknown block, extracts the
payload of a variant the value does not have, meets an identity that does not
split, or reaches an instruction or an operator the executor refuses.

The heart is the dynamic meaning of the validator's variant proofs.  A fact
stays true although blocks are executed repeatedly, because a block that carries
a fact about a value never defines that value: it would have to be executed
before it is reached for the first time. *)

From Stdlib Require Import Floats.SpecFloat.
From S2P Require Import Prelude TypeSystem Lexer Ast Capability Mir MirProof MirGraph Value NativeRuntime.
From S2P Require Import NativeAdmission NativeProof.

(** The errors that validation and admission exclude. *)
Definition impossible (e : run_error) : bool :=
  match e with
  | VariantMismatch | InvalidIdentity | UnknownBlock _ _ | UnsupportedInstruction _
  | UnsupportedUnary _ | UnsupportedBinary _ | PyKeyError _ => true
  | _ => false
  end.

(** [c] never fails with an excluded error, and its result satisfies [Q]. *)
Definition safe {A} (c : exec A) (Q : A → Prop) : Prop := ∀ m,
  match (c m).1 with
  | Done a => Q a
  | Raise e => impossible e = false
  | NoFuel => True
  end.

Lemma safe_ret {A} (a : A) (Q : A → Prop) : Q a → safe (mret a) Q.
Proof. by intros H m. Qed.

Lemma safe_raise {A} e (Q : A → Prop) : impossible e = false → safe (raise e) Q.
Proof. by intros H m. Qed.

Lemma safe_bind {A B} (c : exec A) (f : A → exec B) (Q : A → Prop) (Q' : B → Prop) :
  safe c Q → (∀ a, Q a → safe (f a) Q') → safe (c ≫= f) Q'.
Proof.
  intros Hc Hf m. specialize (Hc m). unfold mbind, exec_bind. destruct (c m) as [[a|e|] m1]; cbn [fst] in *; [|done..].
  by apply Hf.
Qed.

Lemma safe_weaken {A} (c : exec A) (Q Q' : A → Prop) : (∀ a, Q a → Q' a) → safe c Q → safe c Q'.
Proof. intros H Hc m. specialize (Hc m). destruct (c m).1; auto. Qed.

Lemma safe_any {A} (c : exec A) : (∀ m e, (c m).1 = Raise e → impossible e = false) → safe c (λ _, True).
Proof. intros H m. specialize (H m). destruct (c m).1; auto. Qed.

Lemma safe_get : safe get (λ _, True).
Proof. by intros m. Qed.

Lemma safe_modify f : safe (modify f) (λ _, True).
Proof. by intros m. Qed.

Lemma safe_load_object v : safe (load_object v) (λ _, True).
Proof. by intros m. Qed.

Lemma safe_allocate o : safe (allocate o) (λ _, True).
Proof. by intros m. Qed.

Lemma safe_lift {A} (r : run_result A) (Q : A → Prop) :
  match r with Done a => Q a | Raise e => impossible e = false | NoFuel => True end → safe (lift r) Q.
Proof. by intros H m. Qed.

Lemma safe_map {A B} (f : A → exec B) l : (∀ x, safe (f x) (λ _, True)) → safe (exec_map f l) (λ _, True).
Proof.
  intros H. induction l as [|x l IH]; [by apply safe_ret|]. cbn [exec_map].
  apply (safe_bind _ _ (λ _, True)); [done|]. intros y _. apply (safe_bind _ _ (λ _, True)); [done|].
  intros ys _. by apply safe_ret.
Qed.

(** A fold whose invariant speaks of the elements already done. *)
Lemma safe_fold {A S} (f : S → A → exec S) (Inv : list A → S → Prop) l s :
  (∀ pre x post s, l = pre ++ x :: post → Inv pre s → safe (f s x) (Inv (pre ++ [x]))) →
  Inv [] s → safe (exec_fold f s l) (Inv l).
Proof.
  intros Hstep. assert (∀ post pre s, l = pre ++ post → Inv pre s → safe (exec_fold f s post) (Inv l)) as H.
  { induction post as [|x post IH]; intros pre s1 E Hs; cbn [exec_fold].
    - apply safe_ret. rewrite app_nil_r in E. by subst.
    - apply (safe_bind _ _ (Inv (pre ++ [x]))); [by apply (Hstep pre x post)|]. intros s2 H2.
      apply (IH (pre ++ [x])); [|done]. by rewrite <- app_assoc. }
  by apply (H l []).
Qed.

Ltac safe_steps :=
  repeat match goal with
  | |- safe (mbind _ _) _ => eapply (safe_bind _ _ (λ _, True)); [|intros ? _]
  | |- safe (mret _) (λ _, True) => by apply safe_ret
  | |- safe (raise _) _ => by apply safe_raise
  | |- safe get (λ _, True) => apply safe_get
  | |- safe (modify _) _ => apply safe_modify
  | |- safe (load_object _) _ => apply safe_load_object
  | |- safe (allocate _) _ => apply safe_allocate
  | |- safe (store _ _) _ => apply safe_modify
  | |- safe (exec_map _ _) _ => apply safe_map; intros ?
  | |- safe (match ?x with _ => _ end) _ => destruct x
  | |- safe (if ?x then _ else _) _ => destruct x
  end.

(** * Operations on values *)

(** The errors that a missing value or name causes. *)
Definition missing (e : run_error) : bool :=
  match e with UnavailableValue _ | StoreUnknown _ | UnknownLoadName _ => true | _ => false end.

(** An operation on values raises neither kind of error. *)
Definition mild {A} (r : run_result A) : Prop := ∀ e, r = Raise e → impossible e || missing e = false.

Lemma mild_done {A} (a : A) : mild (Done a).
Proof. done. Qed.

Lemma mild_raise {A} e : impossible e || missing e = false → mild (A := A) (Raise e).
Proof. by intros H ? [= <-]. Qed.

Lemma mild_bind {A B} (r : run_result A) (f : A → run_result B) :
  mild r → (∀ a, mild (f a)) → mild (r ≫= f).
Proof. intros Hr Hf. destruct r as [a|e|]; cbn [mbind outcome_bind]; [apply Hf|apply mild_raise; by apply Hr|done]. Qed.

Lemma mild_map {A B} (f : A → run_result B) l : (∀ x, x ∈ l → mild (f x)) → mild (outcome_map f l).
Proof.
  induction l as [|x l IH]; intros H; [done|]. cbn [outcome_map].
  apply mild_bind; [apply H; left|]. intros y. apply mild_bind; [apply IH; intros z Hz; apply H; by right|].
  intros ys. apply mild_done.
Qed.

Lemma safe_mild {A} (r : run_result A) : mild r → safe (lift r) (λ _, True).
Proof. intros H. apply safe_lift. destruct r as [|e|]; [done| |done]. by destruct (orb_false_elim _ _ (H e eq_refl)). Qed.

Lemma mild_to_string float_repr v : mild (_to_string float_repr v).
Proof.
  revert v. apply value_nested_ind; try done; cbn [_to_string]; try (intros; by apply mild_raise).
  - intros z. unfold int_text. destruct (_ <? _); [by apply mild_raise|done].
  - intros items Hall. rewrite List.Forall_forall in Hall. apply mild_bind; [|done].
    apply mild_map. intros x Hx. destruct x; try done; apply Hall, list_elem_of_In, Hx.
  - intros entries Hall. rewrite List.Forall_forall in Hall. apply mild_bind; [|done].
    apply mild_map. intros [k x] Hx. specialize (Hall (k, x) (proj1 (list_elem_of_In _ _) Hx)). cbn [snd] in Hall.
    apply mild_bind; [|done]. by destruct x.
Qed.

Lemma mild_concat_text float_repr vs : mild (concat_text float_repr vs).
Proof. apply mild_bind; [|done]. apply mild_map. intros. apply mild_to_string. Qed.

Lemma mild_py_order op a : ∀ b, mild (py_order op a b).
Proof.
  revert a. apply (value_nested_ind (λ a, ∀ b, mild (py_order op a b))).
  6:{ intros items Hall b. cbn [py_order as_number]. destruct b; try by apply mild_raise. revert items0 Hall.
      induction items as [|x l1 IH]; intros [|y l2] Hall; try done. inversion_clear Hall as [|? ? Hx Hl].
      destruct (element_eq py_eq x y) as [[]|]; [by apply IH|apply Hx|by apply mild_raise]. }
  all: intros; cbn [py_order as_number]; repeat case_match; try done; by apply mild_raise.
Qed.

Lemma mild_eq_result a b : mild (eq_result a b).
Proof. unfold eq_result. destruct (py_eq a b); [done|by apply mild_raise]. Qed.

Lemma mild_float_of_int z : mild (float_of_int z).
Proof. unfold float_of_int. case_match; [by apply mild_raise|done]. Qed.

Lemma mild_to_float n : mild (to_float n).
Proof. destruct n; [apply mild_float_of_int|done]. Qed.

Lemma mild_number_op f g a b : mild (number_op f g a b).
Proof.
  unfold number_op. destruct a, b; try done; (apply mild_bind; [apply mild_to_float|intros ?]);
    (apply mild_bind; [apply mild_to_float|done]).
Qed.

Lemma mild_binary_base op a b : op ∈ _SUPPORTED_BINARY → op ≠ u "/" → mild (_binary_base op a b).
Proof.
  intros Hop Hdiv. unfold _binary_base.
  destruct (decide (op = u "+")).
  { unfold py_add. repeat case_match; try (by apply mild_raise); try done; apply mild_number_op. }
  destruct (decide (op = u "-")).
  { unfold py_sub. repeat case_match; try (by apply mild_raise); try done; apply mild_number_op. }
  destruct (decide (op = u "*")).
  { unfold py_mul. repeat case_match; try (by apply mild_raise); try done; apply mild_number_op. }
  repeat (case_decide; [apply mild_bind; [first [apply mild_eq_result|apply mild_py_order]|done]|]).
  exfalso. unfold _SUPPORTED_BINARY in Hop. set_solver.
Qed.

Lemma mild_binary op a b : op ∈ _SUPPORTED_BINARY → mild (_binary op a b).
Proof.
  intros Hop. assert (mild (_binary_division op a b)) as Hdiv.
  { unfold _binary_division. case_decide as Hd; [by apply mild_binary_base|]. apply mild_bind; [apply mild_eq_result|].
    intros [|]; [done|]. destruct (both_ints a b) as [[x y]|]; [by destruct (_ && _)|].
    unfold py_true_divide, int_true_divide. repeat case_match; try done; try (by apply mild_raise);
      repeat (apply mild_bind; [|intros ?]); try apply mild_to_float; try done; by apply mild_raise. }
  unfold _binary. repeat (case_match; try done).
Qed.

Lemma mild_unary op a : op ∈ _SUPPORTED_UNARY → mild (_unary op a).
Proof.
  intros Hop. assert (mild (_unary_base op a)) as Hb.
  { unfold _unary_base. repeat case_decide; [destruct a; try done; by apply mild_raise..|].
    exfalso. unfold _SUPPORTED_UNARY in Hop. set_solver. }
  unfold _unary. repeat (case_match; try done).
Qed.

Lemma mild_unwrap v : mild (_unwrap_fallible_value v).
Proof. destruct v as [| | | | | | | | |e n p| | | |]; try done. cbn. destruct p; repeat case_match; try done; by apply mild_raise. Qed.

(** * One instruction *)

(** The value of the proof's SSA number has the proof's variant. *)
Definition has_variant (V : gmap Z value) (p : proof) : Prop :=
  ∃ owner name payload, V !! p.1 = Some (NEnum owner name payload) ∧ split_canonical_variant_v1 p.2 = Done (owner, name).

(** What executing [i] does to the SSA values. *)
Record stepped (i : MirInstruction) (V V' : gmap Z value) : Prop := {
  stepped_same : ∀ x, target_of i ≠ Some x → V' !! x = V !! x;
  stepped_tests : ∀ c p, tests_for i c p →
    is_Some (V !! p.1) ∧ ∃ r, V' !! c = Some (NBool r) ∧ (r = true → has_variant V p);
}.

(** The instruction is one the executor knows, with a supported operator. *)
Definition admitted (i : MirInstruction) : bool :=
  match i with
  | MirVariantConstruct _ _ _ _ _ => true
  | MirUnary _ operator _ _ _ => bool_decide (operator ∈ _SUPPORTED_UNARY)
  | MirBinary _ operator _ _ _ _ => bool_decide (operator ∈ _SUPPORTED_BINARY)
  | _ => supported_class i
  end.

Lemma stepped_set i t v V : target_of i = Some t → (∀ c p, ¬ tests_for i c p) → stepped i V (<[t := v]> V).
Proof.
  intros Ht Hn. split; [|intros c p Hp; by destruct (Hn c p)]. intros x Hx. rewrite lookup_insert_ne; [done|]. congruence.
Qed.

Lemma stepped_none i V : (∀ c p, ¬ tests_for i c p) → stepped i V V.
Proof. intros Hn. split; [done|]. intros c p Hp. by destruct (Hn c p). Qed.

Lemma not_test i : (∀ t s v ty l, i ≠ MirVariantIs t s v ty l) → ∀ c p, ¬ tests_for i c p.
Proof. intros H c p (ty & l & ->). by eapply H. Qed.

Section instruction.
Context (float_repr : spec_float → ustring) (mir : MirGraph).
Context (call : MirFunction → list value → ustring → exec value).

(** [f] is a function of the module [k]. *)
Definition function_in (k : ustring) (f : MirFunction) : Prop :=
  ∃ m, assoc k (modules mir) = Some m ∧ f ∈ functions m.

Context (Hcall : ∀ f args k, function_in k f → safe (call f args k) (λ _, True)).

Lemma safe_value fr id : safe (_value fr id) (λ v, values fr !! id = Some v).
Proof. unfold _value. destruct (values fr !! id) eqn:E; [by apply safe_ret|by apply safe_raise]. Qed.

Lemma safe_value_any fr id : safe (_value fr id) (λ _, True).
Proof. eapply safe_weaken; [|apply safe_value]. done. Qed.

Lemma function_named_in fs name f : function_named fs name = Some f → f ∈ fs.
Proof.
  unfold function_named. intros [H _]%find_some. apply in_rev in H. by apply list_elem_of_In.
Qed.

Lemma safe_key_text v : safe (key_text v) (λ _, True).
Proof. unfold key_text. safe_steps. Qed.

Lemma safe_map_builder fr id : safe (_map_builder fr id) (λ _, True).
Proof. unfold _map_builder. safe_steps. apply safe_value_any. Qed.

Lemma safe_struct_builder fr id : safe (_struct_builder fr id) (λ _, True).
Proof. unfold _struct_builder. safe_steps. apply safe_value_any. Qed.

Lemma safe_iterator fr id : safe (_iterator fr id) (λ _, True).
Proof. unfold _iterator. safe_steps. apply safe_value_any. Qed.

Lemma safe_map_value fr id : safe (_map_value fr id) (λ _, True).
Proof. unfold _map_value. safe_steps. apply safe_value_any. Qed.

Lemma safe_load_name k name fr : is_Some (assoc k (modules mir)) → safe (load_name mir k name fr) (λ _, True).
Proof. intros [m Hm]. unfold load_name. rewrite Hm. safe_steps. Qed.

Lemma safe_invoke callee args : safe (_invoke float_repr mir call callee args) (λ _, True).
Proof using Hcall.
  unfold _invoke. destruct callee; try by apply safe_raise.
  - eapply (safe_bind _ _ (λ _, True)); [apply safe_get|]. intros m _. unfold module_functions.
    set (k := if bool_decide _ then _ else _). destruct (assoc k (modules mir)) as [module|] eqn:E; cbn [fmap option_fmap option_map];
      [|by apply safe_raise].
    destruct (function_named (functions module) name) as [f|] eqn:Ef; [|by apply safe_raise].
    apply Hcall. exists module. split; [done|]. by eapply function_named_in.
  - unfold invoke_builtin, one_argument. safe_steps; apply safe_mild, mild_to_string.
Qed.

Ltac leaves :=
  try first [apply safe_value_any|apply safe_map_builder|apply safe_struct_builder|apply safe_iterator
    |apply safe_map_value|apply safe_key_text|apply safe_invoke].

(** The result of an instruction with a target that is not a test. *)
Lemma safe_target {A} i t fr (c : exec A) (f : A → value) :
  target_of i = Some t → (∀ c p, ¬ tests_for i c p) → safe c (λ _, True) →
  safe (a ← c; mret (set_value fr t (f a))) (λ fr', stepped i (values fr) (values fr')).
Proof.
  intros Ht Hn Hc. eapply safe_bind; [exact Hc|]. intros a _. apply safe_ret. by apply stepped_set.
Qed.

Definition quiet (i : MirInstruction) (c : exec frame) (fr : frame) : Prop :=
  safe c (λ fr', stepped i (values fr) (values fr')).

Ltac quiet_steps :=
  repeat match goal with
  | |- safe (mbind _ _) _ => eapply (safe_bind _ _ (λ _, True)); [|intros ? _]
  | |- safe (mret _) (λ _, True) => by apply safe_ret
  | |- safe (mret (set_value _ _ _)) _ => apply safe_ret, stepped_set; [reflexivity|by apply not_test]
  | |- safe (mret _) _ => apply safe_ret, stepped_none; by apply not_test
  | |- safe (raise _) _ => by apply safe_raise
  | |- safe get (λ _, True) => apply safe_get
  | |- safe (modify _) _ => apply safe_modify
  | |- safe (load_object _) _ => apply safe_load_object
  | |- safe (allocate _) _ => apply safe_allocate
  | |- safe (store _ _) _ => apply safe_modify
  | |- safe (exec_map _ _) _ => apply safe_map; intros ?
  | |- safe (match ?x with _ => _ end) _ => destruct x
  | |- safe (if ?x then _ else _) _ => destruct x
  end.

Lemma safe_variant fr i :
  (∀ v, variant_of i = Some v → _canonical_variant_identity v = true) →
  (∀ t s v ty l, i = MirVariantPayload t s v ty l → has_variant (values fr) (s, v)) →
  is_Some (variant_of i) → safe (execute_variant fr i) (λ fr', stepped i (values fr) (values fr')).
Proof.
  intros Hid Hpay [w Hw]. destruct i; try done; cbn [variant_of] in Hid; cbn [execute_variant];
    destruct (split_canonical_done variant (Hid variant eq_refl)) as [[owner name] Hs].
  - rewrite Hs. eapply (safe_bind _ _ (λ _, True)); [by apply safe_lift|]. intros [o n] _. cbn beta iota. quiet_steps. leaves.
  - eapply safe_bind; [apply safe_value|]. intros x Hx. unfold variant_is_v1. rewrite Hs. cbn [mbind outcome_bind].
    eapply (safe_bind _ _ (λ r, r = true → has_variant (values fr) (source, variant))).
    { apply safe_lift. destruct x; try done. intros [->%bool_decide_eq_true ->%bool_decide_eq_true]%andb_true_iff.
      eexists _, _, _. split; [done|exact Hs]. }
    intros r Hr. apply safe_ret. split.
    + intros y Hy. cbn. rewrite lookup_insert_ne; [done|]. cbn in Hy. congruence.
    + intros c p (ty & l' & [= -> E1 E2 _ _]). destruct p as [s v]. cbn in E1, E2. subst. split; [by eexists|].
      exists r. cbn. by rewrite lookup_insert_eq.
  - destruct (Hpay _ _ _ _ _ eq_refl) as (o & n & payload & Hv & Hsp). cbn in Hv, Hsp.
    eapply safe_bind; [apply safe_value|]. intros x Hx. rewrite Hv in Hx. injection Hx as <-.
    eapply (safe_bind _ _ (λ _, True)).
    + apply safe_lift. unfold variant_payload_v1, variant_is_v1. rewrite Hsp. cbn [mbind outcome_bind].
      rewrite !bool_decide_eq_true_2 by done. cbn [andb negb]. by destruct payload.
    + intros v _. apply safe_ret, stepped_set; [done|by apply not_test].
Qed.

(** An admitted instruction of a validated block is safe. *)
Lemma safe_instruction k fr i :
  is_Some (assoc k (modules mir)) → admitted i = true →
  (∀ v, variant_of i = Some v → _canonical_variant_identity v = true) →
  (∀ t s v ty l, i = MirVariantPayload t s v ty l → has_variant (values fr) (s, v)) →
  safe (_execute_instruction float_repr mir call k fr i) (λ fr', stepped i (values fr) (values fr')).
Proof using Hcall.
  intros Hk Hadm Hid Hpay.
  destruct i; try (by apply safe_variant); try done; cbn [admitted] in Hadm; try apply bool_decide_eq_true in Hadm;
    cbn [_execute_instruction execute_map execute_struct execute_iterator];
    unfold execute_bind, execute_store, execute_member; quiet_steps; leaves.
  - apply safe_lift. destruct value as [[]|]; done.
  - by apply safe_load_name.
  - by apply safe_mild, mild_unary.
  - by apply safe_mild, mild_binary.
  - apply safe_mild, mild_unwrap.
  - apply safe_mild, mild_unwrap.
  - apply safe_mild, mild_concat_text.
Qed.
End instruction.

(** * One activation of a validated function *)

Section activation.
Context (bs : list MirBasicBlock) (Hcfg : cfg_ok bs).

Lemma one_definition b1 b2 x : b1 ∈ bs → b2 ∈ bs → x ∈ targets b1 → x ∈ targets b2 → b1 = b2.
Proof. apply NoDup_concat_unique, Hcfg. Qed.

Lemma one_block b1 b2 : b1 ∈ bs → b2 ∈ bs → id b1 = id b2 → b1 = b2.
Proof.
  intros H1 H2 E. apply (omap_NoDup_unique (λ b, Some (id b)) bs (id b1)); [|done..|by rewrite E].
  assert (omap (λ b, Some (id b)) bs = id <$> bs) as ->; [|apply Hcfg].
  clear. induction bs as [|b l IH]; [done|]. cbn. by f_equal.
Qed.

Lemma targets_NoDup b : b ∈ bs → NoDup (targets b).
Proof.
  intros (l1 & l2 & ->)%list_elem_of_split. pose proof (cfg_targets _ Hcfg) as H.
  rewrite fmap_app, concat_app, fmap_cons in H. apply NoDup_app in H as (_ & _ & H).
  cbn [concat] in H. by apply NoDup_app in H as (? & _ & _).
Qed.

(** A block that was executed to its end defines none of the values its facts
are about, and tests no value that it defines later. *)
Definition visited_ok (b : MirBasicBlock) : Prop :=
  b ∈ bs ∧ (∀ p, proven bs b p → (p.1 ∉ targets b)) ∧
  (∀ pre i post c p, instructions b = pre ++ i :: post → tests_for i c p → p.1 ∉ omap target_of (i :: post)).

(** The state when control reaches [b] after the blocks [visited]. *)
Record entry_inv (visited : list MirBasicBlock) (b : MirBasicBlock) (V : gmap Z value) : Prop := {
  entry_reach : ∃ F, reaches bs (id b) F;
  entry_facts : ∀ p, proven bs b p → has_variant V p;
  entry_defined : ∀ x, is_Some (V !! x) → ∃ b', b' ∈ visited ∧ x ∈ targets b';
  entry_visited : ∀ b', b' ∈ visited → visited_ok b';
}.

(** The state within [b], after [pre], with [post] still to come. *)
Record prefix_inv (V0 : gmap Z value) (pre post : list MirInstruction) (V : gmap Z value) : Prop := {
  prefix_defined : ∀ x, is_Some (V !! x) → is_Some (V0 !! x) ∨ x ∈ omap target_of pre;
  prefix_same : ∀ x, x ∉ omap target_of pre → V !! x = V0 !! x;
  prefix_tests : ∀ l1 i l2 c p, pre = l1 ++ i :: l2 → tests_for i c p →
    ¬ (p.1 ∈ omap target_of (i :: l2 ++ post)) ∧ ∃ r, V !! c = Some (NBool r) ∧ (r = true → has_variant V p);
}.

Lemma has_variant_eq V V' p : V !! p.1 = V' !! p.1 → has_variant V p → has_variant V' p.
Proof. intros E (o & n & pl & H & Hs). exists o, n, pl. split; [by rewrite <- E|done]. Qed.

Section block.
Context (visited : list MirBasicBlock) (b : MirBasicBlock) (V0 : gmap Z value).
Context (Hb : b ∈ bs) (Hentry : entry_inv visited b V0).

(** A value that exists and that [b] defines was defined by an earlier execution of [b]. *)
Lemma defined_before x : is_Some (V0 !! x) → x ∈ targets b → b ∈ visited.
Proof.
  intros Hx Ht. destruct (entry_defined _ _ _ Hentry x Hx) as (b' & Hb' & Ht').
  destruct (entry_visited _ _ _ Hentry b' Hb') as [Hin _]. by rewrite (one_definition b b' x).
Qed.

Lemma facts_not_defined p : proven bs b p → p.1 ∉ targets b.
Proof.
  intros Hp Ht. destruct (entry_facts _ _ _ Hentry p Hp) as (o & n & pl & Hv & _).
  assert (b ∈ visited) as Hvis by (apply (defined_before p.1); [by rewrite Hv|done]).
  destruct (entry_visited _ _ _ Hentry b Hvis) as (_ & H & _). by apply (H p).
Qed.

Lemma targets_split pre i post : instructions b = pre ++ i :: post →
  targets b = omap target_of pre ++ omap target_of (i :: post).
Proof. intros E. unfold targets. by rewrite E, omap_app. Qed.

Lemma prefix_step pre i post V V' :
  instructions b = pre ++ i :: post → prefix_inv V0 pre (i :: post) V → stepped i V V' →
  prefix_inv V0 (pre ++ [i]) post V'.
Proof.
  intros E [Hd Hs Ht] [Ssame Stests]. pose proof (targets_split pre i post E) as Et.
  pose proof (targets_NoDup b Hb) as Hnd. rewrite Et in Hnd. apply NoDup_app in Hnd as (_ & Hdisj & _).
  assert (∀ x, x ∉ omap target_of (pre ++ [i]) → (x ∉ omap target_of pre) ∧ target_of i ≠ Some x) as Hx.
  { intros x. rewrite omap_app, elem_of_app. intros Hn. split; [tauto|]. intros Ei. apply Hn. right.
    cbn. rewrite Ei. left. }
  split.
  - intros x Hx'. rewrite omap_app, elem_of_app. cbn. destruct (target_of i) as [t|] eqn:Ei.
    + destruct (decide (x = t)) as [->|Hne]; [right; right; left|].
      rewrite Ssame in Hx' by congruence. apply Hd in Hx'. tauto.
    + rewrite Ssame in Hx' by done. apply Hd in Hx'. tauto.
  - intros x [H1 H2]%Hx. rewrite Ssame by done. by apply Hs.
  - intros l1 i' l2 c p El Hf. destruct (app_cons_split _ _ _ _ _ El) as [[r Epre]|(r & -> & Ei)].
    + destruct (Ht l1 i' r c p Epre Hf) as (Hn & v & Hv & Hhas).
      assert (l2 = r ++ [i]) as ->.
      { rewrite Epre, <- app_assoc in El. apply app_inv_head in El. by injection El as <-. }
      rewrite <- app_assoc. split; [exact Hn|]. exists v.
      assert (target_of i ≠ Some c) as Hc.
      { intros Ec. apply (Hdisj c).
        - apply list_elem_of_omap. exists i'. split; [rewrite Epre; set_solver|by eapply tests_for_target].
        - cbn. rewrite Ec. left. }
      assert (target_of i ≠ Some p.1) as Hp.
      { intros Ec. apply Hn, list_elem_of_omap. exists i. split; [set_solver|done]. }
      rewrite Ssame by done. split; [done|]. intros Hr. apply (has_variant_eq V); [by rewrite Ssame|by apply Hhas].
    + destruct r as [|? r]; [|by destruct r]. injection Ei as <- <-.
      destruct (Stests c p Hf) as (Hdef & v & Hv & Hhas).
      assert (p.1 ∉ omap target_of (i :: post)) as Hn.
      { intros Hin. destruct (Hd _ Hdef) as [H0|Hpre]; [|by apply (Hdisj p.1)].
        assert (b ∈ visited) as Hvis by (apply (defined_before p.1); [done|rewrite Et; set_solver]).
        destruct (entry_visited _ _ _ Hentry b Hvis) as (_ & _ & H). by apply (H pre i post c p E Hf). }
      split; [exact Hn|]. exists v. split; [done|]. intros Hr. apply (has_variant_eq V); [|by apply Hhas].
      symmetry. apply Ssame. intros Ec. apply Hn, list_elem_of_omap. exists i. split; [left|done].
Qed.

(** Executing the whole block from an entry state. *)
Lemma block_visited V : prefix_inv V0 (instructions b) [] V → visited_ok b.
Proof.
  intros [_ _ Ht]. split; [done|]. split; [apply facts_not_defined|].
  intros pre i post c p E Hf. destruct (Ht pre i post c p E Hf) as [Hn _]. by rewrite app_nil_r in Hn.
Qed.

Lemma fact_after V p : prefix_inv V0 (instructions b) [] V → proven bs b p → has_variant V p.
Proof.
  intros [_ Hs _] Hp. apply (has_variant_eq V0); [|by apply Hentry]. symmetry. apply Hs. by apply facts_not_defined.
Qed.

(** What the next block needs, given the facts of the edge that leads to it. *)
Lemma next_entry V b' :
  prefix_inv V0 (instructions b) [] V → (∃ F, reaches bs (id b') F) →
  (∀ p, proven bs b' p → proven bs b p ∨ has_variant V p) → entry_inv (b :: visited) b' V.
Proof.
  intros Hpre Hr Hf. split; [done|..].
  - intros p Hp. destruct (Hf p Hp); [by apply fact_after|done].
  - intros x Hx. destruct (prefix_defined _ _ _ _ Hpre x Hx) as [H0|Ht].
    + destruct (entry_defined _ _ _ Hentry x H0) as (b2 & ? & ?). exists b2. split; [by right|done].
    + exists b. split; [left|done].
  - intros b2 [->|H2]%elem_of_cons; [by eapply block_visited|by apply (entry_visited _ _ _ Hentry)].
Qed.

(** An edge that adds no fact. *)
Lemma plain_edge V b' :
  prefix_inv V0 (instructions b) [] V →
  (∀ F, reaches bs (id b) F → reaches bs (id b') F) → entry_inv (b :: visited) b' V.
Proof.
  intros Hpre He. destruct (entry_reach _ _ _ Hentry) as [F HF]. apply next_entry; [done|exists F; by apply He|].
  intros p [_ Hp]. left. split; [by exists F|]. intros F' HF'. by apply Hp, He.
Qed.

(** The edge of a positive test. *)
Lemma proof_edge V b' c t e p :
  prefix_inv V0 (instructions b) [] V → terminator b = MirBranch c t e → id b' = t →
  tested b c p → V !! c = Some (NBool true) → entry_inv (b :: visited) b' V.
Proof.
  intros Hpre Et <- Hp Hc. destruct (entry_reach _ _ _ Hentry) as [F HF].
  assert (∀ F, reaches bs (id b) F → reaches bs (id b') (p :: F)) as He by (intros; by eapply reaches_proof).
  apply next_entry; [done|exists (p :: F); by apply He|]. intros q [_ Hq].
  destruct (decide (q = p)) as [->|Hne].
  - right. destruct Hp as (i & Hi & Hf). apply list_elem_of_split in Hi as (l1 & l2 & Ei).
    destruct (prefix_tests _ _ _ _ Hpre l1 i l2 c p Ei Hf) as (_ & r & Hr & Hhas). rewrite Hc in Hr.
    injection Hr as <-. by apply Hhas.
  - left. split; [by exists F|]. intros F' HF'. specialize (Hq _ (He _ HF')).
    apply elem_of_cons in Hq as [->|Hq]; done.
Qed.

(** Whether the condition of a branch is a test of the block. *)
Lemma tested_or_not c : (∃ p, tested b c p) ∨ ∀ p, ¬ tested b c p.
Proof.
  unfold tested. induction (instructions b) as [|i l IH]; [right; by intros p (? & ?%elem_of_nil & _)|].
  destruct IH as [(p & i' & Hi & Hf)|Hn]; [left; exists p, i'; split; [by right|done]|].
  assert ((∃ p, tests_for i c p) ∨ ∀ p, ¬ tests_for i c p) as [(p & Hf)|Hi].
  { destruct i; try (right; by intros p (? & ? & ?)).
    destruct (decide (target = c)) as [->|Hne]; [|right; intros p (? & ? & [=])]; try done.
    left. exists (source, variant). by eexists _, _. }
  - left. exists p, i. split; [left|done].
  - right. intros p (i' & [->|Hin]%elem_of_cons & Hf); [by apply (Hi p)|]. apply (Hn p). by exists i'.
Qed.
End block.

Lemma block_named_spec c b : block_named bs c = Some b → b ∈ bs ∧ id b = c.
Proof. intros [H E]%find_some. apply in_rev, list_elem_of_In in H. apply Z.eqb_eq in E. done. Qed.

Lemma block_named_known c : c ∈ id <$> bs → ∃ b, block_named bs c = Some b.
Proof.
  intros (b & -> & Hb)%list_elem_of_fmap. unfold block_named.
  destruct (List.find _ _) as [b'|] eqn:E; [by exists b'|exfalso].
  assert ((id b =? id b) = false) as H; [|by rewrite Z.eqb_refl in H].
  apply (find_none _ _ E b). apply in_rev. rewrite rev_involutive. by apply list_elem_of_In.
Qed.
End activation.

(** * Whole executions *)

(** A function whose blocks are validated and whose instructions are admitted. *)
Record sound_function (f : MirFunction) : Prop := {
  sound_cfg : cfg_ok (blocks f);
  sound_variants : variants_ok (blocks f);
  sound_admitted : ∀ b i, b ∈ blocks f → i ∈ instructions b → admitted i = true;
}.

Lemma initial_entry bs b : block_named bs 0 = Some b → entry_inv bs [] b ∅.
Proof.
  intros [_ Eid]%block_named_spec. split.
  - exists []. rewrite Eid. constructor.
  - intros p [_ Hp]. exfalso. assert (p ∈ []) as Hn; [|by apply elem_of_nil in Hn]. apply Hp. rewrite Eid. constructor.
  - intros x [v Hx]. by rewrite lookup_empty in Hx.
  - by intros b' ?%elem_of_nil.
Qed.

Section execution.
Context (float_repr : spec_float → ustring) (mir : MirGraph) (max_steps max_call_depth : Z).
Context (Hsound : ∀ k f, function_in mir k f → sound_function f).

Lemma safe_step_instruction call visited b V0 k f pre i post fr :
  (∀ f args k, function_in mir k f → safe (call f args k) (λ _, True)) →
  function_in mir k f → b ∈ blocks f → entry_inv (blocks f) visited b V0 →
  instructions b = pre ++ i :: post → prefix_inv V0 pre (i :: post) (values fr) →
  safe (step_instruction float_repr mir max_steps call k fr i) (λ fr', prefix_inv V0 (pre ++ [i]) post (values fr')).
Proof.
  intros Hcall Hf Hb He E Hpre. destruct (Hsound k f Hf) as [Hcfg Hvar Hadm].
  assert (i ∈ instructions b) as Hi by (rewrite E; set_solver).
  eapply (safe_bind _ _ (λ _, True)); [unfold _consume_step; safe_steps; by apply safe_raise|]. intros _ _.
  eapply safe_weaken; [|eapply safe_instruction].
  - intros fr' Hst. by eapply prefix_step.
  - done.
  - destruct Hf as (m & Hm & _). by exists m.
  - by apply (Hadm b i).
  - intros v Hv. by apply (variants_identities _ Hvar b Hb i).
  - intros t s v ty l ->. pose proof (variants_proven _ Hvar b t s v ty l Hb Hi) as Hp.
    pose proof (facts_not_defined (blocks f) Hcfg visited b V0 Hb He (s, v) Hp) as Hn.
    apply (has_variant_eq V0); [|by apply He]. symmetry. apply (prefix_same _ _ _ _ Hpre).
    intros Hin. apply Hn. rewrite (targets_split b pre _ post E). set_solver.
Qed.

Lemma safe_follow visited b V0 f fr :
  sound_function f → b ∈ blocks f → entry_inv (blocks f) visited b V0 →
  prefix_inv V0 (instructions b) [] (values fr) →
  safe (follow fr (terminator b)) (λ next,
    match next with
    | inl _ => True
    | inr t => ∃ b', block_named (blocks f) t = Some b' ∧ entry_inv (blocks f) (b :: visited) b' (values fr)
    end).
Proof.
  intros [Hcfg Hvar _] Hb He Hpre.
  assert (∀ t, t ∈ successors (terminator b) → ∃ b', block_named (blocks f) t = Some b' ∧ id b' = t) as Hnext.
  { intros t Ht. destruct (block_named_known (blocks f) t (cfg_successors _ Hcfg b t Hb Ht)) as [b' Hb'].
    exists b'. split; [done|]. by apply block_named_spec in Hb' as [_ ?]. }
  destruct (terminator b) as [[v|]|t|c t e|r] eqn:Et; cbn [follow successors] in *.
  - eapply safe_bind; [apply safe_value|]. intros x _. by apply safe_ret.
  - by apply safe_ret.
  - apply safe_ret. destruct (Hnext t ltac:(left)) as (b' & Hb' & <-). exists b'. split; [done|].
    apply (plain_edge (blocks f) Hcfg visited b V0 Hb He); [done|]. intros F HF. by eapply reaches_jump.
  - eapply safe_bind; [apply safe_value|]. intros x Hx. destruct x as [|r| | | | | | | | | | | |]; try by apply safe_raise.
    apply safe_ret. destruct r.
    + destruct (Hnext t ltac:(left)) as (b' & Hb' & Eb'). exists b'. split; [done|].
      destruct (tested_or_not b c) as [[p Hp]|Hn].
      * by apply (proof_edge (blocks f) Hcfg visited b V0 Hb He (values fr) b' c t e p).
      * apply (plain_edge (blocks f) Hcfg visited b V0 Hb He); [done|]. intros F HF. rewrite Eb'. by eapply reaches_then.
    + destruct (Hnext e ltac:(right; left)) as (b' & Hb' & Eb'). exists b'. split; [done|].
      apply (plain_edge (blocks f) Hcfg visited b V0 Hb He); [done|]. intros F HF. rewrite Eb'. by eapply reaches_else.
  - by apply safe_raise.
Qed.

Lemma safe_call run f args k :
  (∀ k f b fr, function_in mir k f → block_named (blocks f) 0 = Some b → values fr = ∅ → safe (run f k 0 fr) (λ _, True)) →
  function_in mir k f → safe (_call mir max_call_depth run f args k) (λ _, True).
Proof.
  intros Hrun Hf. unfold _call. cbv zeta. destruct (if _ : bool then _ else _) as [[p v]|]; [by apply safe_raise|].
  eapply (safe_bind _ _ (λ _, True)); [|intros r _; safe_steps].
  unfold _call_body. safe_steps. intros m. unfold finally.
  destruct (block_named_known (blocks f) 0) as [b Hb]; [apply cfg_zero, (Hsound k f Hf)|].
  pose proof (Hrun k f b (mk_frame ∅ (parameter_environment f args) ∅) Hf Hb eq_refl m) as H.
  by destruct (run _ _ _ _ m) as [r m'].
Qed.

Lemma safe_run_blocks fuel : ∀ k f c b visited fr,
  function_in mir k f → block_named (blocks f) c = Some b → entry_inv (blocks f) visited b (values fr) →
  safe (run_blocks float_repr mir max_steps max_call_depth fuel f k c fr) (λ _, True).
Proof.
  induction fuel as [|fuel IH]; intros k f c b visited fr Hf Hb He; cbn [run_blocks]; [by intros m|].
  rewrite Hb. apply block_named_spec in Hb as [Hin _].
  assert (∀ f args k, function_in mir k f →
    safe (_call mir max_call_depth (run_blocks float_repr mir max_steps max_call_depth fuel) f args k) (λ _, True)) as Hcall.
  { intros f' args k' Hf'. apply safe_call; [|done]. intros k2 f2 b2 fr2 Hf2 Hb2 Hv.
    apply (IH k2 f2 0 b2 [] fr2 Hf2 Hb2). rewrite Hv. by apply initial_entry. }
  eapply (safe_bind _ _ (λ fr', prefix_inv (values fr) (instructions b) [] (values fr'))).
  - eapply safe_weaken; [|apply (safe_fold _ (λ pre fr', ∃ post, instructions b = pre ++ post ∧
      prefix_inv (values fr) pre post (values fr')))].
    + intros fr' (post & E & Hp). assert (post = []) as ->; [|done].
      apply (f_equal length) in E. rewrite length_app in E. destruct post; [done|cbn in E; lia].
    + intros pre i post fr' E (post' & E' & Hp). rewrite E in E'. apply app_inv_head in E'. subst post'.
      eapply safe_weaken; [|by eapply (safe_step_instruction _ visited b (values fr) k f pre i post)].
      intros fr2 H2. exists post. split; [by rewrite <- app_assoc|done].
    + exists (instructions b). split; [done|]. split; [intros x Hx; by left|done|].
      intros [|] ? ? ? ? ?; done.
  - intros fr' Hp. eapply (safe_bind _ _ (λ _, True)); [unfold _consume_step; safe_steps; by apply safe_raise|]. intros _ _.
    eapply safe_bind; [by apply (safe_follow visited b (values fr) f fr' (Hsound k f Hf))|].
    intros [v|t]; [intros _; by apply safe_ret|]. intros (b' & Hb' & He'). by apply (IH k f t b' (b :: visited)).
Qed.

Lemma safe_main : safe (execute_main float_repr mir max_steps max_call_depth) (λ _, True) ∨
  assoc (root mir) (modules mir) = None.
Proof.
  unfold execute_main, module_functions. destruct (assoc (root mir) (modules mir)) as [m|] eqn:E; [left|by right].
  cbn [fmap option_fmap option_map]. destruct (function_named (functions m) (u "main")) as [main|] eqn:Em; [|by apply safe_raise].
  apply safe_call; [|exists m; split; [done|by eapply function_named_in]].
  intros k f b fr Hf Hb Hv. apply (safe_run_blocks _ k f 0 b [] fr Hf Hb).
  rewrite Hv. by apply initial_entry.
Qed.
End execution.

(** ** Admission *)

Lemma dict_fromkeys_nil {A} `{EqDecision A} (l : list A) : dict_fromkeys l = [] ↔ l = [].
Proof. destruct l; [done|]. by split. Qed.

Lemma inspect_admits (mir : MirGraph) (seal : graph_result ()) ms m f i :
  inspect_native_mir_support mir seal = Done [] → in_dependency_order mir = Done ms →
  m ∈ ms → f ∈ functions m → i ∈ concat (instructions <$> blocks f) →
  is_mir_v4_instruction i = true → admitted i = true.
Proof.
  unfold inspect_native_mir_support, _inspect_base. destruct seal as [[]| |]; cbn [mbind outcome_bind]; try done.
  unfold root_module, module_of. destruct (assoc _ _) as [r|]; cbn [mbind outcome_bind]; [|done].
  intros H Ho Hm Hf Hi Hreg. rewrite Ho in H. cbn [mbind outcome_bind] in H.
  destruct (_validate_variant_constructs_v1 mir) as [cs| |]; cbn [mbind outcome_bind] in H; try done.
  injection H as H. apply dict_fromkeys_nil, app_eq_nil in H as [H _].
  assert (∀ r, r ∈ inspect_instruction mir m f i → answered r = true) as Hall.
  { intros x Hx. destruct (answered x) eqn:E; [done|exfalso].
    assert (x ∈ filter (λ r, answered r = false) (dict_fromkeys (inspect_main r ++ concat (inspect_module mir <$> ms)))) as Hin.
    { apply list_elem_of_filter. split; [done|]. apply elem_of_dict_fromkeys, elem_of_app. right.
      apply elem_of_concat_fmap. exists m. split; [done|]. unfold inspect_module. apply elem_of_app. right.
      apply elem_of_concat_fmap. exists f. split; [done|]. apply elem_of_concat_fmap. by exists i. }
    rewrite H in Hin. by apply elem_of_nil in Hin. }
  destruct i; try reflexivity; try (specialize (Hall _ ltac:(left)); vm_compute in Hall; discriminate Hall); try done.
  - cbn [inspect_instruction] in Hall. cbn [admitted]. destruct (bool_decide _); [done|].
    by specialize (Hall _ ltac:(left)).
  - cbn [inspect_instruction] in Hall. cbn [admitted]. destruct (bool_decide _); [done|].
    by specialize (Hall _ ltac:(left)).
Qed.

(** Every module is imported, directly or not, by the root: the module loader
builds the graph by following the imports of the root. *)
Definition connected (mir : MirGraph) : Prop :=
  ∀ k m, assoc k (modules mir) = Some m → import_reach mir (root mir) k.

Lemma admitted_sound mir sigils fp :
  assert_sealed sigils fp mir = Done () → connected mir →
  inspect_native_mir_support mir (assert_sealed sigils fp mir) = Done [] →
  ∀ k f, function_in mir k f → sound_function f.
Proof.
  intros Hseal Hconn Hins k f (m & Hm & Hf).
  pose proof (seal_modules sigils fp mir Hseal (k, m) (assoc_Some _ _ _ Hm)) as (Hk & _ & Hfs). cbn in Hk, Hfs.
  destruct (Hfs f Hf) as [Hcfg Hvar _ _]. split; [done..|]. intros b i Hb Hi.
  pose proof (order_terminates mir (seal_keys sigils fp mir Hseal)) as Ho. unfold order_ok in Ho.
  destruct (in_dependency_order mir) as [ms|e|] eqn:Eo; [| |done].
  - destruct Ho as (_ & Hreach & Hkeys & _). pose proof (proj2 (Hreach k) (Hconn k m Hm)) as Hin.
    apply list_elem_of_fmap in Hin as (m' & Ek & Hm'). pose proof (Hkeys m' Hm') as Ha. rewrite <- Ek, Hm in Ha.
    injection Ha as ->. apply (inspect_admits mir _ ms m' f i Hins Eo Hm' Hf).
    + apply elem_of_concat_fmap. by exists b.
    + by apply (variants_registered _ Hvar b).
  - exfalso. unfold inspect_native_mir_support, _inspect_base in Hins. rewrite Hseal in Hins.
    cbn [mbind outcome_bind] in Hins. destruct (root_module mir); cbn [mbind outcome_bind] in Hins; [|done..].
    rewrite Eo in Hins. done.
Qed.

(** C11: In a sealed, connected and admitted graph no execution fails in a way
that validation and admission exclude, whatever the budgets: no jump to an
unknown block, no payload taken from a value of another variant, no variant
identity that does not split, no instruction and no operator the executor
refuses. *)
Theorem admitted_never_fails float_repr sigils fp mir max_steps max_call_depth e :
  assert_sealed sigils fp mir = Done () → connected mir →
  (run_mir_native float_repr (assert_sealed sigils fp) mir max_steps max_call_depth).1 = Raise (RunError e) →
  impossible e = false.
Proof.
  intros Hseal Hconn. unfold run_mir_native.
  destruct (inspect_native_mir_support mir _) as [[|r rs]| |] eqn:Hins; try done.
  destruct (max_steps <=? 0); [done|]. destruct (_ || _); [done|].
  pose proof (admitted_sound mir sigils fp Hseal Hconn Hins) as Hsound.
  destruct (safe_main float_repr mir max_steps max_call_depth Hsound) as [Hs|Hroot].
  - specialize (Hs (initial_machine mir)). destruct (execute_main _ _ _ _ _) as [[[]| |] m]; cbn [fst] in *; try done.
    by intros [= <-].
  - exfalso. unfold assert_sealed in Hseal.
    destruct (outcome_fold _ () (modules mir)); cbn [mbind outcome_bind] in Hseal; try done.
    unfold root_module, module_of in Hseal. by rewrite Hroot in Hseal.
Qed.

(** ** A program *)

Definition string_type : TypeNode := NamedType (u "String").

(** [main] builds [Some("hi")], matches on it and prints the payload. *)
Definition greeting_blocks : list MirBasicBlock :=
  [mk_mir_block 0 [MirConst 0 (LitValue (VText (u "hi"))) string_type nowhere;
                   MirVariantConstruct 1 (u "Option::Some") (Some 0) (GenericType (u "Option") [string_type]) nowhere;
                   MirVariantIs 2 1 (u "Option::Some") (NamedType (u "Bool")) nowhere] (MirBranch 2 1 2);
   mk_mir_block 1 [MirVariantPayload 3 1 (u "Option::Some") string_type nowhere;
                   MirLoad 4 (u "println") UnknownType nowhere;
                   MirCall 5 4 [3] UnknownType nowhere] (MirReturn (Some 5));
   mk_mir_block 2 [] (MirReturn None)].

Definition greeting_graph : MirGraph :=
  mk_mir_graph (u "main")
    [(u "main", mk_mir_module (u "main") (u "main") empty_program []
       [function_of (u "main") greeting_blocks])] [] 4.

Definition no_repr (_ : spec_float) : ustring := [].

Example greeting_runs :
  run_mir_native no_repr (assert_sealed no_sigils no_print) greeting_graph 1000 512 = (Done 0, u "hi" ++ [NEWLINE]).
Proof. vm_compute. reflexivity. Qed.

Lemma greeting_connected : connected greeting_graph.
Proof.
  intros k m H. apply assoc_Some in H. cbn in H. apply list_elem_of_singleton in H. injection H as -> ->. constructor.
Qed.

(** With six steps the run stops before the call. *)
Theorem admitted_never_fails_witness :
  (run_mir_native no_repr (assert_sealed no_sigils no_print) greeting_graph 6 512).1 = Raise (RunError StepBudgetExceeded) ∧
  impossible StepBudgetExceeded = false.
Proof.
  assert ((run_mir_native no_repr (assert_sealed no_sigils no_print) greeting_graph 6 512).1
    = Raise (RunError StepBudgetExceeded)) as H by (vm_compute; reflexivity).
  split; [exact H|].
  apply (admitted_never_fails no_repr no_sigils no_print greeting_graph 6 512 StepBudgetExceeded);
    [vm_compute; reflexivity|exact greeting_connected|exact H].
Defined.

Theorem call_restores_frame_witness :
  let '(r, m') := _call greeting_graph 512 (run_blocks no_repr greeting_graph 100 512 200)
      (function_of (u "main") greeting_blocks) [] (u "main") (initial_machine greeting_graph) in
  r = Done NUnit ∧ depth m' = 0.
Proof.
  pose proof (call_restores_frame no_repr greeting_graph 100 512 200 (function_of (u "main") greeting_blocks) []
    (u "main") (initial_machine greeting_graph)) as H.
  assert (steps (initial_machine greeting_graph) <= 100) as H1 by (vm_compute; discriminate).
  assert (100 - steps (initial_machine greeting_graph) < Z.of_nat 200) as H2 by (vm_compute; reflexivity).
  specialize (H H1 H2). destruct (_call _ _ _ _ _ _ _) as [r m'] eqn:E. destruct H as [Hd _]. split; [|exact Hd].
  vm_compute in E. injection E as <- _. reflexivity.
Defined.

Theorem larger_budget_same_run_witness :
  run_mir_native no_repr (assert_sealed no_sigils no_print) greeting_graph 1000 64 = (Done 0, u "hi" ++ [NEWLINE]).
Proof.
  pose proof (larger_budget_same_run no_repr no_sigils no_print greeting_graph 20 1000 8 64) as H.
  assert (run_mir_native no_repr (assert_sealed no_sigils no_print) greeting_graph 20 8 = (Done 0, u "hi" ++ [NEWLINE])) as E
    by (vm_compute; reflexivity).
  cbv zeta in H. rewrite E in H. apply H; [lia|lia|vm_compute; discriminate|discriminate|discriminate].
Defined.
