(* ===== verification/NativeLowered.v ===== *)
(** Lowering and execution fit together: in a graph whose functions are lowered the
direct executor never reads a value that is not there, never jumps out of a
function, and looks up or assigns a name that has no binding only if the name is
free in the source of some function.

The run follows the entry points of [LoweringProof]: at the start of a block the
frame has the values and the names of the block's entry point. *)

From Stdlib Require Import Floats.SpecFloat.
From S2P Require Import Prelude TypeSystem Lexer Ast Capability TypedHir Mir MirProof MirGraph Lowering LoweringProof LoweringSafe Value.
From S2P Require Import NativeRuntime NativeAdmission NativeProof NativeSafety.

(** Every function of the graph is lowered from its declaration. *)
Definition lowered `{Unicode} (mir : MirGraph) : Prop := ∀ k f, function_in mir k f →
  mir_parameter_name <$> mir_parameters f = parameter_name <$> parameters (declaration f) ∧
  ∃ typed_report index, lower_body typed_report index (declaration f) = Done (blocks f).

(** A name that the source of some function takes from outside. *)
Definition free_in (mir : MirGraph) (n : ustring) : Prop := ∃ k f, function_in mir k f ∧ n ∈ free_names (declaration f).

(** The errors that a lowered graph can still raise. *)
Definition acceptable (mir : MirGraph) (e : run_error) : Prop :=
  match e with
  | UnavailableValue _ | UnknownBlock _ _ => False
  | StoreUnknown n | UnknownLoadName n => free_in mir n
  | _ => True
  end.

Section runs.
Context (mir : MirGraph).

Definition runs {A} (c : exec A) (Q : A → Prop) : Prop := ∀ m,
  match (c m).1 with
  | Done a => Q a
  | Raise e => acceptable mir e
  | NoFuel => True
  end.

Lemma runs_ret {A} (a : A) (Q : A → Prop) : Q a → runs (mret a) Q.
Proof. by intros H m. Qed.

Lemma runs_raise {A} e (Q : A → Prop) : acceptable mir e → runs (raise e) Q.
Proof. by intros H m. Qed.

Lemma runs_bind {A B} (c : exec A) (f : A → exec B) (Q : A → Prop) (Q' : B → Prop) :
  runs c Q → (∀ a, Q a → runs (f a) Q') → runs (c ≫= f) Q'.
Proof.
  intros Hc Hf m. specialize (Hc m). unfold mbind, exec_bind. destruct (c m) as [[a|e|] m1]; cbn [fst] in *; [|done..].
  by apply Hf.
Qed.

Lemma runs_weaken {A} (c : exec A) (Q Q' : A → Prop) : (∀ a, Q a → Q' a) → runs c Q → runs c Q'.
Proof. intros H Hc m. specialize (Hc m). destruct (c m).1; auto. Qed.

Lemma runs_state {A} (c : exec A) : (∀ m, ∃ a, (c m).1 = Done a) → runs c (λ _, True).
Proof. intros H m. by destruct (H m) as [a ->]. Qed.

(** An operation that raises no error of [missing] kind. *)
Lemma runs_lift {A} (r : run_result A) : (∀ e, r = Raise e → acceptable mir e) → runs (lift r) (λ _, True).
Proof. intros H m. cbn. destruct r; auto. Qed.

Lemma runs_mild {A} (r : run_result A) : mild r → runs (lift r) (λ _, True).
Proof. intros H. apply runs_lift. intros e E. specialize (H e E). by destruct e. Qed.

Lemma runs_map {A B} (f : A → exec B) l : (∀ x, x ∈ l → runs (f x) (λ _, True)) → runs (exec_map f l) (λ _, True).
Proof.
  induction l as [|x l IH]; intros H; [by apply runs_ret|]. cbn [exec_map].
  apply (runs_bind _ _ (λ _, True)); [apply H; left|]. intros y _. apply (runs_bind _ _ (λ _, True)); [apply IH; intros z Hz; apply H; by right|].
  intros ys _. by apply runs_ret.
Qed.

Lemma runs_fold {A S} (f : S → A → exec S) (Inv : list A → S → Prop) l : ∀ pre s,
  (∀ l1 x l2 s, pre ++ l = l1 ++ x :: l2 → Inv l1 s → runs (f s x) (Inv (l1 ++ [x]))) →
  Inv pre s → runs (exec_fold f s l) (Inv (pre ++ l)).
Proof.
  induction l as [|x l IH]; intros pre s Hstep Hs; cbn [exec_fold]; [rewrite app_nil_r; by apply runs_ret|].
  apply (runs_bind _ _ (Inv (pre ++ [x]))); [by apply (Hstep pre x l)|]. intros s2 H2.
  replace (pre ++ x :: l) with ((pre ++ [x]) ++ l) by by rewrite <- app_assoc. apply IH; [|done].
  intros l1 y l2 s3 E. apply (Hstep l1 y l2). rewrite <- E. by rewrite <- app_assoc.
Qed.

(** ** One instruction *)

(** The frame has what [q] promises. *)
Record frame_ok (q : point) (fr : frame) : Prop := {
  frame_values : ∀ v, v ∈ p_values q → is_Some (values fr !! v);
  frame_names : ∀ n, n ∈ p_names q → is_Some (environment fr !! n);
}.

Lemma frame_ok_le p q fr : p ⊑ q → frame_ok q fr → frame_ok p fr.
Proof. intros [Hv Hn _] [H1 H2]. split; [intros v ?%Hv|intros n ?%Hn]; auto. Qed.

Lemma frame_after_value q i fr t v : target_of i = Some t → bound_name i = None → frame_ok q fr → frame_ok (after q i) (set_value fr t v).
Proof.
  intros Ht Hb [H1 H2]. split; cbn [after p_values p_names]; rewrite ?Ht, ?Hb; [|done].
  intros x [->%elem_of_singleton|Hx]%elem_of_union; cbn; [rewrite lookup_insert_eq; by eexists|].
  apply lookup_insert_is_Some'. right. by apply H1.
Qed.

Lemma frame_after_same q i fr : target_of i = None → bound_name i = None → frame_ok q fr → frame_ok (after q i) fr.
Proof. intros Ht Hb [H1 H2]. split; cbn [after p_values p_names]; by rewrite ?Ht, ?Hb. Qed.

Section instruction.
Context (float_repr : spec_float → ustring) (call : MirFunction → list value → ustring → exec value).
Context (Hcall : ∀ f args k, function_in mir k f → runs (call f args k) (λ _, True)).

Lemma runs_value fr id : is_Some (values fr !! id) → runs (_value fr id) (λ _, True).
Proof. intros [v E]. unfold _value. rewrite E. by apply runs_ret. Qed.

Ltac run_steps :=
  repeat match goal with
  | |- runs (mbind _ _) _ => eapply (runs_bind _ _ (λ _, True)); [|intros ? _]
  | |- runs (mret (set_value _ _ _)) _ => apply runs_ret, frame_after_value; [reflexivity|reflexivity|done]
  | |- runs (mret _) (λ _, True) => by apply runs_ret
  | |- runs (mret _) _ => apply runs_ret, frame_after_same; [reflexivity|reflexivity|done]
  | |- runs (raise _) _ => by apply runs_raise
  | |- runs get _ => by apply runs_state; eexists
  | |- runs (modify _) _ => by apply runs_state; eexists
  | |- runs (load_object _) _ => by apply runs_state; eexists
  | |- runs (allocate _) _ => by apply runs_state; eexists
  | |- runs (store _ _) _ => by apply runs_state; eexists
  | |- runs (match ?x with _ => _ end) _ => destruct x
  | |- runs (if ?x then _ else _) _ => destruct x
  end.

Lemma runs_map_value fr id : is_Some (values fr !! id) → runs (_map_value fr id) (λ _, True).
Proof. intros H. unfold _map_value. run_steps. by apply runs_value. Qed.

Lemma runs_map_builder fr id : is_Some (values fr !! id) → runs (_map_builder fr id) (λ _, True).
Proof. intros H. unfold _map_builder. run_steps. by apply runs_value. Qed.

Lemma runs_struct_builder fr id : is_Some (values fr !! id) → runs (_struct_builder fr id) (λ _, True).
Proof. intros H. unfold _struct_builder. run_steps. by apply runs_value. Qed.

Lemma runs_iterator fr id : is_Some (values fr !! id) → runs (_iterator fr id) (λ _, True).
Proof. intros H. unfold _iterator. run_steps. by apply runs_value. Qed.

Lemma runs_key_text v : runs (key_text v) (λ _, True).
Proof. unfold key_text. run_steps. Qed.

Lemma runs_load_name k name fr : is_Some (assoc k (modules mir)) → is_Some (environment fr !! name) ∨ free_in mir name →
  runs (load_name mir k name fr) (λ _, True).
Proof.
  intros [m Hm] Hn. unfold load_name. rewrite Hm. destruct (environment fr !! name); [by apply runs_ret|].
  destruct Hn as [[? [=]]|Hn]. run_steps.
Qed.

Lemma runs_invoke callee args : runs (_invoke float_repr mir call callee args) (λ _, True).
Proof.
  unfold _invoke. destruct callee; try by apply runs_raise.
  - eapply (runs_bind _ _ (λ _, True)); [by apply runs_state; eexists|]. intros m _. unfold module_functions.
    set (k := if bool_decide _ then _ else _). destruct (assoc k (modules mir)) as [module|] eqn:E; cbn [fmap option_fmap option_map];
      [|by apply runs_raise].
    destruct (function_named (functions module) name) as [f|] eqn:Ef; [|by apply runs_raise].
    apply Hcall. exists module. split; [done|]. by eapply function_named_in.
  - unfold invoke_builtin, one_argument. run_steps; apply runs_mild, mild_to_string.
Qed.

Lemma split_errors s e : split_canonical_variant_v1 s = Raise e → e = InvalidIdentity.
Proof. unfold split_canonical_variant_v1. repeat case_match; intros [=]; congruence. Qed.

Lemma variant_is_errors v s e : variant_is_v1 v s = Raise e → e = InvalidIdentity ∨ e = NotAnEnum.
Proof.
  unfold variant_is_v1. destruct (split_canonical_variant_v1 s) as [[o n]|e'|] eqn:E; cbn [mbind outcome_bind].
  - destruct v; intros [=]; by right.
  - intros [= <-]. left. by eapply split_errors.
  - done.
Qed.

Lemma variant_payload_errors v s e : variant_payload_v1 v s = Raise e →
  e = InvalidIdentity ∨ e = NotAnEnum ∨ e = VariantMismatch ∨ e = NoPayload.
Proof.
  unfold variant_payload_v1. destruct (variant_is_v1 v s) as [b|e'|] eqn:E; cbn [mbind outcome_bind].
  - repeat case_match; intros [=]; subst; tauto.
  - intros [= <-]. apply variant_is_errors in E. tauto.
  - done.
Qed.

Lemma runs_execute_bind q fr name source m type l : is_Some (values fr !! source) → frame_ok q fr →
  runs (execute_bind fr name source m) (frame_ok (after q (MirBind name source m type l))).
Proof.
  intros Hv [H1 H2]. unfold execute_bind. eapply runs_bind; [by apply runs_value|]. intros v _. apply runs_ret.
  split; cbn [after target_of bound_name p_values p_names values environment]; [done|].
  intros n [->%elem_of_singleton|Hn]%elem_of_union; [rewrite lookup_insert_eq; by eexists|].
  apply lookup_insert_is_Some'. right. by apply H2.
Qed.

Lemma runs_execute_store q fr name source type l : is_Some (values fr !! source) → frame_ok q fr →
  is_Some (environment fr !! name) ∨ free_in mir name →
  runs (execute_store fr name source) (frame_ok (after q (MirStore name source type l))).
Proof.
  intros Hv [H1 H2] Hn. unfold execute_store. case_bool_decide as He.
  - apply runs_raise. destruct Hn as [[v Hx]|]; [by rewrite Hx in He|done].
  - destruct (negb _); [by apply runs_raise|]. eapply runs_bind; [by apply runs_value|]. intros v _. apply runs_ret.
    split; cbn [after target_of bound_name p_values p_names values environment]; [done|].
    intros n ?. apply lookup_insert_is_Some'. right. by apply H2.
Qed.

(** An instruction that needs only what holds at [q] runs from a frame of [q] to a
frame of the point behind it. *)
Lemma runs_instruction k q fr i free : is_Some (assoc k (modules mir)) → admitted i = true → instr_ok free q i →
  (∀ n, n ∈ free → free_in mir n) → frame_ok q fr →
  runs (_execute_instruction float_repr mir call k fr i) (frame_ok (after q i)).
Proof.
  intros Hk Hadm [Hops _ Hname _] Hfree Hfr. assert (∀ v, v ∈ operands i → is_Some (values fr !! v)) as Hv.
  { intros v ?%Hops. by apply (frame_values _ _ Hfr). }
  assert (∀ n, n ∈ p_names q ∨ n ∈ free → is_Some (environment fr !! n) ∨ free_in mir n) as Hn.
  { intros n [?|?]; [left; by apply (frame_names _ _ Hfr)|right; by apply Hfree]. }
  assert (∀ l, (∀ v, v ∈ l → is_Some (values fr !! v)) → runs (exec_map (_value fr) l) (λ _, True)) as Hmap.
  { intros l Hl. apply runs_map. intros v ?%Hl. by apply runs_value. }
  destruct i; try done; cbn [admitted] in Hadm; try apply bool_decide_eq_true in Hadm; cbn [operands uses_of] in Hv;
    try (apply runs_execute_bind; [apply Hv; set_solver|done]);
    try (apply runs_execute_store; [apply Hv; set_solver|done|by apply Hn]);
    cbn [_execute_instruction execute_map execute_struct execute_iterator execute_variant]; unfold execute_member; run_steps;
    try first [apply runs_value, Hv; set_solver|apply runs_map_value, Hv; set_solver|apply runs_map_builder, Hv; set_solver
      |apply runs_struct_builder, Hv; set_solver|apply runs_iterator, Hv; set_solver|apply runs_key_text|apply runs_invoke
      |apply Hmap; intros ??; apply Hv; set_solver].
  - apply runs_lift. destruct value as [[]|]; intros e [=]; by subst.
  - apply runs_load_name; [done|]. by apply Hn.
  - by apply runs_mild, mild_unary.
  - by apply runs_mild, mild_binary.
  - apply runs_mild, mild_unwrap.
  - apply runs_mild, mild_unwrap.
  - apply runs_mild, mild_concat_text.
  - apply runs_lift. by intros e ->%split_errors.
  - apply runs_lift. by intros e [-> | ->]%variant_is_errors.
  - apply runs_lift. by intros e [-> |[-> |[-> | ->]]]%variant_payload_errors.
Qed.
End instruction.

(** ** One activation *)

Section execution.
Context `{HU : Unicode} (float_repr : spec_float → ustring) (max_steps max_call_depth : Z).
Context (Hsound : ∀ k f, function_in mir k f → sound_function f) (Hlowered : lowered mir).

(** The certificate of a function of the graph. *)
Lemma lowered_certified k f : function_in mir k f →
  ∃ A, certified (free_names (declaration f)) (parameter_names (declaration f)) A (blocks f).
Proof. intros Hf. destruct (Hlowered k f Hf) as [_ (report & i & E)]. by eapply lower_body_done. Qed.

Lemma runs_consume : runs (_consume_step max_steps) (λ _, True).
Proof.
  unfold _consume_step. eapply (runs_bind _ _ (λ _, True)); [by apply runs_state; eexists|]. intros _ _.
  eapply (runs_bind _ _ (λ _, True)); [by apply runs_state; eexists|]. intros m _. destruct (_ <? _); [by apply runs_raise|by apply runs_ret].
Qed.

(** From the entry of a block to its terminator. *)
Lemma runs_block call k f b p fr :
  (∀ f args k, function_in mir k f → runs (call f args k) (λ _, True)) → function_in mir k f → b ∈ blocks f →
  instrs_ok (free_names (declaration f)) p (instructions b) → frame_ok p fr →
  runs (exec_fold (step_instruction float_repr mir max_steps call k) fr (instructions b)) (frame_ok (end_point p (instructions b))).
Proof.
  intros Hcall Hf Hb Hok Hfr. apply (runs_fold _ (λ l, frame_ok (end_point p l)) (instructions b) []); [|done].
  intros l1 i l2 fr1 E Hfr1. cbn [app] in E. rewrite end_point_snoc. unfold step_instruction.
  eapply (runs_bind _ _ (λ _, True)); [apply runs_consume|]. intros _ _. rewrite E in Hok. apply instrs_ok_middle in Hok.
  destruct Hf as (m & Hm & Hf). eapply runs_instruction; [done|by exists m| |exact Hok| |done].
  - eapply (sound_admitted f); [by eapply Hsound; exists m|exact Hb|]. rewrite E. set_solver.
  - intros n Hn. exists k, f. split; [by exists m|done].
Qed.

(** Where control goes from there. *)
Definition continues (A : gmap Z point) (f : MirFunction) (next : value + Z) (fr : frame) : Prop :=
  match next with
  | inl _ => True
  | inr t => ∃ b p, block_named (blocks f) t = Some b ∧ A !! id b = Some p ∧ frame_ok p fr
  end.

Lemma runs_follow A f b q fr : certified (free_names (declaration f)) (parameter_names (declaration f)) A (blocks f) →
  terminator_ok A q (terminator b) → frame_ok q fr → runs (follow fr (terminator b)) (λ next, continues A f next fr).
Proof.
  intros HA [Hu Ht] Hfr. assert (∀ v, v ∈ terminator_uses (terminator b) → is_Some (values fr !! v)) as Hv.
  { intros v ?%Hu. by apply (frame_values _ _ Hfr). }
  assert (∀ t r, A !! t = Some r → p_values r ⊆ p_values q → p_names r ⊆ p_names q → continues A f (inr t) fr) as Hnext.
  { intros t r Hr H1 H2. destruct (block_named_known (blocks f) t) as [b' Hb'].
    { apply (cert_known _ _ _ _ HA). by eexists. }
    exists b', r. split; [done|]. apply block_named_spec in Hb' as [_ ->]. split; [done|].
    destruct Hfr as [H3 H4]. split; [intros v ?%H1|intros n ?%H2]; auto. }
  destruct (terminator b) as [[v|]|t|c t e|r]; cbn [follow terminator_uses] in *.
  - eapply runs_bind; [apply runs_value, Hv; left|]. intros x _. by apply runs_ret.
  - by apply runs_ret.
  - destruct Ht as (r & Hr & []). apply runs_ret. by eapply Hnext.
  - destruct Ht as [(r1 & Hr1 & []) (r2 & Hr2 & [])]. eapply runs_bind; [apply runs_value, Hv; left|]. intros x _.
    destruct x; try by apply runs_raise. apply runs_ret. destruct b0; by eapply Hnext.
  - by apply runs_raise.
Qed.

Lemma parameter_environment_lookup (ps : list MirParameter) (args : list value) n : length args = length ps →
  n ∈ mir_parameter_name <$> ps → ∀ env : gmap ustring value,
  is_Some (foldl (λ env pv, <[mir_parameter_name pv.1 := pv.2]> env) env (zip ps args) !! n).
Proof.
  revert args. induction ps as [|p ps IH]; intros [|a args] Hl Hn env; try done; [by apply elem_of_nil in Hn|].
  injection Hl as Hl. cbn [zip zip_with foldl]. cbn [fmap list_fmap] in Hn.
  assert (∀ (l : list (MirParameter * value)) (m : gmap ustring value), is_Some (m !! n) →
    is_Some (foldl (λ env pv, <[mir_parameter_name pv.1 := pv.2]> env) m l !! n)) as Hkeep.
  { induction l as [|x l IHl]; intros m Hm; [done|]. cbn [foldl]. apply IHl, lookup_insert_is_Some'. by right. }
  destruct (decide (n = mir_parameter_name p)) as [->|Hne].
  - apply Hkeep. rewrite lookup_insert_eq. by eexists.
  - apply IH; [done|]. by apply elem_of_cons in Hn as [?|?].
Qed.

Lemma runs_call run f args k :
  (∀ k f A b p fr, function_in mir k f → certified (free_names (declaration f)) (parameter_names (declaration f)) A (blocks f) →
    block_named (blocks f) 0 = Some b → A !! id b = Some p → frame_ok p fr → runs (run f k 0 fr) (λ _, True)) →
  function_in mir k f → runs (_call mir max_call_depth run f args k) (λ _, True).
Proof.
  intros Hrun Hf. unfold _call. cbv zeta. destruct (if _ : bool then _ else _) as [[p v]|]; [by apply runs_raise|].
  eapply (runs_bind _ _ (λ _, True)); [|intros r _; repeat (destruct (_ : bool)); first [by apply runs_ret|by apply runs_raise]].
  unfold _call_body. destruct (bool_decide _); [by apply runs_raise|]. destruct (negb _) eqn:Hlen; [by apply runs_raise|].
  apply negb_false_iff, Nat.eqb_eq in Hlen.
  eapply (runs_bind _ _ (λ _, True)); [by apply runs_state; eexists|]. intros m0 _. destruct (_ <=? _); [by apply runs_raise|].
  eapply (runs_bind _ _ (λ _, True)); [by apply runs_state; eexists|]. intros _ _ m. unfold finally.
  destruct (lowered_certified k f Hf) as [A HA]. destruct (Hlowered k f Hf) as [Hparams _].
  destruct (block_named_known (blocks f) 0) as [b Hb].
  { apply (cert_known _ _ _ _ HA). rewrite (cert_start _ _ _ _ HA). by eexists. }
  assert (runs (run f k 0 (mk_frame ∅ (parameter_environment f args) ∅)) (λ _, True)) as H.
  { eapply Hrun; [done|exact HA|exact Hb| |].
    - apply block_named_spec in Hb as [_ ->]. apply HA.
    - split; [by intros v ?%elem_of_empty|]. intros n Hn. apply parameter_environment_lookup; [done|].
      cbn in Hn. unfold parameter_names in Hn. rewrite elem_of_list_to_set in Hn. by rewrite Hparams. }
  specialize (H m). by destruct (run _ _ _ _ m) as [r m'].
Qed.

Lemma runs_run_blocks fuel : ∀ k f A c b p fr,
  function_in mir k f → certified (free_names (declaration f)) (parameter_names (declaration f)) A (blocks f) →
  block_named (blocks f) c = Some b → A !! id b = Some p → frame_ok p fr →
  runs (run_blocks float_repr mir max_steps max_call_depth fuel f k c fr) (λ _, True).
Proof.
  induction fuel as [|fuel IH]; intros k f A c b p fr Hf HA Hb Hp Hfr; cbn [run_blocks]; [by intros m|].
  rewrite Hb. apply block_named_spec in Hb as [Hin _]. destruct (cert_blocks _ _ _ _ HA b p Hin Hp) as [Hok Ht].
  eapply runs_bind; [eapply runs_block; [|done..]|].
  - intros f' args k' Hf'. apply runs_call; [|done]. intros k2 f2 A2 b2 p2 fr2 Hf2 HA2 Hb2 Hp2. by eapply IH.
  - intros fr' Hfr'. eapply (runs_bind _ _ (λ _, True)); [apply runs_consume|]. intros _ _.
    eapply runs_bind; [by eapply runs_follow|]. intros [v|t]; cbn [continues]; [intros _; by apply runs_ret|].
    intros (b' & p' & Hb' & Hp' & Hfr2). by eapply IH.
Qed.

Lemma runs_main : runs (execute_main float_repr mir max_steps max_call_depth) (λ _, True).
Proof.
  unfold execute_main, module_functions. destruct (assoc (root mir) (modules mir)) as [m|] eqn:E; [|by apply runs_raise].
  cbn [fmap option_fmap option_map]. destruct (function_named (functions m) (u "main")) as [main|] eqn:Em; [|by apply runs_raise].
  apply runs_call; [|exists m; split; [done|by eapply function_named_in]].
  intros k f A b p fr Hf HA Hb Hp. by eapply runs_run_blocks.
Qed.
End execution.
End runs.

(** * The whole run *)

(** C23: In a sealed, connected and admitted graph whose functions are lowered no run
reads a value that is not available or jumps to a block that is not there, and a
name that is looked up or assigned without a binding is free in the source of some
function of the graph. *)
Theorem lowered_run_finds `{HU : Unicode} float_repr sigils fp mir max_steps max_call_depth e :
  assert_sealed sigils fp mir = Done () → connected mir → lowered mir →
  (run_mir_native float_repr (assert_sealed sigils fp) mir max_steps max_call_depth).1 = Raise (RunError e) →
  acceptable mir e.
Proof.
  intros Hseal Hconn Hlow. unfold run_mir_native.
  destruct (inspect_native_mir_support mir _) as [[|r rs]| |] eqn:Hins; try done.
  destruct (max_steps <=? 0); [done|]. destruct (_ || _); [done|].
  pose proof (admitted_sound mir sigils fp Hseal Hconn Hins) as Hsound.
  pose proof (runs_main mir float_repr max_steps max_call_depth Hsound Hlow (initial_machine mir)) as Hs.
  destruct (execute_main _ _ _ _ _) as [[[]| |] m]; cbn [fst] in *; try done. by intros [= <-].
Qed.

(** ** A name without a binding *)

#[local] Existing Instance ascii_only.

Definition lowered_blocks (d : FunctionDeclaration) : list MirBasicBlock :=
  match lower_body no_report 0 d with Done bs => bs | _ => [] end.

Definition lowered_function (d : FunctionDeclaration) : MirFunction :=
  mk_mir_function (function_name d) [] (NamedType (u "Void")) [] []
    (_resource_contract (function_name d) [] (lowered_blocks d)) d (lowered_blocks d).

Definition main_graph (ds : list FunctionDeclaration) : MirGraph :=
  mk_mir_graph (u "main") [(u "main", mk_mir_module (u "main") (u "main") empty_program [] (lowered_function <$> ds))] [] 4.

Definition declare (name : ustring) (l : list Statement) : FunctionDeclaration :=
  mk_function name [] None (mk_block l) here false [] false.

Definition call_name (name : ustring) : Statement := ExpressionStatement (CallExpression (Identifier name here) [] here) here.

(** [fn main() { ghost() }] *)
Definition ghost_graph : MirGraph := main_graph [declare (u "main") [call_name (u "ghost")]].

(** [fn main() { if true { let helper = 1 } helper() }  fn helper() { }] *)
Definition leaking_graph : MirGraph :=
  main_graph [declare (u "main")
    [IfStatement (bool_at true) (mk_block [LetStatement (u "helper") false (Literal (LitValue (VInt 1)) here) here None]) None here;
     call_name (u "helper")];
    declare (u "helper") []].

(** A block-local [let] that hides a function keeps the name of the function in MIR,
so the call behind the block finds the local value. *)
Lemma leaked_binding_called :
  u "helper" ∈ free_names (declare (u "main")
    [IfStatement (bool_at true) (mk_block [LetStatement (u "helper") false (Literal (LitValue (VInt 1)) here) here None]) None here;
     call_name (u "helper")]) ∧
  assert_sealed no_sigils no_print leaking_graph = Done () ∧
  run_mir_native no_repr (assert_sealed no_sigils no_print) leaking_graph 1000 64 = (Raise (RunError NotCallable), []).
Proof. split; [apply (bool_decide_unpack _); vm_compute; reflexivity|]. split; vm_compute; reflexivity. Qed.

Lemma ghost_connected : connected ghost_graph.
Proof. intros k m H. apply assoc_Some in H. cbn in H. apply list_elem_of_singleton in H. injection H as -> ->. constructor. Qed.

Lemma ghost_lowered : lowered ghost_graph.
Proof.
  intros k f (m & Hm & Hf). apply assoc_Some in Hm. cbn in Hm. apply list_elem_of_singleton in Hm. injection Hm as -> ->.
  cbn in Hf. apply list_elem_of_singleton in Hf as ->. split; [reflexivity|]. exists no_report, 0%nat. vm_compute. reflexivity.
Qed.

Theorem lowered_run_finds_witness :
  (run_mir_native no_repr (assert_sealed no_sigils no_print) ghost_graph 1000 64).1 = Raise (RunError (UnknownLoadName (u "ghost"))) ∧
  free_in ghost_graph (u "ghost").
Proof.
  assert ((run_mir_native no_repr (assert_sealed no_sigils no_print) ghost_graph 1000 64).1
    = Raise (RunError (UnknownLoadName (u "ghost")))) as H by (vm_compute; reflexivity).
  split; [exact H|].
  apply (lowered_run_finds no_repr no_sigils no_print ghost_graph 1000 64 (UnknownLoadName (u "ghost")));
    [vm_compute; reflexivity|exact ghost_connected|exact ghost_lowered|exact H].
Defined.
