(* ===== verification/NativeData.v ===== *)
(** Map literals of the direct executor: a [MirMapNew], an insertion for each entry
and a [MirMapFinish].  The lemmas follow whole sequences of instructions through
the heap that the builder lives in. *)

From Stdlib Require Import Floats.SpecFloat.
From S2P Require Import Prelude TypeSystem Lexer Ast Mir MirProof MirGraph Value NativeRuntime.

Section collections.
Context (float_repr : spec_float → ustring) (mir : MirGraph).
Context (call : MirFunction → list value → ustring → exec value) (k : ustring).

(** A sequence of instructions, run from a frame. *)
Definition run_instructions (fr : frame) (is_ : list MirInstruction) : exec frame :=
  exec_fold (_execute_instruction float_repr mir call k) fr is_.

Lemma run_app fr l1 l2 m :
  run_instructions fr (l1 ++ l2) m =
    match run_instructions fr l1 m with
    | (Done fr', m') => run_instructions fr' l2 m'
    | (Raise e, m') => (Raise e, m')
    | (NoFuel, m') => (NoFuel, m')
    end.
Proof.
  revert fr m. induction l1 as [|i l1 IH]; intros fr m; [done|]. unfold run_instructions. cbn [app exec_fold].
  unfold mbind, exec_bind. destruct (_execute_instruction _ _ _ _ fr i m) as [[fr'| |] m']; [apply IH|done..].
Qed.

(** * Map literals *)

(** The instructions of a map literal with the given key and value numbers. *)
Definition insert_all (builder : Z) (kvs : list (Z * Z)) (ty : TypeNode) (l : SourceLocation) : list MirInstruction :=
  (λ kv, MirMapInsert builder kv.1 kv.2 ty l) <$> kvs.

Definition map_literal (builder target : Z) (kvs : list (Z * Z)) (ty : TypeNode) (l : SourceLocation)
    : list MirInstruction :=
  MirMapNew builder ty l :: insert_all builder kvs ty l ++ [MirMapFinish target builder ty l].

(** The frame holds the text [kx.1] at each key number and [kx.2] at each value number. *)
Definition holds_entries (fr : frame) (kvs : list (Z * Z)) (entries : list (ustring * value)) : Prop :=
  Forall2 (λ kv e, values fr !! kv.1 = Some (NString e.1) ∧ values fr !! kv.2 = Some e.2) kvs entries.

Lemma lookup_last (h : list object) o : (h ++ [o]) !! length h = Some o.
Proof. by rewrite lookup_app_r, Nat.sub_diag. Qed.

Lemma insert_last (h : list object) o o' : <[length h := o']> (h ++ [o]) = h ++ [o'].
Proof. rewrite insert_app_r_alt by lia. by rewrite Nat.sub_diag. Qed.

(** One insertion into the builder on top of the heap. *)
Lemma insert_step fr builder kv e done_ h m ty l :
  values fr !! builder = Some (NObject (length h)) →
  heap m = h ++ [MapBuilder done_ false] →
  values fr !! kv.1 = Some (NString e.1) → values fr !! kv.2 = Some e.2 →
  _execute_instruction float_repr mir call k fr (MirMapInsert builder kv.1 kv.2 ty l) m =
    if bool_decide (e.1 ∈ done_.*1) then (Raise DuplicateMapKey, m)
    else (Done fr, set_heap (h ++ [MapBuilder (done_ ++ [e]) false]) m).
Proof.
  intros Hb Hh Hk Hv. destruct e as [key v]. cbn [fst snd] in *.
  cbn [_execute_instruction execute_map]. unfold _map_builder, _value, load_object, mbind, exec_bind.
  rewrite Hb. unfold mret, exec_ret. rewrite Hh, lookup_last. cbn [option_bind mbind]. rewrite Hk. cbn [key_text].
  unfold mret, exec_ret. case_bool_decide; [done|]. rewrite Hv. unfold store, modify. by rewrite Hh, insert_last.
Qed.

Lemma insert_all_steps fr builder kvs entries done_ h m ty l :
  values fr !! builder = Some (NObject (length h)) →
  heap m = h ++ [MapBuilder done_ false] →
  holds_entries fr kvs entries →
  ∃ m', run_instructions fr (insert_all builder kvs ty l) m =
      (if bool_decide (NoDup (entries.*1) ∧ Forall (λ x, x ∉ done_.*1) entries.*1) then Done fr else Raise DuplicateMapKey, m') ∧
    ((NoDup (entries.*1) ∧ Forall (λ x, x ∉ done_.*1) entries.*1) →
      m' = set_heap (h ++ [MapBuilder (done_ ++ entries) false]) m).
Proof.
  intros Hb Hh He. revert done_ m Hh. induction He as [|kv e kvs entries [Hk Hv] He IH]; intros done_ m Hh.
  - exists m. split.
    + rewrite bool_decide_eq_true_2; [done|]. by repeat constructor.
    + intros _. rewrite app_nil_r, <- Hh. by destruct m.
  - unfold insert_all, run_instructions. cbn [fmap list_fmap exec_fold]. unfold mbind, exec_bind.
    rewrite (insert_step fr builder kv e done_ h m ty l Hb Hh Hk Hv). case_bool_decide as Hin.
    + exists m. rewrite bool_decide_eq_false_2; [split; [done|]|].
      * by intros [_ [Hd _]%Forall_cons].
      * by intros [_ [Hd _]%Forall_cons].
    + destruct (IH (done_ ++ [e]) (set_heap (h ++ [MapBuilder (done_ ++ [e]) false]) m) eq_refl) as (m' & Hrun & Hm').
      assert ((NoDup (e :: entries).*1 ∧ Forall (λ x, x ∉ done_.*1) (e :: entries).*1) ↔
        (NoDup entries.*1 ∧ Forall (λ x, x ∉ (done_ ++ [e]).*1) entries.*1)) as Hiff.
      { rewrite fmap_app. cbn [fmap list_fmap]. rewrite NoDup_cons, Forall_cons, !Forall_forall. setoid_rewrite elem_of_app.
        setoid_rewrite list_elem_of_singleton. naive_solver. }
      exists m'. split.
      * unfold run_instructions, insert_all in Hrun. rewrite Hrun. f_equal. by rewrite (bool_decide_ext _ _ Hiff).
      * intros Hc%Hiff. rewrite Hm' by done. by rewrite <- app_assoc.
Qed.

(** A map literal whose keys are texts evaluates to the map of its entries in
source order if the keys are distinct, and raises the duplicate-key error
otherwise; the finished builder is consumed, and finishing or extending it again
raises. *)
Theorem map_literal_exact fr m builder target kvs entries ty l :
  holds_entries fr kvs entries →
  (∀ kv, kv ∈ kvs → kv.1 ≠ builder ∧ kv.2 ≠ builder) →
  let '(r, m') := run_instructions fr (map_literal builder target kvs ty l) m in
  if bool_decide (NoDup entries.*1) then
    r = Done (set_value (set_value fr builder (NObject (length (heap m)))) target (NMap entries)) ∧
    heap m' = heap m ++ [MapBuilder entries true] ∧
    ∀ fr', values fr' !! builder = Some (NObject (length (heap m))) →
      (_execute_instruction float_repr mir call k fr' (MirMapFinish target builder ty l) m').1 = Raise MapBuilderConsumed ∧
      ∀ key v, (_execute_instruction float_repr mir call k fr' (MirMapInsert builder key v ty l) m').1
        = Raise MapBuilderConsumed
  else r = Raise DuplicateMapKey.
Proof.
  intros He Hne. set (fr1 := set_value fr builder (NObject (length (heap m)))).
  set (m1 := set_heap (heap m ++ [MapBuilder [] false]) m).
  assert (run_instructions fr (map_literal builder target kvs ty l) m =
    run_instructions fr1 (insert_all builder kvs ty l ++ [MirMapFinish target builder ty l]) m1) as -> by done.
  rewrite run_app.
  assert (holds_entries fr1 kvs entries) as He1.
  { unfold holds_entries in *. clear -He Hne. induction He as [|kv e kvs entries [Hk Hv] He IH]; constructor.
    - destruct (Hne kv ltac:(left)). cbn. by rewrite !lookup_insert_ne by done.
    - apply IH. intros kv' Hkv'. apply Hne. by right. }
  destruct (insert_all_steps fr1 builder kvs entries [] (heap m) m1 ty l) as (m2 & -> & Hm2);
    [cbn; by rewrite lookup_insert_eq|done|done|].
  assert ((NoDup entries.*1 ∧ Forall (λ x, x ∉ ([] : list (ustring * value)).*1) entries.*1) ↔ NoDup entries.*1) as Hiff.
  { rewrite Forall_forall. split; [by intros [? _]|]. intros H. split; [done|]. intros x _. apply not_elem_of_nil. }
  rewrite (bool_decide_ext _ _ Hiff). case_bool_decide as Hnd; [|done].
  rewrite Hm2 by by apply Hiff. cbn [app]. unfold run_instructions. cbn [exec_fold].
  unfold mbind, exec_bind. cbn [_execute_instruction execute_map]. unfold _map_builder, _value, load_object, mbind, exec_bind.
  subst fr1. cbn [values set_value]. rewrite lookup_insert_eq. unfold mret, exec_ret. cbn [heap set_heap].
  rewrite lookup_last. cbn [option_bind]. unfold store, modify. cbn [heap set_heap]. rewrite insert_last.
  split; [done|]. split; [done|]. intros fr' Hb. cbn [_execute_instruction execute_map].
  unfold _map_builder, _value, load_object, mbind, exec_bind, mret, exec_ret. rewrite Hb. cbn [heap set_heap].
  rewrite lookup_last. done.
Qed.

End collections.

(** The map literal [{a: true, b: false}], with a key number and a value number for each entry. *)
Definition literal_frame : frame :=
  mk_frame (list_to_map [(0%Z, NString (u "a")); (1%Z, NBool true); (2%Z, NString (u "b")); (3%Z, NBool false)]) ∅ ∅.

Lemma map_literal_exact_witness :
  (run_instructions (λ _, []) shadowing_graph (λ _ _ _, raise BranchNotBool) (u "main") literal_frame
    (map_literal 4 5 [(0, 1); (2, 3)] int_type nowhere) (initial_machine shadowing_graph)).1 =
  Done (set_value (set_value literal_frame 4 (NObject 0)) 5 (NMap [(u "a", NBool true); (u "b", NBool false)])).
Proof.
  pose proof (map_literal_exact (λ _, []) shadowing_graph (λ _ _ _, raise BranchNotBool) (u "main") literal_frame
    (initial_machine shadowing_graph) 4 5 [(0, 1); (2, 3)] [(u "a", NBool true); (u "b", NBool false)] int_type nowhere) as H.
  assert (holds_entries literal_frame [(0, 1); (2, 3)] [(u "a", NBool true); (u "b", NBool false)]) as Hh
    by (repeat constructor; vm_compute; reflexivity).
  specialize (H Hh). destruct (run_instructions _ _ _ _ _ _ _) as [r m']. rewrite bool_decide_eq_true_2 in H.
  - destruct H as [-> _]; [|reflexivity]. intros kv Hkv. apply list_elem_of_In in Hkv as [<-|[<-|[]]]; split; vm_compute; discriminate.
  - apply (bool_decide_unpack (NoDup [u "a"; u "b"])). vm_compute. exact I.
Defined.
