(* ===== verification/RuntimeValues.v ===== *)
(** The values of the tree interpreter and what it asks of a value: the part of
[src/koschei/interpreter.py] below [Interpreter], with the structural types and
the matching that [src/koschei/runtime_alignment.py] installs over it.

A [StructValue] is a mutable object, shared by everything that holds it: the
heap keeps its fields and a value names its location.  Lists and maps are never
changed in place, so they are values here.  The host's objects behind a
capability are outside; a capability keeps what it was created with. *)

From Stdlib Require Import Floats.SpecFloat.
From S2P Require Import Prelude TypeSystem Lexer Ast Capability TypeContracts Mir Value.

(** * Values *)

Inductive capability :=
  | SystemCaps
  | NetRoot
  | DiskRoot
  | EnvRoot
  | ProcessRoot
  | NetCaps (origin : ustring)
  | DiskCaps (prefix : ustring)
  | DiskReadCaps (prefix : ustring)
  | EnvCaps (name : ustring)
  | ProcessCaps (command : ustring).

#[export] Instance capability_eq_dec : EqDecision capability.
Proof. solve_decision. Defined.

(** [type(value).__name__] of a capability. *)
Definition capability_type (c : capability) : ustring :=
  match c with
  | SystemCaps => u "SystemCaps" | NetRoot => u "NetRoot" | DiskRoot => u "DiskRoot" | EnvRoot => u "EnvRoot"
  | ProcessRoot => u "ProcessRoot" | NetCaps _ => u "NetCaps" | DiskCaps _ => u "DiskCaps"
  | DiskReadCaps _ => u "DiskReadCaps" | EnvCaps _ => u "EnvCaps" | ProcessCaps _ => u "ProcessCaps"
  end.

(** [_NarrowedCapability]. *)
Definition is_narrowed (c : capability) : bool :=
  match c with NetCaps _ | DiskCaps _ | DiskReadCaps _ | EnvCaps _ | ProcessCaps _ => true | _ => false end.

Record _EnumConstructor := mk_constructor {
  constructor_enum : ustring;
  constructor_variant : ustring;
  constructor_payload : option (list ustring);
  constructor_type_parameters : list ustring;
}.

Inductive rvalue :=
  | RUnit
  | RBool (b : bool)
  | RInt (z : Z)
  | RFloat (f : spec_float)
  | RString (s : ustring)
  | RList (items : list rvalue)
  | RMap (entries : list (ustring * rvalue))
  (** A [StructValue], by its location. *)
  | RStruct (loc : nat)
  (** A [KsError]. *)
  | RError (message : ustring)
  (** An [EnumValue]; no payload is [_NO_PAYLOAD]. *)
  | REnum (enum_name variant : ustring) (payload : option rvalue) (type_arguments : list ustring)
  | RConstructor (c : _EnumConstructor)
  | RFunction (f : FunctionDeclaration)
  | RModuleFunction (f : FunctionDeclaration) (module_name : ustring)
  | RModule (name : ustring)
  (** A [_BoundMember]. *)
  | RBound (receiver : rvalue) (name : ustring) (l : SourceLocation)
  | RCapability (c : capability)
  | RResponse (body : ustring) (status_code : Z).

(** The fields of a [StructValue]. *)
Record struct_value := mk_struct_value {
  struct_type_name : ustring;
  struct_value_fields : list (ustring * rvalue);
  struct_type_arguments : list ustring;
}.

Abbreviation struct_heap := (list struct_value).

(** * Failures *)

Inductive runtime_error :=
  (** [KoscheiRuntimeError]: the number of the code, the text, the place. *)
  | KoscheiRuntimeError (code : Z) (message : ustring) (l : SourceLocation)
  (** An exception of Python itself, by its class. *)
  | PythonError (class_name : ustring)
  (** A value or a call outside the model. *)
  | OutsideModel (what : ustring).

Abbreviation rt A := (outcome runtime_error A).

Definition type_error {A} : rt A := Raise (PythonError (u "TypeError")).

(** The results of the arithmetic on numbers. *)
Definition of_run (r : run_result value) : rt rvalue :=
  match r with
  | Done (NInt z) => Done (RInt z)
  | Done (NFloat f) => Done (RFloat f)
  | Done _ => type_error
  | Raise PyOverflowError => Raise (PythonError (u "OverflowError"))
  | Raise _ => type_error
  | NoFuel => NoFuel
  end.

Definition rvalue_number (v : rvalue) : option number :=
  match v with
  | RBool b => Some (Exact (if b then 1 else 0))
  | RInt z => Some (Exact z)
  | RFloat f => Some (Approx f)
  | _ => None
  end.

Definition is_ks_error (v : rvalue) : bool := match v with RError _ => true | _ => false end.

(** [bool(value)]. *)
Definition truthy (v : rvalue) : bool :=
  match v with
  | RBool b => b
  | RInt z => negb (z =? 0)
  | RFloat f => match f with S754_zero _ => false | _ => true end
  | RString s => negb (bool_decide (s = []))
  | RList items => negb (bool_decide (length items = 0%nat))
  | RMap entries => negb (bool_decide (length entries = 0%nat))
  | _ => true
  end.

(** * Text *)

Section text.
(** [repr] of a [float]. *)
Context (float_repr : spec_float → ustring).

Definition int_str (z : Z) : rt ustring :=
  if INT_MAX_STR_DIGITS <? Z.of_nat (length (str_nat (Z.abs z))) then Raise (PythonError (u "ValueError"))
  else Done (str_int z).

(** [_ks_repr]: in a container a text is quoted. *)
Definition _ks_repr (to_string : rvalue → rt ustring) (v : rvalue) : rt ustring :=
  match v with RString s => Done (quoted s) | _ => to_string v end.

(** [name: item] for each field, or [key: item] for each entry. *)
Definition labelled (to_string : rvalue → rt ustring) (label : ustring → ustring) (l : list (ustring * rvalue))
    : rt ustring :=
  parts ← outcome_map (λ kv : ustring * rvalue, text ← _ks_repr to_string kv.2; Done (label kv.1 ++ u ": " ++ text)) l;
  Done (join (u ", ") parts).

(** Structs may hold one another in a cycle, so the depth is bounded by fuel; the
[repr] of the other dataclasses is outside the model. *)
Fixpoint ks_to_string (fuel : nat) (h : struct_heap) (v : rvalue) : rt ustring :=
  match fuel with
  | O => NoFuel
  | S fuel =>
      match v with
      | RBool b => Done (if b : bool then u "true" else u "false")
      | RFloat f => Done (float_text float_repr f)
      | RList items =>
          parts ← outcome_map (_ks_repr (ks_to_string fuel h)) items;
          Done (u "[" ++ join (u ", ") parts ++ u "]")
      | RMap entries =>
          inner ← labelled (ks_to_string fuel h) quoted entries;
          Done (u "{" ++ inner ++ u "}")
      | RStruct loc =>
          match h !! loc with
          | None => Raise (OutsideModel (u "location"))
          | Some o =>
              inner ← labelled (ks_to_string fuel h) (λ name, name) (struct_value_fields o);
              Done (struct_type_name o ++ u " { " ++ inner ++ u " }")
          end
      | REnum _ variant None _ => Done variant
      | REnum _ variant (Some payload) _ =>
          text ← _ks_repr (ks_to_string fuel h) payload;
          Done (variant ++ u "(" ++ text ++ u ")")
      | RInt z => int_str z
      | RString s => Done s
      | RError message => Done message
      | RUnit => Done (u "unit")
      | RConstructor _ | RFunction _ | RModuleFunction _ _ | RModule _ | RBound _ _ _ | RCapability _
      | RResponse _ _ => Raise (OutsideModel (u "repr"))
      end
  end.
End text.

(** * Capabilities inside a value *)

Section contains.
(** [chase] looks into the struct at a location. *)
Context (chase : nat → gset nat → bool * gset nat).

(** [any(... for item in items)]: the structs visited so far are shared. *)
Fixpoint any_item {A} (f : A → gset nat → bool * gset nat) (l : list A) (visited : gset nat) : bool * gset nat :=
  match l with
  | [] => (false, visited)
  | x :: l => let '(b, visited) := f x visited in if b : bool then (true, visited) else any_item f l visited
  end.

Fixpoint contains_in (v : rvalue) (visited : gset nat) {struct v} : bool * gset nat :=
  match v with
  | RCapability _ => (true, visited)
  | RStruct loc => chase loc visited
  | REnum _ _ (Some payload) _ => contains_in payload visited
  | RList items => any_item contains_in items visited
  | RMap entries => any_item (λ kv : ustring * rvalue, contains_in kv.2) entries visited
  | _ => (false, visited)
  end.
End contains.

(** A struct is entered once; each entry visits a new location of the heap. *)
Fixpoint chase_struct (fuel : nat) (h : struct_heap) (loc : nat) (visited : gset nat) : bool * gset nat :=
  match fuel with
  | O => (false, visited)
  | S fuel =>
      if bool_decide (loc ∈ visited) then (false, visited)
      else
        match h !! loc with
        | None => (false, visited)
        | Some o => any_item (λ kv : ustring * rvalue, contains_in (chase_struct fuel h) kv.2) (struct_value_fields o)
                   ({[loc]} ∪ visited)
        end
  end.

(** [_contains_capability(value)]. *)
Definition _contains_capability (h : struct_heap) (v : rvalue) : bool :=
  (contains_in (chase_struct (S (length h)) h) v ∅).1.

(** * Comparison *)

#[export] Instance constructor_eq_dec : EqDecision _EnumConstructor.
Proof. solve_decision. Defined.
#[export] Instance parameter_eq_dec : EqDecision FunctionParameter.
Proof. solve_decision. Defined.
#[export] Instance block_decision : EqDecision Block := block_eq_dec.
#[export] Instance function_eq_dec : EqDecision FunctionDeclaration.
Proof. solve_decision. Defined.

Definition is_nan_value (v : rvalue) : bool := match v with RFloat S754_nan => true | _ => false end.

(** Inside a container Python asks for identity first, which decides for a NaN
with itself; the model does not track the identity of floats. *)
Definition member_eq (eq : rvalue → rvalue → rt bool) (x y : rvalue) : rt bool :=
  if is_nan_value x && is_nan_value y then Raise (OutsideModel (u "identity")) else eq x y.

(** Two sequences item by item. *)
Fixpoint items_eq (eq : rvalue → rvalue → rt bool) (l1 l2 : list rvalue) : rt bool :=
  match l1, l2 with
  | [], [] => Done true
  | x :: l1, y :: l2 =>
      equal ← member_eq eq x y;
      if equal : bool then items_eq eq l1 l2 else Done false
  | _, _ => Done false
  end.

(** Each entry of one dictionary in the other. *)
Fixpoint entries_in (eq : rvalue → rvalue → rt bool) (l1 l2 : list (ustring * rvalue)) : rt bool :=
  match l1 with
  | [] => Done true
  | (k, x) :: l1 =>
      match assoc k l2 with
      | None => Done false
      | Some y =>
          equal ← member_eq eq x y;
          if equal : bool then entries_in eq l1 l2 else Done false
      end
  end.

Definition dict_eq (eq : rvalue → rvalue → rt bool) (l1 l2 : list (ustring * rvalue)) : rt bool :=
  if bool_decide (length l1 = length l2) then entries_in eq l1 l2 else Done false.

(** Objects without [__eq__] are equal to themselves alone.  There is one
[SystemCaps], and it keeps its roots; narrowed capabilities are told apart by
their class only. *)
Definition capability_eq (c d : capability) : rt bool :=
  if is_narrowed c && bool_decide (capability_type c = capability_type d)
  then Raise (OutsideModel (u "identity")) else Done (bool_decide (c = d)).

(** [left == right]. *)
Fixpoint values_eq (fuel : nat) (h : struct_heap) (a b : rvalue) : rt bool :=
  match fuel with
  | O => NoFuel
  | S fuel =>
      match rvalue_number a, rvalue_number b with
      | Some x, Some y => Done (number_eqb x y)
      | _, _ =>
          match a, b with
          | RUnit, RUnit => Done true
          | RString s, RString t => Done (bool_decide (s = t))
          | RList l1, RList l2 => items_eq (values_eq fuel h) l1 l2
          | RMap l1, RMap l2 => dict_eq (values_eq fuel h) l1 l2
          | RStruct l1, RStruct l2 =>
              if bool_decide (l1 = l2) then Done true
              else
                match h !! l1, h !! l2 with
                | Some o1, Some o2 =>
                    if bool_decide (struct_type_name o1 = struct_type_name o2) then
                      same ← dict_eq (values_eq fuel h) (struct_value_fields o1) (struct_value_fields o2);
                      Done (same && bool_decide (struct_type_arguments o1 = struct_type_arguments o2))
                    else Done false
                | _, _ => Raise (OutsideModel (u "location"))
                end
          | RError m1, RError m2 => Done (bool_decide (m1 = m2))
          | REnum e1 v1 p1 t1, REnum e2 v2 p2 t2 =>
              if bool_decide (e1 = e2 ∧ v1 = v2) then
                same ← match p1, p2 with
                       | None, None => Done true
                       | Some x, Some y => member_eq (values_eq fuel h) x y
                       | _, _ => Done false
                       end;
                Done (same && bool_decide (t1 = t2))
              else Done false
          | RConstructor c1, RConstructor c2 => Done (bool_decide (c1 = c2))
          | RFunction f1, RFunction f2 => Done (bool_decide (f1 = f2))
          | RModuleFunction f1 m1, RModuleFunction f2 m2 => Done (bool_decide (f1 = f2 ∧ m1 = m2))
          | RModule m1, RModule m2 => Done (bool_decide (m1 = m2))
          | RBound r1 n1 l1, RBound r2 n2 l2 =>
              same ← member_eq (values_eq fuel h) r1 r2;
              Done (same && bool_decide (n1 = n2 ∧ l1 = l2))
          | RCapability c1, RCapability c2 => capability_eq c1 c2
          | RResponse b1 s1, RResponse b2 s2 => Done (bool_decide (b1 = b2 ∧ s1 = s2))
          | _, _ => Done false
          end
      end
  end.

(** [value in items]. *)
Fixpoint value_in (eq : rvalue → rvalue → rt bool) (v : rvalue) (items : list rvalue) : rt bool :=
  match items with
  | [] => Done false
  | x :: items => equal ← member_eq eq x v; if equal : bool then Done true else value_in eq v items
  end.

(** [left op right] of two lists, from where they differ. *)
Fixpoint items_order (eq : rvalue → rvalue → rt bool) (order : rvalue → rvalue → rt bool) (op : ordering)
    (l1 l2 : list rvalue) : rt bool :=
  match l1, l2 with
  | [], [] => Done (holds op Eq)
  | [], _ :: _ => Done (holds op Lt)
  | _ :: _, [] => Done (holds op Gt)
  | x :: l1, y :: l2 =>
      equal ← member_eq eq x y;
      if equal : bool then items_order eq order op l1 l2 else order x y
  end.

(** [left < right] and the other three. *)
Fixpoint values_order (fuel : nat) (h : struct_heap) (op : ordering) (a b : rvalue) : rt bool :=
  match fuel with
  | O => NoFuel
  | S fuel =>
      match rvalue_number a, rvalue_number b with
      | Some x, Some y => Done (match number_compare x y with Some c => holds op c | None => false end)
      | _, _ =>
          match a, b with
          | RString s, RString t => Done (holds op (text_compare s t))
          | RList l1, RList l2 => items_order (values_eq fuel h) (values_order fuel h op) op l1 l2
          | _, _ => type_error
          end
      end
  end.

(** * Arithmetic *)

Definition sum_values (a b : rvalue) : rt rvalue :=
  match rvalue_number a, rvalue_number b with
  | Some x, Some y => of_run (number_op Z.add (SFadd prec emax) x y)
  | _, _ =>
      match a, b with
      | RString s, RString t => Done (RString (s ++ t))
      | RList l1, RList l2 => Done (RList (l1 ++ l2))
      | _, _ => type_error
      end
  end.

Definition subtract_values (a b : rvalue) : rt rvalue :=
  match rvalue_number a, rvalue_number b with
  | Some x, Some y => of_run (number_op Z.sub (SFsub prec emax) x y)
  | _, _ => type_error
  end.

(** [n * sequence]. *)
Definition repeat_value (n : Z) (v : rvalue) : rt rvalue :=
  match v with
  | RString s => Done (RString (repeat_list n s))
  | RList l => Done (RList (repeat_list n l))
  | _ => type_error
  end.

Definition multiply_values (a b : rvalue) : rt rvalue :=
  match rvalue_number a, rvalue_number b with
  | Some x, Some y => of_run (number_op Z.mul (SFmul prec emax) x y)
  | Some (Exact n), None => repeat_value n b
  | None, Some (Exact n) => repeat_value n a
  | _, _ => type_error
  end.

(** [left / right], the divisor not zero. *)
Definition divide_values (a b : rvalue) : rt rvalue :=
  match rvalue_number a, rvalue_number b with
  | Some (Exact x), Some (Exact y) => of_run (f ← int_true_divide x y; Done (NFloat f))
  | Some x, Some y => of_run (f ← to_float x; g ← to_float y; Done (NFloat (SFdiv prec emax f g)))
  | _, _ => type_error
  end.

(** [-operand]. *)
Definition negate_value (v : rvalue) : rt rvalue :=
  match v with
  | RInt z => Done (RInt (- z))
  | RBool b => Done (RInt (if b : bool then -1 else 0))
  | RFloat f => Done (RFloat (SFopp f))
  | _ => type_error
  end.

(** * Runtime types *)

(** [parse_type_text(text)]. *)
Definition runtime_type_text (text : ustring) : rt TypeNode :=
  match type_of_text text with
  | Done t => Done t
  | Raise _ => Raise (PythonError (u "ValueError"))
  | NoFuel => NoFuel
  end.

(** [type(value).__name__] of a function. *)
Definition function_class (f : FunctionDeclaration) : ustring :=
  if bool_decide (function_type_parameters f = []) && negb (is_transition f) then u "FunctionDeclaration"
  else u "GenericFunctionDeclaration".

(** [NamedType] or [GenericType] of a name and the texts of its arguments. *)
Definition instance_type (name : ustring) (arguments : list ustring) : rt TypeNode :=
  if bool_decide (arguments = []) then Done (NamedType name)
  else parsed ← outcome_map runtime_type_text arguments; Done (GenericType name parsed).

Fixpoint _runtime_type_node (h : struct_heap) (v : rvalue) {struct v} : rt TypeNode :=
  match v with
  | RUnit => Done (NamedType (u "Void"))
  | RStruct loc =>
      match h !! loc with
      | None => Raise (OutsideModel (u "location"))
      | Some o => instance_type (struct_type_name o) (struct_type_arguments o)
      end
  | REnum enum variant payload type_arguments =>
      payload ← match payload with None => Done UnknownType | Some p => _runtime_type_node h p end;
      if bool_decide (enum = u "Option") then Done (GenericType (u "Option") [payload])
      else if bool_decide (enum = u "Result") then
        if bool_decide (variant = u "Ok") then Done (GenericType (u "Result") [payload; UnknownType])
        else Done (GenericType (u "Result") [UnknownType; payload])
      else instance_type enum type_arguments
  | RError _ => Done (NamedType (u "Error"))
  | RBool _ => Done (NamedType (u "Bool"))
  | RString _ => Done (NamedType (u "String"))
  | RFloat _ => Done (NamedType (u "Float"))
  | RInt _ => Done (NamedType (u "Int"))
  | RList items =>
      types ← outcome_map (_runtime_type_node h) items;
      Done (GenericType (u "List") [union_type types])
  | RMap entries =>
      types ← outcome_map (λ kv : ustring * rvalue, _runtime_type_node h kv.2) entries;
      Done (GenericType (u "Map") [union_type ((λ _, NamedType (u "String")) <$> entries); union_type types])
  | RCapability c => Done (NamedType (capability_type c))
  | RResponse _ _ => Done (NamedType (u "Response"))
  | RFunction f => Done (NamedType (function_class f))
  | RModuleFunction _ _ => Done (NamedType (u "ModuleFunction"))
  | RModule _ => Done (NamedType (u "ModuleValue"))
  | RConstructor _ => Done (NamedType (u "_EnumConstructor"))
  | RBound _ _ _ => Done (NamedType (u "_BoundMember"))
  end.

(** [_runtime_type_name] of runtime_alignment.py. *)
Definition _runtime_type_name (h : struct_heap) (v : rvalue) : rt ustring :=
  t ← _runtime_type_node h v; Done (render_type t).

(** [all(f(item) for item in items)] and [any(...)]: they stop at the first
answer. *)
Fixpoint rt_all {A} (f : A → rt bool) (l : list A) : rt bool :=
  match l with
  | [] => Done true
  | x :: l => b ← f x; if b : bool then rt_all f l else Done false
  end.

Fixpoint rt_any {A} (f : A → rt bool) (l : list A) : rt bool :=
  match l with
  | [] => Done false
  | x :: l => b ← f x; if b : bool then Done true else rt_any f l
  end.

(** [actual == expected] of type nodes. *)
Definition same_node (a b : TypeNode) : rt bool := Done (bool_decide (a = b)).

(** [_matches_node(value, expected)]. *)
Fixpoint _matches_node (h : struct_heap) (expected : TypeNode) (v : rvalue) {struct expected} : rt bool :=
  match expected with
  | UnknownType => Done true
  | UnionType options => rt_any (λ option, _matches_node h option v) options
  | TypeVariable _ => Done false
  | NamedType name =>
      if bool_decide (name = u "List") then Done (match v with RList _ => true | _ => false end)
      else if bool_decide (name = u "Map") then Done (match v with RMap _ => true | _ => false end)
      else if bool_decide (name = u "Option") || bool_decide (name = u "Result") then
        Done (match v with REnum e _ _ _ => bool_decide (e = name) | _ => false end)
      else
        actual ← _runtime_type_node h v;
        match actual with
        | GenericType n _ => Done (bool_decide (n = name))
        | _ => same_node actual expected
        end
  | GenericType name arguments =>
      let nominal :=
        actual ← _runtime_type_node h v;
        match actual with
        | NamedType n | GenericType n _ => Done (bool_decide (n = name) && is_assignable expected actual)
        | _ => Done false
        end in
      match arguments with
      | [a] =>
          if bool_decide (name = u "Option") then
            match v with
            | REnum e variant payload _ =>
                if negb (bool_decide (e = u "Option")) then Done false
                else if bool_decide (variant = u "None") then Done true
                else
                  match payload with
                  | Some p => if bool_decide (variant = u "Some") then _matches_node h a p else Done false
                  | None => Done false
                  end
            | _ => Done false
            end
          else if bool_decide (name = u "List") then
            match v with RList items => rt_all (_matches_node h a) items | _ => Done false end
          else nominal
      | [a; b] =>
          if bool_decide (name = u "Result") then
            match v with
            | REnum e variant (Some p) _ =>
                if negb (bool_decide (e = u "Result")) then Done false
                else if bool_decide (variant = u "Ok") then _matches_node h a p
                else if bool_decide (variant = u "Err") then _matches_node h b p
                else Done false
            | _ => Done false
            end
          else if bool_decide (name = u "Map") then
            match v with
            | RMap entries =>
                rt_all (λ kv : ustring * rvalue,
                  key ← _matches_node h a (RString kv.1);
                  if key : bool then _matches_node h b kv.2 else Done false) entries
            | _ => Done false
            end
          else nominal
      | _ => nominal
      end
  end.

(** [_expected_type]. *)
Definition _expected_type (expected_names : list ustring) : rt TypeNode :=
  types ← outcome_map runtime_type_text expected_names; Done (union_type types).

(** The structural half of [_runtime_matches_type]: a call without bindings. *)
Definition matches_names (h : struct_heap) (expected_names : list ustring) (v : rvalue) : rt bool :=
  expected ← _expected_type expected_names; _matches_node h expected v.

(** * The matcher with bindings *)

(** [_split_generic_arguments]: commas outside brackets separate. *)
Fixpoint split_arguments (text : ustring) (depth : Z) (current : ustring) : list ustring :=
  match text with
  | [] => [strip (rev current)]
  | c :: text =>
      if c =? ch "<" then split_arguments text (depth + 1) (c :: current)
      else if c =? ch ">" then split_arguments text (depth - 1) (c :: current)
      else if (c =? ch ",") && (depth =? 0) then strip (rev current) :: split_arguments text depth []
      else split_arguments text depth (c :: current)
  end.

Definition _split_generic_arguments (text : ustring) : list ustring :=
  filter (λ argument, argument ≠ []) (split_arguments text 0 []).

(** [_generic_type]. *)
Definition _generic_type (name : ustring) : ustring * list ustring :=
  let '(base, rest) := span (λ c, negb (c =? ch "<")) name in
  match rest with
  | [] => (name, [])
  | _ :: rest =>
      if bool_decide (last name = Some (ch ">")) then (strip base, _split_generic_arguments (removelast rest))
      else (name, [])
  end.

Abbreviation bindings := (gmap ustring ustring).

(** Run [f] on the pairs of two lists until one does not match. *)
Fixpoint zip_match {A B} (f : A → B → bindings → rt (bool * bindings)) (l1 : list A) (l2 : list B) (m : bindings)
    : rt (bool * bindings) :=
  match l1, l2 with
  | x :: l1, y :: l2 => r ← f x y m; if r.1 : bool then zip_match f l1 l2 r.2 else Done (false, r.2)
  | _, _ => Done (true, m)
  end.

Section matcher.
Context (h : struct_heap).

(** [_runtime_match_type_name], with fuel for the nesting of the expected text. *)
Fixpoint _runtime_match_type_name (fuel : nat) (type_parameters : list ustring) (actual expected : ustring) (m : bindings)
    : rt (bool * bindings) :=
  match fuel with
  | O => NoFuel
  | S fuel =>
      if bool_decide (expected = u "_") then Done (true, m)
      else
        let '(expected_base, expected_arguments) := _generic_type expected in
        if bool_decide (expected_arguments = []) && bool_decide (expected_base ∈ type_parameters) then
          match m !! expected_base with
          | None => Done (true, <[expected_base := actual]> m)
          | Some previous => Done (bool_decide (previous = actual), m)
          end
        else
          let '(actual_base, actual_arguments) := _generic_type actual in
          if bool_decide (expected_arguments ≠ []) then
            if negb (bool_decide (actual_base = expected_base)) then Done (false, m)
            else if negb (bool_decide (actual_arguments = []))
                    && (length actual_arguments =? length expected_arguments)%nat then
              zip_match (λ actual_item expected_item m,
                if bool_decide (actual_item = u "_") then Done (true, m)
                else _runtime_match_type_name fuel type_parameters actual_item expected_item m)
                actual_arguments expected_arguments m
            else Done (true, m)
          else Done (bool_decide (actual = expected) || bool_decide (actual_base = expected_base), m)
  end.

(** The arguments an instance carries against those a type expects. *)
Definition match_instance_arguments (type_parameters : list ustring) (actual expected : list ustring) (m : bindings)
    : rt (bool * bindings) :=
  if negb (bool_decide (expected = [])) && negb (bool_decide (actual = []))
     && (length actual =? length expected)%nat then
    zip_match (λ actual_item expected_item m,
      if bool_decide (actual_item = u "_") then Done (true, m)
      else _runtime_match_type_name (S (length expected_item)) type_parameters actual_item expected_item m)
      actual expected m
  else Done (true, m).

(** The tests at the end of [_runtime_match_pattern]. *)
Definition match_class (base : ustring) (v : rvalue) : bool :=
  match v with
  | RCapability c => bool_decide (base = capability_type c)
  | RResponse _ _ => bool_decide (base = u "Response")
  | RError _ => bool_decide (base = u "Error")
  | RUnit => bool_decide (base = u "Void")
  | RString _ => bool_decide (base = u "String")
  | RBool _ => bool_decide (base = u "Bool")
  | RInt _ => bool_decide (base = u "Int")
  | RFloat _ => bool_decide (base = u "Float")
  | RList _ => bool_decide (base = u "List")
  | RMap _ => bool_decide (base = u "Map")
  | _ => false
  end.

Definition unbindable (base : ustring) : runtime_error :=
  KoscheiRuntimeError 3401 (w "Capability taşıyan değer generic '" ++ base ++ w "' parametresine bağlanamaz.")
    (mk_location 1 1).

(** [_runtime_match_pattern]. *)
Fixpoint _runtime_match_pattern (fuel : nat) (type_parameters : list ustring) (v : rvalue) (expected : ustring)
    (m : bindings) : rt (bool * bindings) :=
  match fuel with
  | O => NoFuel
  | S fuel =>
      let rec := _runtime_match_pattern fuel type_parameters in
      if bool_decide (expected = u "_") then Done (true, m)
      else
        let '(base, arguments) := _generic_type expected in
        if bool_decide (arguments = []) && bool_decide (base ∈ type_parameters) then
          if _contains_capability h v then Raise (unbindable base)
          else
            actual ← _runtime_type_name h v;
            match m !! base with
            | None => Done (true, <[base := actual]> m)
            | Some previous =>
                r ← _runtime_match_type_name (S (length previous)) [] actual previous ∅;
                Done (r.1, m)
            end
        else if bool_decide (base = u "List") && (length arguments =? 1)%nat then
          match v, arguments with
          | RList items, [a] => zip_match (λ item _ m, rec item a m) items items m
          | _, _ => Done (false, m)
          end
        else if bool_decide (base = u "Map") && (length arguments =? 2)%nat then
          match v, arguments with
          | RMap entries, [a; b] =>
              zip_match (λ (kv : ustring * rvalue) _ m,
                r ← rec (RString kv.1) a m;
                if r.1 : bool then rec kv.2 b r.2 else Done (false, r.2)) entries entries m
          | _, _ => Done (false, m)
          end
        else if bool_decide (base = u "Option") && (length arguments =? 1)%nat then
          match v, arguments with
          | REnum e variant payload _, [a] =>
              if negb (bool_decide (e = u "Option")) then Done (false, m)
              else if bool_decide (variant = u "None") then Done (true, m)
              else
                match payload with
                | Some p => if bool_decide (variant = u "Some") then rec p a m else Done (false, m)
                | None => Done (false, m)
                end
          | _, _ => Done (false, m)
          end
        else if bool_decide (base = u "Result") && (length arguments =? 2)%nat then
          match v, arguments with
          | REnum e variant (Some p) _, [a; b] =>
              if negb (bool_decide (e = u "Result")) then Done (false, m)
              else if bool_decide (variant = u "Ok") then rec p a m
              else if bool_decide (variant = u "Err") then rec p b m
              else Done (false, m)
          | _, _ => Done (false, m)
          end
        else
          match v with
          | RStruct loc =>
              match h !! loc with
              | None => Raise (OutsideModel (u "location"))
              | Some o =>
                  if bool_decide (struct_type_name o = base) then
                    match_instance_arguments type_parameters (struct_type_arguments o) arguments m
                  else Done (false, m)
              end
          | REnum e _ _ type_arguments =>
              if bool_decide (e = base) then match_instance_arguments type_parameters type_arguments arguments m
              else Done (false, m)
          | _ => Done (match_class base v, m)
          end
  end.

(** [Interpreter._runtime_matches_type]: the bindings of the first name that
matches are kept. *)
Fixpoint match_with_bindings (type_parameters : list ustring) (v : rvalue) (expected_names : list ustring) (m : bindings)
    : rt (bool * bindings) :=
  match expected_names with
  | [] => Done (false, m)
  | name :: expected_names =>
      r ← _runtime_match_pattern (S (length name)) type_parameters v name m;
      if r.1 : bool then Done (true, r.2) else match_with_bindings type_parameters v expected_names m
  end.
End matcher.

(** [_unwrap_fallible]. *)
Definition _unwrap_fallible (v : rvalue) : rt (bool * rvalue) :=
  match v with
  | RError _ => Done (false, v)
  | REnum e variant payload _ =>
      let payload_of := match payload with
                        | Some p => Done (true, p)
                        | None => Raise (OutsideModel (u "_NO_PAYLOAD"))
                        end in
      if bool_decide (e = u "Option") && bool_decide (variant = u "Some") then payload_of
      else if bool_decide (e = u "Option") && bool_decide (variant = u "None") then Done (false, v)
      else if bool_decide (e = u "Result") && bool_decide (variant = u "Ok") then payload_of
      else if bool_decide (e = u "Result") && bool_decide (variant = u "Err") then Done (false, v)
      else Done (true, v)
  | _ => Done (true, v)
  end.
