(* ===== verification/RuntimeHost.v ===== *)
(** What the tree interpreter runs on: its state monad, the scopes of
[_Environment], the checks its operations share, the host and the methods of the
capabilities ([src/koschei/interpreter.py]; the failures as
[src/koschei/runtime_alignment.py] reports them).

The state is the frame (the scopes, the functions and imports of the module that
runs), the heap of structs and the trace of what the host was asked to do.
Python's exceptions are the failures of the monad: [return], [break] and
[continue] travel as signals beside the errors.  The host (files, network,
environment, the text of Python's own [TypeError]s) answers from the trace so
far; it hands back data only.  The capabilities [persist] and [serve] of other
modules are outside the model. *)

From Stdlib Require Import Floats.SpecFloat.
From S2P Require Import Prelude TypeSystem Lexer Ast Capability TypeContracts Mir Value RuntimeValues.

(** * The host *)

(** What a disk operation asks of the opened parent directory. *)
Inductive disk_request :=
  | DiskRead
  | DiskList
  | DiskWrite (text : ustring)
  | DiskDelete.

Inductive event :=
  | Printed (text : ustring)
  (** The directory of a disk capability is resolved and opened. *)
  | ScopeOpened (prefix : ustring)
  | DiskIO (request : disk_request) (prefix : ustring) (parts : list ustring)
  | NetGet (origin url : ustring)
  | EnvRead (name : ustring).

(** An answer, a component that is a symbolic link, an [OSError] with its text,
or an exception that the methods do not catch. *)
Inductive disk_result (A : Type) :=
  | DiskOk (a : A)
  | DiskSymlink (name : ustring)
  | DiskFailed (text : ustring)
  | DiskRaised (class_name : ustring).
Arguments DiskOk {A} a.
Arguments DiskSymlink {A} name.
Arguments DiskFailed {A} text.
Arguments DiskRaised {A} class_name.

Inductive net_result :=
  | NetResponse (body : ustring) (status : Z)
  | NetOverBudget (text : ustring)
  | NetRedirectDenied (target : ustring)
  | NetFailed (text : ustring).

(** [urlsplit(url)]; the port is [None] outside if reading it raises. *)
Record url_parts := mk_url {
  url_scheme : ustring;
  url_hostname : option ustring;
  url_port : option (option Z);
}.

Record host := mk_host {
  float_repr : spec_float → ustring;
  py_lower : ustring → ustring;
  urlsplit : ustring → option url_parts;
  type_error_text : ustring → ustring;
  dir_fd_supported : bool;
  working_directory : list event → ustring;
  realpath : list event → ustring → ustring;
  disk_read : list event → ustring → list ustring → disk_result ustring;
  disk_list : list event → ustring → list ustring → disk_result (list ustring);
  disk_write : list event → ustring → list ustring → ustring → disk_result ();
  disk_delete : list event → ustring → list ustring → disk_result ();
  net_get : list event → ustring → ustring → net_result;
  environ : list event → ustring → option ustring;
}.

(** * State and signals *)

Record cell := mk_cell { cell_value : rvalue; cell_mutable : bool }.

Abbreviation function_table := (gmap ustring FunctionDeclaration).
Abbreviation import_table := (gmap ustring ustring).

(** [environment] is the list of the scopes, the innermost first. *)
Record interp := mk_interp {
  environment : list (gmap ustring cell);
  functions : function_table;
  imports : import_table;
  depth : Z;
  heap : struct_heap;
  trace : list event;
}.

Definition set_environment (env : list (gmap ustring cell)) (s : interp) : interp :=
  mk_interp env (functions s) (imports s) (depth s) (heap s) (trace s).
Definition set_frame (env : list (gmap ustring cell)) (fs : function_table) (ims : import_table) (d : Z) (s : interp)
    : interp :=
  mk_interp env fs ims d (heap s) (trace s).
Definition set_heap (h : struct_heap) (s : interp) : interp :=
  mk_interp (environment s) (functions s) (imports s) (depth s) h (trace s).
Definition set_trace (t : list event) (s : interp) : interp :=
  mk_interp (environment s) (functions s) (imports s) (depth s) (heap s) t.

Inductive signal :=
  | ReturnSignal (v : rvalue)
  | BreakSignal
  | ContinueSignal
  | Failure (e : runtime_error).

Definition act (A : Type) : Type := interp → outcome signal A * interp.

#[export] Instance act_ret : MRet act := λ A a s, (Done a, s).
#[export] Instance act_bind : MBind act := λ A B f c s,
  match c s with
  | (Done a, s) => f a s
  | (Raise e, s) => (Raise e, s)
  | (NoFuel, s) => (NoFuel, s)
  end.

Definition signalled {A} (g : signal) : act A := λ s, (Raise g, s).
Definition failed {A} (e : runtime_error) : act A := signalled (Failure e).
Definition error {A} (code : Z) (message : ustring) (l : SourceLocation) : act A :=
  failed (KoscheiRuntimeError code message l).
Definition outside {A} (what : ustring) : act A := failed (OutsideModel what).

(** A pure answer that may depend on the state. *)
Definition ask {A} (f : interp → A) : act A := λ s, (Done (f s), s).
Definition check {A} (f : interp → rt A) : act A := λ s,
  (match f s with Done a => Done a | Raise e => Raise (Failure e) | NoFuel => NoFuel end, s).
Definition update (f : interp → interp) : act () := λ s, (Done (), f s).

(** [try: body finally: f]. *)
Definition ensure {A} (body : act A) (f : interp → interp) : act A := λ s,
  let '(r, s) := body s in (r, f s).

(** [try: body except: handler]. *)
Definition catch {A} (body : act A) (handler : signal → act A) : act A := λ s,
  match body s with
  | (Raise g, s) => handler g s
  | r => r
  end.

Fixpoint act_map {A B} (f : A → act B) (l : list A) : act (list B) :=
  match l with
  | [] => mret []
  | x :: l => y ← f x; ys ← act_map f l; mret (y :: ys)
  end.

(** Ask the host: the request enters the trace, the answer sees the trace before. *)
Definition request {A} (e : event) (answer : list event → A) : act A := λ s,
  (Done (answer (trace s)), set_trace (trace s ++ [e]) s).

(** * Scopes *)

Definition push_scope (s : interp) : interp := set_environment (∅ :: environment s) s.
Definition pop_scope (s : interp) : interp := set_environment (tail (environment s)) s.

(** [_Environment.define]. *)
Definition define (name : ustring) (v : rvalue) (is_mutable : bool) : act () :=
  update (λ s,
    match environment s with
    | scope :: rest => set_environment (<[name := mk_cell v is_mutable]> scope :: rest) s
    | [] => s
    end).

Fixpoint find_cell (scopes : list (gmap ustring cell)) (name : ustring) : option cell :=
  match scopes with
  | [] => None
  | scope :: scopes => match scope !! name with Some c => Some c | None => find_cell scopes name end
  end.

(** The scopes with the cell of [name] replaced where it is found. *)
Fixpoint replace_cell (scopes : list (gmap ustring cell)) (name : ustring) (c : cell) : list (gmap ustring cell) :=
  match scopes with
  | [] => []
  | scope :: scopes =>
      match scope !! name with
      | Some _ => <[name := c]> scope :: scopes
      | None => scope :: replace_cell scopes name c
      end
  end.

Definition undefined_name (name : ustring) : ustring := w "Tanımsız isim: '" ++ name ++ u "'.".

(** [_Environment.resolve]. *)
Definition resolve (name : ustring) (l : SourceLocation) : act cell :=
  c ← ask (λ s, find_cell (environment s) name);
  match c with Some c => mret c | None => error 3101 (undefined_name name) l end.

(** [_Environment.assign]. *)
Definition assign (name : ustring) (v : rvalue) (l : SourceLocation) : act rvalue :=
  c ← resolve name l;
  if negb (cell_mutable c) then
    error 3201 (u "'" ++ name ++ w "' immutable bir değerdir; runtime ataması reddedildi.") l
  else
    _ ← update (λ s, set_environment (replace_cell (environment s) name (mk_cell v true)) s);
    mret v.

(** * Common checks *)

(** The heap as a parameter of a pure check. *)
Definition with_heap {A} (f : struct_heap → rt A) : act A := check (λ s, f (heap s)).

Definition contains_capability (v : rvalue) : act bool := ask (λ s, _contains_capability (heap s) v).

Definition type_name_of (v : rvalue) : act ustring := with_heap (λ h, _runtime_type_name h v).

Definition refuse_capability (v : rvalue) (message : ustring) (l : SourceLocation) : act () :=
  b ← contains_capability v;
  if b : bool then error 3401 message l else mret ().

Definition _require_arity (name : ustring) (arguments : list rvalue) (expected : nat) (l : SourceLocation) : act () :=
  if (length arguments =? expected)%nat then mret ()
  else error 3101 (u "'" ++ name ++ w "' için " ++ str_int (Z.of_nat expected) ++ w " argüman bekleniyor, " ++
                   str_int (Z.of_nat (length arguments)) ++ u " verildi.") l.

Definition capability_names : gset ustring := list_to_set CAPABILITY_TYPES.

(** [_raise_runtime_contract_error]. *)
Definition _raise_runtime_contract_error {A} (subject : ustring) (expected_names : list ustring) (v : rvalue)
    (l : SourceLocation) : act A :=
  expected ← check (λ _, _expected_type expected_names);
  actual ← with_heap (λ h, _runtime_type_node h v);
  inside ← contains_capability v;
  let found := subject ++ u " " ++ render_type expected ++ w " beklerken " ++ render_type actual in
  if contains_named capability_names expected || contains_named capability_names actual || inside then
    error 3401 (found ++ w " aldı; runtime capability type-integrity savunması yetki gizleme/yanlış türleme girişimini reddetti.") l
  else
    error 3106 (found ++ w " aldı. Bu normal bir runtime tip sözleşmesi uyuşmazlığıdır; capability ihlali değildir.") l.

Definition require_type (subject : ustring) (expected_names : list ustring) (v : rvalue) (l : SourceLocation) : act () :=
  ok ← with_heap (λ h, matches_names h expected_names v);
  if ok : bool then mret () else _raise_runtime_contract_error subject expected_names v l.

(** [needle in text]. *)
Fixpoint is_substring (needle text : ustring) : bool :=
  starts_with needle text || match text with [] => false | _ :: text => is_substring needle text end.

Definition security_markers : list ustring :=
  [w "Capability taşıyan"; u "type-laundering"; u "SystemCaps"] ++ CAPABILITY_TYPES.

(** [_reclassify_runtime_error]. *)
Definition _reclassify_runtime_error (e : runtime_error) : runtime_error :=
  match e with
  | KoscheiRuntimeError code message l =>
      if (code =? 3401) && negb (existsb (λ marker, is_substring marker message) security_markers) then
        KoscheiRuntimeError 3106
          (message ++ w " Bu normal bir runtime tip sözleşmesi uyuşmazlığıdır; capability ihlali değildir.") l
      else e
  | _ => e
  end.

Definition reclassified {A} (body : act A) : act A :=
  catch body (λ g, signalled (match g with Failure e => Failure (_reclassify_runtime_error e) | _ => g end)).

(** [dict[key] = value]: in place, or at the end. *)
Fixpoint dict_put {A} (entries : list (ustring * A)) (k : ustring) (v : A) : list (ustring * A) :=
  match entries with
  | [] => [(k, v)]
  | (k', v') :: entries => if decide (k' = k) then (k, v) :: entries else (k', v') :: dict_put entries k v
  end.

(** The failure of an operation of the compiler that the runtime calls. *)
Definition contract_failure (e : contract_error) : runtime_error :=
  match e with
  | SemanticError _ l => OutsideModel (u "SemanticError")
  | TypeTextError _ => PythonError (u "ValueError")
  | RecursionError => PythonError (u "RecursionError")
  | AssertionError => PythonError (u "AssertionError")
  end.

Definition of_contract {A} (r : contract_result A) : act A := λ s,
  (match r with Done a => Done a | Raise e => Raise (Failure (contract_failure e)) | NoFuel => NoFuel end, s).

(** * Paths and origins *)

Definition SLASH : Z := 47.

(** [text.split("/")]. *)
Fixpoint split_slash (text current : ustring) : list ustring :=
  match text with
  | [] => [rev current]
  | c :: text => if c =? SLASH then rev current :: split_slash text [] else split_slash text (c :: current)
  end.

(** The loop of [posixpath.normpath] of an absolute path; [kept] is reversed. *)
Fixpoint normal_components (components kept : list ustring) : list ustring :=
  match components with
  | [] => rev kept
  | component :: components =>
      if bool_decide (component = []) || bool_decide (component = u ".") then normal_components components kept
      else if bool_decide (component = u "..") then normal_components components (tail kept)
      else normal_components components (component :: kept)
  end.

(** The components of [os.path.abspath(path)], the working directory absolute. *)
Definition abspath_components (cwd path : ustring) : list ustring :=
  let full := if starts_with [SLASH] path then path else cwd ++ [SLASH] ++ path in
  normal_components (split_slash full []) [].

Fixpoint common_prefix (l1 l2 : list ustring) : nat :=
  match l1, l2 with
  | x :: l1, y :: l2 => if decide (x = y) then S (common_prefix l1 l2) else 0%nat
  | _, _ => 0%nat
  end.

(** The components of [os.path.relpath(target, start)]. *)
Definition relpath_components (target start : list ustring) : list ustring :=
  let i := common_prefix start target in
  replicate (length start - i) (u "..") ++ drop i target.

(** [_DiskCapability._relative_parts]; no parts name the scope itself. *)
Definition _relative_parts (cwd prefix path : ustring) : option (list ustring) :=
  let parts := relpath_components (abspath_components cwd path) (abspath_components cwd prefix) in
  if bool_decide (u ".." ∈ parts) then None
  else Some (filter (λ part, part ≠ [] ∧ part ≠ u ".") parts).

Definition ALLOWED_NET_SCHEMES : list ustring := [u "http"; u "https"].

Section operations.
Context (env : host).

(** [_origin_key]. *)
Definition _origin_key (url : ustring) : option (ustring * ustring * Z) :=
  match urlsplit env url with
  | None => None
  | Some parsed =>
      match url_hostname parsed with
      | None => None
      | Some hostname =>
          if bool_decide (url_scheme parsed = []) || bool_decide (hostname = []) then None
          else
            let scheme := py_lower env (url_scheme parsed) in
            if negb (bool_decide (scheme ∈ ALLOWED_NET_SCHEMES)) then None
            else
              match url_port parsed with
              | None => None
              | Some port =>
                  Some (scheme, py_lower env hostname,
                        default (if bool_decide (scheme = u "https") then 443 else 80) port)
              end
      end
  end.

(** [NetCaps._allows]. *)
Definition _allows (origin url : ustring) : bool :=
  match _origin_key origin with
  | None => false
  | Some k => bool_decide (_origin_key url = Some k)
  end.

(** * The methods of capabilities *)

Definition _unsupported : ustring :=
  w "KS3406: Disk yetkisi bu platformda desteklenmiyor: openat (dir_fd) ve O_NOFOLLOW gerekli. Yarışa açık bir uygulamaya geri düşülmez.".

Definition _reject (path : ustring) : ustring := w "KS3402: Disk kapsamı dışında erişim reddedildi: " ++ path.

Definition _symlink_denied (name : ustring) : ustring :=
  w "KS3402: Disk kapsamı sembolik bağ üzerinden aşılamaz; KS3405: Kapsam içinde sembolik bağ takip edilmez: " ++ name.

(** A request inside the scope and the value of its answer. *)
Definition disk_io {A} (r : disk_request) (prefix : ustring) (parts : list ustring)
    (answer : list event → ustring → list ustring → disk_result A) (on_done : A → rvalue) (failure : ustring) : act rvalue :=
  result ← request (DiskIO r prefix parts) (λ t, answer t prefix parts);
  match result with
  | DiskOk a => mret (on_done a)
  | DiskSymlink name => mret (RError (_symlink_denied name))
  | DiskFailed text => mret (RError (failure ++ text))
  | DiskRaised class_name => failed (PythonError class_name)
  end.

(** The scope of a path, then what is inside it. *)
Definition in_scope (prefix path : ustring) (inside : list ustring → act rvalue) : act rvalue :=
  if negb (dir_fd_supported env) then mret (RError _unsupported)
  else
    parts ← ask (λ s, _relative_parts (working_directory env (trace s)) prefix path);
    match parts with None => mret (RError (_reject path)) | Some parts => inside parts end.

Definition read_file (prefix path : ustring) : act rvalue :=
  in_scope prefix path (λ parts,
    if bool_decide (parts = []) then mret (RError (w "Dosya okunamadı: kapsam kökü bir dizindir: " ++ path))
    else disk_io DiskRead prefix parts (disk_read env) RString (w "Dosya okunamadı: ")).

Definition list_directory (prefix path : ustring) : act rvalue :=
  in_scope prefix path (λ parts,
    disk_io DiskList prefix parts (disk_list env) (λ names, RList (RString <$> sorted_text names))
      (w "Dizin listelenemedi: ")).

Definition write_file (prefix path text : ustring) : act rvalue :=
  in_scope prefix path (λ parts,
    if bool_decide (parts = []) then mret (RError (w "Dosya yazılamadı: kapsam kökü bir dizindir: " ++ path))
    else disk_io (DiskWrite text) prefix parts (λ t p parts, disk_write env t p parts text) (λ _, RUnit)
           (w "Dosya yazılamadı: ")).

Definition delete_file (prefix path : ustring) : act rvalue :=
  in_scope prefix path (λ parts,
    if bool_decide (parts = []) then mret (RError (w "Dosya silinemedi: kapsam kökü silinemez: " ++ path))
    else disk_io DiskDelete prefix parts (disk_delete env) (λ _, RUnit) (w "Dosya silinemedi: ")).

(** [DiskReadCaps._scope_then_deny]. *)
Definition _scope_then_deny (prefix path operation : ustring) : act rvalue :=
  parts ← ask (λ s, _relative_parts (working_directory env (trace s)) prefix path);
  match parts with
  | None => mret (RError (_reject path))
  | Some _ => mret (RError (u "KS3404: DiskReadCaps '" ++ operation ++ w "' işlemine izin vermez."))
  end.

(** [NetCaps.get]. *)
Definition net_get_url (origin url : ustring) : act rvalue :=
  if negb (_allows origin url) then
    mret (RError (w "KS3402: Ağ origin kapsamı dışında erişim reddedildi: " ++ url))
  else
    result ← request (NetGet origin url) (λ t, net_get env t origin url);
    mret (match result with
          | NetResponse body status => RResponse body status
          | NetOverBudget text => RError text
          | NetRedirectDenied target => RError (w "KS3402: Ağ yönlendirmesi kapsam dışına çıktı: " ++ target)
          | NetFailed text => RError (w "API isteği başarısız: " ++ text)
          end).

(** [EnvCaps.get]. *)
Definition environment_get (name : ustring) : act rvalue :=
  result ← request (EnvRead name) (λ t, environ env t name);
  mret (match result with
        | Some text => RString text
        | None => RError (w "Ortam değişkeni bulunamadı: " ++ name)
        end).

(** [str(value)], for a write and for [String.contains]. *)
Definition python_str (v : rvalue) : rt ustring :=
  match v with
  | RString s => Done s
  | RInt z => int_str z
  | RBool b => Done (if b : bool then u "True" else u "False")
  | RFloat f => Done (float_repr env f)
  | RUnit => Done (u "unit")
  | RError message => Done message
  | _ => Raise (OutsideModel (u "repr"))
  end.

(** A call of a host method with the wrong number of arguments. *)
Definition invalid_call (name : ustring) (l : SourceLocation) : act rvalue :=
  error 3101 (u "'" ++ name ++ w "' çağrısı geçersiz: " ++ type_error_text env name) l.

Definition one_text (name : ustring) (arguments : list rvalue) (l : SourceLocation) (k : ustring → act rvalue) : act rvalue :=
  match arguments with
  | [RString text] => k text
  | [_] => outside (u "argument")
  | _ => invalid_call name l
  end.

Definition path_and_value (name : ustring) (arguments : list rvalue) (l : SourceLocation)
    (k : ustring → rvalue → act rvalue) : act rvalue :=
  match arguments with
  | [RString path; v] => k path v
  | [_; _] => outside (u "argument")
  | _ => invalid_call name l
  end.

(** [_DiskCapability(prefix)]: the scope is resolved and opened once. *)
Definition open_scope (prefix : ustring) (scope : ustring → capability) : act rvalue :=
  resolved ← ask (λ s, realpath env (trace s) prefix);
  _ ← request (ScopeOpened resolved) (λ _, tt);
  mret (RCapability (scope resolved)).

(** [method(...)] of a capability or a response, by [getattr(receiver, name)];
[_member] has checked that the class has the method. *)
Definition capability_method (c : capability) (name : ustring) (arguments : list rvalue) (l : SourceLocation) : act rvalue :=
  let named m := bool_decide (name = u m) in
  match c with
  | SystemCaps => outside name
  | NetRoot => one_text name arguments l (λ origin, mret (RCapability (NetCaps origin)))
  | DiskRoot =>
      one_text name arguments l (λ prefix,
        if named "allow" then open_scope prefix DiskCaps else open_scope prefix DiskReadCaps)
  | EnvRoot => one_text name arguments l (λ n, mret (RCapability (EnvCaps n)))
  | ProcessRoot => one_text name arguments l (λ command, mret (RCapability (ProcessCaps command)))
  | NetCaps origin =>
      if named "get" then one_text name arguments l (net_get_url origin)
      else mret (RError (name ++ w " henüz desteklenmiyor"))
  | DiskReadCaps prefix =>
      if named "read" || named "read_file" then one_text name arguments l (read_file prefix)
      else if named "list" then one_text name arguments l (list_directory prefix)
      else if named "delete" then one_text name arguments l (λ path, _scope_then_deny prefix path name)
      else path_and_value name arguments l (λ path _, _scope_then_deny prefix path name)
  | DiskCaps prefix =>
      if named "read" || named "read_file" then one_text name arguments l (read_file prefix)
      else if named "list" then one_text name arguments l (list_directory prefix)
      else if named "delete" then one_text name arguments l (delete_file prefix)
      else path_and_value name arguments l (λ path v, text ← check (λ _, python_str v); write_file prefix path text)
  | EnvCaps n =>
      match arguments with [] => environment_get n | _ => invalid_call name l end
  | ProcessCaps _ => mret (RError (w "process yetkisi bu sürümde kapalı"))
  end.

Definition response_method (body : ustring) (status : Z) (name : ustring) (arguments : list rvalue) (l : SourceLocation)
    : act rvalue :=
  match arguments with
  | [] => mret (if bool_decide (name = u "text") then RString body else RInt status)
  | _ => invalid_call name l
  end.
End operations.
