(* ===== verification/Collections.v ===== *)
(** The methods of texts, lists and maps: [_invoke_member] of
[src/koschei/interpreter.py] with the methods that the modules
[src/koschei/ergonomics_*.py] install before it.

A callback is a parameter of the methods that take one; the interpreter passes
its own [_call_function].  [limit] bounds how deep a comparison follows structs
that may hold one another. *)

From Stdlib Require Import Floats.SpecFloat.
From S2P Require Import Prelude TypeSystem Lexer Ast Capability TypeContracts Mir Value RuntimeValues RuntimeHost.

(** * Numbers in text *)

(** The digits of a run of ASCII digits with single underscores between them. *)
Fixpoint digit_run (s digits : ustring) : option ustring :=
  match s with
  | [] => None
  | c :: s =>
      if is_ascii_digit c then
        match s with
        | [] => Some (digits ++ [c])
        | d :: s' =>
            if d =? ch "_" then digit_run s' (digits ++ [c])
            else digit_run s (digits ++ [c])
        end
      else None
  end.

Definition split_sign (s : ustring) : bool * ustring :=
  match s with
  | c :: s' => if c =? ch "-" then (true, s') else if c =? ch "+" then (false, s') else (false, s)
  | [] => (false, [])
  end.

Definition ascii_text (s : ustring) : bool := forallb (λ c, c <? 128) s.

(** [int(text)] of ASCII text. *)
Definition python_int (text : ustring) : option Z :=
  let '(negative, body) := split_sign (strip text) in
  match digit_run body [] with
  | None => None
  | Some digits =>
      if INT_MAX_STR_DIGITS <? Z.of_nat (length digits) then None
      else Some (if negative : bool then - dec_value digits else dec_value digits)
  end.

(** The float nearest to [m * 10 ^ e]. *)
Definition decimal_float (negative : bool) (m e : Z) : spec_float :=
  match m with
  | Zpos p =>
      let magnitude :=
        if 0 <=? e then binary_normalize prec emax (Zpos p * 10 ^ e) 0 false
        else SFdiv prec emax (S754_finite false p 0) (S754_finite false (Z.to_pos (10 ^ (- e))) 0) in
      if negative then SFopp magnitude else magnitude
  | _ => S754_zero negative
  end.

(** A digit run, or nothing. *)
Definition optional_run (s : ustring) : option ustring := match s with [] => Some [] | _ => digit_run s [] end.

(** The exponent after the letter [e]. *)
Definition exponent_value (s : ustring) : option Z :=
  let '(negative, body) := split_sign s in
  digits ← digit_run body [];
  Some (if negative : bool then - dec_value digits else dec_value digits).

(** [float(text)] of ASCII text. *)
Definition python_float (text : ustring) : option spec_float :=
  let '(negative, body) := split_sign (strip text) in
  let lowered := ascii_lower body in
  if bool_decide (lowered = u "inf") || bool_decide (lowered = u "infinity") then Some (S754_infinity negative)
  else if bool_decide (lowered = u "nan") then Some S754_nan
  else
    let '(mantissa, rest) := span (λ c, negb (c =? ch "e")) lowered in
    e ← match rest with [] => Some 0 | _ :: e => exponent_value e end;
    let '(whole, fraction) := span (λ c, negb (c =? ch ".")) mantissa in
    let fraction := tail fraction in
    w ← optional_run whole;
    f ← optional_run fraction;
    if bool_decide (w = []) && bool_decide (f = []) then None
    else Some (decimal_float negative (dec_value (w ++ f)) (e - Z.of_nat (length f))).

(** * Texts *)

(** [text.split(separator)], the separator not empty. *)
Fixpoint split_text (separator text current : ustring) (skip : nat) : list ustring :=
  match text with
  | [] => [rev current]
  | c :: rest =>
      match skip with
      | S skip => split_text separator rest current skip
      | O =>
          if starts_with separator text then rev current :: split_text separator rest [] (length separator - 1)
          else split_text separator rest (c :: current) 0
      end
  end.

(** * Sorting *)

Section sorting.
Context {A : Type} (le : A → A → bool).

(** Insertion keeps the order of equal items, as [sorted] does. *)
Fixpoint insert_sorted (x : A) (l : list A) : list A :=
  match l with
  | [] => [x]
  | y :: l => if le x y then x :: y :: l else y :: insert_sorted x l
  end.

Definition stable_sort (l : list A) : list A := foldr insert_sorted [] l.
End sorting.

Definition is_int (v : rvalue) : bool := match v with RInt _ => true | _ => false end.
Definition is_float (v : rvalue) : bool := match v with RFloat _ => true | _ => false end.
Definition is_text (v : rvalue) : bool := match v with RString _ => true | _ => false end.

(** [not (y < x)] of two numbers or two texts. *)
Definition scalar_le (x y : rvalue) : bool :=
  match rvalue_number x, rvalue_number y with
  | Some a, Some b => match number_compare b a with Some Lt => false | _ => true end
  | _, _ => match x, y with RString s, RString t => ustr_leb s t | _, _ => true end
  end.

(** [x < y] of two numbers or two texts. *)
Definition scalar_lt (x y : rvalue) : bool :=
  match rvalue_number x, rvalue_number y with
  | Some a, Some b => match number_compare a b with Some Lt => true | _ => false end
  | _, _ => match x, y with RString s, RString t => negb (ustr_leb t s) | _, _ => false end
  end.

(** [_rank_kind]: what [keys_sorted_by_value] can order. *)
Definition _rank_kind (values : list rvalue) : bool :=
  forallb is_int values || forallb is_float values || forallb is_text values.

(** The comparison of [keys_sorted_by_value]: the value, then the key. *)
Definition ranked_le (descending : bool) (x y : ustring * rvalue) : bool :=
  if scalar_lt x.2 y.2 then negb descending
  else if scalar_lt y.2 x.2 then descending
  else ustr_leb x.1 y.1.

Definition sort_by_value (descending : bool) (entries : list (ustring * rvalue)) : list ustring :=
  (stable_sort (ranked_le descending) entries).*1.

(** * Reductions *)

Definition _result_ok (v : rvalue) : rvalue := REnum (u "Result") (u "Ok") (Some v) [].
Definition _result_error (message : ustring) : rvalue := REnum (u "Result") (u "Err") (Some (RError message)) [].
Definition some_value (v : rvalue) : rvalue := REnum (u "Option") (u "Some") (Some v) [].
Definition none_value : rvalue := REnum (u "Option") (u "None") None [].

(** The running sum; [None] when it leaves the 64-bit integers. *)
Fixpoint sum_ints (total : Z) (l : list Z) : option Z :=
  match l with
  | [] => Some total
  | z :: l => let total := total + z in if in_int64 total then sum_ints total l else None
  end.

Fixpoint sum_floats (total : spec_float) (l : list spec_float) : option spec_float :=
  match l with
  | [] => Some total
  | f :: l =>
      let total := SFadd prec emax total f in
      match total with S754_infinity _ | S754_nan => None | _ => sum_floats total l end
  end.

(** The first of the least items; [lt] decides. *)
Definition first_best {A} (lt : A → A → bool) (x : A) (l : list A) : A :=
  foldl (λ best y, if lt y best then y else best) x l.

Definition float_lt (f g : spec_float) : bool := match SFcompare f g with Some Lt => true | _ => false end.

Definition is_finite_float (f : spec_float) : bool := match f with S754_infinity _ | S754_nan => false | _ => true end.

Definition ints_of (l : list rvalue) : list Z := omap (λ v, match v with RInt z => Some z | _ => None end) l.
Definition floats_of (l : list rvalue) : list spec_float := omap (λ v, match v with RFloat f => Some f | _ => None end) l.

Definition _reduce_int (l : list Z) (operation : ustring) : rvalue :=
  match l with
  | [] => none_value
  | x :: rest =>
      if bool_decide (operation = u "sum") then
        match sum_ints 0 l with
        | Some total => _result_ok (RInt total)
        | None => _result_error (w "KS3501: List.sum() işaretli 64-bit Int aralığını aştı")
        end
      else if bool_decide (operation = u "min") then _result_ok (RInt (first_best Z.ltb x rest))
      else _result_ok (RInt (first_best (λ a b, b <? a) x rest))
  end.

Definition _reduce_float (l : list spec_float) (operation : ustring) : rvalue :=
  match l with
  | [] => none_value
  | x :: rest =>
      if negb (forallb is_finite_float l) then _result_error (u "List." ++ operation ++ w "() NaN veya Infinity kabul etmez")
      else if bool_decide (operation = u "sum") then
        match sum_floats (S754_zero false) l with
        | Some total => _result_ok (RFloat total)
        | None => _result_error (w "List.sum() sonlu Float aralığının dışına çıktı")
        end
      else if bool_decide (operation = u "min") then _result_ok (RFloat (first_best float_lt x rest))
      else _result_ok (RFloat (first_best (λ a b, float_lt b a) x rest))
  end.

(** [[items[i : i + size] for i in range(0, len(items), size)]]; [room] counts
what is left of the current chunk, [current] is reversed. *)
Fixpoint chunk_items {A} (size room : nat) (current : list A) (l : list A) : list (list A) :=
  match l with
  | [] => match current with [] => [] | _ => [rev current] end
  | x :: l =>
      match room with
      | O => rev current :: chunk_items size (size - 1) [x] l
      | S room => chunk_items size room (x :: current) l
      end
  end.

(** * The methods *)

Definition LIST_METHODS : list ustring :=
  [u "length"; u "get"; u "push"; u "contains"; u "sort"; u "filter"; u "take"; u "find"; u "first_difference";
   u "sum"; u "min"; u "max"; u "unique"; u "flatten"; u "chunks"; u "map"; u "any"; u "partition"; u "scan"].
Definition MAP_METHODS : list ustring :=
  [u "get"; u "set"; u "keys"; u "contains"; u "keys_sorted_by_value"; u "merge"; u "add"].
Definition STRING_METHODS : list ustring :=
  [u "length"; u "to_int"; u "to_float"; u "contains"; u "trim"; u "split"; u "join"].

Definition _int_overflow (operation : ustring) : rvalue :=
  RError (w "KS3501: Int taşması: '" ++ operation ++ w "' işlemi işaretli 64-bit aralığın dışına çıktı.").

Section members.
Context (env : host) (limit : nat).

Abbreviation equal := (λ x y, with_heap (λ h, values_eq limit h x y)).

(** ** Texts *)

(** A conversion of a text: [int] and [float] read digits beyond ASCII too. *)
Definition convert_text {A} (text : ustring) (parse : ustring → option A) (to_value : A → rvalue) (failure : ustring)
    : act rvalue :=
  if negb (ascii_text text) then outside (u "digits")
  else mret (match parse text with Some a => to_value a | None => RError (failure ++ text) end).

(** The texts of a list, if it holds nothing else. *)
Fixpoint texts_of (l : list rvalue) : option (list ustring) :=
  match l with
  | [] => Some []
  | RString s :: l => rest ← texts_of l; Some (s :: rest)
  | _ :: _ => None
  end.

Definition string_method (s name : ustring) (arguments : list rvalue) (l : SourceLocation) : act rvalue :=
  let named m := bool_decide (name = u m) in
  let nullary (r : act rvalue) := _ ← _require_arity name arguments 0 l; r in
  let unary (f : rvalue → act rvalue) :=
    _ ← _require_arity name arguments 1 l;
    match arguments with [a] => f a | _ => outside name end in
  if named "length" then nullary (mret (RInt (Z.of_nat (length s))))
  else if named "to_int" then nullary (convert_text s python_int RInt (w "Int dönüşümü başarısız: "))
  else if named "to_float" then nullary (convert_text s python_float RFloat (w "Float dönüşümü başarısız: "))
  else if named "contains" then
    unary (λ a, text ← check (λ _, python_str env a); mret (RBool (is_substring text s)))
  else if named "trim" then nullary (mret (RString (strip s)))
  else if named "split" then
    unary (λ a, mret (
      match a with
      | RString [] => RError (w "String.split() ayıracı boş olamaz")
      | RString separator => RList (RString <$> split_text separator s [] 0)
      | _ => RError (w "String.split() ayıracı String olmalıdır")
      end))
  else if named "join" then
    unary (λ a, mret (
      match a with
      | RList items =>
          match texts_of items with
          | Some texts => RString (join s texts)
          | None => RError (w "String.join() yalnızca String öğeleri birleştirir")
          end
      | _ => RError (u "String.join() bir List bekler")
      end))
  else failed (PythonError (u "AttributeError")).

(** ** Lists without callbacks *)

Definition list_get (items : list rvalue) (index : rvalue) : rvalue :=
  match index with
  | RInt i =>
      if (i <? 0) || (Z.of_nat (length items) <=? i) then none_value
      else match items !! Z.to_nat i with Some x => some_value x | None => none_value end
  | _ => RError (w "Liste indeksi Int olmalıdır")
  end.

(** [List.sort]: [sorted] orders numbers, or texts; the order of a NaN is Python's
sorting algorithm, outside the model. *)
Definition list_sort (items : list rvalue) : act rvalue :=
  if bool_decide (length items = 0%nat) then mret (RList [])
  else if negb (forallb (λ v, is_int v || is_float v) items || forallb is_text items) then
    mret (RError (w "List.sort() yalnızca homojen String veya sayısal öğeleri sıralar"))
  else if existsb is_nan_value items then outside (u "NaN")
  else mret (RList (stable_sort scalar_le items)).

(** [List.first_difference], from position [i]. *)
Fixpoint difference_from (i : Z) (l1 l2 : list rvalue) : act rvalue :=
  match l1, l2 with
  | [], [] => mret none_value
  | x :: l1, y :: l2 =>
      same ← equal x y;
      if same : bool then difference_from (i + 1) l1 l2 else mret (some_value (RInt i))
  | _, _ => mret (some_value (RInt i))
  end.

(** [any(existing == candidate for existing in result)]. *)
Fixpoint any_equal (candidate : rvalue) (l : list rvalue) : act bool :=
  match l with
  | [] => mret false
  | existing :: l => same ← equal existing candidate; if same : bool then mret true else any_equal candidate l
  end.

(** [List.unique]. *)
Fixpoint unique_from (result l : list rvalue) : act rvalue :=
  match l with
  | [] => mret (RList result)
  | candidate :: l =>
      seen ← any_equal candidate result;
      unique_from (if seen : bool then result else result ++ [candidate]) l
  end.

(** [List.flatten]. *)
Fixpoint flatten_groups (result l : list rvalue) : rvalue :=
  match l with
  | [] => RList result
  | RList group :: l => flatten_groups (result ++ group) l
  | _ :: _ => RError (w "List.flatten() tüm öğelerin List olmasını bekler")
  end.

Definition list_reduce (items : list rvalue) (name : ustring) : rvalue :=
  if bool_decide (length items = 0%nat) then
    _result_error (u "List." ++ name ++ w "() boş List üzerinde tanımlı değildir")
  else if forallb is_int items then _reduce_int (ints_of items) name
  else if forallb is_float items then _reduce_float (floats_of items) name
  else _result_error (u "List." ++ name ++ w "() homojen Int veya Float öğeler bekler").

Definition list_chunks (items : list rvalue) (size : rvalue) : rvalue :=
  match size with
  | RInt n =>
      if n <=? 0 then _result_error (w "List.chunks() parça boyutu sıfırdan büyük olmalıdır")
      else
        let n := Z.to_nat (Z.min n (Z.of_nat (length items))) in
        _result_ok (RList (RList <$> chunk_items n n [] items))
  | _ => _result_error (w "List.chunks() parça boyutu Int olmalıdır")
  end.

(** ** Lists with callbacks *)

Section callbacks.
(** [_call_function]. *)
Context (call : FunctionDeclaration → list rvalue → act rvalue).

(** One verdict of a predicate: an error ends the method with that error. *)
Definition decide_item (method : ustring) (f : FunctionDeclaration) (x : rvalue) (k : bool → act rvalue) : act rvalue :=
  decision ← call f [x];
  match decision with
  | RError _ => mret decision
  | RBool b => k b
  | _ => mret (RError (u "List." ++ method ++ w "() predicate'i Bool döndürmelidir"))
  end.

Fixpoint filter_items (f : FunctionDeclaration) (out l : list rvalue) : act rvalue :=
  match l with
  | [] => mret (RList out)
  | x :: l => decide_item (u "filter") f x (λ keep, filter_items f (if keep then out ++ [x] else out) l)
  end.

Fixpoint find_item (f : FunctionDeclaration) (l : list rvalue) : act rvalue :=
  match l with
  | [] => mret none_value
  | x :: l => decide_item (u "find") f x (λ found, if found then mret (some_value x) else find_item f l)
  end.

Fixpoint any_matches (f : FunctionDeclaration) (l : list rvalue) : act rvalue :=
  match l with
  | [] => mret (RBool false)
  | x :: l => decide_item (u "any") f x (λ found, if found then mret (RBool true) else any_matches f l)
  end.

Fixpoint partition_items (f : FunctionDeclaration) (matching rejected l : list rvalue) : act rvalue :=
  match l with
  | [] => mret (RList [RList matching; RList rejected])
  | x :: l =>
      decide_item (u "partition") f x (λ b,
        if b then partition_items f (matching ++ [x]) rejected l else partition_items f matching (rejected ++ [x]) l)
  end.

Fixpoint map_items (f : FunctionDeclaration) (l0 : SourceLocation) (out l : list rvalue) : act rvalue :=
  match l with
  | [] => mret (RList out)
  | x :: l =>
      mapped ← call f [x];
      if is_ks_error mapped then mret mapped
      else
        _ ← refuse_capability mapped (w "List.map() callback'i capability döndüremez.") l0;
        map_items f l0 (out ++ [mapped]) l
  end.

Fixpoint scan_items (f : FunctionDeclaration) (l0 : SourceLocation) (accumulator : rvalue) (out l : list rvalue) : act rvalue :=
  match l with
  | [] => mret (RList out)
  | x :: l =>
      accumulator ← call f [accumulator; x];
      if is_ks_error accumulator then mret accumulator
      else
        _ ← refuse_capability accumulator (w "List.scan() reducer'ı capability döndüremez.") l0;
        scan_items f l0 accumulator (out ++ [accumulator]) l
  end.

(** A callback with the number of parameters the method needs. *)
Definition with_callback (v : rvalue) (arity : option nat) (not_a_function wrong_arity : ustring)
    (k : FunctionDeclaration → act rvalue) : act rvalue :=
  match v with
  | RFunction f =>
      match arity with
      | Some n => if (length (parameters f) =? n)%nat then k f else mret (RError wrong_arity)
      | None => k f
      end
  | _ => mret (RError not_a_function)
  end.

Definition on_list (name : ustring) : ustring := w "Capability taşıyan List üzerinde " ++ name ++ w "() çalıştırılamaz.".

Definition list_method (items : list rvalue) (name : ustring) (arguments : list rvalue) (l : SourceLocation) : act rvalue :=
  let named m := bool_decide (name = u m) in
  let nullary (r : act rvalue) := _ ← _require_arity name arguments 0 l; r in
  let unary (f : rvalue → act rvalue) :=
    _ ← _require_arity name arguments 1 l;
    match arguments with [a] => f a | _ => outside name end in
  let guarded (r : act rvalue) := _ ← refuse_capability (RList items) (on_list name) l; r in
  if named "scan" then
    _ ← _require_arity name arguments 2 l;
    match arguments with
    | [initial; reducer] =>
        let message := w "Capability taşıyan List veya başlangıç değeri üzerinde scan() çalıştırılamaz." in
        _ ← refuse_capability (RList items) message l;
        _ ← refuse_capability initial message l;
        with_callback reducer (Some 2%nat)
          (w "List.scan() yerel, adlandırılmış ve iki parametreli bir reducer bekler")
          (w "List.scan() reducer'ı 2 parametre almalıdır") (λ f, scan_items f l initial [] items)
    | _ => outside name
    end
  else if named "partition" then
    unary (λ a, guarded (with_callback a (Some 1%nat)
      (w "List.partition() yerel, adlandırılmış ve tek parametreli bir predicate bekler")
      (w "List.partition() predicate'i 1 parametre almalıdır") (λ f, partition_items f [] [] items)))
  else if named "any" then
    unary (λ a, guarded (with_callback a (Some 1%nat)
      (w "List.any() yerel, adlandırılmış ve tek parametreli bir predicate bekler")
      (w "List.any() predicate'i 1 parametre almalıdır") (λ f, any_matches f items)))
  else if named "map" then
    unary (λ a, guarded (with_callback a (Some 1%nat)
      (w "List.map() yerel, adlandırılmış bir fonksiyon bekler")
      (w "List.map() callback'i 1 parametre almalıdır") (λ f, map_items f l [] items)))
  else if named "chunks" then unary (λ a, guarded (mret (list_chunks items a)))
  else if named "flatten" then nullary (guarded (mret (flatten_groups [] items)))
  else if named "unique" then nullary (guarded (unique_from [] items))
  else if named "sum" || named "min" || named "max" then nullary (guarded (mret (list_reduce items name)))
  else if named "first_difference" then
    unary (λ a,
      match a with
      | RList other => difference_from 0 items other
      | _ => mret (RError (u "List.first_difference() bir List bekler"))
      end)
  else if named "find" then
    unary (λ a, with_callback a None
      (w "List.find() yerel, adlandırılmış bir predicate fonksiyonu bekler") [] (λ f, find_item f items))
  else if named "take" then
    unary (λ a, mret (
      match a with
      | RInt count => RList (take (Z.to_nat (Z.min count (Z.of_nat (length items)))) items)
      | _ => RError (w "List.take() öğe sayısı Int olmalıdır")
      end))
  else if named "get" then unary (λ a, mret (list_get items a))
  else if named "length" then nullary (mret (RInt (Z.of_nat (length items))))
  else if named "push" then
    unary (λ a,
      _ ← refuse_capability a
        (w "Capability taşıyan değerler List içine konamaz; runtime type-laundering girişimini reddetti.") l;
      mret (RList (items ++ [a])))
  else if named "contains" then
    unary (λ a, b ← with_heap (λ h, value_in (values_eq limit h) a items); mret (RBool b))
  else if named "sort" then
    nullary (_ ← refuse_capability (RList items) (w "Capability taşıyan List sıralanamaz.") l; list_sort items)
  else if named "filter" then
    unary (λ a, with_callback a None
      (w "List.filter() yerel, adlandırılmış bir predicate fonksiyonu bekler") [] (λ f, filter_items f [] items))
  else failed (PythonError (u "AttributeError")).
End callbacks.

(** ** Maps *)

Definition map_get (entries : list (ustring * rvalue)) (key : rvalue) : rvalue :=
  match key with
  | RString k => default (RError (w "Map anahtarı bulunamadı: " ++ k)) (assoc k entries)
  | _ => RError (w "Map anahtarı String olmalıdır")
  end.

(** [Map.add]: the number under a key grows by a number of the same type. *)
Definition map_add (entries : list (ustring * rvalue)) (key delta : rvalue) : rvalue :=
  match key with
  | RString k =>
      match delta with
      | RInt d =>
          match assoc k entries with
          | None => RMap (dict_put entries k delta)
          | Some (RInt c) => if in_int64 (c + d) then RMap (dict_put entries k (RInt (c + d))) else _int_overflow (u "+")
          | Some _ => RError (w "Map.add() mevcut değer ile delta aynı sayısal tipte olmalıdır")
          end
      | RFloat d =>
          match assoc k entries with
          | None => RMap (dict_put entries k delta)
          | Some (RFloat c) => RMap (dict_put entries k (RFloat (SFadd prec emax c d)))
          | Some _ => RError (w "Map.add() mevcut değer ile delta aynı sayısal tipte olmalıdır")
          end
      | _ => RError (w "Map.add() delta değeri Int veya Float olmalıdır")
      end
  | _ => RError (w "Map.add() anahtarı String olmalıdır")
  end.

Definition map_method (entries : list (ustring * rvalue)) (name : ustring) (arguments : list rvalue) (l : SourceLocation)
    : act rvalue :=
  let named m := bool_decide (name = u m) in
  let unary (f : rvalue → act rvalue) :=
    _ ← _require_arity name arguments 1 l;
    match arguments with [a] => f a | _ => outside name end in
  let binary (f : rvalue → rvalue → act rvalue) :=
    _ ← _require_arity name arguments 2 l;
    match arguments with [a; b] => f a b | _ => outside name end in
  if named "add" then
    binary (λ key delta,
      let message := w "Capability taşıyan Map veya delta üzerinde add() çalıştırılamaz." in
      _ ← refuse_capability (RMap entries) message l;
      _ ← refuse_capability delta message l;
      mret (map_add entries key delta))
  else if named "merge" then
    unary (λ a,
      match a with
      | RMap other =>
          let message := w "Capability taşıyan Map değerleri birleştirilemez." in
          _ ← refuse_capability (RMap entries) message l;
          _ ← refuse_capability a message l;
          mret (RMap (foldl (λ m kv, dict_put m kv.1 kv.2) entries other))
      | _ => mret (RError (u "Map.merge() bir Map bekler"))
      end)
  else if named "keys_sorted_by_value" then
    unary (λ a,
      match a with
      | RBool descending =>
          _ ← refuse_capability (RMap entries) (w "Capability taşıyan Map değerleri sıralanamaz.") l;
          if negb (_rank_kind entries.*2) then
            mret (RError (w "Map.keys_sorted_by_value() yalnızca homojen Int, Float veya String değerleri sıralar"))
          else if existsb is_nan_value entries.*2 then outside (u "NaN")
          else mret (RList (RString <$> sort_by_value descending entries))
      | _ => mret (RError (w "Map.keys_sorted_by_value() descending argümanı Bool olmalıdır"))
      end)
  else if named "get" then unary (λ a, mret (map_get entries a))
  else if named "set" then
    binary (λ key v,
      match key with
      | RString k =>
          _ ← refuse_capability v
            (w "Capability taşıyan değerler Map içine konamaz; runtime type-laundering girişimini reddetti.") l;
          mret (RMap (dict_put entries k v))
      | _ => mret (RError (w "Map anahtarı String olmalıdır"))
      end)
  else if named "keys" then
    _ ← _require_arity name arguments 0 l; mret (RList (RString <$> entries.*1))
  else if named "contains" then
    unary (λ a, mret (
      match a with
      | RString k => RBool (bool_decide (k ∈ entries.*1))
      | _ => RError (w "Map anahtarı String olmalıdır")
      end))
  else failed (PythonError (u "AttributeError")).

(** [_invoke_member]. *)
Definition _invoke_member (call : FunctionDeclaration → list rvalue → act rvalue) (receiver : rvalue) (name : ustring)
    (l : SourceLocation) (arguments : list rvalue) : act rvalue :=
  match receiver with
  | RString s => string_method s name arguments l
  | RList items => list_method call items name arguments l
  | RMap entries => map_method entries name arguments l
  | RCapability c => capability_method env c name arguments l
  | RResponse body status => response_method env body status name arguments l
  | _ => outside name
  end.
End members.
