(* ===== verification/Interpreter.v ===== *)
(** The tree interpreter: [Interpreter] of [src/koschei/interpreter.py] with the
methods that [src/koschei/runtime_alignment.py] and
[src/koschei/ergonomics_runtime.py] install over its own.

The mutually recursive methods are one step function over tasks (evaluate an
expression, execute a statement or a block, call a function, go on with a loop);
[run] gives the step fuel for the depth of its recursion.  The builtins of other
modules (data, decimals, queues, tasks, [parallel_map]) end in [OutsideModel]. *)

From Stdlib Require Import Floats.SpecFloat.
From S2P Require Import Prelude TypeSystem Lexer Ast Capability TypeContracts Mir Value NativeRuntime RuntimeValues RuntimeHost.
From S2P Require Import Collections.

(** * The program *)

(** What stays the same during a run: the dictionaries of [Interpreter.__init__]. *)
Record program_context := mk_context {
  context_structs : gmap ustring StructDeclaration;
  context_constructors : gmap ustring _EnumConstructor;
  namespaces : gmap ustring function_table;
  module_import_tables : gmap ustring import_table;
}.

Definition builtin_constructors : list (ustring * _EnumConstructor) :=
  [(u "Some", mk_constructor (u "Option") (u "Some") (Some [u "_"]) []);
   (u "None", mk_constructor (u "Option") (u "None") None []);
   (u "Ok", mk_constructor (u "Result") (u "Ok") (Some [u "_"]) []);
   (u "Err", mk_constructor (u "Result") (u "Err") (Some [u "_"]) [])].

Definition enum_constructors (d : EnumDeclaration) : list (ustring * _EnumConstructor) :=
  (λ v, (variant_name v,
         mk_constructor (enum_name d) (variant_name v) (names <$> payload_type v) (enum_type_parameters d))) <$> variants d.

Definition function_dict (declarations : list FunctionDeclaration) : function_table :=
  foldl (λ m f, <[function_name f := f]> m) ∅ declarations.

(** [Interpreter.__init__], with the enums and structs of the imported modules in
the order of their dictionaries. *)
Definition new_context (program : NativeProgram) (spaces : gmap ustring function_table)
    (enums_of_modules : list (ustring * EnumDeclaration)) (tables : gmap ustring import_table)
    (structs_of_modules : list (ustring * StructDeclaration)) : program_context :=
  let all_enums := foldl (λ m d, dict_put m (enum_name d) d) enums_of_modules (enums program) in
  mk_context
    (dict_update (dict_update ∅ structs_of_modules) ((λ d, (struct_name d, d)) <$> structs program))
    (dict_update ∅ (builtin_constructors ++ concat ((λ e : ustring * EnumDeclaration, enum_constructors e.2) <$> all_enums)))
    spaces tables.

Definition new_interpreter (program : NativeProgram) (import_names : import_table) : interp :=
  mk_interp [∅] (function_dict (declarations program)) import_names 0 [] [].

Definition MAX_CALL_DEPTH : Z := 512.

(** * Tasks *)

Inductive task :=
  | Evaluate (e : Expression)
  | Execute (s : Statement)
  | ExecuteBlock (b : Block) (create_scope : bool)
  | CallFunction (f : FunctionDeclaration) (arguments : list rvalue) (namespace : option function_table)
      (import_names : option import_table)
  | WhileLoop (condition : Expression) (body : Block) (result : rvalue).

(** The validator that runtime_alignment.py passes to the compiler's inference. *)
Definition _RuntimeAggregateValidator : AggregateValidator := {|
  aggregate_is_sensitive := λ t, Done (contains_named capability_names t);
  aggregate_validate_type := λ _ _, Done ();
|}.

(** An enum declaration for the inference, which reads its parameters only. *)
Definition enum_shape (c : _EnumConstructor) (l : SourceLocation) : declaration :=
  EnumOf (mk_enum (constructor_enum c) [] l (constructor_type_parameters c)).

Section interpreter.
Context (env : host) (program : program_context) (limit : nat).
(** The text of a [SemanticError] of the compiler's inference, which
[contract_error] leaves out. *)
Context (semantic_message : contract_error → ustring).

Section step.
Context (run : task → act rvalue).

Definition evaluate (e : Expression) : act rvalue := run (Evaluate e).
Definition call_function (f : FunctionDeclaration) (arguments : list rvalue) : act rvalue :=
  run (CallFunction f arguments None None).

(** * Calls *)

Definition mentions_capability (types : list TypeNode) : bool := existsb (contains_named capability_names) types.

(** The error of a call whose type parameters cannot be inferred. *)
Definition inference_failure {A} (subject label_security label_normal : ustring) (capability_related : bool)
    (e : contract_error) (l : SourceLocation) : act A :=
  match e with
  | SemanticError code _ =>
      if capability_related || (24 =? code / 100) then
        error 3401 (subject ++ semantic_message e ++ label_security) l
      else error 3106 (subject ++ semantic_message e ++ label_normal) l
  | _ => failed (contract_failure e)
  end.

(** [_type_ref]. *)
Definition _type_ref (t : TypeNode) (l : SourceLocation) : TypeRef := mk_type_ref (render_type <$> alternatives t) l.

(** The function with its type parameters replaced. *)
Definition concrete_function (f : FunctionDeclaration) (mapping : gmap ustring TypeNode) : contract_result FunctionDeclaration :=
  params ← outcome_map (λ p,
      pattern ← function_type f (Some (parameter_type p));
      Done (mk_parameter (parameter_name p)
              (_type_ref (substitute_type mapping pattern) (type_location (parameter_type p))) (parameter_location p)))
    (parameters f);
  result ← match return_type f with
           | None => Done None
           | Some r =>
               pattern ← function_type f (Some r);
               Done (Some (_type_ref (substitute_type mapping pattern) (type_location r)))
           end;
  Done (mk_function (function_name f) params result (body f) (function_location f) false [] false).

Definition call_generic (f : FunctionDeclaration) (arguments : list rvalue) (namespace : option function_table)
    (import_names : option import_table) : act rvalue :=
  runtime_types ← with_heap (λ h, outcome_map (_runtime_type_node h) arguments);
  let quoted_name := u "'" ++ function_name f ++ u "'" in
  match infer_function_mapping f runtime_types (function_location f) with
  | NoFuel => λ s, (NoFuel, s)
  | Raise e =>
      inference_failure (quoted_name ++ w " generic çağrısı runtime'da çıkarılamadı: ")
        (w ". Sınıflandırma: capability type-integrity ihlali.")
        (w ". Sınıflandırma: normal runtime generic tip uyuşmazlığı; capability ihlali değildir.")
        (mentions_capability runtime_types) e (function_location f)
  | Done mapping =>
      if mentions_capability mapping.*2 then
        error 3401 (quoted_name ++ w " generic çağrısına capability tipi bağlanamaz.") (function_location f)
      else
        concrete ← of_contract (concrete_function f (as_map mapping));
        run (CallFunction concrete arguments namespace import_names)
  end.

Fixpoint check_parameters (name : ustring) (params : list FunctionParameter) (arguments : list rvalue) : act () :=
  match params, arguments with
  | p :: params, v :: arguments =>
      _ ← require_type (u "'" ++ name ++ w "' çağrısında '" ++ parameter_name p ++ u "' parametresi")
            (names (parameter_type p)) v (parameter_location p);
      check_parameters name params arguments
  | _, _ => mret ()
  end.

Fixpoint define_parameters (params : list FunctionParameter) (arguments : list rvalue) : act () :=
  match params, arguments with
  | p :: params, v :: arguments => _ ← define (parameter_name p) v false; define_parameters params arguments
  | _, _ => mret ()
  end.

(** The body in its own frame. *)
Definition call_body (f : FunctionDeclaration) (arguments : list rvalue) : act rvalue :=
  _ ← define_parameters (parameters f) arguments;
  result ← catch (run (ExecuteBlock (body f) false))
             (λ g, match g with ReturnSignal v => mret v | _ => signalled g end);
  match return_type f with
  | None => mret result
  | Some r =>
      _ ← require_type (u "'" ++ function_name f ++ w "' dönüş değeri") (names r) result (function_location f);
      mret result
  end.

(** [_call_function] of runtime_alignment.py. *)
Definition _call_function (f : FunctionDeclaration) (arguments : list rvalue) (namespace : option function_table)
    (import_names : option import_table) : act rvalue :=
  if bool_decide (function_type_parameters f ≠ []) then call_generic f arguments namespace import_names
  else if negb (length arguments =? length (parameters f))%nat then
    error 3101 (u "'" ++ function_name f ++ w "' için " ++ str_int (Z.of_nat (length (parameters f))) ++
                w " argüman bekleniyor, " ++ str_int (Z.of_nat (length arguments)) ++ u " verildi.") (function_location f)
  else
    _ ← check_parameters (function_name f) (parameters f) arguments;
    previous ← ask (λ s, s);
    if MAX_CALL_DEPTH <=? depth previous then
      error 3105 (w "Çağrı derinliği sınırı aşıldı (512); sonsuz özyineleme olabilir.") (function_location f)
    else
      _ ← update (set_frame [∅] (default (functions previous) namespace) (default (imports previous) import_names)
                    (depth previous + 1));
      ensure (call_body f arguments)
        (λ s, set_frame (environment previous) (functions previous) (imports previous) (depth s - 1) s).

(** * Statements *)

Fixpoint execute_all (result : rvalue) (l : list Statement) : act rvalue :=
  match l with
  | [] => mret result
  | s :: l => result ← run (Execute s); execute_all result l
  end.

Definition scoped {A} (body : act A) : act A := _ ← update push_scope; ensure body pop_scope.

(** [_execute_block]. *)
Definition _execute_block (b : Block) (create_scope : bool) : act rvalue :=
  let body := execute_all RUnit (statements b) in
  if create_scope then scoped body else body.

(** What the body of a loop tells it: go on with a result, skip, stop. *)
Inductive loop_step :=
  | Continue (result : rvalue)
  | Skip
  | Stop.

Definition loop_body (body : act rvalue) : act loop_step :=
  catch (v ← body; mret (Continue v))
    (λ g, match g with ContinueSignal => mret Skip | BreakSignal => mret Stop | _ => signalled g end).

(** [for item in iterable]. *)
Fixpoint for_items (variable : ustring) (body : Block) (result : rvalue) (items : list rvalue) : act rvalue :=
  match items with
  | [] => mret result
  | item :: items =>
      step ← scoped (_ ← define variable item false; loop_body (run (ExecuteBlock body false)));
      match step with
      | Skip => for_items variable body result items
      | Stop => mret result
      | Continue (RError m) => mret (RError m)
      | Continue v => for_items variable body v items
      end
  end.

(** A round of [while]. *)
Definition while_step (condition : Expression) (body : Block) (result : rvalue) : act rvalue :=
  c ← evaluate condition;
  if is_ks_error c then mret c
  else if negb (truthy c) then mret result
  else
    step ← loop_body (run (ExecuteBlock body true));
    match step with
    | Skip => run (WhileLoop condition body result)
    | Stop => mret result
    | Continue (RError m) => mret (RError m)
    | Continue v => run (WhileLoop condition body v)
    end.

(** [_execute_statement]. *)
Definition _execute_statement (s : Statement) : act rvalue :=
  match s with
  | LetStatement name is_mutable value _ _ =>
      v ← evaluate value; _ ← define name v is_mutable; mret RUnit
  | ReturnStatement value _ =>
      v ← match value with None => mret RUnit | Some e => evaluate e end;
      signalled (ReturnSignal v)
  | ExpressionStatement e _ => evaluate e
  | IfStatement condition then_block else_branch _ =>
      c ← evaluate condition;
      if is_ks_error c then mret c
      else if truthy c then run (ExecuteBlock then_block true)
      else
        match else_branch with
        | Some (ElseBlock b) => run (ExecuteBlock b true)
        | Some (ElseIf s) => run (Execute s)
        | None => mret RUnit
        end
  | WhileStatement condition body _ => run (WhileLoop condition body RUnit)
  | ForStatement variable iterable body l =>
      v ← evaluate iterable;
      match v with
      | RError _ => mret v
      | RList items => for_items variable body RUnit items
      | _ => error 3101 (w "'for ... in' yalnızca List üzerinde çalışır.") l
      end
  | BreakStatement _ => signalled BreakSignal
  | ContinueStatement _ => signalled ContinueSignal
  end.

(** * Expressions *)

Definition overflow_literal (z : Z) : rt ustring :=
  text ← int_str z; Done (w "KS3501: Int literal çalışma anında 64-bit aralığı aştı: " ++ text).

(** A [Literal]; the scanner puts no other value into it. *)
Definition literal_value (v : literal) : act rvalue :=
  match v with
  | LitBool b => mret (RBool b)
  | LitValue (VText s) => mret (RString s)
  | LitValue (VInt z) =>
      if in_int64 z then mret (RInt z) else text ← check (λ _, overflow_literal z); mret (RError text)
  | LitValue (VFloat whole fraction) => mret (RFloat (float_of_digits whole fraction))
  | LitValue VNone | LitValue (VSegments _) => outside (u "literal")
  end.

(** An [Identifier]: functions, constructors, builtins and imports hide bindings. *)
Definition identifier_value (name : ustring) (l : SourceLocation) : act rvalue :=
  if bool_decide (name ∈ extension_builtins) then outside name
  else
    f ← ask (λ s, functions s !! name);
    match f with
    | Some f => mret (RFunction f)
    | None =>
        match context_constructors program !! name with
        | Some c => mret (RConstructor c)
        | None =>
            if bool_decide (name ∈ [u "print"; u "println"; u "Error"]) then mret (RString name)
            else
              i ← ask (λ s, imports s !! name);
              match i with
              | Some _ => mret (RModule name)
              | None => c ← resolve name l; mret (cell_value c)
              end
        end
    end.

Definition interpolate (parts : list Expression) : act rvalue :=
  texts ← act_map (λ p, v ← evaluate p; with_heap (λ h, ks_to_string (float_repr env) limit h v)) parts;
  mret (RString (concat texts)).

Fixpoint list_literal (items : list rvalue) (l : list Expression) : act rvalue :=
  match l with
  | [] => mret (RList items)
  | e :: l =>
      v ← evaluate e;
      if is_ks_error v then mret v
      else
        _ ← refuse_capability v
              (w "Capability taşıyan değerler List içine konamaz; runtime type-laundering girişimini reddetti.")
              (location_of e);
        list_literal (items ++ [v]) l
  end.

Fixpoint map_literal (entries : list (ustring * rvalue)) (l : list (Expression * Expression)) : act rvalue :=
  match l with
  | [] => mret (RMap entries)
  | (ke, ve) :: l =>
      key ← evaluate ke;
      match key with
      | RError _ => mret key
      | RString k =>
          if bool_decide (k ∈ entries.*1) then
            error 3101 (u "Map literalinde '" ++ k ++ w "' anahtarı birden fazla yazılmış.") (location_of ke)
          else
            v ← evaluate ve;
            if is_ks_error v then mret v
            else
              _ ← refuse_capability v
                    (w "Capability taşıyan değerler Map içine konamaz; runtime type-laundering girişimini reddetti.")
                    (location_of ve);
              map_literal (entries ++ [(k, v)]) l
      | _ =>
          t ← type_name_of key;
          error 3401 (w "Map anahtarı String olmalıdır, " ++ t ++ u " bulundu.") (location_of ke)
      end
  end.

(** ** Structs *)

(** [StructValue(...)]. *)
Definition new_struct (type_name : ustring) (fields : list (ustring * rvalue)) (type_arguments : list ustring) : act rvalue :=
  loc ← ask (λ s, length (heap s));
  _ ← update (λ s, set_heap (heap s ++ [mk_struct_value type_name fields type_arguments]) s);
  mret (RStruct loc).

(** The last field of a name, as in the dictionary [expected]. *)
Definition field_of (d : StructDeclaration) (name : ustring) : option StructField :=
  List.find (λ f, bool_decide (field_name f = name)) (rev (struct_fields d)).

(** The bindings of [_runtime_matches_type] called with a dictionary. *)
Definition match_field (d : StructDeclaration) (v : rvalue) (f : StructField) (m : bindings) : act (bool * bindings) :=
  with_heap (λ h, match_with_bindings h (struct_type_parameters d) v (names (field_type f)) m).

(** The fields of a [StructLiteral] whose declaration has no type parameters, or
that has none at all. *)
Fixpoint struct_fields_of (type_name : ustring) (d : option StructDeclaration) (fields : list (ustring * rvalue))
    (m : bindings) (l : list (ustring * Expression)) : act rvalue :=
  match l with
  | [] =>
      new_struct type_name fields
        (match d with None => [] | Some d => (λ n, default (u "_") (m !! n)) <$> struct_type_parameters d end)
  | (name, e) :: l =>
      v ← evaluate e;
      if is_ks_error v then mret v
      else
        match d ≫= λ d, f ← field_of d name; Some (d, f) with
        | None => struct_fields_of type_name d (dict_put fields name v) m l
        | Some (sd, f) =>
            r ← match_field sd v f m;
            if r.1 : bool then struct_fields_of type_name d (dict_put fields name v) r.2 l
            else
              t ← type_name_of v;
              error 3401 (u "'" ++ type_name ++ u "." ++ name ++ w "' alanı " ++ type_ref_str (field_type f) ++
                          w " beklerken " ++ t ++ w " aldı.") (location_of e)
        end
  end.

(** The fields of a generic literal, with their expressions. *)
Fixpoint generic_fields (d : StructDeclaration) (type_name : ustring) (fields : list (ustring * (rvalue * SourceLocation)))
    (l : list (ustring * Expression)) : act (list (ustring * (rvalue * SourceLocation)) + rvalue) :=
  match l with
  | [] => mret (inl fields)
  | (name, e) :: l =>
      if bool_decide (name ∈ fields.*1) then
        error 3101 (u "'" ++ type_name ++ u "' literalinde '" ++ name ++ w "' alanı birden fazla yazılmış.") (location_of e)
      else if bool_decide (field_of d name = None) then
        error 3101 (u "'" ++ type_name ++ w "' struct'ında '" ++ name ++ w "' alanı yok.") (location_of e)
      else
        v ← evaluate e;
        if is_ks_error v then mret (inr v) else generic_fields d type_name (fields ++ [(name, (v, location_of e))]) l
  end.

(** The evidence of the declared fields; a capability binds no type parameter. *)
Fixpoint field_evidence (d : StructDeclaration) (type_name : ustring) (fields : list (ustring * (rvalue * SourceLocation)))
    (l : list StructField) : act (list (TypeRef * TypeNode)) :=
  match l with
  | [] => mret []
  | f :: l =>
      match assoc (field_name f) fields with
      | None => failed (PythonError (u "KeyError"))
      | Some (v, at_field) =>
          pattern ← of_contract (declaration_type (StructOf d) (field_type f));
          inside ← contains_capability v;
          if bool_decide (unresolved_type_variables pattern ≠ ∅) && inside then
            error 3401 (u "'" ++ type_name ++ u "." ++ field_name f ++ w "' generic alanına capability değeri bağlanamaz.") at_field
          else
            actual ← with_heap (λ h, _runtime_type_node h v);
            rest ← field_evidence d type_name fields l;
            mret ((field_type f, actual) :: rest)
      end
  end.

Fixpoint check_fields (d : StructDeclaration) (type_name : ustring) (mapping : gmap ustring TypeNode)
    (fields : list (ustring * (rvalue * SourceLocation))) (l : list StructField) : act () :=
  match l with
  | [] => mret ()
  | f :: l =>
      match assoc (field_name f) fields with
      | None => failed (PythonError (u "KeyError"))
      | Some (v, at_field) =>
          pattern ← of_contract (declaration_type (StructOf d) (field_type f));
          let expected := substitute_type mapping pattern in
          ok ← with_heap (λ h, _matches_node h expected v);
          if ok : bool then check_fields d type_name mapping fields l
          else _raise_runtime_contract_error (u "'" ++ type_name ++ u "." ++ field_name f ++ w "' alanı")
                 [render_type expected] v at_field
      end
  end.

(** [any(_contains_capability(value) for value in values)]. *)
Fixpoint any_capability (l : list rvalue) : act bool :=
  match l with
  | [] => mret false
  | v :: l => b ← contains_capability v; if b : bool then mret true else any_capability l
  end.

(** [_runtime_mapping_error]. *)
Definition _runtime_mapping_error {A} (subject : ustring) (e : contract_error) (values : list rvalue) (l : SourceLocation)
    : act A :=
  inside ← any_capability values;
  inference_failure (subject ++ w " runtime generic çıkarımı başarısız: ") (w ". runtime capability type-integrity savunması")
    (w ". normal runtime generic tip uyuşmazlığı; capability ihlali değildir") inside e l.

(** Inference from values: the mapping, or the runtime error. *)
Definition infer_values (d : declaration) (evidence : list (TypeRef * TypeNode)) (allow_missing : bool) (subject : ustring)
    (values : list rvalue) (l : SourceLocation) : act type_mapping :=
  match @infer_declaration_mapping _RuntimeAggregateValidator d evidence l allow_missing with
  | Done mapping => mret mapping
  | Raise e => _runtime_mapping_error subject e values l
  | NoFuel => λ s, (NoFuel, s)
  end.

Definition mapping_arguments (mapping : type_mapping) (params : list ustring) : list ustring :=
  (λ name, render_type (default UnknownType (dict_get name mapping))) <$> params.

(** [_evaluate_generic_struct]. *)
Definition _evaluate_generic_struct (d : StructDeclaration) (type_name : ustring) (l : list (ustring * Expression))
    (at_literal : SourceLocation) : act rvalue :=
  r ← generic_fields d type_name [] l;
  match r with
  | inr v => mret v
  | inl fields =>
      let missing := filter (λ n, n ∉ fields.*1) (dict_fromkeys (field_name <$> struct_fields d)) in
      if bool_decide (missing ≠ []) then
        error 3101 (u "'" ++ type_name ++ w "' literalinde eksik alanlar: " ++ join (u ", ") missing ++ u ".") at_literal
      else
        evidence ← field_evidence d type_name fields (struct_fields d);
        mapping ← infer_values (StructOf d) evidence false (u "'" ++ type_name ++ u "' struct literal'i") (fst <$> fields.*2)
                    at_literal;
        _ ← check_fields d type_name (as_map mapping) fields (struct_fields d);
        new_struct type_name ((λ kv : ustring * (rvalue * SourceLocation), (kv.1, kv.2.1)) <$> fields)
          (mapping_arguments mapping (struct_type_parameters d))
  end.

(** [cell.value], which must be a struct by then. *)
Definition struct_in_cell (c : cell) : act (nat * struct_value) :=
  match cell_value c with
  | RStruct loc =>
      o ← with_heap (λ h, match h !! loc with Some o => Done o | None => Raise (OutsideModel (u "location")) end);
      mret (loc, o)
  | _ => failed (PythonError (u "AttributeError"))
  end.

(** [fields[member] = value] of the struct at a location. *)
Definition set_field (loc : nat) (member : ustring) (v : rvalue) (s : interp) : interp :=
  set_heap (alter (λ o,
    mk_struct_value (struct_type_name o) (dict_put (struct_value_fields o) member v) (struct_type_arguments o))
    loc (heap s)) s.

(** The assignment of a field, of ergonomics_runtime.py: the struct is changed in
place, for everything that shares it.  The value may assign the variable itself, so
its cell is read again; the evaluation binds no name, so it is the same cell. *)
Definition assign_field (target value : Expression) (l : SourceLocation) : act rvalue :=
  match target with
  | MemberExpression (Identifier name at_name) member at_member =>
      c ← resolve name at_name;
      if negb (cell_mutable c) then error 3201 (u "'" ++ name ++ w "' immutable; 'let mut' gerekir.") l
      else
        match cell_value c with
        | RStruct _ =>
            before ← struct_in_cell c;
            if bool_decide (assoc member (struct_value_fields before.2) = None) then
              error 3101 (u "'" ++ struct_type_name before.2 ++ w "' struct'ında '" ++ member ++ w "' alanı yok.") at_member
            else
              v ← evaluate value;
              c ← resolve name at_name;
              after ← struct_in_cell c;
              let type_name := struct_type_name after.2 in
              _ ← match context_structs program !! type_name with
                  | None => mret ()
                  | Some d =>
                      match List.find (λ f, bool_decide (field_name f = member)) (struct_fields d) with
                      | None => mret ()
                      | Some f =>
                          require_type (u "'" ++ type_name ++ u "." ++ member ++ w "' alan ataması")
                            (names (field_type f)) v l
                      end
                  end;
              _ ← update (set_field after.1 member v);
              mret v
        | _ => error 3201 (w "Alan atamasının hedefi struct olmalıdır.") l
        end
  | _ => error 3201 (w "İç içe struct alan ataması desteklenmiyor.") l
  end.

(** ** Operators *)

(** [&&] and [||], after the left operand. *)
Definition short_circuit (lhs : rvalue) (stop : bool) (rhs : Expression) : act rvalue :=
  if eqb (truthy lhs) stop then mret (RBool stop)
  else r ← evaluate rhs; mret (if is_ks_error r then r else RBool (truthy r)).

(** [+], [-] and [*] of two integers, exact. *)
Definition int_operation (operator : ustring) (a b : rvalue) : option Z :=
  match a, b with
  | RInt x, RInt y =>
      if bool_decide (operator = u "+") then Some (x + y)
      else if bool_decide (operator = u "-") then Some (x - y)
      else if bool_decide (operator = u "*") then Some (x * y)
      else None
  | _, _ => None
  end.

Definition divide (h : struct_heap) (a b : rvalue) : rt rvalue :=
  zero ← values_eq (S limit) h b (RInt 0);
  if zero : bool then Done (RError (w "Sıfıra bölme"))
  else
    match a, b with
    | RInt x, RInt y =>
        if (x =? INT64_MIN) && (y =? -1) then Done (_int_overflow (u "/")) else Done (RInt (int_quotient x y))
    | _, _ => divide_values a b
    end.

(** A strict operator on two values that are no errors. *)
Definition apply_binary (h : struct_heap) (operator : ustring) (a b : rvalue) : rt rvalue :=
  let named op := bool_decide (operator = u op) in
  let boolean (r : rt bool) := b ← r; Done (RBool b) in
  match int_operation operator a b with
  | Some z => Done (if in_int64 z then RInt z else _int_overflow operator)
  | None =>
      if named "+" then sum_values a b
      else if named "-" then subtract_values a b
      else if named "*" then multiply_values a b
      else if named "/" then divide h a b
      else if named "==" then boolean (values_eq limit h a b)
      else if named "!=" then b ← values_eq limit h a b; Done (RBool (negb b))
      else if named "<" then boolean (values_order limit h OrdLt a b)
      else if named "<=" then boolean (values_order limit h OrdLe a b)
      else if named ">" then boolean (values_order limit h OrdGt a b)
      else if named ">=" then boolean (values_order limit h OrdGe a b)
      else Raise (PythonError (u "AssertionError"))
  end.

(** [%] of ergonomics_runtime.py, on the two values. *)
Definition remainder (a b : rvalue) : rvalue :=
  if is_ks_error a then a
  else if is_ks_error b then b
  else
    match a, b with
    | RInt x, RInt y =>
        if y =? 0 then RError (w "Sıfıra bölme")
        else if (x =? INT64_MIN) && (y =? -1) then _int_overflow (u "%")
        else RInt (x - int_quotient x y * y)
    | _, _ => RError (w "KS1301: '%' yalnızca Int % Int kabul eder")
    end.

(** [_binary] of ergonomics_runtime.py over that of runtime_alignment.py. *)
Definition _binary (lhs : Expression) (operator : ustring) (rhs : Expression) : act rvalue :=
  if bool_decide (operator = u "%") then a ← evaluate lhs; b ← evaluate rhs; mret (remainder a b)
  else
    a ← evaluate lhs;
    if is_ks_error a then mret a
    else if bool_decide (operator = u "&&") then short_circuit a false rhs
    else if bool_decide (operator = u "||") then short_circuit a true rhs
    else
      b ← evaluate rhs;
      if is_ks_error b then mret b else with_heap (λ h, apply_binary h operator a b).

(** The integer literal under a minus sign. *)
Definition int_literal (e : Expression) : option Z :=
  match e with Literal (LitValue (VInt z)) _ => Some z | _ => None end.

Definition apply_unary (operator : ustring) (v : rvalue) : rt rvalue :=
  if bool_decide (operator = u "!") then Done (RBool (negb (truthy v)))
  else if bool_decide (operator = u "-") then
    match v with
    | RInt z => Done (if z =? INT64_MIN then _int_overflow (u "unary -") else RInt (- z))
    | _ => negate_value v
    end
  else Raise (PythonError (u "AssertionError")).

Definition _unary (operator : ustring) (operand : Expression) : act rvalue :=
  let general := v ← evaluate operand; if is_ks_error v then mret v else check (λ _, apply_unary operator v) in
  match (if bool_decide (operator = u "-") then int_literal operand else None) with
  | Some magnitude =>
      if magnitude =? 2 ^ 63 then mret (RInt INT64_MIN)
      else if INT64_MAX <? magnitude then mret (_int_overflow (u "unary -"))
      else general
  | None => general
  end.

(** ** Members *)

Definition undefined_member (name : ustring) (l : SourceLocation) : act rvalue :=
  error 3101 (w "Tanımsız alan veya metot: '" ++ name ++ u "'.") l.

(** [allowed_members] for the capabilities. *)
Definition capability_members (c : capability) : list ustring :=
  match c with
  | SystemCaps => []
  | NetRoot | EnvRoot | ProcessRoot => [u "allow"]
  | DiskRoot => [u "allow"; u "allow_read_only"]
  | NetCaps _ => [u "get"; u "post"; u "put"; u "delete"; u "request"]
  | DiskCaps _ | DiskReadCaps _ => [u "read"; u "read_file"; u "write"; u "write_file"; u "list"; u "delete"]
  | EnvCaps _ => [u "get"]
  | ProcessCaps _ => [u "run"; u "spawn"]
  end.

Definition bind_member (allowed : list ustring) (receiver : rvalue) (name : ustring) (l : SourceLocation)
    (otherwise : act rvalue) : act rvalue :=
  if bool_decide (name ∈ allowed) then mret (RBound receiver name l) else otherwise.

Definition capability_member (c : capability) (name : ustring) (l : SourceLocation) : act rvalue :=
  let root := match c with
              | SystemCaps =>
                  assoc name [(u "net", NetRoot); (u "disk", DiskRoot); (u "env", EnvRoot); (u "process", ProcessRoot)]
              | _ => None
              end in
  match root with
  | Some r => mret (RCapability r)
  | None =>
      if bool_decide (c = SystemCaps) && bool_decide (name ∈ [u "persist"; u "serve"]) then outside name
      else if is_narrowed c && bool_decide (name ∈ [u "allow"; u "allow_read_only"]) then
        error 3403 (w "Daraltılmış yetki '" ++ name ++ w "' ile yeniden genişletilemez.") l
      else bind_member (capability_members c) (RCapability c) name l (undefined_member name l)
  end.

(** [_member]. *)
Definition _member (receiver : rvalue) (name : ustring) (l : SourceLocation) : act rvalue :=
  match receiver with
  | RCapability c => capability_member c name l
  | RModule m =>
      k ← ask (λ s, imports s !! m);
      match k with
      | None => failed (PythonError (u "KeyError"))
      | Some k =>
          match namespaces program !! k ≫= lookup name with
          | Some f => mret (RModuleFunction f k)
          | None => error 3101 (u "'" ++ m ++ w "' modülünde '" ++ name ++ w "' adında bir fonksiyon yok.") l
          end
      end
  | RStruct loc =>
      o ← with_heap (λ h, match h !! loc with Some o => Done o | None => Raise (OutsideModel (u "location")) end);
      match assoc name (struct_value_fields o) with
      | Some v => mret v
      | None => error 3101 (u "'" ++ struct_type_name o ++ w "' struct'ında '" ++ name ++ w "' alanı yok.") l
      end
  | RList _ => bind_member LIST_METHODS receiver name l (error 3101 (w "List üzerinde '" ++ name ++ w "' metodu yok.") l)
  | RMap _ => bind_member MAP_METHODS receiver name l (error 3101 (w "Map üzerinde '" ++ name ++ w "' metodu yok.") l)
  | RString _ => bind_member STRING_METHODS receiver name l (undefined_member name l)
  | RResponse _ _ => bind_member [u "text"; u "status"] receiver name l (undefined_member name l)
  | _ => undefined_member name l
  end.

(** ** Invocation *)

(** A constructor of a generic enum, of runtime_alignment.py. *)
Definition construct_generic (c : _EnumConstructor) (arguments : list rvalue) (l : SourceLocation) : act rvalue :=
  let subject := u "'" ++ constructor_variant c ++ w "' enum constructor'ı" in
  let payload := head arguments in
  _ ← match payload with
      | None => mret ()
      | Some v => refuse_capability v (w "Capability taşıyan değerler generic enum payload'ına konamaz.") l
      end;
  evidence ← match constructor_payload c, payload with
             | Some t, Some v => actual ← with_heap (λ h, _runtime_type_node h v); mret [(mk_type_ref t l, actual)]
             | _, _ => mret []
             end;
  mapping ← infer_values (enum_shape c l) evidence true subject arguments l;
  _ ← match constructor_payload c, payload with
      | Some t, Some v =>
          pattern ← of_contract (declaration_type (enum_shape c l) (mk_type_ref t l));
          let expected := substitute_type (as_map mapping) pattern in
          ok ← with_heap (λ h, _matches_node h expected v);
          if ok : bool then mret ()
          else _raise_runtime_contract_error (u "'" ++ constructor_variant c ++ w "' payload'u") [render_type expected] v l
      | _, _ => mret ()
      end;
  mret (REnum (constructor_enum c) (constructor_variant c) payload
          (mapping_arguments mapping (constructor_type_parameters c))).

(** A constructor without type parameters, of interpreter.py. *)
Definition construct_plain (c : _EnumConstructor) (arguments : list rvalue) (l : SourceLocation) : act rvalue :=
  match constructor_payload c, arguments with
  | Some t, payload :: _ =>
      _ ← refuse_capability payload (w "Capability taşıyan değerler enum/Option/Result payload'ına konamaz.") l;
      r ← with_heap (λ h, match_with_bindings h [] payload t ∅);
      if r.1 : bool then mret (REnum (constructor_enum c) (constructor_variant c) (Some payload) [])
      else
        actual ← type_name_of payload;
        error 3401 (u "'" ++ constructor_variant c ++ w "' payload sözleşmesi " ++ join (u " or ") t ++
                    w " beklerken " ++ actual ++ w " aldı.") l
  | _, _ => mret (REnum (constructor_enum c) (constructor_variant c) None [])
  end.

Definition construct (c : _EnumConstructor) (arguments : list rvalue) (l : SourceLocation) : act rvalue :=
  _ ← _require_arity (constructor_variant c) arguments (match constructor_payload c with None => 0 | Some _ => 1 end) l;
  if bool_decide (constructor_type_parameters c ≠ []) then construct_generic c arguments l
  else construct_plain c arguments l.

(** [print], [println] and [Error]: the callee is the text of its name. *)
Definition invoke_text (name : ustring) (arguments : list rvalue) (l : SourceLocation) : act rvalue :=
  let text_of (k : ustring → act rvalue) :=
    _ ← _require_arity name arguments 1 l;
    match arguments with
    | [v] => text ← with_heap (λ h, ks_to_string (float_repr env) limit h v); k text
    | _ => outside name
    end in
  if bool_decide (name ∈ extension_builtins) then outside name
  else if bool_decide (name = u "println") then
    text_of (λ text, _ ← request (Printed (text ++ [NEWLINE])) (λ _, tt); mret RUnit)
  else if bool_decide (name = u "print") then text_of (λ text, _ ← request (Printed text) (λ _, tt); mret RUnit)
  else if bool_decide (name = u "Error") then text_of (λ text, mret (RError text))
  else error 3101 (w "Çağrılabilir bir değer bekleniyordu.") l.

(** [_invoke]. *)
Definition _invoke (callee : rvalue) (arguments : list rvalue) (l : SourceLocation) : act rvalue :=
  match callee with
  | RFunction f => call_function f arguments
  | RModuleFunction f m =>
      run (CallFunction f arguments (Some (default ∅ (namespaces program !! m)))
             (Some (default ∅ (module_import_tables program !! m))))
  | RConstructor c => construct c arguments l
  | RString name => invoke_text name arguments l
  | RBound receiver name at_member => _invoke_member env limit call_function receiver name at_member arguments
  | _ => error 3101 (w "Çağrılabilir bir değer bekleniyordu.") l
  end.

(** ** Match *)

Definition arm_has_block (a : MatchArm) : bool := let 'mk_arm _ _ b _ := a in match b with ArmBlock _ => true | _ => false end.

Definition arm_body_value (b : arm_body) : act rvalue :=
  match b with ArmExpression e => evaluate e | ArmBlock b => run (ExecuteBlock b true) end.

Fixpoint match_arms (variant : ustring) (payload : option rvalue) (arms : list MatchArm) (l : SourceLocation) : act rvalue :=
  match arms with
  | [] => error 3101 (w "match içinde '" ++ variant ++ w "' varyantı için kol yok.") l
  | mk_arm v binding body at_arm :: arms =>
      if negb (bool_decide (v = variant)) then match_arms variant payload arms l
      else
        scoped (
          _ ← match binding with
              | None => mret ()
              | Some name =>
                  match payload with
                  | None => error 3101 (u "'" ++ variant ++ w "' payload taşımıyor.") at_arm
                  | Some p => define name p false
                  end
              end;
          arm_body_value body)
  end.

(** [match]; with a block among the arms the text of one error differs. *)
Definition match_value (value : Expression) (arms : list MatchArm) (l : SourceLocation) : act rvalue :=
  v ← evaluate value;
  match v with
  | REnum _ variant payload _ => match_arms variant payload arms l
  | _ =>
      error 3101 (if existsb arm_has_block arms then w "match çalışma anında enum, Option veya Result bekler."
                  else w "match çalışma anında bir enum, Option veya Result değeri bekler.") l
  end.

(** ** The dispatch *)

(** The value of a fallible expression, or what to do with the failure. *)
Definition fallible (value : Expression) (on_failure : rvalue → act rvalue) : act rvalue :=
  v ← evaluate value;
  r ← check (λ _, _unwrap_fallible v);
  if r.1 : bool then mret r.2 else on_failure v.

(** [_evaluate] of interpreter.py. *)
Definition _evaluate_base (e : Expression) : act rvalue :=
  match e with
  | Literal v _ => literal_value v
  | Identifier name l => identifier_value name l
  | InterpolatedString parts _ => interpolate parts
  | ListLiteral items _ => list_literal [] items
  | MapLiteral entries _ => map_literal [] entries
  | StructLiteral type_name fields _ => struct_fields_of type_name (context_structs program !! type_name) [] ∅ fields
  | MemberExpression object member l => receiver ← evaluate object; _member receiver member l
  | CallExpression callee arguments l => f ← evaluate callee; vs ← act_map evaluate arguments; _invoke f vs l
  | MatchExpression value arms l => match_value value arms l
  | AssignmentExpression (Identifier name _) value l => v ← evaluate value; assign name v l
  | AssignmentExpression _ value l => _ ← evaluate value; error 3201 (w "Yalnızca değişkenlere atama yapılabilir.") l
  | BinaryExpression lhs operator rhs _ => _binary lhs operator rhs
  | UnaryExpression operator operand _ => _unary operator operand
  | OrReturnExpression value replacement _ =>
      fallible value (λ v,
        r ← match replacement with None => mret v | Some e => evaluate e end;
        signalled (ReturnSignal r))
  | OrElseExpression value fallback _ => fallible value (λ _, evaluate fallback)
  | OrBlockExpression value handler _ => fallible value (λ _, run (ExecuteBlock handler true))
  end.

(** [_evaluate] of runtime_alignment.py. *)
Definition _evaluate_aligned (e : Expression) : act rvalue :=
  match e with
  | StructLiteral type_name fields l =>
      match context_structs program !! type_name with
      | Some d =>
          if bool_decide (struct_type_parameters d ≠ []) then _evaluate_generic_struct d type_name fields l
          else reclassified (_evaluate_base e)
      | None => reclassified (_evaluate_base e)
      end
  | _ => reclassified (_evaluate_base e)
  end.

(** [_evaluate] of ergonomics_runtime.py. *)
Definition _evaluate (e : Expression) : act rvalue :=
  match e with
  | MatchExpression value arms l =>
      if existsb arm_has_block arms then match_value value arms l else _evaluate_aligned e
  | AssignmentExpression (MemberExpression object member at_member) value l =>
      assign_field (MemberExpression object member at_member) value l
  | _ => _evaluate_aligned e
  end.

Definition step (t : task) : act rvalue :=
  match t with
  | Evaluate e => _evaluate e
  | Execute s => _execute_statement s
  | ExecuteBlock b create_scope => _execute_block b create_scope
  | CallFunction f arguments namespace import_names => _call_function f arguments namespace import_names
  | WhileLoop condition body result => while_step condition body result
  end.
End step.

(** The recursion of the methods, to a depth of [fuel]. *)
Fixpoint run (fuel : nat) (t : task) : act rvalue :=
  match fuel with
  | O => λ s, (NoFuel, s)
  | S fuel => step (run fuel) t
  end.

(** [_execute_main]. *)
Definition execute_main (fuel : nat) : act rvalue :=
  main ← ask (λ s, functions s !! u "main");
  match main with
  | None => error 3101 (w "'main' fonksiyonu bulunamadı.") (mk_location 1 1)
  | Some main =>
      match parameters main with
      | [] => run fuel (CallFunction main [] None None)
      | [p] =>
          if bool_decide (names (parameter_type p) = [u "SystemCaps"]) then
            run fuel (CallFunction main [RCapability SystemCaps] None None)
          else error 3401 (w "'main' sıfır parametre veya yalnızca bir SystemCaps parametresi almalıdır; runtime başka bir tipe kök yetki enjekte etmez.") (function_location main)
      | _ => error 3401 (w "'main' sıfır parametre veya yalnızca bir SystemCaps parametresi almalıdır; runtime başka bir tipe kök yetki enjekte etmez.") (function_location main)
      end
  end.

(** The exit code of [run]: an error value of [main] ends with 1. *)
Definition exit_code (result : rvalue) : Z := if is_ks_error result then 1 else 0.
End interpreter.
