(* ===== verification/Confinement.v ===== *)
(** The two checks that the confinement of capabilities rests on, each against its
meaning: [_contains_capability] finds a capability exactly when one can be reached,
through structs that may hold one another, and [_relative_parts] accepts exactly
the paths below the directory of the capability. *)

From Stdlib Require Import Floats.SpecFloat.
From stdpp Require Import gmap fin_sets.
From S2P Require Import Prelude TypeSystem Lexer Ast Capability TypeContracts Mir Value RuntimeValues RuntimeHost.

(** * Capabilities that can be reached *)

(** A value holds a capability: itself, or in an item, an entry, a payload or a field
that it holds.  (A bound method is no container; the code does not look into it.) *)
Inductive holds (h : struct_heap) : rvalue → Prop :=
  | holds_capability c : holds h (RCapability c)
  | holds_item items v : v ∈ items → holds h v → holds h (RList items)
  | holds_entry entries k v : (k, v) ∈ entries → holds h v → holds h (RMap entries)
  | holds_payload e n v arguments : holds h v → holds h (REnum e n (Some v) arguments)
  | holds_field loc o k v : h !! loc = Some o → (k, v) ∈ struct_value_fields o → holds h v → holds h (RStruct loc).

(** Induction over the values inside a value. *)
Lemma rvalue_nested_ind (P : rvalue → Prop)
    (Hlist : ∀ items, Forall P items → P (RList items))
    (Hmap : ∀ entries, Forall (λ kv, P kv.2) entries → P (RMap entries))
    (Henum : ∀ e n v arguments, P v → P (REnum e n (Some v) arguments))
    (Hleaf : ∀ v, match v with RList _ | RMap _ | REnum _ _ (Some _) _ => True | _ => P v end) : ∀ v, P v.
Proof.
  fix IH 1. intros v. specialize (Hleaf v). destruct v as [| | | | |items|entries| | |e n [p|] a| | | | | | |]; try exact Hleaf.
  - apply Hlist. induction items; constructor; [apply IH|done].
  - apply Hmap. induction entries; constructor; [apply IH|done].
  - apply Henum, IH.
Qed.

Ltac nested v := pattern v; apply rvalue_nested_ind; clear v; [intros items IH|intros entries IH|intros e variant v a IH|intros v].

Section search.
Context (h : struct_heap).

(** A value all of whose structs have been visited, without a capability outside them. *)
Fixpoint clean (visited : gset nat) (v : rvalue) : Prop :=
  match v with
  | RCapability _ => False
  | RList items => foldr (λ x P, clean visited x ∧ P) True items
  | RMap entries => foldr (λ kv P, clean visited kv.2 ∧ P) True entries
  | REnum _ _ (Some payload) _ => clean visited payload
  | RStruct loc => is_Some (h !! loc) → loc ∈ visited
  | _ => True
  end.

Lemma clean_list visited items : clean visited (RList items) ↔ Forall (clean visited) items.
Proof. cbn. induction items as [|x l IH]; cbn; [done|]. by rewrite Forall_cons, IH. Qed.

Lemma clean_map visited entries : clean visited (RMap entries) ↔ Forall (λ kv, clean visited kv.2) entries.
Proof. cbn. induction entries as [|x l IH]; cbn; [done|]. by rewrite Forall_cons, IH. Qed.

Lemma clean_mono visited visited' v : visited ⊆ visited' → clean visited v → clean visited' v.
Proof.
  intros Hs. nested v.
  - rewrite !clean_list, !Forall_forall in *. naive_solver.
  - rewrite !clean_map, !Forall_forall in *. naive_solver.
  - done.
  - destruct v as [| | | | | | | | |? ? []| | | | | | |]; try done. cbn. set_solver.
Qed.

(** A visited struct with clean fields. *)
Definition settled (visited : gset nat) (loc : nat) : Prop :=
  ∀ o, h !! loc = Some o → Forall (λ kv, clean visited kv.2) (struct_value_fields o).

Lemma settled_mono visited visited' loc : visited ⊆ visited' → settled visited loc → settled visited' loc.
Proof. intros Hs H o Ho. eapply Forall_impl; [by apply H|]. intros kv. by apply clean_mono. Qed.

(** The structs that are still to be visited. *)
Definition unvisited (visited : gset nat) : nat := size (list_to_set (seq 0 (length h)) ∖ visited : gset nat).

Lemma unvisited_mono visited visited' : visited ⊆ visited' → (unvisited visited' ≤ unvisited visited)%nat.
Proof. intros H. unfold unvisited. apply (subseteq_size (C := gset nat)). set_solver. Qed.

Lemma unvisited_visit visited loc : is_Some (h !! loc) → loc ∉ visited → (unvisited ({[loc]} ∪ visited) < unvisited visited)%nat.
Proof.
  intros Hl%lookup_lt_is_Some Hv. unfold unvisited. apply (subset_size (C := gset nat)). split; [set_solver|]. intros H.
  assert (loc ∈ (list_to_set (seq 0 (length h)) ∖ visited : gset nat)) as Hin.
  { apply elem_of_difference. split; [|done]. apply elem_of_list_to_set, elem_of_seq. lia. }
  apply H in Hin. set_solver.
Qed.

(** A search with room for [n] structs: it only adds to the visited ones, and when it
finds nothing what it was asked about is clean and the structs it added are settled. *)
Definition searches (n : nat) (f : gset nat → bool * gset nat) (Q : gset nat → Prop) : Prop :=
  ∀ visited, (unvisited visited < n)%nat → (f visited).1 = false →
    visited ⊆ (f visited).2 ∧ Q (f visited).2 ∧ ∀ loc, loc ∈ (f visited).2 → loc ∉ visited → settled (f visited).2 loc.

Lemma searches_nothing n (Q : gset nat → Prop) : (∀ V, Q V) → searches n (λ V, (false, V)) Q.
Proof. intros H V _ _. by split_and!. Qed.

Lemma searches_any {A} n (f : A → gset nat → bool * gset nat) (Q : A → gset nat → Prop) l :
  (∀ x V V', V ⊆ V' → Q x V → Q x V') → Forall (λ x, searches n (f x) (Q x)) l →
  searches n (any_item f l) (λ V, Forall (λ x, Q x V) l).
Proof.
  intros Hmono. induction 1 as [|x l Hx Hl IH]; [by apply searches_nothing|]. intros V Hn. cbn [any_item].
  specialize (Hx V Hn). destruct (f x V) as [[] V1]; [done|]. cbn in Hx. destruct (Hx eq_refl) as (Hsub & HQ & Hset).
  intros Hb. destruct (IH V1) as (Hsub' & HQ' & Hset'); [|done|].
  { pose proof (unvisited_mono V V1 Hsub). lia. }
  split; [by etrans|]. split; [constructor; [by eapply Hmono|done]|]. intros loc Hin Hout.
  destruct (decide (loc ∈ V1)) as [H1|H1]; [|by apply Hset']. eapply settled_mono; [exact Hsub'|]. by apply Hset.
Qed.

Lemma searches_contains n chase v :
  (∀ loc, searches n (chase loc) (λ V, is_Some (h !! loc) → loc ∈ V)) →
  searches n (contains_in chase v) (λ V, clean V v).
Proof.
  intros Hc. nested v.
  - intros V Hn Hb. destruct (searches_any n _ _ items (λ x V V' Hs, clean_mono V V' x Hs) IH V Hn Hb) as (H1 & H2 & H3).
    split; [done|]. split; [by apply clean_list|done].
  - intros V Hn Hb. destruct (searches_any n _ _ entries (λ x V V' Hs, clean_mono V V' x.2 Hs) IH V Hn Hb) as (H1 & H2 & H3).
    split; [done|]. split; [by apply clean_map|done].
  - exact IH.
  - destruct v as [| | | | | | |loc| |? ? []| | | | | | |]; try done; try by apply searches_nothing. apply Hc.
Qed.

Lemma searches_chase fuel : ∀ loc, searches fuel (chase_struct fuel h loc) (λ V, is_Some (h !! loc) → loc ∈ V).
Proof.
  induction fuel as [|fuel IH]; intros loc V Hn; [lia|]. cbn [chase_struct]. destruct (bool_decide (loc ∈ V)) eqn:Hin; [intros _; apply bool_decide_eq_true in Hin; by split_and!|apply bool_decide_eq_false in Hin].
  destruct (h !! loc) as [o|] eqn:Ho; [|intros _; split_and!; [done| |done]; by intros []].
  assert (Forall (λ kv, searches fuel (contains_in (chase_struct fuel h) kv.2) (λ V, clean V kv.2)) (struct_value_fields o)) as Hf.
  { apply Forall_true. intros kv. by apply searches_contains. }
  intros Hb. destruct (searches_any fuel _ _ _ (λ x V V' Hs, clean_mono V V' x.2 Hs) Hf ({[loc]} ∪ V)) as (H1 & H2 & H3); [|done|].
  { pose proof (unvisited_visit V loc ltac:(by eexists) Hin). lia. }
  split; [set_solver|]. split; [set_solver|]. intros loc' Hin' Hout. destruct (decide (loc' = loc)) as [->|Hne].
  - intros o' Ho'. by simplify_eq.
  - apply H3; [done|set_solver].
Qed.

(** What has been searched without success holds nothing. *)
Lemma clean_holds visited v : (∀ loc, loc ∈ visited → settled visited loc) → clean visited v → ¬ holds h v.
Proof.
  intros Hset Hc Hh. induction Hh as [c|items v Hin Hh IH|entries k v Hin Hh IH|e n v a Hh IH|loc o k v Ho Hin Hh IH]; [done| | | |].
  - apply IH. apply clean_list in Hc. rewrite Forall_forall in Hc. by apply Hc.
  - apply IH. apply clean_map in Hc. rewrite Forall_forall in Hc. by apply (Hc (k, v)).
  - by apply IH.
  - apply IH. assert (loc ∈ visited) as Hv by (apply Hc; by eexists). specialize (Hset loc Hv o Ho).
    rewrite Forall_forall in Hset. by apply (Hset (k, v)).
Qed.

Lemma any_item_true {A} (f : A → gset nat → bool * gset nat) l : ∀ visited,
  (any_item f l visited).1 = true → ∃ x V, x ∈ l ∧ (f x V).1 = true.
Proof.
  induction l as [|x l IH]; intros V; cbn [any_item]; [done|]. destruct (f x V) as [[] V1] eqn:E.
  - intros _. exists x, V. split; [left|by rewrite E].
  - intros (y & V2 & Hy & H)%IH. exists y, V2. split; [by right|done].
Qed.

Lemma contains_in_holds chase : (∀ loc V, (chase loc V).1 = true → holds h (RStruct loc)) →
  ∀ v V, (contains_in chase v V).1 = true → holds h v.
Proof.
  intros Hc v. nested v.
  - intros V. cbn. intros (x & V' & Hin & Hx)%any_item_true. rewrite Forall_forall in IH. eapply holds_item; [done|by eapply IH].
  - intros V. cbn. intros ([k x] & V' & Hin & Hx)%any_item_true. rewrite Forall_forall in IH. eapply holds_entry; [done|by eapply (IH (k, x))].
  - intros V Hb. by eapply holds_payload, IH.
  - destruct v as [| | | | | | |loc| |? ? []| | | | | | |]; try done; intros V; cbn; [apply Hc|intros _; constructor].
Qed.

Lemma chase_holds fuel : ∀ loc V, (chase_struct fuel h loc V).1 = true → holds h (RStruct loc).
Proof.
  induction fuel as [|fuel IH]; intros loc V; cbn [chase_struct]; [done|]. case_bool_decide; [done|].
  destruct (h !! loc) as [o|] eqn:Ho; [|done]. intros ([k x] & V' & Hin & Hx)%any_item_true.
  eapply holds_field; [done..|]. by eapply contains_in_holds.
Qed.
End search.

(** C7: [_contains_capability] answers true exactly if the value holds a capability,
through any chain of items, entries, payloads and fields, however the structs share
and hold one another: marking the visited objects loses none and ends every cycle. *)
Theorem contains_capability_exact h v : _contains_capability h v = true ↔ holds h v.
Proof.
  unfold _contains_capability. split; [apply contains_in_holds, chase_holds|].
  intros Hh. destruct (contains_in _ _ _).1 eqn:E; [done|]. exfalso.
  destruct (searches_contains h _ _ v (searches_chase h (S (length h))) ∅) as (_ & H1 & H2); [|done|].
  { unfold unvisited. rewrite difference_empty_L. pose proof (size_list_to_set (C := gset nat) (seq 0 (length h)) (NoDup_seq _ _)) as Hs.
    rewrite Hs, length_seq. lia. }
  eapply clean_holds; [|exact H1|exact Hh]. intros loc Hloc. apply H2; [done|set_solver].
Qed.

(** * Paths below a directory *)

(** The name of a file or a directory. *)
Definition proper_part (part : ustring) : Prop :=
  part ≠ [] ∧ part ≠ u "." ∧ part ≠ u ".." ∧ SLASH ∉ part.

Lemma split_slash_no_slash text : ∀ current, SLASH ∉ current → Forall (λ part, SLASH ∉ part) (split_slash text current).
Proof.
  assert (∀ l : ustring, SLASH ∉ l → SLASH ∉ rev l) as Hr by (intros l H ?%list_elem_of_In%in_rev%list_elem_of_In; done).
  induction text as [|c text IH]; intros current Hc; cbn [split_slash]; [constructor; [by apply Hr|done]|].
  destruct (Z.eqb_spec c SLASH) as [->|Hn].
  - constructor; [by apply Hr|]. apply IH, not_elem_of_nil.
  - apply IH. rewrite not_elem_of_cons. by split.
Qed.

Lemma normal_components_proper components : Forall (λ part, SLASH ∉ part) components → ∀ kept,
  Forall proper_part kept → Forall proper_part (normal_components components kept).
Proof.
  induction 1 as [|c components Hc _ IH]; intros kept Hk; cbn [normal_components].
  { apply Forall_forall. intros part ?%list_elem_of_In%in_rev%list_elem_of_In. by eapply Forall_forall in Hk. }
  destruct (bool_decide (c = [])) eqn:E1; [by apply IH|]. destruct (bool_decide (c = u ".")) eqn:E2; [by apply IH|]. cbn [orb].
  destruct (bool_decide (c = u "..")) eqn:E3; apply IH.
  - by destruct Hk; [constructor|].
  - constructor; [|done]. apply bool_decide_eq_false in E1, E2, E3. by split_and!.
Qed.

Lemma abspath_components_proper cwd path : Forall proper_part (abspath_components cwd path).
Proof. apply normal_components_proper; [apply split_slash_no_slash, not_elem_of_nil|constructor]. Qed.

Lemma common_prefix_spec l1 : ∀ l2, take (common_prefix l1 l2) l1 = take (common_prefix l1 l2) l2.
Proof.
  induction l1 as [|x l1 IH]; intros [|y l2]; cbn [common_prefix]; try done. destruct (decide (x = y)) as [->|]; [|done].
  cbn. by rewrite IH.
Qed.

Lemma common_prefix_app l1 l2 : common_prefix l1 (l1 ++ l2) = length l1.
Proof. induction l1 as [|x l1 IH]; cbn; [by destruct l2|]. rewrite decide_True by done. by rewrite IH. Qed.

Lemma common_prefix_le l1 : ∀ l2, (common_prefix l1 l2 ≤ length l1)%nat.
Proof.
  induction l1 as [|x l1 IH]; intros [|y l2]; cbn [common_prefix length]; try lia. destruct (decide _); [|lia]. specialize (IH l2). lia.
Qed.

Lemma relative_parts_spec cwd prefix path parts :
  _relative_parts cwd prefix path = Some parts ↔
  abspath_components cwd path = abspath_components cwd prefix ++ parts ∧ Forall proper_part parts.
Proof.
  unfold _relative_parts, relpath_components.
  pose proof (abspath_components_proper cwd path) as Ht.
  set (target := abspath_components cwd path) in *. set (start := abspath_components cwd prefix).
  pose proof (common_prefix_le start target) as Hle.
  assert (∀ l, Forall proper_part l → filter (λ part, part ≠ [] ∧ part ≠ u ".") l = l) as Hf.
  { intros l. induction 1 as [|x l (?&?&_) _ IH]; [done|]. by rewrite filter_cons_True, IH. }
  split.
  - destruct (bool_decide _) eqn:E; [done|]. apply bool_decide_eq_false in E. rewrite elem_of_app in E.
    destruct (length start - common_prefix start target)%nat as [|n] eqn:En; [|cbn in E; contradict E; left; left].
    cbn [replicate app]. assert (common_prefix start target = length start) as Hl by lia.
    pose proof (common_prefix_spec start target) as Hp. rewrite Hl in *. rewrite firstn_all in Hp.
    assert (Forall proper_part (drop (length start) target)) as Hd by (by apply Forall_drop).
    rewrite Hf by done. intros [= <-]. split; [|done]. rewrite Hp at 1. by rewrite take_drop.
  - intros [Heq Hp]. rewrite Heq, common_prefix_app, Nat.sub_diag, drop_app_length. cbn [replicate app].
    rewrite bool_decide_eq_false_2, Hf; [done..|]. intros Hin. rewrite Forall_forall in Hp. by destruct (Hp _ Hin) as (_&_&?&_).
Qed.

(** C8: The scope of a disk capability is exact: a path is accepted exactly if its
absolute form, with every [.] and [..] resolved, is the directory of the capability
followed by further components, and these, none of which is empty, [.], [..] or
holds a separator, are what is opened one by one below it. *)
Theorem relative_parts_exact cwd prefix path parts :
  _relative_parts cwd prefix path = Some parts ↔
  abspath_components cwd path = abspath_components cwd prefix ++ parts ∧ Forall proper_part parts.
Proof. apply relative_parts_spec. Qed.
