(* ===== verification/InterpreterAuthority.v ===== *)
(** The authority of a program run by the tree interpreter: capabilities cannot be
forged, widened or hidden in a container, and the host is asked for nothing that
no capability permits.

[safe] is a Hoare logic of the interpreter's monad for one invariant of its
state; there is a lemma for each method, and [run_ok] closes the recursion. *)

From Stdlib Require Import Floats.SpecFloat.
From S2P Require Import Prelude TypeSystem Lexer Ast Capability TypeContracts Mir Value NativeRuntime RuntimeValues RuntimeHost.
From S2P Require Import Collections Interpreter Confinement.

(** * Authority *)

(** How one capability is made from another. *)
Inductive derives : capability → capability → Prop :=
  | derives_net : derives SystemCaps NetRoot
  | derives_disk : derives SystemCaps DiskRoot
  | derives_env : derives SystemCaps EnvRoot
  | derives_process : derives SystemCaps ProcessRoot
  | derives_origin origin : derives NetRoot (NetCaps origin)
  | derives_prefix prefix : derives DiskRoot (DiskCaps prefix)
  | derives_read_prefix prefix : derives DiskRoot (DiskReadCaps prefix)
  | derives_name name : derives EnvRoot (EnvCaps name)
  | derives_command command : derives ProcessRoot (ProcessCaps command).

(** The capabilities that a value holds, the fields of structs aside. *)
Fixpoint capabilities_in (v : rvalue) : list capability :=
  match v with
  | RCapability c => [c]
  | RList items => concat (capabilities_in <$> items)
  | RMap entries => concat ((λ kv : ustring * rvalue, capabilities_in kv.2) <$> entries)
  | REnum _ _ (Some payload) _ => capabilities_in payload
  | RBound receiver _ _ => capabilities_in receiver
  | _ => []
  end.

Definition is_capability (v : rvalue) : bool := match v with RCapability _ => true | _ => false end.

(** No list, map or enum payload holds a capability itself. *)
Fixpoint confined (v : rvalue) : bool :=
  match v with
  | RList items => forallb (λ x, negb (is_capability x) && confined x) items
  | RMap entries => forallb (λ kv : ustring * rvalue, negb (is_capability kv.2) && confined kv.2) entries
  | REnum _ _ (Some payload) _ => negb (is_capability payload) && confined payload
  | RBound receiver _ _ => confined receiver
  | _ => true
  end.

Definition reads (r : disk_request) : bool := match r with DiskRead | DiskList => true | _ => false end.

Section authority.
Context (env : host) (auth : capability → Prop).

(** What a request to the host needs. *)
Definition permitted (e : event) : Prop :=
  match e with
  | Printed _ => True
  | ScopeOpened _ => auth DiskRoot
  | DiskIO r prefix parts =>
      (auth (DiskCaps prefix) ∨ (auth (DiskReadCaps prefix) ∧ reads r = true)) ∧ Forall proper_part parts
  | NetGet origin url => auth (NetCaps origin) ∧ _allows env origin url = true
  | EnvRead name => auth (EnvCaps name)
  end.

Definition value_ok (v : rvalue) : Prop := Forall auth (capabilities_in v) ∧ confined v = true.

(** What may stand inside a list, a map or a payload. *)
Definition inside_ok (v : rvalue) : Prop := is_capability v = false ∧ value_ok v.

Lemma value_ok_list l : value_ok (RList l) ↔ Forall inside_ok l.
Proof.
  unfold inside_ok, value_ok. cbn [capabilities_in confined]. induction l as [|x l IH].
  { split; [constructor|]. by split; [constructor|]. }
  cbn [fmap list_fmap concat forallb]. rewrite Forall_app, Forall_cons, !andb_true_iff, negb_true_iff.
  tauto.
Qed.

Lemma value_ok_map l : value_ok (RMap l) ↔ Forall (λ kv, inside_ok kv.2) l.
Proof.
  unfold inside_ok, value_ok. cbn [capabilities_in confined]. induction l as [|x l IH].
  { split; [constructor|]. by split; [constructor|]. }
  cbn [fmap list_fmap concat forallb]. rewrite Forall_app, Forall_cons, !andb_true_iff, negb_true_iff.
  tauto.
Qed.

Lemma value_ok_enum e n v args : value_ok (REnum e n (Some v) args) ↔ inside_ok v.
Proof.
  unfold inside_ok, value_ok. cbn [capabilities_in confined]. rewrite andb_true_iff, negb_true_iff. tauto.
Qed.

Lemma value_ok_bound r n l : value_ok (RBound r n l) ↔ value_ok r.
Proof. done. Qed.

Lemma value_ok_capability c : value_ok (RCapability c) ↔ auth c.
Proof. unfold value_ok. cbn. rewrite Forall_singleton. tauto. Qed.

(** A value without parts. *)
Definition is_plain (v : rvalue) : bool :=
  match v with
  | RList _ | RMap _ | REnum _ _ (Some _) _ | RBound _ _ _ | RCapability _ => false
  | _ => true
  end.

Lemma value_ok_plain v : is_plain v = true → value_ok v.
Proof. destruct v as [| | | | | | | | |? ? []| | | | | | |]; try done; by split; [constructor|]. Qed.

Lemma inside_ok_plain v : is_plain v = true → inside_ok v.
Proof. intros H. split; [by destruct v|by apply value_ok_plain]. Qed.

Lemma inside_value v : inside_ok v → value_ok v.
Proof. by intros []. Qed.

Lemma not_capability h v : _contains_capability h v = false → is_capability v = false.
Proof. by destruct v. Qed.

(** * States *)

Context (before : list event).

Record state_ok (s : interp) : Prop := {
  cells_ok : ∀ scope name c, scope ∈ environment s → scope !! name = Some c → value_ok (cell_value c);
  heap_ok : ∀ o, o ∈ heap s → Forall (λ kv, value_ok kv.2) (struct_value_fields o);
  trace_ok : ∃ t, trace s = before ++ t ∧ Forall permitted t;
}.

Definition signal_ok (g : signal) : Prop := match g with ReturnSignal v => value_ok v | _ => True end.

(** [c] keeps the state good, its results satisfy [Q] and a returned value is good. *)
Definition safe {A} (Q : A → Prop) (c : act A) : Prop := ∀ s, state_ok s →
  state_ok (c s).2 ∧ match (c s).1 with Done a => Q a | Raise g => signal_ok g | NoFuel => True end.

Lemma safely_ret {A} (Q : A → Prop) a : Q a → safe Q (mret a).
Proof. intros H s Hs. by split. Qed.

Lemma safely_bind {A B} (P : A → Prop) (Q : B → Prop) (c : act A) (f : A → act B) :
  safe P c → (∀ a, P a → safe Q (f a)) → safe Q (c ≫= f).
Proof.
  intros Hc Hf s Hs. destruct (Hc s Hs) as [H1 H2]. unfold mbind, act_bind.
  destruct (c s) as [[a|g|] s1]; cbn [fst snd] in *; [by apply Hf|done|done].
Qed.

Lemma safely_weaken {A} (P Q : A → Prop) (c : act A) : (∀ a, P a → Q a) → safe P c → safe Q c.
Proof. intros H Hc s Hs. destruct (Hc s Hs) as [H1 H2]. split; [done|]. destruct (c s).1; auto. Qed.

Lemma safe_signalled {A} (Q : A → Prop) g : signal_ok g → safe Q (signalled g).
Proof. intros H s Hs. by split. Qed.

Lemma safe_failed {A} (Q : A → Prop) e : safe Q (failed e).
Proof. by apply safe_signalled. Qed.

Lemma safe_no_fuel {A} (Q : A → Prop) : safe Q (λ s, (NoFuel, s)).
Proof. intros s Hs. by split. Qed.

Lemma safe_ask {A} (Q : A → Prop) (f : interp → A) : (∀ s, state_ok s → Q (f s)) → safe Q (ask f).
Proof. intros H s Hs. split; [done|]. by apply H. Qed.

Lemma safe_check {A} (Q : A → Prop) (f : interp → rt A) : (∀ s a, state_ok s → f s = Done a → Q a) → safe Q (check f).
Proof.
  intros H s Hs. split; [done|]. unfold check. cbn. specialize (H s). by destruct (f s); [apply H| |].
Qed.

Lemma safe_of_contract {A} (r : contract_result A) : safe (λ _, True) (of_contract r).
Proof. intros s Hs. split; [done|]. by destruct r. Qed.

Lemma safe_update (f : interp → interp) : (∀ s, state_ok s → state_ok (f s)) → safe (λ _, True) (update f).
Proof. intros H s Hs. split; [by apply H|done]. Qed.

Lemma safe_ensure {A} (Q : A → Prop) (c : act A) f : safe Q c → (∀ s, state_ok s → state_ok (f s)) → safe Q (ensure c f).
Proof.
  intros Hc Hf s Hs. destruct (Hc s Hs) as [H1 H2]. unfold ensure. destruct (c s) as [r s1]. split; [by apply Hf|done].
Qed.

Lemma safe_catch {A} (Q : A → Prop) (c : act A) f :
  safe Q c → (∀ g, signal_ok g → safe Q (f g)) → safe Q (catch c f).
Proof.
  intros Hc Hf s Hs. destruct (Hc s Hs) as [H1 H2]. unfold catch.
  destruct (c s) as [[a|g|] s1]; cbn [fst snd] in *; [done|by apply Hf|done].
Qed.

Lemma safely_map {A B} (P : B → Prop) (f : A → act B) l : (∀ x, safe P (f x)) → safe (Forall P) (act_map f l).
Proof.
  intros H. induction l as [|x l IH]; [by apply safely_ret|]. cbn [act_map].
  eapply safely_bind; [apply H|]. intros y Hy. eapply safely_bind; [apply IH|]. intros ys Hys. apply safely_ret. by constructor.
Qed.

Lemma safe_request {A} (Q : A → Prop) e (answer : list event → A) :
  permitted e → (∀ t, Q (answer t)) → safe Q (request e answer).
Proof.
  intros He Hq s Hs. split; [|apply Hq]. destruct Hs as [Hc Hh (t & Ht & Hf)]. split; cbn; [done|done|].
  exists (t ++ [e]). rewrite Ht, <- app_assoc. split; [done|]. apply Forall_app. split; [done|by constructor].
Qed.

(** ** Scopes *)

Lemma safe_pure_env f : (∀ s, state_ok s →
    (∀ scope name c, scope ∈ f s → scope !! name = Some c → value_ok (cell_value c))) →
  ∀ s, state_ok s → state_ok (set_environment (f s) s).
Proof. intros H s Hs. pose proof Hs as [Hc Hh Ht]. split; [by apply H|done|done]. Qed.

Lemma push_ok s : state_ok s → state_ok (push_scope s).
Proof.
  intros Hs. apply (safe_pure_env (λ s, ∅ :: environment s)); [|done]. intros s' Hs' scope n c [->|Hin]%elem_of_cons Hl.
  - by rewrite lookup_empty in Hl.
  - by eapply cells_ok.
Qed.

Lemma pop_ok s : state_ok s → state_ok (pop_scope s).
Proof.
  intros Hs. apply (safe_pure_env (λ s, tail (environment s))); [|done]. intros s' Hs' scope n c Hin Hl.
  eapply cells_ok; [done| |done]. destruct (environment s'); [done|]. by right.
Qed.

Lemma safe_define name v b : value_ok v → safe (λ _, True) (define name v b).
Proof.
  intros Hv. apply safe_update. intros s Hs. pose proof (cells_ok s Hs) as Hc. destruct (environment s) as [|scope rest] eqn:E; [done|].
  pose proof Hs as [_ Hh Ht]. split; [|done|done]. cbn. intros scope' n c [->|Hin]%elem_of_cons Hl.
  - destruct (decide (n = name)) as [->|Hn].
    + rewrite lookup_insert_eq in Hl. by injection Hl as <-.
    + rewrite lookup_insert_ne in Hl by done. eapply Hc; [|done]. left.
  - eapply Hc; [|done]. by right.
Qed.

Lemma find_cell_elem scopes name c : find_cell scopes name = Some c → ∃ scope, scope ∈ scopes ∧ scope !! name = Some c.
Proof.
  induction scopes as [|scope scopes IH]; [done|]. cbn [find_cell]. destruct (scope !! name) eqn:E.
  - intros [= ->]. exists scope. split; [left|done].
  - intros H. destruct (IH H) as (sc & ? & ?). exists sc. split; [by right|done].
Qed.

Lemma safe_resolve name l : safe (λ c, value_ok (cell_value c)) (resolve name l).
Proof.
  unfold resolve. eapply safely_bind; [apply (safe_ask (λ c : option cell,
    match c with Some c => value_ok (cell_value c) | None => True end))|].
  - intros s Hs. destruct (find_cell _ _) as [c|] eqn:E; [|done]. apply find_cell_elem in E as (scope & ? & ?).
    by eapply cells_ok.
  - intros [c|] Hc; [by apply safely_ret|apply safe_failed].
Qed.

Lemma replace_cell_elem scopes name c scope n c' : scope ∈ replace_cell scopes name c → scope !! n = Some c' →
  c' = c ∨ ∃ scope', scope' ∈ scopes ∧ scope' !! n = Some c'.
Proof.
  induction scopes as [|sc scopes IH]; [by intros ?%elem_of_nil|]. cbn [replace_cell].
  destruct (sc !! name) eqn:E.
  - intros [->|Hin]%elem_of_cons Hl.
    + destruct (decide (n = name)) as [->|Hn].
      * rewrite lookup_insert_eq in Hl. injection Hl as <-. by left.
      * rewrite lookup_insert_ne in Hl by done. right. exists sc. split; [left|done].
    + right. exists scope. split; [by right|done].
  - intros [->|Hin]%elem_of_cons Hl.
    + right. exists sc. split; [left|done].
    + destruct (IH Hin Hl) as [->|(sc' & ? & ?)]; [by left|]. right. exists sc'. split; [by right|done].
Qed.

Lemma safe_assign name v l : value_ok v → safe value_ok (assign name v l).
Proof.
  intros Hv. unfold assign. eapply safely_bind; [apply safe_resolve|]. intros c Hc.
  destruct (negb _); [apply safe_failed|].
  eapply safely_bind; [apply safe_update|intros _ _; by apply safely_ret].
  apply safe_pure_env. intros s Hs scope n c' Hin Hl.
  destruct (replace_cell_elem _ _ _ _ _ _ Hin Hl) as [->|(sc & ? & ?)]; [done|]. by eapply cells_ok.
Qed.

(** ** The heap *)

Lemma safe_new_struct name fields args :
  Forall (λ kv, value_ok kv.2) fields → safe value_ok (new_struct name fields args).
Proof.
  intros Hf. unfold new_struct. eapply safely_bind; [by apply (safe_ask (λ _, True))|]. intros loc _.
  eapply safely_bind; [apply safe_update|intros _ _; apply safely_ret, value_ok_plain; done].
  intros s [Hc Hh Ht]. split; cbn; [done| |done]. intros o [Ho| ->%list_elem_of_singleton]%elem_of_app; [by apply Hh|done].
Qed.

Lemma dict_put_ok (P : ustring * rvalue → Prop) l k v :
  Forall P l → (P (k, v)) → Forall P (dict_put l k v).
Proof.
  intros Hl Hv. induction Hl as [|[k' x] l Hx Hl IH]; cbn [dict_put]; [by constructor|].
  destruct (decide (k' = k)); by constructor.
Qed.

Lemma assoc_ok (P : rvalue → Prop) (l : list (ustring * rvalue)) k v :
  Forall (λ kv, P kv.2) l → assoc k l = Some v → P v.
Proof. intros Hl Ha%assoc_Some. rewrite Forall_forall in Hl. by apply (Hl (k, v)). Qed.

(** ** Checks *)

Lemma safe_check_any {A} (f : interp → rt A) : safe (λ _, True) (check f).
Proof. by apply safe_check. Qed.

Lemma safe_with_heap {A} (f : struct_heap → rt A) : safe (λ _, True) (with_heap f).
Proof. apply safe_check_any. Qed.

Lemma safe_ask_any {A} (f : interp → A) : safe (λ _, True) (ask f).
Proof. by apply safe_ask. Qed.

Lemma safe_refuse v message l : safe (λ _, is_capability v = false) (refuse_capability v message l).
Proof.
  unfold refuse_capability. eapply safely_bind; [apply (safe_ask (λ b, b = false → is_capability v = false))|].
  - intros s _. apply not_capability.
  - intros [] Hb; [apply safe_failed|apply safely_ret; auto].
Qed.

Lemma safe_arity name arguments n l : safe (λ _, True) (_require_arity name arguments n l).
Proof. unfold _require_arity. destruct (_ =? _)%nat; [by apply safely_ret|apply safe_failed]. Qed.

Lemma safe_contract_error {A} (Q : A → Prop) subject expected v l :
  safe Q (_raise_runtime_contract_error subject expected v l).
Proof.
  unfold _raise_runtime_contract_error. eapply safely_bind; [apply safe_check_any|]. intros e _.
  eapply safely_bind; [apply safe_with_heap|]. intros a _. eapply safely_bind; [apply safe_ask_any|]. intros b _.
  destruct (_ || _); apply safe_failed.
Qed.

Lemma safe_require_type subject expected v l : safe (λ _, True) (require_type subject expected v l).
Proof.
  unfold require_type. eapply safely_bind; [apply safe_with_heap|]. intros [] _; [by apply safely_ret|apply safe_contract_error].
Qed.

Lemma safe_reclassified {A} (Q : A → Prop) (c : act A) : safe Q c → safe Q (reclassified c).
Proof. intros H. apply safe_catch; [done|]. intros [] Hg; by apply safe_signalled. Qed.

Lemma safe_scoped {A} (Q : A → Prop) (c : act A) : safe Q c → safe Q (scoped c).
Proof.
  intros H. unfold scoped. eapply safely_bind; [apply safe_update, push_ok|]. intros _ _. apply safe_ensure; [done|apply pop_ok].
Qed.
End authority.

(** Automation: the structure of a computation, then its leaves. *)
Ltac safe_leaf :=
  first
    [ eassumption
    | apply safe_refuse | apply safe_arity | apply safe_require_type | apply safe_with_heap | apply safe_resolve
    | apply safe_ask_any | apply safe_check_any | apply safe_of_contract
    | by apply (safe_request _ _ _ (λ _, True)) ].

Ltac safe_steps :=
  repeat match goal with
  | |- safe _ _ _ _ (mret _) => apply safely_ret
  | |- safe _ _ _ _ (failed _) => apply safe_failed
  | |- safe _ _ _ _ (error _ _ _) => apply safe_failed
  | |- safe _ _ _ _ (outside _) => apply safe_failed
  | |- safe _ _ _ _ (signalled _) => apply safe_signalled
  | |- safe _ _ _ _ (λ s, (NoFuel, s)) => apply safe_no_fuel
  | |- safe _ _ _ _ (_raise_runtime_contract_error _ _ _ _) => apply safe_contract_error
  | |- safe _ _ _ _ (mbind _ _) => eapply safely_bind; [safe_leaf|intros ? ?]
  | |- safe _ _ _ _ (match ?x with _ => _ end) => destruct x eqn:?
  end.

Ltac plain := first [by apply value_ok_plain | by apply inside_ok_plain | done].

(** * The methods *)

Lemma relative_parts_proper cwd prefix path parts : _relative_parts cwd prefix path = Some parts → Forall proper_part parts.
Proof. by intros [_ ?]%relative_parts_spec. Qed.

Section methods.
Context (env : host) (auth : capability → Prop) (before : list event).
Context (closed : ∀ c d, auth c → derives c d → auth d).

Abbreviation safe := (safe env auth before).
Abbreviation value_ok := (value_ok auth).
Abbreviation inside_ok := (inside_ok auth).

Lemma derived c d : auth c → derives c d → value_ok (RCapability d).
Proof. intros Hc Hd. apply value_ok_capability. by eapply closed. Qed.

Lemma safe_one_text name arguments l k : (∀ text, safe value_ok (k text)) → safe value_ok (one_text env name arguments l k).
Proof. intros H. unfold one_text, invalid_call. repeat (case_match; try apply safe_failed). apply H. Qed.

Lemma safe_path_and_value name arguments l k : (∀ text v, safe value_ok (k text v)) →
  safe value_ok (path_and_value env name arguments l k).
Proof. intros H. unfold path_and_value, invalid_call. repeat (case_match; try apply safe_failed). apply H. Qed.

Lemma safe_in_scope prefix path k : (∀ parts, Forall proper_part parts → safe value_ok (k parts)) →
  safe value_ok (in_scope env prefix path k).
Proof.
  intros H. unfold in_scope. destruct (negb _); [apply safely_ret; plain|].
  eapply safely_bind; [apply (safe_ask _ _ _ (λ r, ∀ parts, r = Some parts → Forall proper_part parts))|].
  - intros s _ parts. apply relative_parts_proper.
  - intros [parts|] Hp; [by apply H, Hp|apply safely_ret; plain].
Qed.

Lemma safe_disk_io {A} r prefix parts (answer : list event → ustring → list ustring → disk_result A) on_done failure :
  auth (DiskCaps prefix) ∨ (auth (DiskReadCaps prefix) ∧ reads r = true) → Forall proper_part parts →
  (∀ a, value_ok (on_done a)) → safe value_ok (disk_io r prefix parts answer on_done failure).
Proof.
  intros Ha Hp Hv. unfold disk_io. eapply safely_bind; [by apply (safe_request _ _ _ (λ _, True))|].
  intros [] _; safe_steps; plain.
Qed.

Lemma texts_ok (l : list ustring) : value_ok (RList (RString <$> l)).
Proof. apply value_ok_list, Forall_forall. intros x (s & -> & _)%list_elem_of_fmap. plain. Qed.

Lemma safe_read_file prefix path : auth (DiskCaps prefix) ∨ auth (DiskReadCaps prefix) → safe value_ok (read_file env prefix path).
Proof.
  intros Ha. apply safe_in_scope. intros parts Hp. case_bool_decide; [apply safely_ret; plain|].
  apply safe_disk_io; [tauto|done|plain].
Qed.

Lemma safe_list_directory prefix path : auth (DiskCaps prefix) ∨ auth (DiskReadCaps prefix) →
  safe value_ok (list_directory env prefix path).
Proof. intros Ha. apply safe_in_scope. intros parts Hp. apply safe_disk_io; [tauto|done|intros; apply texts_ok]. Qed.

Lemma safe_write_file prefix path text : auth (DiskCaps prefix) → safe value_ok (write_file env prefix path text).
Proof.
  intros Ha. apply safe_in_scope. intros parts Hp. case_bool_decide; [apply safely_ret; plain|].
  apply safe_disk_io; [tauto|done|plain].
Qed.

Lemma safe_delete_file prefix path : auth (DiskCaps prefix) → safe value_ok (delete_file env prefix path).
Proof.
  intros Ha. apply safe_in_scope. intros parts Hp. case_bool_decide; [apply safely_ret; plain|].
  apply safe_disk_io; [tauto|done|plain].
Qed.

Lemma safe_scope_then_deny prefix path name : safe value_ok (_scope_then_deny env prefix path name).
Proof. unfold _scope_then_deny. safe_steps; plain. Qed.

Lemma safe_net_get origin url : auth (NetCaps origin) → safe value_ok (net_get_url env origin url).
Proof.
  intros Ha. unfold net_get_url. destruct (_allows env origin url) eqn:E; [|apply safely_ret; plain].
  eapply safely_bind; [apply (safe_request _ _ _ (λ _, True)); [by split|done]|]. intros [] _; apply safely_ret; plain.
Qed.

Lemma safe_environment_get n : auth (EnvCaps n) → safe value_ok (environment_get env n).
Proof.
  intros Ha. eapply safely_bind; [by apply (safe_request _ _ _ (λ _, True))|]. intros [] _; apply safely_ret; plain.
Qed.

Lemma safe_open_scope prefix scope : auth DiskRoot → (∀ p, derives DiskRoot (scope p)) → safe value_ok (open_scope env prefix scope).
Proof.
  intros Ha Hd. unfold open_scope. eapply safely_bind; [safe_leaf|]. intros p _.
  eapply safely_bind; [by apply (safe_request _ _ _ (λ _, True))|]. intros _ _. apply safely_ret. by eapply derived.
Qed.

Lemma safe_capability_method c name arguments l : auth c → safe value_ok (capability_method env c name arguments l).
Proof.
  intros Hc. unfold capability_method. destruct c; try apply safe_failed; cbv zeta.
  - apply safe_one_text. intros t. apply safely_ret. by eapply derived; [exact Hc|constructor].
  - apply safe_one_text. intros t. destruct (bool_decide _); apply safe_open_scope; first [done|constructor].
  - apply safe_one_text. intros t. apply safely_ret. by eapply derived; [exact Hc|constructor].
  - apply safe_one_text. intros t. apply safely_ret. by eapply derived; [exact Hc|constructor].
  - destruct (bool_decide _); [apply safe_one_text; intros; by apply safe_net_get|apply safely_ret; plain].
  - destruct (_ || _); [apply safe_one_text; intros; apply safe_read_file; by left|].
    destruct (bool_decide _); [apply safe_one_text; intros; apply safe_list_directory; by left|].
    destruct (bool_decide _); [apply safe_one_text; intros; by apply safe_delete_file|].
    apply safe_path_and_value. intros. eapply safely_bind; [safe_leaf|]. intros. by apply safe_write_file.
  - destruct (_ || _); [apply safe_one_text; intros; apply safe_read_file; by right|].
    destruct (bool_decide _); [apply safe_one_text; intros; apply safe_list_directory; by right|].
    destruct (bool_decide _); [apply safe_one_text; intros; apply safe_scope_then_deny|].
    apply safe_path_and_value. intros. apply safe_scope_then_deny.
  - destruct arguments; [by apply safe_environment_get|apply safe_failed].
  - apply safely_ret; plain.
Qed.

Lemma list_inside l : value_ok (RList l) → Forall inside_ok l.
Proof. apply value_ok_list. Qed.

Lemma inside_ok_list l : Forall inside_ok l → inside_ok (RList l).
Proof. intros H. split; [done|by apply value_ok_list]. Qed.

Lemma some_ok v : inside_ok v → value_ok (some_value v).
Proof. intros H. by apply value_ok_enum. Qed.

Lemma result_ok_plain v : is_plain v = true → value_ok (_result_ok v).
Proof. intros H. by apply value_ok_enum, inside_ok_plain. Qed.

Lemma result_error_ok m : value_ok (_result_error m).
Proof. by apply value_ok_enum, inside_ok_plain. Qed.

Lemma convert_text_ok {A} text (parse : ustring → option A) to_value failure :
  (∀ a, is_plain (to_value a) = true) → safe value_ok (convert_text text parse to_value failure).
Proof.
  intros H. unfold convert_text. destruct (negb _); [apply safe_failed|apply safely_ret]. destruct (parse text); [by apply value_ok_plain|plain].
Qed.

Lemma unary_ok (f : rvalue → act rvalue) name arguments l : Forall value_ok arguments → (∀ a, value_ok a → safe value_ok (f a)) →
  safe value_ok (_ ← _require_arity name arguments 1 l; match arguments with [a] => f a | _ => outside name end).
Proof.
  intros Ha Hf. eapply safely_bind; [safe_leaf|]. intros _ _. destruct arguments as [|a [|]]; try apply safe_failed.
  apply Hf. by inversion Ha.
Qed.

Lemma binary_ok (f : rvalue → rvalue → act rvalue) name arguments l : Forall value_ok arguments →
  (∀ a b, value_ok a → value_ok b → safe value_ok (f a b)) →
  safe value_ok (_ ← _require_arity name arguments 2 l; match arguments with [a; b] => f a b | _ => outside name end).
Proof.
  intros Ha Hf. eapply safely_bind; [safe_leaf|]. intros _ _. destruct arguments as [|a [|b [|]]]; try apply safe_failed.
  inversion Ha as [|? ? H1 H2]; subst. inversion H2; subst. by apply Hf.
Qed.

Lemma nullary_ok (c : act rvalue) name arguments l : safe value_ok c →
  safe value_ok (_ ← _require_arity name arguments 0 l; c).
Proof. intros Hc. eapply safely_bind; [safe_leaf|]. by intros _ _. Qed.

Lemma guarded_ok v message l (c : act rvalue) : safe value_ok c → safe value_ok (_ ← refuse_capability v message l; c).
Proof. intros Hc. eapply safely_bind; [safe_leaf|]. by intros _ _. Qed.

Lemma string_method_ok s name arguments l : Forall value_ok arguments → safe value_ok (string_method env s name arguments l).
Proof.
  intros Ha. unfold string_method. cbv zeta.
  destruct (bool_decide _); [apply nullary_ok, safely_ret; plain|].
  destruct (bool_decide _); [by apply nullary_ok, convert_text_ok|].
  destruct (bool_decide _); [by apply nullary_ok, convert_text_ok|].
  destruct (bool_decide _); [apply unary_ok; [done|]; intros a _; safe_steps; plain|].
  destruct (bool_decide _); [apply nullary_ok, safely_ret; plain|].
  destruct (bool_decide _).
  { apply unary_ok; [done|]. intros a _. apply safely_ret. destruct a as [| | | |[|c0 s0]| | | | | | | | | | | |]; first [plain|apply texts_ok]. }
  destruct (bool_decide _); [|apply safe_failed].
  apply unary_ok; [done|]. intros a _. apply safely_ret. repeat case_match; plain.
Qed.

(** ** Lists *)

Context (limit : nat).

Lemma list_get_ok items i : Forall inside_ok items → value_ok (list_get items i).
Proof.
  intros H. unfold list_get. repeat (case_match; try plain). apply some_ok. rewrite Forall_lookup in H. by eapply H.
Qed.

Lemma insert_sorted_ok {A} (P : A → Prop) le x l : P x → Forall P l → Forall P (insert_sorted le x l).
Proof. intros Hx Hl. induction Hl as [|y l Hy Hl IH]; cbn [insert_sorted]; [by constructor|]. case_match; by repeat constructor. Qed.

Lemma stable_sort_ok {A} (P : A → Prop) le l : Forall P l → Forall P (stable_sort le l).
Proof. intros H. unfold stable_sort. induction H; cbn [foldr]; [done|by apply insert_sorted_ok]. Qed.

Lemma list_sort_ok items : Forall inside_ok items → safe value_ok (list_sort items).
Proof.
  intros H. unfold list_sort. safe_steps; try plain. by apply value_ok_list, stable_sort_ok.
Qed.

Lemma difference_ok l1 : ∀ i l2, safe value_ok (difference_from limit i l1 l2).
Proof.
  induction l1 as [|x l1 IH]; intros i [|y l2]; cbn [difference_from].
  1-3: apply safely_ret; first [plain|by apply some_ok, inside_ok_plain].
  eapply safely_bind; [safe_leaf|]. intros [] _; [apply IH|by apply safely_ret, some_ok, inside_ok_plain].
Qed.

Lemma any_equal_ok c l : safe (λ _, True) (any_equal limit c l).
Proof. induction l as [|x l IH]; cbn [any_equal]; safe_steps; done. Qed.

Lemma unique_ok l : ∀ result, Forall inside_ok result → Forall inside_ok l → safe value_ok (unique_from limit result l).
Proof.
  induction l as [|x l IH]; intros result Hr Hl; cbn [unique_from]; [by apply safely_ret, value_ok_list|].
  inversion Hl; subst. eapply safely_bind; [apply any_equal_ok|]. intros b _. apply IH; [|done].
  destruct b; [done|]. apply Forall_app. split; [done|by constructor].
Qed.

Lemma flatten_ok l : ∀ result, Forall inside_ok result → Forall inside_ok l → value_ok (flatten_groups result l).
Proof.
  induction l as [|x l IH]; intros result Hr Hl; cbn [flatten_groups]; [by apply value_ok_list|].
  inversion Hl as [|? ? [_ Hx] Hl']; subst. destruct x; try plain. apply IH; [|done]. apply Forall_app. split; [done|by apply list_inside].
Qed.

Lemma reduce_ok items name : value_ok (list_reduce items name).
Proof.
  unfold list_reduce, _reduce_int, _reduce_float.
  repeat (case_match; try first [apply result_error_ok|by apply result_ok_plain|plain]).
Qed.

Lemma chunks_ok {A} (P : A → Prop) size l : ∀ room current, Forall P current → Forall P l →
  Forall (Forall P) (chunk_items size room current l).
Proof.
  assert (∀ c : list A, Forall P c → Forall P (rev c)) as Hr.
  { intros c Hc. apply Forall_forall. intros x Hx%list_elem_of_In%in_rev%list_elem_of_In. rewrite Forall_forall in Hc. by apply Hc. }
  induction l as [|x l IH]; intros room current Hc Hl; cbn [chunk_items].
  { destruct current; repeat constructor; by apply (Hr (_ :: _)). }
  inversion Hl; subst. destruct room; [constructor; [by apply Hr|]|]; apply IH; repeat constructor; done.
Qed.

Lemma list_chunks_ok items size : Forall inside_ok items → value_ok (list_chunks items size).
Proof.
  intros H. unfold list_chunks. repeat (case_match; try apply result_error_ok). apply value_ok_enum, inside_ok_list, Forall_fmap.
  eapply Forall_impl; [by apply chunks_ok|]. intros c Hc. by apply inside_ok_list.
Qed.

Section callbacks.
Context (call : FunctionDeclaration → list rvalue → act rvalue).
Context (Hcall : ∀ f args, Forall value_ok args → safe value_ok (call f args)).

Lemma decide_item_ok method f x k : value_ok x → (∀ b, safe value_ok (k b)) → safe value_ok (decide_item call method f x k).
Proof.
  intros Hx Hk. unfold decide_item. eapply safely_bind; [apply Hcall; by constructor|]. intros v Hv.
  destruct v; first [apply Hk|apply safely_ret; first [done|plain]].
Qed.

Lemma app_inside out x : Forall inside_ok out → inside_ok x → Forall inside_ok (out ++ [x]).
Proof. intros. apply Forall_app. split; [done|by constructor]. Qed.

Ltac callback_loop :=
  match goal with H : Forall inside_ok (_ :: _) |- _ => inversion H; subst; clear H end;
  apply decide_item_ok; [by apply inside_value|]; intros [].

Lemma filter_ok f l : ∀ out, Forall inside_ok out → Forall inside_ok l → safe value_ok (filter_items call f out l).
Proof.
  induction l as [|x l IH]; intros out Ho Hl; cbn [filter_items]; [by apply safely_ret, value_ok_list|].
  callback_loop; apply IH; by try apply app_inside.
Qed.

Lemma find_ok f l : Forall inside_ok l → safe value_ok (find_item call f l).
Proof.
  induction l as [|x l IH]; intros Hl; cbn [find_item]; [apply safely_ret; plain|].
  callback_loop; [by apply safely_ret, some_ok|by apply IH].
Qed.

Lemma any_ok f l : Forall inside_ok l → safe value_ok (any_matches call f l).
Proof.
  induction l as [|x l IH]; intros Hl; cbn [any_matches]; [apply safely_ret; plain|].
  callback_loop; [apply safely_ret; plain|by apply IH].
Qed.

Lemma partition_ok f l : ∀ a b, Forall inside_ok a → Forall inside_ok b → Forall inside_ok l →
  safe value_ok (partition_items call f a b l).
Proof.
  induction l as [|x l IH]; intros a b Ha Hb Hl; cbn [partition_items].
  { apply safely_ret, value_ok_list. constructor; [by apply inside_ok_list|]. constructor; [by apply inside_ok_list|done]. }
  callback_loop; apply IH; by try apply app_inside.
Qed.

Lemma map_ok f l0 l : ∀ out, Forall inside_ok out → Forall inside_ok l → safe value_ok (map_items call f l0 out l).
Proof.
  induction l as [|x l IH]; intros out Ho Hl; cbn [map_items]; [by apply safely_ret, value_ok_list|].
  inversion Hl as [|? ? Hx Hl']; subst. eapply safely_bind; [apply Hcall; constructor; [by apply inside_value|done]|].
  intros v Hv. destruct (is_ks_error v); [by apply safely_ret|]. eapply safely_bind; [safe_leaf|]. intros ? Hc.
  apply IH; [by apply app_inside|done].
Qed.

Lemma scan_ok f l0 l : ∀ acc out, value_ok acc → Forall inside_ok out → Forall inside_ok l →
  safe value_ok (scan_items call f l0 acc out l).
Proof.
  induction l as [|x l IH]; intros acc out Hacc Ho Hl; cbn [scan_items]; [by apply safely_ret, value_ok_list|].
  inversion Hl as [|? ? Hx Hl']; subst.
  eapply safely_bind; [apply Hcall; constructor; [done|]; constructor; [by apply inside_value|done]|].
  intros v Hv. destruct (is_ks_error v); [by apply safely_ret|]. eapply safely_bind; [safe_leaf|]. intros ? Hc.
  apply IH; [done|by apply app_inside|done].
Qed.

Lemma with_callback_ok v arity m1 m2 k : (∀ f, safe value_ok (k f)) → safe value_ok (with_callback v arity m1 m2 k).
Proof. intros H. unfold with_callback. repeat (case_match; try (apply safely_ret; plain)); apply H. Qed.

Lemma list_method_ok items name arguments l : Forall inside_ok items → Forall value_ok arguments →
  safe value_ok (list_method limit call items name arguments l).
Proof.
  intros Hi Ha. unfold list_method. cbv zeta.
  destruct (bool_decide _).
  { apply binary_ok; [done|]. intros a b Hav Hbv. apply guarded_ok, guarded_ok, with_callback_ok. intros f. by apply scan_ok. }
  do 3 (destruct (bool_decide _); [apply unary_ok; [done|]; intros a Hav; apply guarded_ok, with_callback_ok; intros f;
    first [by apply partition_ok|by apply any_ok|by apply map_ok]|]).
  destruct (bool_decide _); [apply unary_ok; [done|]; intros; by apply guarded_ok, safely_ret, list_chunks_ok|].
  destruct (bool_decide _); [by apply nullary_ok, guarded_ok, safely_ret, flatten_ok|].
  destruct (bool_decide _); [by apply nullary_ok, guarded_ok, unique_ok|].
  destruct (_ || _); [by apply nullary_ok, guarded_ok, safely_ret, reduce_ok|].
  destruct (bool_decide _).
  { apply unary_ok; [done|]. intros a _. destruct a; first [apply difference_ok|apply safely_ret; plain]. }
  destruct (bool_decide _); [apply unary_ok; [done|]; intros; apply with_callback_ok; intros; by apply find_ok|].
  destruct (bool_decide _).
  { apply unary_ok; [done|]. intros a _. apply safely_ret. destruct a; try plain. by apply value_ok_list, Forall_take. }
  destruct (bool_decide _); [apply unary_ok; [done|]; intros; by apply safely_ret, list_get_ok|].
  destruct (bool_decide _); [apply nullary_ok, safely_ret; plain|].
  destruct (bool_decide _).
  { apply unary_ok; [done|]. intros a Hav. eapply safely_bind; [safe_leaf|]. intros ? Hc.
    apply safely_ret, value_ok_list. by apply app_inside. }
  destruct (bool_decide _).
  { apply unary_ok; [done|]. intros a _. eapply safely_bind; [safe_leaf|]. intros. apply safely_ret; plain. }
  destruct (bool_decide _); [by apply nullary_ok, guarded_ok, list_sort_ok|].
  destruct (bool_decide _); [|apply safe_failed].
  apply unary_ok; [done|]; intros; apply with_callback_ok; intros; by apply filter_ok.
Qed.
End callbacks.

(** ** Maps *)

Lemma map_add_ok entries key delta : Forall (λ kv, inside_ok kv.2) entries → inside_ok delta → value_ok (map_add entries key delta).
Proof.
  intros He Hd. unfold map_add.
  repeat (case_match; subst; try plain); apply value_ok_map, dict_put_ok; first [done|by apply inside_ok_plain].
Qed.

Lemma map_method_safe entries name arguments l : Forall (λ kv, inside_ok kv.2) entries → Forall value_ok arguments →
  safe value_ok (map_method entries name arguments l).
Proof.
  intros He Ha. unfold map_method. cbv zeta.
  destruct (bool_decide _).
  { apply binary_ok; [done|]. intros a b _ Hb. apply guarded_ok. eapply safely_bind; [safe_leaf|]. intros ? Hc.
    by apply safely_ret, map_add_ok. }
  destruct (bool_decide _).
  { apply unary_ok; [done|]. intros a Hav. destruct a; try (apply safely_ret; plain). apply guarded_ok, guarded_ok, safely_ret, value_ok_map.
    apply value_ok_map in Hav. revert entries He. induction Hav as [|kv m Hkv Hm IH]; intros entries He; cbn [foldl]; [done|].
    apply IH. by apply dict_put_ok. }
  destruct (bool_decide _).
  { apply unary_ok; [done|]. intros a _. destruct a; try (apply safely_ret; plain). apply guarded_ok.
    safe_steps; first [plain|apply texts_ok]. }
  destruct (bool_decide _).
  { apply unary_ok; [done|]. intros a _. apply safely_ret. destruct a; try plain. cbn [map_get].
    destruct (assoc s entries) as [v|] eqn:E; [|plain]. apply inside_value. by eapply assoc_ok in E. }
  destruct (bool_decide _).
  { apply binary_ok; [done|]. intros a b _ Hb. destruct a; try (apply safely_ret; plain). eapply safely_bind; [safe_leaf|]. intros ? Hc.
    by apply safely_ret, value_ok_map, dict_put_ok. }
  destruct (bool_decide _); [apply nullary_ok, safely_ret, texts_ok|].
  destruct (bool_decide _); [|apply safe_failed].
  apply unary_ok; [done|]. intros a _. apply safely_ret. destruct a; plain.
Qed.

Lemma invoke_member_ok call receiver name l arguments :
  (∀ f args, Forall value_ok args → safe value_ok (call f args)) → value_ok receiver → Forall value_ok arguments →
  safe value_ok (_invoke_member env limit call receiver name l arguments).
Proof.
  intros Hcall Hr Ha. unfold _invoke_member. destruct receiver; try apply safe_failed.
  - by apply string_method_ok.
  - apply list_method_ok; [done|by apply list_inside|done].
  - apply map_method_safe; [by apply value_ok_map|done].
  - by apply safe_capability_method, value_ok_capability.
  - unfold response_method, invalid_call. destruct arguments; [|apply safe_failed]. apply safely_ret. case_bool_decide; plain.
Qed.
End methods.

(** * The interpreter *)

Section interpreter.
Context (env : host) (auth : capability → Prop) (before : list event).
Context (closed : ∀ c d, auth c → derives c d → auth d).
Context (program : program_context) (limit : nat) (semantic_message : contract_error → ustring).

Abbreviation safe := (safe env auth before).
Abbreviation value_ok := (value_ok auth).
Abbreviation inside_ok := (inside_ok auth).
Abbreviation state_ok := (state_ok env auth before).

Definition task_ok (t : task) : Prop :=
  match t with
  | CallFunction _ arguments _ _ => Forall value_ok arguments
  | WhileLoop _ _ result => value_ok result
  | _ => True
  end.

Section step.
Context (run : task → act rvalue) (Hrun : ∀ t, task_ok t → safe value_ok (run t)).

Lemma evaluate_ok e : safe value_ok (evaluate run e).
Proof. by apply Hrun. Qed.

Lemma call_ok f arguments : Forall value_ok arguments → safe value_ok (call_function run f arguments).
Proof. intros H. by apply Hrun. Qed.

Ltac bind_value := eapply safely_bind; [first [apply evaluate_ok|by apply Hrun]|intros ? ?].

(** ** Calls *)

Lemma inference_failure_ok {A} (Q : A → Prop) subject l1 l2 b e l :
  safe Q (inference_failure semantic_message subject l1 l2 b e l).
Proof. unfold inference_failure. safe_steps. Qed.

Lemma call_generic_ok f arguments ns ims : Forall value_ok arguments →
  safe value_ok (call_generic semantic_message run f arguments ns ims).
Proof.
  intros Ha. unfold call_generic. cbv zeta. safe_steps; [|apply inference_failure_ok]. by apply Hrun.
Qed.

Lemma check_parameters_ok name params : ∀ arguments, safe (λ _, True) (check_parameters name params arguments).
Proof. induction params as [|p params IH]; intros [|v arguments]; cbn [check_parameters]; safe_steps; done. Qed.

Lemma define_parameters_ok params : ∀ arguments, Forall value_ok arguments →
  safe (λ _, True) (define_parameters params arguments).
Proof.
  induction params as [|p params IH]; intros [|v arguments] Ha; cbn [define_parameters]; try by apply safely_ret.
  inversion Ha; subst. eapply safely_bind; [by apply safe_define|]. intros _ _. by apply IH.
Qed.

Lemma call_body_ok f arguments : Forall value_ok arguments → safe value_ok (call_body run f arguments).
Proof.
  intros Ha. unfold call_body. eapply safely_bind; [by apply define_parameters_ok|]. intros _ _.
  eapply safely_bind; [apply (safe_catch _ _ _ value_ok); [by apply Hrun|]|].
  - intros [] Hg; [by apply safely_ret|by apply safe_signalled..].
  - intros v Hv. safe_steps; done.
Qed.

Lemma frame_ok s e fs ims d : state_ok s → (∀ scope name c, scope ∈ e → scope !! name = Some c → value_ok (cell_value c)) →
  state_ok (set_frame e fs ims d s).
Proof. intros [Hc Hh Ht] He. by split. Qed.

Lemma call_function_ok f arguments ns ims : Forall value_ok arguments →
  safe value_ok (_call_function semantic_message run f arguments ns ims).
Proof.
  intros Ha. unfold _call_function. destruct (bool_decide _); [by apply call_generic_ok|].
  destruct (negb _); [apply safe_failed|]. eapply safely_bind; [apply check_parameters_ok|]. intros _ _.
  eapply safely_bind; [by apply (safe_ask _ _ _ state_ok)|]. intros previous Hp.
  destruct (_ <=? _); [apply safe_failed|]. eapply safely_bind; [apply safe_update|intros _ _].
  - intros s Hs. apply frame_ok; [done|]. intros scope n c ->%list_elem_of_singleton Hl. by rewrite lookup_empty in Hl.
  - apply safe_ensure; [by apply call_body_ok|]. intros s Hs. apply frame_ok; [done|]. apply (cells_ok _ _ _ _ Hp).
Qed.

(** ** Statements *)

Lemma execute_all_ok l : ∀ result, value_ok result → safe value_ok (execute_all run result l).
Proof. induction l as [|s l IH]; intros r Hr; cbn [execute_all]; [by apply safely_ret|]. bind_value. by apply IH. Qed.

Lemma execute_block_ok b c : safe value_ok (_execute_block run b c).
Proof.
  unfold _execute_block. cbv zeta. destruct c; [apply safe_scoped|]; apply execute_all_ok; plain.
Qed.

Lemma loop_body_ok c : safe value_ok c →
  safe (λ r, match r with Continue v => value_ok v | _ => True end) (loop_body c).
Proof.
  intros H. apply safe_catch.
  - eapply safely_bind; [done|]. intros v Hv. by apply safely_ret.
  - intros [] Hg; safe_steps; done.
Qed.

Lemma for_items_ok variable b items : ∀ result, Forall inside_ok items → value_ok result →
  safe value_ok (for_items run variable b result items).
Proof.
  induction items as [|x items IH]; intros result Hi Hr; cbn [for_items]; [by apply safely_ret|].
  inversion Hi as [|? ? Hx Hi']; subst. eapply safely_bind.
  - apply safe_scoped. eapply safely_bind; [by apply safe_define, inside_value|]. intros _ _. apply loop_body_ok. by apply Hrun.
  - intros [v| |] Hv; [|by apply IH|by apply safely_ret]. destruct v; first [apply safely_ret; plain|by apply IH].
Qed.

Lemma while_step_ok condition b result : value_ok result → safe value_ok (while_step run condition b result).
Proof.
  intros Hr. unfold while_step. bind_value. destruct (is_ks_error _); [by apply safely_ret|].
  destruct (negb _); [by apply safely_ret|]. eapply safely_bind; [apply loop_body_ok; by apply Hrun|].
  intros [v| |] Hv; [|by apply Hrun|by apply safely_ret]. destruct v; first [apply safely_ret; plain|by apply Hrun].
Qed.

Lemma execute_statement_ok s : safe value_ok (_execute_statement run s).
Proof.
  unfold _execute_statement. destruct s.
  - bind_value. eapply safely_bind; [by apply safe_define|]. intros _ _. apply safely_ret; plain.
  - eapply safely_bind; [destruct value; [apply evaluate_ok|apply safely_ret; plain]|]. intros v Hv. by apply safe_signalled.
  - apply evaluate_ok.
  - bind_value. destruct (is_ks_error _); [by apply safely_ret|]. destruct (truthy _); [by apply Hrun|].
    destruct else_branch as [[]|]; [by apply Hrun|by apply Hrun|apply safely_ret; plain].
  - apply Hrun. by apply value_ok_plain.
  - bind_value. destruct a; try apply safe_failed; [|by apply safely_ret]. apply for_items_ok; [by apply list_inside|plain].
  - by apply safe_signalled.
  - by apply safe_signalled.
Qed.

(** ** Expressions *)

Lemma literal_ok v : safe value_ok (literal_value v).
Proof.
  unfold literal_value. destruct v as [[]|]; safe_steps; plain.
Qed.

Lemma identifier_ok name l : safe value_ok (identifier_value program name l).
Proof.
  unfold identifier_value. safe_steps; try plain; done.
Qed.

Lemma interpolate_ok parts : safe value_ok (interpolate env limit run parts).
Proof.
  unfold interpolate. eapply safely_bind; [apply (safely_map _ _ _ (λ _, True))|intros; apply safely_ret; plain].
  intros p. bind_value. apply safe_with_heap.
Qed.

Lemma list_literal_ok l : ∀ items, Forall inside_ok items → safe value_ok (list_literal run items l).
Proof.
  induction l as [|e l IH]; intros items Hi; cbn [list_literal]; [by apply safely_ret, value_ok_list|].
  bind_value. destruct (is_ks_error _); [by apply safely_ret|]. eapply safely_bind; [safe_leaf|]. intros ? Hc.
  apply IH. by apply app_inside.
Qed.

Lemma map_literal_safe l : ∀ entries, Forall (λ kv, inside_ok kv.2) entries → safe value_ok (map_literal run entries l).
Proof.
  induction l as [|[ke ve] l IH]; intros entries He; cbn [map_literal]; [by apply safely_ret, value_ok_map|].
  bind_value. destruct a; try (by apply safely_ret); try (eapply safely_bind; [safe_leaf|intros; apply safe_failed]).
  destruct (bool_decide _); [apply safe_failed|]. bind_value. destruct (is_ks_error _); [by apply safely_ret|].
  eapply safely_bind; [safe_leaf|]. intros ? Hc. apply IH. apply Forall_app. split; [done|]. by constructor.
Qed.

Lemma struct_fields_ok type_name d l : ∀ fields m, Forall (λ kv, value_ok kv.2) fields →
  safe value_ok (struct_fields_of run type_name d fields m l).
Proof.
  induction l as [|[name e] l IH]; intros fields m Hf; cbn [struct_fields_of]; [by apply safe_new_struct|].
  bind_value. destruct (is_ks_error _); [by apply safely_ret|].
  destruct (d ≫= _) as [[sd f]|]; [|by apply IH, dict_put_ok].
  eapply safely_bind; [apply safe_with_heap|]. intros r _. destruct r.1; [by apply IH, dict_put_ok|].
  eapply safely_bind; [safe_leaf|]. intros; apply safe_failed.
Qed.

Lemma generic_fields_ok d type_name l : ∀ fields, Forall (λ kv, value_ok kv.2.1) fields →
  safe (λ r, match r with inl fields => Forall (λ kv, value_ok kv.2.1) fields | inr v => value_ok v end)
    (generic_fields run d type_name fields l).
Proof.
  induction l as [|[name e] l IH]; intros fields Hf; cbn [generic_fields]; [by apply safely_ret|].
  destruct (bool_decide _); [apply safe_failed|]. destruct (bool_decide _); [apply safe_failed|].
  bind_value. destruct (is_ks_error _); [by apply safely_ret|]. apply IH, Forall_app. split; [done|]. by constructor.
Qed.

Lemma field_evidence_ok d type_name fields l : safe (λ _, True) (field_evidence d type_name fields l).
Proof.
  induction l as [|f l IH]; cbn [field_evidence]; [by apply safely_ret|]. destruct (assoc _ _) as [[v at_field]|]; [|apply safe_failed].
  eapply safely_bind; [safe_leaf|]. intros p _. eapply safely_bind; [apply safe_ask_any|]. intros b _.
  destruct (_ && _); [apply safe_failed|]. eapply safely_bind; [safe_leaf|]. intros t _.
  eapply safely_bind; [apply IH|]. intros rest _. by apply safely_ret.
Qed.

Lemma check_fields_ok d type_name mapping fields l : safe (λ _, True) (check_fields d type_name mapping fields l).
Proof.
  induction l as [|f l IH]; cbn [check_fields]; [by apply safely_ret|]. destruct (assoc _ _) as [[v at_field]|]; [|apply safe_failed].
  eapply safely_bind; [safe_leaf|]. intros p _. cbv zeta. eapply safely_bind; [safe_leaf|]. intros [] _; [done|apply safe_contract_error].
Qed.

Lemma any_capability_ok l : safe (λ _, True) (any_capability l).
Proof.
  induction l as [|v l IH]; cbn [any_capability]; [by apply safely_ret|]. eapply safely_bind; [apply safe_ask_any|].
  intros [] _; [by apply safely_ret|done].
Qed.

Lemma infer_values_ok d evidence b subject values l :
  safe (λ _, True) (infer_values semantic_message d evidence b subject values l).
Proof.
  unfold infer_values, _runtime_mapping_error. safe_steps; [done|].
  eapply safely_bind; [apply any_capability_ok|]. intros inside _. apply inference_failure_ok.
Qed.

Lemma generic_struct_ok d type_name l at_literal :
  safe value_ok (_evaluate_generic_struct semantic_message run d type_name l at_literal).
Proof.
  unfold _evaluate_generic_struct. eapply safely_bind; [by apply generic_fields_ok|]. intros [fields|v] Hf; [|by apply safely_ret].
  cbv zeta. destruct (bool_decide _); [apply safe_failed|]. eapply safely_bind; [apply field_evidence_ok|]. intros evidence _.
  eapply safely_bind; [apply infer_values_ok|]. intros mapping _. eapply safely_bind; [apply check_fields_ok|]. intros _ _.
  apply safe_new_struct, Forall_fmap. done.
Qed.

Lemma safe_struct_in_cell c : safe (λ _, True) (struct_in_cell c).
Proof.
  unfold struct_in_cell. destruct (cell_value c); try apply safe_failed.
  eapply safely_bind; [apply safe_with_heap|intros o _; by apply safely_ret].
Qed.

Lemma safe_set_field loc member v : value_ok v → safe (λ _, True) (update (set_field loc member v)).
Proof.
  intros Hv. apply safe_update. intros s [H1 H2 H3]. split; cbn; [done| |done]. intros o' Ho'%list_elem_of_lookup.
  destruct Ho' as [i Hi]. destruct (decide (i = loc)) as [->|Hn].
  - rewrite list_lookup_alter_eq in Hi. destruct (heap s !! loc) as [o1|] eqn:E; [|done]. injection Hi as <-. cbn.
    apply dict_put_ok; [|done]. by apply H2, (list_elem_of_lookup_2 _ loc).
  - rewrite list_lookup_alter_ne in Hi by done. by apply H2, (list_elem_of_lookup_2 _ i).
Qed.

Lemma assign_field_ok target value l : safe value_ok (assign_field program run target value l).
Proof.
  unfold assign_field. destruct target; try apply safe_failed. destruct target; try apply safe_failed.
  eapply safely_bind; [safe_leaf|]. intros c Hc. destruct (negb _); [apply safe_failed|].
  destruct (cell_value c); try apply safe_failed. eapply safely_bind; [apply safe_struct_in_cell|]. intros o _.
  destruct (bool_decide _); [apply safe_failed|]. bind_value. eapply safely_bind; [safe_leaf|]. intros c' Hc'.
  eapply safely_bind; [apply safe_struct_in_cell|]. intros o' _. eapply (safely_bind _ _ _ (λ _, True)).
  { destruct (context_structs _ !! _); [|by apply safely_ret]. destruct (List.find _ _); [apply safe_require_type|by apply safely_ret]. }
  intros _ _. eapply safely_bind; [by apply safe_set_field|intros _ _; by apply safely_ret].
Qed.

(** ** Operators *)

Lemma of_run_plain r v : of_run r = Done v → is_plain v = true.
Proof. destruct r as [[]|[]|]; try done; by intros [= <-]. Qed.

Lemma repeat_list_ok {A} (P : A → Prop) n l : Forall P l → Forall P (repeat_list n l).
Proof.
  intros H. unfold repeat_list. apply Forall_concat, Forall_forall. intros x [-> _]%elem_of_replicate. done.
Qed.

Lemma repeat_value_ok n v r : value_ok v → repeat_value n v = Done r → value_ok r.
Proof.
  intros Hv. destruct v; try done; intros [= <-]; [plain|]. by apply value_ok_list, repeat_list_ok, list_inside.
Qed.

Lemma sum_values_ok a b r : value_ok a → value_ok b → sum_values a b = Done r → value_ok r.
Proof.
  intros Ha Hb. unfold sum_values. destruct (rvalue_number a), (rvalue_number b); try (intros ?%of_run_plain; by apply value_ok_plain).
  all: destruct a; try done; destruct b; try done; intros [= <-]; try plain; apply value_ok_list, Forall_app; split; by apply list_inside.
Qed.

Lemma multiply_values_ok a b r : value_ok a → value_ok b → multiply_values a b = Done r → value_ok r.
Proof.
  intros Ha Hb. unfold multiply_values. destruct (rvalue_number a) as [[]|], (rvalue_number b) as [[]|]; try done;
    first [by apply repeat_value_ok|intros ?%of_run_plain; by apply value_ok_plain].
Qed.

Lemma divide_ok h a b r : divide limit h a b = Done r → value_ok r.
Proof.
  intros H. apply value_ok_plain. revert H. unfold divide. destruct (values_eq _ _ _ _) as [[]| |]; cbn [mbind outcome_bind]; try done.
  - by intros [= <-].
  - destruct a, b; try done; unfold divide_values; repeat (case_match; try done);
      first [by intros ?%of_run_plain|by intros [= <-]].
Qed.

Lemma rt_boolean_ok (r : rt bool) (f : bool → rvalue) v : (∀ b, is_plain (f b) = true) →
  (b ← r; Done (f b)) = Done v → value_ok v.
Proof. intros Hf. destruct r; try done. intros [= <-]. by apply value_ok_plain. Qed.

Lemma apply_binary_ok h operator a b r : value_ok a → value_ok b → apply_binary limit h operator a b = Done r → value_ok r.
Proof.
  intros Ha Hb. unfold apply_binary. cbv zeta. destruct (int_operation _ _ _) as [z|].
  { intros [= <-]. destruct (in_int64 z); plain. }
  destruct (bool_decide _); [by apply sum_values_ok|].
  destruct (bool_decide _).
  { unfold subtract_values. destruct (rvalue_number a), (rvalue_number b); try done. intros ?%of_run_plain. by apply value_ok_plain. }
  destruct (bool_decide _); [by apply multiply_values_ok|].
  destruct (bool_decide _); [apply divide_ok|].
  repeat (destruct (bool_decide _); [by apply rt_boolean_ok|]). done.
Qed.

Lemma remainder_ok a b : value_ok a → value_ok b → value_ok (remainder a b).
Proof. intros Ha Hb. unfold remainder. repeat (case_match; try done; try plain). Qed.

Lemma binary_operator_ok lhs operator rhs : safe value_ok (_binary limit run lhs operator rhs).
Proof.
  unfold _binary. destruct (bool_decide _).
  { bind_value. bind_value. by apply safely_ret, remainder_ok. }
  bind_value. destruct (is_ks_error a); [by apply safely_ret|].
  assert (∀ stop, safe value_ok (short_circuit run a stop rhs)) as Hs.
  { intros stop. unfold short_circuit. destruct (eqb _ _); [apply safely_ret; plain|]. bind_value. apply safely_ret.
    case_match; [done|plain]. }
  destruct (bool_decide _); [done|]. destruct (bool_decide _); [done|]. bind_value.
  destruct (is_ks_error _); [by apply safely_ret|]. apply safe_check. intros s v _. by apply apply_binary_ok.
Qed.

Lemma unary_operator_ok operator operand : safe value_ok (_unary run operator operand).
Proof.
  unfold _unary. cbv zeta. set (general := _ ← evaluate run operand; _).
  assert (safe value_ok general) as Hg.
  { unfold general. bind_value. destruct (is_ks_error _); [by apply safely_ret|]. apply safe_check. intros s v _.
    unfold apply_unary, negate_value. intros Hv. apply value_ok_plain. revert Hv.
    repeat (case_match; try done); by intros [= <-]. }
  destruct (if bool_decide _ then _ else _); [|done]. destruct (_ =? _); [apply safely_ret; plain|].
  destruct (_ <? _); [apply safely_ret; plain|done].
Qed.

(** ** Members *)

Lemma bind_member_ok allowed receiver name l otherwise : value_ok receiver → safe value_ok otherwise →
  safe value_ok (bind_member allowed receiver name l otherwise).
Proof. intros Hr Ho. unfold bind_member. destruct (bool_decide _); [by apply safely_ret|done]. Qed.

Lemma member_ok receiver name l : value_ok receiver → safe value_ok (_member program receiver name l).
Proof.
  intros Hr. unfold _member, undefined_member. destruct receiver; try apply safe_failed;
    try (apply bind_member_ok; [done|apply safe_failed]).
  - eapply safely_bind; [apply (safe_check _ _ _ (λ o, Forall (λ kv, value_ok kv.2) (struct_value_fields o)))|].
    + intros s o Hs. destruct (heap s !! loc) as [o'|] eqn:E; [|done]. intros [= <-].
      by apply (heap_ok _ _ _ _ Hs), (list_elem_of_lookup_2 _ loc).
    + intros o Ho. destruct (assoc name _) as [v|] eqn:E; [|apply safe_failed]. apply safely_ret. by eapply assoc_ok in E.
  - safe_steps; plain.
  - apply value_ok_capability in Hr. unfold capability_member. cbv zeta. destruct (match c with SystemCaps => _ | _ => _ end) as [r|] eqn:E.
    + apply safely_ret. destruct c; try done. apply assoc_Some in E. apply value_ok_capability, (closed SystemCaps); [done|].
      rewrite !elem_of_cons in E. destruct E as [[= _ ->]|[[= _ ->]|[[= _ ->]|[[= _ ->]|?%elem_of_nil]]]];
         first [exact derives_net|exact derives_disk|exact derives_env|exact derives_process|done].
    + destruct (_ && _); [apply safe_failed|]. destruct (_ && _); [apply safe_failed|].
      apply bind_member_ok; [by apply value_ok_capability|apply safe_failed].
Qed.

(** ** Invocation *)

Lemma construct_generic_ok c arguments l : Forall value_ok arguments →
  safe value_ok (construct_generic semantic_message c arguments l).
Proof.
  intros Ha. unfold construct_generic. cbv zeta.
  eapply (safely_bind _ _ _ (λ _, ∀ v, head arguments = Some v → is_capability v = false)).
  { destruct (head arguments); [|by apply safely_ret]. eapply safely_weaken; [|apply safe_refuse]. by intros ? H v' [= <-]. }
  intros _ Hc. eapply (safely_bind _ _ _ (λ _, True)).
  { repeat case_match; try by apply safely_ret. eapply safely_bind; [safe_leaf|]. intros. by apply safely_ret. }
  intros evidence _. eapply safely_bind; [apply infer_values_ok|]. intros mapping _. eapply (safely_bind _ _ _ (λ _, True)).
  { repeat case_match; try by apply safely_ret. eapply safely_bind; [safe_leaf|]. intros p _. cbv zeta.
    eapply safely_bind; [safe_leaf|]. intros [] _; [by apply safely_ret|apply safe_contract_error]. }
  intros _ _. apply safely_ret. destruct arguments as [|v arguments]; [plain|]. inversion Ha; subst.
  apply value_ok_enum. split; [by apply Hc|done].
Qed.

Lemma construct_ok c arguments l : Forall value_ok arguments → safe value_ok (construct semantic_message c arguments l).
Proof.
  intros Ha. unfold construct. eapply safely_bind; [safe_leaf|]. intros _ _.
  destruct (bool_decide _); [by apply construct_generic_ok|]. unfold construct_plain.
  destruct (constructor_payload c); [|apply safely_ret; plain]. destruct arguments as [|v arguments]; [apply safely_ret; plain|].
  inversion Ha; subst. eapply safely_bind; [safe_leaf|]. intros ? Hc. eapply safely_bind; [safe_leaf|]. intros r _.
  destruct r.1; [by apply safely_ret, value_ok_enum|]. eapply safely_bind; [safe_leaf|]. intros; apply safe_failed.
Qed.

Lemma invoke_text_ok name arguments l : safe value_ok (invoke_text env limit name arguments l).
Proof.
  unfold invoke_text. cbv zeta. assert (∀ k : ustring → act rvalue, (∀ t, safe value_ok (k t)) → safe value_ok (
    _ ← _require_arity name arguments 1 l;
    match arguments with
    | [v] => text ← with_heap (λ h, ks_to_string (float_repr env) limit h v); k text
    | _ => outside name
    end)) as Ht.
  { intros k Hk. eapply safely_bind; [safe_leaf|]. intros _ _. destruct arguments as [|v [|]]; try apply safe_failed.
    eapply safely_bind; [safe_leaf|]. intros t _. apply Hk. }
  destruct (bool_decide _); [apply safe_failed|].
  destruct (bool_decide _); [apply Ht; intros t; eapply safely_bind; [safe_leaf|]; intros; apply safely_ret; plain|].
  destruct (bool_decide _); [apply Ht; intros t; eapply safely_bind; [safe_leaf|]; intros; apply safely_ret; plain|].
  destruct (bool_decide _); [apply Ht; intros t; apply safely_ret; plain|]. apply safe_failed.
Qed.

Lemma invoke_ok callee arguments l : value_ok callee → Forall value_ok arguments →
  safe value_ok (_invoke env program limit semantic_message run callee arguments l).
Proof.
  intros Hc Ha. unfold _invoke. destruct callee; try apply safe_failed.
  - apply invoke_text_ok.
  - by apply construct_ok.
  - by apply call_ok.
  - by apply Hrun.
  - apply invoke_member_ok; [done|apply call_ok|done|done].
Qed.

Lemma match_arms_safe variant payload arms l : (∀ p, payload = Some p → inside_ok p) →
  safe value_ok (match_arms run variant payload arms l).
Proof.
  intros Hp. induction arms as [|[v binding b at_arm] arms IH]; cbn [match_arms]; [apply safe_failed|].
  destruct (negb _); [done|]. apply safe_scoped. eapply (safely_bind _ _ _ (λ _, True)).
  { destruct binding; [|by apply safely_ret]. destruct payload; [|apply safe_failed]. by apply safe_define, inside_value, Hp. }
  intros _ _. unfold arm_body_value. destruct b; by apply Hrun.
Qed.

Lemma match_value_ok value arms l : safe value_ok (match_value run value arms l).
Proof.
  unfold match_value. bind_value. destruct a; try apply safe_failed. apply match_arms_safe. intros p ->. by eapply value_ok_enum.
Qed.

Lemma unwrap_ok v b p : value_ok v → _unwrap_fallible v = Done (b, p) → value_ok p.
Proof.
  intros Hv. unfold _unwrap_fallible. destruct v as [| | | | | | | | |e n [q|] t| | | | | | |]; try (by intros [= _ <-]).
  - apply value_ok_enum in Hv as Hq. apply inside_value in Hq. repeat (case_match; try done); by intros [= _ <-].
  - repeat (case_match; try done); by intros [= _ <-].
Qed.

Lemma fallible_ok value k : (∀ v, value_ok v → safe value_ok (k v)) → safe value_ok (fallible run value k).
Proof.
  intros Hk. unfold fallible. bind_value. eapply safely_bind; [apply (safe_check _ _ _ (λ r, value_ok r.2))|].
  - intros s [b p] _. by apply unwrap_ok.
  - intros [[] p] Hp; [by apply safely_ret|by apply Hk].
Qed.

Lemma evaluate_base_ok e : safe value_ok (_evaluate_base env program limit semantic_message run e).
Proof.
  unfold _evaluate_base. destruct e.
  - apply identifier_ok.
  - apply literal_ok.
  - apply interpolate_ok.
  - by apply struct_fields_ok.
  - by apply list_literal_ok.
  - by apply map_literal_safe.
  - bind_value. by apply member_ok.
  - bind_value. eapply safely_bind; [apply safely_map, evaluate_ok|]. intros vs Hvs. by apply invoke_ok.
  - destruct e1; bind_value; first [by apply safe_assign|apply safe_failed].
  - apply binary_operator_ok.
  - apply unary_operator_ok.
  - apply fallible_ok. intros v Hv. eapply safely_bind; [destruct error; [apply evaluate_ok|by apply safely_ret]|].
    intros r Hr. by apply safe_signalled.
  - apply fallible_ok. intros v Hv. apply evaluate_ok.
  - apply fallible_ok. intros v Hv. by apply Hrun.
  - apply match_value_ok.
Qed.

Lemma evaluate_step_ok e : safe value_ok (_evaluate env program limit semantic_message run e).
Proof.
  assert (safe value_ok (_evaluate_aligned env program limit semantic_message run e)) as Ha.
  { pose proof (safe_reclassified _ _ _ _ _ (evaluate_base_ok e)) as Hb. unfold _evaluate_aligned. destruct e; try exact Hb.
    destruct (context_structs _ !! _); [|exact Hb]. destruct (bool_decide _); [apply generic_struct_ok|exact Hb]. }
  unfold _evaluate. destruct e; try exact Ha.
  - destruct e1; try exact Ha. apply assign_field_ok.
  - destruct (existsb _ _); [apply match_value_ok|exact Ha].
Qed.

Lemma step_ok t : task_ok t → safe value_ok (step env program limit semantic_message run t).
Proof.
  destruct t; intros Ht; cbn [step].
  - apply evaluate_step_ok.
  - apply execute_statement_ok.
  - apply execute_block_ok.
  - by apply call_function_ok.
  - by apply while_step_ok.
Qed.
End step.

Lemma run_ok fuel : ∀ t, task_ok t → safe value_ok (run env program limit semantic_message fuel t).
Proof. induction fuel as [|fuel IH]; intros t Ht; [apply safe_no_fuel|]. by apply step_ok. Qed.
End interpreter.

(** Everything that the frame and the heap of a state hold. *)
Record holds_only (auth : capability → Prop) (s : interp) : Prop := {
  frame_holds : ∀ scope name c, scope ∈ environment s → scope !! name = Some c → value_ok auth (cell_value c);
  heap_holds : ∀ o, o ∈ heap s → Forall (λ kv, value_ok auth kv.2) (struct_value_fields o);
}.

Lemma run_confined env program limit semantic_message auth fuel t s :
  (∀ c d, auth c → derives c d → auth d) → task_ok auth t → holds_only auth s →
  let '(r, s') := run env program limit semantic_message fuel t s in
  (∃ events, trace s' = trace s ++ events ∧ Forall (permitted env auth) events) ∧
  holds_only auth s' ∧ (∀ v, r = Done v ∨ r = Raise (ReturnSignal v) → value_ok auth v).
Proof.
  intros Hc Ht [H1 H2].
  assert (state_ok env auth (trace s) s) as Hs.
  { split; [done|done|]. exists []. by rewrite app_nil_r. }
  destruct (run_ok env auth (trace s) Hc program limit semantic_message fuel t Ht s Hs) as [[K1 K2 K3] K4].
  destruct (run _ _ _ _ _ _ s) as [r s']. cbn [fst snd] in *. split; [done|]. split; [done|].
  intros v [-> | ->]; exact K4.
Qed.

(** C1: Authority is confined.  Take any set of capabilities that is closed under
narrowing.  Whatever program runs, of any task and to any depth, from values that
hold capabilities of this set only: every request to the host is one that a
capability of the set permits, with disk paths below the directory of the
capability and URLs of its origin, writing and deleting never through a read-only
capability; and the results, the frame and the heap hold capabilities of the set
only, none of them inside a list, a map or an enum payload. *)
Theorem authority_confined env program limit semantic_message auth fuel t s :
  (∀ c d, auth c → derives c d → auth d) → task_ok auth t → holds_only auth s →
  let '(r, s') := run env program limit semantic_message fuel t s in
  (∃ events, trace s' = trace s ++ events ∧ Forall (permitted env auth) events) ∧
  holds_only auth s' ∧ (∀ v, r = Done v ∨ r = Raise (ReturnSignal v) → value_ok auth v).
Proof. apply run_confined. Qed.

(** The witness: [disk.read_file("/data/" + name)] through a read-only capability. *)
Definition example_host : host :=
  mk_host (λ _, u "0.0") (λ s, s) (λ _, None) (λ s, s) true (λ _, u "/") (λ _ p, p)
    (λ _ _ parts, DiskOk (join (u "/") parts)) (λ _ _ _, DiskOk []) (λ _ _ _ _, DiskOk tt) (λ _ _ _, DiskOk tt)
    (λ _ _ _, NetResponse [] 200) (λ _ _, None).

Definition example_at : SourceLocation := mk_location 1 1.

Definition read_below : FunctionDeclaration :=
  mk_function (u "read_below")
    [mk_parameter (u "disk") (mk_type_ref [u "DiskReadCaps"] example_at) example_at;
     mk_parameter (u "name") (mk_type_ref [u "String"] example_at) example_at]
    (Some (mk_type_ref [u "String"; u "Error"] example_at))
    (mk_block [ReturnStatement (Some (CallExpression
      (MemberExpression (Identifier (u "disk") example_at) (u "read_file") example_at)
      [BinaryExpression (Literal (LitValue (VText (u "/data/"))) example_at) (u "+") (Identifier (u "name") example_at) example_at]
      example_at)) example_at])
    example_at false [] false.

Definition example_task : task :=
  CallFunction read_below [RCapability (DiskReadCaps (u "/data")); RString (u "a/b")] None None.

Definition example_state : interp := mk_interp [∅] ∅ ∅ 0 [] [].

Definition example_context : program_context := mk_context ∅ ∅ ∅ ∅.

Lemma authority_confined_witness :
  run example_host example_context 100 (λ _, []) 20 example_task example_state =
    (Done (RString (u "a/b")), set_trace [DiskIO DiskRead (u "/data") [u "a"; u "b"]] example_state) ∧
  let '(r, s') := run example_host example_context 100 (λ _, []) 20 example_task example_state in
  (∃ events, trace s' = trace example_state ++ events ∧
    Forall (permitted example_host (λ c, c = DiskReadCaps (u "/data"))) events) ∧
  holds_only (λ c, c = DiskReadCaps (u "/data")) s' ∧
  (∀ v, r = Done v ∨ r = Raise (ReturnSignal v) → value_ok (λ c, c = DiskReadCaps (u "/data")) v).
Proof.
  split; [vm_compute; reflexivity|]. apply authority_confined.
  - intros c d -> H. inversion H.
  - constructor; [by apply value_ok_capability|]. constructor; [by apply value_ok_plain|constructor].
  - split; [|intros o H; inversion H]. intros scope name c ->%list_elem_of_singleton Hl. by rewrite lookup_empty in Hl.
Defined.

(** A program whose [main] asks for the root capability. *)
Definition asks_for_system (program : NativeProgram) : Prop :=
  ∃ f p, f ∈ declarations program ∧ function_name f = u "main" ∧ parameters f = [p] ∧
    names (parameter_type p) = [u "SystemCaps"].

(** What a run of a program may ask of the host. *)
Definition main_permitted (env : host) (program : NativeProgram) (e : event) : Prop :=
  match e with
  | Printed _ => True
  | ScopeOpened _ | EnvRead _ => asks_for_system program
  | DiskIO _ _ parts => asks_for_system program ∧ Forall proper_part parts
  | NetGet origin url => asks_for_system program ∧ _allows env origin url = true
  end.

Lemma function_dict_elem l name f : function_dict l !! name = Some f → f ∈ l ∧ function_name f = name.
Proof.
  unfold function_dict. assert (∀ m : function_table, foldl (λ m f, <[function_name f := f]> m) m l !! name = Some f →
    (f ∈ l ∧ function_name f = name) ∨ m !! name = Some f) as H.
  { induction l as [|g l IH]; intros m; cbn [foldl]; [by right|]. intros [[? ?]|Hm]%IH; [left; split; [by right|done]|].
    destruct (decide (function_name g = name)) as [<-|Hn].
    - rewrite lookup_insert_eq in Hm. injection Hm as <-. left. split; [left|done].
    - rewrite lookup_insert_ne in Hm by done. by right. }
  intros [?|Hm]%H; [done|]. by rewrite lookup_empty in Hm.
Qed.

