(* ===== verification/InterpreterFrame.v ===== *)
(** The frames of the tree interpreter: what every task leaves as it was, on every
way out, and that more fuel does not change a finished run. *)

From Stdlib Require Import Floats.SpecFloat.
From S2P Require Import Prelude TypeSystem Lexer Ast Capability TypeContracts Mir Value NativeRuntime RuntimeValues RuntimeHost.
From S2P Require Import Collections Interpreter.

(** * What is kept *)

(** A scope with the same names, of which the immutable ones keep their values. *)
Definition scope_kept (scope scope' : gmap ustring cell) : Prop := ∀ name,
  match scope !! name, scope' !! name with
  | Some c, Some c' => cell_mutable c' = cell_mutable c ∧ (cell_mutable c = false → c' = c)
  | None, None => True
  | _, _ => False
  end.

(** A struct stays what it is: its fields keep their order, and their values may
change.  (The code may add a field: in [p.x = (p = q)] the value is stored in [q].) *)
Definition same_shape (o o' : struct_value) : Prop :=
  struct_type_name o' = struct_type_name o ∧ struct_type_arguments o' = struct_type_arguments o ∧
  (struct_value_fields o).*1 `prefix_of` (struct_value_fields o').*1.

(** The scopes that are kept: all of them, or all but the innermost. *)
Definition kept_part (whole : bool) (s : interp) : list (gmap ustring cell) :=
  if whole then environment s else tail (environment s).

(** [whole]: all scopes are kept; otherwise the innermost may gain bindings. *)
Record kept (whole : bool) (s s' : interp) : Prop := {
  kept_functions : functions s' = functions s;
  kept_imports : imports s' = imports s;
  kept_depth : depth s' = depth s;
  kept_heap : ∀ loc o, heap s !! loc = Some o → ∃ o', heap s' !! loc = Some o' ∧ same_shape o o';
  kept_trace : trace s `prefix_of` trace s';
  kept_scopes : length (environment s') = length (environment s) ∧
    Forall2 scope_kept (kept_part whole s) (kept_part whole s');
}.

Lemma scope_kept_refl scope : scope_kept scope scope.
Proof. intros name. by destruct (scope !! name). Qed.

Lemma scope_kept_trans a b c : scope_kept a b → scope_kept b c → scope_kept a c.
Proof.
  intros H1 H2 name. specialize (H1 name). specialize (H2 name).
  destruct (a !! name) as [x|], (b !! name) as [y|], (c !! name) as [z|]; try done.
  destruct H1 as [E1 F1], H2 as [E2 F2]. split; [congruence|]. intros H. rewrite F2 by congruence. by apply F1.
Qed.

Lemma same_shape_trans a b c : same_shape a b → same_shape b c → same_shape a c.
Proof. intros (?&?&?) (?&?&?). split_and!; [congruence|congruence|by etrans]. Qed.

Lemma scopes_kept_refl scopes : Forall2 scope_kept scopes scopes.
Proof. induction scopes; constructor; [apply scope_kept_refl|done]. Qed.

Lemma kept_same whole s : kept whole s s.
Proof.
  split; try done.
  - intros loc o H. by exists o.
  - split; [done|]. apply scopes_kept_refl.
Qed.

Lemma kept_chain whole s1 s2 s3 : kept whole s1 s2 → kept whole s2 s3 → kept whole s1 s3.
Proof.
  intros [A1 A2 A3 A4 A5 [A6 A7]] [B1 B2 B3 B4 B5 [B6 B7]]. split; try congruence.
  - intros loc o H. destruct (A4 loc o H) as (o1 & H1 & S1). destruct (B4 loc o1 H1) as (o2 & H2 & S2).
    exists o2. split; [done|by eapply same_shape_trans].
  - by etrans.
  - split; [congruence|]. revert B7. clear -A7. revert A7. generalize (kept_part whole s1).
    generalize (kept_part whole s2) (kept_part whole s3).
    intros l2 l3 l1 H. revert l3. induction H as [|x y l1 l2 Hxy H IH]; intros l3 H3; inversion H3; subst; constructor.
    + by eapply scope_kept_trans.
    + by apply IH.
Qed.

Lemma kept_weaken whole s s' : kept true s s' → kept whole s s'.
Proof.
  intros [A1 A2 A3 A4 A5 [A6 A7]]. split; try done. split; [done|]. destruct whole; [done|].
  unfold kept_part in *. inversion A7; [constructor|done].
Qed.

(** On every way out the computation keeps what it must. *)
Definition keeps {A} (whole : bool) (c : act A) : Prop := ∀ s, kept whole s (c s).2.

(** A computation that does not touch the state. *)
Definition quiet {A} (c : act A) : Prop := ∀ s, (c s).2 = s.

Lemma keeps_quiet {A} whole (c : act A) : quiet c → keeps whole c.
Proof. intros H s. rewrite H. apply kept_same. Qed.

Lemma keeps_weaken {A} whole (c : act A) : keeps true c → keeps whole c.
Proof. intros H s. apply kept_weaken, H. Qed.

Lemma keeps_bind {A B} whole (c : act A) (f : A → act B) :
  keeps whole c → (∀ a, keeps whole (f a)) → keeps whole (c ≫= f).
Proof.
  intros Hc Hf s. specialize (Hc s). unfold mbind, act_bind. destruct (c s) as [[a|g|] s1]; cbn [fst snd] in *; [|done|done].
  eapply kept_chain; [exact Hc|apply Hf].
Qed.

Lemma keeps_catch {A} whole (c : act A) f : keeps whole c → (∀ g, keeps whole (f g)) → keeps whole (catch c f).
Proof.
  intros Hc Hf s. specialize (Hc s). unfold catch. destruct (c s) as [[a|g|] s1]; cbn [fst snd] in *; [done| |done].
  eapply kept_chain; [exact Hc|apply Hf].
Qed.

Lemma keeps_map {A B} whole (f : A → act B) l : (∀ x, keeps whole (f x)) → keeps whole (act_map f l).
Proof.
  intros H. induction l as [|x l IH]; [by apply keeps_quiet|]. cbn [act_map].
  apply keeps_bind; [done|]. intros y. apply keeps_bind; [done|]. intros ys. by apply keeps_quiet.
Qed.

Lemma keeps_request {A} whole e (answer : list event → A) : keeps whole (request e answer).
Proof.
  intros s. cbn. pose proof (kept_same whole s) as [? ? ? ? ? ?]. split; try done. by eexists.
Qed.

Lemma keeps_define name v b : keeps false (define name v b).
Proof.
  intros s. unfold define, update. cbn [fst snd]. pose proof (kept_same false s) as [H1 H2 H3 H4 H5 [H6 H7]].
  destruct (environment s) as [|scope rest] eqn:E; [apply kept_same|]. split; try done; unfold kept_part in *; rewrite E in *; done.
Qed.

Lemma kept_app whole s h' : (∀ loc o, heap s !! loc = Some o → ∃ o', h' !! loc = Some o' ∧ same_shape o o') →
  kept whole s (set_heap h' s).
Proof. intros H. pose proof (kept_same whole s) as [? ? ? ? ? ?]. by split. Qed.

Lemma keeps_new_struct whole name fields args : keeps whole (new_struct name fields args).
Proof.
  intros s. apply kept_app. intros loc o H. exists o. split; [by apply lookup_app_l_Some|done].
Qed.

Lemma replace_cell_kept scopes name c v : find_cell scopes name = Some c → cell_mutable c = true →
  Forall2 scope_kept scopes (replace_cell scopes name (mk_cell v true)).
Proof.
  induction scopes as [|scope scopes IH]; [done|]. cbn [find_cell replace_cell]. destruct (scope !! name) as [c'|] eqn:E.
  - intros [= ->] Hm. constructor.
    + intros n. destruct (decide (n = name)) as [->|Hn].
      * rewrite E, lookup_insert_eq. cbn. split; [done|congruence].
      * rewrite lookup_insert_ne by done. apply scope_kept_refl.
    + apply scopes_kept_refl.
  - intros H Hm. constructor; [apply scope_kept_refl|by apply IH].
Qed.

Lemma keeps_assign name v l : keeps true (assign name v l).
Proof.
  intros s. unfold assign, resolve, ask, update, mbind, act_bind. cbn [fst snd].
  destruct (find_cell (environment s) name) as [c|] eqn:E; [|apply kept_same]. cbn [mret act_ret fst snd].
  destruct (cell_mutable c) eqn:Em; cbn [negb fst snd error failed signalled]; [|apply kept_same].
  pose proof (kept_same true s) as [? ? ? ? ? _]. pose proof (replace_cell_kept _ _ _ v E Em) as H. split; try done.
  split; [|done]. symmetry. by eapply Forall2_length.
Qed.

Lemma keeps_scoped {A} whole (c : act A) : keeps false c → keeps whole (scoped c).
Proof.
  intros H. apply keeps_weaken. intros s. unfold scoped, update, mbind, act_bind, ensure. cbn [fst snd].
  specialize (H (push_scope s)). destruct (c (push_scope s)) as [r s1]. cbn [fst snd] in *.
  destruct H as [H1 H2 H3 H4 H5 [H6 H7]]. split; try done. cbn in *. split; [|done].
  symmetry. by eapply Forall2_length.
Qed.

(** Automation: the structure of a computation, then its leaves. *)
Lemma keeps_ret {A} whole (a : A) : keeps whole (mret a).
Proof. by apply keeps_quiet. Qed.

Lemma keeps_signalled {A} whole g : keeps whole (signalled (A := A) g).
Proof. by apply keeps_quiet. Qed.

Lemma keeps_ask {A} whole (f : interp → A) : keeps whole (ask f).
Proof. by apply keeps_quiet. Qed.

Lemma keeps_check {A} whole (f : interp → rt A) : keeps whole (check f).
Proof. by apply keeps_quiet. Qed.

Lemma keeps_of_contract {A} whole (r : contract_result A) : keeps whole (of_contract r).
Proof. by apply keeps_quiet. Qed.

Lemma keeps_no_fuel {A} whole : keeps (A := A) whole (λ s, (NoFuel, s)).
Proof. by apply keeps_quiet. Qed.

Ltac keeps_step :=
  match goal with
  | |- keeps _ (mret _) => apply keeps_ret
  | |- keeps _ (signalled _) => apply keeps_signalled
  | |- keeps _ (failed _) => apply keeps_signalled
  | |- keeps _ (error _ _ _) => apply keeps_signalled
  | |- keeps _ (outside _) => apply keeps_signalled
  | |- keeps _ (ask _) => apply keeps_ask
  | |- keeps _ (contains_capability _) => apply keeps_ask
  | |- keeps _ (check _) => apply keeps_check
  | |- keeps _ (with_heap _) => apply keeps_check
  | |- keeps _ (type_name_of _) => apply keeps_check
  | |- keeps _ (of_contract _) => apply keeps_of_contract
  | |- keeps _ (λ _, (NoFuel, _)) => apply keeps_no_fuel
  | |- keeps _ (mbind _ _) => apply keeps_bind; [|intros ?]
  | |- keeps _ (catch _ _) => apply keeps_catch; [|intros ?]
  | |- keeps _ (reclassified _) => apply keeps_catch; [|intros ?]
  | |- keeps _ (act_map _ _) => apply keeps_map; intros ?
  | |- keeps _ (request _ _) => apply keeps_request
  | |- keeps _ (scoped _) => apply keeps_scoped
  | |- keeps _ (new_struct _ _ _) => apply keeps_new_struct
  | |- keeps _ (define _ _ _) => apply keeps_define
  | |- keeps _ (if bool_decide ?x then _ else _) => destruct (bool_decide x)
  | |- keeps _ (match ?x with _ => _ end) => destruct x
  | |- keeps _ ((λ _, _) _) => cbv beta
  end.

(** The lemmas of the operations, by the head of the computation. *)
Create HintDb keeps discriminated.
#[export] Hint Constants Opaque : keeps.

Ltac keeps_steps := repeat first [keeps_step | solve [auto 2 with keeps nocore]].

Section operations.
Context (env : host) (limit : nat) (whole : bool).

Lemma keeps_refuse v m l : keeps whole (refuse_capability v m l).
Proof. unfold refuse_capability. keeps_steps. Qed.
#[local] Hint Resolve keeps_refuse : keeps.

Lemma keeps_arity name arguments n l : keeps whole (_require_arity name arguments n l).
Proof. unfold _require_arity. keeps_steps. Qed.
#[local] Hint Resolve keeps_arity : keeps.

Lemma keeps_contract_error {A} subject expected v l :
  keeps whole (A := A) (_raise_runtime_contract_error subject expected v l).
Proof. unfold _raise_runtime_contract_error. keeps_steps. Qed.
#[local] Hint Resolve keeps_contract_error : keeps.

Lemma keeps_require_type subject expected v l : keeps whole (require_type subject expected v l).
Proof. unfold require_type. keeps_steps. Qed.
#[local] Hint Resolve keeps_require_type : keeps.

Lemma keeps_capability_method c name arguments l : keeps whole (capability_method env c name arguments l).
Proof.
  unfold capability_method, one_text, path_and_value, invalid_call, open_scope, net_get_url, environment_get, read_file,
    list_directory, write_file, delete_file, _scope_then_deny, in_scope, disk_io. cbv zeta. keeps_steps.
Qed.
#[local] Hint Resolve keeps_capability_method : keeps.

Lemma keeps_string_method s name arguments l : keeps whole (string_method env s name arguments l).
Proof. unfold string_method, convert_text. cbv zeta. keeps_steps. Qed.
#[local] Hint Resolve keeps_string_method : keeps.

Lemma keeps_map_method entries name arguments l : keeps whole (map_method entries name arguments l).
Proof. unfold map_method. cbv zeta. keeps_steps. Qed.
#[local] Hint Resolve keeps_map_method : keeps.

Lemma keeps_difference l1 : ∀ i l2, keeps whole (difference_from limit i l1 l2).
Proof. induction l1 as [|x l1 IH]; intros i [|y l2]; cbn [difference_from]; keeps_steps; apply IH. Qed.
#[local] Hint Resolve keeps_difference : keeps.

Lemma keeps_any_equal c l : keeps whole (any_equal limit c l).
Proof. induction l as [|x l IH]; cbn [any_equal]; keeps_steps; apply IH. Qed.
#[local] Hint Resolve keeps_any_equal : keeps.

Lemma keeps_unique l : ∀ result, keeps whole (unique_from limit result l).
Proof. induction l as [|x l IH]; intros result; cbn [unique_from]; keeps_steps; apply IH. Qed.
#[local] Hint Resolve keeps_unique : keeps.

Section callbacks.
Context (call : FunctionDeclaration → list rvalue → act rvalue) (Hcall : ∀ f args, keeps whole (call f args)).

Lemma keeps_decide method f x k : (∀ b, keeps whole (k b)) → keeps whole (decide_item call method f x k).
Proof. intros H. unfold decide_item. apply keeps_bind; [apply Hcall|intros []; first [apply H|keeps_steps]]. Qed.
#[local] Hint Resolve keeps_decide : keeps.

Lemma keeps_filter f l : ∀ out, keeps whole (filter_items call f out l).
Proof. induction l as [|x l IH]; intros out; cbn [filter_items]; [keeps_steps|]. apply keeps_decide. intros []; apply IH. Qed.
#[local] Hint Resolve keeps_filter : keeps.

Lemma keeps_find f l : keeps whole (find_item call f l).
Proof. induction l as [|x l IH]; cbn [find_item]; [keeps_steps|]. apply keeps_decide. intros []; [keeps_steps|apply IH]. Qed.
#[local] Hint Resolve keeps_find : keeps.

Lemma keeps_any f l : keeps whole (any_matches call f l).
Proof. induction l as [|x l IH]; cbn [any_matches]; [keeps_steps|]. apply keeps_decide. intros []; [keeps_steps|apply IH]. Qed.
#[local] Hint Resolve keeps_any : keeps.

Lemma keeps_partition f l : ∀ a b, keeps whole (partition_items call f a b l).
Proof. induction l as [|x l IH]; intros a b; cbn [partition_items]; [keeps_steps|]. apply keeps_decide. intros []; apply IH. Qed.
#[local] Hint Resolve keeps_partition : keeps.

Lemma keeps_map_items f l0 l : ∀ out, keeps whole (map_items call f l0 out l).
Proof.
  induction l as [|x l IH]; intros out; cbn [map_items]; keeps_steps; first [apply Hcall|apply IH].
Qed.
#[local] Hint Resolve keeps_map_items : keeps.

Lemma keeps_scan f l0 l : ∀ acc out, keeps whole (scan_items call f l0 acc out l).
Proof.
  induction l as [|x l IH]; intros acc out; cbn [scan_items]; keeps_steps; first [apply Hcall|apply IH].
Qed.
#[local] Hint Resolve keeps_scan : keeps.

Lemma keeps_list_method items name arguments l : keeps whole (list_method limit call items name arguments l).
Proof.
  unfold list_method, with_callback, list_sort. cbv zeta.
  keeps_steps.
Qed.
#[local] Hint Resolve keeps_list_method : keeps.
End callbacks.

Lemma keeps_invoke_member call receiver name l arguments : (∀ f args, keeps whole (call f args)) →
  keeps whole (_invoke_member env limit call receiver name l arguments).
Proof. intros Hcall. unfold _invoke_member, response_method, invalid_call. destruct receiver; keeps_steps. by apply keeps_list_method. Qed.
End operations.

#[local] Hint Resolve keeps_refuse keeps_arity keeps_contract_error keeps_require_type keeps_invoke_member : keeps.

(** * The interpreter *)

Section interpreter.
Context (env : host) (program : program_context) (limit : nat) (semantic_message : contract_error → ustring).

(** What a task may change: a statement, and a block without a scope of its own,
bind names in the innermost scope. *)
Definition keeps_all (t : task) : bool :=
  match t with Execute _ | ExecuteBlock _ false => false | _ => true end.

Section step.
Context (run : task → act rvalue) (Hrun : ∀ t, keeps (keeps_all t) (run t)).

Lemma keeps_run whole t : keeps_all t = true → keeps whole (run t).
Proof. intros H. apply keeps_weaken. rewrite <- H. apply Hrun. Qed.

Lemma keeps_evaluate whole e : keeps whole (evaluate run e).
Proof. by apply keeps_run. Qed.

Lemma keeps_call whole f arguments : keeps whole (call_function run f arguments).
Proof. by apply keeps_run. Qed.
#[local] Hint Resolve keeps_evaluate keeps_call : keeps.
#[local] Hint Extern 1 (keeps _ (run _)) => by apply keeps_run : keeps.

Lemma keeps_inference_failure {A} whole subject l1 l2 b e l :
  keeps whole (inference_failure (A := A) semantic_message subject l1 l2 b e l).
Proof. unfold inference_failure. keeps_steps. Qed.
#[local] Hint Resolve keeps_inference_failure : keeps.

Lemma keeps_call_generic whole f arguments ns ims : keeps whole (call_generic semantic_message run f arguments ns ims).
Proof. unfold call_generic. keeps_steps. Qed.
#[local] Hint Resolve keeps_call_generic : keeps.

Lemma keeps_check_parameters whole name params : ∀ arguments, keeps whole (check_parameters name params arguments).
Proof. induction params as [|p params IH]; intros [|v arguments]; cbn [check_parameters]; keeps_steps. Qed.
#[local] Hint Resolve keeps_check_parameters : keeps.

Lemma keeps_define_parameters params : ∀ arguments, keeps false (define_parameters params arguments).
Proof. induction params as [|p params IH]; intros [|v arguments]; cbn [define_parameters]; keeps_steps. Qed.

Lemma keeps_call_body f arguments : keeps false (call_body run f arguments).
Proof.
  unfold call_body. apply keeps_bind; [apply keeps_define_parameters|intros _]. keeps_steps.
  apply (Hrun (ExecuteBlock _ false)).
Qed.

(** The frame of the caller is back on every way out of a call. *)
Lemma keeps_call_function f arguments ns ims : keeps true (_call_function semantic_message run f arguments ns ims).
Proof.
  unfold _call_function. destruct (bool_decide _); [keeps_steps|]. destruct (negb _); [keeps_steps|].
  apply keeps_bind; [keeps_steps|intros _]. intros s. unfold ask, mbind, act_bind. destruct (_ <=? _); [apply kept_same|].
  unfold update, ensure.
  pose proof (keeps_call_body f arguments (set_frame [∅] (default (functions s) ns) (default (imports s) ims) (depth s + 1) s)) as H.
  destruct (call_body _ _ _ _) as [r s1]. cbn [fst snd] in *. destruct H as [H1 H2 H3 H4 H5 _]. cbn in *.
  split; try done; cbn; [lia|]. split; [done|]. apply scopes_kept_refl.
Qed.

Lemma keeps_execute_all whole l : whole = false → ∀ result, keeps whole (execute_all run result l).
Proof.
  intros ->. induction l as [|x l IH]; intros result; cbn [execute_all]; keeps_steps. apply (Hrun (Execute x)).
Qed.

Lemma keeps_execute_block b c : keeps c (_execute_block run b c).
Proof. unfold _execute_block. destruct c; [apply keeps_scoped|]; by apply keeps_execute_all. Qed.

Lemma keeps_loop_body whole c : keeps whole c → keeps whole (loop_body c).
Proof. intros H. unfold loop_body. keeps_steps. Qed.

Lemma keeps_for_items whole variable b items : ∀ result, keeps whole (for_items run variable b result items).
Proof.
  induction items as [|item items IH]; intros result; cbn [for_items]; keeps_steps.
  apply keeps_loop_body, (Hrun (ExecuteBlock _ false)).
Qed.
#[local] Hint Resolve keeps_for_items : keeps.

Lemma keeps_while_step condition b result : keeps true (while_step run condition b result).
Proof. unfold while_step. keeps_steps. by apply keeps_loop_body, keeps_run. Qed.

Lemma keeps_execute_statement s : keeps false (_execute_statement run s).
Proof. unfold _execute_statement. keeps_steps. apply (Hrun (Execute _)). Qed.

(** ** Expressions *)

Lemma keeps_resolve whole name l : keeps whole (resolve name l).
Proof. unfold resolve. keeps_steps. Qed.
#[local] Hint Resolve keeps_resolve : keeps.

Lemma keeps_assign_any whole name v l : keeps whole (assign name v l).
Proof. apply keeps_weaken, keeps_assign. Qed.
#[local] Hint Resolve keeps_assign_any : keeps.

Lemma keeps_literal whole v : keeps whole (literal_value v).
Proof. unfold literal_value. keeps_steps. Qed.

Lemma keeps_identifier whole name l : keeps whole (identifier_value program name l).
Proof. unfold identifier_value. keeps_steps. Qed.

Lemma keeps_interpolate whole parts : keeps whole (interpolate env limit run parts).
Proof. unfold interpolate. keeps_steps. Qed.

Lemma keeps_list_literal whole l : ∀ items, keeps whole (list_literal run items l).
Proof. induction l as [|e l IH]; intros items; cbn [list_literal]; keeps_steps. Qed.

Lemma keeps_map_literal whole l : ∀ entries, keeps whole (map_literal run entries l).
Proof. induction l as [|[k e] l IH]; intros entries; cbn [map_literal]; keeps_steps. Qed.

Lemma keeps_match_field whole d v f m : keeps whole (match_field d v f m).
Proof. apply keeps_check. Qed.
#[local] Hint Resolve keeps_literal keeps_identifier keeps_interpolate keeps_list_literal keeps_map_literal keeps_match_field : keeps.

Lemma keeps_struct_fields whole type_name d l : ∀ fields m, keeps whole (struct_fields_of run type_name d fields m l).
Proof. induction l as [|[k e] l IH]; intros fields m; cbn [struct_fields_of]; keeps_steps. Qed.

Lemma keeps_generic_fields whole d type_name l : ∀ fields, keeps whole (generic_fields run d type_name fields l).
Proof. induction l as [|[k e] l IH]; intros fields; cbn [generic_fields]; keeps_steps. Qed.

Lemma keeps_field_evidence whole d type_name fields l : keeps whole (field_evidence d type_name fields l).
Proof. induction l as [|f l IH]; cbn [field_evidence]; keeps_steps. Qed.

Lemma keeps_check_fields whole d type_name mapping fields l : keeps whole (check_fields d type_name mapping fields l).
Proof. induction l as [|f l IH]; cbn [check_fields]; keeps_steps. Qed.

Lemma keeps_any_capability whole l : keeps whole (any_capability l).
Proof. induction l as [|v l IH]; cbn [any_capability]; keeps_steps. Qed.
#[local] Hint Resolve keeps_struct_fields keeps_generic_fields keeps_field_evidence keeps_check_fields keeps_any_capability : keeps.

Lemma keeps_infer_values whole d evidence b subject values l :
  keeps whole (infer_values semantic_message d evidence b subject values l).
Proof. unfold infer_values, _runtime_mapping_error. keeps_steps. Qed.
#[local] Hint Resolve keeps_infer_values : keeps.

Lemma keeps_generic_struct whole d type_name l at_literal :
  keeps whole (_evaluate_generic_struct semantic_message run d type_name l at_literal).
Proof. unfold _evaluate_generic_struct. keeps_steps. Qed.
#[local] Hint Resolve keeps_generic_struct : keeps.

Lemma dict_put_keys {A} (l : list (ustring * A)) k v : l.*1 `prefix_of` (dict_put l k v).*1.
Proof.
  induction l as [|[k' x] l IH]; cbn; [apply prefix_nil|]. destruct (decide _) as [->|E]; cbn; [done|].
  by apply prefix_cons.
Qed.

Lemma keeps_set_field whole loc member v : keeps whole (update (set_field loc member v)).
Proof.
  intros s. apply kept_app. intros loc' o Ho. destruct (decide (loc' = loc)) as [->|Hn].
  - eexists. split; [by rewrite list_lookup_alter_eq, Ho|]. split; [done|]. split; [done|]. apply dict_put_keys.
  - exists o. split; [by rewrite list_lookup_alter_ne|done].
Qed.
#[local] Hint Resolve keeps_set_field : keeps.

Lemma keeps_assign_field whole target value l : keeps whole (assign_field program run target value l).
Proof. unfold assign_field, struct_in_cell. cbv zeta. keeps_steps. Qed.
#[local] Hint Resolve keeps_assign_field : keeps.

(** ** Operators, members, calls and matches *)

Lemma keeps_binary whole lhs operator rhs : keeps whole (_binary limit run lhs operator rhs).
Proof. unfold _binary, short_circuit. keeps_steps. Qed.

Lemma keeps_unary whole operator operand : keeps whole (_unary run operator operand).
Proof. unfold _unary. cbv zeta. keeps_steps. Qed.

Lemma keeps_member whole receiver name l : keeps whole (_member program receiver name l).
Proof. unfold _member, capability_member, bind_member, undefined_member. keeps_steps. Qed.

Lemma keeps_construct whole c arguments l : keeps whole (construct semantic_message c arguments l).
Proof. unfold construct, construct_generic, construct_plain. keeps_steps. Qed.

Lemma keeps_invoke_text whole name arguments l : keeps whole (invoke_text env limit name arguments l).
Proof. unfold invoke_text. cbv zeta. keeps_steps. Qed.
#[local] Hint Resolve keeps_binary keeps_unary keeps_member keeps_construct keeps_invoke_text : keeps.

Lemma keeps_invoke whole callee arguments l : keeps whole (_invoke env program limit semantic_message run callee arguments l).
Proof. unfold _invoke. keeps_steps. Qed.

Lemma keeps_match_arms whole variant payload arms l : keeps whole (match_arms run variant payload arms l).
Proof. induction arms as [|[v binding b at_arm] arms IH]; cbn [match_arms]; [keeps_steps|]. unfold arm_body_value. keeps_steps. Qed.
#[local] Hint Resolve keeps_invoke keeps_match_arms : keeps.

Lemma keeps_match_value whole value arms l : keeps whole (match_value run value arms l).
Proof. unfold match_value. keeps_steps. Qed.
#[local] Hint Resolve keeps_match_value : keeps.

Lemma keeps_evaluate_base whole e : keeps whole (_evaluate_base env program limit semantic_message run e).
Proof. unfold _evaluate_base, fallible. keeps_steps. Qed.
#[local] Hint Resolve keeps_evaluate_base : keeps.

Lemma keeps_evaluate_step whole e : keeps whole (_evaluate env program limit semantic_message run e).
Proof. unfold _evaluate, _evaluate_aligned. keeps_steps. Qed.

Lemma keeps_step_task t : keeps (keeps_all t) (step env program limit semantic_message run t).
Proof.
  destruct t as [e|s|b []|f arguments ns ims|c b r]; cbn [step keeps_all].
  - apply keeps_evaluate_step.
  - apply keeps_execute_statement.
  - apply keeps_execute_block.
  - apply keeps_execute_block.
  - apply keeps_call_function.
  - apply keeps_while_step.
Qed.
End step.

Lemma keeps_task fuel : ∀ t, keeps (keeps_all t) (run env program limit semantic_message fuel t).
Proof. induction fuel as [|fuel IH]; intros t; [apply keeps_no_fuel|]. by apply keeps_step_task. Qed.
End interpreter.

