(* ===== verification/InterpreterFuel.v ===== *)
(** The fuel of the tree interpreter: a run that ends with some fuel is the same run
with more, so that fuel bounds the depth of the recursion and changes nothing else. *)

From Stdlib Require Import Floats.SpecFloat.
From S2P Require Import Prelude TypeSystem Lexer Ast Capability TypeContracts Mir Value NativeRuntime RuntimeValues RuntimeHost.
From S2P Require Import Collections Interpreter.

(** [c] has run out of fuel, or does what [c'] does. *)
Definition approximates {A} (c c' : act A) : Prop := ∀ s, (c s).1 = NoFuel ∨ c s = c' s.

Lemma approximates_refl {A} (c : act A) : approximates c c.
Proof. intros s. by right. Qed.

Lemma approximates_no_fuel {A} (c : act A) : approximates (λ s, (NoFuel, s)) c.
Proof. intros s. by left. Qed.

Lemma approximates_bind {A B} (c c' : act A) (f f' : A → act B) :
  approximates c c' → (∀ a, approximates (f a) (f' a)) → approximates (c ≫= f) (c' ≫= f').
Proof.
  intros Hc Hf s. unfold mbind, act_bind. destruct (Hc s) as [H|<-].
  - left. destruct (c s) as [[]]; cbn in H; by inversion H.
  - destruct (c s) as [[a|g|] s1]; [apply Hf|by right|by left].
Qed.

Lemma approximates_catch {A} (c c' : act A) f : approximates c c' → approximates (catch c f) (catch c' f).
Proof.
  intros Hc s. unfold catch. destruct (Hc s) as [H|<-]; [|by right].
  left. destruct (c s) as [[]]; cbn in H; by inversion H.
Qed.

Lemma approximates_ensure {A} (c c' : act A) f : approximates c c' → approximates (ensure c f) (ensure c' f).
Proof.
  intros Hc s. unfold ensure. destruct (Hc s) as [H|<-]; [|by right].
  left. by destruct (c s).
Qed.

Lemma approximates_map {A B} (f f' : A → act B) l : (∀ x, approximates (f x) (f' x)) → approximates (act_map f l) (act_map f' l).
Proof.
  intros H. induction l as [|x l IH]; cbn [act_map]; [apply approximates_refl|].
  apply approximates_bind; [done|intros y]. apply approximates_bind; [done|intros ys]. apply approximates_refl.
Qed.

Lemma approximates_scoped {A} (c c' : act A) : approximates c c' → approximates (scoped c) (scoped c').
Proof. intros H. apply approximates_bind; [apply approximates_refl|intros _]. by apply approximates_ensure. Qed.

(** Automation: equal parts, the structure of a computation, the lemmas by head. *)
Create HintDb fuel discriminated.
#[export] Hint Constants Opaque : fuel.

Ltac fuel_step :=
  match goal with
  | |- approximates ?c ?d => constr_eq c d; apply approximates_refl
  | |- approximates (mbind _ _) (mbind _ _) => apply approximates_bind; [|intros ?]
  | |- approximates (catch _ _) (catch _ _) => apply approximates_catch
  | |- approximates (ensure _ _) (ensure _ _) => apply approximates_ensure
  | |- approximates (reclassified _) (reclassified _) => apply approximates_catch
  | |- approximates (act_map _ _) (act_map _ _) => apply approximates_map; intros ?
  | |- approximates (scoped _) (scoped _) => apply approximates_scoped
  | |- approximates (if bool_decide ?x then _ else _) _ => destruct (bool_decide x)
  | |- approximates (match ?x with _ => _ end) _ => destruct x
  | |- approximates ((λ _, _) _) _ => cbv beta
  end.

Ltac fuel_steps := repeat first [fuel_step | solve [auto 2 with fuel nocore]].

Section callbacks.
Context (env : host) (limit : nat) (call call' : FunctionDeclaration → list rvalue → act rvalue).
Context (Hcall : ∀ f arguments, approximates (call f arguments) (call' f arguments)).

Lemma fuel_decide method f x k k' : (∀ b, approximates (k b) (k' b)) →
  approximates (decide_item call method f x k) (decide_item call' method f x k').
Proof. intros H. unfold decide_item. fuel_steps. Qed.

Lemma fuel_filter f l : ∀ out, approximates (filter_items call f out l) (filter_items call' f out l).
Proof. induction l as [|x l IH]; intros out; cbn [filter_items]; [fuel_steps|]. apply fuel_decide. intros []; apply IH. Qed.

Lemma fuel_find f l : approximates (find_item call f l) (find_item call' f l).
Proof. induction l as [|x l IH]; cbn [find_item]; [fuel_steps|]. apply fuel_decide. intros []; fuel_steps. Qed.

Lemma fuel_any f l : approximates (any_matches call f l) (any_matches call' f l).
Proof. induction l as [|x l IH]; cbn [any_matches]; [fuel_steps|]. apply fuel_decide. intros []; fuel_steps. Qed.

Lemma fuel_partition f l : ∀ a b, approximates (partition_items call f a b l) (partition_items call' f a b l).
Proof. induction l as [|x l IH]; intros a b; cbn [partition_items]; [fuel_steps|]. apply fuel_decide. intros []; apply IH. Qed.

Lemma fuel_map_items f l0 l : ∀ out, approximates (map_items call f l0 out l) (map_items call' f l0 out l).
Proof. induction l as [|x l IH]; intros out; cbn [map_items]; fuel_steps. Qed.

Lemma fuel_scan f l0 l : ∀ acc out, approximates (scan_items call f l0 acc out l) (scan_items call' f l0 acc out l).
Proof. induction l as [|x l IH]; intros acc out; cbn [scan_items]; fuel_steps. Qed.
#[local] Hint Resolve fuel_filter fuel_find fuel_any fuel_partition fuel_map_items fuel_scan : fuel.

Lemma fuel_list_method items name arguments l :
  approximates (list_method limit call items name arguments l) (list_method limit call' items name arguments l).
Proof. unfold list_method, with_callback. cbv zeta. fuel_steps. Qed.

Lemma fuel_invoke_member receiver name l arguments :
  approximates (_invoke_member env limit call receiver name l arguments) (_invoke_member env limit call' receiver name l arguments).
Proof. destruct receiver; cbn [_invoke_member]; fuel_steps. apply fuel_list_method. Qed.
End callbacks.

Section interpreter.
Context (env : host) (program : program_context) (limit : nat) (semantic_message : contract_error → ustring).

Section step.
Context (run run' : task → act rvalue) (Hrun : ∀ t, approximates (run t) (run' t)).

Lemma fuel_evaluate e : approximates (evaluate run e) (evaluate run' e).
Proof. apply Hrun. Qed.

Lemma fuel_call f arguments : approximates (call_function run f arguments) (call_function run' f arguments).
Proof. apply Hrun. Qed.
#[local] Hint Resolve fuel_evaluate fuel_call fuel_invoke_member : fuel.

Lemma fuel_call_generic f arguments ns ims :
  approximates (call_generic semantic_message run f arguments ns ims) (call_generic semantic_message run' f arguments ns ims).
Proof. unfold call_generic. fuel_steps. Qed.

Lemma fuel_call_body f arguments : approximates (call_body run f arguments) (call_body run' f arguments).
Proof. unfold call_body. fuel_steps. Qed.
#[local] Hint Resolve fuel_call_generic fuel_call_body : fuel.

Lemma fuel_call_function f arguments ns ims :
  approximates (_call_function semantic_message run f arguments ns ims) (_call_function semantic_message run' f arguments ns ims).
Proof. unfold _call_function. fuel_steps. Qed.

Lemma fuel_execute_all l : ∀ result, approximates (execute_all run result l) (execute_all run' result l).
Proof. induction l as [|x l IH]; intros result; cbn [execute_all]; fuel_steps. Qed.
#[local] Hint Resolve fuel_execute_all : fuel.

Lemma fuel_execute_block b c : approximates (_execute_block run b c) (_execute_block run' b c).
Proof. unfold _execute_block. fuel_steps. Qed.

Lemma fuel_for_items variable b items : ∀ result, approximates (for_items run variable b result items) (for_items run' variable b result items).
Proof. induction items as [|item items IH]; intros result; cbn [for_items]; unfold loop_body; fuel_steps. Qed.
#[local] Hint Resolve fuel_for_items : fuel.

Lemma fuel_while_step condition b result : approximates (while_step run condition b result) (while_step run' condition b result).
Proof. unfold while_step, loop_body. fuel_steps. Qed.

Lemma fuel_execute_statement s : approximates (_execute_statement run s) (_execute_statement run' s).
Proof. unfold _execute_statement. fuel_steps. Qed.

(** ** Expressions *)

Lemma fuel_interpolate parts : approximates (interpolate env limit run parts) (interpolate env limit run' parts).
Proof. unfold interpolate. fuel_steps. Qed.

Lemma fuel_list_literal l : ∀ items, approximates (list_literal run items l) (list_literal run' items l).
Proof. induction l as [|e l IH]; intros items; cbn [list_literal]; fuel_steps. Qed.

Lemma fuel_map_literal l : ∀ entries, approximates (map_literal run entries l) (map_literal run' entries l).
Proof. induction l as [|[k e] l IH]; intros entries; cbn [map_literal]; fuel_steps. Qed.

Lemma fuel_struct_fields type_name d l : ∀ fields m,
  approximates (struct_fields_of run type_name d fields m l) (struct_fields_of run' type_name d fields m l).
Proof. induction l as [|[k e] l IH]; intros fields m; cbn [struct_fields_of]; fuel_steps. Qed.

Lemma fuel_generic_fields d type_name l : ∀ fields,
  approximates (generic_fields run d type_name fields l) (generic_fields run' d type_name fields l).
Proof. induction l as [|[k e] l IH]; intros fields; cbn [generic_fields]; fuel_steps. Qed.
#[local] Hint Resolve fuel_interpolate fuel_list_literal fuel_map_literal fuel_struct_fields fuel_generic_fields : fuel.

Lemma fuel_generic_struct d type_name l at_literal :
  approximates (_evaluate_generic_struct semantic_message run d type_name l at_literal)
    (_evaluate_generic_struct semantic_message run' d type_name l at_literal).
Proof. unfold _evaluate_generic_struct. fuel_steps. Qed.

Lemma fuel_assign_field target value l : approximates (assign_field program run target value l) (assign_field program run' target value l).
Proof. unfold assign_field. fuel_steps. Qed.

Lemma fuel_binary lhs operator rhs : approximates (_binary limit run lhs operator rhs) (_binary limit run' lhs operator rhs).
Proof. unfold _binary, short_circuit. fuel_steps. Qed.

Lemma fuel_unary operator operand : approximates (_unary run operator operand) (_unary run' operator operand).
Proof. unfold _unary. cbv zeta. fuel_steps. Qed.

Lemma fuel_invoke callee arguments l :
  approximates (_invoke env program limit semantic_message run callee arguments l)
    (_invoke env program limit semantic_message run' callee arguments l).
Proof. unfold _invoke. fuel_steps. Qed.

Lemma fuel_match_arms variant payload arms l : approximates (match_arms run variant payload arms l) (match_arms run' variant payload arms l).
Proof. induction arms as [|[v binding b at_arm] arms IH]; cbn [match_arms]; unfold arm_body_value; fuel_steps. Qed.
#[local] Hint Resolve fuel_generic_struct fuel_assign_field fuel_binary fuel_unary fuel_invoke fuel_match_arms : fuel.

Lemma fuel_match_value value arms l : approximates (match_value run value arms l) (match_value run' value arms l).
Proof. unfold match_value. fuel_steps. Qed.
#[local] Hint Resolve fuel_match_value : fuel.

Lemma fuel_evaluate_base e :
  approximates (_evaluate_base env program limit semantic_message run e) (_evaluate_base env program limit semantic_message run' e).
Proof. unfold _evaluate_base, fallible. fuel_steps. Qed.
#[local] Hint Resolve fuel_evaluate_base : fuel.

Lemma fuel_evaluate_step e :
  approximates (_evaluate env program limit semantic_message run e) (_evaluate env program limit semantic_message run' e).
Proof. unfold _evaluate, _evaluate_aligned. fuel_steps. Qed.

Lemma fuel_step_task t : approximates (step env program limit semantic_message run t) (step env program limit semantic_message run' t).
Proof.
  destruct t as [e|s|b c|f arguments ns ims|c b r]; cbn [step].
  - apply fuel_evaluate_step.
  - apply fuel_execute_statement.
  - apply fuel_execute_block.
  - apply fuel_call_function.
  - apply fuel_while_step.
Qed.
End step.

Lemma fuel_approximates fuel : ∀ fuel' t, (fuel ≤ fuel')%nat →
  approximates (run env program limit semantic_message fuel t) (run env program limit semantic_message fuel' t).
Proof.
  induction fuel as [|fuel IH]; intros fuel' t Hle; [apply approximates_no_fuel|].
  destruct fuel' as [|fuel']; [lia|]. apply fuel_step_task. intros t'. apply IH. lia.
Qed.
End interpreter.


(** The witness: a loop to three, with fuel enough for its depth. *)
Definition count_at : SourceLocation := mk_location 1 1.

Definition count_to_three : FunctionDeclaration :=
  let i := Identifier (u "i") count_at in
  let int z := Literal (LitValue (VInt z)) count_at in
  mk_function (u "count") [] (Some (mk_type_ref [u "Int"] count_at))
    (mk_block [LetStatement (u "i") true (int 0) count_at None;
      WhileStatement (BinaryExpression i (u "<") (int 3) count_at)
        (mk_block [ExpressionStatement (AssignmentExpression i (BinaryExpression i (u "+") (int 1) count_at) count_at) count_at])
        count_at;
      ReturnStatement (Some i) count_at])
    count_at false [] false.

Definition count_host : host :=
  mk_host (λ _, []) (λ s, s) (λ _, None) (λ s, s) true (λ _, []) (λ _ p, p) (λ _ _ _, DiskOk []) (λ _ _ _, DiskOk [])
    (λ _ _ _ _, DiskOk tt) (λ _ _ _, DiskOk tt) (λ _ _ _, NetResponse [] 200) (λ _ _, None).

