(* ===== verification/Semantic.v ===== *)
(** The semantic checker: [SemanticChecker] of [src/koschei/semantic.py] over the
capability tables of [capability_effect_contract_v1.py], with the methods that the
installed modules put over its own (the ergonomics modules, the gates of decimals,
queues and data).

A type is a text or unknown, as in the source.  An error keeps its code and
location.  The checker's state is threaded through [sem]; an error ends the check,
so that the [finally] clauses matter after a success only.  Calls of the builtins of
other modules, and of the persist and serve capabilities, end in [OutsideChecker]. *)

From S2P Require Import Prelude TypeSystem Lexer Mir Value NativeRuntime Ast Capability.

Inductive semantic_error :=
  | Refused (code : Z) (l : SourceLocation)
  (** An [AssertionError], a [KeyError] or an [IndexError] of the checker itself. *)
  | CheckerBug
  (** What the modules outside this file check. *)
  | OutsideChecker (what : ustring).

Abbreviation semantic_result A := (outcome semantic_error A).
(** [str | None]. *)
Abbreviation type_name := (option ustring).

(** * Tables *)

Definition BUILTIN_CALLS : list ustring :=
  [u "print"; u "println"; u "Error"; u "Some"; u "None"; u "Ok"; u "Err"; u "parse_json"] ++ extension_builtins.

(** The methods of the three builtin types, with their arities. *)
Definition STRING_ARITY : list (ustring * nat) :=
  [(u "length", 0); (u "to_int", 0); (u "to_float", 0); (u "contains", 1); (u "trim", 0); (u "split", 1); (u "join", 1)]%nat.
Definition LIST_ARITY : list (ustring * nat) :=
  [(u "length", 0); (u "get", 1); (u "push", 1); (u "contains", 1); (u "sort", 0); (u "filter", 1)]%nat.
Definition MAP_ARITY : list (ustring * nat) := [(u "get", 1); (u "set", 2); (u "keys", 0); (u "contains", 1)]%nat.

Definition COMPARISON_OPERATORS : list ustring := [u "=="; u "!="; u "<"; u "<="; u ">"; u ">="].
Definition LOGICAL_OPERATORS : list ustring := [u "&&"; u "||"].
Definition ARITHMETIC_OPERATORS : list ustring := [u "+"; u "-"; u "*"; u "/"; u "%"].
Definition NUMERIC_TYPES : list ustring := [u "Int"; u "Float"].
Definition NET_ORIGIN_SCHEMES : list ustring := [u "http"; u "https"].
Definition MODULE_TYPE_PREFIX : ustring := u "Module:".

(** * Texts of types *)

(** [_split_top_level]: the loop at [rest = text[index:]] with [cur = text[start:index]];
[skip] characters of a separator are passed over. *)
Fixpoint split_scan (separator rest : ustring) (skip : nat) (depth : Z) (cur : ustring) : list ustring :=
  match rest with
  | [] => [strip cur]
  | char :: rest' =>
      match skip with
      | S skip => split_scan separator rest' skip depth cur
      | O =>
          if (length rest <? length separator)%nat then [strip (cur ++ rest)]
          else
            let depth := if char =? ch "<" then depth + 1 else if char =? ch ">" then depth - 1 else depth in
            if (depth =? 0) && starts_with separator rest then
              strip cur :: split_scan separator rest' (length separator - 1) depth []
            else split_scan separator rest' 0 depth (cur ++ [char])
      end
  end.

Definition _split_top_level (text separator : ustring) : list ustring :=
  filter (λ part, part ≠ []) (split_scan separator text 0 0 []).

Definition _generic_type (name : ustring) : ustring * list ustring :=
  let name := strip name in
  let '(base, rest) := span (λ c, negb (c =? ch "<")) name in
  match rest with
  | [] => (name, [])
  | _ :: rest =>
      if bool_decide (last name = Some (ch ">")) then (strip base, _split_top_level (removelast rest) (u ","))
      else (name, [])
  end.

Definition _type_names (t : type_name) : list ustring :=
  match t with None => [] | Some t => _split_top_level t (u " or ") end.

Section forall2b.
Context {A : Type} (f : A → A → bool).
(** [all(f(x, y) for x, y in zip(l1, l2))]. *)
Fixpoint forall2b (l1 l2 : list A) : bool :=
  match l1, l2 with
  | x :: l1, y :: l2 => f x y && forall2b l1 l2
  | _, _ => true
  end.
End forall2b.

(** [_type_compatible]; the arguments of a type are shorter than its text. *)
Fixpoint type_compatible (fuel : nat) (expected actual : ustring) : bool :=
  match fuel with
  | O => false
  | S fuel =>
      if bool_decide (expected = actual) || bool_decide (expected = u "_") || bool_decide (actual = u "_") then true
      else
        let '(expected_base, expected_args) := _generic_type expected in
        let '(actual_base, actual_args) := _generic_type actual in
        if bool_decide (expected_base ≠ actual_base) || negb (length expected_args =? length actual_args)%nat then false
        else if bool_decide (expected_args = []) then false
        else forall2b (type_compatible fuel) expected_args actual_args
  end.

Definition _type_compatible (expected actual : ustring) : bool := type_compatible (S (length expected)) expected actual.

(** The loop of [_unify_types] over the arguments. *)
Fixpoint merge_arguments (l : SourceLocation) (left_args right_args : list ustring) : semantic_result (list ustring) :=
  match left_args, right_args with
  | x :: left_args, y :: right_args =>
      z ← (if bool_decide (x = u "_") then Done y
           else if bool_decide (y = u "_") then Done x
           else if bool_decide (x = y) then Done x
           else Raise (Refused 1702 l));
      rest ← merge_arguments l left_args right_args;
      Done (z :: rest)
  | _, _ => Done []
  end.

Definition _unify_types (lhs rhs : type_name) (l : SourceLocation) : semantic_result type_name :=
  match lhs, rhs with
  | None, _ => Done rhs
  | _, None => Done lhs
  | Some x, Some y =>
      if bool_decide (x = y) then Done lhs
      else
        let '(left_base, left_args) := _generic_type x in
        let '(right_base, right_args) := _generic_type y in
        if bool_decide (left_base = right_base) && bool_decide (left_args ≠ [])
           && (length left_args =? length right_args)%nat then
          merged ← merge_arguments l left_args right_args;
          Done (Some (left_base ++ u "<" ++ join (u ", ") merged ++ u ">"))
        else if _type_compatible x y then Done lhs
        else if _type_compatible y x then Done rhs
        else Raise (Refused 1702 l)
  end.

Definition _success_type (t : type_name) : type_name :=
  let names := _type_names t in
  if bool_decide (u "Error" ∈ names) then
    match sorted_text (dict_fromkeys (filter (λ n, n ≠ u "Error") names)) with
    | [] => None
    | remaining => Some (join (u " or ") remaining)
    end
  else
    match t with
    | None => None
    | Some text =>
        match _generic_type text with
        | (base, [a]) => if bool_decide (base = u "Option") then Some a else t
        | (base, [a; _]) => if bool_decide (base = u "Result") then Some a else t
        | _ => t
        end
    end.

(** [urlsplit] of the origin: the scheme in lower case and the host name, or nothing
if it raises.  A constant origin must be absolute HTTP or HTTPS. *)
Definition string_literal (e : Expression) : option ustring :=
  match e with Literal (LitValue (VText s)) _ => Some s | _ => None end.

Definition _check_net_origin (url_origin : ustring → option (ustring * option ustring)) (arguments : list Expression)
    (l : SourceLocation) : semantic_result () :=
  match head arguments ≫= string_literal with
  | None => Done ()
  | Some origin =>
      match url_origin origin with
      | Some (scheme, Some _) => if bool_decide (scheme ∈ NET_ORIGIN_SCHEMES) then Done () else Raise (Refused 2405 l)
      | _ => Raise (Refused 2405 l)
      end
  end.

(** * Declarations *)

(** A declaration object of an imported module, by its identity. *)
Record object (A : Type) := mk_object { identity : nat; contents : A }.
#[global] Arguments mk_object {A} _ _.
#[global] Arguments identity {A} _.
#[global] Arguments contents {A} _.

Record imported_module := mk_imported {
  imported_name : ustring;
  module_functions : gmap ustring FunctionDeclaration;
  module_structs : list (ustring * object StructDeclaration);
  module_enums : list (ustring * object EnumDeclaration);
}.

(** The dictionaries of [SemanticChecker.__init__]. *)
Record tables := mk_tables {
  functions : gmap ustring FunctionDeclaration;
  declared_structs : gmap ustring StructDeclaration;
  declared_enums : gmap ustring EnumDeclaration;
  declared_variants : gmap ustring (ustring * EnumVariant);
  imports : list (ustring * imported_module);
}.

(** [{key(x): x for x in l}]. *)
Definition dict_of {A} (key : A → ustring) (l : list A) : gmap ustring A := foldl (λ m x, <[key x := x]> m) ∅ l.

(** [setdefault]. *)
Definition put_default {A} (m : gmap ustring A) (k : ustring) (a : A) : gmap ustring A :=
  match m !! k with Some _ => m | None => <[k := a]> m end.

(** An entry with the identity of its object, none for the program's own. *)
Abbreviation owned A := (option nat * A)%type.

(** [existing is not None and existing is not declaration]. *)
Definition conflicts {A} (m : gmap ustring (owned A)) (k : ustring) (o : option nat) : bool :=
  match m !! k with Some existing => negb (bool_decide (existing.1 = o)) | None => false end.

Abbreviation struct_table := (gmap ustring (owned StructDeclaration)).
Abbreviation enum_table := (gmap ustring (owned EnumDeclaration)).
(** A variant object is one of the variants of an enum object. *)
Abbreviation variant_table := (gmap ustring (ustring * ((option nat * nat) * EnumVariant))).

Definition add_struct (m : struct_table) (item : ustring * object StructDeclaration) : semantic_result struct_table :=
  let '(name, o) := item in
  if conflicts m name (Some (identity o)) then Raise (Refused 1604 (struct_location (contents o)))
  else Done (put_default m name (Some (identity o), contents o)).

Fixpoint add_variants (enum : ustring) (owner : option nat) (check : bool) (index : nat) (m : variant_table)
    (l : list EnumVariant) : semantic_result variant_table :=
  match l with
  | [] => Done m
  | v :: l =>
      let entry := (enum, ((owner, index), v)) in
      if check && match m !! variant_name v with
                  | Some current => negb (bool_decide (current.2.1 = (owner, index)))
                  | None => false
                  end
      then Raise (Refused 1701 (variant_location v))
      else add_variants enum owner check (S index) (put_default m (variant_name v) entry) l
  end.

Definition add_enum (ms : enum_table * variant_table) (item : ustring * object EnumDeclaration)
    : semantic_result (enum_table * variant_table) :=
  let '(name, o) := item in
  if conflicts ms.1 name (Some (identity o)) then Raise (Refused 1701 (enum_location (contents o)))
  else
    vs ← add_variants name (Some (identity o)) true 0 ms.2 (variants (contents o));
    Done (put_default ms.1 name (Some (identity o), contents o), vs).

(** The loop over the imported modules. *)
Definition add_module (ms : struct_table * (enum_table * variant_table)) (item : ustring * imported_module)
    : semantic_result (struct_table * (enum_table * variant_table)) :=
  ss ← outcome_fold add_struct ms.1 (module_structs item.2);
  es ← outcome_fold add_enum ms.2 (module_enums item.2);
  Done (ss, es).

(** The variants of the program's own enums; the first of a name counts. *)
Definition own_variants (l : list EnumDeclaration) : semantic_result variant_table :=
  outcome_fold (λ m d, add_variants (enum_name d) None false 0 m (variants d)) ∅ l.

(** [SemanticChecker.__init__]. *)
Definition new_tables (program : NativeProgram) (modules : list (ustring * imported_module)) : semantic_result tables :=
  vs ← own_variants (enums program);
  ms ← outcome_fold add_module
         (dict_of (λ o : owned StructDeclaration, struct_name o.2) ((λ d, (None, d)) <$> structs program),
          (dict_of (λ o : owned EnumDeclaration, enum_name o.2) ((λ d, (None, d)) <$> enums program), vs)) modules;
  Done (mk_tables (dict_of function_name (declarations program)) (snd <$> ms.1) (snd <$> ms.2.1)
          ((λ v : ustring * ((option nat * nat) * EnumVariant), (v.1, v.2.2)) <$> ms.2.2) modules).

(** * State *)

Record Symbol := mk_symbol {
  symbol_name : ustring;
  symbol_type : type_name;
  symbol_mutable : bool;
  symbol_location : SourceLocation;
}.

(** [scopes] lists the innermost scope first; [ergonomics_loop_depth] is
[_v010_loop_depth] and [element_types] is [_v010_element_types]. *)
Record checker := mk_checker {
  scopes : list (gmap ustring Symbol);
  variable_count : Z;
  capability_count : Z;
  loop_depth : Z;
  ergonomics_loop_depth : Z;
  element_types : gmap ustring ustring;
}.

Record SemanticReport := mk_report {
  report_functions : Z;
  report_variables : Z;
  report_capability_values : Z;
}.

Definition set_scopes (l : list (gmap ustring Symbol)) (s : checker) : checker :=
  mk_checker l (variable_count s) (capability_count s) (loop_depth s) (ergonomics_loop_depth s) (element_types s).
Definition add_variable (s : checker) : checker :=
  mk_checker (scopes s) (variable_count s + 1) (capability_count s) (loop_depth s) (ergonomics_loop_depth s) (element_types s).
Definition add_capability (s : checker) : checker :=
  mk_checker (scopes s) (variable_count s) (capability_count s + 1) (loop_depth s) (ergonomics_loop_depth s) (element_types s).
Definition add_loops (base ergonomics : Z) (s : checker) : checker :=
  mk_checker (scopes s) (variable_count s) (capability_count s) (loop_depth s + base)
    (ergonomics_loop_depth s + ergonomics) (element_types s).
Definition set_element_type (name t : ustring) (s : checker) : checker :=
  mk_checker (scopes s) (variable_count s) (capability_count s) (loop_depth s) (ergonomics_loop_depth s)
    (<[name := t]> (element_types s)).

(** A check: the state after it, or the error. *)
Definition sem (A : Type) : Type := checker → semantic_result (A * checker).

#[export] Instance sem_ret : MRet sem := λ A a s, Done (a, s).
#[export] Instance sem_bind : MBind sem := λ A B f c s,
  match c s with Done (a, s) => f a s | Raise e => Raise e | NoFuel => NoFuel end.

Definition refuse {A} (code : Z) (l : SourceLocation) : sem A := λ _, Raise (Refused code l).
Definition checker_bug {A} : sem A := λ _, Raise CheckerBug.
Definition outside_checker {A} (what : ustring) : sem A := λ _, Raise (OutsideChecker what).
Definition ask_checker {A} (f : checker → A) : sem A := λ s, Done (f s, s).
Definition modify (f : checker → checker) : sem () := λ s, Done ((), f s).
Definition lift {A} (r : semantic_result A) : sem A := λ s, a ← r; Done (a, s).

Fixpoint sem_map {A B} (f : A → sem B) (l : list A) : sem (list B) :=
  match l with
  | [] => mret []
  | x :: l => y ← f x; ys ← sem_map f l; mret (y :: ys)
  end.

Section sem_each.
Context {A : Type} (f : A → sem ()).
(** [for x in l: f(x)]. *)
Fixpoint sem_each (l : list A) : sem () :=
  match l with
  | [] => mret ()
  | x :: l => _ ← f x; sem_each l
  end.
End sem_each.

(** [self.scopes.append({}); try: ... finally: self.scopes.pop()]. *)
Definition in_scope {A} (body : sem A) : sem A :=
  _ ← modify (λ s, set_scopes (∅ :: scopes s) s);
  a ← body;
  _ ← modify (λ s, set_scopes (tail (scopes s)) s);
  mret a.

Definition _declare (symbol : Symbol) : sem () := λ s,
  match scopes s with
  | [] => Raise CheckerBug
  | scope :: rest =>
      if bool_decide (symbol_name symbol ∈ dom scope) then Raise (Refused 1102 (symbol_location symbol))
      else
        let s := set_scopes (<[symbol_name symbol := symbol]> scope :: rest) s in
        Done ((), if bool_decide (default [] (symbol_type symbol) ∈ CAPABILITY_TYPES) then add_capability s else s)
  end.

Fixpoint find_symbol (l : list (gmap ustring Symbol)) (name : ustring) : option Symbol :=
  match l with
  | [] => None
  | scope :: l => match scope !! name with Some symbol => Some symbol | None => find_symbol l name end
  end.

Definition _resolve (name : ustring) : sem (option Symbol) := ask_checker (λ s, find_symbol (scopes s) name).

Definition _raise_unknown_identifier {A} (name : ustring) (l : SourceLocation) : sem A :=
  match assoc name SYSTEM_CAPABILITY_MEMBERS with
  | Some _ => refuse 2401 l
  | None => refuse 1101 l
  end.

Definition _require_bool (t : type_name) (l : SourceLocation) : sem () :=
  if bool_decide (t ∈ [None; Some (u "_"); Some (u "Bool")]) then mret () else refuse 1301 l.

Section checker.
Context (T : tables) (url_origin : ustring → option (ustring * option ustring)).
(** [_v0104_expression_types]: the types of the typed report, by class and position. *)
Context (evidence : gmap (ustring * Z * Z) TypeNode).

(** * Sensitive types *)

(** The type names inside a declaration: of the fields of a struct, or of the
payloads of an enum. *)
Definition component_names (base : ustring) : option (list ustring) :=
  match declared_structs T !! base with
  | Some d => Some (concat ((λ f, names (field_type f)) <$> struct_fields d))
  | None => (λ d, concat (names <$> omap payload_type (variants d))) <$> declared_enums T !! base
  end.

Fixpoint name_is_sensitive (fuel : nat) (name : ustring) (seen : gset ustring) : bool :=
  match fuel with
  | O => false
  | S fuel =>
      if bool_decide (name ∈ CAPABILITY_TYPES) then true
      else
        let '(base, arguments) := _generic_type name in
        if existsb (λ argument, name_is_sensitive fuel argument seen) arguments then true
        else
          match component_names base with
          | None => false
          | Some components =>
              if bool_decide (base ∈ seen) then false
              else existsb (λ component, name_is_sensitive fuel component ({[base]} ∪ seen)) components
          end
  end.

(** Fuel for every chain: a declaration is entered once, and the arguments of a type
are shorter than the type. *)
Definition declared_names : gset ustring := dom (declared_structs T) ∪ dom (declared_enums T).
Definition longest (l : list ustring) : nat := foldr (λ n m, length n `max` m)%nat O l.
Definition longest_component : nat := foldr (λ base m, longest (default [] (component_names base)) `max` m)%nat O (elements declared_names).
Definition sensitive_fuel (name : ustring) (seen : gset ustring) : nat :=
  (S (length name) + size (declared_names ∖ seen) * S longest_component)%nat.

Definition _name_is_sensitive (name : ustring) : bool := name_is_sensitive (sensitive_fuel name ∅) name ∅.
Definition _types_are_sensitive (l : list ustring) : bool := existsb _name_is_sensitive l.
(** [_types_are_sensitive(_type_names(t))]. *)
Definition type_is_sensitive (t : type_name) : bool := _types_are_sensitive (_type_names t).

(** * Contracts *)

(** [_validate_generic_type]; queue types belong to another module. *)
Fixpoint validate_generic_type (fuel : nat) (name : ustring) (l : SourceLocation) : semantic_result () :=
  match fuel with
  | O => NoFuel
  | S fuel =>
      let '(base, arguments) := _generic_type name in
      if bool_decide (base = u "BoundedQueue") then Raise (OutsideChecker base)
      else
        let expected_arity := assoc base [(u "Option", 1); (u "Result", 2)]%nat in
        if bool_decide (arguments ≠ []) && bool_decide (expected_arity = None) then Raise (Refused 1301 l)
        else if match expected_arity with Some n => negb (length arguments =? n)%nat | None => false end then
          Raise (Refused 1301 l)
        else outcome_fold (λ _ argument, validate_generic_type fuel argument l) () arguments
  end.

Definition _validate_generic_type (name : ustring) (l : SourceLocation) : semantic_result () :=
  validate_generic_type (S (length name)) name l.

Definition validate_names (l : SourceLocation) (r : TypeRef) : semantic_result () :=
  outcome_fold (λ _ name, _validate_generic_type name l) () (names r).

Definition _require_assignable (expected : list ustring) (actual_type : type_name) (l : SourceLocation) : semantic_result () :=
  let actual := _type_names actual_type in
  if bool_decide (actual = []) then
    if _types_are_sensitive expected then Raise (Refused 2401 l) else Done ()
  else if forallb (λ actual_name, existsb (λ expected_name, _type_compatible expected_name actual_name) expected) actual then Done ()
  else if _types_are_sensitive expected || _types_are_sensitive actual then Raise (Refused 2401 l)
  else Raise (Refused 1301 l).

(** [str(function.return_type) if function.return_type else "Void"]. *)
Definition return_name (f : FunctionDeclaration) : ustring :=
  match return_type f with Some r => type_ref_str r | None => u "Void" end.

Fixpoint check_arguments (l : SourceLocation) (params : list FunctionParameter) (types : list type_name) : semantic_result () :=
  match params, types with
  | p :: params, t :: types => _ ← _require_assignable (names (parameter_type p)) t l; check_arguments l params types
  | _, _ => Done ()
  end.

Definition _check_call_arguments (f : FunctionDeclaration) (types : list type_name) (l : SourceLocation) : semantic_result () :=
  if negb (length types =? length (parameters f))%nat then
    if existsb (λ p, _types_are_sensitive (names (parameter_type p))) (drop (length types) (parameters f)) then Raise (Refused 2401 l)
    else Raise (Refused 1301 l)
  else check_arguments l (parameters f) types.

(** * Methods *)

Definition arity_checked {A} (table : list (ustring * nat)) (method : ustring) (types : list type_name) (l : SourceLocation)
    (k : semantic_result A) : semantic_result A :=
  match assoc method table with
  | None => Raise (Refused 1502 l)
  | Some n => if negb (length types =? n)%nat then Raise (Refused 1301 l) else k
  end.

(** [values[i]]. *)
Definition argument (types : list type_name) (i : nat) : semantic_result type_name :=
  match types !! i with Some t => Done t | None => Raise CheckerBug end.

Definition require_argument (types : list type_name) (i : nat) (expected : list ustring) (l : SourceLocation) : semantic_result () :=
  t ← argument types i; _require_assignable expected t l.

Definition string_method_type (method : ustring) (types : list type_name) (l : SourceLocation) : semantic_result type_name :=
  arity_checked STRING_ARITY method types l
    (if bool_decide (method = u "split") then _ ← require_argument types 0 [u "String"] l; Done (Some (u "List"))
     else if bool_decide (method = u "join") then _ ← require_argument types 0 [u "List"] l; Done (Some (u "String"))
     else
       Done (assoc method [(u "length", u "Int"); (u "to_int", u "Int"); (u "to_float", u "Float"); (u "contains", u "Bool");
                           (u "trim", u "String")])).

(** A predicate is the name of a function of this program from one value to [Bool]. *)
Definition check_predicate (arguments : list Expression) (l : SourceLocation) : semantic_result () :=
  match arguments with
  | Identifier name _ :: _ =>
      match functions T !! name with
      | None => Raise (Refused 1301 l)
      | Some f =>
          if negb (length (parameters f) =? 1)%nat then Raise (Refused 1301 l)
          else if bool_decide (names <$> return_type f = Some [u "Bool"]) then Done ()
          else Raise (Refused 1301 l)
      end
  | _ => Raise (Refused 1301 l)
  end.

Definition list_method_type (method : ustring) (types : list type_name) (arguments : list Expression) (l : SourceLocation)
    : semantic_result type_name :=
  arity_checked LIST_ARITY method types l
    (if bool_decide (method = u "get") then _ ← require_argument types 0 [u "Int"] l; Done None
     else if bool_decide (method = u "push") then
       t ← argument types 0;
       if type_is_sensitive t then Raise (Refused 2401 l) else Done (Some (u "List"))
     else if bool_decide (method = u "filter") then _ ← check_predicate arguments l; Done (Some (u "List"))
     else Done (assoc method [(u "length", u "Int"); (u "contains", u "Bool"); (u "sort", u "List")])).

Definition map_method_type (method : ustring) (types : list type_name) (l : SourceLocation) : semantic_result type_name :=
  arity_checked MAP_ARITY method types l
    (_ ← (if bool_decide (method ∈ [u "get"; u "set"; u "contains"]) then
            key ← argument types 0;
            if bool_decide (key ∈ [None; Some (u "String")]) then Done () else Raise (Refused 1301 l)
          else Done ());
     if bool_decide (method = u "set") then
       t ← argument types 1;
       if type_is_sensitive t then Raise (Refused 2401 l) else Done (Some (u "Map"))
     else if bool_decide (method = u "keys") then Done (Some (u "List"))
     else if bool_decide (method = u "contains") then Done (Some (u "Bool"))
     else Done None).

Definition with_arity {A} (types : list type_name) (n : nat) (l : SourceLocation) (k : semantic_result A) : semantic_result A :=
  if negb (length types =? n)%nat then Raise (Refused 1301 l) else k.

(** The methods of the ergonomics modules, one definition per [_semantic_method]:
nothing if the module hands the call to [original]. *)
Section extension_methods.
Context (receiver method : ustring) (types : list type_name) (arguments : list Expression) (l : SourceLocation).

Definition any_list : bool := bool_decide (receiver = u "List") || starts_with (u "List<") receiver.
Definition any_map : bool := bool_decide (receiver = u "Map") || starts_with (u "Map<") receiver.
Definition method_is (b : bool) (receivers : bool) (k : semantic_result type_name) : option (semantic_result type_name) :=
  if receivers && b then Some k else None.

(** A method whose one argument has one of the types [expected]. *)
Definition one_of (expected : list ustring) (result : ustring) : semantic_result type_name :=
  with_arity types 1 l (_ ← require_argument types 0 expected l; Done (Some result)).
Definition plain_call (n : nat) (result : ustring) : semantic_result type_name := with_arity types n l (Done (Some result)).

Definition map_add_method :=
  method_is (bool_decide (method = u "add")) any_map
    (with_arity types 2 l
      (_ ← require_argument types 0 [u "String"] l; _ ← require_argument types 1 [u "Int"; u "Float"] l; Done (Some (u "Map")))).

Definition scan_method := method_is (bool_decide (method = u "scan")) any_list (plain_call 2 (u "List")).
Definition partition_method := method_is (bool_decide (method = u "partition")) any_list (plain_call 1 (u "List")).
Definition any_method := method_is (bool_decide (method = u "any")) any_list (plain_call 1 (u "Bool")).
Definition map_method := method_is (bool_decide (method = u "map")) any_list (plain_call 1 (u "List")).
Definition chunks_method := method_is (bool_decide (method = u "chunks")) any_list (one_of [u "Int"] (u "Result<_, Error>")).
Definition flatten_method := method_is (bool_decide (method = u "flatten")) any_list (plain_call 0 (u "List")).
Definition unique_method := method_is (bool_decide (method = u "unique")) any_list (plain_call 0 (u "List")).

Definition reduction_method :=
  method_is (bool_decide (method ∈ [u "sum"; u "min"; u "max"])) any_list (plain_call 0 (u "Result<_, Error>")).

Definition daily_method :=
  if bool_decide (receiver = u "List") && bool_decide (method = u "first_difference") then Some (one_of [u "List"] (u "Option<Int>"))
  else method_is (bool_decide (method = u "merge")) (bool_decide (receiver = u "Map")) (one_of [u "Map"] (u "Map")).

Definition find_method :=
  method_is (bool_decide (method = u "find")) (bool_decide (receiver = u "List"))
    (with_arity types 1 l (_ ← check_predicate arguments l; Done (Some (u "Option<_>")))).

Definition collections_method :=
  if bool_decide (receiver = u "List") && bool_decide (method = u "take") then Some (one_of [u "Int"] (u "List"))
  else method_is (bool_decide (method = u "keys_sorted_by_value")) (bool_decide (receiver = u "Map")) (one_of [u "Bool"] (u "List")).

(** The modules in the order of [install_ergonomics_v010], the last one first; each
calls the one before it as [original]. *)
Definition extension_method : option (semantic_result type_name) :=
  head (omap (λ r, r) [map_add_method; scan_method; partition_method; any_method; map_method; chunks_method; flatten_method;
                 unique_method; reduction_method; daily_method; find_method; collections_method]).
End extension_methods.

(** A method of a capability, and the methods nobody has: the type, and whether a
capability value is made. *)
Definition capability_method_type (receiver : type_name) (method : ustring) (arguments : list Expression) (l : SourceLocation)
    : semantic_result (type_name * bool) :=
  let text := default [] receiver in
  match assoc text ROOT_NARROWING with
  | Some mapping =>
      match assoc method mapping with
      | None => Raise (Refused 2402 l)
      | Some narrowed =>
          _ ← (if bool_decide (text = u "NetRoot") && bool_decide (method = u "allow") then _check_net_origin url_origin arguments l
               else Done ());
          Done (Some narrowed, true)
      end
  | None =>
      match assoc text NARROWED_OPERATIONS with
      | Some operations =>
          if bool_decide (method ∈ NARROWING_METHODS) then Raise (Refused 2403 l)
          else if bool_decide (method ∈ operations) then Done (None, false)
          else Raise (Refused 2404 l)
      | None =>
          if bool_decide (text = u "SystemCaps") then Raise (Refused 2402 l)
          else if bool_decide (method ∈ GUARDED_METHODS) then Raise (Refused 2401 l)
          else Done (None, false)
      end
  end.

(** [receiver_type[len(prefix):]] of a module type. *)
Definition module_alias (t : type_name) : option ustring :=
  text ← t; if starts_with MODULE_TYPE_PREFIX text then Some (drop (length MODULE_TYPE_PREFIX) text) else None.

(** [_check_method_call] of semantic.py. *)
Definition base_method_call (receiver : type_name) (method : ustring) (types : list type_name) (arguments : list Expression)
    (l : SourceLocation) : sem type_name :=
  match module_alias receiver with
  | Some alias =>
      match assoc alias (imports T) with
      | None => checker_bug
      | Some m =>
          match module_functions m !! method with
          | None => refuse 1605 l
          | Some f => _ ← lift (_check_call_arguments f types l); mret (Some (return_name f))
          end
      end
  | None =>
      if bool_decide (receiver = Some (u "String")) then lift (string_method_type method types l)
      else if bool_decide (receiver = Some (u "List")) then lift (list_method_type method types arguments l)
      else if bool_decide (receiver = Some (u "Map")) then lift (map_method_type method types l)
      else if bool_decide (default [] receiver ∈ dom (declared_structs T)) && bool_decide (receiver ≠ None) then refuse 1502 l
      else
        r ← lift (capability_method_type receiver method arguments l);
        _ ← (if r.2 : bool then modify add_capability else mret ());
        mret r.1
  end.

(** [_check_method_call], as installed; persist and serve have checks of their own. *)
Definition _check_method_call (receiver : type_name) (method : ustring) (types : list type_name) (arguments : list Expression)
    (l : SourceLocation) : sem type_name :=
  if bool_decide (receiver ∈ Some <$> [u "PersistRoot"; u "PersistCaps"; u "ServeRoot"; u "ServeCaps"]) then
    outside_checker (default [] receiver)
  else
    match receiver ≫= λ text, extension_method text method types arguments l with
    | Some r => lift r
    | None => base_method_call receiver method types arguments l
    end.

(** * Enum shapes *)

(** The variants of a type with the types of their payloads. *)
Definition _enum_shape (t : type_name) : option (gmap ustring type_name) :=
  match t with
  | None => None
  | Some text =>
      if negb (length (_type_names t) =? 1)%nat then None
      else
        let '(base, arguments) := _generic_type text in
        let declared :=
          (λ d, foldl (λ m v, <[variant_name v := type_ref_str <$> payload_type v]> m) ∅ (variants d)) <$> declared_enums T !! text in
        if bool_decide (base = u "Option") then
          match arguments with [a] => Some {[u "Some" := Some a; u "None" := None]} | _ => declared end
        else if bool_decide (base = u "Result") then
          match arguments with [a; b] => Some {[u "Ok" := Some a; u "Err" := Some b]} | _ => declared end
        else declared
  end.

(** * Parts of expressions that the recursion does not enter *)

Definition refuse_if (b : bool) (code : Z) (l : SourceLocation) : sem () := if b then refuse code l else mret ().

(** [a or b] of two texts that may be missing. *)
Definition or_type (a b : type_name) : type_name := match a with Some (_ :: _) => a | _ => b end.

Definition literal_type (v : literal) (l : SourceLocation) : sem type_name :=
  match v with
  | LitBool _ => mret (Some (u "Bool"))
  | LitValue (VText _) => mret (Some (u "String"))
  | LitValue (VInt z) => if in_int64 z then mret (Some (u "Int")) else refuse 1302 l
  | LitValue (VFloat _ _) => mret (Some (u "Float"))
  | LitValue VNone | LitValue (VSegments _) => mret None
  end.

Definition identifier_type (name : ustring) (l : SourceLocation) : sem type_name :=
  symbol ← _resolve name;
  match symbol with
  | Some symbol => mret (symbol_type symbol)
  | None =>
      match functions T !! name with
      | Some f => mret (Some (return_name f))
      | None =>
          if bool_decide (name ∈ (imports T).*1) then mret (Some (MODULE_TYPE_PREFIX ++ name))
          else
            match declared_variants T !! name with
            | Some v => mret (Some v.1)
            | None => if bool_decide (name ∈ BUILTIN_CALLS) then mret None else _raise_unknown_identifier name l
            end
      end
  end.

Definition declared_field (d : StructDeclaration) (name : ustring) : option StructField :=
  List.find (λ f, bool_decide (field_name f = name)) (struct_fields d).

(** A [MemberExpression], after its object. *)
Definition member_type (object_type : type_name) (member : ustring) (l : SourceLocation) : sem type_name :=
  match (if bool_decide (object_type = Some (u "SystemCaps")) then assoc member SYSTEM_CAPABILITY_MEMBERS else None) with
  | Some root => _ ← modify add_capability; mret (Some root)
  | None =>
      match module_alias object_type with
      | Some alias =>
          match assoc alias (imports T) with
          | None => checker_bug
          | Some m =>
              match module_functions m !! member with
              | Some f => mret (Some (return_name f))
              | None =>
                  if bool_decide (member ∈ (module_structs m).*1) || bool_decide (member ∈ (module_enums m).*1) then mret (Some member)
                  else refuse 1605 l
              end
          end
      | None =>
          if bool_decide (default [] object_type ∈ CAPABILITY_TYPES) then mret None
          else
            match declared_structs T !! default [] object_type with
            | None => mret object_type
            | Some d =>
                match declared_field d member with
                | Some f => mret (Some (type_ref_str (field_type f)))
                | None => refuse 1502 l
                end
            end
      end
  end.

(** The constructors [Error], [Some], [None], [Ok] and [Err]; nothing for any other name. *)
Definition builtin_constructor (name : ustring) (types : list type_name) (l : SourceLocation)
    : option (semantic_result type_name) :=
  let payload (code : Z) (k : ustring → ustring) :=
    match types with
    | [t] => if type_is_sensitive t then Raise (Refused 2401 l) else Done (Some (k (default [] (or_type t (Some (u "_"))))))
    | _ => Raise (Refused code l)
    end in
  if bool_decide (name = u "Error") then
    Some (if (length types =? 1)%nat then Done (Some (u "Error")) else Raise (Refused 1301 l))
  else if bool_decide (name = u "Some") then Some (payload 1701 (λ t, u "Option<" ++ t ++ u ">"))
  else if bool_decide (name = u "None") then
    Some (if bool_decide (types = []) then Done (Some (u "Option<_>")) else Raise (Refused 1701 l))
  else if bool_decide (name = u "Ok") then Some (payload 1701 (λ t, u "Result<" ++ t ++ u ", _>"))
  else if bool_decide (name = u "Err") then Some (payload 1701 (λ t, u "Result<_, " ++ t ++ u ">"))
  else None.

(** A constructor of a declared enum. *)
Definition variant_call (enum : ustring) (v : EnumVariant) (types : list type_name) (l : SourceLocation)
    : semantic_result type_name :=
  match payload_type v, types with
  | None, [] => Done (Some enum)
  | Some r, [t] => _ ← _require_assignable (names r) t l; Done (Some enum)
  | _, _ => Raise (Refused 1701 l)
  end.

(** A call of a name; [otherwise] is the check of the callee. *)
Definition named_call (name : ustring) (types : list type_name) (l : SourceLocation) (otherwise : sem type_name) : sem type_name :=
  match functions T !! name with
  | Some f => _ ← lift (_check_call_arguments f types l); mret (Some (return_name f))
  | None =>
      match declared_variants T !! name with
      | Some (enum, v) => lift (variant_call enum v types l)
      | None =>
          match builtin_constructor name types l with
          | Some r => lift r
          | None => otherwise
          end
      end
  end.

(** [_check_binary] of semantic.py, after the operands. *)
Definition _check_binary (operator : ustring) (left_type right_type : type_name) (l : SourceLocation) : sem type_name :=
  if bool_decide (operator ∈ LOGICAL_OPERATORS) then
    _ ← _require_bool left_type l; _ ← _require_bool right_type l; mret (Some (u "Bool"))
  else if bool_decide (operator ∈ COMPARISON_OPERATORS) then
    _ ← refuse_if (bool_decide (left_type ∉ [None; Some (u "_")]) && bool_decide (right_type ∉ [None; Some (u "_")])
                   && bool_decide (left_type ≠ right_type)) 1301 l;
    mret (Some (u "Bool"))
  else if bool_decide (operator ∈ ARITHMETIC_OPERATORS) then
    if bool_decide (left_type = Some (u "_")) then mret right_type
    else if bool_decide (right_type = Some (u "_")) then mret left_type
    else
      match left_type, right_type with
      | Some x, Some y =>
          if bool_decide (x ≠ y) then refuse 1301 l
          else if bool_decide (x = u "String") then
            if bool_decide (operator = u "+") then mret (Some (u "String")) else refuse 1301 l
          else if bool_decide (x ∈ NUMERIC_TYPES) then mret left_type
          else refuse 1301 l
      | _, _ => mret (or_type left_type right_type)
      end
  else mret None.

(** [_binary] of ergonomics_semantics.py: [%], or the operators above. *)
Definition _binary_types (operator : ustring) (left_type right_type : type_name) (l : SourceLocation) : sem type_name :=
  if bool_decide (operator = u "%") then
    _ ← refuse_if (bool_decide (left_type ∉ [None; Some (u "_"); Some (u "Int")])) 1301 l;
    _ ← refuse_if (bool_decide (right_type ∉ [None; Some (u "_"); Some (u "Int")])) 1301 l;
    mret (Some (u "Int"))
  else _check_binary operator left_type right_type l.

(** [_semantic_value_type] of financial_decimal_operator_gate.py. *)
Fixpoint _semantic_value_type (l : list (gmap ustring Symbol)) (e : Expression) : type_name :=
  match e with
  | Identifier name _ => find_symbol l name ≫= symbol_type
  | CallExpression (Identifier name _) _ _ =>
      assoc name [(u "decimal", u "Decimal or Error"); (u "decimal_add", u "Decimal or Error");
                  (u "decimal_sub", u "Decimal or Error"); (u "decimal_cmp", u "Int or Error"); (u "decimal_text", u "String")]
  | MemberExpression object member _ =>
      d ← declared_structs T !! default [] (_semantic_value_type l object);
      f ← declared_field d member;
      Some (type_ref_str (field_type f))
  | _ => None
  end.

(** [_semantic_binary]: no operator on decimals. *)
Definition decimal_gate (lhs rhs : Expression) (l : SourceLocation) : sem () :=
  scopes ← ask_checker scopes;
  refuse_if (bool_decide (u "Decimal" ∈ _type_names (_semantic_value_type scopes lhs))
             || bool_decide (u "Decimal" ∈ _type_names (_semantic_value_type scopes rhs))) 3804 l.

(** The integer literal under a minus sign. *)
Definition int_literal (e : Expression) : option Z := match e with Literal (LitValue (VInt z)) _ => Some z | _ => None end.

(** [_is_fallible_call], with the type of a receiver. *)
Definition fallible_return (f : FunctionDeclaration) : bool :=
  match return_type f with
  | None => false
  | Some r => bool_decide (u "Error" ∈ names r) || bool_decide ((_generic_type (type_ref_str r)).1 ∈ [u "Option"; u "Result"])
  end.

Definition fallible_method (receiver : type_name) (member : ustring) : bool :=
  match module_alias receiver with
  | Some alias =>
      match m ← assoc alias (imports T); module_functions m !! member with Some f => fallible_return f | None => false end
  | None =>
      (bool_decide (receiver = Some (u "String")) && bool_decide (member ∈ [u "to_int"; u "to_float"; u "split"; u "join"]))
      || (bool_decide (receiver = Some (u "List")) && bool_decide (member ∈ [u "get"; u "sort"; u "filter"]))
      || (bool_decide (receiver = Some (u "Map")) && bool_decide (member = u "get"))
      || bool_decide (default [] receiver ∈ NARROWED_OPERATIONS.*1)
  end.

Definition _is_fallible_call (receiver_type : Expression → sem type_name) (e : Expression) : sem bool :=
  match e with
  | CallExpression (Identifier name _) _ _ =>
      if bool_decide (name ∈ extension_builtins) then outside_checker name
      else mret (bool_decide (name = u "Error") || match functions T !! name with Some f => fallible_return f | None => false end)
  | CallExpression (MemberExpression object member _) _ _ =>
      receiver ← receiver_type object; mret (fallible_method receiver member)
  | _ => mret false
  end.

(** The result of a method, as [_receiver_type] knows it. *)
Definition method_result (receiver : type_name) (member : ustring) : type_name :=
  if bool_decide (receiver = Some (u "String")) then
    assoc member [(u "length", u "Int"); (u "to_int", u "Int"); (u "to_float", u "Float"); (u "contains", u "Bool");
                  (u "trim", u "String"); (u "split", u "List"); (u "join", u "String")]
  else if bool_decide (receiver = Some (u "List")) then
    assoc member [(u "length", u "Int"); (u "push", u "List"); (u "contains", u "Bool"); (u "sort", u "List"); (u "filter", u "List")]
  else if bool_decide (receiver = Some (u "Map")) then
    assoc member [(u "set", u "Map"); (u "keys", u "List"); (u "contains", u "Bool")]
  else None.

(** * Loops over the parts of a literal *)

Section parts.
Context (check_expression : Expression → sem type_name) (receiver_type : Expression → sem type_name).

(** The parts of an interpolation, checked by data_public_abi_v1.py and again by
semantic.py. *)
Definition data_part (part : Expression) : sem () :=
  t ← check_expression part; refuse_if (bool_decide (u "Data" ∈ _type_names t)) 3708 (location_of part).

Definition interpolation_part (part : Expression) : sem () :=
  _ ← check_expression part;
  fallible ← _is_fallible_call receiver_type part;
  refuse_if fallible 1401 (location_of part).

Definition list_item_check (item : Expression) : sem () :=
  t ← check_expression item; refuse_if (type_is_sensitive t) 2401 (location_of item).

Fixpoint map_entries (keys : list ustring) (entries : list (Expression * Expression)) : sem () :=
  match entries with
  | [] => mret ()
  | (key, value) :: entries =>
      key_type ← check_expression key;
      _ ← refuse_if (bool_decide (key_type ∉ [None; Some (u "String")])) 1301 (location_of key);
      _ ← refuse_if (match string_literal key with Some k => bool_decide (k ∈ keys) | None => false end) 1501 (location_of key);
      value_type ← check_expression value;
      _ ← refuse_if (type_is_sensitive value_type) 2401 (location_of value);
      map_entries (match string_literal key with Some k => k :: keys | None => keys end) entries
  end.

(** [expected[name]]: the last field of a name. *)
Definition expected_field (d : StructDeclaration) (name : ustring) : option StructField :=
  List.find (λ f, bool_decide (field_name f = name)) (rev (struct_fields d)).

Fixpoint struct_entries (d : StructDeclaration) (l : SourceLocation) (provided : list ustring)
    (fields : list (ustring * Expression)) : sem (list ustring) :=
  match fields with
  | [] => mret provided
  | (name, value) :: fields =>
      match expected_field d name with
      | None => refuse 1501 l
      | Some f =>
          _ ← refuse_if (bool_decide (name ∈ provided)) 1501 l;
          t ← check_expression value;
          _ ← lift (_require_assignable (names (field_type f)) t (location_of value));
          struct_entries d l (name :: provided) fields
      end
  end.

(** [_check_struct_literal]. *)
Definition _check_struct_literal (name : ustring) (fields : list (ustring * Expression)) (l : SourceLocation) : sem type_name :=
  match declared_structs T !! name with
  | None => refuse 1101 l
  | Some d =>
      provided ← struct_entries d l [] fields;
      _ ← refuse_if (negb (forallb (λ f, bool_decide (field_name f ∈ provided)) (struct_fields d))) 1501 l;
      mret (Some name)
  end.

(** The loop of [_match] over the arms; [arm_type] checks the body of an arm. *)
Context (arm_type : MatchArm → sem type_name).

Fixpoint match_loop (shape : gmap ustring type_name) (seen : gset ustring) (result : type_name) (arms : list MatchArm)
    : sem (gset ustring * type_name) :=
  match arms with
  | [] => mret (seen, result)
  | (mk_arm variant binding _ l as arm) :: arms =>
      _ ← refuse_if (bool_decide (variant ∈ seen)) 1702 l;
      match shape !! variant with
      | None => refuse 1702 l
      | Some payload =>
          _ ← refuse_if (bool_decide (payload = None) && bool_decide (binding ≠ None)) 1702 l;
          _ ← refuse_if (bool_decide (payload ≠ None) && bool_decide (binding = None)) 1702 l;
          t ← in_scope (
                _ ← match binding with
                    | Some name => _declare (mk_symbol name payload false l)
                    | None => mret ()
                    end;
                arm_type arm);
          result ← lift (_unify_types result t l);
          match_loop shape ({[variant]} ∪ seen) result arms
      end
  end.

(** [_match] of ergonomics_semantics.py. *)
Definition _match (value : Expression) (arms : list MatchArm) (l : SourceLocation) : sem type_name :=
  value_type ← check_expression value;
  match _enum_shape value_type with
  | None => refuse 1702 l
  | Some shape =>
      r ← match_loop shape ∅ None arms;
      _ ← refuse_if (negb (bool_decide (dom shape ⊆ r.1))) 1702 l;
      mret r.2
  end.
End parts.

(** The statements of a block that has a value, with the type of its tail. *)
Section block_value.
Context (check_statement : Statement → sem ()) (tail_type : Statement → sem type_name).
Fixpoint block_value (l : list Statement) : sem type_name :=
  match l with
  | [] => mret (Some (u "Void"))
  | [tail] => tail_type tail
  | s :: l => _ ← check_statement s; block_value l
  end.
End block_value.

(** * The evidence of the typed report *)

Definition class_name (e : Expression) : ustring :=
  match e with
  | Identifier _ _ => u "Identifier"
  | Literal _ _ => u "Literal"
  | InterpolatedString _ _ => u "InterpolatedString"
  | StructLiteral _ _ _ => u "StructLiteral"
  | ListLiteral _ _ => u "ListLiteral"
  | MapLiteral _ _ => u "MapLiteral"
  | MemberExpression _ _ _ => u "MemberExpression"
  | CallExpression _ _ _ => u "CallExpression"
  | AssignmentExpression _ _ _ => u "AssignmentExpression"
  | BinaryExpression _ _ _ _ => u "BinaryExpression"
  | UnaryExpression _ _ _ => u "UnaryExpression"
  | OrReturnExpression _ _ _ => u "OrReturnExpression"
  | OrElseExpression _ _ _ => u "OrElseExpression"
  | OrBlockExpression _ _ _ => u "OrBlockExpression"
  | MatchExpression _ _ _ => u "MatchExpression"
  end.

Definition _location_key (e : Expression) : ustring * Z * Z :=
  (class_name e, loc_line (location_of e), loc_column (location_of e)).

(** [_list_item]. *)
Fixpoint _list_item (t : TypeNode) : option TypeNode :=
  match t with
  | GenericType name arguments => if bool_decide (name = u "List") then head arguments else None
  | UnionType options =>
      union_type <$> (fix items (l : list TypeNode) : option (list TypeNode) :=
        match l with
        | [] => Some []
        | option :: l => item ← _list_item option; rest ← items l; Some (item :: rest)
        end) options
  | _ => None
  end.

Definition _legacy_item_name (t : option TypeNode) : type_name :=
  match t with
  | None | Some UnknownType => None
  | Some (GenericType name _ as t) => if bool_decide (name ∈ [u "List"; u "Map"]) then Some name else Some (render_type t)
  | Some t => Some (render_type t)
  end.

(** [spelling[5:-1].strip() or None] of a spelling [List<...>]. *)
Definition list_element (spelling : ustring) : type_name :=
  if starts_with (u "List<") spelling && bool_decide (last spelling = Some (ch ">")) then
    match strip (drop 5 (removelast spelling)) with [] => None | element => Some element end
  else None.

Definition _fallback_item_type (e : Expression) (s : checker) : type_name :=
  match e with
  | Identifier name _ =>
      match element_types s !! name with
      | Some t => Some t
      | None => symbol ← find_symbol (scopes s) name; list_element (default [] (symbol_type symbol))
      end
  | _ => None
  end.

(** * Declarations of variables *)

Definition coarse_collection (expected : list ustring) (actual : type_name) : bool :=
  match actual, expected with
  | Some t, [item] =>
      bool_decide (t ∈ [u "List"; u "Map"]) && (bool_decide (item = t) || starts_with (t ++ u "<") item)
  | _, _ => false
  end.

(** [split("<", 1)[0]]. *)
Definition before_bracket (text : ustring) : ustring := (span (λ c, negb (c =? ch "<")) text).1.

(** A [let], after its value; with an annotation as ergonomics_semantics.py has it. *)
Definition declare_let (name : ustring) (is_mutable : bool) (actual : type_name) (annotation : option TypeRef)
    (l : SourceLocation) : sem () :=
  match annotation with
  | None => _ ← _declare (mk_symbol name actual is_mutable l); modify add_variable
  | Some r =>
      let expected := type_ref_str r in
      _ ← (if coarse_collection (names r) actual then mret () else lift (_require_assignable (names r) actual l));
      let base := before_bracket expected in
      let declared := if bool_decide (base ∈ [u "List"; u "Map"]) then base else expected in
      _ ← _declare (mk_symbol name (Some declared) is_mutable l);
      _ ← match list_element expected with Some t => modify (set_element_type name t) | None => mret () end;
      modify add_variable
  end.

(** The scope and the variable of a [for]. *)
Definition for_scope (variable : ustring) (item : type_name) (l : SourceLocation) (body : sem ()) : sem () :=
  _ ← modify (add_loops 1 1);
  _ ← in_scope (_ ← _declare (mk_symbol variable item false l); _ ← modify add_variable; body);
  modify (add_loops (-1) (-1)).

(** * The checker *)

Section function.
Context (current : FunctionDeclaration).

(** The value must fit the declared return type, if there is one. *)
Definition check_return (t : type_name) (l : SourceLocation) : sem () :=
  match return_type current with
  | None => mret ()
  | Some r => lift (_require_assignable (names r) t l)
  end.

Definition declared_item (d : StructDeclaration) (t : type_name) (f : StructField) (l : SourceLocation) : sem type_name :=
  _ ← lift (_require_assignable (names (field_type f)) t l); mret (Some (type_ref_str (field_type f))).

(** The target of a field assignment, of ergonomics_semantics.py: a field of a
mutable variable. *)
Definition field_target (name : ustring) (at_name : SourceLocation) (member : ustring) (at_member l : SourceLocation)
    : sem (StructDeclaration * StructField) :=
  symbol ← _resolve name;
  match symbol with
  | None => _raise_unknown_identifier name at_name
  | Some symbol =>
      _ ← refuse_if (negb (symbol_mutable symbol)) 3201 l;
      match declared_structs T !! default [] (symbol_type symbol) with
      | None => refuse 3201 l
      | Some d =>
          match declared_field d member with
          | None => refuse 1502 at_member
          | Some f => mret (d, f)
          end
      end
  end.

(** An assignment to a variable, after its value. *)
Definition assign_variable (name : ustring) (at_name : SourceLocation) (t : type_name) (l : SourceLocation) : sem type_name :=
  symbol ← _resolve name;
  match symbol with
  | None => _raise_unknown_identifier name at_name
  | Some symbol =>
      _ ← refuse_if (negb (symbol_mutable symbol)) 1201 l;
      _ ← match symbol_type symbol with
          | None => mret ()
          | Some expected => lift (_require_assignable [expected] t l)
          end;
      mret (or_type (symbol_type symbol) t)
  end.

(** [or] with a default, after both operands. *)
Definition or_else_type (value_type fallback_type : type_name) (at_fallback l : SourceLocation) : sem type_name :=
  let success := _success_type value_type in
  match success with
  | Some text =>
      if bool_decide ((_generic_type (default [] value_type)).1 ∈ [u "Option"; u "Result"]) then
        _ ← lift (_require_assignable [text] fallback_type at_fallback); lift (_unify_types success fallback_type l)
      else mret (or_type success fallback_type)
  | None => mret fallback_type
  end.

(** [_check_expression], [_block_type] of an arm, [_receiver_type],
[_check_statement] and [_check_statements]. *)
Fixpoint check_expression (e : Expression) {struct e} : sem type_name :=
  match e with
  | Literal v l => literal_type v l
  | InterpolatedString parts _ =>
      _ ← sem_each (data_part check_expression) parts;
      _ ← sem_each (interpolation_part check_expression receiver_type) parts;
      mret (Some (u "String"))
  | ListLiteral items _ => _ ← sem_each (list_item_check check_expression) items; mret (Some (u "List"))
  | MapLiteral entries _ => _ ← map_entries check_expression [] entries; mret (Some (u "Map"))
  | StructLiteral name fields l => _check_struct_literal check_expression name fields l
  | Identifier name l => identifier_type name l
  | MemberExpression object member l => t ← check_expression object; member_type t member l
  | CallExpression callee arguments l =>
      match callee with
      | Identifier name _ =>
          if bool_decide (name ∈ extension_builtins) then outside_checker name
          else
            (** The check of data_language_v1.py. *)
            _ ← match arguments with
                | [x] => if bool_decide (name ∈ [u "print"; u "println"; u "Error"]) then
                           t ← check_expression x; refuse_if (bool_decide (t = Some (u "Data"))) 3708 l
                         else mret ()
                | _ => mret ()
                end;
            types ← sem_map check_expression arguments;
            named_call name types l (check_expression callee)
      | MemberExpression object member _ =>
          types ← sem_map check_expression arguments;
          receiver ← check_expression object;
          _check_method_call receiver member types arguments l
      | _ => _ ← sem_map check_expression arguments; check_expression callee
      end
  | BinaryExpression lhs operator rhs l =>
      _ ← decimal_gate lhs rhs l;
      left_type ← check_expression lhs;
      right_type ← check_expression rhs;
      _binary_types operator left_type right_type l
  | UnaryExpression operator operand l =>
      let general :=
        t ← check_expression operand;
        if bool_decide (operator = u "!") then _ ← _require_bool t l; mret (Some (u "Bool"))
        else
          _ ← refuse_if (bool_decide (t ∉ [None; Some (u "_")]) && bool_decide (default [] t ∉ NUMERIC_TYPES)) 1301 l;
          mret t in
      match (if bool_decide (operator = u "-") then int_literal operand else None) with
      | Some magnitude =>
          if magnitude =? 2 ^ 63 then mret (Some (u "Int"))
          else if INT64_MAX <? magnitude then refuse 1302 l
          else general
      | None => general
      end
  | OrReturnExpression value error l =>
      t ← check_expression value;
      _ ← match error with
          | None => mret ()
          | Some error => error_type ← check_expression error; check_return error_type (location_of error)
          end;
      mret (_success_type t)
  | OrElseExpression value fallback l =>
      value_type ← check_expression value;
      fallback_type ← check_expression fallback;
      or_else_type value_type fallback_type (location_of fallback) l
  | OrBlockExpression value handler _ =>
      t ← check_expression value; _ ← in_scope (check_statements handler); mret (_success_type t)
  | MatchExpression value arms l => _match check_expression arm_type value arms l
  | AssignmentExpression target value l =>
      match target with
      | Identifier name at_name => t ← check_expression value; assign_variable name at_name t l
      | MemberExpression (Identifier name at_name) member at_member =>
          df ← field_target name at_name member at_member l;
          t ← check_expression value;
          declared_item df.1 t df.2 l
      | MemberExpression _ _ _ => refuse 3201 l
      | _ => t ← check_expression value; _ ← check_expression target; mret t
      end
  end
with arm_type (a : MatchArm) {struct a} : sem type_name :=
  match a with
  | mk_arm _ _ (ArmExpression e) _ => check_expression e
  | mk_arm _ _ (ArmBlock (mk_block l)) _ =>
      in_scope (block_value check_statement
                  (λ tail, match tail with
                           | ExpressionStatement e _ => check_expression e
                           | _ => _ ← check_statement tail; mret (Some (u "Void"))
                           end) l)
  end
with receiver_type (e : Expression) {struct e} : sem type_name :=
  match e with
  | Literal (LitBool _) _ => mret (Some (u "Bool"))
  | Literal (LitValue (VText _)) _ => mret (Some (u "String"))
  | Literal (LitValue (VInt _)) _ => mret (Some (u "Int"))
  | Literal (LitValue (VFloat _ _)) _ => mret (Some (u "Float"))
  | InterpolatedString _ _ => mret (Some (u "String"))
  | ListLiteral _ _ => mret (Some (u "List"))
  | MapLiteral _ _ => mret (Some (u "Map"))
  | StructLiteral name _ _ => mret (Some name)
  | MatchExpression value arms l => _match check_expression arm_type value arms l
  | Identifier name _ =>
      symbol ← _resolve name;
      match symbol with
      | Some symbol => mret (symbol_type symbol)
      | None => mret (if bool_decide (name ∈ (imports T).*1) then Some (MODULE_TYPE_PREFIX ++ name) else None)
      end
  | MemberExpression object member _ =>
      t ← receiver_type object;
      mret (if bool_decide (t = Some (u "SystemCaps")) then assoc member SYSTEM_CAPABILITY_MEMBERS else None)
  | CallExpression (Identifier name _) _ _ =>
      if bool_decide (name ∈ extension_builtins) then outside_checker name
      else mret (f ← functions T !! name; type_ref_str <$> return_type f)
  | CallExpression (MemberExpression object member _) _ _ => t ← receiver_type object; mret (method_result t member)
  | _ => mret None
  end
with check_statement (s : Statement) {struct s} : sem () :=
  match s with
  | LetStatement name is_mutable value l annotation =>
      t ← check_expression value; declare_let name is_mutable t annotation l
  | ReturnStatement value l =>
      t ← match value with None => mret (Some (u "Void")) | Some e => check_expression e end;
      check_return t l
  | ExpressionStatement e l =>
      _ ← check_expression e;
      fallible ← _is_fallible_call receiver_type e;
      depth ← ask_checker loop_depth;
      refuse_if (fallible && (depth =? 0)) 1401 l
  | IfStatement condition then_block else_branch l =>
      t ← check_expression condition;
      _ ← _require_bool (_success_type t) l;
      _ ← in_scope (check_statements then_block);
      match else_branch with
      | Some (ElseBlock b) => in_scope (check_statements b)
      | Some (ElseIf (IfStatement _ _ _ _ as s)) => check_statement s
      | Some (ElseIf _) | None => mret ()
      end
  | WhileStatement condition body l =>
      _ ← modify (add_loops 0 1);
      t ← check_expression condition;
      _ ← _require_bool (_success_type t) l;
      _ ← modify (add_loops 1 0);
      _ ← in_scope (check_statements body);
      modify (add_loops (-1) (-1))
  | ForStatement variable iterable body l =>
      t ← check_expression iterable;
      let item_node := evidence !! _location_key iterable ≫= _list_item in
      let success := _success_type t in
      _ ← refuse_if (bool_decide (item_node = None)
                     && match success with Some text => bool_decide ((_generic_type text).1 ≠ u "List") | None => false end) 1301 l;
      fallback ← ask_checker (_fallback_item_type iterable);
      for_scope variable (match _legacy_item_name item_node with Some item => Some item | None => fallback end) l
        (check_statements body)
  | BreakStatement l | ContinueStatement l =>
      depth ← ask_checker ergonomics_loop_depth;
      refuse_if (depth <=? 0) 1901 l
  end
with check_statements (b : Block) {struct b} : sem () :=
  let 'mk_block l := b in sem_each check_statement l.

(** [_check_function]. *)
Definition _check_function : sem () :=
  in_scope (
    _ ← sem_each (λ p, _declare (mk_symbol (parameter_name p) (Some (type_ref_str (parameter_type p))) false (parameter_location p)))
          (parameters current);
    check_statements (body current)).
End function.

(** * Signatures and declarations *)

(** A payload of a variant carries no capability. *)
Definition check_payload (v : EnumVariant) : semantic_result () :=
  match payload_type v with
  | None => Done ()
  | Some r =>
      _ ← validate_names (variant_location v) r;
      if _types_are_sensitive (names r) then Raise (Refused 2402 (variant_location v)) else Done ()
  end.

(** The names of the variants so far; those of the enum are among them. *)
Definition check_variant (seen : gset ustring) (v : EnumVariant) : semantic_result (gset ustring) :=
  let name := variant_name v in
  if bool_decide (name ∈ seen) || bool_decide (name ∈ BUILTIN_CALLS) || bool_decide (name ∈ dom (functions T)) then
    Raise (Refused 1701 (variant_location v))
  else _ ← check_payload v; Done ({[name]} ∪ seen).

Definition check_enum (seen : gset ustring * gset ustring) (d : EnumDeclaration) : semantic_result (gset ustring * gset ustring) :=
  let name := enum_name d in
  if bool_decide (name ∈ seen.1) || bool_decide (name ∈ dom (declared_structs T))
     || bool_decide (name ∈ [u "Option"; u "Result"; u "Error"]) then
    Raise (Refused 1701 (enum_location d))
  else if bool_decide (variants d = []) then Raise (Refused 1701 (enum_location d))
  else vs ← outcome_fold check_variant seen.2 (variants d); Done ({[name]} ∪ seen.1, vs).

(** [set(names) & ROOT_CAPABILITY_TYPES]. *)
Definition mentions_root (r : TypeRef) : bool := existsb (λ name, bool_decide (name ∈ ROOT_CAPABILITY_TYPES)) (names r).

Definition check_field (seen : gset ustring) (f : StructField) : semantic_result (gset ustring) :=
  if bool_decide (field_name f ∈ seen) then Raise (Refused 1501 (field_location f))
  else
    _ ← validate_names (field_location f) (field_type f);
    if mentions_root (field_type f) then Raise (Refused 2402 (field_location f)) else Done ({[field_name f]} ∪ seen).

Definition check_struct (d : StructDeclaration) : semantic_result () :=
  _ ← outcome_fold check_field ∅ (struct_fields d); Done ().

(** [main] has no parameter, or one that is [SystemCaps]. *)
Definition main_signature (f : FunctionDeclaration) : semantic_result () :=
  if bool_decide (function_name f ≠ u "main") then Done ()
  else
    match parameters f with
    | [] => Done ()
    | [p] => if bool_decide (names (parameter_type p) = [u "SystemCaps"]) then Done () else Raise (Refused 2401 (parameter_location p))
    | _ => Raise (Refused 1301 (function_location f))
    end.

Definition check_parameter_roots (f : FunctionDeclaration) (p : FunctionParameter) : semantic_result () :=
  if bool_decide (function_name f = u "main") && bool_decide (names (parameter_type p) = [u "SystemCaps"]) then Done ()
  else if mentions_root (parameter_type p) then Raise (Refused 2402 (parameter_location p))
  else Done ().

Definition _validate_function_signature (f : FunctionDeclaration) : semantic_result () :=
  if bool_decide (function_name f ∈ [u "Some"; u "None"; u "Ok"; u "Err"])
     || bool_decide (function_name f ∈ dom (declared_variants T)) then Raise (Refused 1701 (function_location f))
  else
    _ ← outcome_fold (λ _ p, validate_names (parameter_location p) (parameter_type p)) () (parameters f);
    _ ← match return_type f with None => Done () | Some r => validate_names (type_location r) r end;
    _ ← main_signature f;
    _ ← outcome_fold (λ _ p, check_parameter_roots f p) () (parameters f);
    match return_type f with
    | None => Done ()
    | Some r => if mentions_root r then Raise (Refused 2402 (type_location r)) else Done ()
    end.

Definition new_checker : checker := mk_checker [] 0 0 0 0 ∅.

(** [SemanticChecker.check]. *)
Definition check_program (program : NativeProgram) : semantic_result SemanticReport :=
  _ ← outcome_fold check_enum (∅, ∅) (enums program);
  _ ← outcome_fold (λ _ d, check_struct d) () (structs program);
  _ ← outcome_fold (λ _ f, _validate_function_signature f) () (declarations program);
  r ← sem_each _check_function (declarations program) new_checker;
  Done (mk_report (Z.of_nat (length (declarations program))) (variable_count r.2) (capability_count r.2)).
End checker.

(** [check]. *)
Definition check (url_origin : ustring → option (ustring * option ustring)) (evidence : gmap (ustring * Z * Z) TypeNode)
    (program : NativeProgram) (modules : list (ustring * imported_module)) : semantic_result SemanticReport :=
  T ← new_tables program modules; check_program T url_origin evidence program.
