(* ===== verification/SemanticScope.v ===== *)
(** The scopes of the semantic checker: an induction over syntax trees, what a check
leaves as it was, and the rules of names, literals and loops that an accepted
program obeys. *)

From S2P Require Import Prelude TypeSystem Lexer Mir Value NativeRuntime Ast Capability Semantic.

(** * Induction over trees *)

Section tree_induction.
Context (PE : Expression → Prop) (PA : MatchArm → Prop) (PS : Statement → Prop) (PB : Block → Prop).

(** One case for each node class; the parts of a node satisfy their predicates. *)
Record tree_cases : Prop := {
  case_identifier name l : PE (Identifier name l);
  case_literal v l : PE (Literal v l);
  case_interpolated parts l : Forall PE parts → PE (InterpolatedString parts l);
  case_struct name fields l : Forall (λ f, PE f.2) fields → PE (StructLiteral name fields l);
  case_list items l : Forall PE items → PE (ListLiteral items l);
  case_map entries l : Forall (λ kv, PE kv.1 ∧ PE kv.2) entries → PE (MapLiteral entries l);
  case_member object member l : PE object → PE (MemberExpression object member l);
  case_call callee arguments l : PE callee → Forall PE arguments → PE (CallExpression callee arguments l);
  case_assignment target value l : PE target → PE value → PE (AssignmentExpression target value l);
  case_binary lhs operator rhs l : PE lhs → PE rhs → PE (BinaryExpression lhs operator rhs l);
  case_unary operator operand l : PE operand → PE (UnaryExpression operator operand l);
  case_or_return value error l : PE value → (∀ e, error = Some e → PE e) → PE (OrReturnExpression value error l);
  case_or_else value fallback l : PE value → PE fallback → PE (OrElseExpression value fallback l);
  case_or_block value handler l : PE value → PB handler → PE (OrBlockExpression value handler l);
  case_match value arms l : PE value → Forall PA arms → PE (MatchExpression value arms l);
  case_arm_expression variant binding e l : PE e → PA (mk_arm variant binding (ArmExpression e) l);
  case_arm_block variant binding b l : PB b → PA (mk_arm variant binding (ArmBlock b) l);
  case_let name is_mutable value l annotation : PE value → PS (LetStatement name is_mutable value l annotation);
  case_return value l : (∀ e, value = Some e → PE e) → PS (ReturnStatement value l);
  case_expression e l : PE e → PS (ExpressionStatement e l);
  case_if condition then_block else_branch l : PE condition → PB then_block →
    (∀ b, else_branch = Some (ElseBlock b) → PB b) → (∀ s, else_branch = Some (ElseIf s) → PS s) →
    PS (IfStatement condition then_block else_branch l);
  case_while condition body l : PE condition → PB body → PS (WhileStatement condition body l);
  case_for variable iterable body l : PE iterable → PB body → PS (ForStatement variable iterable body l);
  case_break l : PS (BreakStatement l);
  case_continue l : PS (ContinueStatement l);
  case_block l : Forall PS l → PB (mk_block l);
}.

Context (H : tree_cases).

Fixpoint tree_expression (e : Expression) {struct e} : PE e
with tree_arm (a : MatchArm) {struct a} : PA a
with tree_statement (s : Statement) {struct s} : PS s
with tree_block (b : Block) {struct b} : PB b.
Proof.
  - destruct e as [name l|v l|parts l|name fields l|items l|entries l|object member l|callee arguments l|target value l
      |lhs op rhs l|op operand l|value error l|value fallback l|value handler l|value arms l].
    + apply case_identifier, H.
    + apply case_literal, H.
    + apply case_interpolated; [exact H|]. induction parts as [|x parts IH]; constructor; [apply tree_expression|exact IH].
    + apply case_struct; [exact H|]. induction fields as [|[k x] fields IH]; constructor; [apply tree_expression|exact IH].
    + apply case_list; [exact H|]. induction items as [|x items IH]; constructor; [apply tree_expression|exact IH].
    + apply case_map; [exact H|]. induction entries as [|[k x] entries IH]; constructor; [|exact IH].
      split; apply tree_expression.
    + apply case_member; [exact H|apply tree_expression].
    + apply case_call; [exact H|apply tree_expression|].
      induction arguments as [|x arguments IH]; constructor; [apply tree_expression|exact IH].
    + apply case_assignment; [exact H|apply tree_expression..].
    + apply case_binary; [exact H|apply tree_expression..].
    + apply case_unary; [exact H|apply tree_expression].
    + apply case_or_return; [exact H|apply tree_expression|]. destruct error as [x|]; [|discriminate].
      intros e [= <-]. apply tree_expression.
    + apply case_or_else; [exact H|apply tree_expression..].
    + apply case_or_block; [exact H|apply tree_expression|apply tree_block].
    + apply case_match; [exact H|apply tree_expression|].
      induction arms as [|x arms IH]; constructor; [apply tree_arm|exact IH].
  - destruct a as [variant binding [e|b] l].
    + apply case_arm_expression; [exact H|apply tree_expression].
    + apply case_arm_block; [exact H|apply tree_block].
  - destruct s as [name m value l annotation|value l|e l|condition b [[b'|s]|] l|condition b l|variable iterable b l|l|l].
    + apply case_let; [exact H|apply tree_expression].
    + apply case_return; [exact H|]. destruct value as [x|]; [|discriminate]. intros e [= <-]. apply tree_expression.
    + apply case_expression; [exact H|apply tree_expression].
    + apply case_if; [exact H|apply tree_expression|apply tree_block| |discriminate]. intros x [= <-]. apply tree_block.
    + apply case_if; [exact H|apply tree_expression|apply tree_block|discriminate|]. intros x [= <-]. apply tree_statement.
    + apply case_if; [exact H|apply tree_expression|apply tree_block|discriminate|discriminate].
    + apply case_while; [exact H|apply tree_expression|apply tree_block].
    + apply case_for; [exact H|apply tree_expression|apply tree_block].
    + apply case_break, H.
    + apply case_continue, H.
  - destruct b as [l]. apply case_block; [exact H|]. induction l as [|x l IH]; constructor; [apply tree_statement|exact IH].
Qed.

Lemma tree_induction : (∀ e, PE e) ∧ (∀ a, PA a) ∧ (∀ s, PS s) ∧ ∀ b, PB b.
Proof.
  split; [exact tree_expression|]. split; [exact tree_arm|]. split; [exact tree_statement|exact tree_block].
Qed.
End tree_induction.

(** * What a check keeps *)

(** Inner scopes gain names and change none. *)
Definition scopes_grow (l l' : list (gmap ustring Symbol)) : Prop :=
  match l, l' with
  | scope :: rest, scope' :: rest' => scope ⊆ scope' ∧ rest' = rest
  | [], [] => True
  | _, _ => False
  end.

(** [whole]: every scope is what it was; otherwise the innermost may gain names. *)
Record steady (whole : bool) (s s' : checker) : Prop := {
  steady_scopes : if whole then scopes s' = scopes s else scopes_grow (scopes s) (scopes s');
  steady_loops : loop_depth s' = loop_depth s;
  steady_ergonomics : ergonomics_loop_depth s' = ergonomics_loop_depth s;
  steady_variables : variable_count s <= variable_count s';
  steady_capabilities : capability_count s <= capability_count s';
}.

Lemma scopes_grow_refl l : scopes_grow l l.
Proof. by destruct l. Qed.

Lemma scopes_grow_trans a b c : scopes_grow a b → scopes_grow b c → scopes_grow a c.
Proof.
  destruct a, b, c; cbn; try done. intros [H1 ->] [H2 ->]. split; [by etrans|done].
Qed.

Lemma steady_refl whole s : steady whole s s.
Proof. split; try done. destruct whole; [done|apply scopes_grow_refl]. Qed.

Lemma steady_trans whole a b c : steady whole a b → steady whole b c → steady whole a c.
Proof.
  intros [A1 A2 A3 A4 A5] [B1 B2 B3 B4 B5]. split; try congruence; try lia.
  destruct whole; [congruence|by eapply scopes_grow_trans].
Qed.

Lemma steady_weaken whole s s' : steady true s s' → steady whole s s'.
Proof. intros [A1 A2 A3 A4 A5]. split; try done. destruct whole; [done|]. rewrite A1. apply scopes_grow_refl. Qed.

(** A check that succeeds keeps the state. *)
Definition keeps_state {A} (whole : bool) (c : sem A) : Prop := ∀ s a s', c s = Done (a, s') → steady whole s s'.

Lemma sem_bind_done {A B} (c : sem A) (f : A → sem B) s b s' :
  (c ≫= f) s = Done (b, s') ↔ ∃ a s1, c s = Done (a, s1) ∧ f a s1 = Done (b, s').
Proof.
  unfold mbind, sem_bind. split.
  - destruct (c s) as [[a s1]| |]; [|discriminate..]. intros H. by exists a, s1.
  - intros (a & s1 & -> & H). done.
Qed.

Lemma lift_done {A} (r : semantic_result A) s a s' : lift r s = Done (a, s') ↔ r = Done a ∧ s' = s.
Proof. unfold lift. destruct r; cbn; split; [by intros [= <- <-]|by intros [[= ->] ->]|done|by intros []|done|by intros []]. Qed.

Lemma refuse_if_done b code l s a s' : refuse_if b code l s = Done (a, s') ↔ b = false ∧ s' = s.
Proof. unfold refuse_if. destruct b; cbn; [|destruct a]; split; [done|by intros []|by intros [= ->]|by intros [_ ->]]. Qed.

Section keeps.
Context (whole : bool).

Lemma sem_keeps_ret {A} (a : A) : keeps_state whole (mret a).
Proof. intros s b s' [= <- <-]. apply steady_refl. Qed.

Lemma sem_keeps_bind {A B} (c : sem A) (f : A → sem B) :
  keeps_state whole c → (∀ a, keeps_state whole (f a)) → keeps_state whole (c ≫= f).
Proof.
  intros Hc Hf s b s' (a & s1 & H1 & H2)%sem_bind_done. eapply steady_trans; [by eapply Hc|by eapply Hf].
Qed.

Lemma sem_keeps_raise {A} e : keeps_state whole (λ s, Raise e : semantic_result (A * checker)).
Proof. intros s a s'. done. Qed.

Lemma sem_keeps_refuse {A} code l : keeps_state whole (refuse (A := A) code l).
Proof. apply sem_keeps_raise. Qed.

Lemma sem_keeps_bug {A} : keeps_state whole (checker_bug (A := A)).
Proof. apply sem_keeps_raise. Qed.

Lemma sem_keeps_outside {A} what : keeps_state whole (outside_checker (A := A) what).
Proof. apply sem_keeps_raise. Qed.

Lemma sem_keeps_refuse_if b code l : keeps_state whole (refuse_if b code l).
Proof. destruct b; [apply sem_keeps_refuse|apply sem_keeps_ret]. Qed.

Lemma sem_keeps_ask {A} (f : checker → A) : keeps_state whole (ask_checker f).
Proof. intros s a s' [= <- <-]. apply steady_refl. Qed.

Lemma sem_keeps_lift {A} (r : semantic_result A) : keeps_state whole (lift r).
Proof. intros s a s' [_ ->]%lift_done. apply steady_refl. Qed.

Lemma sem_keeps_add_variable : keeps_state whole (modify add_variable).
Proof. intros s a s' [= <- <-]. destruct (steady_refl whole s). split; try done. cbn. lia. Qed.

Lemma sem_keeps_add_capability : keeps_state whole (modify add_capability).
Proof. intros s a s' [= <- <-]. destruct (steady_refl whole s). split; try done. cbn. lia. Qed.

Lemma sem_keeps_element_type name t : keeps_state whole (modify (set_element_type name t)).
Proof. intros s a s' [= <- <-]. by destruct (steady_refl whole s). Qed.

Lemma sem_keeps_weaken {A} (c : sem A) : keeps_state true c → keeps_state whole c.
Proof. intros H s a s' Hc. by eapply steady_weaken, H. Qed.

Lemma sem_keeps_scope {A} (c : sem A) : keeps_state false c → keeps_state whole (in_scope c).
Proof.
  intros H. apply sem_keeps_weaken. intros s a s'. unfold in_scope.
  intros (? & s1 & [= <- <-] & (b & s2 & Hc & (? & s3 & [= <- <-] & [= <- <-])%sem_bind_done)%sem_bind_done)%sem_bind_done.
  apply H in Hc as [B1 B2 B3 B4 B5]. cbn in *. destruct (scopes s2) as [|scope2 rest2]; [done|]. by destruct B1 as [_ ->].
Qed.

Lemma sem_keeps_each {A} (f : A → sem ()) l : Forall (λ x, keeps_state whole (f x)) l → keeps_state whole (sem_each f l).
Proof. induction 1 as [|x l Hx Hl IH]; [apply sem_keeps_ret|]. apply sem_keeps_bind; [done|intros _; exact IH]. Qed.

Lemma sem_keeps_map {A B} (f : A → sem B) l : Forall (λ x, keeps_state whole (f x)) l → keeps_state whole (sem_map f l).
Proof.
  induction 1 as [|x l Hx Hl IH]; [apply sem_keeps_ret|]. apply sem_keeps_bind; [done|]. intros y. apply sem_keeps_bind; [done|].
  intros ys. apply sem_keeps_ret.
Qed.
End keeps.

Lemma sem_keeps_declare symbol : keeps_state false (_declare symbol).
Proof.
  intros s a s'. unfold _declare. destruct (scopes s) as [|scope rest] eqn:E; [done|].
  case_bool_decide as Hd; [done|]. apply not_elem_of_dom in Hd. intros [= <- <-].
  split; case_bool_decide; cbn; rewrite ?E; cbn; try done; try lia; (split; [by apply insert_subseteq|done]).
Qed.

(** The depth of the loops is what it was after the loop. *)
Lemma sem_keeps_loop whole a b (c : sem ()) :
  keeps_state whole c → keeps_state whole (_ ← modify (add_loops a b); _ ← c; modify (add_loops (- a) (- b))).
Proof.
  intros H s ? s'.
  intros (? & s1 & [= <- <-] & (? & s2 & Hc & [= <- <-])%sem_bind_done)%sem_bind_done.
  apply H in Hc as [B1 B2 B3 B4 B5]. cbn in *. split; cbn; try done; lia.
Qed.

(** [while] counts the loop of its condition and then that of its body. *)
Lemma sem_keeps_while {A} (condition : sem A) (test : A → sem ()) (body : sem ()) :
  keeps_state true condition → (∀ t, keeps_state true (test t)) → keeps_state false body →
  keeps_state true (_ ← modify (add_loops 0 1); t ← condition; _ ← test t; _ ← modify (add_loops 1 0); _ ← in_scope body;
    modify (add_loops (-1) (-1))).
Proof.
  intros Hc Ht Hb s ? s'. rewrite sem_bind_done. intros (? & s1 & [= <- <-] & H).
  apply sem_bind_done in H as (t & s2 & H2%Hc & H). apply sem_bind_done in H as (? & s3 & H3%Ht & H).
  apply sem_bind_done in H as (? & s4 & [= <- <-] & H).
  apply sem_bind_done in H as (? & s5 & H5%(sem_keeps_scope true _ Hb) & [= <- <-]).
  destruct (steady_trans _ _ _ _ H2 H3) as [A1 A2 A3 A4 A5], H5 as [B1 B2 B3 B4 B5]. cbn in *. split; cbn; try congruence; lia.
Qed.

(** The first entry of a list of optional values has what all of them have. *)
Lemma head_omap {A} (P : A → Prop) (l : list (option A)) a :
  Forall (λ o, ∀ a, o = Some a → P a) l → head (omap (λ o, o) l) = Some a → P a.
Proof. induction 1 as [|[x|] l Hx Hl IH]; cbn; [done| |exact IH]. intros [= <-]. by apply Hx. Qed.

Create HintDb keeps_sem discriminated.
#[export] Hint Constants Opaque : keeps_sem.
#[export] Hint Resolve sem_keeps_ret sem_keeps_refuse sem_keeps_bug sem_keeps_outside sem_keeps_refuse_if sem_keeps_ask sem_keeps_lift sem_keeps_add_variable
  sem_keeps_add_capability sem_keeps_element_type sem_keeps_declare : keeps_sem.

Ltac keeps_sem_step :=
  match goal with
  | |- keeps_state _ (mbind _ _) => apply sem_keeps_bind; [|intros ?]
  | |- keeps_state _ (in_scope _) => apply sem_keeps_scope
  | |- keeps_state _ (if ?x then _ else _) => destruct x
  | |- keeps_state _ (match ?x with _ => _ end) => destruct x
  | |- keeps_state _ ((λ _, _) _) => cbv beta
  | |- keeps_state _ (let _ := _ in _) => cbv zeta
  end.
Ltac keeps_sem := repeat first
  [ solve [auto 2 with keeps_sem nocore] | keeps_sem_step | solve [apply sem_keeps_weaken; auto 2 with keeps_sem nocore] ].

Section operations.
Context (T : tables) (url_origin : ustring → option (ustring * option ustring)) (evidence : gmap (ustring * Z * Z) TypeNode).
Context (whole : bool).

Lemma sem_keeps_resolve name : keeps_state whole (_resolve name).
Proof. apply sem_keeps_ask. Qed.
#[local] Hint Resolve sem_keeps_resolve : keeps_sem.

Lemma sem_keeps_unknown {A} name l : keeps_state whole (_raise_unknown_identifier (A := A) name l).
Proof. unfold _raise_unknown_identifier. keeps_sem. Qed.
#[local] Hint Resolve sem_keeps_unknown : keeps_sem.

Lemma sem_keeps_require_bool t l : keeps_state whole (_require_bool t l).
Proof. unfold _require_bool. keeps_sem. Qed.

Lemma sem_keeps_literal v l : keeps_state whole (literal_type v l).
Proof. unfold literal_type. keeps_sem. Qed.

Lemma sem_keeps_identifier name l : keeps_state whole (identifier_type T name l).
Proof. unfold identifier_type. keeps_sem. Qed.

Lemma sem_keeps_member t member l : keeps_state whole (member_type T t member l).
Proof. unfold member_type. keeps_sem. Qed.

Lemma sem_keeps_method_call t method types arguments l :
  keeps_state whole (_check_method_call T url_origin t method types arguments l).
Proof. unfold _check_method_call, base_method_call. keeps_sem. Qed.

Lemma sem_keeps_named_call name types l c : keeps_state whole c → keeps_state whole (named_call T name types l c).
Proof. intros H. unfold named_call. keeps_sem. Qed.
#[local] Hint Resolve sem_keeps_require_bool : keeps_sem.

Lemma sem_keeps_binary operator t1 t2 l : keeps_state whole (_binary_types operator t1 t2 l).
Proof. unfold _binary_types, _check_binary. keeps_sem. Qed.

Lemma sem_keeps_decimal_gate lhs rhs l : keeps_state whole (decimal_gate T lhs rhs l).
Proof. unfold decimal_gate. keeps_sem. Qed.
End operations.

#[export] Hint Resolve sem_keeps_resolve sem_keeps_unknown sem_keeps_require_bool sem_keeps_literal sem_keeps_identifier sem_keeps_member
  sem_keeps_method_call sem_keeps_binary sem_keeps_decimal_gate : keeps_sem.

Section checker.
Context (T : tables) (url_origin : ustring → option (ustring * option ustring)) (evidence : gmap (ustring * Z * Z) TypeNode).
Context (current : FunctionDeclaration).

Abbreviation expression_check := (check_expression T url_origin evidence current).
Abbreviation receiver_check := (receiver_type T url_origin evidence current).
Abbreviation statement_check := (check_statement T url_origin evidence current).
Abbreviation block_check := (check_statements T url_origin evidence current).
Abbreviation arm_check := (arm_type T url_origin evidence current).

(** An expression, as itself, as a receiver and as a call that may fail. *)
Definition expression_keeps (e : Expression) : Prop :=
  keeps_state true (expression_check e) ∧ keeps_state true (receiver_check e) ∧
  keeps_state true (_is_fallible_call T receiver_check e).

(** With the object of a member, which a call checks by itself. *)
Definition tree_keeps (e : Expression) : Prop :=
  expression_keeps e ∧ match e with MemberExpression object _ _ => expression_keeps object | _ => True end.

Definition statement_keeps (s : Statement) : Prop :=
  keeps_state false (statement_check s) ∧ match s with ExpressionStatement e _ => keeps_state true (expression_check e) | _ => True end.

Definition block_keeps (b : Block) : Prop := Forall statement_keeps (statements b).

Lemma block_keeps_state b : block_keeps b → keeps_state false (block_check b).
Proof.
  destruct b as [l]. intros H. apply sem_keeps_each. eapply Forall_impl; [exact H|]. by intros s [Hs _].
Qed.

Lemma sem_keeps_check_return t l : keeps_state true (check_return T current t l).
Proof. unfold check_return. keeps_sem. Qed.

Lemma sem_keeps_match value arms l :
  keeps_state true (expression_check value) → Forall (λ a, keeps_state true (arm_check a)) arms →
  keeps_state true (_match T expression_check arm_check value arms l).
Proof.
  intros Hv Ha. unfold _match. apply sem_keeps_bind; [done|]. intros t. destruct (_enum_shape T t) as [shape|]; [|keeps_sem].
  apply sem_keeps_bind; [|intros ?; keeps_sem].
  generalize (∅ : gset ustring) (None : type_name). induction Ha as [|[variant binding body at_arm] arms Harm Ha IH]; intros seen result; cbn [match_loop].
  { apply sem_keeps_ret. }
  keeps_sem.
Qed.

Lemma sem_keeps_declare_let name m t annotation l : keeps_state false (declare_let T name m t annotation l).
Proof. unfold declare_let. keeps_sem. Qed.

Lemma sem_keeps_for_scope variable item l body : keeps_state false body → keeps_state true (for_scope variable item l body).
Proof. intros H. unfold for_scope. apply (sem_keeps_loop true 1 1). keeps_sem. Qed.

Lemma sem_keeps_assign_variable name at_name t l : keeps_state true (assign_variable T name at_name t l).
Proof. unfold assign_variable. keeps_sem. Qed.

Lemma sem_keeps_field_target name at_name member at_member l : keeps_state true (field_target T name at_name member at_member l).
Proof. unfold field_target. keeps_sem. Qed.

Lemma sem_keeps_or_else t1 t2 l1 l2 : keeps_state true (or_else_type T t1 t2 l1 l2).
Proof. unfold or_else_type. keeps_sem. Qed.
#[local] Hint Resolve sem_keeps_check_return sem_keeps_assign_variable sem_keeps_field_target sem_keeps_or_else sem_keeps_declare_let : keeps_sem.

Lemma sem_keeps_struct_literal name fields l : Forall (λ f, tree_keeps f.2) fields →
  keeps_state true (_check_struct_literal T expression_check name fields l).
Proof.
  intros H. unfold _check_struct_literal. destruct (declared_structs T !! name) as [d|]; [|keeps_sem].
  apply sem_keeps_bind; [|intros ?; keeps_sem]. generalize ([] : list ustring).
  induction H as [|[n x] fields [[Hx _] _] H IH]; intros provided; cbn [struct_entries]; [apply sem_keeps_ret|].
  keeps_sem.
Qed.

Lemma sem_keeps_map_entries entries : Forall (λ kv, tree_keeps kv.1 ∧ tree_keeps kv.2) entries → ∀ keys,
  keeps_state true (map_entries T expression_check keys entries).
Proof.
  induction 1 as [|[k x] entries [[[Hk _] _] [[Hx _] _]] H IH]; intros keys; cbn [map_entries]; [apply sem_keeps_ret|].
  cbn [fst snd] in *. keeps_sem.
Qed.

Lemma sem_keeps_call callee arguments l : tree_keeps callee → Forall tree_keeps arguments →
  keeps_state true (expression_check (CallExpression callee arguments l)).
Proof.
  intros [[Hc _] Ho] Ha. assert (Forall (λ e, keeps_state true (expression_check e)) arguments) as Hargs.
  { eapply Forall_impl; [exact Ha|]. by intros e [[H _] _]. }
  pose proof (sem_keeps_map true expression_check arguments Hargs) as Hm. cbn [check_expression].
  destruct callee as [name at_name| | | | | |object member at_member| | | | | | | |];
    try (apply sem_keeps_bind; [exact Hm|intros ?; exact Hc]).
  - destruct (bool_decide _); [apply sem_keeps_outside|]. apply sem_keeps_bind; [|intros _; apply sem_keeps_bind; [exact Hm|intros ?; by apply sem_keeps_named_call]].
    destruct arguments as [|x [|]]; [keeps_sem| |keeps_sem]. apply Forall_cons in Hargs as [Hx _]. keeps_sem.
  - destruct Ho as [Ho _]. apply sem_keeps_bind; [exact Hm|intros ?]. apply sem_keeps_bind; [exact Ho|intros ?]. keeps_sem.
Qed.

Lemma sem_keeps_fallible_call callee arguments l : tree_keeps callee →
  keeps_state true (_is_fallible_call T receiver_check (CallExpression callee arguments l)) ∧
  keeps_state true (receiver_check (CallExpression callee arguments l)).
Proof.
  intros [_ Ho]. cbn [_is_fallible_call receiver_type].
  destruct callee as [name at_name| | | | | |object member at_member| | | | | | | |]; try (split; keeps_sem).
  all: destruct Ho as (_ & Ho & _); exact Ho.
Qed.

Lemma sem_keeps_block_value l : Forall statement_keeps l →
  keeps_state false (block_value statement_check
    (λ tail, match tail with
             | ExpressionStatement e _ => expression_check e
             | _ => _ ← statement_check tail; mret (Some (u "Void"))
             end) l).
Proof.
  induction 1 as [|s l [Hs He] Hl IH]; cbn [block_value]; [apply sem_keeps_ret|]. destruct l as [|s' l].
  - destruct s; try (apply sem_keeps_bind; [exact Hs|intros ?; apply sem_keeps_ret]). by apply sem_keeps_weaken.
  - apply sem_keeps_bind; [exact Hs|intros _; exact IH].
Qed.

(** The parts of [tree_keeps] that need no induction. *)
Ltac node H :=
  apply H; cbn [check_expression receiver_type _is_fallible_call]; try exact I; try assumption; try (solve [keeps_sem]).

Lemma sem_keeps_tree : tree_cases tree_keeps (λ a, keeps_state true (arm_check a)) statement_keeps block_keeps.
Proof.
  assert (∀ e, keeps_state true (expression_check e) →
            keeps_state true (receiver_check e) → keeps_state true (_is_fallible_call T receiver_check e) →
            (match e with MemberExpression object _ _ => expression_keeps object | _ => True end) → tree_keeps e) as Htree by done.
  split.
  - intros name l. node Htree.
  - intros v l. node Htree.
  - intros parts l H. node Htree.
    apply sem_keeps_bind; [|intros _; apply sem_keeps_bind; [|intros _; apply sem_keeps_ret]]; apply sem_keeps_each;
      (eapply Forall_impl; [exact H|]); intros e ((H1 & H2 & H3) & _); unfold data_part, interpolation_part; keeps_sem.
  - intros name fields l H. node Htree.
    by apply sem_keeps_struct_literal.
  - intros items l H. node Htree.
    apply sem_keeps_bind; [|intros _; apply sem_keeps_ret]. apply sem_keeps_each.
    eapply Forall_impl; [exact H|]. intros e ((H1 & H2 & H3) & _). unfold list_item_check. keeps_sem.
  - intros entries l H. node Htree.
    apply sem_keeps_bind; [|intros _; apply sem_keeps_ret]. by apply sem_keeps_map_entries.
  - intros object member l [Ho Ho']. node Htree.
    all: destruct Ho as (H1 & H2 & H3); keeps_sem.
  - intros callee arguments l Hc Ha. destruct (sem_keeps_fallible_call callee arguments l Hc). apply Htree; try done. by apply sem_keeps_call.
  - intros target value l [[Ht _] Hm] [[Hv _] _]. node Htree.
    destruct target as [| | | | | |object ? ?| | | | | | | |]; try (keeps_sem; fail).
    destruct object; unfold declared_item; keeps_sem.
  - intros lhs operator rhs l [[H1 _] _] [[H2 _] _]. node Htree.
  - intros operator operand l [[H1 _] _]. node Htree.
  - intros value error l [[H1 _] _] H2. node Htree.
    destruct error as [e|]; [destruct (H2 e eq_refl) as [[He _] _]|]; keeps_sem.
  - intros value fallback l [[H1 _] _] [[H2 _] _]. node Htree.
  - intros value handler l [[H1 _] _] Hb%block_keeps_state. node Htree.
  - intros value arms l [[H1 _] _] Ha. pose proof (sem_keeps_match value arms l H1 Ha).
    node Htree.
  - intros variant binding e l [[H _] _]. exact H.
  - intros variant binding [l'] l H. cbn [arm_type]. apply sem_keeps_scope. by apply sem_keeps_block_value.
  - intros name m value l annotation [[H _] _]. split; [|done]. cbn [check_statement]. keeps_sem.
  - intros value l H. split; [|done]. cbn [check_statement]. apply sem_keeps_weaken.
    apply sem_keeps_bind; [|intros ?; keeps_sem]. destruct value as [e|]; [|keeps_sem]. by destruct (H e eq_refl) as [[He _] _].
  - intros e l [(H1 & H2 & H3) _]. split; [|exact H1]. cbn [check_statement]. apply sem_keeps_weaken. keeps_sem.
  - intros condition b e l [[Hc _] _] Hb%block_keeps_state He Hs. split; [|done]. cbn [check_statement].
    apply sem_keeps_bind; [by apply sem_keeps_weaken|intros t]. apply sem_keeps_bind; [keeps_sem|intros _].
    apply sem_keeps_bind; [by apply sem_keeps_scope|intros _].
    destruct e as [[b'|s]|]; [|destruct s as [| | |c b1 e1 l1| | | |]|]; try apply sem_keeps_ret.
    + apply sem_keeps_scope, block_keeps_state. by apply He.
    + by destruct (Hs _ eq_refl) as [Hs' _].
  - intros condition b l [[Hc _] _] Hb%block_keeps_state. split; [|done]. cbn [check_statement]. apply sem_keeps_weaken.
    apply (sem_keeps_while _ (λ t, _require_bool (_success_type t) l)); [exact Hc|intros t; keeps_sem|exact Hb].
  - intros variable iterable b l [[Hi _] _] Hb%block_keeps_state. split; [|done]. cbn [check_statement]. apply sem_keeps_weaken.
    apply sem_keeps_bind; [exact Hi|intros t]. cbv zeta. keeps_sem. by apply sem_keeps_for_scope.
  - intros l. split; [|done]. cbn [check_statement]. keeps_sem.
  - intros l. split; [|done]. cbn [check_statement]. keeps_sem.
  - intros l H. exact H.
Qed.

(** Every expression leaves the scopes and loops as they were. *)
Lemma check_expression_keeps e : keeps_state true (expression_check e).
Proof. apply (tree_induction _ _ _ _ sem_keeps_tree). Qed.

Lemma fallible_call_keeps e : keeps_state true (_is_fallible_call T receiver_check e).
Proof. apply (tree_induction _ _ _ _ sem_keeps_tree). Qed.

Lemma check_statement_keeps s : keeps_state false (statement_check s).
Proof. apply (tree_induction _ _ _ _ sem_keeps_tree). Qed.

Lemma check_statements_keeps b : keeps_state false (block_check b).
Proof. apply block_keeps_state, (tree_induction _ _ _ _ sem_keeps_tree). Qed.

Lemma arm_type_keeps a : keeps_state true (arm_check a).
Proof. apply (tree_induction _ _ _ _ sem_keeps_tree). Qed.

Lemma check_function_keeps : keeps_state true (_check_function T url_origin evidence current).
Proof.
  unfold _check_function. apply sem_keeps_scope, sem_keeps_bind; [|intros _; apply check_statements_keeps].
  apply sem_keeps_each, Forall_forall. intros p _. keeps_sem.
Qed.
End checker.
