(* ===== verification/SemanticRules.v ===== *)
(** The rules of names, literals and loops as a checker without types, and that a
program which the semantic checker accepts obeys them.

[rules_expression] and [rules_statement] walk the tree with the names in scope and
whether they may be assigned; they say what the checker promises and not how it finds
types. *)

From S2P Require Import Prelude TypeSystem Lexer Parser Mir Value NativeRuntime Ast Capability Semantic SemanticScope.

(** The names in scope, innermost first, and whether each is [let mut]. *)
Abbreviation names_in_scope := (list (gmap ustring bool)).

Fixpoint bound (Γ : names_in_scope) (name : ustring) : option bool :=
  match Γ with
  | [] => None
  | scope :: Γ => match scope !! name with Some m => Some m | None => bound Γ name end
  end.

(** The innermost scope with one more name, unless it has it. *)
Definition bind_name (Γ : names_in_scope) (name : ustring) (is_mutable : bool) : option names_in_scope :=
  match Γ with
  | [] => None
  | scope :: rest => if bool_decide (name ∈ dom scope) then None else Some (<[name := is_mutable]> scope :: rest)
  end.

Definition literal_in_range (v : literal) : bool := match v with LitValue (VInt z) => in_int64 z | _ => true end.

(** Every declared field once, and no other. *)
Definition complete_fields (d : StructDeclaration) (given : list ustring) : bool :=
  bool_decide (NoDup given) && forallb (λ name, bool_decide (name ∈ field_name <$> struct_fields d)) given
  && forallb (λ f, bool_decide (field_name f ∈ given)) (struct_fields d).

Definition binding_scope (binding : option ustring) : gmap ustring bool :=
  match binding with Some name => {[name := false]} | None => ∅ end.

Definition arm_variant_name (a : MatchArm) : ustring := let 'mk_arm variant _ _ _ := a in variant.
Definition arm_binding (a : MatchArm) : option ustring := let 'mk_arm _ binding _ _ := a in binding.

Section rules.
Context (T : tables).

Definition known_name (Γ : names_in_scope) (name : ustring) : bool :=
  bool_decide (bound Γ name ≠ None) || bool_decide (name ∈ dom (functions T)) || bool_decide (name ∈ (imports T).*1)
  || bool_decide (name ∈ dom (declared_variants T)) || bool_decide (name ∈ BUILTIN_CALLS).

Definition assignable_name (Γ : names_in_scope) (name : ustring) : bool := bool_decide (bound Γ name = Some true).

Section thread.
Context (rule : names_in_scope → Statement → option names_in_scope).
Fixpoint thread (Γ : names_in_scope) (l : list Statement) : option names_in_scope :=
  match l with
  | [] => Some Γ
  | s :: l => Γ ← rule Γ s; thread Γ l
  end.
End thread.

Definition holds {A} (o : option A) : bool := match o with Some _ => true | None => false end.

(** [loops] counts the loops around the tree, a condition of [while] being inside. *)
Fixpoint rules_expression (Γ : names_in_scope) (loops : Z) (e : Expression) {struct e} : bool :=
  match e with
  | Identifier name _ => known_name Γ name
  | Literal v _ => literal_in_range v
  | InterpolatedString items _ | ListLiteral items _ => forallb (rules_expression Γ loops) items
  | StructLiteral name fields _ =>
      match declared_structs T !! name with Some d => complete_fields d fields.*1 | None => false end
      && forallb (λ f, rules_expression Γ loops f.2) fields
  | MapLiteral entries _ =>
      bool_decide (NoDup (omap string_literal entries.*1))
      && forallb (λ kv, rules_expression Γ loops kv.1 && rules_expression Γ loops kv.2) entries
  | MemberExpression object _ _ => rules_expression Γ loops object
  | CallExpression callee arguments _ => forallb (rules_expression Γ loops) arguments && rules_expression Γ loops callee
  | AssignmentExpression target value _ =>
      rules_expression Γ loops value &&
      match target with
      | Identifier name _ | MemberExpression (Identifier name _) _ _ => assignable_name Γ name
      | MemberExpression _ _ _ => false
      | _ => rules_expression Γ loops target
      end
  | BinaryExpression lhs _ rhs _ => rules_expression Γ loops lhs && rules_expression Γ loops rhs
  | UnaryExpression operator operand _ =>
      match (if bool_decide (operator = u "-") then int_literal operand else None) with
      | Some magnitude => (magnitude =? 2 ^ 63) || in_int64 magnitude
      | None => rules_expression Γ loops operand
      end
  | OrReturnExpression value error _ =>
      rules_expression Γ loops value && match error with Some e => rules_expression Γ loops e | None => true end
  | OrElseExpression value fallback _ => rules_expression Γ loops value && rules_expression Γ loops fallback
  | OrBlockExpression value handler _ => rules_expression Γ loops value && holds (rules_block (∅ :: Γ) loops handler)
  | MatchExpression value arms _ =>
      rules_expression Γ loops value && bool_decide (NoDup (arm_variant_name <$> arms))
      && forallb (λ a, rules_arm (binding_scope (arm_binding a) :: Γ) loops a) arms
  end
with rules_arm (Γ : names_in_scope) (loops : Z) (a : MatchArm) {struct a} : bool :=
  match a with
  | mk_arm _ _ (ArmExpression e) _ => rules_expression Γ loops e
  | mk_arm _ _ (ArmBlock b) _ => holds (rules_block (∅ :: Γ) loops b)
  end
with rules_statement (Γ : names_in_scope) (loops : Z) (s : Statement) {struct s} : option names_in_scope :=
  let when (b : bool) := if b then Some Γ else None in
  match s with
  | LetStatement name is_mutable value _ _ => if rules_expression Γ loops value then bind_name Γ name is_mutable else None
  | ReturnStatement value _ => when match value with Some e => rules_expression Γ loops e | None => true end
  | ExpressionStatement e _ => when (rules_expression Γ loops e)
  | IfStatement condition then_block else_branch _ =>
      when (rules_expression Γ loops condition && holds (rules_block (∅ :: Γ) loops then_block) &&
            match else_branch with
            | Some (ElseBlock b) => holds (rules_block (∅ :: Γ) loops b)
            | Some (ElseIf (IfStatement _ _ _ _ as s)) => holds (rules_statement Γ loops s)
            | Some (ElseIf _) | None => true
            end)
  | WhileStatement condition body _ =>
      when (rules_expression Γ (loops + 1) condition && holds (rules_block (∅ :: Γ) (loops + 1) body))
  | ForStatement variable iterable body _ =>
      when (rules_expression Γ loops iterable && holds (rules_block ({[variable := false]} :: Γ) (loops + 1) body))
  | BreakStatement _ | ContinueStatement _ => when (0 <? loops)
  end
with rules_block (Γ : names_in_scope) (loops : Z) (b : Block) {struct b} : option names_in_scope :=
  let 'mk_block l := b in thread (λ Γ s, rules_statement Γ loops s) Γ l.

(** The parameters are the names of the outermost scope. *)
Definition rules_function (f : FunctionDeclaration) : bool :=
  bool_decide (NoDup (parameter_name <$> parameters f))
  && holds (rules_block [list_to_map ((λ p, (parameter_name p, false)) <$> parameters f)] 0 (body f)).
End rules.

(** * What the checker knows of the names *)

Definition env (s : checker) : names_in_scope := (λ scope : gmap ustring Symbol, symbol_mutable <$> scope) <$> scopes s.

(** The names in scope and the depth of the loops stay. *)
Definition same_view (s s' : checker) : Prop := env s' = env s ∧ ergonomics_loop_depth s' = ergonomics_loop_depth s.

Lemma sem_keeps_view {A} (c : sem A) s a s' : keeps_state true c → c s = Done (a, s') → same_view s s'.
Proof. intros H Hc. destruct (H _ _ _ Hc) as [E1 _ E2 _ _]. split; [unfold env; by rewrite E1|done]. Qed.

Lemma bound_env l name :
  bound ((λ scope : gmap ustring Symbol, symbol_mutable <$> scope) <$> l) name = symbol_mutable <$> find_symbol l name.
Proof.
  induction l as [|scope l IH]; [done|]. cbn [fmap list_fmap bound find_symbol]. rewrite lookup_fmap. destruct (scope !! name); [done|exact IH].
Qed.

Lemma resolve_done name s o s' : _resolve name s = Done (o, s') → o = find_symbol (scopes s) name ∧ s' = s.
Proof. by intros [= <- <-]. Qed.

Lemma declare_env symbol s a s' : _declare symbol s = Done (a, s') →
  bind_name (env s) (symbol_name symbol) (symbol_mutable symbol) = Some (env s') ∧
  ergonomics_loop_depth s' = ergonomics_loop_depth s.
Proof.
  unfold _declare, env. destruct (scopes s) as [|scope rest] eqn:E; [done|]. case_bool_decide as Hd; [done|].
  intros [= <- <-]. cbn. rewrite dom_fmap_L. rewrite bool_decide_eq_false_2 by done.
  destruct (bool_decide _); cbn; by rewrite fmap_insert.
Qed.

Lemma in_scope_done {A} (c : sem A) s a s' : in_scope c s = Done (a, s') →
  ∃ s1, c (set_scopes (∅ :: scopes s) s) = Done (a, s1) ∧ s' = set_scopes (tail (scopes s1)) s1.
Proof.
  unfold in_scope. rewrite sem_bind_done. intros (? & ? & [= <- <-] & H). apply sem_bind_done in H as (b & s1 & Hc & H).
  apply sem_bind_done in H as (? & ? & [= <- <-] & [= <- <-]). by exists s1.
Qed.

Lemma sem_each_done {A} (f : A → sem ()) l s u s' : sem_each f l s = Done (u, s') →
  (∀ x, x ∈ l → keeps_state true (f x)) → same_view s s' ∧
  Forall (λ x, ∃ s1 s2, same_view s s1 ∧ f x s1 = Done (tt, s2)) l.
Proof.
  revert s. induction l as [|x l IH]; intros s; cbn [sem_each].
  { intros [= <- <-] _. by repeat constructor. }
  rewrite sem_bind_done. intros ([] & s1 & H1 & H2) Hk. pose proof (sem_keeps_view _ _ _ _ (Hk x ltac:(left)) H1) as [V1 V2].
  apply IH in H2 as [[W1 W2] Hl]; [|intros y Hy; apply Hk; by right]. split; [split; congruence|]. constructor.
  - by exists s, s1.
  - eapply Forall_impl; [exact Hl|]. intros y (s2 & s3 & [U1 U2] & Hy). exists s2, s3. split; [split; congruence|done].
Qed.

Lemma map_done {A B} (f : A → sem B) l s ys s' : sem_map f l s = Done (ys, s') →
  (∀ x, x ∈ l → keeps_state true (f x)) → same_view s s' ∧
  Forall (λ x, ∃ s1 y s2, same_view s s1 ∧ f x s1 = Done (y, s2)) l.
Proof.
  revert s ys. induction l as [|x l IH]; intros s ys; cbn [sem_map].
  { intros [= <- <-] _. by repeat constructor. }
  rewrite sem_bind_done. intros (y & s1 & H1 & H2) Hk. apply sem_bind_done in H2 as (ys' & s2 & H2 & [= <- <-]).
  pose proof (sem_keeps_view _ _ _ _ (Hk x ltac:(left)) H1) as [V1 V2].
  apply IH in H2 as [[W1 W2] Hl]; [|intros z Hz; apply Hk; by right]. split; [split; congruence|]. constructor.
  - by exists s, y, s1.
  - eapply Forall_impl; [exact Hl|]. intros z (s3 & b & s4 & [U1 U2] & Hy). exists s3, b, s4. split; [split; congruence|done].
Qed.

Section soundness.
Context (T : tables) (url_origin : ustring → option (ustring * option ustring)) (evidence : gmap (ustring * Z * Z) TypeNode).
Context (current : FunctionDeclaration).

Abbreviation expression_check := (check_expression T url_origin evidence current).
Abbreviation statement_check := (check_statement T url_origin evidence current).
Abbreviation block_check := (check_statements T url_origin evidence current).
Abbreviation arm_check := (arm_type T url_origin evidence current).

(** What an accepted expression obeys, in any state with the same names. *)
Definition expression_obeys (e : Expression) : Prop := ∀ s t s', expression_check e s = Done (t, s') →
  rules_expression T (env s) (ergonomics_loop_depth s) e = true.
Definition tree_obeys (e : Expression) : Prop :=
  expression_obeys e ∧ match e with MemberExpression object _ _ => expression_obeys object | _ => True end.
Definition arm_obeys (a : MatchArm) : Prop := ∀ s t s', arm_check a s = Done (t, s') →
  rules_arm T (env s) (ergonomics_loop_depth s) a = true.
Definition statement_obeys (st : Statement) : Prop :=
  (∀ s u s', statement_check st s = Done (u, s') →
     rules_statement T (env s) (ergonomics_loop_depth s) st = Some (env s')) ∧
  match st with ExpressionStatement e _ => expression_obeys e | _ => True end.
Definition block_obeys (b : Block) : Prop := Forall statement_obeys (statements b).

Lemma block_obeys_done b s u s' : block_obeys b → block_check b s = Done (u, s') →
  rules_block T (env s) (ergonomics_loop_depth s) b = Some (env s').
Proof.
  destruct b as [l]. cbn [check_statements rules_block]. intros H. unfold block_obeys in H. cbn [statements] in H.
  revert s. induction H as [|st l [Hst _] Hl IH]; intros s; cbn [sem_each thread].
  { by intros [= <- <-]. }
  rewrite sem_bind_done. intros ([] & s1 & H1 & H2). rewrite (Hst _ _ _ H1). cbn [mbind option_bind].
  pose proof (steady_ergonomics _ _ _ (check_statement_keeps T url_origin evidence current st _ _ _ H1)) as <-. by apply IH.
Qed.

Lemma handler_obeys b s a s' : block_obeys b → in_scope (block_check b) s = Done (a, s') →
  holds (rules_block T (∅ :: env s) (ergonomics_loop_depth s) b) = true.
Proof.
  intros Hb (s1 & H & ->)%in_scope_done. pose proof (block_obeys_done _ _ _ _ Hb H) as E. unfold env in E. cbn in E.
  rewrite fmap_empty in E. unfold env. cbn. by rewrite E.
Qed.

(** A name that [identifier_type] resolves is known. *)
Lemma identifier_known name l s t s' : identifier_type T name l s = Done (t, s') → known_name T (env s) name = true.
Proof.
  unfold identifier_type, known_name. rewrite sem_bind_done. intros (o & ? & [-> ->]%resolve_done & H).
  unfold env. rewrite bound_env. destruct (find_symbol (scopes s) name) as [symbol|]; [done|]. cbn [fmap option_fmap option_map].
  destruct (functions T !! name) as [f|] eqn:Ef.
  { rewrite (bool_decide_eq_true_2 (name ∈ dom (functions T))) by by eapply elem_of_dom_2. by rewrite orb_true_r. }
  case_bool_decide as Hi; [by rewrite !orb_true_r|].
  destruct (declared_variants T !! name) as [v|] eqn:Ev.
  { rewrite (bool_decide_eq_true_2 (name ∈ dom (declared_variants T))) by by eapply elem_of_dom_2. by rewrite !orb_true_r. }
  case_bool_decide as Hb; [by rewrite !orb_true_r|]. unfold _raise_unknown_identifier in H. by destruct (assoc _ _).
Qed.

(** A name that a call takes without checking the callee is known as well. *)
Lemma named_call_known Γ name types l c s t s' : named_call T name types l c s = Done (t, s') →
  known_name T Γ name = true ∨ c s = Done (t, s').
Proof.
  unfold named_call, known_name. destruct (functions T !! name) as [f|] eqn:Ef.
  { intros _. left. rewrite (bool_decide_eq_true_2 (name ∈ dom (functions T))) by by eapply elem_of_dom_2. by rewrite orb_true_r. }
  destruct (declared_variants T !! name) as [[enum v]|] eqn:Ev.
  { intros _. left. rewrite (bool_decide_eq_true_2 (name ∈ dom (declared_variants T))) by by eapply elem_of_dom_2.
    by rewrite !orb_true_r. }
  destruct (builtin_constructor T name types l) as [r|] eqn:Er; [|by right]. intros _. left.
  rewrite (bool_decide_eq_true_2 (name ∈ BUILTIN_CALLS)); [by rewrite orb_true_r|].
  destruct (decide (name ∈ [u "Error"; u "Some"; u "None"; u "Ok"; u "Err"])) as [Hin|Hout].
  - unfold BUILTIN_CALLS. set_solver.
  - unfold builtin_constructor in Er. rewrite !bool_decide_eq_false_2 in Er by set_solver. done.
Qed.

(** One step of a check that succeeded: its parts, and the names they leave. *)
Ltac check_step H K :=
  let a := fresh "a" in let s1 := fresh "s" in let Hd := fresh "Hd" in
  apply sem_bind_done in H as (a & s1 & Hd & H);
  let V := fresh "V" in pose proof (sem_keeps_view _ _ _ _ K Hd) as V; destruct V as [?V1 ?V2].

Lemma member_obeys object member l s t s' : expression_obeys object →
  expression_check (MemberExpression object member l) s = Done (t, s') →
  rules_expression T (env s) (ergonomics_loop_depth s) object = true.
Proof. intros Ho. cbn [check_expression]. rewrite sem_bind_done. intros (? & ? & H & _). by eapply Ho. Qed.

Lemma items_obey {A} (part : A → Expression) (f : A → sem ()) l s u s' :
  (∀ x, x ∈ l → keeps_state true (f x)) →
  (∀ x s1 s2, x ∈ l → f x s1 = Done (tt, s2) →
     rules_expression T (env s1) (ergonomics_loop_depth s1) (part x) = true) →
  sem_each f l s = Done (u, s') →
  same_view s s' ∧ forallb (λ x, rules_expression T (env s) (ergonomics_loop_depth s) (part x)) l = true.
Proof.
  intros Hk Hp H. apply sem_each_done in H as [V H]; [|done]. split; [done|]. apply forallb_forall. intros x Hx%list_elem_of_In.
  rewrite Forall_forall in H. destruct (H x Hx) as (s1 & s2 & [V1 V2] & Hf). rewrite <- V1, <- V2. by eapply Hp.
Qed.

Lemma arguments_obey arguments s types s' : Forall tree_obeys arguments →
  sem_map expression_check arguments s = Done (types, s') →
  same_view s s' ∧ forallb (rules_expression T (env s) (ergonomics_loop_depth s)) arguments = true.
Proof.
  intros Ha H. apply map_done in H as [V H]; [|intros x _; apply check_expression_keeps]. split; [done|].
  apply forallb_forall. intros x Hx%list_elem_of_In. rewrite Forall_forall in H, Ha. destruct (H x Hx) as (s1 & y & s2 & [V1 V2] & Hf).
  rewrite <- V1, <- V2. by eapply (Ha x Hx).
Qed.

Lemma call_obeys callee arguments l : tree_obeys callee → Forall tree_obeys arguments →
  expression_obeys (CallExpression callee arguments l).
Proof.
  intros [Hc Ho] Ha s t s' H. cbn [check_expression] in H. cbn [rules_expression].
  assert (∀ s0 ys s1, sem_map expression_check arguments s0 = Done (ys, s1) → same_view s s0 →
            forallb (rules_expression T (env s) (ergonomics_loop_depth s)) arguments = true ∧ same_view s s1) as Hargs.
  { intros s0 ys s1 H0 [V1 V2]. apply arguments_obey in H0 as [[W1 W2] Hr]; [|done]. rewrite V1, V2 in Hr.
    split; [done|split; congruence]. }
  destruct callee as [name at_name| | | | | |object member at_member| | | | | | | |];
    try (apply sem_bind_done in H as (types & s1 & H1 & H2); destruct (Hargs _ _ _ H1) as [Hr [V1 V2]]; [done|];
         rewrite Hr; cbn [andb]; rewrite <- V1, <- V2; by eapply Hc).
  - destruct (bool_decide _); [done|]. apply sem_bind_done in H as (u0 & s0 & H0 & H).
    assert (same_view s s0) as V0.
    { eapply sem_keeps_view; [|exact H0]. destruct arguments as [|x [|]]; [keeps_sem| |keeps_sem].
      pose proof (check_expression_keeps T url_origin evidence current x). keeps_sem. }
    apply sem_bind_done in H as (types & s1 & H1 & H2). destruct (Hargs _ _ _ H1 V0) as [Hr [V1 V2]]. rewrite Hr. cbn [andb rules_expression].
    apply (named_call_known (env s)) in H2 as [H2|H2]; [exact H2|]. rewrite <- V1. by eapply identifier_known.
  - apply sem_bind_done in H as (types & s1 & H1 & H2). destruct (Hargs _ _ _ H1) as [Hr [V1 V2]]; [done|].
    apply sem_bind_done in H2 as (t1 & s2 & H2 & _). rewrite Hr. cbn [andb rules_expression]. rewrite <- V1, <- V2. by eapply Ho.
Qed.

Lemma complete_literal name fields l s t s' : Forall (λ f, tree_obeys f.2) fields →
  _check_struct_literal T expression_check name fields l s = Done (t, s') →
  rules_expression T (env s) (ergonomics_loop_depth s) (StructLiteral name fields l) = true.
Proof.
  intros Hf H. unfold _check_struct_literal in H. cbn [rules_expression]. destruct (declared_structs T !! name) as [d|]; [|done].
  apply sem_bind_done in H as (provided & s1 & H1 & H2). apply sem_bind_done in H2 as (? & ? & [Hall ->]%refuse_if_done & _).
  assert (∀ provided0 s0, struct_entries T expression_check d l provided0 fields s0 = Done (provided, s1) →
            NoDup provided0 →
            provided = rev fields.*1 ++ provided0 ∧ NoDup provided ∧
            Forall (λ name, name ∈ field_name <$> struct_fields d) fields.*1 ∧
            forallb (λ f, rules_expression T (env s0) (ergonomics_loop_depth s0) f.2) fields = true) as Hentries.
  { clear H1 Hall. induction Hf as [|[n e] fields [He _] Hf IH]; intros provided0 s0; cbn [struct_entries].
    { by intros [= <- <-]. }
    destruct (expected_field d n) as [f|] eqn:Ef; [|done]. intros H Hnd.
    apply sem_bind_done in H as (? & ? & [Hn ->]%refuse_if_done & H). apply sem_bind_done in H as (ty & s2 & H2 & H).
    apply sem_bind_done in H as (? & ? & [_ ->]%lift_done & H). apply bool_decide_eq_false in Hn.
    pose proof (sem_keeps_view _ _ _ _ (check_expression_keeps T url_origin evidence current e) H2) as [V1 V2].
    apply IH in H as (-> & Hnd' & Hin & Hr); [|by constructor]. cbn [fmap list_fmap rev]. rewrite <- app_assoc.
    split; [done|]. split; [done|]. split.
    - constructor; [|done]. apply find_some in Ef as [Hin' Heq]. apply bool_decide_eq_true in Heq as <-.
      apply list_elem_of_fmap. exists f. split; [done|]. by apply list_elem_of_In, in_rev.
    - cbn [forallb]. rewrite V1, V2 in Hr. rewrite Hr. cbn [fst snd] in *. by erewrite He. }
  destruct (Hentries [] s H1 ltac:(constructor)) as (-> & Hnd & Hin & Hr). rewrite app_nil_r in *.
  unfold complete_fields. rewrite Hr, andb_true_r.
  assert (NoDup fields.*1) as Hnd' by by rewrite (Permutation_rev fields.*1).
  rewrite (bool_decide_eq_true_2 _ Hnd'). cbn [andb]. apply andb_true_intro. split.
  - apply forallb_forall. intros n Hx%list_elem_of_In. rewrite Forall_forall in Hin. by apply bool_decide_eq_true_2, Hin.
  - apply negb_false_iff in Hall. apply forallb_forall. intros f Hf'. rewrite forallb_forall in Hall.
    specialize (Hall f Hf'). apply bool_decide_eq_true in Hall. apply bool_decide_eq_true_2.
    apply list_elem_of_In in Hall. by apply list_elem_of_In, in_rev.
Qed.

Lemma entries_obey entries : Forall (λ kv, tree_obeys kv.1 ∧ tree_obeys kv.2) entries → ∀ keys s u s',
  map_entries T expression_check keys entries s = Done (u, s') → NoDup keys →
  NoDup (omap string_literal entries.*1) ∧ Forall (λ k, k ∉ keys) (omap string_literal entries.*1) ∧
  forallb (λ kv, rules_expression T (env s) (ergonomics_loop_depth s) kv.1 &&
                 rules_expression T (env s) (ergonomics_loop_depth s) kv.2) entries = true.
Proof.
  induction 1 as [|[k x] entries [[Hk _] [Hx _]] H IH]; intros keys s u s'; cbn [map_entries].
  { intros _ _. by repeat constructor. }
  cbn [fst snd] in *. intros Hc Hnd.
  apply sem_bind_done in Hc as (kt & s1 & H1 & Hc). apply sem_bind_done in Hc as (? & ? & [_ ->]%refuse_if_done & Hc).
  apply sem_bind_done in Hc as (? & ? & [Hdup ->]%refuse_if_done & Hc).
  apply sem_bind_done in Hc as (vt & s2 & H2 & Hc). apply sem_bind_done in Hc as (? & ? & [_ ->]%refuse_if_done & Hc).
  pose proof (sem_keeps_view _ _ _ _ (check_expression_keeps T url_origin evidence current k) H1) as [V1 V2].
  pose proof (sem_keeps_view _ _ _ _ (check_expression_keeps T url_origin evidence current x) H2) as [W1 W2].
  pose proof (Hk _ _ _ H1) as Rk. pose proof (Hx _ _ _ H2) as Rx. rewrite V1, V2 in Rx.
  apply IH in Hc as (N1 & N2 & N3).
  - rewrite W1, W2, V1, V2 in N3. cbn [fmap list_fmap omap list_omap forallb fst snd]. rewrite Rk, Rx, N3. cbn [andb].
    destruct (string_literal k) as [key|].
    + apply bool_decide_eq_false in Hdup. split_and!; [|constructor|done]; [|done|].
      * constructor; [|done]. intros Hin. rewrite Forall_forall in N2. apply (N2 _ Hin). by left.
      * eapply Forall_impl; [exact N2|]. intros y Hy Hin. apply Hy. by right.
    + by split_and!.
  - destruct (string_literal k) as [key|]; [|done]. apply bool_decide_eq_false in Hdup. by constructor.
Qed.

Lemma binding_env binding payload l s a s' :
  match binding with Some name => _declare (mk_symbol name payload false l) | None => mret () end
    (set_scopes (∅ :: scopes s) s) = Done (a, s') →
  env s' = binding_scope binding :: env s ∧ ergonomics_loop_depth s' = ergonomics_loop_depth s.
Proof.
  destruct binding as [name|]; cbn [binding_scope].
  - intros [H1 H2]%declare_env. split; [|done]. unfold env in H1. cbn in H1. rewrite fmap_empty in H1.
    rewrite bool_decide_eq_false_2 in H1 by set_solver. injection H1 as H1. unfold env. by rewrite <- H1.
  - intros [= <- <-]. split; [|done]. unfold env. cbn. by rewrite fmap_empty.
Qed.

Lemma arms_obey shape arms : Forall arm_obeys arms → ∀ seen result s r s',
  match_loop arm_check shape seen result arms s = Done (r, s') →
  NoDup (arm_variant_name <$> arms) ∧ Forall (λ v, v ∉ seen) (arm_variant_name <$> arms) ∧
  forallb (λ a, rules_arm T (binding_scope (arm_binding a) :: env s) (ergonomics_loop_depth s) a) arms = true.
Proof.
  induction 1 as [|[variant binding body at_arm] arms Harm H IH]; intros seen result s r s'; cbn [match_loop].
  { intros _. by repeat constructor. }
  intros Hc. apply sem_bind_done in Hc as (? & ? & [Hseen ->]%refuse_if_done & Hc). apply bool_decide_eq_false in Hseen.
  destruct (shape !! variant) as [payload|]; [|done].
  apply sem_bind_done in Hc as (? & ? & [_ ->]%refuse_if_done & Hc). apply sem_bind_done in Hc as (? & ? & [_ ->]%refuse_if_done & Hc).
  apply sem_bind_done in Hc as (ty & s1 & H1 & Hc). apply sem_bind_done in Hc as (? & ? & [_ ->]%lift_done & Hc).
  assert (same_view s s1) as [V1 V2].
  { eapply sem_keeps_view; [|exact H1]. pose proof (arm_type_keeps T url_origin evidence current (mk_arm variant binding body at_arm)). keeps_sem. }
  apply in_scope_done in H1 as (s2 & H1 & ->). apply sem_bind_done in H1 as (? & s3 & H1 & H2).
  apply binding_env in H1 as [B1 B2]. apply Harm in H2. rewrite B1, B2 in H2.
  apply IH in Hc as (N1 & N2 & N3). rewrite V1, V2 in N3. cbn [fmap list_fmap arm_variant_name arm_binding forallb]. split_and!.
  - constructor; [|done]. intros Hin. rewrite Forall_forall in N2. apply (N2 _ Hin). set_solver.
  - constructor; [done|]. eapply Forall_impl; [exact N2|]. set_solver.
  - by rewrite H2, N3.
Qed.

Lemma match_obeys value arms l s t s' : expression_obeys value → Forall arm_obeys arms →
  _match T expression_check arm_check value arms l s = Done (t, s') →
  rules_expression T (env s) (ergonomics_loop_depth s) (MatchExpression value arms l) = true.
Proof.
  intros Hv Ha Hc. unfold _match in Hc. apply sem_bind_done in Hc as (vt & s1 & H1 & Hc).
  pose proof (sem_keeps_view _ _ _ _ (check_expression_keeps T url_origin evidence current value) H1) as [V1 V2].
  destruct (_enum_shape T vt) as [shape|]; [|done]. apply sem_bind_done in Hc as (r & s2 & H2 & _).
  apply arms_obey in H2 as (N1 & _ & N3); [|done]. rewrite V1, V2 in N3. cbn [rules_expression].
  rewrite (Hv _ _ _ H1), N3, bool_decide_eq_true_2 by done. done.
Qed.

Lemma block_value_obeys l s t s' : Forall statement_obeys l →
  block_value statement_check
    (λ tail, match tail with
             | ExpressionStatement e _ => expression_check e
             | _ => _ ← statement_check tail; mret (Some (u "Void"))
             end) l s = Done (t, s') →
  holds (thread (λ Γ st, rules_statement T Γ (ergonomics_loop_depth s) st) (env s) l) = true.
Proof.
  intros H. revert s. induction H as [|st l [Hst He] Hl IH]; intros s; cbn [block_value thread]; [done|]. intros Hc.
  destruct l as [|st' l].
  - assert (is_Some (rules_statement T (env s) (ergonomics_loop_depth s) st)) as [Γ ->]; [|done].
    destruct st; try (apply sem_bind_done in Hc as ([] & s1 & H1 & _); apply Hst in H1; by rewrite H1).
    apply He in Hc. cbn [rules_statement]. by rewrite Hc.
  - apply sem_bind_done in Hc as ([] & s1 & H1 & H2). rewrite (Hst _ _ _ H1). cbn [mbind option_bind].
    pose proof (steady_ergonomics _ _ _ (check_statement_keeps T url_origin evidence current st _ _ _ H1)) as <-. by apply IH.
Qed.

Lemma assign_variable_name name at_name t l s t' s' : assign_variable T name at_name t l s = Done (t', s') →
  assignable_name (env s) name = true.
Proof.
  unfold assign_variable, assignable_name, env. rewrite sem_bind_done, bound_env. intros (o & ? & [-> ->]%resolve_done & H).
  destruct (find_symbol _ name) as [symbol|].
  - apply sem_bind_done in H as (? & ? & [Hm%negb_false_iff _]%refuse_if_done & _). cbn. rewrite Hm. by apply bool_decide_eq_true_2.
  - unfold _raise_unknown_identifier in H. by destruct (assoc _ _).
Qed.

Lemma field_target_name name at_name member at_member l s df s' :
  field_target T name at_name member at_member l s = Done (df, s') →
  assignable_name (env s) name = true ∧ s' = s.
Proof.
  unfold field_target, assignable_name, env. rewrite sem_bind_done, bound_env. intros (o & ? & [-> ->]%resolve_done & H).
  destruct (find_symbol _ name) as [symbol|].
  - apply sem_bind_done in H as (? & ? & [Hm%negb_false_iff ->]%refuse_if_done & H). cbn. rewrite Hm. split; [by apply bool_decide_eq_true_2|].
    destruct (declared_structs T !! _); [|done]. destruct (declared_field _ _); [|done]. by injection H.
  - unfold _raise_unknown_identifier in H. by destruct (assoc _ _).
Qed.

Lemma assignment_obeys target value l : tree_obeys target → expression_obeys value →
  expression_obeys (AssignmentExpression target value l).
Proof.
  intros [Ht _] Hv s t s' H. cbn [check_expression] in H. cbn [rules_expression].
  assert (∀ t1 s1, expression_check value s = Done (t1, s1) →
            rules_expression T (env s) (ergonomics_loop_depth s) value = true ∧ same_view s s1) as Hvalue.
  { intros t1 s1 H1. split; [by eapply Hv|]. eapply sem_keeps_view; [apply check_expression_keeps|done]. }
  destruct target as [name at_name| | | | | |object member at_member| | | | | | | |];
    try (apply sem_bind_done in H as (t1 & s1 & H1 & H2); destruct (Hvalue _ _ H1) as [-> [V1 V2]]; cbn [andb];
         apply sem_bind_done in H2 as (t2 & s2 & H2 & _); rewrite <- V1, <- V2; by eapply Ht).
  - apply sem_bind_done in H as (t1 & s1 & H1 & H2). destruct (Hvalue _ _ H1) as [-> [V1 V2]]. cbn [andb].
    apply assign_variable_name in H2. by rewrite <- V1.
  - destruct object as [name at_name| | | | | | | | | | | | | |]; try done.
    apply sem_bind_done in H as (df & s1 & [Hn ->]%field_target_name & H2). rewrite Hn, andb_true_r.
    apply sem_bind_done in H2 as (t1 & s2 & H2 & _). by eapply Hv.
Qed.

Lemma unary_obeys operator operand l : expression_obeys operand → expression_obeys (UnaryExpression operator operand l).
Proof.
  intros He s t s' H. cbn [check_expression] in H. cbn [rules_expression].
  destruct (if bool_decide (operator = u "-") then int_literal operand else None) as [magnitude|] eqn:E.
  - destruct (magnitude =? 2 ^ 63); [done|]. destruct (INT64_MAX <? magnitude); [done|].
    apply sem_bind_done in H as (t1 & s1 & H1 & _). apply He in H1.
    assert (int_literal operand = Some magnitude) as El by by destruct (bool_decide _).
    unfold int_literal in El. destruct operand as [|[[]|] ?| | | | | | | | | | | | |]; try done. injection El as ->. exact H1.
  - apply sem_bind_done in H as (t1 & s1 & H1 & _). by eapply He.
Qed.

Lemma for_body_obeys variable item l b s u s' : block_obeys b →
  for_scope variable item l (block_check b) s = Done (u, s') →
  holds (rules_block T ({[variable := false]} :: env s) (ergonomics_loop_depth s + 1) b) = true.
Proof.
  intros Hb H. unfold for_scope in H. apply sem_bind_done in H as (? & s1 & [= <- <-] & H). apply sem_bind_done in H as (? & s2 & H & _).
  apply in_scope_done in H as (s3 & H & _). apply sem_bind_done in H as (? & s4 & H1 & H).
  apply (binding_env (Some variable)) in H1 as [E1 E2]. apply sem_bind_done in H as (? & s5 & [= <- <-] & H).
  apply block_obeys_done in H; [|done]. unfold env in *. cbn in *. rewrite E1, E2 in H. by rewrite H.
Qed.

Lemma statement_cases st : (∀ s u s', statement_check st s = Done (u, s') →
    rules_statement T (env s) (ergonomics_loop_depth s) st = Some (env s)) →
  keeps_state true (statement_check st) → ∀ s u s', statement_check st s = Done (u, s') →
    rules_statement T (env s) (ergonomics_loop_depth s) st = Some (env s').
Proof. intros H K s u s' Hc. rewrite (H _ _ _ Hc). by destruct (sem_keeps_view _ _ _ _ K Hc) as [-> _]. Qed.

Lemma interpolated_obeys : ∀ parts l, Forall tree_obeys parts → tree_obeys (InterpolatedString parts l).
Proof.
  pose proof (check_expression_keeps T url_origin evidence current) as Hkeeps.
  intros parts l H. split; [|done]. intros s t s' Hc. cbn [check_expression] in Hc. apply sem_bind_done in Hc as (? & s1 & H1 & _).
  apply (items_obey (λ x, x)) in H1 as [_ H1]; [exact H1| |].
  + intros y _. unfold data_part. specialize (Hkeeps y). keeps_sem.
  + intros y s2 s3 Hx. unfold data_part. rewrite sem_bind_done. intros (? & ? & Hd & _). rewrite Forall_forall in H. by eapply (H y Hx).
Qed.

Lemma list_obeys : ∀ items l, Forall tree_obeys items → tree_obeys (ListLiteral items l).
Proof.
  pose proof (check_expression_keeps T url_origin evidence current) as Hkeeps.
  intros items l H. split; [|done]. intros s t s' Hc. cbn [check_expression] in Hc. apply sem_bind_done in Hc as (? & s1 & H1 & _).
  apply (items_obey (λ x, x)) in H1 as [_ H1]; [exact H1| |].
  + intros y _. unfold list_item_check. specialize (Hkeeps y). keeps_sem.
  + intros y s2 s3 Hx. unfold list_item_check. rewrite sem_bind_done. intros (? & ? & Hd & _). rewrite Forall_forall in H. by eapply (H y Hx).
Qed.

Lemma binary_obeys : ∀ lhs operator rhs l, tree_obeys lhs → tree_obeys rhs → tree_obeys (BinaryExpression lhs operator rhs l).
Proof.
  pose proof (check_expression_keeps T url_origin evidence current) as Hkeeps.
  intros lhs operator rhs l [H1 _] [H2 _]. split; [|done]. intros s t s' Hc. cbn [check_expression] in Hc.
  check_step Hc (sem_keeps_decimal_gate T true lhs rhs l). apply sem_bind_done in Hc as (t1 & s1 & Hl & Hc).
  pose proof (sem_keeps_view _ _ _ _ (Hkeeps lhs) Hl) as [W1 W2]. apply sem_bind_done in Hc as (t2 & s2 & Hr & _).
  apply H1 in Hl. apply H2 in Hr. rewrite W1, W2 in Hr. rewrite V1, V2 in *. cbn [rules_expression]. by rewrite Hl, Hr.
Qed.

Lemma or_return_obeys : ∀ value error l, tree_obeys value → (∀ e, error = Some e → tree_obeys e) →
  tree_obeys (OrReturnExpression value error l).
Proof.
  pose proof (check_expression_keeps T url_origin evidence current) as Hkeeps.
  intros value error l [H1 _] H2. split; [|done]. intros s t s' Hc. cbn [check_expression] in Hc.
  check_step Hc (Hkeeps value). cbn [rules_expression]. rewrite (H1 _ _ _ Hd). cbn [andb].
  destruct error as [e|]; [|done]. destruct (H2 e eq_refl) as [He _]. apply sem_bind_done in Hc as (? & ? & Hc & _).
  apply sem_bind_done in Hc as (? & ? & Hc & _). rewrite <- V1, <- V2. by eapply He.
Qed.

Lemma let_obeys : ∀ name m value l annotation, tree_obeys value → statement_obeys (LetStatement name m value l annotation).
Proof.
  pose proof (check_expression_keeps T url_origin evidence current) as Hkeeps.
  intros name m value l annotation [H _]. split; [|done]. intros s a s' Hc. cbn [check_statement] in Hc.
  check_step Hc (Hkeeps value). cbn [rules_statement]. rewrite (H _ _ _ Hd). unfold declare_let in Hc. rewrite <- V1.
  destruct annotation as [r|].
  + apply sem_bind_done in Hc as (? & s2 & H2 & Hc). assert (same_view s0 s2) as [U1 U2].
    { eapply sem_keeps_view; [|exact H2]. keeps_sem. }
    apply sem_bind_done in Hc as (? & s3 & [H3 _]%declare_env & Hc). rewrite U1 in H3. cbn in H3. rewrite H3.
    apply sem_bind_done in Hc as (? & s4 & H4 & [= <- <-]). by destruct (list_element _); injection H4 as <- <-.
  + apply sem_bind_done in Hc as (? & s2 & [H2 _]%declare_env & [= <- <-]). exact H2.
Qed.

Lemma return_obeys : ∀ value l, (∀ e, value = Some e → tree_obeys e) → statement_obeys (ReturnStatement value l).
Proof.
  pose proof (check_expression_keeps T url_origin evidence current) as Hkeeps.
  intros value l H. split; [|done]. apply statement_cases.
  + intros s a s' Hc. cbn [check_statement] in Hc. apply sem_bind_done in Hc as (? & s1 & H1 & _). cbn [rules_statement].
    destruct value as [e|]; [|done]. destruct (H e eq_refl) as [He _]. by rewrite (He _ _ _ H1).
  + cbn [check_statement]. pose proof (sem_keeps_check_return T current). destruct value as [e|]; [specialize (Hkeeps e)|]; keeps_sem.
Qed.

Lemma if_obeys : ∀ condition b e l, tree_obeys condition → block_obeys b →
  (∀ b, e = Some (ElseBlock b) → block_obeys b) → (∀ s, e = Some (ElseIf s) → statement_obeys s) →
  statement_obeys (IfStatement condition b e l).
Proof.
  pose proof (check_expression_keeps T url_origin evidence current) as Hkeeps.
  intros condition b e l [Hc _] Hb He Hs. pose proof (check_statements_keeps T url_origin evidence current) as Hbk.
  pose proof (check_statement_keeps T url_origin evidence current) as Hsk. split; [|done].
  intros s a s' H. cbn [check_statement] in H. check_step H (Hkeeps condition). pose proof (Hc _ _ _ Hd) as Rc.
  apply sem_bind_done in H as (? & s1 & H1 & H). unfold _require_bool in H1. destruct (bool_decide _); [injection H1 as <- <-|done].
  apply sem_bind_done in H as (? & s2 & Hthen & H). pose proof (sem_keeps_view _ _ _ _ (sem_keeps_scope true _ (Hbk b)) Hthen) as [W1 W2].
  apply handler_obeys in Hthen; [|done]. rewrite V1, V2 in Hthen.
  cbn [rules_statement]. rewrite Rc, Hthen. cbn [andb].
  assert (same_view s s2) as [U1 U2] by (split; congruence).
  destruct e as [[b'|st]|]; [|destruct st as [| | |c b1 e1 l1| | | |]|]; try (injection H as <- <-; by rewrite U1).
  + pose proof (sem_keeps_view _ _ _ _ (sem_keeps_scope true _ (Hbk b')) H) as [X1 _].
    apply handler_obeys in H; [|by apply He]. rewrite U1, U2 in H. rewrite H. congruence.
  + destruct (Hs _ eq_refl) as [Hst _]. apply Hst in H. rewrite U1, U2 in H. rewrite H. cbn [holds]. f_equal.
    cbn [rules_statement] in H. destruct (_ && _ && _); congruence.
Qed.

Lemma while_obeys : ∀ condition b l, tree_obeys condition → block_obeys b → statement_obeys (WhileStatement condition b l).
Proof.
  pose proof (check_expression_keeps T url_origin evidence current) as Hkeeps.
  intros condition b l [Hc _] Hb. pose proof (check_statements_keeps T url_origin evidence current) as Hbk. split; [|done].
  apply statement_cases.
  + intros s a s' H. cbn [check_statement] in H. apply sem_bind_done in H as (? & s1 & [= <- <-] & H).
    check_step H (Hkeeps condition). pose proof (Hc _ _ _ Hd) as Rc.
    apply sem_bind_done in H as (? & s2 & H2 & H). unfold _require_bool in H2. destruct (bool_decide _); [injection H2 as <- <-|done].
    apply sem_bind_done in H as (? & s3 & [= <- <-] & H). apply sem_bind_done in H as (? & s4 & H4 & _).
    apply handler_obeys in H4; [|done]. unfold env in *. cbn in *. rewrite V1, V2, Z.add_0_r in H4. by rewrite Rc, H4.
  + cbn [check_statement]. apply (sem_keeps_while _ (λ t, _require_bool (_success_type t) l)); [apply Hkeeps|intros t; keeps_sem|apply Hbk].
Qed.

Lemma for_obeys : ∀ variable iterable b l, tree_obeys iterable → block_obeys b → statement_obeys (ForStatement variable iterable b l).
Proof.
  pose proof (check_expression_keeps T url_origin evidence current) as Hkeeps.
  intros variable iterable b l [Hi _] Hb. pose proof (check_statements_keeps T url_origin evidence current) as Hbk. split; [|done].
  apply statement_cases.
  + intros s a s' H. cbn [check_statement] in H. check_step H (Hkeeps iterable). pose proof (Hi _ _ _ Hd) as Ri.
    apply sem_bind_done in H as (? & ? & [_ ->]%refuse_if_done & H). apply sem_bind_done in H as (? & s2 & [= <- <-] & H).
    apply for_body_obeys in H; [|done]. rewrite V1, V2 in H. cbn [rules_statement]. by rewrite Ri, H.
  + cbn [check_statement]. specialize (Hkeeps iterable). apply sem_keeps_bind; [done|intros t]. cbv zeta. keeps_sem.
    by apply sem_keeps_for_scope.
Qed.

Lemma obeys_tree : tree_cases tree_obeys arm_obeys statement_obeys block_obeys.
Proof.
  pose proof (check_expression_keeps T url_origin evidence current) as Hkeeps.
  split.
  - intros name l. split; [|done]. intros s t s' H. by eapply identifier_known.
  - intros v l. split; [|done]. intros s t s' H. cbn in *. unfold literal_type in H. destruct v as [[]|]; try done. cbn.
    by destruct (in_int64 _).
  - exact interpolated_obeys.
  - intros name fields l H. split; [|done]. intros s t s' Hc. by eapply complete_literal.
  - exact list_obeys.
  - intros entries l H. split; [|done]. intros s t s' Hc. cbn [check_expression] in Hc. apply sem_bind_done in Hc as (? & s1 & H1 & _).
    destruct (entries_obey entries H [] s _ s1 H1 ltac:(constructor)) as (N1 & _ & N3). cbn [rules_expression].
    by rewrite bool_decide_eq_true_2, N3.
  - intros object member l [Ho _]. split; [|exact Ho]. intros s t s' Hc. cbn [rules_expression]. by eapply member_obeys.
  - intros callee arguments l Hc Ha. split; [|done]. by apply call_obeys.
  - intros target value l Ht [Hv _]. split; [|done]. by apply assignment_obeys.
  - exact binary_obeys.
  - intros operator operand l [H _]. split; [|done]. by apply unary_obeys.
  - exact or_return_obeys.
  - intros value fallback l [H1 _] [H2 _]. split; [|done]. intros s t s' Hc. cbn [check_expression] in Hc.
    check_step Hc (Hkeeps value). cbn [rules_expression]. rewrite (H1 _ _ _ Hd). cbn [andb].
    apply sem_bind_done in Hc as (? & ? & Hc & _). rewrite <- V1, <- V2. by eapply H2.
  - intros value handler l [H1 _] Hb. split; [|done]. intros s t s' Hc. cbn [check_expression] in Hc.
    check_step Hc (Hkeeps value). cbn [rules_expression]. rewrite (H1 _ _ _ Hd). cbn [andb].
    apply sem_bind_done in Hc as (? & ? & Hc & _). rewrite <- V1, <- V2. by eapply handler_obeys.
  - intros value arms l [H1 _] Ha. split; [|done]. intros s t s' Hc. by eapply match_obeys.
  - intros variant binding e l [H _] s t s' Hc. by eapply H.
  - intros variant binding [l'] l Hb s t s' Hc. cbn [arm_type] in Hc. apply in_scope_done in Hc as (s1 & Hc & _).
    apply block_value_obeys in Hc; [|exact Hb]. cbn [rules_arm rules_block]. unfold env in *. cbn in Hc. by rewrite fmap_empty in Hc.
  - exact let_obeys.
  - exact return_obeys.
  - intros e l [H _]. split; [|exact H]. apply statement_cases.
    + intros s a s' Hc. cbn [check_statement] in Hc. apply sem_bind_done in Hc as (? & s1 & H1 & _). cbn [rules_statement].
      by rewrite (H _ _ _ H1).
    + cbn [check_statement]. specialize (Hkeeps e). pose proof (fallible_call_keeps T url_origin evidence current e). keeps_sem.
  - exact if_obeys.
  - exact while_obeys.
  - exact for_obeys.
  - intros l. split; [|done]. intros s a s' H. cbn [check_statement] in H. apply sem_bind_done in H as (d & ? & [= <- <-] & H).
    apply refuse_if_done in H as [H ->]. cbn [rules_statement]. destruct (Z.leb_spec (ergonomics_loop_depth s) 0); [done|].
    by destruct (Z.ltb_spec 0 (ergonomics_loop_depth s)); [|lia].
  - intros l. split; [|done]. intros s a s' H. cbn [check_statement] in H. apply sem_bind_done in H as (d & ? & [= <- <-] & H).
    apply refuse_if_done in H as [H ->]. cbn [rules_statement]. destruct (Z.leb_spec (ergonomics_loop_depth s) 0); [done|].
    by destruct (Z.ltb_spec 0 (ergonomics_loop_depth s)); [|lia].
  - intros l H. exact H.
Qed.

(** The parameters, declared from left to right. *)
Lemma parameters_env params : ∀ s scope u s', env s = [scope] →
  sem_each (λ p, _declare (mk_symbol (parameter_name p) (Some (type_ref_str (parameter_type p))) false (parameter_location p))) params s
    = Done (u, s') →
  NoDup (parameter_name <$> params) ∧ (∀ name, name ∈ parameter_name <$> params → scope !! name = None) ∧
  env s' = [list_to_map ((λ p, (parameter_name p, false)) <$> params) ∪ scope] ∧
  ergonomics_loop_depth s' = ergonomics_loop_depth s.
Proof.
  induction params as [|p params IH]; intros s scope u s' E; cbn [sem_each].
  { intros [= <- <-]. rewrite E. cbn. rewrite (left_id_L ∅ (∪)). split_and!; [constructor|set_solver|done|done]. }
  rewrite sem_bind_done. intros (? & s1 & [H1 H2]%declare_env & H). rewrite E in H1. cbn in H1. case_bool_decide as Hd; [done|].
  injection H1 as H1. apply not_elem_of_dom in Hd. destruct (IH _ _ _ _ (eq_sym H1) H) as (N & Hfresh & E' & E2).
  cbn [fmap list_fmap list_to_map foldr fst snd]. split_and!.
  - constructor; [|done]. intros Hin%Hfresh. by rewrite lookup_insert_eq in Hin.
  - intros name [->|Hin]%elem_of_cons; [done|]. apply Hfresh in Hin. apply lookup_insert_None in Hin. apply Hin.
  - rewrite E'. f_equal. rewrite <- insert_union_l, insert_union_r; [done|].
    apply not_elem_of_list_to_map_1. rewrite <- list_fmap_compose. intros Hin%Hfresh. by rewrite lookup_insert_eq in Hin.
  - congruence.
Qed.

Lemma function_obeys s u s' : _check_function T url_origin evidence current s = Done (u, s') →
  scopes s = [] → ergonomics_loop_depth s = 0 → rules_function T current = true.
Proof.
  intros H Hs Hd. unfold _check_function in H. apply in_scope_done in H as (s1 & H & _).
  apply sem_bind_done in H as (? & s2 & H1 & H2). apply (parameters_env _ _ ∅) in H1 as (N & _ & E1 & E2).
  - rewrite (right_id_L ∅ (∪)) in E1. apply block_obeys_done in H2; [|apply (tree_induction _ _ _ _ obeys_tree)].
    rewrite E1, E2 in H2. cbn in H2. rewrite Hd in H2. unfold rules_function. rewrite H2. by rewrite bool_decide_eq_true_2.
  - unfold env. cbn. rewrite Hs. cbn. by rewrite fmap_empty.
Qed.
End soundness.

Lemma functions_obey T url_origin evidence fs : ∀ s u s',
  sem_each (_check_function T url_origin evidence) fs s = Done (u, s') → scopes s = [] → ergonomics_loop_depth s = 0 →
  Forall (λ f, rules_function T f = true) fs.
Proof.
  induction fs as [|f fs IH]; intros s u s'; cbn [sem_each]; [constructor|]. rewrite sem_bind_done.
  intros ([] & s1 & H1 & H2) Hs Hd. pose proof (check_function_keeps T url_origin evidence f _ _ _ H1) as [E1 _ E2 _ _].
  constructor; [by eapply function_obeys|]. eapply IH; [exact H2|congruence..].
Qed.

(** C4: A program that the semantic checker accepts obeys the rules of names, literals
and loops in every function: it uses only names that are in scope, declared or
built in, assigns only to [let mut] variables and their fields, declares no name
twice in a scope, gives every struct literal exactly the declared fields, repeats
no key of a map literal and no arm of a match, keeps every integer literal within 64
bits (the operand of a minus sign up to 2^63), and breaks only out of loops. *)
Theorem accepted_obeys_rules url_origin evidence program modules report :
  check url_origin evidence program modules = Done report →
  ∃ T, new_tables program modules = Done T ∧ Forall (λ f, rules_function T f = true) (declarations program).
Proof.
  unfold check, check_program. intros H. destruct (new_tables program modules) as [T| |]; [|done..]. cbn in H.
  exists T. split; [done|]. do 3 outcome_inv H.
  destruct (sem_each _ _ _) as [[u s]| |] eqn:Hall; [|done..]. by eapply functions_obey.
Qed.

(** The witness: a struct, an enum, a match with a block, a loop and a field assignment. *)
Definition parsed (text : ustring) : NativeProgram :=
  match @parse ascii_only text with Done program => program | _ => empty_program end.

Definition rules_example : NativeProgram := parsed (u "
struct P { x: Int }
enum E { A(Int), B }
fn f(p: P) -> Int { return p.x }
fn main() -> Int {
  let mut p = P { x: 1 }
  p.x = 3
  let r = match A(2) { A(n) => n, B => { f(p) } }
  while r < 5 { if r == 2 { break } }
  return r
}").

Lemma accepted_obeys_rules_witness :
  check (λ _, None) ∅ rules_example [] = Done (mk_report 2 2 0) ∧
  ∃ T, new_tables rules_example [] = Done T ∧ Forall (λ f, rules_function T f = true) (declarations rules_example).
Proof. split; [vm_compute; reflexivity|]. apply (accepted_obeys_rules (λ _, None) ∅ _ _ (mk_report 2 2 0)). vm_compute. reflexivity. Defined.
