(* ===== verification/SemanticTypes.v ===== *)
(** The type texts of the semantic checker: the arguments of a type are shorter than
the type, which types carry a capability, and what an accepted assignment says about
the two sides. *)

From S2P Require Import Prelude TypeSystem Lexer Mir Value NativeRuntime Ast Capability Semantic.

(** * Parts of a text *)

Lemma split_scan_length separator rest : ∀ skip depth cur part,
  part ∈ split_scan separator rest skip depth cur → (length part ≤ length cur + length rest)%nat.
Proof.
  induction rest as [|c rest IH]; intros skip depth cur part; cbn [split_scan].
  { intros ->%list_elem_of_singleton. pose proof (strip_length cur). lia. }
  destruct skip as [|skip]; [|intros H%IH; cbn; lia]. destruct (_ <? _)%nat.
  { intros ->%list_elem_of_singleton. pose proof (strip_length (cur ++ c :: rest)). rewrite length_app in *. cbn [length] in *. lia. }
  destruct (_ && _).
  - intros [->|H%IH]%elem_of_cons; [pose proof (strip_length cur); lia|cbn in *; lia].
  - intros H%IH. rewrite length_app in H. cbn [length] in *. lia.
Qed.

Lemma split_top_length text separator part : part ∈ _split_top_level text separator → (length part ≤ length text)%nat.
Proof. intros [_ H%split_scan_length]%list_elem_of_filter. cbn in H. lia. Qed.

(** The arguments of a type are shorter than its text. *)
Lemma generic_argument_shorter name a : a ∈ (_generic_type name).2 → (length a < length name)%nat.
Proof.
  unfold _generic_type. pose proof (strip_length name) as Hs. pose proof (span_app (λ c, negb (c =? ch "<")) (strip name)) as Happ.
  destruct (span _ _) as [base [|c rest]]; cbn [fst snd] in *; [intros []%elem_of_nil|].
  case_bool_decide as Hlast; [|intros []%elem_of_nil]. intros H%split_top_length.
  rewrite length_removelast in H. rewrite <- Happ, length_app in Hs. cbn in Hs. lia.
Qed.

(** A text without a bracket has no arguments. *)
Lemma generic_plain name : ch "<" ∉ name → _generic_type name = (strip name, []).
Proof.
  intros H. unfold _generic_type. rewrite span_all; [done|]. apply Forall_forall. intros c Hc.
  apply negb_true_iff, Z.eqb_neq. intros ->. apply H.
  destruct (strip_decompose name) as (w1 & w2 & E & _). rewrite E. set_solver.
Qed.

(** * Which types carry a capability *)

Section sensitive.
Context (T : tables).

(** A capability is a part of the type, or of a declared type it names. *)
Inductive Sensitive : ustring → Prop :=
  | sensitive_capability name : name ∈ CAPABILITY_TYPES → Sensitive name
  | sensitive_argument name a : a ∈ (_generic_type name).2 → Sensitive a → Sensitive name
  | sensitive_component name l component :
      component_names T (_generic_type name).1 = Some l → component ∈ l → Sensitive component → Sensitive name.

(** The same with a bound on the depth, as a decision. *)
Fixpoint reaches (n : nat) (name : ustring) : bool :=
  match n with
  | O => false
  | S n =>
      bool_decide (name ∈ CAPABILITY_TYPES) || existsb (reaches n) (_generic_type name).2
      || existsb (reaches n) (default [] (component_names T (_generic_type name).1))
  end.

Lemma reaches_S n : ∀ name, reaches n name = true → reaches (S n) name = true.
Proof.
  induction n as [|n IH]; intros name; [done|]. cbn [reaches]. rewrite !orb_true_iff, !existsb_exists.
  intros [[H|(x & Hx & H)]|(x & Hx & H)]; [by left; left|left; right|right]; exists x; (split; [done|]); apply IH, H.
Qed.

Lemma reaches_le m n name : (m ≤ n)%nat → reaches m name = true → reaches n name = true.
Proof. induction 1; [done|]. intros H'. by apply reaches_S, IHle. Qed.

Lemma sensitive_reaches name : Sensitive name → ∃ n, reaches n name = true.
Proof.
  induction 1 as [name H|name a Ha H [n IH]|name l c Hl Hc H [n IH]].
  - exists 1%nat. cbn. by rewrite bool_decide_eq_true_2.
  - exists (S n). cbn [reaches]. rewrite !orb_true_iff. left; right. apply existsb_exists. exists a. split; [by apply list_elem_of_In|done].
  - exists (S n). cbn [reaches]. rewrite !orb_true_iff. right. apply existsb_exists. exists c. rewrite Hl. split; [by apply list_elem_of_In|done].
Qed.

Lemma sensitive_sound fuel : ∀ name seen, name_is_sensitive T fuel name seen = true → Sensitive name.
Proof.
  induction fuel as [|fuel IH]; intros name seen; [done|]. cbn [name_is_sensitive].
  case_bool_decide as Hcap; [intros _; by apply sensitive_capability|].
  destruct (_generic_type name) as [base arguments] eqn:Eg.
  destruct (existsb (λ a, name_is_sensitive T fuel a seen) arguments) eqn:Ea.
  { intros _. apply existsb_exists in Ea as (a & Hin & Ha). eapply sensitive_argument; [|by eapply IH]. rewrite Eg. by apply list_elem_of_In. }
  destruct (component_names T base) as [l|] eqn:El; [|done]. case_bool_decide; [done|].
  intros (c & Hin & Hc)%existsb_exists. eapply sensitive_component; [by rewrite Eg|by apply list_elem_of_In|by eapply IH].
Qed.

(** ** The fuel *)

Lemma longest_le l x : x ∈ l → (length x ≤ longest l)%nat.
Proof. unfold longest. induction 1; cbn [foldr]; lia. Qed.

Lemma component_declared base l : component_names T base = Some l → base ∈ declared_names T.
Proof.
  unfold component_names, declared_names. destruct (declared_structs T !! base) eqn:E.
  - intros _. apply elem_of_union_l. by eapply elem_of_dom_2.
  - destruct (declared_enums T !! base) eqn:E'; [|done]. intros _. apply elem_of_union_r. by eapply elem_of_dom_2.
Qed.

Lemma component_length base l c : component_names T base = Some l → c ∈ l → (length c ≤ longest_component T)%nat.
Proof.
  intros Hl Hc. unfold longest_component. apply component_declared in Hl as Hin. apply elem_of_elements in Hin.
  induction (elements _) as [|y rest IH]; [by apply elem_of_nil in Hin|]. cbn [foldr].
  apply elem_of_cons in Hin as [<-|Hin]; [|specialize (IH Hin); lia]. rewrite Hl. change (default [] (Some l)) with l. apply longest_le in Hc. lia.
Qed.

Lemma fuel_argument name a seen fuel : a ∈ (_generic_type name).2 → (sensitive_fuel T name seen ≤ S fuel)%nat →
  (sensitive_fuel T a seen ≤ fuel)%nat.
Proof. intros H%generic_argument_shorter. unfold sensitive_fuel. lia. Qed.

Lemma fuel_component name base l c seen fuel : component_names T base = Some l → c ∈ l → base ∉ seen →
  (sensitive_fuel T name seen ≤ S fuel)%nat → (sensitive_fuel T c ({[base]} ∪ seen) ≤ fuel)%nat.
Proof.
  intros Hl Hc Hseen. pose proof (component_length _ _ _ Hl Hc) as Hlen. apply component_declared in Hl. unfold sensitive_fuel.
  assert (size (declared_names T ∖ seen) = S (size (declared_names T ∖ ({[base]} ∪ seen)))) as ->; [|lia].
  replace (declared_names T ∖ seen) with ({[base]} ∪ (declared_names T ∖ ({[base]} ∪ seen))).
  - rewrite size_union by set_solver. by rewrite size_singleton.
  - apply set_eq. intros x. destruct (decide (x = base)); set_solver.
Qed.

(** The least depth at which a component of a declaration reaches a capability. *)
Lemma least_depth l : ∀ n, existsb (reaches n) l = true →
  ∃ m c, (m ≤ n)%nat ∧ c ∈ l ∧ reaches m c = true ∧ ∀ k, (k < m)%nat → existsb (reaches k) l = false.
Proof.
  induction n as [|n IH].
  - intros (c & _ & H)%existsb_exists. done.
  - intros H. destruct (existsb (reaches n) l) eqn:E.
    + destruct (IH eq_refl) as (m & c & Hm & Hr). exists m, c. split; [lia|done].
    + apply existsb_exists in H as (c & Hin & Hc). exists (S n), c. split_and!; [done|by apply list_elem_of_In|done|].
      intros k Hk. destruct (existsb (reaches k) l) eqn:Ek; [|done]. rewrite <- E. symmetry.
      apply existsb_exists in Ek as (x & Hx & Hxr). apply existsb_exists. exists x. split; [done|]. eapply reaches_le; [|done]. lia.
Qed.

(** What the search has entered cannot be needed again below it. *)
Lemma sensitive_complete n : ∀ name seen fuel, reaches n name = true →
  (∀ b l k, b ∈ seen → component_names T b = Some l → (k < n)%nat → existsb (reaches k) l = false) →
  (sensitive_fuel T name seen ≤ fuel)%nat → name_is_sensitive T fuel name seen = true.
Proof.
  induction n as [n IH] using lt_wf_ind. intros name seen fuel Hr Hseen Hfuel.
  destruct n as [|n]; [done|]. destruct fuel as [|fuel]; [unfold sensitive_fuel in Hfuel; lia|].
  cbn [name_is_sensitive]. cbn [reaches] in Hr. case_bool_decide as Hcap; [done|]. cbn [orb] in Hr.
  destruct (_generic_type name) as [base arguments] eqn:Eg. cbn [fst snd] in Hr.
  destruct (existsb (λ a, name_is_sensitive T fuel a seen) arguments) eqn:Ea; [done|].
  apply orb_true_iff in Hr as [(a & Hin & Ha)%existsb_exists|Hc].
  { exfalso. assert (existsb (λ a, name_is_sensitive T fuel a seen) arguments = true) as Ht; [|congruence].
    apply existsb_exists. exists a. split; [done|]. eapply (IH n); [lia|done| |].
    - intros b l k Hb Hl Hk. eapply Hseen; [done..|lia].
    - eapply fuel_argument; [|exact Hfuel]. rewrite Eg. by apply list_elem_of_In. }
  destruct (component_names T base) as [l|] eqn:El; [|done]. change (default [] (Some l)) with l in Hc.
  rewrite bool_decide_eq_false_2 by (intros Hb; by rewrite (Hseen base l n Hb El) in Hc by lia).
  destruct (least_depth l n Hc) as (m & c & Hm & Hin & Hcr & Hleast). apply existsb_exists. exists c.
  split; [by apply list_elem_of_In|]. eapply (IH m); [lia|done| |].
  - intros b l' k [->%elem_of_singleton|Hb]%elem_of_union Hl Hk.
    + rewrite El in Hl. injection Hl as <-. by apply Hleast.
    + eapply Hseen; [done..|lia].
  - eapply fuel_component; [exact El|done| |exact Hfuel]. intros Hb. by rewrite (Hseen base l n Hb El) in Hc by lia.
Qed.

Lemma sensitive_exact name : _name_is_sensitive T name = true ↔ Sensitive name.
Proof.
  split; [apply sensitive_sound|]. intros [n H]%sensitive_reaches. eapply (sensitive_complete n); [done| |done].
  intros b l k []%not_elem_of_empty.
Qed.
End sensitive.

(** * What an accepted assignment says *)

(** The unknown part [_] occurs in the type. *)
Inductive Wildcard : ustring → Prop :=
  | wildcard_here : Wildcard (u "_")
  | wildcard_argument name a : a ∈ (_generic_type name).2 → Wildcard a → Wildcard name.

Lemma capability_plain name : name ∈ CAPABILITY_TYPES → (_generic_type name).2 = [].
Proof.
  assert (Forall (λ name, (_generic_type name).2 = []) CAPABILITY_TYPES) as H.
  { apply (bool_decide_unpack _). vm_compute. exact I. }
  rewrite Forall_forall in H. apply H.
Qed.

Lemma forall2b_left {A} (f : A → A → bool) l1 : ∀ l2 x, forall2b f l1 l2 = true → length l1 = length l2 → x ∈ l1 →
  ∃ y, y ∈ l2 ∧ f x y = true.
Proof.
  induction l1 as [|x1 l1 IH]; intros [|x2 l2] x; cbn; try done; [by intros _ _ ?%elem_of_nil|].
  intros [H1 H2]%andb_true_iff [= Hl] [->|Hx]%elem_of_cons; [exists x2; split; [left|done]|].
  destruct (IH l2 x H2 Hl Hx) as (y & Hy & Hf). exists y. split; [by right|done].
Qed.

Lemma forall2b_right {A} (f : A → A → bool) l1 : ∀ l2 y, forall2b f l1 l2 = true → length l1 = length l2 → y ∈ l2 →
  ∃ x, x ∈ l1 ∧ f x y = true.
Proof.
  induction l1 as [|x1 l1 IH]; intros [|x2 l2] y; cbn; try done; [by intros _ _ ?%elem_of_nil|].
  intros [H1 H2]%andb_true_iff [= Hl] [->|Hy]%elem_of_cons; [exists x1; split; [left|done]|].
  destruct (IH l2 y H2 Hl Hy) as (x & Hx & Hf). exists x. split; [by right|done].
Qed.

Section assignment.
Context (T : tables).

(** Compatible types without unknown parts carry capabilities alike. *)
Lemma compatible_sensitive fuel : ∀ e a, type_compatible fuel e a = true → ¬ Wildcard e → ¬ Wildcard a →
  (Sensitive T e ↔ Sensitive T a).
Proof.
  induction fuel as [|fuel IH]; intros e a; [done|]. cbn [type_compatible].
  case_bool_decide as Heq; [by subst|]. case_bool_decide as He; [subst; intros _ []; constructor|].
  case_bool_decide as Ha; [subst; intros _ _ []; constructor|]. cbn [orb].
  destruct (_generic_type e) as [base es] eqn:Ee, (_generic_type a) as [base' as_] eqn:Ea.
  case_bool_decide as Hb; [done|]. cbn [orb]. subst base'.
  destruct (Nat.eqb_spec (length es) (length as_)) as [Hl|]; cbn [negb]; [|done].
  case_bool_decide as Hn; [done|]. intros Hall We Wa.
  assert (∀ x y, x ∈ es → y ∈ as_ → type_compatible fuel x y = true → Sensitive T x ↔ Sensitive T y) as Hxy.
  { intros x y Hx Hy Hc. apply IH; [done| |]; intros Hw; [apply We|apply Wa]; eapply wildcard_argument; [|exact Hw| |exact Hw];
      [by rewrite Ee|by rewrite Ea]. }
  split; intros Hs0; inversion Hs0 as [name Hcap|name x Hx Hs|name l c Hcomp Hc Hs]; subst name.
  - apply capability_plain in Hcap. rewrite Ee in Hcap. done.
  - rewrite Ee in Hx. destruct (forall2b_left _ _ _ _ Hall Hl Hx) as (y & Hy & Hc).
    eapply sensitive_argument; [by rewrite Ea|]. by apply (Hxy x y).
  - rewrite Ee in Hcomp. eapply sensitive_component; [by rewrite Ea|done|done].
  - apply capability_plain in Hcap. rewrite Ea in Hcap. cbn in Hcap. subst. by destruct es.
  - rewrite Ea in Hx. destruct (forall2b_right _ _ _ _ Hall Hl Hx) as (y & Hy & Hc).
    eapply sensitive_argument; [by rewrite Ee|]. by apply (Hxy y x).
  - rewrite Ea in Hcomp. eapply sensitive_component; [by rewrite Ee|done|done].
Qed.

Lemma types_sensitive l : _types_are_sensitive T l = true ↔ ∃ name, name ∈ l ∧ Sensitive T name.
Proof.
  unfold _types_are_sensitive. rewrite existsb_exists.
  split; intros (name & Hin & H); exists name; (split; [by apply list_elem_of_In|by apply sensitive_exact]).
Qed.
End assignment.

(** C15: Whether a type carries a capability is decided exactly: the search with its
set of visited declarations answers yes if and only if a capability type is a part of
the type, of an argument, or of a field or payload of a declared type it names, at any
depth and through any cycle of declarations. *)
Theorem sensitivity_exact T name : _name_is_sensitive T name = true ↔ Sensitive T name.
Proof. apply sensitive_exact. Qed.


(** The witness: a struct that holds a disk capability may be stored where it, or an
error, is expected. *)
Definition holder_tables : tables :=
  let at1 := mk_location 1 1 in
  mk_tables ∅ {[u "Holder" := mk_struct (u "Holder") [mk_struct_field (u "disk") (mk_type_ref [u "DiskCaps"] at1) at1] at1 [] false None]}
    ∅ ∅ [].

