(* ===== verification/SemanticAmbient.v ===== *)
(** No ambient authority: a program whose types mention no capability derives none.

A type text mentions the words between its brackets, commas and white space.  The
types that the checker builds from texts which mention no capability mention none
either, so no member of [SystemCaps], no narrowing and no capability variable is ever
counted. *)

From S2P Require Import Prelude TypeSystem Lexer Parser Mir Value NativeRuntime Ast Capability Semantic SemanticScope SemanticRules.

(** * The words of a type *)

Definition is_separator (c : Z) : bool := py_isspace c || bool_decide (c ∈ u "<>,").

(** The words of [cur ++ s], [cur] being the start of one; some are empty. *)
Fixpoint words (cur s : ustring) : list ustring :=
  match s with
  | [] => [cur]
  | c :: s => if is_separator c then cur :: words [] s else words (cur ++ [c]) s
  end.

Definition clean (t : ustring) : Prop := Forall (λ word, word ∉ CAPABILITY_TYPES) (words [] t).
Definition clean_type (t : type_name) : Prop := match t with Some t => clean t | None => True end.
#[export] Instance clean_dec t : Decision (clean t).
Proof. unfold clean. apply _. Defined.
#[export] Instance clean_type_dec t : Decision (clean_type t).
Proof. destruct t; cbn; apply _. Defined.

Lemma words_app cur x c y : is_separator c = true → words cur (x ++ c :: y) = words cur x ++ words [] y.
Proof.
  intros Hc. revert cur. induction x as [|d x IH]; intros cur; cbn [app words]; [by rewrite Hc|].
  destruct (is_separator d); cbn [app]; by rewrite IH.
Qed.

Lemma clean_app x c y : is_separator c = true → clean (x ++ c :: y) ↔ clean x ∧ clean y.
Proof. intros Hc. unfold clean. by rewrite words_app, Forall_app. Qed.

Lemma clean_capability name : name ∈ CAPABILITY_TYPES → ¬ clean name.
Proof.
  assert (Forall (λ name, ¬ clean name) CAPABILITY_TYPES) as H by (apply (bool_decide_unpack _); vm_compute; exact I).
  rewrite Forall_forall in H. apply H.
Qed.

Lemma sem_clean_nil : clean [].
Proof. apply (bool_decide_unpack _). vm_compute. exact I. Qed.

Lemma space_separator c : py_isspace c = true → is_separator c = true.
Proof. unfold is_separator. by intros ->. Qed.

(** White space around a text adds no words. *)
Lemma clean_left w s : Forall (λ c, py_isspace c = true) w → clean (w ++ s) → clean s.
Proof.
  induction 1 as [|c w Hc _ IH]; [done|]. intros H. apply IH.
  apply (clean_app [] c (w ++ s)) in H; [apply H|by apply space_separator].
Qed.

Lemma clean_right w s : Forall (λ c, py_isspace c = true) w → clean (s ++ w) → clean s.
Proof.
  intros [|c w' Hc _]; [by rewrite app_nil_r|]. intros H. apply clean_app in H; [apply H|by apply space_separator].
Qed.

Lemma clean_strip t : clean t → clean (strip t).
Proof.
  destruct (strip_decompose t) as (w1 & w2 & E & H1 & H2). intros H. rewrite E in H.
  apply clean_left in H; [|done]. by eapply clean_right.
Qed.

(** A separator of the types begins and ends a word. *)
Definition delimits (separator : ustring) : Prop := ∀ x y, clean (x ++ separator ++ y) ↔ clean x ∧ clean y.

Lemma comma_delimits : delimits (u ",").
Proof. intros x y. by apply (clean_app x (ch ",") y). Qed.

Lemma or_delimits : delimits (u " or ").
Proof.
  intros x y. change (u " or " ++ y) with (ch " " :: (u "or" ++ ch " " :: y)). rewrite !clean_app by done.
  split; [tauto|]. intros [Hx Hy]. split_and!; [done| |done]. apply (bool_decide_unpack _). vm_compute. exact I.
Qed.

Lemma comma_space_delimits : delimits (u ", ").
Proof.
  intros x y. change (u ", " ++ y) with (ch "," :: ([] ++ ch " " :: y)). rewrite !clean_app by done.
  split; [tauto|]. intros [Hx Hy]. split_and!; [done|apply sem_clean_nil|done].
Qed.

Lemma starts_with_split prefix : ∀ s, starts_with prefix s = true → ∃ r, s = prefix ++ r.
Proof.
  induction prefix as [|c prefix IH]; intros s; [by exists s|]. destruct s as [|d s]; [done|]. cbn.
  intros [->%Z.eqb_eq H]%andb_true_iff. destruct (IH s H) as [r ->]. by exists r.
Qed.

Lemma split_skip separator tail r : ∀ depth, split_scan separator (tail ++ r) (length tail) depth [] = split_scan separator r 0 depth [].
Proof. induction tail as [|c tail IH]; intros depth; [done|]. cbn [app length split_scan]. apply IH. Qed.

Lemma clean_split separator : delimits separator → separator ≠ [] → ∀ n rest depth cur, (length rest ≤ n)%nat → clean (cur ++ rest) →
  Forall clean (split_scan separator rest 0 depth cur).
Proof.
  intros Hd Hne. induction n as [|n IH]; intros rest depth cur Hn Hc.
  { destruct rest; [|cbn in Hn; lia]. cbn. constructor; [|done]. apply clean_strip. by rewrite app_nil_r in Hc. }
  destruct rest as [|c rest]; cbn [split_scan].
  { constructor; [|done]. apply clean_strip. by rewrite app_nil_r in Hc. }
  destruct (_ <? _)%nat; [constructor; [by apply clean_strip|done]|].
  match goal with |- context [(?d =? 0) && _] => generalize d end. intros d.
  destruct (d =? 0); [destruct (starts_with separator (c :: rest)) eqn:Es|]; cbn [andb].
  - apply starts_with_split in Es as [r Er]. destruct separator as [|c' tail]; [done|]. injection Er as <- ->.
    replace (length (c :: tail) - 1)%nat with (length tail) by (cbn; lia). rewrite split_skip. apply (Hd cur r) in Hc as [H1 H2]. constructor; [by apply clean_strip|].
    apply IH; [|done]. cbn in Hn. rewrite length_app in Hn. lia.
  - apply IH; [cbn in Hn; lia|]. by rewrite <- app_assoc.
  - apply IH; [cbn in Hn; lia|]. by rewrite <- app_assoc.
Qed.

Lemma clean_split_top separator t : delimits separator → separator ≠ [] → clean t → Forall clean (_split_top_level t separator).
Proof.
  intros Hd Hne H. apply Forall_forall. intros part [_ Hin]%list_elem_of_filter.
  pose proof (clean_split separator Hd Hne _ t 0 [] ltac:(reflexivity) H) as Hall. rewrite Forall_forall in Hall. by apply Hall.
Qed.

Lemma clean_generic t : clean t → clean (_generic_type t).1 ∧ Forall clean (_generic_type t).2.
Proof.
  intros H. unfold _generic_type. apply clean_strip in H. pose proof (span_app (λ c, negb (c =? ch "<")) (strip t)) as Happ.
  pose proof (span_snd (λ c, negb (c =? ch "<")) (strip t)) as Hsep.
  destruct (span _ _) as [base [|c rest]]; cbn [fst snd] in *; [by split|].
  apply negb_false_iff, Z.eqb_eq in Hsep as ->. case_bool_decide as Hl; [|by split].
  rewrite <- Happ in H. apply clean_app in H as [Hb Hr]; [|done]. split; [by apply clean_strip|].
  apply clean_split_top; [apply comma_delimits|done|]. rewrite <- Happ in Hl.
  destruct rest as [|x rest' _] using rev_ind; [apply sem_clean_nil|]. rewrite removelast_last.
  assert (base ++ ch "<" :: rest' ++ [x] = (base ++ ch "<" :: rest') ++ [x]) as E by by rewrite <- app_assoc.
  rewrite E, last_snoc in Hl. injection Hl as ->. by apply (clean_app rest' (ch ">") []) in Hr as [Hr _].
Qed.

Lemma clean_join separator l : delimits separator → Forall clean l → clean (join separator l).
Proof.
  intros Hd H. induction H as [|t l Ht Hl IH]; [apply sem_clean_nil|]. cbn [join]. destruct l as [|t' l]; [done|]. by apply Hd.
Qed.

(** [base<inner>]. *)
Lemma clean_brackets base inner : clean base → clean inner → clean (base ++ u "<" ++ inner ++ u ">").
Proof.
  intros Hb Hi. apply (clean_app base (ch "<") (inner ++ u ">")); [done|]. split; [done|].
  apply (clean_app inner (ch ">") []); [done|]. split; [done|apply sem_clean_nil].
Qed.

Lemma clean_names t : clean_type t → Forall clean (_type_names t).
Proof. destruct t as [t|]; [|constructor]. intros H. apply clean_split_top; [apply or_delimits|done|exact H]. Qed.

(** ** Types made of types *)

Lemma clean_success t : clean_type t → clean_type (_success_type t).
Proof.
  intros H. unfold _success_type. pose proof (clean_names t H) as Hn. case_bool_decide.
  - assert (Forall clean (sorted_text (dict_fromkeys (filter (λ n, n ≠ u "Error") (_type_names t))))) as Hall.
    { rewrite Forall_forall in *. intros x Hx. rewrite sorted_text_perm, elem_of_dict_fromkeys in Hx.
      apply list_elem_of_filter in Hx as [_ Hx]. by apply Hn. }
    destruct (sorted_text _) as [|x l]; [done|]. apply clean_join; [apply or_delimits|exact Hall].
  - destruct t as [t|]; [|done]. apply clean_generic in H as Hg. destruct Hg as [_ Hg].
    destruct (_generic_type t) as [base [|a [|b [|]]]]; cbn [fst snd] in *; try done; case_bool_decide; try done;
      by apply Forall_cons in Hg as [? _].
Qed.

Lemma clean_merge l left_args : ∀ right_args merged, merge_arguments l left_args right_args = Done merged →
  Forall clean left_args → Forall clean right_args → Forall clean merged.
Proof.
  induction left_args as [|x left_args IH]; intros [|y right_args] merged; cbn [merge_arguments]; try (intros [= <-] _ _; constructor).
  intros H [Hx Hl]%Forall_cons [Hy Hr]%Forall_cons. outcome_inv H. outcome_inv H. injection H as <-. constructor; [|by eapply IH].
  repeat case_bool_decide; congruence.
Qed.

Lemma clean_unify x y l t : _unify_types x y l = Done t → clean_type x → clean_type y → clean_type t.
Proof.
  intros H Hx Hy. destruct x as [x|], y as [y|]; cbn [_unify_types] in H; try congruence. case_bool_decide; [congruence|].
  apply clean_generic in Hx as Gx. apply clean_generic in Hy as Gy.
  destruct (_generic_type x) as [bx ax], (_generic_type y) as [by_ ay]; cbn [fst snd] in *. destruct Gx as [Gx1 Gx2], Gy as [_ Gy2].
  destruct (_ && _ && _).
  - outcome_inv H. injection H as <-. cbn. apply clean_brackets; [done|]. apply clean_join; [apply comma_space_delimits|].
    by eapply clean_merge.
  - destruct (_type_compatible x y); [congruence|]. destruct (_type_compatible y x); congruence.
Qed.

(** A constant text. *)
Ltac clean_constant := apply (bool_decide_unpack _); vm_compute; exact I.

Lemma clean_or_type a b : clean_type a → clean_type b → clean_type (or_type a b).
Proof. by destruct a as [[|]|]. Qed.

(** * Checks that derive nothing *)

Record clean_tables (T : tables) : Prop := {
  clean_functions name f : functions T !! name = Some f → clean (return_name f);
  clean_structs name d : declared_structs T !! name = Some d →
    clean name ∧ Forall (λ f, clean (type_ref_str (field_type f))) (struct_fields d);
  clean_enums name d : declared_enums T !! name = Some d → Forall (λ v, clean_type (type_ref_str <$> payload_type v)) (variants d);
  clean_variants name v : declared_variants T !! name = Some v → clean v.1;
  clean_imports alias m : (alias, m) ∈ imports T →
    clean alias ∧ (∀ name f, module_functions m !! name = Some f → clean (return_name f)) ∧
    Forall clean (module_structs m).*1 ∧ Forall clean (module_enums m).*1;
}.

Record clean_state (s : checker) : Prop := {
  clean_scopes scope name symbol : scope ∈ scopes s → scope !! name = Some symbol → clean_type (symbol_type symbol);
  clean_elements name t : element_types s !! name = Some t → clean t;
}.

(** [c] keeps the state clean and derives no capability; its results satisfy [R]. *)
Definition derives_none {A} (R : A → Prop) (c : sem A) : Prop := ∀ s a s', clean_state s → c s = Done (a, s') →
  clean_state s' ∧ capability_count s' = capability_count s ∧ R a.

Abbreviation any := (λ _, True).

Lemma none_ret {A} (R : A → Prop) a : R a → derives_none R (mret a).
Proof. intros H s b s' Hs [= <- <-]. done. Qed.

Lemma none_bind {A B} (R : A → Prop) (R' : B → Prop) (c : sem A) (f : A → sem B) :
  derives_none R c → (∀ a, R a → derives_none R' (f a)) → derives_none R' (c ≫= f).
Proof.
  intros Hc Hf s b s' Hs (a & s1 & H1 & H2)%sem_bind_done. destruct (Hc _ _ _ Hs H1) as (C1 & E1 & Ra).
  destruct (Hf a Ra _ _ _ C1 H2) as (C2 & E2 & Rb). split; [done|]. split; [congruence|done].
Qed.

Lemma none_weaken {A} (R R' : A → Prop) (c : sem A) : derives_none R c → (∀ a, R a → R' a) → derives_none R' c.
Proof. intros H HR s a s' Hs Hc. destruct (H _ _ _ Hs Hc) as (?&?&?). auto. Qed.

Lemma none_refuse {A} (R : A → Prop) code l : derives_none R (refuse code l).
Proof. intros s a s' _. done. Qed.
Lemma none_bug {A} (R : A → Prop) : derives_none R checker_bug.
Proof. intros s a s' _. done. Qed.
Lemma none_outside {A} (R : A → Prop) what : derives_none R (outside_checker what).
Proof. intros s a s' _. done. Qed.

Lemma none_refuse_if b code l : derives_none any (refuse_if b code l).
Proof. intros s a s' Hs [_ ->]%refuse_if_done. done. Qed.

Lemma none_ask {A} (R : A → Prop) (f : checker → A) : (∀ s, clean_state s → R (f s)) → derives_none R (ask_checker f).
Proof. intros H s a s' Hs [= <- <-]. auto. Qed.

Lemma none_lift {A} (R : A → Prop) (r : semantic_result A) : (∀ a, r = Done a → R a) → derives_none R (lift r).
Proof. intros H s a s' Hs [Hr ->]%lift_done. auto. Qed.

Lemma none_lift_any {A} (r : semantic_result A) : derives_none any (lift r).
Proof. by apply none_lift. Qed.

Lemma none_add_variable : derives_none any (modify add_variable).
Proof. intros s a s' [H1 H2] [= <- <-]. by split. Qed.
Lemma none_loops a b : derives_none any (modify (add_loops a b)).
Proof. intros s ? s' [H1 H2] [= <- <-]. by split. Qed.

Lemma none_element_type name t : clean t → derives_none any (modify (set_element_type name t)).
Proof.
  intros H s a s' [H1 H2] [= <- <-]. split; [|done]. split; [exact H1|]. intros n t'. cbn.
  destruct (decide (n = name)) as [->|Hn]; [rewrite lookup_insert_eq; by intros [= <-]|rewrite lookup_insert_ne by done; apply H2].
Qed.

Lemma none_scope {A} (R : A → Prop) (c : sem A) : derives_none R c → derives_none R (in_scope c).
Proof.
  intros H s a s' [H1 H2]. unfold in_scope.
  intros (? & ? & [= <- <-] & (b & s1 & Hc & (? & ? & [= <- <-] & [= <- <-])%sem_bind_done)%sem_bind_done)%sem_bind_done.
  assert (clean_state (set_scopes (∅ :: scopes s) s)) as Hs.
  { split; [|exact H2]. intros scope name symbol. cbn. intros [->|Hin]%elem_of_cons; [by rewrite lookup_empty|by apply H1]. }
  destruct (H _ _ _ Hs Hc) as ([C1 C2] & E & Ra). split; [|done]. split; [|exact C2].
  intros scope name symbol Hin. apply C1. cbn in Hin. destruct (scopes s1); [done|by right].
Qed.

Lemma none_each {A} (f : A → sem ()) l : Forall (λ x, derives_none any (f x)) l → derives_none any (sem_each f l).
Proof.
  induction 1 as [|x l Hx Hl IH]; [by apply none_ret|]. eapply none_bind; [exact Hx|intros _ _; exact IH].
Qed.

Lemma none_map {A B} (R : B → Prop) (f : A → sem B) l : Forall (λ x, derives_none R (f x)) l → derives_none (Forall R) (sem_map f l).
Proof.
  induction 1 as [|x l Hx Hl IH]; [by apply none_ret|]. eapply none_bind; [exact Hx|]. intros y Hy.
  eapply none_bind; [exact IH|]. intros ys Hys. apply none_ret. by constructor.
Qed.

Lemma none_declare symbol : clean_type (symbol_type symbol) → derives_none any (_declare symbol).
Proof.
  intros Ht s a s' [H1 H2]. unfold _declare. destruct (scopes s) as [|scope rest] eqn:E; [done|].
  case_bool_decide; [done|]. intros [= <- <-].
  rewrite bool_decide_eq_false_2.
  - split; [|done]. split; [|exact H2]. intros scope' name sym. cbn. intros [->|Hin]%elem_of_cons.
    + destruct (decide (name = symbol_name symbol)) as [->|Hn].
      * rewrite lookup_insert_eq. by intros [= <-].
      * rewrite lookup_insert_ne by done. intros Hl. eapply (H1 scope); [left|done].
    + apply H1. by right.
  - destruct (symbol_type symbol) as [t|]; cbn; [|intros Hin; by destruct (clean_capability [] Hin sem_clean_nil)].
    intros Hin. by apply (clean_capability t).
Qed.

(** * The annotations of a tree *)

Fixpoint annotations (e : Expression) {struct e} : list TypeRef :=
  match e with
  | Identifier _ _ | Literal _ _ => []
  | InterpolatedString items _ | ListLiteral items _ => concat (annotations <$> items)
  | StructLiteral _ fields _ => concat ((λ f : ustring * Expression, annotations f.2) <$> fields)
  | MapLiteral entries _ => concat ((λ kv : Expression * Expression, annotations kv.1 ++ annotations kv.2) <$> entries)
  | MemberExpression object _ _ => annotations object
  | CallExpression callee arguments _ => annotations callee ++ concat (annotations <$> arguments)
  | AssignmentExpression x y _ | BinaryExpression x _ y _ | OrElseExpression x y _ => annotations x ++ annotations y
  | UnaryExpression _ x _ => annotations x
  | OrReturnExpression x y _ => annotations x ++ match y with Some y => annotations y | None => [] end
  | OrBlockExpression x b _ => annotations x ++ block_annotations b
  | MatchExpression x arms _ => annotations x ++ concat (arm_annotations <$> arms)
  end
with arm_annotations (a : MatchArm) {struct a} : list TypeRef :=
  match a with
  | mk_arm _ _ (ArmExpression e) _ => annotations e
  | mk_arm _ _ (ArmBlock b) _ => block_annotations b
  end
with statement_annotations (s : Statement) {struct s} : list TypeRef :=
  match s with
  | LetStatement _ _ x _ annotation => annotations x ++ match annotation with Some r => [r] | None => [] end
  | ExpressionStatement x _ => annotations x
  | ReturnStatement x _ => match x with Some x => annotations x | None => [] end
  | IfStatement x b e _ =>
      annotations x ++ block_annotations b ++
      match e with
      | Some (ElseBlock b) => block_annotations b
      | Some (ElseIf s) => statement_annotations s
      | None => []
      end
  | WhileStatement x b _ | ForStatement _ x b _ => annotations x ++ block_annotations b
  | BreakStatement _ | ContinueStatement _ => []
  end
with block_annotations (b : Block) {struct b} : list TypeRef :=
  let 'mk_block l := b in concat (statement_annotations <$> l).

Definition clean_ref (r : TypeRef) : Prop := clean (type_ref_str r).
#[export] Instance clean_ref_dec r : Decision (clean_ref r).
Proof. unfold clean_ref. apply _. Defined.

Lemma Forall_concat_fmap {A B} (P : B → Prop) (f : A → list B) l : Forall P (concat (f <$> l)) ↔ Forall (λ x, Forall P (f x)) l.
Proof. induction l as [|x l IH]; cbn; [by split; constructor|]. by rewrite Forall_app, Forall_cons, IH. Qed.

(** * The operations *)

Create HintDb ambient discriminated.
#[export] Hint Constants Opaque : ambient.
#[export] Hint Resolve none_refuse none_bug none_outside none_refuse_if none_lift_any none_add_variable none_loops : ambient.

(** The structure of a check; an intermediate type is clean. *)
Ltac none_step :=
  match goal with
  | |- derives_none _ (mret _) => apply none_ret
  | |- derives_none _ (in_scope _) => apply none_scope
  | |- derives_none _ (if ?x then _ else _) => destruct x
  | |- derives_none _ (match ?x with _ => _ end) => destruct x
  | |- derives_none _ ((λ _, _) _) => cbv beta
  | |- derives_none _ (let _ := _ in _) => cbv zeta
  | |- derives_none _ (@mbind _ _ (list type_name) _ _ _) => apply (none_bind (Forall clean_type)); [|intros ? ?]
  | |- derives_none _ (@mbind _ _ (option ustring) _ _ _) => apply (none_bind clean_type); [|intros ? ?]
  | |- derives_none _ (@mbind _ _ () _ _ _) => apply (none_bind any); [|intros ? _]
  | |- derives_none _ (@mbind _ _ bool _ _ _) => apply (none_bind any); [|intros ? _]
  end.
Ltac none := repeat first [solve [auto 2 with ambient nocore] | none_step].

(** The first word takes the text before it. *)
Lemma words_prefix s : ∀ cur, ∃ w rest, words [] s = w :: rest ∧ words cur s = (cur ++ w) :: rest.
Proof.
  induction s as [|c s IH]; intros cur; cbn [words].
  { exists [], []. by rewrite app_nil_r. }
  destruct (is_separator c).
  - exists [], (words [] s). by rewrite app_nil_r.
  - destruct (IH [c]) as (w & rest & E1 & E2). destruct (IH (cur ++ [c])) as (w' & rest' & E1' & E2').
    rewrite E1 in E1'. injection E1' as <- <-. exists (c :: w), rest. cbn [app]. rewrite E2, E2', <- app_assoc. done.
Qed.

(** The type of a module mentions what its alias mentions. *)
Lemma clean_module name : clean name → clean (MODULE_TYPE_PREFIX ++ name).
Proof.
  unfold clean. change (words [] (MODULE_TYPE_PREFIX ++ name)) with (words MODULE_TYPE_PREFIX name).
  destruct (words_prefix name MODULE_TYPE_PREFIX) as (w & rest & -> & ->). rewrite !Forall_cons. intros [_ H]. split; [|done].
  assert (Forall (λ name, ch ":" ∉ name) CAPABILITY_TYPES) as Hc by (apply (bool_decide_unpack _); vm_compute; exact I).
  rewrite Forall_forall in Hc. intros Hin%Hc. apply Hin, elem_of_app. left. apply (bool_decide_unpack _). vm_compute. exact I.
Qed.

Section operations.
Context (T : tables) (url_origin : ustring → option (ustring * option ustring)) (evidence : gmap (ustring * Z * Z) TypeNode).
Context (HT : clean_tables T).

(** A symbol in scope has a clean type. *)
Definition clean_symbol (o : option Symbol) : Prop := match o with Some symbol => clean_type (symbol_type symbol) | None => True end.

Lemma find_clean s name : clean_state s → clean_symbol (find_symbol (scopes s) name).
Proof.
  intros [H _]. assert (∀ l, (∀ scope, scope ∈ l → scope ∈ scopes s) → clean_symbol (find_symbol l name)) as Hall; [|by apply Hall].
  induction l as [|scope l IH]; intros Hl; [done|]. cbn [find_symbol]. destruct (scope !! name) as [symbol|] eqn:E.
  - eapply H; [|exact E]. apply Hl. left.
  - apply IH. intros x Hx. apply Hl. by right.
Qed.

Lemma none_resolve name : derives_none clean_symbol (_resolve name).
Proof. apply none_ask. intros s Hs. by apply find_clean. Qed.

Lemma none_unknown {A} (R : A → Prop) name l : derives_none R (_raise_unknown_identifier name l).
Proof. unfold _raise_unknown_identifier. none. Qed.
#[local] Hint Resolve none_unknown : ambient.

Lemma none_require_bool t l : derives_none any (_require_bool t l).
Proof. unfold _require_bool. none. done. Qed.
#[local] Hint Resolve none_require_bool : ambient.

Lemma none_literal v l : derives_none clean_type (literal_type v l).
Proof. unfold literal_type. none; cbn; first [exact I|clean_constant]. Qed.

Lemma clean_identifier name l : derives_none clean_type (identifier_type T name l).
Proof.
  unfold identifier_type. eapply none_bind; [apply none_resolve|]. intros [symbol|] Hs; [by apply none_ret|].
  destruct (functions T !! name) as [f|] eqn:Ef; [apply none_ret; by eapply clean_functions|].
  case_bool_decide as Hi.
  { apply none_ret. apply list_elem_of_fmap in Hi as ([alias m] & -> & Hm). apply clean_module. by eapply clean_imports. }
  destruct (declared_variants T !! name) as [v|] eqn:Ev; [apply none_ret; by eapply clean_variants|]. none.
Qed.

Lemma none_member t member l : clean_type t → derives_none clean_type (member_type T t member l).
Proof.
  intros Ht. unfold member_type. rewrite bool_decide_eq_false_2.
  2: { intros ->. by apply (clean_capability (u "SystemCaps")); [apply (bool_decide_unpack _); vm_compute; exact I|]. }
  destruct (module_alias t) as [alias|].
  - destruct (assoc alias (imports T)) as [m|] eqn:Em; [|none]. apply assoc_Some in Em.
    destruct (clean_imports T HT _ _ Em) as (_ & Hf & Hss & Hes).
    destruct (module_functions m !! member) as [f|] eqn:Ef; [apply none_ret; by eapply Hf|].
    rewrite Forall_forall in Hss, Hes. repeat case_bool_decide; cbn [orb]; none; [by apply Hss|by apply Hss|by apply Hes].
  - case_bool_decide; [by apply none_ret|]. destruct (declared_structs T !! _) as [d|] eqn:Ed; [|by apply none_ret].
    destruct (declared_field d member) as [f|] eqn:Ef; [|none]. apply none_ret. cbn.
    destruct (clean_structs T HT _ _ Ed) as [_ Hf]. rewrite Forall_forall in Hf. apply Hf.
    apply find_some in Ef as [Hin _]. by apply list_elem_of_In.
Qed.

Lemma none_capability_method t method arguments l r : clean_type t →
  capability_method_type url_origin t method arguments l = Done r → r = (None, false).
Proof.
  intros Ht. unfold capability_method_type.
  assert (default [] t ∉ CAPABILITY_TYPES) as Hn.
  { destruct t as [t|]; [|apply (bool_decide_unpack _); vm_compute; exact I]. intros Hin. by apply (clean_capability t). }
  assert (∀ x, default [] t = x → x ∉ CAPABILITY_TYPES) as Hx by by intros x <-.
  destruct (assoc (default [] t) ROOT_NARROWING) as [mapping|] eqn:Er.
  { apply assoc_Some in Er. destruct Hn. unfold CAPABILITY_TYPES, ROOT_CAPABILITY_TYPES. rewrite !elem_of_app.
    left; left. by apply (list_elem_of_fmap_2 fst) in Er. }
  destruct (assoc (default [] t) NARROWED_OPERATIONS) as [operations|] eqn:En.
  { apply assoc_Some in En. destruct Hn. unfold CAPABILITY_TYPES. rewrite !elem_of_app. right.
    by apply (list_elem_of_fmap_2 fst) in En. }
  destruct (bool_decide _); [done|]. destruct (bool_decide _); [done|]. by intros [= <-].
Qed.

(** The results of the builtin methods. *)
Lemma clean_assoc_constant name (table : list (ustring * ustring)) : Forall clean table.*2 → clean_type (assoc name table).
Proof.
  intros H. destruct (assoc name table) as [t|] eqn:E; [|done]. apply assoc_Some in E. rewrite Forall_forall in H. cbn. apply H.
  by apply (list_elem_of_fmap_2 snd) in E.
Qed.

Lemma clean_extension t method types arguments l r :
  extension_method T t method types arguments l = Some (Done r) → clean_type r.
Proof.
  assert (∀ n (k : semantic_result type_name) t0, with_arity types n l k = Done t0 → k = Done t0) as Hw.
  { intros n k t0. unfold with_arity. by destruct (negb _). }
  intros H. refine (head_omap (λ r, ∀ t, r = Done t → clean_type t) _ _ _ H r eq_refl).
  repeat apply Forall_cons_2; try apply Forall_nil_2; intros a Ha t0 ->; revert Ha;
    unfold map_add_method, scan_method, partition_method, any_method, map_method, chunks_method, flatten_method, unique_method,
      reduction_method, daily_method, find_method, collections_method, method_is, plain_call, one_of;
    repeat (match goal with |- (if ?b then _ else _) = _ → _ => destruct b end); try discriminate;
    intros [= Hr%Hw]; repeat outcome_inv Hr; injection Hr as <-; clean_constant.
Qed.

Lemma none_method t method types arguments l : clean_type t →
  derives_none clean_type (_check_method_call T url_origin t method types arguments l).
Proof.
  intros Ht. unfold _check_method_call. destruct (bool_decide _); [none|].
  destruct (t ≫= _) as [r|] eqn:Er.
  - destruct t as [t|]; [|done]. cbn in Er. apply none_lift. intros a ->. by eapply clean_extension.
  - unfold base_method_call. destruct (module_alias t) as [alias|].
    + destruct (assoc alias (imports T)) as [m|] eqn:Em; [|none]. apply assoc_Some in Em.
      destruct (clean_imports T HT _ _ Em) as (_ & Hf & _).
      destruct (module_functions m !! method) as [f|] eqn:Ef; none. by eapply Hf.
    + assert (∀ table (k : semantic_result type_name) t0, arity_checked table method types l k = Done t0 → k = Done t0) as Hw.
      { intros table k t0. unfold arity_checked. destruct (assoc _ _); [|done]. by destruct (negb _). }
      destruct (bool_decide _).
      { apply none_lift. intros a Ha%Hw. destruct (bool_decide _); [|destruct (bool_decide _)]; repeat outcome_inv Ha; injection Ha as <-;
          try clean_constant. apply clean_assoc_constant. clean_constant. }
      destruct (bool_decide _).
      { apply none_lift. intros a Ha%Hw. repeat (destruct (bool_decide _); [repeat outcome_inv Ha; try (destruct (type_is_sensitive T _); [done|]); injection Ha as <-; first [exact I|clean_constant]|]).
        injection Ha as <-. apply clean_assoc_constant. clean_constant. }
      destruct (bool_decide _).
      { apply none_lift. intros a Ha%Hw. outcome_inv Ha. repeat (destruct (bool_decide _) in Ha; [repeat outcome_inv Ha; try (destruct (type_is_sensitive T _); [done|]); injection Ha as <-; first [exact I|clean_constant]|]).
        by injection Ha as <-. }
      destruct (_ && _); [none|].
      apply (none_bind (λ r, r = (None, false))).
      * apply none_lift. intros r. by apply none_capability_method.
      * intros r ->. cbn [fst snd]. none; exact I.
Qed.

Lemma clean_shape t shape v payload : clean_type t → _enum_shape T t = Some shape → shape !! v = Some payload → clean_type payload.
Proof.
  destruct t as [t|]; [|done]. intros Ht. unfold _enum_shape. destruct (negb _); [done|]. apply clean_generic in Ht as [_ Ha].
  destruct (_generic_type t) as [base arguments]. cbn [snd] in Ha.
  set (declared := _ <$> declared_enums T !! t).
  assert (declared = Some shape → shape !! v = Some payload → clean_type payload) as Hdeclared.
  { unfold declared. destruct (declared_enums T !! t) as [d|] eqn:Ed; [|done]. intros [= <-].
    pose proof (clean_enums T HT _ _ Ed) as Hv.
    assert (∀ vs (m : gmap ustring type_name), Forall (λ v, clean_type (type_ref_str <$> payload_type v)) vs →
              (∀ n p, m !! n = Some p → clean_type p) → ∀ n p,
              foldl (λ m v, <[variant_name v := type_ref_str <$> payload_type v]> m) m vs !! n = Some p → clean_type p) as Hfold.
    { induction vs as [|x vs IH]; intros m Hvs Hm n p; cbn [foldl]; [apply Hm|]. apply Forall_cons in Hvs as [Hx Hvs].
      apply IH; [done|]. intros n' p'. destruct (decide (n' = variant_name x)) as [->|Hn];
        [rewrite lookup_insert_eq; by intros [= <-]|rewrite lookup_insert_ne by done; apply Hm]. }
    apply (Hfold _ ∅); [exact Hv|]. intros n p. by rewrite lookup_empty. }
  case_bool_decide; [|case_bool_decide]; [| |exact Hdeclared].
  - destruct arguments as [|a [|]]; try exact Hdeclared. intros [= <-]. apply Forall_cons in Ha as [Ha _].
    destruct (decide (v = u "Some")) as [->|H1]; [rewrite lookup_insert_eq; by intros [= <-]|].
    rewrite lookup_insert_ne by done. intros [_ <-]%lookup_singleton_Some. exact I.
  - destruct arguments as [|a [|b [|]]]; try exact Hdeclared. intros [= <-]. apply Forall_cons in Ha as [Ha [Hb _]%Forall_cons].
    destruct (decide (v = u "Ok")) as [->|H1]; [rewrite lookup_insert_eq; by intros [= <-]|].
    rewrite lookup_insert_ne by done. intros [_ <-]%lookup_singleton_Some. exact Hb.
Qed.

Lemma none_named_call name types l c : Forall clean_type types → derives_none clean_type c →
  derives_none clean_type (named_call T name types l c).
Proof.
  intros Ht Hc. unfold named_call. destruct (functions T !! name) as [f|] eqn:Ef.
  { none. by eapply clean_functions. }
  destruct (declared_variants T !! name) as [[enum v]|] eqn:Ev.
  { apply none_lift. intros t. pose proof (clean_variants T HT _ _ Ev) as He. unfold variant_call.
    destruct (payload_type v), types as [|? [|]]; try done; [|by intros [= <-]]. intros H. outcome_inv H. by injection H as <-. }
  destruct (builtin_constructor T name types l) as [r|] eqn:Er; [|exact Hc]. apply none_lift. intros t ->.
  revert Er. unfold builtin_constructor. cbv zeta.
  assert (∀ x, types = [x] → clean (default [] (or_type x (Some (u "_"))))) as Hx.
  { intros x ->. apply Forall_cons in Ht as [Hx _]. destruct x as [[|]|]; [clean_constant|exact Hx|clean_constant]. }
  assert (∀ pre post, (pre, post) ∈ [(u "Option<", u ">"); (u "Result<", u ", _>"); (u "Result<_, ", u ">")] →
            ∀ x, clean x → clean (pre ++ x ++ post)) as Hwrap.
  { intros pre post [[= -> ->]|[[= -> ->]|[[= -> ->]|[]%elem_of_nil]%elem_of_cons]%elem_of_cons]%elem_of_cons x Hx'.
    - apply (clean_brackets (u "Option")); [clean_constant|done].
    - assert (u "Result<" ++ x ++ u ", _>" = u "Result" ++ u "<" ++ (x ++ u ", " ++ u "_") ++ u ">") as -> by by rewrite <- !app_assoc.
      apply clean_brackets; [clean_constant|]. apply comma_space_delimits. split; [done|clean_constant].
    - assert (u "Result<_, " ++ x ++ u ">" = u "Result" ++ u "<" ++ (u "_" ++ u ", " ++ x) ++ u ">") as -> by by rewrite <- !app_assoc.
      apply clean_brackets; [clean_constant|]. apply comma_space_delimits. split; [clean_constant|done]. }
  assert (∀ (code : Z) pre post, (pre, post) ∈ [(u "Option<", u ">"); (u "Result<", u ", _>"); (u "Result<_, ", u ">")] →
            match types with
            | [x] => if type_is_sensitive T x then Raise (Refused 2401 l) else Done (Some (pre ++ default [] (or_type x (Some (u "_"))) ++ post))
            | _ => Raise (Refused code l)
            end = Done t → clean_type t) as Hpayload.
  { intros code pre post Hin. destruct types as [|x [|]]; try done. destruct (type_is_sensitive T x); [done|]. intros [= <-]. cbn.
    apply Hwrap; [done|]. by apply Hx. }
  destruct (bool_decide (name = u "Error")).
  { intros [= Hr]. destruct (_ =? _)%nat; [|done]. injection Hr as <-. clean_constant. }
  destruct (bool_decide (name = u "Some")).
  { intros [= Hr]. apply (Hpayload 1701 (u "Option<") (u ">")); [left|exact Hr]. }
  destruct (bool_decide (name = u "None")).
  { intros [= Hr]. destruct (bool_decide _); [|done]. injection Hr as <-. clean_constant. }
  destruct (bool_decide (name = u "Ok")).
  { intros [= Hr]. apply (Hpayload 1701 (u "Result<") (u ", _>")); [right; left|exact Hr]. }
  destruct (bool_decide (name = u "Err")); [|done].
  intros [= Hr]. apply (Hpayload 1701 (u "Result<_, ") (u ">")); [right; right; left|exact Hr].
Qed.

Lemma none_binary operator t1 t2 l : clean_type t1 → clean_type t2 → derives_none clean_type (_binary_types operator t1 t2 l).
Proof.
  intros H1 H2. unfold _binary_types, _check_binary. none; first [done|exact I|clean_constant|by apply clean_or_type].
Qed.

Lemma none_gate lhs rhs l : derives_none any (decimal_gate T lhs rhs l).
Proof. unfold decimal_gate. apply (none_bind any); [by apply none_ask|intros ? _]. none. Qed.

Lemma none_or_else t1 t2 l1 l2 : clean_type t1 → clean_type t2 → derives_none clean_type (or_else_type T t1 t2 l1 l2).
Proof.
  intros H1 H2. unfold or_else_type. cbv zeta. pose proof (clean_success t1 H1) as Hs.
  destruct (_success_type t1) as [text|]; [|by apply none_ret]. none; [|by apply clean_or_type].
  apply none_lift. intros t Hu. by eapply clean_unify.
Qed.

Lemma clean_list_element t : clean t → clean_type (list_element t).
Proof.
  intros H. unfold list_element. destruct (starts_with (u "List<") t) eqn:Es; cbn [andb]; [|done].
  case_bool_decide as Hl; [|done]. destruct (strip _) as [|c element] eqn:Estrip; [done|].
  unfold clean_type. rewrite <- Estrip. apply clean_strip. apply starts_with_split in Es as [rest Er]. rewrite Er in *.
  destruct rest as [|x rest' _] using rev_ind; [apply sem_clean_nil|]. rewrite app_assoc, removelast_last. cbn [app drop].
  rewrite app_assoc, last_snoc in Hl. injection Hl as ->.
  apply (clean_app (u "List") (ch "<") (rest' ++ [ch ">"])) in H as [_ H]; [|done].
  by apply (clean_app rest' (ch ">") []) in H as [H _].
Qed.

Lemma none_declare_let name m t annotation l : clean_type t → (∀ r, annotation = Some r → clean_ref r) →
  derives_none any (declare_let T name m t annotation l).
Proof.
  intros Ht Ha. unfold declare_let. destruct annotation as [r|].
  - cbv zeta. specialize (Ha r eq_refl). unfold clean_ref in Ha. apply (none_bind any); [none; exact I|intros _ _].
    apply (none_bind any).
    + apply none_declare. cbn. destruct (bool_decide _); [|exact Ha]. unfold before_bracket.
      pose proof (span_app (λ c, negb (c =? ch "<")) (type_ref_str r)) as Happ.
      pose proof (span_snd (λ c, negb (c =? ch "<")) (type_ref_str r)) as Hsep.
      destruct (span _ _) as [base [|c rest]]; cbn [fst snd] in *; [by rewrite <- Happ, app_nil_r in Ha|].
      apply negb_false_iff, Z.eqb_eq in Hsep as ->. rewrite <- Happ in Ha. by apply clean_app in Ha as [Ha _].
    + intros _ _. apply (none_bind any); [|intros _ _; none]. pose proof (clean_list_element _ Ha) as He.
      destruct (list_element _); [by apply none_element_type|none; exact I].
  - apply (none_bind any); [by apply none_declare|intros _ _; none].
Qed.

Lemma none_fallback e : derives_none clean_type (ask_checker (_fallback_item_type e)).
Proof.
  apply none_ask. intros s Hs. unfold _fallback_item_type. destruct e; try done.
  destruct (element_types s !! name) as [t|] eqn:Et; [by eapply clean_elements|].
  pose proof (find_clean s name Hs) as Hsym. destruct (find_symbol _ _) as [symbol|]; [|done].
  apply clean_list_element. destruct symbol as [? [t|] ? ?]; [exact Hsym|apply sem_clean_nil].
Qed.

Lemma none_assign name at_name t l : clean_type t → derives_none clean_type (assign_variable T name at_name t l).
Proof.
  intros Ht. unfold assign_variable. eapply none_bind; [apply none_resolve|]. intros [symbol|] Hs; none.
  { exact I. }
  by apply clean_or_type.
Qed.

Definition clean_field (df : StructDeclaration * StructField) : Prop := clean (type_ref_str (field_type df.2)).

Lemma none_field_target name at_name member at_member l :
  derives_none clean_field (field_target T name at_name member at_member l).
Proof.
  unfold field_target. eapply none_bind; [apply none_resolve|]. intros [symbol|] Hs; [|none].
  apply (none_bind any); [none|intros _ _]. destruct (declared_structs T !! _) as [d|] eqn:Ed; [|none].
  destruct (declared_field d member) as [f|] eqn:Ef; [|none]. apply none_ret. unfold clean_field; cbn.
  destruct (clean_structs T HT _ _ Ed) as [_ Hf]. rewrite Forall_forall in Hf. apply Hf.
  apply find_some in Ef as [Hin _]. by apply list_elem_of_In.
Qed.
End operations.

#[export] Hint Resolve none_unknown none_require_bool none_gate : ambient.

(** * Bodies *)

Section bodies.
Context (T : tables) (url_origin : ustring → option (ustring * option ustring)) (evidence : gmap (ustring * Z * Z) TypeNode).
Context (current : FunctionDeclaration).
Context (HT : clean_tables T).
Context (Hev : ∀ key t, evidence !! key = Some t → clean_type (_legacy_item_name (_list_item t))).

Abbreviation expression_check := (check_expression T url_origin evidence current).
Abbreviation receiver_check := (receiver_type T url_origin evidence current).
Abbreviation statement_check := (check_statement T url_origin evidence current).
Abbreviation block_check := (check_statements T url_origin evidence current).
Abbreviation arm_check := (arm_type T url_origin evidence current).

Definition expression_none (e : Expression) : Prop :=
  derives_none clean_type (expression_check e) ∧ derives_none any (receiver_check e) ∧
  derives_none any (_is_fallible_call T receiver_check e).

Definition tree_none (e : Expression) : Prop := Forall clean_ref (annotations e) →
  expression_none e ∧ match e with MemberExpression object _ _ => expression_none object | _ => True end.

Definition checked_none (s : Statement) : Prop :=
  derives_none any (statement_check s) ∧
  match s with ExpressionStatement e _ => derives_none clean_type (expression_check e) | _ => True end.

Definition statement_none (s : Statement) : Prop := Forall clean_ref (statement_annotations s) → checked_none s.
Definition arm_none (a : MatchArm) : Prop := Forall clean_ref (arm_annotations a) → derives_none clean_type (arm_check a).
Definition block_none (b : Block) : Prop := Forall clean_ref (block_annotations b) → Forall checked_none (statements b).

(** The members of a list with clean annotations. *)
Lemma none_members {A} (f : A → list TypeRef) (P : A → Prop) l :
  Forall (λ x, Forall clean_ref (f x) → P x) l → Forall clean_ref (concat (f <$> l)) → Forall P l.
Proof. rewrite Forall_concat_fmap. intros H1 H2. induction H1; inversion H2; subst; constructor; auto. Qed.

Lemma block_none_checked b : Forall checked_none (statements b) → derives_none any (block_check b).
Proof. destruct b as [l]. intros H. apply none_each. eapply Forall_impl; [exact H|]. by intros s [Hs _]. Qed.

Lemma none_check_return t l : derives_none any (check_return T current t l).
Proof. unfold check_return. none. done. Qed.
#[local] Hint Resolve none_check_return : ambient.

Lemma none_match value arms l :
  derives_none clean_type (expression_check value) → Forall (λ a, derives_none clean_type (arm_check a)) arms →
  derives_none clean_type (_match T expression_check arm_check value arms l).
Proof.
  intros Hv Ha. unfold _match. eapply none_bind; [exact Hv|]. intros t Ht.
  destruct (_enum_shape T t) as [shape|] eqn:Es; [|none].
  apply (none_bind (λ r, clean_type r.2)); [|intros r Hr; none; exact Hr].
  assert (clean_type None) as Hn by exact I. revert Hn. generalize (∅ : gset ustring) (None : type_name).
  induction Ha as [|[variant binding body at_arm] arms Harm Ha IH]; intros seen result Hr; cbn [match_loop].
  { by apply none_ret. }
  apply (none_bind any); [none|intros _ _]. destruct (shape !! variant) as [payload|] eqn:Ep; [|none].
  apply (none_bind any); [none|intros _ _]. apply (none_bind any); [none|intros _ _].
  apply (none_bind clean_type).
  - apply none_scope, (none_bind any); [|by intros _ _].
    destruct binding; [|by apply none_ret]. apply none_declare. exact (clean_shape T HT t shape variant payload Ht Es Ep).
  - intros t' Ht'. apply (none_bind clean_type); [|intros t'' Ht''; by apply IH].
    apply none_lift. intros t'' Hu. by eapply clean_unify.
Qed.

Lemma none_struct_literal name fields l : Forall (λ f : ustring * Expression, expression_none f.2) fields →
  derives_none clean_type (_check_struct_literal T expression_check name fields l).
Proof.
  intros H. unfold _check_struct_literal. destruct (declared_structs T !! name) as [d|] eqn:Ed; [|none].
  apply (none_bind any).
  - generalize ([] : list ustring).
    induction H as [|[n x] fields [Hx _] H IH]; intros provided; cbn [struct_entries]; [by apply none_ret|].
    cbn [fst snd] in Hx. none.
  - intros ? _. none. by apply (clean_structs T HT _ _ Ed).
Qed.

Lemma none_map_entries entries :
  Forall (λ kv : Expression * Expression, expression_none kv.1 ∧ expression_none kv.2) entries → ∀ keys,
  derives_none any (map_entries T expression_check keys entries).
Proof.
  induction 1 as [|[k x] entries [[Hk _] [Hx _]] H IH]; intros keys; cbn [map_entries]; [by apply none_ret|].
  cbn [fst snd] in *. none.
Qed.

Lemma none_call callee arguments l :
  expression_none callee → (match callee with MemberExpression object _ _ => expression_none object | _ => True end) →
  Forall expression_none arguments → derives_none clean_type (expression_check (CallExpression callee arguments l)).
Proof.
  intros [Hc _] Ho Ha. assert (Forall (λ e, derives_none clean_type (expression_check e)) arguments) as Hargs.
  { eapply Forall_impl; [exact Ha|]. by intros e [H _]. }
  pose proof (none_map clean_type expression_check arguments Hargs) as Hm. cbn [check_expression].
  destruct callee as [name at_name| | | | | |object member at_member| | | | | | | |];
    try (eapply none_bind; [exact Hm|intros ? _; exact Hc]).
  - destruct (bool_decide _); [apply none_outside|]. apply (none_bind any).
    + destruct arguments as [|x [|]]; [by apply none_ret| |by apply none_ret]. apply Forall_cons in Hargs as [Hx _]. none.
    + intros _ _. eapply none_bind; [exact Hm|]. intros types Ht. by apply none_named_call.
  - destruct Ho as [Ho _]. eapply none_bind; [exact Hm|intros types _]. eapply none_bind; [exact Ho|intros t Ht]. by apply none_method.
Qed.

Lemma none_fallible_call callee arguments l :
  (match callee with MemberExpression object _ _ => expression_none object | _ => True end) →
  derives_none any (_is_fallible_call T receiver_check (CallExpression callee arguments l)) ∧
  derives_none any (receiver_check (CallExpression callee arguments l)).
Proof.
  intros Ho. cbn [_is_fallible_call receiver_type].
  destruct callee as [name at_name| | | | | |object member at_member| | | | | | | |]; try (split; none; exact I).
  all: destruct Ho as (_ & Ho & _); split; (eapply none_bind; [exact Ho|intros ? _; by apply none_ret]).
Qed.

Lemma none_block_value l : Forall checked_none l →
  derives_none clean_type (block_value statement_check
    (λ tail, match tail with
             | ExpressionStatement e _ => expression_check e
             | _ => _ ← statement_check tail; mret (Some (u "Void"))
             end) l).
Proof.
  assert (clean_type (Some (u "Void"))) as Hvoid by clean_constant.
  induction 1 as [|s l [Hs He] Hl IH]; cbn [block_value]; [by apply none_ret|]. destruct l as [|s' l].
  - destruct s; try (eapply none_bind; [exact Hs|intros ? _; by apply none_ret]). exact He.
  - eapply none_bind; [exact Hs|intros _ _; exact IH].
Qed.

(** The item of a [for] has a clean type. *)
Lemma none_for_scope variable item l body : clean_type item → derives_none any body →
  derives_none any (for_scope variable item l body).
Proof. intros Hi Hb. unfold for_scope. none. by apply none_declare. Qed.

(** The annotations of the parts of a node. *)
Ltac parts H := cbn [annotations arm_annotations statement_annotations] in H; rewrite ?Forall_app in H.

(** A node whose receiver and failure are those of no call. *)
Ltac plain := split; [split_and!; cbn [check_expression receiver_type _is_fallible_call]|exact I]; try (solve [none; exact I]).

Lemma none_expression e : tree_none e → Forall clean_ref (annotations e) → expression_none e.
Proof. intros H Ha. by destruct (H Ha). Qed.

Lemma none_struct : ∀ name fields l, Forall (λ f : ustring * Expression, tree_none f.2) fields → tree_none (StructLiteral name fields l).
Proof.
  intros name fields l H Ha. parts Ha.
  apply (none_members (λ f : ustring * Expression, annotations f.2) (λ f, expression_none f.2)) in Ha;
    [|eapply Forall_impl; [exact H|]; intros e He; by apply none_expression].
  plain. by apply none_struct_literal.
Qed.

Lemma none_map_literal : ∀ entries l, Forall (λ kv : Expression * Expression, tree_none kv.1 ∧ tree_none kv.2) entries →
  tree_none (MapLiteral entries l).
Proof.
  intros entries l H Ha. parts Ha.
  apply (none_members (λ kv : Expression * Expression, annotations kv.1 ++ annotations kv.2)
           (λ kv, expression_none kv.1 ∧ expression_none kv.2)) in Ha.
  2: { eapply Forall_impl; [exact H|]. intros kv [H1 H2] [A1 A2]%Forall_app. split; by apply none_expression. }
  plain. apply (none_bind any); [by apply none_map_entries|intros _ _; apply none_ret; clean_constant].
Qed.

Lemma none_assignment : ∀ target value l, tree_none target → tree_none value → tree_none (AssignmentExpression target value l).
Proof.
  intros target value l Ht Hv Ha. parts Ha. destruct Ha as [A1 A2]. destruct (Ht A1) as [[Ht1 _] _], (Hv A2) as [[Hv1 _] _].
  plain. destruct target as [name at_name| | | | | |object member at_member| | | | | | | |]; try (none; done; fail).
  + eapply none_bind; [exact Hv1|]. intros t Htt. by apply none_assign.
  + destruct object as [name at_name| | | | | | | | | | | | | |]; try (solve [none]).
    apply (none_bind clean_field); [by apply none_field_target|]. intros df Hdf. eapply none_bind; [exact Hv1|]. intros t Htt.
    unfold declared_item. none.
Qed.

Lemma none_unary : ∀ operator operand l, tree_none operand → tree_none (UnaryExpression operator operand l).
Proof.
  intros operator operand l H Ha. parts Ha. destruct (H Ha) as [[H1 _] _]. plain. cbv zeta.
  assert (derives_none clean_type (t ← expression_check operand;
      if bool_decide (operator = u "!") then _ ← _require_bool t l; mret (Some (u "Bool"))
      else _ ← refuse_if (bool_decide (t ∉ [None; Some (u "_")]) && bool_decide (default [] t ∉ NUMERIC_TYPES)) 1301 l; mret t))
    as Hg by (none; first [done|clean_constant]).
  destruct (if bool_decide (operator = u "-") then _ else _); [|exact Hg].
  destruct (_ =? _); [apply none_ret; clean_constant|]. destruct (_ <? _); [apply none_refuse|exact Hg].
Qed.

Lemma none_let : ∀ name m value l annotation, tree_none value → statement_none (LetStatement name m value l annotation).
Proof.
  intros name m value l annotation H Ha. parts Ha. destruct Ha as [A1 A2]. destruct (H A1) as [[H1 _] _]. split; [|done].
  cbn [check_statement]. eapply none_bind; [exact H1|intros t Ht]. apply none_declare_let; [done|].
  intros r ->. by apply Forall_cons in A2 as [? _].
Qed.

Lemma none_if : ∀ condition b e l, tree_none condition → block_none b →
  (∀ b, e = Some (ElseBlock b) → block_none b) → (∀ s, e = Some (ElseIf s) → statement_none s) →
  statement_none (IfStatement condition b e l).
Proof.
  intros condition b e l Hc Hb He Hs Ha. parts Ha. destruct Ha as (A1 & A2 & A3). destruct (Hc A1) as [[Hc1 _] _]. split; [|done].
  pose proof (block_none_checked _ (Hb A2)) as Hthen. cbn [check_statement].
  eapply none_bind; [exact Hc1|intros t Ht]. apply (none_bind any); [none|intros _ _].
  apply (none_bind any); [by apply none_scope|intros _ _].
  destruct e as [[b'|s]|]; [|destruct s as [| | |c b1 e1 l1| | | |]|]; try by apply none_ret.
  + apply none_scope, block_none_checked. by apply (He b').
  + by destruct (Hs _ eq_refl A3).
Qed.

Lemma none_for : ∀ variable iterable b l, tree_none iterable → block_none b → statement_none (ForStatement variable iterable b l).
Proof.
  intros variable iterable b l Hi Hb Ha. parts Ha. destruct Ha as [A1 A2]. destruct (Hi A1) as [[Hi1 _] _]. split; [|done].
  pose proof (block_none_checked _ (Hb A2)) as Hbody. cbn [check_statement].
  eapply none_bind; [exact Hi1|intros t Ht]. cbv zeta. apply (none_bind any); [none|intros _ _].
  apply (none_bind clean_type); [by apply none_fallback|intros fallback Hf]. apply none_for_scope; [|done].
  destruct (evidence !! _location_key iterable) as [node|] eqn:Ee; cbn [mbind option_bind]; [|done].
  pose proof (Hev _ _ Ee) as Hn. by destruct (_legacy_item_name (_list_item node)).
Qed.

Lemma none_tree : tree_cases tree_none arm_none statement_none block_none.
Proof.
  split.
  - intros name l _. plain; [by apply clean_identifier|]. eapply none_bind; [apply none_resolve|]. intros [?|] _; none; exact I.
  - intros v l _. plain. by apply none_literal.
  - intros parts l H Ha. parts Ha. apply none_members with (P := expression_none) in Ha;
      [|eapply Forall_impl; [exact H|]; intros e He; by apply none_expression].
    plain. apply (none_bind any); [|intros _ _; apply (none_bind any); [|intros _ _; apply none_ret; clean_constant]]; apply none_each;
      (eapply Forall_impl; [exact Ha|]); intros e (H1 & H2 & H3); unfold data_part, interpolation_part; none.
  - exact none_struct.
  - intros items l H Ha. parts Ha. apply none_members with (P := expression_none) in Ha;
      [|eapply Forall_impl; [exact H|]; intros e He; by apply none_expression].
    plain. apply (none_bind any); [|intros _ _; apply none_ret; clean_constant]. apply none_each.
    eapply Forall_impl; [exact Ha|]. intros e (H1 & H2 & H3). unfold list_item_check. none.
  - exact none_map_literal.
  - intros object member l Ho Ha. parts Ha. destruct (Ho Ha) as [(H1 & H2 & H3) _]. split; [|done].
    split_and!; cbn [check_expression receiver_type _is_fallible_call]; [|eapply none_bind; [exact H2|intros ? _; by apply none_ret]|by apply none_ret].
    eapply none_bind; [exact H1|]. intros t Ht. by apply none_member.
  - intros callee arguments l Hc Has Ha. parts Ha. destruct Ha as [A1 A2]. destruct (Hc A1) as [Hc1 Hc2].
    apply none_members with (P := expression_none) in A2; [|eapply Forall_impl; [exact Has|]; intros e He; by apply none_expression].
    destruct (none_fallible_call callee arguments l Hc2). split; [|exact I]. split_and!; try done. by apply none_call.
  - exact none_assignment.
  - intros lhs operator rhs l H1 H2 Ha. parts Ha. destruct Ha as [A1 A2]. destruct (H1 A1) as [[H3 _] _], (H2 A2) as [[H4 _] _].
    plain. apply (none_bind any); [apply none_gate|intros _ _]. eapply none_bind; [exact H3|intros t1 T1].
    eapply none_bind; [exact H4|intros t2 T2]. by apply none_binary.
  - exact none_unary.
  - intros value error l H1 H2 Ha. parts Ha. destruct Ha as [A1 A2]. destruct (H1 A1) as [[H3 _] _]. plain.
    eapply none_bind; [exact H3|intros t Ht]. apply (none_bind any); [|intros _ _; apply none_ret; by apply clean_success].
    destruct error as [e|]; [destruct (H2 e eq_refl A2) as [[He _] _]; none|by apply none_ret].
  - intros value fallback l H1 H2 Ha. parts Ha. destruct Ha as [A1 A2]. destruct (H1 A1) as [[H3 _] _], (H2 A2) as [[H4 _] _].
    plain. eapply none_bind; [exact H3|intros t1 T1]. eapply none_bind; [exact H4|intros t2 T2]. by apply none_or_else.
  - intros value handler l H1 H2 Ha. parts Ha. destruct Ha as [A1 A2]. destruct (H1 A1) as [[H3 _] _].
    pose proof (block_none_checked _ (H2 A2)) as Hb. plain. eapply none_bind; [exact H3|intros t Ht].
    apply (none_bind any); [by apply none_scope|intros _ _; apply none_ret; by apply clean_success].
  - intros value arms l H1 H2 Ha. parts Ha. destruct Ha as [A1 A2]. destruct (H1 A1) as [[H3 _] _].
    apply (none_members arm_annotations (λ a, derives_none clean_type (arm_check a))) in A2; [|exact H2].
    pose proof (none_match value arms l H3 A2). plain; first [done|by eapply none_weaken].
  - intros variant binding e l H Ha. by destruct (H Ha) as [[H1 _] _].
  - intros variant binding [l'] l H Ha. cbn [arm_type]. apply none_scope, none_block_value. exact (H Ha).
  - exact none_let.
  - intros value l H Ha. split; [|done]. cbn [check_statement]. apply (none_bind any); [|intros ? _; none].
    destruct value as [e|]; [|by apply none_ret]. destruct (H e eq_refl Ha) as [[He _] _]. by eapply none_weaken.
  - intros e l H Ha. destruct (H Ha) as [(H1 & H2 & H3) _]. split; [|exact H1]. cbn [check_statement].
    apply (none_bind clean_type); [exact H1|intros ? _]. apply (none_bind any); [exact H3|intros ? _].
    apply (none_bind any); [by apply none_ask|intros ? _; none].
  - exact none_if.
  - intros condition b l Hc Hb Ha. parts Ha. destruct Ha as [A1 A2]. destruct (Hc A1) as [[Hc1 _] _]. split; [|done].
    pose proof (block_none_checked _ (Hb A2)) as Hbody. cbn [check_statement]. none.
  - exact none_for.
  - intros l _. split; [|done]. cbn [check_statement]. apply (none_bind any); [by apply none_ask|intros ? _; none].
  - intros l _. split; [|done]. cbn [check_statement]. apply (none_bind any); [by apply none_ask|intros ? _; none].
  - intros l H Ha. parts Ha. exact (none_members statement_annotations checked_none l H Ha).
Qed.

(** A function derives nothing if its parameters and annotations are clean. *)
Lemma none_function :
  Forall (λ p, clean_ref (parameter_type p)) (parameters current) → Forall clean_ref (block_annotations (body current)) →
  derives_none any (_check_function T url_origin evidence current).
Proof.
  intros Hp Hb. unfold _check_function. apply none_scope, (none_bind any).
  - apply none_each. eapply Forall_impl; [exact Hp|]. intros p H. by apply none_declare.
  - intros _ _. apply block_none_checked. by apply (tree_induction _ _ _ _ none_tree).
Qed.
End bodies.

(** * The tables *)

Definition clean_variants_of (d : EnumDeclaration) : Prop :=
  Forall (λ v, clean_type (type_ref_str <$> payload_type v)) (variants d).

(** A struct under the name [name]. *)
Definition clean_fields (name : ustring) (d : StructDeclaration) : Prop :=
  clean name ∧ Forall (λ f, clean (type_ref_str (field_type f))) (struct_fields d).

(** The types that a function of a program writes. *)
Definition clean_function (f : FunctionDeclaration) : Prop :=
  clean (return_name f) ∧ Forall (λ p, clean_ref (parameter_type p)) (parameters f) ∧
  Forall clean_ref (block_annotations (body f)).

Definition clean_program (program : NativeProgram) : Prop :=
  Forall clean_function (declarations program) ∧ Forall (λ d, clean_fields (struct_name d) d) (structs program) ∧
  Forall (λ d, clean (enum_name d) ∧ clean_variants_of d) (enums program).

Definition clean_import (item : ustring * imported_module) : Prop :=
  clean item.1 ∧ map_Forall (λ _ f, clean (return_name f)) (module_functions item.2) ∧
  Forall (λ d : ustring * object StructDeclaration, clean_fields d.1 (contents d.2)) (module_structs item.2) ∧
  Forall (λ d : ustring * object EnumDeclaration, clean d.1 ∧ clean_variants_of (contents d.2)) (module_enums item.2).

#[export] Instance clean_program_dec program : Decision (clean_program program).
Proof. unfold clean_program, clean_function, clean_fields, clean_variants_of. apply _. Defined.
#[export] Instance clean_import_dec item : Decision (clean_import item).
Proof. unfold clean_import, clean_fields, clean_variants_of. apply _. Defined.

(** The dictionaries under construction. *)
Definition clean_struct_table (m : gmap ustring (option nat * StructDeclaration)) : Prop := map_Forall (λ name e, clean_fields name e.2) m.
Definition clean_enum_table (m : gmap ustring (option nat * EnumDeclaration)) : Prop := map_Forall (λ _ e, clean_variants_of e.2) m.
Definition clean_variant_table (m : gmap ustring (ustring * ((option nat * nat) * EnumVariant))) : Prop := map_Forall (λ _ e, clean e.1) m.

Lemma map_Forall_put_default {A} (P : ustring → A → Prop) (m : gmap ustring A) k a :
  map_Forall P m → P k a → map_Forall P (put_default m k a).
Proof. intros Hm Ha. unfold put_default. destruct (m !! k); [done|]. by apply map_Forall_insert_2. Qed.

Lemma map_Forall_dict_of {A} (P : ustring → A → Prop) (key : A → ustring) l :
  Forall (λ a, P (key a) a) l → map_Forall P (dict_of key l).
Proof.
  intros H. unfold dict_of. assert (map_Forall P (∅ : gmap ustring A)) as H0 by apply map_Forall_empty.
  revert H0. generalize (∅ : gmap ustring A). induction H as [|a l Ha Hl IH]; intros m Hm; [done|].
  apply IH. by apply map_Forall_insert_2.
Qed.

Lemma clean_add_variants enum owner check : clean enum → ∀ l index m m', clean_variant_table m →
  add_variants enum owner check index m l = Done m' → clean_variant_table m'.
Proof.
  intros He. induction l as [|v l IH]; intros index m m' Hm; cbn [add_variants]; [by intros [= <-]|].
  destruct (_ && _); [done|]. apply IH. by apply map_Forall_put_default.
Qed.

(** A fold whose steps keep an invariant. *)
Lemma outcome_fold_keeps {E A S} (f : S → A → outcome E S) (I : S → Prop) l : (∀ x s s', x ∈ l → I s → f s x = Done s' → I s') →
  ∀ s s', I s → outcome_fold f s l = Done s' → I s'.
Proof.
  induction l as [|x l IH]; intros Hf s s' Hs H; cbn [outcome_fold] in H; [congruence|]. outcome_inv H.
  eapply (IH ltac:(intros; eapply Hf; [by right|done|done])); [|exact H]. by eapply Hf; [left| |].
Qed.

Lemma clean_add_module item ms ms' : clean_import item →
  clean_struct_table ms.1 ∧ clean_enum_table ms.2.1 ∧ clean_variant_table ms.2.2 → add_module ms item = Done ms' →
  clean_struct_table ms'.1 ∧ clean_enum_table ms'.2.1 ∧ clean_variant_table ms'.2.2.
Proof.
  intros (_ & _ & Hstructs & Henums) (H1 & H2 & H3) H. unfold add_module in H. outcome_inv H. outcome_inv H. injection H as <-.
  rewrite Forall_forall in Hstructs. rewrite Forall_forall in Henums. cbn [fst snd]. split.
  - eapply (outcome_fold_keeps add_struct clean_struct_table); [|exact H1|eassumption].
    intros [name o] m m' Hin Hm. unfold add_struct. destruct (conflicts _ _ _); [done|]. intros [= <-].
    apply map_Forall_put_default; [done|]. by apply (Hstructs (name, o)).
  - eapply (outcome_fold_keeps add_enum (λ m, clean_enum_table m.1 ∧ clean_variant_table m.2)); [|exact (conj H2 H3)|eassumption].
    intros [name o] m m' Hin [Hm1 Hm2]. unfold add_enum. destruct (conflicts _ _ _); [done|]. intros Hr. outcome_inv Hr.
    injection Hr as <-. destruct (Henums (name, o) Hin) as [Hn Hv]. split; [by apply map_Forall_put_default|].
    by eapply clean_add_variants.
Qed.

(** The tables of a clean program and its modules. *)
Lemma clean_new_tables program modules T : clean_program program → Forall clean_import modules →
  new_tables program modules = Done T → clean_tables T.
Proof.
  intros (Hf & Hs & He) Hm H. unfold new_tables in H. rewrite Forall_forall in Hm.
  destruct (own_variants (enums program)) as [vs| |] eqn:Ev; [|done..]. cbn in H. outcome_inv H.
  match goal with E : outcome_fold _ _ _ = Done ?r |- _ => rename r into ms, E into Ems end. injection H as <-.
  assert (clean_struct_table ms.1 ∧ clean_enum_table ms.2.1 ∧ clean_variant_table ms.2.2) as (T1 & T2 & T3).
  { eapply (outcome_fold_keeps add_module (λ ms, clean_struct_table ms.1 ∧ clean_enum_table ms.2.1 ∧ clean_variant_table ms.2.2));
      [|split_and!|exact Ems]; cbn [fst snd].
    - intros item m m' Hin. by apply clean_add_module, Hm.
    - apply map_Forall_dict_of, Forall_fmap. exact Hs.
    - apply map_Forall_dict_of, Forall_fmap. eapply Forall_impl; [exact He|]. by intros d [_ Hd].
    - rewrite Forall_forall in He. eapply (outcome_fold_keeps _ clean_variant_table); [|apply map_Forall_empty|exact Ev].
      intros d m m' Hin Hmm. eapply clean_add_variants; [by apply He|done]. }
  split; cbn.
  - intros name f Hl. assert (map_Forall (λ _ f, clean (return_name f)) (dict_of function_name (declarations program))) as Hall.
    { apply map_Forall_dict_of. eapply Forall_impl; [exact Hf|]. by intros g [? _]. }
    by apply (Hall name).
  - intros name d. rewrite lookup_fmap. intros ([o d'] & Hl & ->)%fmap_Some_1. by apply (T1 name (o, d')).
  - intros name d. rewrite lookup_fmap. intros ([o d'] & Hl & ->)%fmap_Some_1. by apply (T2 name (o, d')).
  - intros name v. rewrite lookup_fmap. intros (e & Hl & ->)%fmap_Some_1. by apply (T3 name e).
  - intros alias m Hin. destruct (Hm _ Hin) as (H1 & H2 & H3 & H4). split_and!; [done|done| |]; apply Forall_fmap.
    + eapply Forall_impl; [exact H3|]. by intros d [? _].
    + eapply Forall_impl; [exact H4|]. by intros d [? _].
Qed.

(** C3: A program accepted by [check] whose types - of parameters, returns, fields,
payloads and [let]s, and in the declarations it imports - mention no capability derives
none: no expression of its functions, whatever their nesting, is a member of
[SystemCaps] or a narrowing, and no variable has a capability type, so the report
counts no capability value. *)
Theorem no_ambient_authority url_origin evidence program modules report :
  clean_program program → Forall clean_import modules →
  (∀ key t, evidence !! key = Some t → clean_type (_legacy_item_name (_list_item t))) →
  check url_origin evidence program modules = Done report →
  report_capability_values report = 0.
Proof.
  intros Hp Hm Hev H. unfold check in H. destruct (new_tables program modules) as [T| |] eqn:ET; [|done..]. cbn in H.
  assert (clean_tables T) as HT by by eapply clean_new_tables.
  unfold check_program in H. repeat outcome_inv H.
  match goal with E : sem_each _ _ _ = Done ?r |- _ => destruct r as [[] s]; rename E into Hs end. injection H as <-. cbn.
  assert (derives_none any (sem_each (_check_function T url_origin evidence) (declarations program))) as Hn.
  { apply none_each. destruct Hp as [Hf _]. eapply Forall_impl; [exact Hf|]. intros f (_ & Hp & Hb). by apply none_function. }
  apply Hn in Hs as (_ & -> & _); [done|]. split; cbn; [by intros ? ? ? Hin%elem_of_nil|]. intros n t. by rewrite lookup_empty.
Qed.

(** The witness: a program with a struct, an enum, a loop over a list and a call into a
module. *)
Definition plain_example : NativeProgram := parsed (u "
struct P { x: Int, tags: List }
enum E { A(Int), B }
fn area(p: P) -> Int { return p.x * geo.side(p.x) }
fn main() -> Int {
  let mut p: P = P { x: 1, tags: [] }
  let names: List<String> = [fresh_name(3), fresh_name(4)]
  for name in names { p.x = p.x + name.length() }
  return match A(area(p)) { A(n) => n, B => 0 }
}
fn fresh_name(n: Int) -> String { let name: String = fresh_name(n - 1) return name.trim() }").

Definition plain_modules : list (ustring * imported_module) :=
  let program := parsed (u "fn side(x: Int) -> Int { return x }") in
  [(u "geo", mk_imported (u "geo") (dict_of function_name (declarations program)) [] [])].

Lemma no_ambient_authority_witness :
  check (λ _, None) ∅ plain_example plain_modules = Done (mk_report 3 4 0) ∧
  report_capability_values (mk_report 3 4 0) = 0.
Proof.
  assert (check (λ _, None) ∅ plain_example plain_modules = Done (mk_report 3 4 0)) as H by (vm_compute; reflexivity).
  split; [exact H|]. apply (no_ambient_authority (λ _, None) ∅ plain_example plain_modules); [| | |exact H].
  - apply (bool_decide_unpack _). vm_compute. exact I.
  - apply (bool_decide_unpack _). vm_compute. exact I.
  - intros key t. by rewrite lookup_empty.
Defined.
