(* ===== verification/SemanticAuthority.v ===== *)
(** The semantic checker against the other parts: the methods of a capability are those
of its contract, and a match that the checker accepts finds its arm when it runs. *)

From S2P Require Import Prelude TypeSystem Lexer Parser Mir Value NativeRuntime Ast Integrity Capability RuntimeValues RuntimeHost Interpreter Semantic SemanticScope SemanticRules.

(** * The methods of a capability *)

(** The capabilities whose methods other modules check. *)
Definition foreign_capabilities : list ustring := [u "PersistRoot"; u "PersistCaps"; u "ServeRoot"; u "ServeCaps"].

(** No method of the ergonomics modules has a capability as its receiver. *)
Definition no_collection (receiver : ustring) : bool :=
  negb (bool_decide (receiver ∈ [u "String"; u "List"; u "Map"])) && negb (starts_with (u "List<") receiver)
  && negb (starts_with (u "Map<") receiver) && negb (starts_with MODULE_TYPE_PREFIX receiver).

Lemma capability_no_collection receiver : receiver ∈ CAPABILITY_TYPES → no_collection receiver = true.
Proof.
  assert (Forall (λ receiver, no_collection receiver = true) CAPABILITY_TYPES) as H by (apply (bool_decide_unpack _); vm_compute; exact I).
  rewrite Forall_forall in H. apply H.
Qed.

Lemma no_extension T receiver method types arguments l : no_collection receiver = true →
  extension_method T receiver method types arguments l = None.
Proof.
  unfold no_collection. rewrite !andb_true_iff, !negb_true_iff. intros [[[H1 H2] H3] _]. apply bool_decide_eq_false in H1.
  assert (bool_decide (receiver = u "List") = false) as E1 by (apply bool_decide_eq_false_2; intros ->; apply H1; by right; left).
  assert (bool_decide (receiver = u "Map") = false) as E2 by (apply bool_decide_eq_false_2; intros ->; apply H1; by right; right; left).
  assert (any_list receiver = false ∧ any_map receiver = false) as [Hl Hm] by (unfold any_list, any_map; by rewrite E1, E2, H2, H3).
  unfold extension_method, map_add_method, scan_method, partition_method, any_method, map_method, chunks_method, flatten_method,
    unique_method, reduction_method, daily_method, find_method, collections_method, method_is. by rewrite E1, E2, Hl, Hm.
Qed.

(** The call of a method on a capability is decided by the tables. *)
Lemma capability_call T url_origin receiver method types arguments l s :
  receiver ∈ CAPABILITY_TYPES → receiver ∉ foreign_capabilities → receiver ∉ dom (declared_structs T) →
  _check_method_call T url_origin (Some receiver) method types arguments l s =
    (r ← lift (capability_method_type url_origin (Some receiver) method arguments l);
     _ ← (if r.2 : bool then modify add_capability else mret ()); mret r.1) s.
Proof.
  intros Hc Hf Hd. pose proof (capability_no_collection _ Hc) as Hn. unfold _check_method_call.
  rewrite bool_decide_eq_false_2.
  2: { intros Hin. apply Hf. apply list_elem_of_fmap in Hin as (x & [= ->] & Hin). exact Hin. }
  cbn [mbind option_bind]. rewrite no_extension by done. unfold base_method_call, module_alias. cbn [mbind option_bind].
  unfold no_collection in Hn. rewrite !andb_true_iff, !negb_true_iff in Hn. destruct Hn as [[[H1 _] _] ->].
  apply bool_decide_eq_false in H1.
  rewrite !(bool_decide_eq_false_2 (Some receiver = _)); [|intros [= ->]; apply H1; set_solver..].
  change (default [] (Some receiver)) with receiver. by rewrite (bool_decide_eq_false_2 (receiver ∈ _)) by done.
Qed.

(** No operation of the contract has the name of a narrowing. *)
Lemma operation_no_narrowing receiver operations method :
  assoc receiver NARROWED_OPERATIONS = Some operations → method ∈ operations → method ∉ NARROWING_METHODS.
Proof.
  assert (Forall (λ kv : ustring * list ustring, Forall (λ m, m ∉ NARROWING_METHODS) kv.2) NARROWED_OPERATIONS) as H
    by (apply (bool_decide_unpack _); vm_compute; exact I).
  intros Hin%assoc_Some Hm. rewrite Forall_forall in H. specialize (H _ Hin). rewrite Forall_forall in H. by apply H.
Qed.

(** A capability is a root with narrowings, a token with operations, or [SystemCaps]. *)
Lemma capability_kinds receiver : receiver ∈ CAPABILITY_TYPES →
  (∃ m, assoc receiver ROOT_NARROWING = Some m ∧ assoc receiver NARROWED_OPERATIONS = None) ∨
  (∃ o, assoc receiver ROOT_NARROWING = None ∧ assoc receiver NARROWED_OPERATIONS = Some o) ∨
  (receiver = u "SystemCaps" ∧ assoc receiver ROOT_NARROWING = None ∧ assoc receiver NARROWED_OPERATIONS = None).
Proof.
  assert (Forall (λ receiver,
    (is_Some (assoc receiver ROOT_NARROWING) ∧ assoc receiver NARROWED_OPERATIONS = None) ∨
    (assoc receiver ROOT_NARROWING = None ∧ is_Some (assoc receiver NARROWED_OPERATIONS)) ∨
    (receiver = u "SystemCaps" ∧ assoc receiver ROOT_NARROWING = None ∧ assoc receiver NARROWED_OPERATIONS = None)) CAPABILITY_TYPES) as H
    by (apply (bool_decide_unpack _); vm_compute; exact I).
  rewrite Forall_forall in H. intros Hin. destruct (H _ Hin) as [[[m Hm] Hn]|[[Hn [o Ho]]|Hs]]; eauto.
Qed.

Lemma net_origin_cases url_origin arguments l :
  _check_net_origin url_origin arguments l = Done () ∨ _check_net_origin url_origin arguments l = Raise (Refused 2405 l).
Proof.
  unfold _check_net_origin. destruct (head arguments ≫= string_literal); [|by left].
  destruct (url_origin _) as [[scheme [host|]]|]; [|by right..]. case_bool_decide; [by left|by right].
Qed.



(** ** What the rules of roots let through *)

(** The payload of [Err] decides nothing about the success type, a wildcard: a root of
[SystemCaps] behind [or] becomes a text, or an item of a list. *)
Lemma root_laundered :
  check (λ _, None) ∅ (parsed (u "fn main(caps: SystemCaps) -> String { let l = [Err(3) or caps.disk] return Err(3) or caps.disk }")) []
    = Done (mk_report 1 1 3).
Proof. vm_compute. reflexivity. Qed.

(** A root may not be written as a type, but its [Option] may. *)
Lemma root_behind_option :
  check (λ _, None) ∅ (parsed (u "fn f(d: DiskRoot) { }")) [] = Raise (Refused 2402 (mk_location 1 6)) ∧
  check (λ _, None) ∅ (parsed (u "fn f(d: Option<DiskRoot>) -> Option<DiskRoot> { return d }")) [] = Done (mk_report 1 0 0).
Proof. split; vm_compute; reflexivity. Qed.

(** * A match finds its arm *)

Section matches.
Context (arm_check : MatchArm → sem type_name) (run : task → act rvalue).

(** What the arm of a variant does with a value: the payload gets its name. *)
Definition arm_run (binding : option ustring) (payload : option rvalue) (body : arm_body) : act rvalue :=
  scoped (_ ← match binding, payload with Some name, Some p => define name p false | _, _ => mret () end; arm_body_value run body).

(** The values of [arms] for a variant that carries what [declared] says. *)
Definition finds_arm (shape : gmap ustring type_name) (arms : list MatchArm) (variant : ustring) : Prop :=
  ∃ binding body at_arm, mk_arm variant binding body at_arm ∈ arms ∧
    ∀ declared payload l, shape !! variant = Some declared → (declared = None ↔ payload = None) →
      (binding = None ↔ payload = None) ∧ match_arms run variant payload arms l = arm_run binding payload body.

Lemma match_loop_finds shape arms : ∀ seen result s r s', match_loop arm_check shape seen result arms s = Done (r, s') →
  ∀ variant, variant ∈ r.1 → variant ∈ seen ∨ finds_arm shape arms variant.
Proof.
  induction arms as [|[v binding body at_arm] arms IH]; intros seen result s r s'; cbn [match_loop].
  { intros [= <- <-] variant Hv. by left. }
  rewrite sem_bind_done. intros (? & s1 & [Hseen ->]%refuse_if_done & H). apply bool_decide_eq_false in Hseen.
  destruct (shape !! v) as [declared|] eqn:Ed; [|done].
  apply sem_bind_done in H as (? & s2 & [H1 ->]%refuse_if_done & H). apply sem_bind_done in H as (? & s3 & [H2 ->]%refuse_if_done & H).
  apply sem_bind_done in H as (t & s4 & _ & H). apply sem_bind_done in H as (result' & s5 & _ & H).
  intros variant Hv. destruct (decide (variant = v)) as [->|Hne].
  - right. exists binding, body, at_arm. split; [left|]. intros declared' payload l Hd Hp. rewrite Ed in Hd. injection Hd as <-.
    cbn [match_arms]. rewrite bool_decide_eq_true_2 by done. cbn [negb]. unfold arm_run.
    assert (declared = None ↔ binding = None) as Hdb.
    { destruct declared, binding; by split. }
    rewrite <- Hdb. split; [exact Hp|]. destruct binding, payload; try done; by destruct declared; intuition congruence.
  - destruct (IH _ _ _ _ _ H variant Hv) as [[->%elem_of_singleton|Hs]%elem_of_union|(b & bd & at_b & Hin & Hrun)]; [done|by left|].
    right. exists b, bd, at_b. split; [by right|]. intros declared' payload l Hd Hp. cbn [match_arms].
    rewrite bool_decide_eq_false_2 by done. cbn [negb]. by apply (Hrun declared').
Qed.
End matches.


(** The witness: a match on an [Option<Int>]. *)
Definition option_arms : list MatchArm :=
  let at1 := mk_location 1 1 in
  [mk_arm (u "None") None (ArmExpression (Literal (LitValue (VInt 0)) at1)) at1;
   mk_arm (u "Some") (Some (u "n")) (ArmExpression (Identifier (u "n") at1)) at1].

