(* ===== verification/SemanticFuel.v ===== *)
(** The semantic checker terminates: the fuel of its recursions over the texts of types
is enough, and every other recursion is on the program. *)

From S2P Require Import Prelude TypeSystem Lexer Parser Mir Value NativeRuntime Ast Capability Semantic SemanticScope SemanticTypes.

(** * Types *)

Lemma forall2b_ext {A} (f g : A → A → bool) l1 : ∀ l2, (∀ x y, x ∈ l1 → f x y = g x y) → forall2b f l1 l2 = forall2b g l1 l2.
Proof.
  induction l1 as [|x l1 IH]; intros [|y l2] H; cbn [forall2b]; try done. rewrite H by left. f_equal. apply IH.
  intros z y' Hz. apply H. by right.
Qed.

(** More fuel than the text is long changes nothing. *)
Lemma compatible_fuel m : ∀ n e a, (length e < m)%nat → (length e < n)%nat → type_compatible m e a = type_compatible n e a.
Proof.
  induction m as [|m IH]; intros [|n] e a Hm Hn; try lia. cbn [type_compatible]. destruct (_ || _ || _); [done|].
  destruct (_generic_type e) as [be ae] eqn:Ee, (_generic_type a) as [ba aa]. destruct (_ || _); [done|].
  case_bool_decide; [done|]. apply forall2b_ext. intros x y Hx.
  pose proof (generic_argument_shorter e x ltac:(by rewrite Ee)). apply IH; lia.
Qed.

Lemma validate_ends fuel : ∀ name l, (length name < fuel)%nat → validate_generic_type fuel name l ≠ NoFuel.
Proof.
  induction fuel as [|fuel IH]; intros name l Hn; [lia|]. cbn [validate_generic_type].
  destruct (_generic_type name) as [base arguments] eqn:Eg. destruct (bool_decide _); [done|].
  destruct (_ && _); [done|]. destruct (match assoc base _ with Some _ => _ | None => _ end); [done|].
  apply outcome_fold_no_fuel. intros s x Hx. apply IH. pose proof (generic_argument_shorter name x ltac:(by rewrite Eg)). lia.
Qed.

(** * Results *)

Create HintDb ends discriminated.
#[export] Hint Constants Opaque : ends.

Lemma ends_result_bind {A B} (r : semantic_result A) (f : A → semantic_result B) :
  r ≠ NoFuel → (∀ a, f a ≠ NoFuel) → (r ≫= f) ≠ NoFuel.
Proof. destruct r; cbn; [auto|done|done]. Qed.

(** A result that is no loop ends. *)
Ltac result_step :=
  match goal with
  | |- Done _ ≠ NoFuel => discriminate
  | |- Raise _ ≠ NoFuel => discriminate
  | |- (_ ≫= _) ≠ NoFuel => apply ends_result_bind; [|intros ?]
  | |- (if ?x then _ else _) ≠ NoFuel => destruct x
  | |- (match ?x with _ => _ end) ≠ NoFuel => destruct x
  | |- (let _ := _ in _) ≠ NoFuel => cbv zeta
  | |- _ ≠ NoFuel => progress cbv beta
  end.
Ltac result_ends := repeat first [solve [auto 2 with ends nocore] | result_step].

Section results.
Context (T : tables) (url_origin : ustring → option (ustring * option ustring)).

Lemma assignable_ends expected t l : _require_assignable T expected t l ≠ NoFuel.
Proof. unfold _require_assignable. result_ends. Qed.
#[local] Hint Resolve assignable_ends : ends.

Lemma unify_ends x y l : _unify_types x y l ≠ NoFuel.
Proof.
  assert (∀ left_args right_args, merge_arguments l left_args right_args ≠ NoFuel) as Hm.
  { induction left_args as [|a left_args IH]; intros [|b right_args]; cbn [merge_arguments]; result_ends. }
  unfold _unify_types. result_ends.
Qed.

Lemma call_arguments_ends f types l : _check_call_arguments T f types l ≠ NoFuel.
Proof.
  unfold _check_call_arguments. result_ends. generalize (parameters f). clear f.
  induction types as [|t types IH]; intros [|p params]; cbn [check_arguments]; result_ends.
Qed.

Lemma argument_ends types i : argument types i ≠ NoFuel.
Proof. unfold argument. result_ends. Qed.
#[local] Hint Resolve argument_ends : ends.

Lemma require_argument_ends types i expected l : require_argument T types i expected l ≠ NoFuel.
Proof. unfold require_argument. result_ends. Qed.
#[local] Hint Resolve require_argument_ends : ends.

Lemma predicate_ends arguments l : check_predicate T arguments l ≠ NoFuel.
Proof. unfold check_predicate. result_ends. Qed.
#[local] Hint Resolve predicate_ends : ends.

Lemma origin_ends arguments l : _check_net_origin url_origin arguments l ≠ NoFuel.
Proof. unfold _check_net_origin. result_ends. Qed.
#[local] Hint Resolve origin_ends : ends.

Lemma string_method_ends method types l : string_method_type T method types l ≠ NoFuel.
Proof. unfold string_method_type, arity_checked. result_ends. Qed.
Lemma list_method_ends method types arguments l : list_method_type T method types arguments l ≠ NoFuel.
Proof. unfold list_method_type, arity_checked. result_ends. Qed.
Lemma map_method_ends method types l : map_method_type T method types l ≠ NoFuel.
Proof. unfold map_method_type, arity_checked. result_ends. Qed.
Lemma capability_method_ends t method arguments l : capability_method_type url_origin t method arguments l ≠ NoFuel.
Proof. unfold capability_method_type. result_ends. Qed.

Lemma extension_ends t method types arguments l r : extension_method T t method types arguments l = Some r → r ≠ NoFuel.
Proof.
  assert (∀ b c (k : semantic_result type_name), k ≠ NoFuel → ∀ r, method_is b c k = Some r → r ≠ NoFuel) as Hm.
  { intros b c k Hk r'. unfold method_is. destruct (_ && _); [by intros [= <-]|done]. }
  refine (head_omap (λ r, r ≠ NoFuel) _ _ _).
  repeat apply Forall_cons_2; try apply Forall_nil_2; intros a;
    unfold map_add_method, scan_method, partition_method, any_method, map_method, chunks_method, flatten_method, unique_method,
      reduction_method, daily_method, find_method, collections_method;
    try (destruct (bool_decide _ && bool_decide _); [intros [= <-]; unfold one_of, with_arity; result_ends|]);
    apply Hm; unfold one_of, plain_call, with_arity; result_ends.
Qed.
End results.

#[export] Hint Resolve assignable_ends unify_ends call_arguments_ends predicate_ends string_method_ends list_method_ends
  map_method_ends capability_method_ends : ends.

(** * Checks *)

Definition ends {A} (c : sem A) : Prop := ∀ s, c s ≠ NoFuel.

Lemma ends_ret {A} (a : A) : ends (mret a).
Proof. done. Qed.
Lemma ends_bind {A B} (c : sem A) (f : A → sem B) : ends c → (∀ a, ends (f a)) → ends (c ≫= f).
Proof. intros Hc Hf s. unfold mbind, sem_bind. pose proof (Hc s). destruct (c s) as [[a s']| |]; [apply Hf|done|done]. Qed.
Lemma ends_refuse {A} code l : ends (refuse (A := A) code l).
Proof. done. Qed.
Lemma ends_bug {A} : ends (checker_bug (A := A)).
Proof. done. Qed.
Lemma ends_outside {A} what : ends (outside_checker (A := A) what).
Proof. done. Qed.
Lemma ends_refuse_if b code l : ends (refuse_if b code l).
Proof. by destruct b. Qed.
Lemma ends_ask {A} (f : checker → A) : ends (ask_checker f).
Proof. done. Qed.
Lemma ends_modify f : ends (modify f).
Proof. done. Qed.
Lemma ends_lift {A} (r : semantic_result A) : r ≠ NoFuel → ends (lift r).
Proof. intros H s. unfold lift. by destruct r. Qed.
Lemma ends_declare symbol : ends (_declare symbol).
Proof. intros s. unfold _declare. destruct (scopes s); [done|]. by case_bool_decide. Qed.

Lemma ends_scope {A} (c : sem A) : ends c → ends (in_scope c).
Proof. intros H. unfold in_scope. apply ends_bind; [apply ends_modify|intros _]. apply ends_bind; [done|intros a]. by apply ends_bind. Qed.
Lemma ends_each {A} (f : A → sem ()) l : Forall (λ x, ends (f x)) l → ends (sem_each f l).
Proof. induction 1; cbn [sem_each]; [apply ends_ret|]. apply ends_bind; [done|by intros _]. Qed.
Lemma ends_map {A B} (f : A → sem B) l : Forall (λ x, ends (f x)) l → ends (sem_map f l).
Proof.
  induction 1; cbn [sem_map]; [apply ends_ret|]. apply ends_bind; [done|intros ?]. apply ends_bind; [done|intros ?]. apply ends_ret.
Qed.

#[export] Hint Resolve ends_ret ends_refuse ends_bug ends_outside ends_refuse_if ends_ask ends_modify ends_declare : ends.

Ltac ends_step :=
  match goal with
  | |- ends (mbind _ _) => apply ends_bind; [|intros ?]
  | |- ends (in_scope _) => apply ends_scope
  | |- ends (lift _) => apply ends_lift; solve [result_ends]
  | |- ends (if ?x then _ else _) => destruct x
  | |- ends (match ?x with _ => _ end) => destruct x
  | |- ends ((λ _, _) _) => cbv beta
  | |- ends (let _ := _ in _) => cbv zeta
  end.
Ltac check_ends := repeat first [solve [auto 2 with ends nocore] | ends_step].

Section operations.
Context (T : tables) (url_origin : ustring → option (ustring * option ustring)).

Lemma ends_resolve name : ends (_resolve name).
Proof. apply ends_ask. Qed.
#[local] Hint Resolve ends_resolve : ends.
Lemma ends_unknown {A} name l : ends (_raise_unknown_identifier (A := A) name l).
Proof. unfold _raise_unknown_identifier. check_ends. Qed.
#[local] Hint Resolve ends_unknown : ends.
Lemma ends_require_bool t l : ends (_require_bool t l).
Proof. unfold _require_bool. check_ends. Qed.
#[local] Hint Resolve ends_require_bool : ends.
Lemma ends_literal v l : ends (literal_type v l).
Proof. unfold literal_type. check_ends. Qed.
Lemma ends_identifier name l : ends (identifier_type T name l).
Proof. unfold identifier_type. check_ends. Qed.
Lemma ends_member t member l : ends (member_type T t member l).
Proof. unfold member_type. check_ends. Qed.

Lemma ends_method_call t method types arguments l : ends (_check_method_call T url_origin t method types arguments l).
Proof.
  unfold _check_method_call, base_method_call. destruct (bool_decide _); [apply ends_outside|].
  destruct (t ≫= _) as [r|] eqn:Er; [|check_ends]. destruct t as [t|]; [|done]. apply ends_lift. by eapply extension_ends.
Qed.

Lemma ends_named_call name types l c : ends c → ends (named_call T name types l c).
Proof.
  intros H. unfold named_call. destruct (functions T !! name) as [f|]; [check_ends|].
  destruct (declared_variants T !! name) as [[enum v]|]; [unfold variant_call; check_ends|].
  destruct (builtin_constructor T name types l) as [r|] eqn:Er; [|exact H]. apply ends_lift. revert Er.
  unfold builtin_constructor. cbv zeta.
  repeat (match goal with |- (if ?b then _ else _) = _ → _ => destruct b end); try discriminate; intros [= <-]; result_ends.
Qed.

Lemma ends_binary operator t1 t2 l : ends (_binary_types operator t1 t2 l).
Proof. unfold _binary_types, _check_binary. check_ends. Qed.
Lemma ends_decimal_gate lhs rhs l : ends (decimal_gate T lhs rhs l).
Proof. unfold decimal_gate. check_ends. Qed.
Lemma ends_declare_let name m t annotation l : ends (declare_let T name m t annotation l).
Proof. unfold declare_let. check_ends. Qed.
Lemma ends_for_scope variable item l body : ends body → ends (for_scope variable item l body).
Proof. intros H. unfold for_scope. check_ends. Qed.
Lemma ends_assign_variable name at_name t l : ends (assign_variable T name at_name t l).
Proof. unfold assign_variable. check_ends. Qed.
Lemma ends_field_target name at_name member at_member l : ends (field_target T name at_name member at_member l).
Proof. unfold field_target. check_ends. Qed.
Lemma ends_or_else t1 t2 l1 l2 : ends (or_else_type T t1 t2 l1 l2).
Proof. unfold or_else_type. check_ends. Qed.
End operations.

#[export] Hint Resolve ends_resolve ends_unknown ends_require_bool ends_literal ends_identifier ends_member ends_method_call
  ends_binary ends_decimal_gate ends_declare_let ends_assign_variable ends_field_target ends_or_else : ends.

(** * Bodies *)

Section checker.
Context (T : tables) (url_origin : ustring → option (ustring * option ustring)) (evidence : gmap (ustring * Z * Z) TypeNode).
Context (current : FunctionDeclaration).

Abbreviation expression_check := (check_expression T url_origin evidence current).
Abbreviation receiver_check := (receiver_type T url_origin evidence current).
Abbreviation statement_check := (check_statement T url_origin evidence current).
Abbreviation block_check := (check_statements T url_origin evidence current).
Abbreviation arm_check := (arm_type T url_origin evidence current).

Definition expression_ends (e : Expression) : Prop :=
  ends (expression_check e) ∧ ends (receiver_check e) ∧ ends (_is_fallible_call T receiver_check e).

Definition tree_ends (e : Expression) : Prop :=
  expression_ends e ∧ match e with MemberExpression object _ _ => expression_ends object | _ => True end.

Definition statement_ends (s : Statement) : Prop :=
  ends (statement_check s) ∧ match s with ExpressionStatement e _ => ends (expression_check e) | _ => True end.

Definition block_ends (b : Block) : Prop := Forall statement_ends (statements b).

Lemma block_ends_check b : block_ends b → ends (block_check b).
Proof. destruct b as [l]. intros H. apply ends_each. eapply Forall_impl; [exact H|]. by intros s [Hs _]. Qed.

Lemma ends_check_return t l : ends (check_return T current t l).
Proof. unfold check_return. check_ends. Qed.
#[local] Hint Resolve ends_check_return : ends.

Lemma ends_match value arms l : ends (expression_check value) → Forall (λ a, ends (arm_check a)) arms →
  ends (_match T expression_check arm_check value arms l).
Proof.
  intros Hv Ha. unfold _match. apply ends_bind; [done|]. intros t. destruct (_enum_shape T t) as [shape|]; [|check_ends].
  apply ends_bind; [|intros ?; check_ends].
  generalize (∅ : gset ustring) (None : type_name). induction Ha as [|[variant binding body at_arm] arms Harm Ha IH]; intros seen result; cbn [match_loop].
  { apply ends_ret. }
  check_ends.
Qed.

Lemma ends_struct_literal name fields l : Forall (λ f, tree_ends f.2) fields →
  ends (_check_struct_literal T expression_check name fields l).
Proof.
  intros H. unfold _check_struct_literal. destruct (declared_structs T !! name) as [d|]; [|check_ends].
  apply ends_bind; [|intros ?; check_ends]. generalize ([] : list ustring).
  induction H as [|[n x] fields [[Hx _] _] H IH]; intros provided; cbn [struct_entries]; [apply ends_ret|].
  cbn [snd] in Hx. check_ends.
Qed.

Lemma ends_map_entries entries : Forall (λ kv, tree_ends kv.1 ∧ tree_ends kv.2) entries → ∀ keys,
  ends (map_entries T expression_check keys entries).
Proof.
  induction 1 as [|[k x] entries [[[Hk _] _] [[Hx _] _]] H IH]; intros keys; cbn [map_entries]; [apply ends_ret|].
  cbn [fst snd] in *. check_ends.
Qed.

Lemma ends_call callee arguments l : tree_ends callee → Forall tree_ends arguments →
  ends (expression_check (CallExpression callee arguments l)).
Proof.
  intros [[Hc _] Ho] Ha. assert (Forall (λ e, ends (expression_check e)) arguments) as Hargs.
  { eapply Forall_impl; [exact Ha|]. by intros e [[H _] _]. }
  pose proof (ends_map expression_check arguments Hargs) as Hm. cbn [check_expression].
  destruct callee as [name at_name| | | | | |object member at_member| | | | | | | |];
    try (apply ends_bind; [exact Hm|intros ?; exact Hc]).
  - destruct (bool_decide _); [apply ends_outside|]. apply ends_bind; [|intros _; apply ends_bind; [exact Hm|intros ?; by apply ends_named_call]].
    destruct arguments as [|x [|]]; [check_ends| |check_ends]. apply Forall_cons in Hargs as [Hx _]. check_ends.
  - destruct Ho as [Ho _]. apply ends_bind; [exact Hm|intros ?]. apply ends_bind; [exact Ho|intros ?]. check_ends.
Qed.

Lemma ends_fallible_call callee arguments l : tree_ends callee →
  ends (_is_fallible_call T receiver_check (CallExpression callee arguments l)) ∧
  ends (receiver_check (CallExpression callee arguments l)).
Proof.
  intros [_ Ho]. cbn [_is_fallible_call receiver_type].
  destruct callee as [name at_name| | | | | |object member at_member| | | | | | | |]; try (split; check_ends).
  all: destruct Ho as (_ & Ho & _); exact Ho.
Qed.

Lemma ends_block_value l : Forall statement_ends l →
  ends (block_value statement_check
    (λ tail, match tail with
             | ExpressionStatement e _ => expression_check e
             | _ => _ ← statement_check tail; mret (Some (u "Void"))
             end) l).
Proof.
  induction 1 as [|s l [Hs He] Hl IH]; cbn [block_value]; [apply ends_ret|]. destruct l as [|s' l].
  - destruct s; try (apply ends_bind; [exact Hs|intros ?; apply ends_ret]). exact He.
  - apply ends_bind; [exact Hs|intros _; exact IH].
Qed.

Ltac ends_node H := apply H; cbn [check_expression receiver_type _is_fallible_call]; try exact I; try assumption; try (solve [check_ends]).

Lemma ends_tree : tree_cases tree_ends (λ a, ends (arm_check a)) statement_ends block_ends.
Proof.
  assert (∀ e, ends (expression_check e) → ends (receiver_check e) → ends (_is_fallible_call T receiver_check e) →
            (match e with MemberExpression object _ _ => expression_ends object | _ => True end) → tree_ends e) as Htree by done.
  split.
  - intros name l. ends_node Htree.
  - intros v l. ends_node Htree.
  - intros parts l H. ends_node Htree.
    apply ends_bind; [|intros _; apply ends_bind; [|intros _; apply ends_ret]]; apply ends_each;
      (eapply Forall_impl; [exact H|]); intros e ((H1 & H2 & H3) & _); unfold data_part, interpolation_part; check_ends.
  - intros name fields l H. ends_node Htree. by apply ends_struct_literal.
  - intros items l H. ends_node Htree. apply ends_bind; [|intros _; apply ends_ret]. apply ends_each.
    eapply Forall_impl; [exact H|]. intros e ((H1 & H2 & H3) & _). unfold list_item_check. check_ends.
  - intros entries l H. ends_node Htree. apply ends_bind; [|intros _; apply ends_ret]. by apply ends_map_entries.
  - intros object member l [Ho Ho']. ends_node Htree. all: destruct Ho as (H1 & H2 & H3); check_ends.
  - intros callee arguments l Hc Ha. destruct (ends_fallible_call callee arguments l Hc). apply Htree; try done. by apply ends_call.
  - intros target value l [[Ht _] Hm] [[Hv _] _]. ends_node Htree.
    destruct target as [| | | | | |object ? ?| | | | | | | |]; try (check_ends; fail).
    destruct object; unfold declared_item; check_ends.
  - intros lhs operator rhs l [[H1 _] _] [[H2 _] _]. ends_node Htree.
  - intros operator operand l [[H1 _] _]. ends_node Htree.
  - intros value error l [[H1 _] _] H2. ends_node Htree.
    destruct error as [e|]; [destruct (H2 e eq_refl) as [[He _] _]|]; check_ends.
  - intros value fallback l [[H1 _] _] [[H2 _] _]. ends_node Htree.
  - intros value handler l [[H1 _] _] Hb%block_ends_check. ends_node Htree.
  - intros value arms l [[H1 _] _] Ha. pose proof (ends_match value arms l H1 Ha). ends_node Htree.
  - intros variant binding e l [[H _] _]. exact H.
  - intros variant binding [l'] l H. cbn [arm_type]. apply ends_scope. by apply ends_block_value.
  - intros name m value l annotation [[H _] _]. split; [|done]. cbn [check_statement]. check_ends.
  - intros value l H. split; [|done]. cbn [check_statement].
    apply ends_bind; [|intros ?; check_ends]. destruct value as [e|]; [|check_ends]. by destruct (H e eq_refl) as [[He _] _].
  - intros e l [(H1 & H2 & H3) _]. split; [|exact H1]. cbn [check_statement]. check_ends.
  - intros condition b e l [[Hc _] _] Hb%block_ends_check He Hs. split; [|done]. cbn [check_statement].
    apply ends_bind; [done|intros t]. apply ends_bind; [check_ends|intros _]. apply ends_bind; [by apply ends_scope|intros _].
    destruct e as [[b'|s]|]; [|destruct s as [| | |c b1 e1 l1| | | |]|]; try apply ends_ret.
    + apply ends_scope, block_ends_check. by apply He.
    + by destruct (Hs _ eq_refl) as [Hs' _].
  - intros condition b l [[Hc _] _] Hb%block_ends_check. split; [|done]. cbn [check_statement]. check_ends.
  - intros variable iterable b l [[Hi _] _] Hb%block_ends_check. split; [|done]. cbn [check_statement].
    apply ends_bind; [exact Hi|intros t]. cbv zeta. check_ends. by apply ends_for_scope.
  - intros l. split; [|done]. cbn [check_statement]. check_ends.
  - intros l. split; [|done]. cbn [check_statement]. check_ends.
  - intros l H. exact H.
Qed.

Lemma ends_function : ends (_check_function T url_origin evidence current).
Proof.
  unfold _check_function. apply ends_scope, ends_bind; [|intros _; apply block_ends_check, (tree_induction _ _ _ _ ends_tree)].
  apply ends_each, Forall_forall. intros p _. check_ends.
Qed.
End checker.

(** * Programs *)

Section programs.
Context (T : tables).

Lemma names_end l r : validate_names l r ≠ NoFuel.
Proof. apply outcome_fold_no_fuel. intros _ name _. apply validate_ends. lia. Qed.
#[local] Hint Resolve names_end : ends.

Lemma enum_ends seen d : check_enum T seen d ≠ NoFuel.
Proof.
  unfold check_enum. result_ends. apply outcome_fold_no_fuel. intros s v _. unfold check_variant, check_payload. result_ends.
Qed.
Lemma struct_ends d : check_struct d ≠ NoFuel.
Proof. unfold check_struct. result_ends. apply outcome_fold_no_fuel. intros s f _. unfold check_field. result_ends. Qed.

Lemma signature_ends f : _validate_function_signature T f ≠ NoFuel.
Proof.
  unfold _validate_function_signature, main_signature. result_ends; apply outcome_fold_no_fuel; intros _ p _;
    unfold check_parameter_roots; result_ends.
Qed.
End programs.

Lemma tables_end program modules : new_tables program modules ≠ NoFuel.
Proof.
  assert (∀ enum owner check l index m, add_variants enum owner check index m l ≠ NoFuel) as Hv.
  { induction l as [|v l IH]; intros index m; cbn [add_variants]; [done|]. destruct (_ && _); [done|apply IH]. }
  unfold new_tables, own_variants. result_ends; apply outcome_fold_no_fuel; [by intros|].
  intros ms item _. unfold add_module. result_ends; apply outcome_fold_no_fuel; intros m [name o] _.
  - unfold add_struct. result_ends.
  - unfold add_enum. result_ends.
Qed.

